(* ===== verification/_CoqProject ===== *)
-Q . S2P
Prelude.v
Errors.v
IcebergLite.v
Bytes.v
DecimalNumeric.v
NumericAggregate.v
PredicateTree.v
Expressions.v
PlanData.v
IcebergPredicate.v
PredicatePolicy.v
ArrowCodec.v
ArrowWrite.v
PredicateMeaning.v
PredicateBinding.v
IcebergFilter.v
Normalize.v
NormalizeMeaning.v
ReferenceExecutor.v
FilterNegotiation.v
FilterCodec.v
FilterRuntime.v
PushdownScan.v
QueryPruning.v
WalRecord.v
WalReplay.v
PostCommitDelete.v
VacuumCleanup.v
Transaction.v
WorkerSlot.v
WorkerStore.v
WorkerProtocol.v
WorkerScheduler.v
WorkerActions.v
RowIdentity.v
ActionLog.v
CommitPlan.v
TableState.v
RowRegistry.v
ManagedState.v
StorageResources.v
Catalog.v
CommitLoop.v
