(* ===== verification/Prelude.v ===== *)
(** * LagoDB: a verification of its transaction, recovery and worker machinery

    LagoDB adds Iceberg tables to PostgreSQL.  A backend stages the changes of a
    transaction in memory, follows PostgreSQL's savepoints, publishes the result
    with a compare-and-swap on a catalog row, and cleans up files on either
    outcome; recovery replays the file changes of other servers; background
    workers run maintenance.  The development models these parts as functions and
    step relations over explicit state, in the order in which they use each
    other.  Names follow the source; a definition whose name differs carries the
    name of its Rust type first (TxMetadata_on_abort_sub).

    ** Parts, files and sources

    - This file: results and errors as values, fixed-width integer bounds, the
      notations of lago_scope, the lago hint database and generic lemmas.
      Errors.v: IcebergError (lagodb-iceberg/src/error.rs).
    - IcebergLite.v: the external Iceberg library as a class of operations with
      the laws the transaction layer relies on, and a reference instance.
    - RowIdentity.v: the synthetic ctid of an Iceberg row and of a trigger row
      (write/row_identity.rs, core table_am/modify/trigger_rows.rs).
    - ActionLog.v, CommitPlan.v, TableState.v: the per-table action log with its
      read caches, its commit plan and its savepoint history
      (write/transaction).  RowRegistry.v: file ids and first-modifier claims
      (write/registry.rs).  ManagedState.v: storage generations and the tracker of
      all tables of a transaction (managed_table/catalog/metadata_tracker).
    - StorageResources.v: files, directories and uploads owned by a transaction
      (storage/transaction_resources).  Catalog.v: the metadata catalog row and
      its swap (catalog/metadata_table.rs).  CommitLoop.v: the retry loop that
      composes plan, storage attempt and swap (metadata_tracker/commit.rs).
    - Bytes.v, WalRecord.v, WalReplay.v: WAL records of local files, their
      parsers, redo, and the writer that logs them (storage/local_file_wal,
      storage/local.rs).  PostCommitDelete.v: deletion after commit
      (storage/post_commit_delete.rs).  Transaction.v: transaction callbacks and
      pending deletes (core transaction, core resource/committed_cleanup.rs).
    - WorkerSlot.v, WorkerStore.v, WorkerProtocol.v, WorkerScheduler.v,
      WorkerActions.v: the shared slots, the store operations, the processes that
      run them, the supervisor's queue and the requests of transactions
      (lagodb-base/src/worker).
    - DecimalNumeric.v: NUMERIC and Decimal128 (core datum/numeric.rs,
      datum/decimal128.rs).  NumericAggregate.v: the exchange form of numeric
      aggregate states (lagodb-arrow/src/numeric_aggregate).
    - PredicateTree.v: the predicate trees of the WHERE clause, their three-valued
      meaning and the walker that asks a provider for a plan (core expr/boolean.rs,
      expr/contract.rs, expr/pushdown/ir.rs and tree.rs).  Expressions.v:
      operators, operands and runtime values (core expr), over the class
      PgBackend of PostgreSQL's own operators.
    - PlanData.v: the codec of plan-carried lists (core plan_data, expr/codec.rs).
      IcebergPredicate.v: the planned predicates of an Iceberg scan and their codec
      (lagodb-iceberg/src/predicate/plan.rs).
    - PredicatePolicy.v: which filters Iceberg takes, and the planner
      (predicate/policy, predicate/planner.rs, schema/relation.rs).
      PredicateMeaning.v: the meaning of a planned predicate over stored rows and
      the soundness of the planner.  PredicateBinding.v: binding to runtime values
      (predicate/binding.rs, builder.rs, temporal.rs).  IcebergFilter.v: planner
      and binder composed.
    - ArrowCodec.v, ArrowWrite.v: conversions between datums and Arrow values, the
      batch buffer and the row decoder (lagodb-arrow/src, core datum/codec.rs).
    - Normalize.v: PostgreSQL expression trees and their normalisation to
      predicates (core expr/normalize); NormalizeMeaning.v: the normal form has the
      meaning of the expression, over the classes PgNodes and PgExecutor of
      PostgreSQL's nodes and executor; ReferenceExecutor.v: an instance of them.
    - FilterNegotiation.v: the split of a scan's clauses between provider and
      PostgreSQL; FilterCodec.v: the negotiated filters in the plan;
      FilterRuntime.v: slot values and bound filters of a running scan;
      PushdownScan.v: all of these composed, from clauses to returned rows;
      QueryPruning.v: the pruning plan of query scans (core expr/pushdown, core fdw/scan,
      core query).
    ** What the theorems show

    - Savepoints: each incremental undo structure (table history, row claims,
      tracker with rebuild frames, pending deletes, staged worker requests)
      refines a machine that copies everything at SAVEPOINT, for every sequence
      of statements and savepoint commands.
    - Reads and commit: cached overlays equal the uncached replay; the commit plan
      publishes the same overlay; a commit publishes exactly one attempt, derived
      from the location the swap saw, and leaves nothing behind on error.
    - Files: an abort restores the file system, a commit keeps what it owns,
      deletion is write-ahead logged, replay rebuilds a file byte for byte, and
      record codecs are inverse on their domains.
    - Workers: at most one process per worker and per coordinator in every
      interleaving, no start request is lost, a due worker can be started, the
      queue and its rounds terminate, backoff is bounded.
    - Values: decimals, aggregate states, batches of rows and planned predicates
      survive their encodings; the values that do not are characterised.
    - Filters: an exact filter keeps exactly the rows on which the clause is TRUE
      and always binds; a widened one never loses such a row.
    - Scans: the rows that a scan with pushed filters returns are exactly the rows
      on which every clause is TRUE, through negotiation, plan encoding, binding and
      rescans; the bound filters are those of the current slot values; a pruning
      plan of a query scan is implied by its clauses.
    ** Bounds and fuel

    Machine integers are [Z] with their bounds as hypotheses or invariants, and
    wrap-around written out where the code casts.  Loops are structural recursion
    over a list or over a length whose decrease is proved, except for these.  The
    commit loop has no bound in the source: its fuel is the number of attempts,
    the safety theorems hold for every fuel, and commit_progress proves that one
    attempt suffices without interference.  The digit loops on an [i128] or an
    aggregate's coefficient run 128, 256 and 19 times at most, one more than the
    digits a value of that width has (decimal_digit_count, count_loop,
    digits_loop).  The decoder of a planned predicate goes into nested lists, so
    its fuel is the depth of the list it reads (decode_planned).

    ** What is external

    PostgreSQL (heap, WAL insertion, dynamic shared memory, background workers,
    executor and planner nodes), the file system, object storage and the Iceberg
    library are outside the repository.  They are parameters: type classes with
    the documented behaviour as laws, each with an instance that satisfies them.
    The language and its standard library are modelled.

    ** Not modelled

    - Nested lists, maps, structs and JSONB in lagodb-arrow: recursive value trees
      over Arrow's own builders; the scalar and list columns are modelled.
    - lagodb-query and the query host of lagodb-base: they translate PostgreSQL
      plans to DataFusion, whose semantics the repository does not contain.
    - lagodb-connectors, the foreign-data wrappers and COPY: adapters from
      remote protocols and file formats to the reader interfaces.
    - Planner and executor glue (custom scans, table access method callbacks,
      utility hooks, GUCs, EXPLAIN, cost estimates): calls into PostgreSQL with no
      state of their own; costs are floating-point heuristics.
    - The object store, its caches and the asynchronous runtime: network I/O.
    - Maintenance planning and ANALYZE: they rewrite or sample data files through
      the Iceberg library.
    - Procedural macros, xtask, test crates and scripts: build-time code. *)

From stdpp Require Import base gmap list strings pretty sorting.
From Stdlib Require Import ZArith Lia.

(** ** Results

    Rust's [Result<A, E>]: the error type comes first so that [result E] is
    the monad that the [?] operator threads. *)
Inductive result (E A : Type) : Type :=
| Ok (a : A)
| Err (e : E).
Arguments Ok {E A} a.
Arguments Err {E A} e.

#[export] Instance result_ret {E} : MRet (result E) := λ A a, Ok a.
#[export] Instance result_bind {E} : MBind (result E) := λ A B f m,
  match m with
  | Ok a => f a
  | Err e => Err e
  end.
#[export] Instance result_fmap {E} : FMap (result E) := λ A B f m,
  match m with
  | Ok a => Ok (f a)
  | Err e => Err e
  end.

Definition is_ok {E A} (r : result E A) : bool :=
  match r with Ok _ => true | Err _ => false end.

(** [Option::ok_or] and [Result::map_err]. *)
Definition ok_or {E A} (o : option A) (e : E) : result E A :=
  match o with Some a => Ok a | None => Err e end.

Definition map_err {E F A} (f : E → F) (r : result E A) : result F A :=
  match r with Ok a => Ok a | Err e => Err (f e) end.

(** [Iterator::try_fold]. *)
Fixpoint try_fold {E A B} (f : B → A → result E B) (acc : B) (l : list A) : result E B :=
  match l with
  | [] => Ok acc
  | a :: l' => acc' ← f acc a; try_fold f acc' l'
  end.

(** [iter().map(f).collect::<Result<Vec<_>, _>>()]. *)
Section collect.
Context {E A B : Type} (f : A → result E B).

Fixpoint collect (l : list A) : result E (list B) :=
  match l with
  | [] => Ok []
  | a :: l' => b ← f a; bs ← collect l'; Ok (b :: bs)
  end.
End collect.

(** ** Machine integers

    A [w]-bit integer is a [Z] kept in its range; the operations below write
    out the wrap, check or saturation of the Rust method of the same name.
    [usize] is 64 bits wide: PostgreSQL 16-18 and this extension target
    64-bit platforms. *)
Definition u8_max : Z := 2 ^ 8 - 1.
Definition u16_max : Z := 2 ^ 16 - 1.
Definition u32_max : Z := 2 ^ 32 - 1.
Definition u64_max : Z := 2 ^ 64 - 1.
Definition usize_max : Z := u64_max.
Definition i32_max : Z := 2 ^ 31 - 1.
Definition i64_max : Z := 2 ^ 63 - 1.
Definition i64_min : Z := - 2 ^ 63.

Definition is_u32 (z : Z) : bool := (0 <=? z)%Z && (z <=? u32_max)%Z.
Definition is_u64 (z : Z) : bool := (0 <=? z)%Z && (z <=? u64_max)%Z.

Definition checked_add (max a b : Z) : option Z :=
  if (a + b <=? max)%Z then Some (a + b)%Z else None.
Definition saturating_add (max a b : Z) : Z := Z.min max (a + b).
Definition saturating_mul (max a b : Z) : Z := Z.min max (a * b).
Definition saturating_sub (a b : Z) : Z := Z.max 0 (a - b).
Definition i64_saturate (z : Z) : Z := Z.max i64_min (Z.min i64_max z).

(** [i64::saturating_add] and [i64::saturating_sub]. *)
Declare Scope lago_scope.
Delimit Scope lago_scope with lago.
Notation "a +ₛ b" := (i64_saturate (a + b)) (at level 50, left associativity) : lago_scope.
Notation "a -ₛ b" := (i64_saturate (a - b)) (at level 50, left associativity) : lago_scope.

(** Range constants are opaque to [simpl] and unfolded by [widths]. *)
Ltac widths :=
  unfold is_u32, is_u64, usize_max, u8_max, u16_max, u32_max, u64_max, i32_max, i64_max, i64_min in *.

Ltac width_lia := widths; lia.

(** [lia] with the quotients and remainders by constants spelled out. *)
Ltac div_lia := Z.to_euclidean_division_equations; lia.

(** ** Tactics *)

(** Split every boolean test that the goal or a hypothesis still matches on,
    turning it into the proposition it decides. *)
Ltac case_bool :=
  match goal with
  | |- context [ if ?b then _ else _ ] => let H := fresh "Hif" in destruct b eqn:H
  | H : context [ if ?b then _ else _ ] |- _ => let H' := fresh "Hif" in destruct b eqn:H'
  end.

(** The lemmas that close the routine side conditions of the components. *)
Create HintDb lago.

(** ** Lists *)

Lemma omap_all_None {A B} (f : A → option B) l : (∀ x, x ∈ l → f x = None) → omap f l = [].
Proof.
  induction l as [|x l IH]; intros Hx; [done|]. csimpl.
  rewrite (Hx x) by set_solver. apply IH. set_solver.
Qed.

Lemma collect_Forall2 {E A B} (f : A → result E B) l bs : collect f l = Ok bs → Forall2 (λ a b, f a = Ok b) l bs.
Proof.
  revert bs. induction l as [|a l IH]; intros bs; simpl; [by intros [= <-]|].
  destruct (f a) as [b|] eqn:Hb; [|done]. csimpl. destruct (collect f l) as [bs'|]; [|done].
  intros [= <-]. constructor; auto.
Qed.

Lemma is_ok_Ok {E A} (r : result E A) d : is_ok r = true → r = Ok (match r with Ok a => a | Err _ => d end).
Proof. by destruct r. Qed.

Lemma elem_of_middle {A} (x y : A) l k : x ∈ l ++ y :: k ↔ x ∈ l ∨ x = y ∨ x ∈ k.
Proof. by rewrite elem_of_app, elem_of_cons. Qed.

Lemma filter_id {A} (P : A → Prop) `{∀ x, Decision (P x)} l : Forall P l → filter P l = l.
Proof. induction 1; [done|]. rewrite filter_cons_True by done. by f_equal. Qed.

Lemma filter_keeps {A} (P Q : A → Prop) `{∀ x, Decision (P x)} l : Forall Q l → Forall Q (filter P l).
Proof. rewrite !Forall_forall. intros HQ x [_ Hx]%list_elem_of_filter. auto. Qed.

Lemma filter_sound {A} (P : A → Prop) `{∀ x, Decision (P x)} l : Forall P (filter P l).
Proof. rewrite Forall_forall. by intros x [Hx _]%list_elem_of_filter. Qed.

#[export] Hint Resolve filter_keeps filter_sound : lago.

(** ** Words *)

(** Disjoint bit fields: [lor] is addition. *)
Lemma lor_shiftl_add a b n :
  (0 ≤ n → 0 ≤ b < 2 ^ n → Z.lor (Z.shiftl a n) b = a * 2 ^ n + b)%Z.
Proof.
  intros Hn Hb. rewrite <- Z.shiftl_mul_pow2 by done.
  rewrite <- Z.lxor_lor, <- Z.add_nocarry_lxor; [done| |].
  all: apply Z.bits_inj'; intros i Hi; rewrite Z.land_spec, Z.bits_0, Z.shiftl_spec by done;
    destruct (Z.lt_ge_cases i n).
  1, 3: by rewrite Z.testbit_neg_r by lia.
  all: rewrite andb_comm; replace b with (b mod 2 ^ n)%Z by (apply Z.mod_small; lia);
    by rewrite Z.mod_pow2_bits_high by lia.
Qed.
