(* ===== verification/Errors.v ===== *)
(** * Domain errors

    [IcebergError] (lagodb-iceberg/src/error.rs) with the catalog and VACUUM
    errors it wraps.  [L] stands for [iceberg_lite::Error], the error type of
    the external Iceberg library; the errors of other crates that are only
    passed through are kept as their rendered text. *)
From stdpp Require Import base strings.
From Stdlib Require Import ZArith.
From S2P Require Import Prelude.

(** An error of a crate outside the model, rendered. *)
Definition ForeignError : Type := string.

Inductive MetadataCatalogOperation : Type := Access | Insert | Read | Update | Delete.

Inductive MetadataCatalogError : Type :=
| Operation (operation : MetadataCatalogOperation) (source : ForeignError)
| NotFound (relid : Z)
| AlreadyExists (relid : Z)
| InvalidRecord (reason : string)
| Conflict.

Inductive IcebergVacuumError : Type :=
| GcDisabled
| ActionConflict
| InvalidPolicy (reason : string)
| UnsafePath (path : string)
| ResourceLimit (reason : string)
| UnexpectedToastRelation (relid : Z).

Inductive IcebergError (L : Type) : Type :=
| MetadataCatalog (source : MetadataCatalogError)
| Vacuum (source : IcebergVacuumError)
| MetadataTracker (message : string)
| FileIdLimitExceeded (max_files : Z)
| RowIdentityLimitExceeded
| AnalyzeTidCapacityExceeded
| MetadataCommitConflict (relid max_retries : Z)
| TruncateCommitConflict (relid : Z)
| TablespaceStorageError (source : ForeignError)
| TableOptionError (source : ForeignError)
| StorageError (source : ForeignError)
| ObjectCleanupError (source : ForeignError)
| AutomaticMaintenanceNotification (source : ForeignError)
| ManagedTableLocationMissing (relid : Z)
| InvalidManagedTableLocation (location reason : string)
| ManagedTableLocationNotEmpty (location : string)
| ManagedTableLocationCleanupPending (location : string)
| Postgres (report : ForeignError)
| ArrowConversion (source : ForeignError)
| TablespaceNotFound
| NamespaceNull
| MetadataLocationNull
| SchemaBuildError (message : string)
| InvalidPartitionDefinition (message : string)
| UnsupportedPartitionDefinition (message : string)
| ColumnNotFound (column : string)
| UnsupportedColumnType (column : string)
| ImportColumnError (column type_name : string)
| ParseFloatError (source : ForeignError)
| DatetimeConversionError (source : ForeignError)
| UuidConversionError (source : ForeignError)
| NumericError (source : ForeignError)
| IcebergLiteError (source : L)
| SchemaEvolutionConflict (source : L)
| ArrowError (source : ForeignError)
| ArrowTypeMismatch (expected : string)
| SpiError (message : string)
| BinaryCodecError (source : ForeignError)
| InvariantViolated (message : string)
| NotImplemented (message : string).
Arguments MetadataCatalog {L}.
Arguments Vacuum {L}.
Arguments MetadataTracker {L}.
Arguments FileIdLimitExceeded {L}.
Arguments RowIdentityLimitExceeded {L}.
Arguments AnalyzeTidCapacityExceeded {L}.
Arguments MetadataCommitConflict {L}.
Arguments TruncateCommitConflict {L}.
Arguments MetadataLocationNull {L}.
Arguments IcebergLiteError {L}.
Arguments SchemaEvolutionConflict {L}.
Arguments InvariantViolated {L}.
Arguments NotImplemented {L}.

Abbreviation IcebergResult L := (result (IcebergError L)).
