(* ===== verification/IcebergLite.v ===== *)
(** * The external Iceberg library

    [iceberg_lite] is a separate crate that is not part of the repository.  The
    types and operations of it that the transaction layer uses are the fields of
    one class, and what the transaction layer relies on about snapshot deltas is
    stated as laws.  A reference instance, in which a delta is a list of created
    files and a base-truncation flag, shows that the laws can hold. *)
From stdpp Require Import base gmap list strings.
From Stdlib Require Import ZArith Lia Btauto.
From S2P Require Import Prelude Errors.

Class IcebergLite := {
  LiteError : Type;
  (** [iceberg_lite::overlay] *)
  SnapshotDelta : Type;
  DataFile : Type;
  DeleteFileIdentity : Type;
  sd_new : SnapshotDelta;
  sd_is_empty : SnapshotDelta → bool;
  sd_add_data_file : SnapshotDelta → DataFile → result LiteError SnapshotDelta;
  sd_remove_delete_file : SnapshotDelta → DeleteFileIdentity → result LiteError SnapshotDelta;
  sd_add_position_delete_file :
    SnapshotDelta → DataFile → list string → result LiteError SnapshotDelta;
  sd_append_delta : SnapshotDelta → SnapshotDelta → result LiteError SnapshotDelta;
  sd_truncate_table : SnapshotDelta → result LiteError SnapshotDelta;
  sd_created_file_paths : SnapshotDelta → list string;
  sd_canceled_created_file_paths : SnapshotDelta → list string;
  (** [iceberg_lite::spec] *)
  TableMetadata : Type;
  SchemaRef : Type;
  FormatVersion : Type;
  format_version_eq_dec :: EqDecision FormatVersion;
  md_format_version : TableMetadata → FormatVersion;
  md_current_schema : TableMetadata → SchemaRef;
  (** [into_builder(None).set_properties(..)?.build()?.metadata] *)
  md_set_properties : TableMetadata → gmap string string → result LiteError TableMetadata;
  (** [Error::new(FeatureUnsupported, "ALTER TABLE cannot change ...")] *)
  format_change_error : FormatVersion → FormatVersion → LiteError;
  (** [iceberg_lite::transaction] *)
  RowDeltaValidation : Type;
  PreparedSchemaUpdate : Type;
  su_is_empty : PreparedSchemaUpdate → bool;
  su_validate_base_metadata : PreparedSchemaUpdate → TableMetadata → result LiteError unit;
  su_apply_to_metadata :
    PreparedSchemaUpdate → TableMetadata → result LiteError TableMetadata;
  Transaction : Type;
  tx_apply_schema : PreparedSchemaUpdate → Transaction → result LiteError Transaction;
  tx_apply_properties : gmap string string → Transaction → result LiteError Transaction;
  (** [snapshot_delta(d)] and [row_delta(d).add_validations(vs)], with
      [truncate_base()] when the flag is set, then [apply]. *)
  tx_apply_snapshot_delta : SnapshotDelta → bool → Transaction → result LiteError Transaction;
  tx_apply_row_delta :
    SnapshotDelta → list RowDeltaValidation → bool → Transaction → result LiteError Transaction;
}.

(** What the overlay code relies on: appending is a partial monoid action of
    deltas on deltas whose unit is the new delta, and a delta that reports itself
    empty has no effect when appended. *)
Class SnapshotDeltaLaws (IL : IcebergLite) : Prop := {
  sd_new_is_empty : sd_is_empty sd_new = true;
  sd_append_new_l : ∀ d, sd_append_delta sd_new d = Ok d;
  sd_append_empty_r : ∀ c d, sd_is_empty d = true → sd_append_delta c d = Ok c;
  sd_append_assoc : ∀ c a b,
    (ab ← sd_append_delta a b; sd_append_delta c ab) =
    (ca ← sd_append_delta c a; sd_append_delta ca b);
}.

(** The net effect of a delta on a table: what truncating and appending do to it.
    Truncating forgets the base and everything the delta had added. *)
Class SnapshotDeltaView (IL : IcebergLite) (V : Type) := {
  view : SnapshotDelta → V;
  v_truncated : V;
  v_append : V → V → V;
  view_truncate : ∀ d d', sd_truncate_table d = Ok d' → view d' = v_truncated;
  view_append : ∀ c d c', sd_append_delta c d = Ok c' → view c' = v_append (view c) (view d);
}.

(** ** A reference instance *)

(** A delta records whether the base was truncated, every file it ever created
    and the created files that are still live; appending refuses a file that
    the left delta already created.  It is only used to instantiate the laws and
    to evaluate witnesses. *)
Record ref_delta := RefDelta {
  rd_truncated : bool;
  rd_created : list string;
  rd_live : list string;
}.

Definition fresh_in (P l : list string) : bool :=
  forallb (λ f, negb (bool_decide (f ∈ P))) l.

Definition ref_append (c d : ref_delta) : result string ref_delta :=
  if fresh_in (rd_created c) (rd_created d)
  then Ok (RefDelta (rd_truncated c || rd_truncated d) (rd_created c ++ rd_created d)
             (if rd_truncated d then rd_live d else rd_live c ++ rd_live d))
  else Err "duplicate file"%string.

Definition ref_is_empty (d : ref_delta) : bool :=
  match d with RefDelta false [] [] => true | _ => false end.

#[export] Instance ref_lite : IcebergLite := {|
  LiteError := string;
  SnapshotDelta := ref_delta;
  DataFile := string;
  DeleteFileIdentity := string;
  sd_new := RefDelta false [] [];
  sd_is_empty := ref_is_empty;
  sd_add_data_file d f := ref_append d (RefDelta false [f] [f]);
  sd_remove_delete_file d _ := Ok d;
  sd_add_position_delete_file d f _ := ref_append d (RefDelta false [f] [f]);
  sd_append_delta := ref_append;
  sd_truncate_table d := Ok (RefDelta true (rd_created d) []);
  sd_created_file_paths := rd_created;
  sd_canceled_created_file_paths d := filter (λ f, f ∉ rd_live d) (rd_created d);
  TableMetadata := gmap string string * list string;
  SchemaRef := list string;
  FormatVersion := nat;
  md_format_version _ := 2;
  md_current_schema := snd;
  md_set_properties m p := Ok (p ∪ fst m, snd m);
  format_change_error _ _ := "format version"%string;
  RowDeltaValidation := string;
  PreparedSchemaUpdate := list string;
  su_is_empty u := match u with [] => true | _ => false end;
  su_validate_base_metadata _ _ := Ok tt;
  su_apply_to_metadata u m := Ok (fst m, snd m ++ u);
  Transaction := list string;
  tx_apply_schema u t := Ok (t ++ u);
  tx_apply_properties _ t := Ok t;
  tx_apply_snapshot_delta d b t := Ok ((if b then [] else t) ++ rd_live d);
  tx_apply_row_delta d _ b t := Ok ((if b then [] else t) ++ rd_live d);
|}.

Lemma fresh_nil l : fresh_in [] l = true.
Proof.
  induction l as [|x l IH]; [done|]. unfold fresh_in in *; cbn [forallb]. rewrite IH.
  by rewrite bool_decide_eq_false_2 by apply not_elem_of_nil.
Qed.

Lemma fresh_app_r P l1 l2 : fresh_in P (l1 ++ l2) = fresh_in P l1 && fresh_in P l2.
Proof. apply List.forallb_app. Qed.

Lemma fresh_app_l P Q l : fresh_in (P ++ Q) l = fresh_in P l && fresh_in Q l.
Proof.
  induction l as [|x l IH]; [done|]. unfold fresh_in in *; cbn [forallb]. rewrite IH.
  assert (bool_decide (x ∈ P ++ Q) = bool_decide (x ∈ P) || bool_decide (x ∈ Q)) as ->; [|btauto].
  rewrite <- bool_decide_or. apply bool_decide_ext, elem_of_app.
Qed.

#[export] Instance ref_laws : SnapshotDeltaLaws ref_lite.
Proof.
  split; simpl; unfold ref_append, ref_is_empty.
  - done.
  - intros [[] fs ls]; simpl; by rewrite fresh_nil.
  - intros [b fs ls] [[] [|] [|]]; simpl; try done. by rewrite orb_false_r, !app_nil_r.
  - intros [tc fc lc] [ta fa la] [tb fb lb]; simpl.
    destruct (fresh_in fa fb) eqn:Eb, (fresh_in fc fa) eqn:Ea, (fresh_in fc fb) eqn:Ec; simpl;
      rewrite ?fresh_app_r, ?fresh_app_l, ?Ea, ?Eb, ?Ec; simpl; try done.
    destruct tc, ta, tb; simpl; by rewrite ?app_assoc.
Qed.

#[export] Instance ref_view : SnapshotDeltaView ref_lite (bool * list string).
Proof.
  refine {| view := λ d : @SnapshotDelta ref_lite, (rd_truncated d, rd_live d);
            v_truncated := (true, []);
            v_append := λ c d : bool * list string,
              (fst c || fst d, if fst d then snd d else snd c ++ snd d) |}.
  - by intros d d' [= <-].
  - simpl. intros c d c'. unfold ref_append. case_match; intros [= <-]; done.
Defined.
