(* ===== verification/Bytes.v ===== *)
(** * Bytes

    The byte-level vocabulary of the WAL and codec components: [u8] values,
    native-endian integer images, slices with Rust's bounds checks and the
    UTF-8 validator of [core::str::from_utf8].  A Rust [String] is the list of
    its bytes; that it is valid UTF-8 is the hypothesis [utf8_valid]. *)
From stdpp Require Import base gmap list countable strings.
From Stdlib Require Import ZArith Lia.
From Stdlib Require Strings.Byte.
From S2P Require Import Prelude.
Open Scope Z_scope.

Abbreviation byte := Byte.byte.
Abbreviation RString := (list byte).

Definition u8_of (b : byte) : Z := Z.of_N (Byte.to_N b).
Definition byte_of (z : Z) : byte := default Byte.x00 (Byte.of_N (Z.to_N (z mod 256))).

#[export] Instance byte_eq_dec : EqDecision byte := Byte.byte_eq_dec.
#[export] Instance byte_countable : Countable byte :=
  inj_countable Byte.to_N Byte.of_N Byte.of_to_N.

Lemma u8_of_bounds b : 0 ≤ u8_of b < 256.
Proof. unfold u8_of. pose proof (Byte.to_N_bounded b). lia. Qed.

Lemma byte_of_u8_of b : byte_of (u8_of b) = b.
Proof.
  unfold byte_of. rewrite Z.mod_small by apply u8_of_bounds. unfold u8_of.
  rewrite N2Z.id. by rewrite Byte.of_to_N.
Qed.

Lemma u8_of_byte_of z : u8_of (byte_of z) = z mod 256.
Proof.
  unfold byte_of, u8_of. pose proof (Z.mod_pos_bound z 256 ltac:(lia)) as Hb.
  destruct (Byte.of_N (Z.to_N (z mod 256))) as [b|] eqn:Hn; simpl.
  - apply Byte.to_of_N in Hn. rewrite Hn. lia.
  - apply Byte.of_N_None_iff in Hn. lia.
Qed.

(** ** Lengths and slices *)

Definition blen {A} (l : list A) : Z := Z.of_nat (length l).

Lemma blen_app {A} (l k : list A) : blen (l ++ k) = blen l + blen k.
Proof. unfold blen. rewrite length_app. lia. Qed.
Lemma blen_cons {A} (x : A) l : blen (x :: l) = 1 + blen l.
Proof. unfold blen. simpl length. lia. Qed.
Lemma blen_nonneg {A} (l : list A) : 0 ≤ blen l.
Proof. unfold blen. lia. Qed.
Lemma blen_map {A B} (f : A → B) l : blen (map f l) = blen l.
Proof. unfold blen. by rewrite length_map. Qed.
Lemma blen_nil_inv {A} (l : list A) : blen l = 0 → l = [].
Proof. unfold blen. destruct l; simpl; [done|lia]. Qed.

(** [slice.get(a..b)]. *)
Definition slice {A} (l : list A) (a b : Z) : option (list A) :=
  if (0 <=? a) && (a <=? b) && (b <=? blen l)
  then Some (take (Z.to_nat (b - a)) (drop (Z.to_nat a) l)) else None.

Lemma slice_Some {A} (l : list A) a b x :
  slice l a b = Some x ↔ ∃ pre post, l = pre ++ x ++ post ∧ blen pre = a ∧ blen x = b - a.
Proof.
  unfold slice, blen. split.
  - destruct (Z.leb_spec 0 a), (Z.leb_spec a b), (Z.leb_spec b (Z.of_nat (length l)));
      simpl; try done. intros [= <-].
    exists (take (Z.to_nat a) l), (drop (Z.to_nat (b - a)) (drop (Z.to_nat a) l)).
    rewrite !take_drop, !length_take, length_drop. split_and!; [done|lia|lia].
  - intros (pre & post & -> & Ha & Hx). rewrite !length_app.
    destruct (Z.leb_spec 0 a), (Z.leb_spec a b),
      (Z.leb_spec b (Z.of_nat (length pre + (length x + length post)))); simpl; try lia.
    rewrite drop_app_length' by lia. by rewrite take_app_length' by lia.
Qed.

Lemma slice_app {A} (pre x post : list A) a b :
  blen pre = a → blen x = b - a → slice (pre ++ x ++ post) a b = Some x.
Proof. intros. apply slice_Some. eauto. Qed.

Lemma slice_prefix {A} (x post : list A) b : blen x = b → slice (x ++ post) 0 b = Some x.
Proof. intros. apply (slice_app []); [done|lia]. Qed.

(** ** Integer images

    [to_ne_bytes]/[from_ne_bytes] and the in-memory image of an integer field;
    the byte order of the platform is a parameter. *)

Fixpoint le_bytes (n : nat) (z : Z) : list byte :=
  match n with
  | O => []
  | S n' => byte_of z :: le_bytes n' (z / 256)
  end.

Fixpoint le_value (bs : list byte) : Z :=
  match bs with
  | [] => 0
  | b :: bs' => u8_of b + 256 * le_value bs'
  end.

Lemma length_le_bytes n z : length (le_bytes n z) = n.
Proof. revert z. induction n; intros; simpl; auto. Qed.

Lemma le_value_bounds bs : 0 ≤ le_value bs < 2 ^ (8 * blen bs).
Proof.
  induction bs as [|b bs IH]; [simpl; unfold blen; simpl; lia|].
  rewrite blen_cons. simpl le_value. pose proof (u8_of_bounds b). pose proof (blen_nonneg bs).
  replace (8 * (1 + blen bs)) with (8 + 8 * blen bs) by lia.
  rewrite Z.pow_add_r by lia. lia.
Qed.

Lemma le_value_bytes n z : le_value (le_bytes n z) = z mod 2 ^ (8 * Z.of_nat n).
Proof.
  revert z. induction n as [|n IH]; intros z.
  - simpl. by rewrite Z.mod_1_r.
  - simpl le_bytes. simpl le_value. rewrite IH, u8_of_byte_of.
    replace (8 * Z.of_nat (S n)) with (8 + 8 * Z.of_nat n) by lia.
    rewrite Z.pow_add_r by lia. change (2 ^ 8) with 256.
    rewrite Z.rem_mul_r by lia. lia.
Qed.

Lemma le_bytes_value bs : le_bytes (length bs) (le_value bs) = bs.
Proof.
  induction bs as [|b bs IH]; [done|]. simpl. pose proof (u8_of_bounds b). f_equal.
  - rewrite <- (byte_of_u8_of b) at 2. unfold byte_of. do 3 f_equal.
    rewrite Z.mul_comm. by apply Z.mod_add.
  - etrans; [|exact IH]. f_equal.
    rewrite Z.mul_comm, Z.div_add by lia. by rewrite (Z.div_small (u8_of b)) by lia.
Qed.

Lemma le_value_app bs cs : le_value (bs ++ cs) = le_value bs + 2 ^ (8 * blen bs) * le_value cs.
Proof.
  induction bs as [|b bs IH]; [change (blen []) with 0; simpl; lia|].
  rewrite blen_cons, <- app_comm_cons. simpl le_value. rewrite IH.
  replace (8 * (1 + blen bs)) with (8 + 8 * blen bs) by lia.
  pose proof (blen_nonneg bs). rewrite Z.pow_add_r by lia. lia.
Qed.

Section endian.
Context (big_endian : bool).

Definition ne_bytes (n : nat) (z : Z) : list byte :=
  if big_endian then reverse (le_bytes n z) else le_bytes n z.
Definition ne_value (bs : list byte) : Z :=
  le_value (if big_endian then reverse bs else bs).

(** A signed field is its two's complement image. *)
Definition ne_signed (bs : list byte) : Z :=
  let w := 8 * blen bs in
  let z := ne_value bs in
  if z <? 2 ^ (w - 1) then z else z - 2 ^ w.

Lemma length_ne_bytes n z : length (ne_bytes n z) = n.
Proof. unfold ne_bytes. destruct big_endian; rewrite ?length_reverse; apply length_le_bytes. Qed.

Lemma blen_ne_bytes n z : blen (ne_bytes n z) = Z.of_nat n.
Proof. unfold blen. by rewrite length_ne_bytes. Qed.

Lemma ne_value_bytes n z : ne_value (ne_bytes n z) = z mod 2 ^ (8 * Z.of_nat n).
Proof.
  unfold ne_value, ne_bytes. destruct big_endian; rewrite ?reverse_involutive; apply le_value_bytes.
Qed.

Lemma ne_bytes_value bs : ne_bytes (length bs) (ne_value bs) = bs.
Proof.
  unfold ne_value, ne_bytes. destruct big_endian; [|apply le_bytes_value].
  rewrite <- (length_reverse bs), le_bytes_value. apply reverse_involutive.
Qed.

Lemma ne_value_bounds bs : 0 ≤ ne_value bs < 2 ^ (8 * blen bs).
Proof.
  unfold ne_value. destruct big_endian; [|apply le_value_bounds].
  pose proof (le_value_bounds (reverse bs)) as Hb. unfold blen in *. by rewrite length_reverse in Hb.
Qed.

Lemma ne_signed_bytes n z :
  - 2 ^ (8 * Z.of_nat (S n) - 1) ≤ z < 2 ^ (8 * Z.of_nat (S n) - 1) →
  ne_signed (ne_bytes (S n) z) = z.
Proof.
  intros Hz. unfold ne_signed. rewrite ne_value_bytes, blen_ne_bytes.
  set (w := 8 * Z.of_nat (S n)) in *.
  assert (2 ^ w = 2 * 2 ^ (w - 1)) as Hw
    by (rewrite <- Z.pow_succ_r by lia; f_equal; lia).
  assert (z mod 2 ^ w = if z <? 0 then z + 2 ^ w else z) as ->.
  { destruct (Z.ltb_spec z 0).
    - rewrite <- (Z.mod_add z 1 (2 ^ w)) by lia. rewrite Z.mod_small by lia. lia.
    - rewrite Z.mod_small by lia. lia. }
  destruct (Z.ltb_spec z 0);
    match goal with |- context [?a <? ?b] => destruct (Z.ltb_spec a b) end; lia.
Qed.
End endian.

(** ** Big-endian numbers *)

Lemma be_value_app bs cs :
  ne_value true (bs ++ cs) = ne_value true bs * 2 ^ (8 * blen cs) + ne_value true cs.
Proof.
  unfold ne_value. rewrite reverse_app, le_value_app. unfold blen. rewrite length_reverse. lia.
Qed.

Lemma be_value_cons b bs :
  ne_value true (b :: bs) = u8_of b * 2 ^ (8 * blen bs) + ne_value true bs.
Proof.
  change (b :: bs) with ([b] ++ bs). rewrite be_value_app. unfold ne_value at 1. simpl. lia.
Qed.

(** [byte & 0x80 != 0]. *)
Definition high_bit (b : byte) : bool := negb (Z.land (u8_of b) 0x80 =? 0).

Lemma high_bit_spec b : high_bit b = (128 <=? u8_of b).
Proof. by destruct b. Qed.

Lemma be_signed_cons b bs :
  ne_signed true (b :: bs) = ne_value true (b :: bs) - (if high_bit b then 2 ^ (8 * blen (b :: bs)) else 0).
Proof.
  unfold ne_signed. rewrite be_value_cons, high_bit_spec, blen_cons.
  pose proof (ne_value_bounds true bs). pose proof (u8_of_bounds b). pose proof (blen_nonneg bs).
  set (P := 2 ^ (8 * blen bs)) in *.
  assert (2 ^ (8 * (1 + blen bs) - 1) = 128 * P) as ->
    by (subst P; change 128 with (2 ^ 7); rewrite <- Z.pow_add_r by lia; f_equal; lia).
  assert (0 < P) by (subst P; apply Z.pow_pos_nonneg; lia).
  destruct (Z.leb_spec 128 (u8_of b)), (Z.ltb_spec (u8_of b * P + ne_value true bs) (128 * P)); nia.
Qed.

(** ** UTF-8 *)

Definition in_range (b : byte) (lo hi : Z) : bool := (lo <=? u8_of b) && (u8_of b <=? hi).
Definition continuation (b : byte) : bool := in_range b 0x80 0xBF.

(** The second byte that may follow the first byte of a three- or four-byte
    sequence: no overlong forms, no surrogates, nothing above U+10FFFF. *)
Definition three_start (a b : byte) : bool :=
  (in_range a 0xE0 0xE0 && in_range b 0xA0 0xBF)
  || (in_range a 0xE1 0xEC && continuation b)
  || (in_range a 0xED 0xED && in_range b 0x80 0x9F)
  || (in_range a 0xEE 0xEF && continuation b).
Definition four_start (a b : byte) : bool :=
  (in_range a 0xF0 0xF0 && in_range b 0x90 0xBF)
  || (in_range a 0xF1 0xF3 && continuation b)
  || (in_range a 0xF4 0xF4 && in_range b 0x80 0x8F).

Fixpoint utf8_valid (bs : list byte) : bool :=
  match bs with
  | [] => true
  | a :: r =>
      if in_range a 0 0x7F then utf8_valid r
      else match r with
      | [] => false
      | b :: r1 =>
          if in_range a 0xC2 0xDF && continuation b then utf8_valid r1
          else match r1 with
          | [] => false
          | c :: r2 =>
              if three_start a b && continuation c then utf8_valid r2
              else match r2 with
              | [] => false
              | d :: r3 => four_start a b && continuation c && continuation d && utf8_valid r3
              end
          end
      end
  end.

(** [std::str::from_utf8]. *)
Definition from_utf8 (bs : list byte) : option RString := if utf8_valid bs then Some bs else None.

(** [str.as_bytes().contains(&0)]. *)
Definition contains_nul (bs : list byte) : bool := existsb (λ b, u8_of b =? 0) bs.

(** String literals of the source as bytes. *)
Definition lit (s : string) : RString := String.list_byte_of_string s.
