(* ===== verification/DecimalNumeric.v ===== *)
(** * Fixed-point decimals and PostgreSQL's binary NUMERIC

    lagodb-core/src/datum/numeric.rs with numeric/comparison.rs, numeric/read.rs
    and datum/decimal128.rs: the codec between the 128-bit coefficient of an
    Arrow or Iceberg decimal and the base-10000 wire form that PostgreSQL's
    [numeric_send] and [numeric_recv] exchange.  NumericAggregate.v models the
    256-bit sibling of numeric/coefficient.rs on top of the lemmas here.

    A number on the wire is a list of base-10000 digits, the weight of the first
    digit, a sign code and a display scale.  [denotes] says which integer
    coefficient a wire number has at a given scale; the theorems compare the codec
    with it.  A Rust panic is a value of the model ([Panic]), so that "does not
    panic" is part of what is proved. *)
From stdpp Require Import base list strings.
From Stdlib Require Import ZArith Lia.
From S2P Require Import Prelude Bytes.
Open Scope Z_scope.

(** ** Type modifiers *)

Definition VARHDRSZ : Z := 4.

Record NumericTypmod := mkTypmod { typmod_precision : Z; typmod_scale : Z }.

Definition numeric_typmod (precision scale : Z) : Z :=
  Z.lor (Z.shiftl precision 16) (Z.land scale 0x7FF) + VARHDRSZ.

Definition numeric_precision_scale (typmod : Z) : option NumericTypmod :=
  if typmod <? VARHDRSZ then None
  else
    let adjusted := typmod - VARHDRSZ in
    let precision := Z.land (Z.shiftr adjusted 16) 0xFFFF in
    let scale := Z.lxor (Z.land adjusted 0x7FF) 1024 - 1024 in
    Some (mkTypmod precision scale).

(** ** Errors *)

Inductive DecimalCodecError :=
| PrecisionOutOfRange (precision : Z)
| ScaleOutOfRange (precision scale : Z)
| ValueOutOfRange (precision scale : Z) (message : string)
| InvalidBinaryRepresentation (message : string).

(** A failure of the codec: an error it returns, a panic, or another error that
    PostgreSQL raised and the codec passes on. *)
Inductive Fault := Panic | Codec (error : DecimalCodecError) | Raised (message : string).

(** ** The wire form *)

Definition DEC_DIGITS : Z := 4.
Definition NBASE : Z := 10000.
Definition MAX_DEC_DIGITS : Z := 38.
Definition MAX_NDIGITS : nat := Z.to_nat (MAX_DEC_DIGITS / DEC_DIGITS + 1).

Definition NUMERIC_POS : Z := 0x0000.
Definition NUMERIC_NEG : Z := 0x4000.
Definition NUMERIC_NAN : Z := 0xC000.
Definition NUMERIC_PINF : Z := 0xD000.
Definition NUMERIC_NINF : Z := 0xF000.
Definition NUMERIC_DSCALE_MASK : Z := 0x3FFF.

(** [digits] is the whole fixed-size buffer; the first [ndigits] are in use. *)
Record NumericExternal := mkExternal {
  ndigits : Z;
  weight : Z;
  sign : Z;
  dscale : Z;
  digits : list Z;
}.

(** [x as i16] and [x as u16]. *)
Definition as_u16 (z : Z) : Z := z mod 2 ^ 16.
Definition as_i16 (z : Z) : Z := (z + 2 ^ 15) mod 2 ^ 16 - 2 ^ 15.

Fixpoint digit_count_loop (fuel : nat) (value count : Z) : Z :=
  match fuel with
  | O => count
  | S fuel' => if value =? 0 then count else digit_count_loop fuel' (value / 10) (count + 1)
  end.

(** Every division at least halves the value, so the width of a [u128] bounds
    the number of iterations. *)
Definition decimal_digit_count (value : Z) : Z := digit_count_loop 128 value 0.

(** The loop of [from_unsigned] once the partial group is done: [free] slots of
    the buffer are left, and the digits already stored are [acc].  Storing into a
    full buffer indexes out of bounds. *)
Fixpoint group_loop (free : nat) (value : Z) (acc : list Z) : result Fault (list Z) :=
  if value =? 0 then Ok acc
  else
    match free with
    | O => Err Panic
    | S free' =>
        let high := value / NBASE in
        let low := value - high * NBASE in
        group_loop free' high (as_i16 low :: acc)
    end.

(** The same loop from its first iteration, which consumes a partial group when
    the scale is not a multiple of four. *)
Definition digit_loop (size : nat) (value scale_padding : Z) : result Fault (list Z) :=
  if scale_padding =? 0 then group_loop size value []
  else if value =? 0 then Ok []
  else
    match size with
    | O => Err Panic
    | S free =>
        let pad_factor := 10 ^ scale_padding in
        let remain_factor := 10 ^ (DEC_DIGITS - scale_padding) in
        let high := value / pad_factor in
        let low := value - high * pad_factor in
        group_loop free high [as_i16 (low * remain_factor)]
    end.

(** The weight of the leading group and the number of decimal digits in the
    trailing partial group, in [i32] arithmetic with its truncating division. *)
Definition group_weight (dweight : Z) : Z :=
  if 0 <=? dweight then Z.quot (dweight + DEC_DIGITS) DEC_DIGITS - 1
  else - (Z.quot (- dweight - 1) DEC_DIGITS + 1).

Definition group_padding (weight dweight nweight : Z) : Z :=
  let offset := (weight + 1) * DEC_DIGITS - (dweight + 1) in
  Z.rem (offset + nweight) DEC_DIGITS.

Definition from_unsigned (magnitude sgn scale dscale : Z) : result Fault NumericExternal :=
  let nweight := decimal_digit_count magnitude in
  let dweight := nweight - scale - 1 in
  let weight := group_weight dweight in
  let scale_padding := group_padding weight dweight nweight in
  ds ← digit_loop MAX_NDIGITS magnitude scale_padding;
  Ok {| ndigits := as_u16 (blen ds);
        weight := as_i16 weight;
        sign := sgn;
        dscale := dscale;
        digits := ds ++ replicate (MAX_NDIGITS - length ds) 0 |}.

Definition from_decimal128 (unscaled scale : Z) : result Fault NumericExternal :=
  let dscale := as_u16 scale in
  if unscaled =? 0 then
    Ok {| ndigits := 0; weight := 0; sign := NUMERIC_POS; dscale := dscale;
          digits := replicate MAX_NDIGITS 0 |}
  else
    let '(sgn, magnitude) :=
      if unscaled <? 0 then (NUMERIC_NEG, Z.abs unscaled) else (NUMERIC_POS, unscaled) in
    from_unsigned magnitude sgn scale dscale.

Definition be_u16 (z : Z) : list byte := ne_bytes true 2 z.

Definition wire_byte_len (x : NumericExternal) : Z := 4 * 2 + ndigits x * 2.

Definition write_be_bytes (x : NumericExternal) : list byte :=
  be_u16 (ndigits x) ++ be_u16 (as_u16 (weight x)) ++ be_u16 (sign x) ++ be_u16 (dscale x)
  ++ concat (map (λ d, be_u16 (as_u16 d)) (take (Z.to_nat (ndigits x)) (digits x))).

(** ** The codec *)

Record Decimal128NumericCodec := mkCodec { precision : Z; scale : Z }.

Definition codec_new (precision scale : Z) : result DecimalCodecError Decimal128NumericCodec :=
  if (precision =? 0) || (MAX_DEC_DIGITS <? precision) then Err (PrecisionOutOfRange precision)
  else if precision <? scale then Err (ScaleOutOfRange precision scale)
  else Ok (mkCodec precision scale).

Definition codec_typmod (c : Decimal128NumericCodec) : Z := numeric_typmod (precision c) (scale c).

Definition value_out_of_range (c : Decimal128NumericCodec) (message : string) : Fault :=
  Codec (ValueOutOfRange (precision c) (scale c) message).

Definition i128_max : Z := 2 ^ 127 - 1.
Definition i128_min : Z := - 2 ^ 127.
Definition in_i128 (z : Z) : bool := (i128_min <=? z) && (z <=? i128_max).

Definition i128_checked (z : Z) : option Z := if in_i128 z then Some z else None.

(** [chunks_exact(2)] read as big-endian [u16]s; an odd last byte is left out. *)
Fixpoint be_groups (bs : list byte) : list Z :=
  match bs with
  | a :: b :: bs' => ne_value true [a; b] :: be_groups bs'
  | _ => []
  end.

Definition EXCEEDS : string := "numeric value exceeds Decimal128".
Definition FRACTION : string := "numeric value has more fractional digits than the decimal scale".

Section codec.
Context (c : Decimal128NumericCodec).

Definition accumulate_numeric_digits (groups : list Z) : result Fault Z :=
  try_fold (λ coefficient digit,
    ok_or (value ← i128_checked (coefficient * NBASE); i128_checked (value + digit))
          (value_out_of_range c EXCEEDS)) 0 groups.

Fixpoint scaled_loop (retained digit_places index coefficient : Z) (groups : list Z)
    : result Fault Z :=
  match groups with
  | [] => Ok coefficient
  | digit :: rest =>
      if retained <=? index then
        if negb (digit =? 0) then Err (value_out_of_range c FRACTION)
        else scaled_loop retained digit_places (index + 1) coefficient rest
      else
        '(radix, digit) ←
          (if (index + 1 =? retained) && negb (digit_places =? 0) then
             let divisor := 10 ^ digit_places in
             if negb (Z.rem digit divisor =? 0) then Err (value_out_of_range c FRACTION)
             else Ok (NBASE / divisor, digit / divisor)
           else Ok (NBASE, digit));
        coefficient ←
          ok_or (value ← i128_checked (coefficient * radix); i128_checked (value + digit))
                (value_out_of_range c EXCEEDS);
        scaled_loop retained digit_places (index + 1) coefficient rest
  end.

Definition accumulate_scaled_numeric_digits (groups : list Z) (decimal_places : Z)
    : result Fault Z :=
  let group_places := decimal_places / DEC_DIGITS in
  let digit_places := decimal_places mod DEC_DIGITS in
  let retained := blen groups - group_places in
  if retained <=? 0 then Err (value_out_of_range c FRACTION)
  else scaled_loop retained digit_places 0 0 groups.

(** [10_i128.checked_pow(exponent)]. *)
Definition checked_pow10 (exponent : Z) : option Z := i128_checked (10 ^ exponent).

Definition numeric_send_to_i128 (bytes : list byte) : result Fault Z :=
  ndigits ← ok_or (ne_value true <$> slice bytes 0 2) Panic;
  weight ← ok_or (ne_signed true <$> slice bytes 2 4) Panic;
  sign ← ok_or (ne_value true <$> slice bytes 4 6) Panic;
  if negb (sign =? NUMERIC_POS) && negb (sign =? NUMERIC_NEG) then
    Err (value_out_of_range c
      "PostgreSQL numeric value is not finite and cannot be represented as Decimal128")
  else
    tail ← ok_or (slice bytes 8 (blen bytes)) Panic;
    let exponent := (weight + 1 - ndigits) * DEC_DIGITS + scale c in
    unscaled ←
      (if 0 <=? exponent then
         coefficient ← accumulate_numeric_digits (be_groups tail);
         factor ← ok_or (checked_pow10 exponent) (value_out_of_range c EXCEEDS);
         ok_or (i128_checked (coefficient * factor)) (value_out_of_range c EXCEEDS)
       else accumulate_scaled_numeric_digits (be_groups tail) (- exponent));
    unscaled ←
      (if sign =? NUMERIC_NEG
       then ok_or (i128_checked (- unscaled)) (value_out_of_range c EXCEEDS)
       else Ok unscaled);
    let limit := 10 ^ precision c - 1 in
    if negb ((- limit <=? unscaled) && (unscaled <=? limit))
    then Err (value_out_of_range c "numeric value exceeds decimal precision")
    else Ok unscaled.

(** numeric/comparison.rs: a comparison value may also be infinite or NaN. *)
Inductive Decimal128ComparisonValue :=
| Finite (coefficient : Z)
| NegativeInfinity
| PositiveInfinity
| NaN.

(** [encode_comparison_datum] on what [numeric_send] returned. *)
Definition encode_comparison_bytes (bytes : list byte) : result Fault Decimal128ComparisonValue :=
  sign ← ok_or (ne_value true <$> slice bytes 4 6) Panic;
  if (sign =? NUMERIC_POS) || (sign =? NUMERIC_NEG) then Finite <$> numeric_send_to_i128 bytes
  else if sign =? NUMERIC_NINF then Ok NegativeInfinity
  else if sign =? NUMERIC_PINF then Ok PositiveInfinity
  else if sign =? NUMERIC_NAN then Ok NaN
  else Err (value_out_of_range c "PostgreSQL numeric value has an unknown binary sign code").

(** An Avro decimal: a big-endian two's complement integer of any width. *)
Definition signed_be_bytes_to_i128 (bytes : list byte) : result Fault Z :=
  match bytes with
  | [] => Ok 0
  | first :: _ =>
      let negative := high_bit first in
      let sign_extension := byte_of (if negative then 0xFF else 0x00) in
      let retained := saturating_sub (blen bytes) 16 in
      next ← ok_or (bytes !! Z.to_nat retained) Panic;
      if (0 <? retained)
         && (negb (forallb (λ b, bool_decide (b = sign_extension)) (take (Z.to_nat retained) bytes))
             || negb (Bool.eqb (high_bit next) negative))
      then Err (value_out_of_range c "Avro decimal value cannot be represented as Decimal128")
      else
        let source := drop (Z.to_nat retained) bytes in
        Ok (ne_signed true (replicate (16 - length source) sign_extension ++ source))
  end.
End codec.

(** ** Conversions of values

    [numeric_recv] and [numeric_send] are PostgreSQL's: the errors of the first
    carry the SQL state the codec looks at. *)
Inductive RecvError :=
| NUMERIC_VALUE_OUT_OF_RANGE (message : string)
| INVALID_BINARY_REPRESENTATION (message : string)
| OTHER_SQL_STATE (message : string).

Section values.
Context {AnyNumeric : Type} (numeric_recv : list byte → Z → result RecvError AnyNumeric)
  (numeric_send : AnyNumeric → list byte).

Definition numeric_recv_external (c : Decimal128NumericCodec) (x : NumericExternal) (typmod : Z)
    : result Fault AnyNumeric :=
  map_err (λ e, match e with
    | NUMERIC_VALUE_OUT_OF_RANGE message => value_out_of_range c message
    | INVALID_BINARY_REPRESENTATION message => Codec (InvalidBinaryRepresentation message)
    | OTHER_SQL_STATE message => Raised message
    end) (numeric_recv (write_be_bytes x) typmod).

Definition decode (c : Decimal128NumericCodec) (unscaled : Z) : result Fault AnyNumeric :=
  external ← from_decimal128 unscaled (scale c);
  numeric_recv_external c external (codec_typmod c).

Definition decode_signed_be_bytes (c : Decimal128NumericCodec) (bytes : list byte)
    : result Fault AnyNumeric :=
  unscaled ← signed_be_bytes_to_i128 c bytes;
  decode c unscaled.

Definition encode_bound_datum (c : Decimal128NumericCodec) (datum : AnyNumeric) : result Fault Z :=
  numeric_send_to_i128 c (numeric_send datum).

Definition encode_comparison_datum (c : Decimal128NumericCodec) (datum : AnyNumeric)
    : result Fault Decimal128ComparisonValue :=
  encode_comparison_bytes c (numeric_send datum).
End values.

(** datum/decimal128.rs. *)
Record Decimal128Semantics := mkSemantics { sem_precision : Z; sem_scale : Z }.

#[export] Instance Decimal128Semantics_eq_dec : EqDecision Decimal128Semantics.
Proof. solve_decision. Defined.

Definition semantics_new (precision scale : Z) : option Decimal128Semantics :=
  if scale <? 0 then None
  else
    match codec_new precision scale with
    | Ok _ => Some (mkSemantics precision scale)
    | Err _ => None
    end.

(** ** Reference meaning of a wire number *)

(** The base-10000 number with digits [ds], most significant first. *)
Definition digits_value (ds : list Z) : Z := foldl (λ v d, v * NBASE + d) 0 ds.

Definition is_digit (d : Z) : Prop := 0 ≤ d < NBASE.

(** The number [± D * 10000 ^ (w + 1 - n)] has the integer coefficient [u] at
    scale [s]; both sides are scaled by a power of ten to stay in [Z]. *)
Definition denotes (sgn w : Z) (ds : list Z) (s u : Z) : Prop :=
  let e := (w + 1 - blen ds) * DEC_DIGITS + s in
  (if sgn =? NUMERIC_NEG then -1 else 1) * digits_value ds * 10 ^ Z.max 0 e
  = u * 10 ^ Z.max 0 (- e).

(** What PostgreSQL sends for a finite number: no leading zero digit, and zero
    has no digits and weight zero. *)
Record finite_wire (sgn w : Z) (ds : list Z) : Prop := {
  fw_sign : sgn = NUMERIC_POS ∨ sgn = NUMERIC_NEG;
  fw_weight : - 2 ^ 15 ≤ w < 2 ^ 15;
  fw_length : blen ds < 2 ^ 16;
  fw_digits : Forall is_digit ds;
  fw_head : ∀ d rest, ds = d :: rest → d ≠ 0;
  fw_zero : ds = [] → w = 0 ∧ sgn = NUMERIC_POS;
}.

Definition wire_bytes (sgn w s : Z) (ds : list Z) : list byte :=
  be_u16 (blen ds) ++ be_u16 (as_u16 w) ++ be_u16 sgn ++ be_u16 s
  ++ concat (map (λ d, be_u16 (as_u16 d)) ds).

(** ** Arithmetic of digit lists *)

Lemma foldl_digits v ds :
  foldl (λ v d, v * NBASE + d) v ds = v * NBASE ^ blen ds + digits_value ds.
Proof.
  unfold digits_value. revert v. induction ds as [|d ds IH]; intros v.
  - simpl. unfold blen. simpl. lia.
  - simpl foldl. rewrite IH, (IH (0 * NBASE + d)), blen_cons.
    rewrite Z.pow_add_r by (pose proof (blen_nonneg ds); lia). lia.
Qed.

Lemma digits_value_app ds es :
  digits_value (ds ++ es) = digits_value ds * NBASE ^ blen es + digits_value es.
Proof. unfold digits_value at 1. rewrite foldl_app. apply foldl_digits. Qed.

Lemma digits_value_snoc ds d : digits_value (ds ++ [d]) = digits_value ds * NBASE + d.
Proof. rewrite digits_value_app. unfold blen, digits_value. simpl. lia. Qed.

Lemma digits_value_cons d ds : digits_value (d :: ds) = d * NBASE ^ blen ds + digits_value ds.
Proof.
  change (d :: ds) with ([d] ++ ds). rewrite digits_value_app. unfold digits_value at 1. simpl. lia.
Qed.

Lemma NBASE_pow n : 0 ≤ n → NBASE ^ n = 10 ^ (4 * n).
Proof. intros. rewrite Z.pow_mul_r by lia. done. Qed.

Lemma NBASE_pow_pos n : 0 ≤ n → 0 < NBASE ^ n.
Proof. intros. apply Z.pow_pos_nonneg; unfold NBASE; lia. Qed.

Lemma digits_value_bounds ds : Forall is_digit ds → 0 ≤ digits_value ds < NBASE ^ blen ds.
Proof.
  induction 1 as [|d ds [Hd0 Hd] _ IH]; [unfold digits_value, blen; simpl; lia|].
  rewrite digits_value_cons, blen_cons, Z.pow_add_r by (pose proof (blen_nonneg ds); lia).
  unfold NBASE in *. nia.
Qed.

Lemma digits_value_head d ds :
  Forall is_digit (d :: ds) → d ≠ 0 → NBASE ^ blen ds ≤ digits_value (d :: ds).
Proof.
  intros [[Hd0 _] Hds]%Forall_cons Hd. rewrite digits_value_cons.
  pose proof (digits_value_bounds ds Hds).
  pose proof (NBASE_pow_pos (blen ds) (blen_nonneg ds)). nia.
Qed.

Lemma digits_value_zero ds : Forall is_digit ds → digits_value ds = 0 → Forall (λ d, d = 0) ds.
Proof.
  induction 1 as [|d ds [Hd0 Hd] Hds IH]; [constructor|].
  rewrite digits_value_cons. intros Hz.
  pose proof (digits_value_bounds ds Hds).
  pose proof (NBASE_pow_pos (blen ds) (blen_nonneg ds)).
  assert (d = 0) by nia. subst. constructor; [done|]. apply IH. lia.
Qed.

Lemma digits_value_zeros ds : Forall (λ d, d = 0) ds → digits_value ds = 0.
Proof. induction 1 as [|d ds -> _ IH]; [done|]. rewrite digits_value_cons. lia. Qed.

Lemma as_i16_small z : - 2 ^ 15 ≤ z < 2 ^ 15 → as_i16 z = z.
Proof. intros. unfold as_i16. rewrite Z.mod_small by lia. lia. Qed.

Lemma as_u16_small z : 0 ≤ z < 2 ^ 16 → as_u16 z = z.
Proof. intros. unfold as_u16. by rewrite Z.mod_small. Qed.

Lemma digit_as_i16 z : is_digit z → as_i16 z = z.
Proof. intros [??]. apply as_i16_small. unfold NBASE in *. lia. Qed.

Lemma pow10_mono a b : 0 ≤ b → 10 ^ a < 10 ^ b → a < b.
Proof. intros. by apply (Z.pow_lt_mono_r_iff 10); lia. Qed.

(** ** The encoder *)

Lemma digit_count_loop_spec fuel : ∀ v c, 0 ≤ v < 2 ^ Z.of_nat fuel →
  ∃ k, digit_count_loop fuel v c = c + k ∧ 0 ≤ k ∧
    ((v = 0 ∧ k = 0) ∨ (0 < k ∧ 10 ^ (k - 1) ≤ v < 10 ^ k)).
Proof.
  induction fuel as [|fuel IH]; intros v c Hv; simpl digit_count_loop.
  - exists 0. change (2 ^ Z.of_nat 0) with 1 in Hv. split_and!; [lia..|left; lia].
  - destruct (Z.eqb_spec v 0); [exists 0; split_and!; [lia..|left; lia]|].
    rewrite Nat2Z.inj_succ, Z.pow_succ_r in Hv by lia.
    destruct (IH (v / 10) (c + 1)) as (k & -> & Hk & Hor).
    { split; [apply Z.div_pos; lia|]. apply Z.div_lt_upper_bound; lia. }
    exists (k + 1). split_and!; [lia..|]. right. split; [lia|].
    replace (k + 1 - 1) with k by lia. pose proof (Z.div_mod v 10 ltac:(lia)).
    pose proof (Z.mod_pos_bound v 10 ltac:(lia)).
    rewrite (Z.pow_add_r 10 k 1) by lia.
    destruct Hor as [[Hz ->]|[Hk0 [Hlo Hhi]]].
    + simpl. lia.
    + assert (10 ^ k = 10 * 10 ^ (k - 1)) by (rewrite <- Z.pow_succ_r by lia; f_equal; lia). lia.
Qed.

Lemma decimal_digit_count_spec v : 0 < v < 2 ^ 128 →
  0 < decimal_digit_count v ∧ 10 ^ (decimal_digit_count v - 1) ≤ v < 10 ^ decimal_digit_count v.
Proof.
  intros Hv. destruct (digit_count_loop_spec 128 v 0) as (k & Hk & _ & Hor); [lia|].
  unfold decimal_digit_count. rewrite Hk, Z.add_0_l. destruct Hor; [lia|done].
Qed.

(** Digits that the loop has produced for [v]: no leading zero. *)
Definition digits_of (v : Z) (ds : list Z) : Prop :=
  Forall is_digit ds ∧ digits_value ds = v ∧ ∀ d rest, ds = d :: rest → d ≠ 0.

Lemma digits_of_length v ds : 0 < v → digits_of v ds →
  0 < blen ds ∧ NBASE ^ (blen ds - 1) ≤ v < NBASE ^ blen ds.
Proof.
  intros Hv (Hds & <- & Hhead). destruct ds as [|d ds]; [done|].
  pose proof (digits_value_bounds _ Hds). pose proof (digits_value_head _ _ Hds (Hhead _ _ eq_refl)).
  rewrite blen_cons in *. pose proof (blen_nonneg ds).
  replace (1 + blen ds - 1) with (blen ds) by lia. lia.
Qed.

Lemma digits_of_snoc v d ds :
  is_digit d → digits_of v ds → v * NBASE + d ≠ 0 → digits_of (v * NBASE + d) (ds ++ [d]).
Proof.
  intros Hd (Hds & Hv & Hhead) Hn. split_and!.
  - apply Forall_app_2; [done|]. by apply Forall_singleton.
  - by rewrite digits_value_snoc, Hv.
  - intros d' rest Heq. destruct ds as [|d0 ds].
    + injection Heq as <- <-. unfold digits_value in Hv. simpl in Hv. subst. lia.
    + injection Heq as <- <-. by eapply Hhead.
Qed.

Lemma split_digit v : 0 ≤ v → is_digit (v - v / NBASE * NBASE) ∧ 0 ≤ v / NBASE.
Proof.
  intros. pose proof (Z.div_mod v NBASE ltac:(done)).
  pose proof (Z.mod_pos_bound v NBASE ltac:(done)). unfold is_digit.
  split; [lia|]. by apply Z.div_pos.
Qed.

Lemma group_loop_fits free : ∀ v acc, 0 ≤ v < NBASE ^ Z.of_nat free →
  ∃ ds, group_loop free v acc = Ok (ds ++ acc) ∧ digits_of v ds.
Proof.
  induction free as [|free IH]; intros v acc [Hv Hlt]; simpl group_loop;
    (destruct (Z.eqb_spec v 0) as [->|Hn]; [by exists []; repeat constructor|]).
  { simpl in Hlt. lia. }
  rewrite Nat2Z.inj_succ, Z.pow_succ_r in Hlt by lia.
  destruct (split_digit v Hv) as [Hd Hq]. rewrite digit_as_i16 by done.
  destruct (IH (v / NBASE) ((v - v / NBASE * NBASE) :: acc)) as (ds & -> & Hds).
  { split; [done|]. apply Z.div_lt_upper_bound; [done|lia]. }
  exists (ds ++ [v - v / NBASE * NBASE]). rewrite <- app_assoc. split; [done|].
  replace v with (v / NBASE * NBASE + (v - v / NBASE * NBASE)) at 1 by lia.
  apply digits_of_snoc; [done|done|lia].
Qed.

Lemma group_loop_panics free : ∀ v acc, NBASE ^ Z.of_nat free ≤ v →
  group_loop free v acc = Err Panic.
Proof.
  induction free as [|free IH]; intros v acc Hle; simpl group_loop.
  { simpl in Hle. destruct (Z.eqb_spec v 0); [lia|done]. }
  pose proof (NBASE_pow_pos (Z.of_nat (S free)) ltac:(lia)).
  destruct (Z.eqb_spec v 0); [lia|]. apply IH.
  rewrite Nat2Z.inj_succ, Z.pow_succ_r in Hle by lia.
  apply Z.div_le_lower_bound; [done|lia].
Qed.

(** The padded magnitude that a scale with partial group [p] stores. *)
Definition padded (v p : Z) : Z := v * 10 ^ ((4 - p) mod 4).

Lemma padded_pos v p : 0 < v → 0 < padded v p.
Proof.
  intros. unfold padded. pose proof (Z.mod_pos_bound (4 - p) 4 ltac:(lia)) as [Hm _].
  pose proof (Z.pow_pos_nonneg 10 _ ltac:(lia) Hm). lia.
Qed.

Lemma padding_cases p : 0 ≤ p < 4 → p ≠ 0 →
  0 < 10 ^ p ∧ 0 < 10 ^ (DEC_DIGITS - p) ∧ 10 ^ p * 10 ^ (DEC_DIGITS - p) = NBASE ∧ (4 - p) mod 4 = 4 - p.
Proof. intros. assert (p = 1 ∨ p = 2 ∨ p = 3) as [-> | [-> | ->]] by lia; done. Qed.

Lemma padded_split v p : 0 < v → 0 ≤ p < 4 → p ≠ 0 →
  let high := v / 10 ^ p in
  let low := (v - high * 10 ^ p) * 10 ^ (DEC_DIGITS - p) in
  is_digit low ∧ 0 ≤ high ∧ padded v p = high * NBASE + low.
Proof.
  intros Hv Hp Hn high low. destruct (padding_cases p Hp Hn) as (H1 & H2 & H3 & H4).
  pose proof (Z.div_mod v (10 ^ p) ltac:(lia)). pose proof (Z.mod_pos_bound v (10 ^ p) ltac:(lia)).
  assert (0 ≤ high) by (apply Z.div_pos; lia). unfold padded. rewrite H4.
  change DEC_DIGITS with 4 in *. subst low. unfold is_digit.
  split_and!; [nia| |done|]; rewrite <- H3; subst high; nia.
Qed.

Lemma digit_loop_spec size v p : 0 < v → 0 ≤ p < 4 →
  if padded v p <? NBASE ^ Z.of_nat size
  then ∃ ds, digit_loop size v p = Ok ds ∧ digits_of (padded v p) ds
  else digit_loop size v p = Err Panic.
Proof.
  intros Hv Hp. unfold digit_loop. destruct (Z.eqb_spec p 0) as [->|Hn].
  { unfold padded. change (10 ^ ((4 - 0) mod 4)) with 1. rewrite Z.mul_1_r.
    destruct (Z.ltb_spec v (NBASE ^ Z.of_nat size)); [|by apply group_loop_panics].
    destruct (group_loop_fits size v []) as (ds & -> & Hds); [lia|].
    rewrite app_nil_r. eauto. }
  destruct (Z.eqb_spec v 0); [lia|].
  destruct (padded_split v p Hv Hp Hn) as (Hlow & Hhigh & Hpad).
  destruct size as [|free].
  { destruct (Z.ltb_spec (padded v p) (NBASE ^ Z.of_nat 0)) as [Hlt|]; [|done].
    simpl in Hlt. pose proof (padded_pos v p Hv). lia. }
  rewrite digit_as_i16 by done. rewrite Nat2Z.inj_succ, Z.pow_succ_r by lia.
  destruct Hlow as [Hl0 Hl].
  destruct (Z.ltb_spec (padded v p) (NBASE * NBASE ^ Z.of_nat free)) as [Hlt|Hge].
  - destruct (group_loop_fits free (v / 10 ^ p) [(v - v / 10 ^ p * 10 ^ p) * 10 ^ (DEC_DIGITS - p)])
      as (ds & -> & Hds); [unfold NBASE in *; nia|].
    eexists. split; [done|]. rewrite Hpad. apply digits_of_snoc; [done|done|].
    rewrite <- Hpad. pose proof (padded_pos v p Hv). lia.
  - apply group_loop_panics. unfold NBASE in *. nia.
Qed.

Lemma group_weight_floor d : group_weight d = d / 4.
Proof.
  unfold group_weight, DEC_DIGITS. destruct (Z.leb_spec 0 d).
  - rewrite Z.quot_div_nonneg by lia. div_lia.
  - rewrite Z.quot_div_nonneg by lia. div_lia.
Qed.

Lemma group_padding_scale n s : 0 < n → 0 ≤ s →
  group_padding (group_weight (n - s - 1)) (n - s - 1) n = s mod 4.
Proof.
  intros. rewrite group_weight_floor. unfold group_padding, DEC_DIGITS.
  rewrite Z.rem_mod_nonneg by div_lia.
  replace (((n - s - 1) / 4 + 1) * 4 - (n - s - 1 + 1) + n) with (s + ((n - s - 1) / 4 + 1) * 4) by lia.
  by rewrite Z.mod_add by lia.
Qed.

(** The leading weight places the decimal point: the exponent of the last digit
    is exactly the padding. *)
Lemma weight_length v n s ds : 0 < v → 0 ≤ s → 0 < n → 10 ^ (n - 1) ≤ v < 10 ^ n →
  digits_of (padded v (s mod 4)) ds →
  ((n - s - 1) / 4 + 1 - blen ds) * 4 + s = - ((4 - s mod 4) mod 4).
Proof.
  intros Hv Hs Hn [Hlo Hhi] Hds.
  destruct (digits_of_length _ _ (padded_pos _ _ Hv) Hds) as (Hlen & Hl & Hh).
  set (k := (4 - s mod 4) mod 4) in *. assert (0 ≤ k < 4 ∧ (s + k) mod 4 = 0) as [Hk Hsk]
    by (subst k; div_lia).
  rewrite NBASE_pow in Hl, Hh by lia. unfold padded in Hl, Hh. fold k in Hl, Hh.
  pose proof (Z.pow_pos_nonneg 10 k ltac:(lia) ltac:(lia)).
  assert (4 * (blen ds - 1) < n + k).
  { apply pow10_mono; [lia|]. rewrite Z.pow_add_r by lia. nia. }
  assert (n - 1 + k < 4 * blen ds).
  { apply pow10_mono; [lia|]. rewrite Z.pow_add_r by lia. nia. }
  div_lia.
Qed.

Lemma denotes_magnitude sgn w ds s v :
  (w + 1 - blen ds) * 4 + s = - ((4 - s mod 4) mod 4) → digits_value ds = padded v (s mod 4) →
  denotes sgn w ds s ((if sgn =? NUMERIC_NEG then -1 else 1) * v).
Proof.
  intros He Hv. unfold denotes, DEC_DIGITS. rewrite He, Hv. unfold padded.
  pose proof (Z.mod_pos_bound (4 - s mod 4) 4 ltac:(lia)).
  rewrite Z.max_l, Z.max_r, Z.opp_involutive by lia. simpl. lia.
Qed.

Lemma from_unsigned_fits v sgn s ds' : 0 < v < 2 ^ 128 → 0 ≤ s < 2 ^ 14 →
  padded v (s mod 4) < NBASE ^ Z.of_nat MAX_NDIGITS →
  sgn = NUMERIC_POS ∨ sgn = NUMERIC_NEG →
  ∃ w ds, from_unsigned v sgn s ds' = Ok (mkExternal (blen ds) w sgn ds'
      (ds ++ replicate (MAX_NDIGITS - length ds) 0))
    ∧ finite_wire sgn w ds ∧ denotes sgn w ds s ((if sgn =? NUMERIC_NEG then -1 else 1) * v)
    ∧ digits_of (padded v (s mod 4)) ds.
Proof.
  intros Hv Hs Hfit Hsgn. destruct (decimal_digit_count_spec v Hv) as (Hn & Hb).
  unfold from_unsigned. set (n := decimal_digit_count v) in *. clearbody n.
  rewrite group_padding_scale by lia. pose proof (Z.mod_pos_bound s 4 ltac:(lia)) as Hm.
  pose proof (digit_loop_spec MAX_NDIGITS v (s mod 4) ltac:(lia) Hm) as Hloop.
  rewrite (proj2 (Z.ltb_lt _ _) Hfit) in Hloop. destruct Hloop as (ds & -> & Hds).
  rewrite group_weight_floor. csimpl.
  destruct (digits_of_length _ _ (padded_pos v (s mod 4) ltac:(lia)) Hds) as (Hlen & Hl & _).
  assert (blen ds ≤ 10) as Hlen'.
  { assert (blen ds - 1 < 10); [|lia]. apply (Z.pow_lt_mono_r_iff NBASE); [done|lia|].
    change 10 with (Z.of_nat MAX_NDIGITS). lia. }
  assert (n ≤ 39) as Hn39.
  { assert (n - 1 < 39); [|lia]. apply pow10_mono; [lia|].
    assert (2 ^ 128 < 10 ^ 39) by done. lia. }
  assert (- 2 ^ 15 ≤ (n - s - 1) / 4 < 2 ^ 15) as Hw by div_lia.
  rewrite as_u16_small, as_i16_small by lia.
  exists ((n - s - 1) / 4), ds. split_and!; [done| | |done].
  - destruct Hds as (? & Hval & ?). split; try done; [lia|].
    intros ->. unfold blen in Hlen. simpl in Hlen. lia.
  - apply denotes_magnitude; [|by destruct Hds as (_ & ? & _)].
    apply (weight_length v n); [lia|lia|lia|done|done].
Qed.

Lemma from_unsigned_panics v sgn s ds' : 0 < v < 2 ^ 128 → 0 ≤ s →
  NBASE ^ Z.of_nat MAX_NDIGITS ≤ padded v (s mod 4) → from_unsigned v sgn s ds' = Err Panic.
Proof.
  intros Hv Hs Hge. destruct (decimal_digit_count_spec v Hv) as (Hn & _).
  unfold from_unsigned. rewrite group_padding_scale by lia.
  pose proof (Z.mod_pos_bound s 4 ltac:(lia)) as Hm.
  pose proof (digit_loop_spec MAX_NDIGITS v (s mod 4) ltac:(lia) Hm) as Hloop.
  rewrite (proj2 (Z.ltb_ge _ _) Hge) in Hloop. by rewrite Hloop.
Qed.

(** Coefficients whose digit groups do not fit the encoder's buffer. *)
Definition overflows_buffer (u s : Z) : Prop :=
  (s mod 4 = 1 ∧ 10 ^ 37 ≤ Z.abs u) ∨ (s mod 4 = 2 ∧ 10 ^ 38 ≤ Z.abs u).

Lemma overflows_buffer_padded u s : Z.abs u ≤ 2 ^ 127 →
  overflows_buffer u s ↔ NBASE ^ Z.of_nat MAX_NDIGITS ≤ padded (Z.abs u) (s mod 4).
Proof.
  intros Hu. unfold overflows_buffer, padded. change (NBASE ^ Z.of_nat MAX_NDIGITS) with (10 ^ 40).
  pose proof (Z.mod_pos_bound s 4 ltac:(lia)) as Hm. set (m := s mod 4) in *. clearbody m.
  assert (m = 0 ∨ m = 1 ∨ m = 2 ∨ m = 3) as [-> | [-> | [-> | ->]]] by lia;
    match goal with |- context [10 ^ ((4 - ?m) mod 4)] =>
      let v := eval vm_compute in (10 ^ ((4 - m) mod 4)) in
      change (10 ^ ((4 - m) mod 4)) with v
    end; lia.
Qed.

Lemma write_be_bytes_wire n w sgn s ds rest :
  n = blen ds → write_be_bytes (mkExternal n w sgn s (ds ++ rest)) = wire_bytes sgn w s ds.
Proof.
  intros ->. unfold write_be_bytes, wire_bytes. cbn [ndigits weight sign dscale digits].
  unfold blen. by rewrite Nat2Z.id, take_app_length.
Qed.

Lemma blen_wire_bytes sgn w s ds : blen (wire_bytes sgn w s ds) = 4 * 2 + blen ds * 2.
Proof.
  unfold wire_bytes, be_u16. rewrite !blen_app, !blen_ne_bytes.
  assert (blen (concat (map (λ d, ne_bytes true 2 (as_u16 d)) ds)) = blen ds * 2) as ->; [|lia].
  induction ds as [|d ds IH]; [done|]. cbn [map concat]. rewrite blen_app, blen_ne_bytes, blen_cons, IH. lia.
Qed.

(** Encoding a coefficient for [numeric_recv] either panics, exactly when its
    digit groups overflow the ten-digit buffer (a coefficient of at least 10^37 at
    a scale of 1 modulo 4, or of at least 10^38 at a scale of 2 modulo 4), or
    yields a canonical wire number that denotes the coefficient at that scale, with
    no digit lost and no cast truncating. *)
Lemma from_decimal128_spec u s :
  i128_min ≤ u ≤ i128_max → 0 ≤ s ≤ MAX_DEC_DIGITS →
  (overflows_buffer u s → from_decimal128 u s = Err Panic) ∧
  (¬ overflows_buffer u s → ∃ x sgn w ds,
    from_decimal128 u s = Ok x ∧ finite_wire sgn w ds ∧ denotes sgn w ds s u ∧
    write_be_bytes x = wire_bytes sgn w s ds ∧ blen (write_be_bytes x) = wire_byte_len x).
Proof.
  unfold i128_min, i128_max, MAX_DEC_DIGITS. intros Hu Hs.
  assert (Z.abs u ≤ 2 ^ 127) as Habs by lia. rewrite (overflows_buffer_padded u s Habs).
  unfold from_decimal128. rewrite (as_u16_small s) by lia. destruct (Z.eqb_spec u 0) as [->|Hn].
  { split; [unfold padded; simpl; intros H; by vm_compute in H|]. intros _.
    exists (mkExternal 0 0 NUMERIC_POS s (replicate MAX_NDIGITS 0)), NUMERIC_POS, 0, [].
    pose proof (write_be_bytes_wire 0 0 NUMERIC_POS s [] (replicate MAX_NDIGITS 0) eq_refl) as Hw.
    split_and!; [done|split; try done; auto; lia|done|done|].
    etrans; [exact (f_equal blen Hw)|]. by rewrite blen_wire_bytes. }
  set (sgn := if u <? 0 then NUMERIC_NEG else NUMERIC_POS).
  assert ((if u <? 0 then (NUMERIC_NEG, Z.abs u) else (NUMERIC_POS, u)) = (sgn, Z.abs u)) as ->.
  { subst sgn. destruct (Z.ltb_spec u 0); f_equal; lia. }
  assert (sgn = NUMERIC_POS ∨ sgn = NUMERIC_NEG) as Hsgn by (subst sgn; case_bool; auto).
  assert (2 ^ 127 < 2 ^ 128) by done.
  split; intros Hfit; [apply from_unsigned_panics; lia|].
  destruct (from_unsigned_fits (Z.abs u) sgn s s) as (w & ds & -> & Hfw & Hden & _); [lia..|done|].
  eexists _, sgn, w, ds. split; [done|]. split; [done|].
  rewrite write_be_bytes_wire, blen_wire_bytes by done. split; [|done].
  replace u with ((if sgn =? NUMERIC_NEG then -1 else 1) * Z.abs u) at 1; [done|].
  subst sgn. destruct (Z.ltb_spec u 0); simpl; lia.
Qed.

(** ** The decoder *)

Lemma ne_value_be_u16 z : ne_value true (be_u16 z) = z mod 2 ^ 16.
Proof. apply (ne_value_bytes true 2). Qed.

Lemma be_groups_app z bs : be_groups (be_u16 z ++ bs) = z mod 2 ^ 16 :: be_groups bs.
Proof.
  rewrite <- ne_value_be_u16. unfold be_u16, ne_bytes. simpl le_bytes.
  change (reverse [byte_of z; byte_of (z / 256)]) with [byte_of (z / 256); byte_of z]. done.
Qed.

Lemma be_groups_digits ds : Forall is_digit ds →
  be_groups (concat (map (λ d, be_u16 (as_u16 d)) ds)) = ds.
Proof.
  induction 1 as [|d ds [Hd0 Hd] _ IH]; [done|]. cbn [map concat]. rewrite be_groups_app, IH.
  unfold NBASE in *. rewrite as_u16_small by lia. by rewrite Z.mod_small by lia.
Qed.

(** The header fields and the digits of a wire number, as the decoder slices
    them. *)
Lemma wire_fields sgn w s ds : finite_wire sgn w ds →
  let bs := wire_bytes sgn w s ds in
  ne_value true <$> slice bs 0 2 = Some (blen ds) ∧
  ne_signed true <$> slice bs 2 4 = Some w ∧
  ne_value true <$> slice bs 4 6 = Some sgn ∧
  be_groups <$> slice bs 8 (blen bs) = Some ds.
Proof.
  intros [Hsgn Hw Hlen Hds _ _] bs. subst bs. unfold wire_bytes.
  pose proof (blen_nonneg ds). split_and!.
  - rewrite slice_prefix by apply blen_ne_bytes. simpl. rewrite ne_value_be_u16. f_equal.
    apply Z.mod_small. lia.
  - rewrite (slice_app (be_u16 (blen ds))) by apply blen_ne_bytes. simpl. f_equal.
    pose proof (ne_signed_bytes true 1 w ltac:(simpl; lia)) as Hs. rewrite <- Hs at 2.
    unfold be_u16. f_equal. unfold ne_bytes. f_equal. unfold as_u16. simpl. unfold byte_of.
    f_equal; [|f_equal]; do 3 f_equal; div_lia.
  - rewrite (app_assoc (be_u16 (blen ds))), (slice_app (be_u16 (blen ds) ++ be_u16 (as_u16 w)));
      [|by rewrite blen_app; unfold be_u16; rewrite !blen_ne_bytes|apply blen_ne_bytes].
    simpl. rewrite ne_value_be_u16. f_equal. by destruct Hsgn as [-> | ->].
  - pose proof (be_groups_digits ds Hds) as Htl.
    set (tl := concat (map (λ d, be_u16 (as_u16 d)) ds)).
    set (hd := be_u16 (blen ds) ++ be_u16 (as_u16 w) ++ be_u16 sgn ++ be_u16 s).
    assert (be_u16 (blen ds) ++ be_u16 (as_u16 w) ++ be_u16 sgn ++ be_u16 s ++ tl = hd ++ tl)
      as -> by (subst hd; by rewrite <- !app_assoc).
    assert (blen hd = 8) as Hhd by (subst hd; unfold be_u16; by rewrite !blen_app, !blen_ne_bytes).
    pose proof (slice_app hd tl [] 8 (blen (hd ++ tl)) Hhd ltac:(rewrite blen_app; lia)) as Hs.
    rewrite app_nil_r in Hs. rewrite Hs. simpl. by f_equal.
Qed.

Section decoder.
Context (c : Decimal128NumericCodec).

Lemma i128_checked_nonneg z : 0 ≤ z →
  i128_checked z = if z <=? i128_max then Some z else None.
Proof.
  intros. unfold i128_checked, in_i128. replace (i128_min <=? z) with true; [done|].
  symmetry. apply Z.leb_le. unfold i128_min. lia.
Qed.

(** One checked step [v * r + d] of an accumulation. *)
Lemma checked_step v r d : 0 ≤ v → 0 ≤ d → 0 < r →
  (x ← i128_checked (v * r); i128_checked (x + d))
  = if v * r + d <=? i128_max then Some (v * r + d) else None.
Proof.
  intros. rewrite i128_checked_nonneg by nia.
  destruct (Z.leb_spec (v * r) i128_max); csimpl; [by rewrite i128_checked_nonneg by nia|].
  destruct (Z.leb_spec (v * r + d) i128_max); [lia|done].
Qed.

Lemma foldl_digits_ge v ds : 0 ≤ v → Forall is_digit ds →
  v ≤ foldl (λ v d, v * NBASE + d) v ds.
Proof.
  intros Hv Hds. rewrite foldl_digits. pose proof (digits_value_bounds ds Hds).
  pose proof (NBASE_pow_pos (blen ds) (blen_nonneg ds)). nia.
Qed.

Lemma accumulate_from v ds : 0 ≤ v ≤ i128_max → Forall is_digit ds →
  try_fold (λ coefficient digit,
    ok_or (value ← i128_checked (coefficient * NBASE); i128_checked (value + digit))
          (value_out_of_range c EXCEEDS)) v ds
  = let x := foldl (λ v d, v * NBASE + d) v ds in
    if x <=? i128_max then Ok x else Err (value_out_of_range c EXCEEDS).
Proof.
  intros Hv Hds. revert v Hv. induction Hds as [|d ds Hd Hds IH]; intros v Hv; simpl.
  - by rewrite (proj2 (Z.leb_le _ _)) by lia.
  - destruct Hd as [Hd0 Hd]. rewrite checked_step by (unfold NBASE; lia).
    destruct (Z.leb_spec (v * NBASE + d) i128_max); csimpl.
    + rewrite IH; [done|]. unfold NBASE in *. lia.
    + pose proof (foldl_digits_ge (v * NBASE + d) ds ltac:(unfold NBASE in *; lia) Hds).
      by rewrite (proj2 (Z.leb_gt _ _)) by lia.
Qed.

Lemma accumulate_spec ds : Forall is_digit ds →
  accumulate_numeric_digits c ds
  = if digits_value ds <=? i128_max then Ok (digits_value ds) else Err (value_out_of_range c EXCEEDS).
Proof. intros. apply accumulate_from; [done|done]. Qed.

(** Past the retained digits only zeros may follow. *)
Lemma scaled_loop_zeros r p i v ds : r ≤ i →
  scaled_loop c r p i v ds
  = if bool_decide (Forall (λ d, d = 0) ds) then Ok v else Err (value_out_of_range c FRACTION).
Proof.
  revert i. induction ds as [|d ds IH]; intros i Hi; [done|]. simpl.
  rewrite (proj2 (Z.leb_le _ _)) by lia. destruct (Z.eqb_spec d 0) as [->|Hn]; simpl.
  - rewrite IH by lia. rewrite (bool_decide_ext (Forall _ (0 :: ds)) (Forall (λ d, d = 0) ds)); [done|].
    rewrite Forall_cons. intuition.
  - rewrite bool_decide_false; [done|]. by intros [??]%Forall_cons.
Qed.

Lemma places_divide p : 0 ≤ p < 4 → 0 < 10 ^ p ∧ 10 ≤ NBASE / 10 ^ p ∧ NBASE = NBASE / 10 ^ p * 10 ^ p.
Proof. intros. assert (p = 0 ∨ p = 1 ∨ p = 2 ∨ p = 3) as [-> | [-> | [-> | ->]]] by lia; done. Qed.

(** The last retained digit gives up [p] decimal places. *)
Lemma last_digit_split v d p : 0 ≤ p < 4 →
  (v * NBASE + d) mod 10 ^ p = d mod 10 ^ p ∧
  (v * NBASE + d) / 10 ^ p = v * (NBASE / 10 ^ p) + d / 10 ^ p.
Proof.
  intros Hp. destruct (places_divide p Hp) as (H1 & H2 & H3).
  assert (v * NBASE + d = d + v * (NBASE / 10 ^ p) * 10 ^ p) as -> by (rewrite H3 at 1; lia).
  rewrite Z.mod_add, Z.div_add by lia. lia.
Qed.

(** Dropping [p] places from a number that exceeds an [i128] by a whole digit
    still exceeds it. *)
Lemma exceeds_after_drop v ds p : 0 ≤ p < 4 → i128_max < v → Forall is_digit ds → ds ≠ [] →
  i128_max < foldl (λ v d, v * NBASE + d) v ds / 10 ^ p.
Proof.
  intros Hp Hv Hds Hn. destruct (places_divide p Hp) as (H1 & H2 & H3).
  assert (0 < i128_max) by done.
  destruct Hds as [|d ds [Hd0 Hd] Hds]; [done|]. simpl.
  pose proof (foldl_digits_ge (v * NBASE + d) ds ltac:(unfold NBASE; lia) Hds) as Hge.
  apply Z.lt_le_trans with (v * NBASE / 10 ^ p).
  - rewrite H3, Z.mul_assoc, Z.div_mul by lia. nia.
  - apply Z.div_le_mono; lia.
Qed.

Definition retained_ok (r p i v : Z) (ds : list Z) : Prop :=
  let x := foldl (λ v d, v * NBASE + d) v (take (Z.to_nat (r - i)) ds) in
  x mod 10 ^ p = 0 ∧ x / 10 ^ p ≤ i128_max ∧ Forall (λ d, d = 0) (drop (Z.to_nat (r - i)) ds).

Lemma scaled_step r p i v d ds : 0 ≤ p < 4 → 0 ≤ v → is_digit d → i < r →
  scaled_loop c r p i v (d :: ds) =
    if i + 1 =? r then
      if d mod 10 ^ p =? 0 then
        if (v * NBASE + d) / 10 ^ p <=? i128_max
        then scaled_loop c r p (i + 1) ((v * NBASE + d) / 10 ^ p) ds
        else Err (value_out_of_range c EXCEEDS)
      else Err (value_out_of_range c FRACTION)
    else
      if v * NBASE + d <=? i128_max then scaled_loop c r p (i + 1) (v * NBASE + d) ds
      else Err (value_out_of_range c EXCEEDS).
Proof.
  intros Hp Hv [Hd0 Hd] Hi. simpl. rewrite (proj2 (Z.leb_gt _ _)) by lia.
  destruct (last_digit_split v d p Hp) as [_ ->]. destruct (places_divide p Hp) as (H1 & H2 & H3).
  destruct (Z.eqb_spec (i + 1) r); simpl; [|rewrite checked_step by (unfold NBASE; lia); by case_bool].
  destruct (Z.eqb_spec p 0) as [->|]; simpl.
  - change (10 ^ 0) with 1. rewrite Z.mod_1_r, !Z.div_1_r. simpl.
    rewrite checked_step by (unfold NBASE; lia). by case_bool.
  - rewrite Z.rem_mod_nonneg by lia. destruct (Z.eqb_spec (d mod 10 ^ p) 0); [|done]. csimpl.
    rewrite checked_step by (try apply Z.div_pos; lia). by case_bool.
Qed.

Lemma scaled_loop_spec r p ds : ∀ i v, 0 ≤ p < 4 → 0 ≤ v → Forall is_digit ds →
  i < r ≤ i + blen ds →
  (retained_ok r p i v ds → scaled_loop c r p i v ds
    = Ok (foldl (λ v d, v * NBASE + d) v (take (Z.to_nat (r - i)) ds) / 10 ^ p)) ∧
  (¬ retained_ok r p i v ds → ∃ m, scaled_loop c r p i v ds = Err (value_out_of_range c m)).
Proof.
  induction ds as [|d ds IH]; intros i v Hp Hv Hds Hi; [unfold blen in Hi; simpl in Hi; lia|].
  apply Forall_cons in Hds as [Hd Hds]. rewrite blen_cons in Hi.
  rewrite scaled_step by (done || lia). unfold retained_ok.
  replace (Z.to_nat (r - i)) with (S (Z.to_nat (r - (i + 1)))) by lia. simpl.
  destruct Hd as [Hd0 Hd].
  destruct (Z.eqb_spec (i + 1) r) as [<-|Hne].
  - rewrite Z.sub_diag. simpl. rewrite drop_0. destruct (last_digit_split v d p Hp) as [-> _].
    destruct (Z.eqb_spec (d mod 10 ^ p) 0) as [Hm|Hm]; [|split; [by intros [? _]|eauto]].
    destruct (Z.leb_spec ((v * NBASE + d) / 10 ^ p) i128_max); [|split; [intros (_ & ? & _); lia|eauto]].
    rewrite scaled_loop_zeros by lia. case_bool_decide as Hz; split; try done; eauto.
    + intros []. by split_and!.
    + by intros (_ & _ & ?).
  - destruct (Z.leb_spec (v * NBASE + d) i128_max) as [Hle|Hgt].
    + apply IH; [done|unfold NBASE in *; lia|done|lia].
    + assert (i128_max < foldl (λ v d, v * NBASE + d) (v * NBASE + d)
                (take (Z.to_nat (r - (i + 1))) ds) / 10 ^ p).
      { apply exceeds_after_drop; [done|done|by apply Forall_take|].
        destruct ds; [unfold blen in Hi; simpl in Hi; lia|].
        by replace (Z.to_nat (r - (i + 1))) with (S (Z.to_nat (r - (i + 1) - 1))) by lia. }
      split; [intros (_ & ? & _); lia|eauto].
Qed.

(** A step either gives the number that satisfies [P] or an out-of-range error. *)
Definition exactly (r : result Fault Z) (P : Z → Prop) : Prop :=
  (∀ x, r = Ok x ↔ P x) ∧ ∀ f, r = Err f → ∃ m, f = value_out_of_range c m.

Lemma exactly_Ok x (P : Z → Prop) : (∀ y, P y ↔ y = x) → exactly (Ok x) P.
Proof. intros HP. split; [|done]. intros y. rewrite HP. split; [by intros [= ->]|by intros ->]. Qed.

Lemma exactly_Err m (P : Z → Prop) : (∀ y, ¬ P y) → exactly (Err (value_out_of_range c m)) P.
Proof. intros HP. split; [|intros f [= <-]; eauto]. intros y. split; [done|by intros ?%HP]. Qed.

Lemma accumulate_scaled_exact ds places : Forall is_digit ds → 0 < digits_value ds → 0 ≤ places →
  exactly (accumulate_scaled_numeric_digits c ds places)
    (λ x, digits_value ds = x * 10 ^ places ∧ x ≤ i128_max).
Proof.
  intros Hds Hpos Hp. unfold accumulate_scaled_numeric_digits, DEC_DIGITS.
  set (g := places / 4). set (k := places mod 4).
  assert (0 ≤ g ∧ 0 ≤ k < 4 ∧ places = 4 * g + k) as (Hg & Hk & Hpl) by (subst g k; div_lia).
  assert (10 ^ places = NBASE ^ g * 10 ^ k) as Hpow
    by (rewrite NBASE_pow, <- Z.pow_add_r by lia; by f_equal).
  pose proof (NBASE_pow_pos g Hg) as HNg. destruct (places_divide k Hk) as (H10 & _ & _).
  destruct (Z.leb_spec (blen ds - g) 0) as [Hr|Hr].
  { apply exactly_Err. intros x [Hx _]. pose proof (digits_value_bounds ds Hds).
    pose proof (Z.pow_le_mono_r NBASE (blen ds) g ltac:(done) ltac:(lia)).
    assert (NBASE ^ g ≤ 10 ^ places) by (rewrite Hpow; nia).
    assert (0 < x) by nia. nia. }
  destruct (scaled_loop_spec (blen ds - g) k ds 0 0) as [HOk HErr]; [done|done|done|lia|].
  unfold retained_ok in *. rewrite Z.sub_0_r in *.
  set (pre := take (Z.to_nat (blen ds - g)) ds) in *. set (post := drop (Z.to_nat (blen ds - g)) ds) in *.
  assert (digits_value ds = digits_value pre * NBASE ^ g + digits_value post) as HD.
  { rewrite <- (take_drop (Z.to_nat (blen ds - g)) ds) at 1. rewrite digits_value_app. fold pre post.
    repeat f_equal. subst post. unfold blen. rewrite length_drop. unfold blen in Hr. lia. }
  assert (Forall is_digit post) as Hpost by (by apply Forall_drop).
  assert (0 ≤ digits_value post < NBASE ^ g) as Hpb.
  { pose proof (digits_value_bounds post Hpost) as Hb. replace (blen post) with g in Hb; [done|].
    subst post. unfold blen. rewrite length_drop. unfold blen in Hr. lia. }
  change (foldl (λ v d, v * NBASE + d) 0 pre) with (digits_value pre) in *.
  assert (∀ x, digits_value ds = x * 10 ^ places ↔ digits_value post = 0 ∧ digits_value pre = x * 10 ^ k) as Hiff.
  { intros x. rewrite HD, Hpow. split; [|intros [-> ->]; lia]. intros Hx.
    assert (digits_value post = (x * 10 ^ k - digits_value pre) * NBASE ^ g) as Hp' by lia.
    assert (x * 10 ^ k - digits_value pre = 0) by nia. lia. }
  destruct (decide (digits_value pre mod 10 ^ k = 0 ∧ digits_value pre / 10 ^ k ≤ i128_max
    ∧ Forall (λ d, d = 0) post)) as [Hok|Hno].
  - rewrite (HOk Hok). apply exactly_Ok. intros x. rewrite Hiff. destruct Hok as (Hm & Hle & Hz).
    rewrite (digits_value_zeros post Hz). apply Z.div_exact in Hm; [|lia].
    split; [intros [[_ Hx] _]; rewrite Hx, Z.div_mul; lia|]. intros ->. lia.
  - destruct (HErr Hno) as [m ->]. apply exactly_Err. intros x [[Hz Hx]%Hiff Hle]. apply Hno.
    rewrite Hx, Z.mod_mul, Z.div_mul by lia. split_and!; [done|done|by apply digits_value_zero].
Qed.

(** The unsigned coefficient of a number with digits [ds] and exponent [e]. *)
Lemma unsigned_exact ds e : Forall is_digit ds → 0 < digits_value ds →
  exactly
    (if 0 <=? e then
       coefficient ← accumulate_numeric_digits c ds;
       factor ← ok_or (checked_pow10 e) (value_out_of_range c EXCEEDS);
       ok_or (i128_checked (coefficient * factor)) (value_out_of_range c EXCEEDS)
     else accumulate_scaled_numeric_digits c ds (- e))
    (λ x, digits_value ds * 10 ^ Z.max 0 e = x * 10 ^ Z.max 0 (- e) ∧ x ≤ i128_max).
Proof.
  intros Hds Hpos. destruct (Z.leb_spec 0 e).
  - rewrite accumulate_spec by done. rewrite (Z.max_r 0 e), (Z.max_l 0 (- e)) by lia.
    pose proof (Z.pow_pos_nonneg 10 e ltac:(lia) ltac:(lia)). rewrite Z.pow_0_r.
    unfold checked_pow10. rewrite (i128_checked_nonneg (10 ^ e)) by lia.
    destruct (Z.leb_spec (digits_value ds) i128_max); csimpl;
      [|apply exactly_Err; intros x; nia].
    destruct (Z.leb_spec (10 ^ e) i128_max); csimpl; [|apply exactly_Err; intros x; nia].
    rewrite i128_checked_nonneg by lia. case_bool; csimpl; [apply exactly_Ok|apply exactly_Err]; intros; lia.
  - rewrite (Z.max_l 0 e), (Z.max_r 0 (- e)), Z.pow_0_r, Z.mul_1_r by lia.
    apply accumulate_scaled_exact; [done|done|lia].
Qed.
End decoder.

Lemma codec_new_Ok p s c : codec_new p s = Ok c → 0 ≤ p → c = mkCodec p s ∧ 1 ≤ p ≤ 38 ∧ s ≤ p.
Proof.
  unfold codec_new, MAX_DEC_DIGITS. intros H Hp.
  destruct (Z.eqb_spec p 0), (Z.ltb_spec 38 p), (Z.ltb_spec p s); simpl in H; try done.
  injection H as <-. split_and!; [done|lia..].
Qed.

Lemma precision_fits p : p ≤ 38 → 10 ^ p ≤ i128_max.
Proof.
  intros. destruct (Z.lt_ge_cases p 0); [by rewrite Z.pow_neg_r|].
  pose proof (Z.pow_le_mono_r 10 p 38 ltac:(lia) ltac:(lia)).
  assert (10 ^ 38 ≤ i128_max) by (unfold i128_max; lia). lia.
Qed.

(** The coefficient a wire number denotes is determined by its magnitude. *)
Lemma denotes_unsigned sgn w ds s u x :
  let e := (w + 1 - blen ds) * DEC_DIGITS + s in
  digits_value ds * 10 ^ Z.max 0 e = x * 10 ^ Z.max 0 (- e) →
  denotes sgn w ds s u ↔ u = (if sgn =? NUMERIC_NEG then -1 else 1) * x.
Proof.
  intros e Hx. unfold denotes. fold e.
  pose proof (Z.pow_pos_nonneg 10 (Z.max 0 (- e)) ltac:(lia) ltac:(lia)).
  rewrite <- Z.mul_assoc, Hx, Z.mul_assoc. split; [|by intros ->].
  intros Hu. symmetry. by apply Z.mul_cancel_r in Hu; [|lia].
Qed.

Lemma denotes_abs sgn w ds s u :
  let e := (w + 1 - blen ds) * DEC_DIGITS + s in
  Forall is_digit ds → denotes sgn w ds s u →
  digits_value ds * 10 ^ Z.max 0 e = Z.abs u * 10 ^ Z.max 0 (- e).
Proof.
  intros e Hds Hu. unfold denotes in Hu. fold e in Hu.
  pose proof (Z.pow_pos_nonneg 10 (Z.max 0 (- e)) ltac:(lia) ltac:(lia)).
  pose proof (Z.pow_pos_nonneg 10 (Z.max 0 e) ltac:(lia) ltac:(lia)).
  pose proof (digits_value_bounds ds Hds). destruct (sgn =? NUMERIC_NEG); nia.
Qed.

(** The sign and the precision check that end the decoder. *)
Lemma finish_exact p s sgn x : p ≤ 38 → 0 ≤ x ≤ i128_max →
  let c := mkCodec p s in
  exactly c
    (unscaled ← (if sgn =? NUMERIC_NEG
       then ok_or (i128_checked (- x)) (value_out_of_range c EXCEEDS) else Ok x);
     let limit := 10 ^ p - 1 in
     if negb ((- limit <=? unscaled) && (unscaled <=? limit))
     then Err (value_out_of_range c "numeric value exceeds decimal precision")
     else Ok unscaled)
    (λ u, u = (if sgn =? NUMERIC_NEG then -1 else 1) * x ∧ Z.abs u < 10 ^ p).
Proof.
  intros Hp Hx c. set (u := (if sgn =? NUMERIC_NEG then -1 else 1) * x).
  assert ((if sgn =? NUMERIC_NEG
       then ok_or (i128_checked (- x)) (value_out_of_range c EXCEEDS) else Ok x) = Ok u) as ->.
  { subst u. destruct (sgn =? NUMERIC_NEG); [|f_equal; lia]. unfold i128_checked, in_i128.
    unfold i128_min, i128_max in *. rewrite (proj2 (Z.leb_le _ _)), (proj2 (Z.leb_le _ _)) by lia.
    simpl. by f_equal. }
  csimpl. clearbody u. destruct (Z.leb_spec (- (10 ^ p - 1)) u), (Z.leb_spec u (10 ^ p - 1)); simpl.
  1: apply exactly_Ok. 2-4: apply exactly_Err. all: lia.
Qed.

(** What the decoder makes of a finite number that PostgreSQL sends: it
    returns the coefficient that the number has at the column's scale, exactly
    when there is one within the precision, and otherwise an out-of-range error,
    never a panic.  The one exception is zero, which it refuses at a scale of 35 or
    more because it scales the empty digit string by [10 ^ (scale + 4)]. *)
Lemma numeric_send_spec p s c sgn w ds display :
  codec_new p s = Ok c → 0 ≤ p → 0 ≤ s → finite_wire sgn w ds →
  exactly c (numeric_send_to_i128 c (wire_bytes sgn w display ds))
    (λ u, denotes sgn w ds s u ∧ Z.abs u < 10 ^ p ∧ (ds = [] → s < 35)).
Proof.
  intros Hc Hp Hs Hfw. destruct (codec_new_Ok _ _ _ Hc Hp) as (-> & Hp38 & Hsp).
  destruct (wire_fields _ _ display _ Hfw) as (H1 & H2 & H3 & H4).
  unfold numeric_send_to_i128. rewrite H1, H2, H3. csimpl.
  destruct (slice _ 8 _) as [tail|]; [|done]. injection H4 as H4. csimpl. rewrite H4.
  assert (negb (sgn =? NUMERIC_POS) && negb (sgn =? NUMERIC_NEG) = false) as ->
    by (by destruct Hfw as [[-> | ->]]). csimpl.
  pose proof (precision_fits p ltac:(lia)) as Hmax. destruct ds as [|d ds].
  { destruct (fw_zero _ _ _ Hfw eq_refl) as [-> ->]. change (blen []) with 0.
    replace ((0 + 1 - 0) * DEC_DIGITS + s) with (s + 4) by (unfold DEC_DIGITS; lia).
    rewrite (proj2 (Z.leb_le 0 (s + 4))) by lia. unfold checked_pow10, accumulate_numeric_digits. csimpl.
    rewrite i128_checked_nonneg by (apply Z.pow_nonneg; lia).
    assert ((10 ^ (s + 4) <=? i128_max) = (s <? 35)) as ->.
    { destruct (Z.ltb_spec s 35); [apply Z.leb_le, precision_fits; lia|apply Z.leb_gt].
      pose proof (Z.pow_le_mono_r 10 39 (s + 4) ltac:(lia) ltac:(lia)).
      assert (i128_max < 10 ^ 39) by (unfold i128_max; lia). lia. }
    pose proof (denotes_unsigned NUMERIC_POS 0 [] s) as Hd.
    destruct (Z.ltb_spec s 35); csimpl; [|apply exactly_Err; intros y (_ & _ & H35); specialize (H35 eq_refl); lia].
    destruct (finish_exact p s NUMERIC_POS 0 ltac:(lia) ltac:(done)) as [Hf Hf']. split; [|done].
    intros u. rewrite Hf, (Hd u 0) by done. tauto. }
  pose proof (digits_value_head _ _ (fw_digits _ _ _ Hfw) (fw_head _ _ _ Hfw _ _ eq_refl)) as Hpos.
  pose proof (NBASE_pow_pos (blen ds) (blen_nonneg ds)).
  set (e := (w + 1 - blen (d :: ds)) * DEC_DIGITS + s) in *. simpl scale. fold e.
  destruct (unsigned_exact (mkCodec p s) (d :: ds) e (fw_digits _ _ _ Hfw) ltac:(lia)) as [Hu Hu'].
  set (R := if 0 <=? e then _ else _) in *. destruct R as [x|f] eqn:HR; csimpl.
  - destruct (proj1 (Hu x) eq_refl) as [Hx Hxle].
    assert (0 ≤ x) by (pose proof (Z.pow_pos_nonneg 10 (Z.max 0 (- e)) ltac:(lia) ltac:(lia));
      pose proof (Z.pow_pos_nonneg 10 (Z.max 0 e) ltac:(lia) ltac:(lia)); nia).
    destruct (finish_exact p s sgn x ltac:(lia) ltac:(lia)) as [Hf Hf']. split; [|done].
    intros u. rewrite Hf, (denotes_unsigned sgn w _ s u x Hx). naive_solver.
  - destruct (Hu' f eq_refl) as [m ->]. apply exactly_Err. intros u (Hd & Hlt & _).
    apply denotes_abs in Hd; [|by apply Hfw].
    by assert (Err (value_out_of_range (mkCodec p s) m) = Ok (Z.abs u)) as ? by (apply Hu; split; [done|lia]).
Qed.

(** The sign extension of the 11-bit scale, checked on all of its values. *)
Lemma sign_extend_scale l : 0 ≤ l < 2048 →
  Z.lxor l 1024 - 1024 = if l <? 1024 then l else l - 2048.
Proof.
  intros Hl.
  assert (forallb (λ n, Z.lxor (Z.of_nat n) 1024 - 1024
    =? (if Z.of_nat n <? 1024 then Z.of_nat n else Z.of_nat n - 2048)) (seq 0 2048) = true) as Hall
    by (vm_compute; reflexivity).
  rewrite forallb_forall in Hall. specialize (Hall (Z.to_nat l)). rewrite Z2Nat.id in Hall by lia.
  apply Z.eqb_eq, Hall, in_seq. lia.
Qed.

Lemma typmod_roundtrip p s : 0 ≤ p < 2 ^ 15 → -1024 ≤ s < 1024 →
  numeric_precision_scale (numeric_typmod p s) = Some (mkTypmod p s).
Proof.
  intros Hp Hs. unfold numeric_precision_scale, numeric_typmod.
  assert (0 ≤ Z.land s 0x7FF < 2 ^ 11) as Hl.
  { change 0x7FF with (Z.ones 11). rewrite Z.land_ones by lia. apply Z.mod_pos_bound. lia. }
  rewrite lor_shiftl_add by lia. set (l := Z.land s 0x7FF) in *.
  rewrite (proj2 (Z.ltb_ge _ _)) by (unfold VARHDRSZ; lia). rewrite Z.add_simpl_r.
  assert (Z.shiftr (p * 2 ^ 16 + l) 16 = p) as ->.
  { rewrite Z.shiftr_div_pow2 by lia. rewrite Z.div_add_l, Z.div_small by lia. lia. }
  change 0xFFFF with (Z.ones 16). change 0x7FF with (Z.ones 11).
  rewrite !Z.land_ones, Z.mod_small by lia.
  assert ((p * 2 ^ 16 + l) mod 2 ^ 11 = l) as ->.
  { replace (p * 2 ^ 16 + l) with (l + p * 32 * 2 ^ 11) by lia.
    rewrite Z.mod_add by lia. by apply Z.mod_small. }
  do 2 f_equal. rewrite sign_extend_scale by lia. subst l. change 0x7FF with (Z.ones 11).
  rewrite Z.land_ones by lia. case_bool; [apply Z.ltb_lt in Hif|apply Z.ltb_ge in Hif]; div_lia.
Qed.

(** ** Two's complement of any width *)

Definition sign_byte (negative : bool) : byte := byte_of (if negative then 0xFF else 0x00).

Lemma high_bit_sign_byte negative : high_bit (sign_byte negative) = negative.
Proof. by destruct negative. Qed.

Lemma u8_of_sign_byte negative : u8_of (sign_byte negative) = if negative then 255 else 0.
Proof. by destruct negative. Qed.

Lemma be_signed_extend b bs :
  ne_signed true (sign_byte (high_bit b) :: b :: bs) = ne_signed true (b :: bs).
Proof.
  rewrite !be_signed_cons, (be_value_cons (sign_byte _)), (blen_cons _ (b :: bs)).
  pose proof (blen_nonneg (b :: bs)). set (n := blen (b :: bs)) in *.
  replace (8 * (1 + n)) with (8 + 8 * n) by lia. rewrite Z.pow_add_r by lia.
  rewrite high_bit_sign_byte, u8_of_sign_byte. destruct (high_bit b); lia.
Qed.

Lemma be_signed_replicate k b bs :
  ne_signed true (replicate k (sign_byte (high_bit b)) ++ b :: bs) = ne_signed true (b :: bs).
Proof.
  induction k as [|k IH]; [done|]. rewrite <- IH. destruct k as [|k]; [apply be_signed_extend|].
  simpl. rewrite <- (high_bit_sign_byte (high_bit b)) at 1. apply be_signed_extend.
Qed.

(** The value of a prefix of sign bytes only is 0 or -1, and conversely. *)
Lemma be_prefix_sign b bs (negative : bool) :
  ne_signed true (b :: bs) = (if negative then -1 else 0) →
  b :: bs = replicate (S (length bs)) (sign_byte negative).
Proof.
  revert b. induction bs as [|b' bs IH]; intros b; [by destruct negative, b|].
  - rewrite be_signed_cons, be_value_cons, high_bit_spec. pose proof (u8_of_bounds b).
    rewrite (blen_cons b). set (n := blen (b' :: bs)). set (v := ne_value true (b' :: bs)).
    pose proof (ne_value_bounds true (b' :: bs)) as Hv. fold n v in Hv.
    assert (0 < n) as Hn by (subst n; rewrite blen_cons; pose proof (blen_nonneg bs); lia).
    replace (8 * (1 + n)) with (8 + 8 * n) by lia. rewrite Z.pow_add_r by lia.
    assert (1 < 2 ^ (8 * n)) by (apply Z.pow_gt_1; lia). intros Hb.
    assert (u8_of b = if negative then 255 else 0) as Hu
      by (destruct negative, (Z.leb_spec 128 (u8_of b)); nia).
    assert (ne_signed true (b' :: bs) = if negative then -1 else 0) as Hs.
    { rewrite be_signed_cons. fold v n.
      assert (v = if negative then 2 ^ (8 * n) - 1 else 0) as Hv' by (destruct negative;
        rewrite Hu in Hb; simpl in Hb; lia).
      assert (high_bit b' = negative) as ->; [|by destruct negative; lia].
      rewrite high_bit_spec. subst v n. rewrite be_value_cons, blen_cons in Hv'.
      pose proof (u8_of_bounds b'). pose proof (ne_value_bounds true bs). pose proof (blen_nonneg bs).
      replace (8 * (1 + blen bs)) with (8 + 8 * blen bs) in Hv' by lia.
      rewrite Z.pow_add_r in Hv' by lia. destruct negative; [apply Z.leb_le|apply Z.leb_gt]; nia. }
    apply (f_equal2 cons); [|exact (IH _ Hs)].
    rewrite <- (byte_of_u8_of b), Hu. by destruct negative.
Qed.

Lemma be_signed_bounds b bs :
  - 2 ^ (8 * blen (b :: bs) - 1) ≤ ne_signed true (b :: bs) < 2 ^ (8 * blen (b :: bs) - 1).
Proof.
  set (w := 8 * blen (b :: bs)). unfold ne_signed. fold w. pose proof (ne_value_bounds true (b :: bs)) as Hv. fold w in Hv.
  assert (2 ^ w = 2 * 2 ^ (w - 1)).
  { rewrite <- Z.pow_succ_r; [f_equal; lia|]. subst w. rewrite blen_cons. pose proof (blen_nonneg bs). lia. }
  case_bool; [apply Z.ltb_lt in Hif|apply Z.ltb_ge in Hif]; lia.
Qed.

Lemma be_signed_app b bs cs :
  ne_signed true (b :: bs ++ cs) = ne_signed true (b :: bs) * 2 ^ (8 * blen cs) + ne_value true cs.
Proof.
  rewrite !be_signed_cons. change (b :: bs ++ cs) with ((b :: bs) ++ cs). rewrite be_value_app, blen_app.
  pose proof (blen_nonneg (b :: bs)). pose proof (blen_nonneg cs).
  rewrite Z.mul_add_distr_l, Z.pow_add_r by lia. destruct (high_bit b); lia.
Qed.

Lemma forallb_sign_bytes x bs :
  forallb (λ b : byte, bool_decide (b = x)) bs = true ↔ bs = replicate (length bs) x.
Proof.
  induction bs as [|b bs IH]; [done|]. simpl. rewrite andb_true_iff, bool_decide_eq_true, IH.
  split; [intros [-> <-]; by f_equal|by intros [= -> ?]].
Qed.

(** A number wider than 16 bytes is an [i128] only if it is a sign extension. *)
Lemma wide_signed_bytes b pre next rest : blen (next :: rest) = 16 →
  i128_min ≤ ne_signed true (b :: pre ++ next :: rest) ≤ i128_max ↔
  b :: pre = replicate (S (length pre)) (sign_byte (high_bit b)) ∧ high_bit next = high_bit b.
Proof.
  intros H16. split.
  - rewrite be_signed_app, H16. pose proof (ne_value_bounds true (next :: rest)) as Hv.
    rewrite H16 in Hv. unfold i128_min, i128_max. intros Hr.
    assert (ne_signed true (b :: pre) = if high_bit next then -1 else 0) as Hs.
    { pose proof (be_signed_cons next rest) as Hn. pose proof (be_signed_bounds next rest) as Hb.
      rewrite H16 in Hn, Hb. destruct (high_bit next); simpl in *; lia. }
    pose proof (be_prefix_sign _ _ _ Hs) as Heq. rewrite Heq.
    assert (high_bit b = high_bit next) as -> by (injection Heq as -> _; apply high_bit_sign_byte).
    done.
  - intros [Heq Hh]. assert (b = sign_byte (high_bit b)) as Hb by (by injection Heq).
    rewrite (app_comm_cons pre (next :: rest) b), Heq, <- Hh, be_signed_replicate.
    pose proof (be_signed_bounds next rest) as Hr. rewrite H16 in Hr.
    unfold i128_min, i128_max. simpl in *. lia.
Qed.

(** Bytes are decoded as the two's complement number they spell, when it is an
    [i128]. *)
Lemma signed_be_bytes_spec c b bs :
  exactly c (signed_be_bytes_to_i128 c (b :: bs))
    (λ v, v = ne_signed true (b :: bs) ∧ i128_min ≤ v ≤ i128_max).
Proof.
  unfold signed_be_bytes_to_i128. fold (sign_byte (high_bit b)).
  set (r := saturating_sub (blen (b :: bs)) 16).
  destruct (Z.le_gt_cases (blen (b :: bs)) 16) as [Hn|Hn].
  - assert (r = 0) as -> by (subst r; unfold saturating_sub; lia). simpl. rewrite be_signed_replicate.
    apply exactly_Ok. intros v. split; [by intros [-> _]|]. intros ->. split; [done|].
    pose proof (be_signed_bounds b bs) as Hb. pose proof (blen_nonneg bs). rewrite blen_cons in *.
    pose proof (Z.pow_le_mono_r 2 (8 * (1 + blen bs) - 1) 127 ltac:(lia) ltac:(lia)).
    unfold i128_min, i128_max. lia.
  - assert (∃ pre next rest, bs = pre ++ next :: rest ∧ blen (next :: rest) = 16) as (pre & next & rest & -> & H16).
    { exists (take (length bs - 16) bs). destruct (drop (length bs - 16) bs) as [|next rest] eqn:Hd.
      - apply (f_equal length) in Hd. rewrite length_drop in Hd. simpl in Hd.
        rewrite blen_cons in Hn. unfold blen in Hn. lia.
      - exists next, rest. rewrite <- Hd, take_drop. split; [done|]. unfold blen in *.
        rewrite length_drop. simpl in Hn. lia. }
    assert (r = blen (b :: pre)) as Hr
      by (subst r; unfold saturating_sub; rewrite app_comm_cons, blen_app in *; lia).
    assert ((0 <? r) = true) as -> by (apply Z.ltb_lt; rewrite Hr, blen_cons; pose proof (blen_nonneg pre); lia).
    assert (Z.to_nat r = length (b :: pre)) as -> by (rewrite Hr; unfold blen; lia). clear Hr r.
    pose proof (wide_signed_bytes b pre next rest H16) as Hwide. rewrite !app_comm_cons in *.
    rewrite list_lookup_middle, take_app_length, drop_app_length by done.
    assert (16 - length (next :: rest) = 0)%nat as -> by (unfold blen in H16; lia).
    change (S (length pre)) with (length (b :: pre)) in Hwide. rewrite <- forallb_sign_bytes in Hwide.
    remember (b :: pre) as P eqn:HP. csimpl.
    destruct (forallb _ P) eqn:Hall; cbn [orb negb].
    + destruct (Bool.eqb (high_bit next) (high_bit b)) eqn:Hh; simpl.
      * apply Bool.eqb_prop in Hh. apply exactly_Ok. intros v.
        apply forallb_sign_bytes in Hall. rewrite Hall, <- Hh, be_signed_replicate in Hwide |- *.
        split; [by intros [-> _]|]. intros ->. split; [done|]. by apply Hwide.
      * apply exactly_Err. intros v [-> Hv]. apply Hwide in Hv as [_ Hv].
        by rewrite Hv, Bool.eqb_reflx in Hh.
    + apply exactly_Err. intros v [-> Hv]. by apply Hwide in Hv as [Hv _].
Qed.

(** ** The codec over PostgreSQL's conversions

    What PostgreSQL documents of [numeric_recv] with a type modifier and of
    [numeric_send]: a number within the precision is stored, and sent back as a
    canonical number of the same value and display scale; one that exceeds it is
    refused as out of range. *)
Class NumericLaws {AnyNumeric : Type} (numeric_recv : list byte → Z → result RecvError AnyNumeric)
    (numeric_send : AnyNumeric → list byte) : Prop := {
  recv_fits : ∀ p s sgn w ds u, 1 ≤ p ≤ 38 → 0 ≤ s ≤ p →
    finite_wire sgn w ds → denotes sgn w ds s u → Z.abs u < 10 ^ p →
    ∃ n w' ds', numeric_recv (wire_bytes sgn w s ds) (numeric_typmod p s) = Ok n ∧
      finite_wire sgn w' ds' ∧ denotes sgn w' ds' s u ∧ numeric_send n = wire_bytes sgn w' s ds';
  recv_exceeds : ∀ p s sgn w ds u, 1 ≤ p ≤ 38 → 0 ≤ s ≤ p →
    finite_wire sgn w ds → denotes sgn w ds s u → 10 ^ p ≤ Z.abs u →
    ∃ m, numeric_recv (wire_bytes sgn w s ds) (numeric_typmod p s) = Err (NUMERIC_VALUE_OUT_OF_RANGE m);
}.

Lemma denotes_zero_digits sgn w ds s : finite_wire sgn w ds → denotes sgn w ds s 0 → ds = [].
Proof.
  intros Hfw Hd. destruct ds as [|d ds]; [done|].
  pose proof (digits_value_head _ _ (fw_digits _ _ _ Hfw) (fw_head _ _ _ Hfw _ _ eq_refl)) as Hpos.
  pose proof (NBASE_pow_pos (blen ds) (blen_nonneg ds)). apply denotes_abs in Hd; [|by apply Hfw].
  pose proof (Z.pow_pos_nonneg 10 (Z.max 0 ((w + 1 - blen (d :: ds)) * DEC_DIGITS + s)) ltac:(lia) ltac:(lia)).
  simpl Z.abs in Hd. nia.
Qed.

Section laws.
Context {AnyNumeric : Type} {numeric_recv : list byte → Z → result RecvError AnyNumeric}
  {numeric_send : AnyNumeric → list byte} {NL : NumericLaws numeric_recv numeric_send}.

(** C22. Converting a 128-bit decimal coefficient to NUMERIC panics exactly when
    its digit groups overflow the ten-digit buffer: a coefficient of at least
    10^37 at a scale of 1 modulo 4, or of at least 10^38 at a scale of 2 modulo 4.
    Any other coefficient within the precision becomes a NUMERIC from which the
    same coefficient is read back, except that zero is refused on the way back at
    a scale of 35 or more; one beyond the precision is reported as out of range. *)
Theorem decimal_roundtrip p s c u :
  codec_new p s = Ok c → 0 ≤ p → 0 ≤ s → i128_min ≤ u ≤ i128_max →
  (overflows_buffer u s → decode numeric_recv c u = Err Panic) ∧
  (¬ overflows_buffer u s → Z.abs u < 10 ^ p →
    ∃ n, decode numeric_recv c u = Ok n ∧
      if (u =? 0) && (35 <=? s)
      then ∃ m, encode_bound_datum numeric_send c n = Err (value_out_of_range c m)
      else encode_bound_datum numeric_send c n = Ok u) ∧
  (¬ overflows_buffer u s → 10 ^ p ≤ Z.abs u →
    ∃ m, decode numeric_recv c u = Err (value_out_of_range c m)).
Proof.
  intros Hc Hp Hs Hu. destruct (codec_new_Ok _ _ _ Hc Hp) as (-> & Hp38 & Hsp).
  destruct (from_decimal128_spec u s Hu ltac:(unfold MAX_DEC_DIGITS; lia)) as [Hpanic Hwire].
  unfold decode, encode_bound_datum, numeric_recv_external, codec_typmod. simpl scale. simpl precision.
  split; [by intros H; rewrite (Hpanic H)|]. split; intros Hno Hlt;
    destruct (Hwire Hno) as (x & sgn & w & ds & -> & Hfw & Hd & Hb & _); csimpl; rewrite Hb.
  - destruct (recv_fits p s sgn w ds u) as (n & w' & ds' & -> & Hfw' & Hd' & Hsend); [lia|lia|done..|].
    exists n. split; [done|]. rewrite Hsend.
    destruct (numeric_send_spec p s _ sgn w' ds' s Hc Hp Hs Hfw') as [HOk HErr].
    destruct (Z.eqb_spec u 0) as [->|Hn]; simpl.
    + pose proof (denotes_zero_digits _ _ _ _ Hfw' Hd') as ->.
      destruct (Z.leb_spec 35 s); [|apply HOk; split_and!; [done|done|lia]].
      destruct (numeric_send_to_i128 _ _) as [y|f]; [|destruct (HErr f eq_refl) as [m ->]; by exists m].
      destruct (proj1 (HOk y) eq_refl) as (_ & _ & H35). specialize (H35 eq_refl). lia.
    + apply HOk. split_and!; [done|done|]. intros ->. apply (denotes_unsigned _ _ _ _ u 0) in Hd'; [|done].
      destruct (sgn =? NUMERIC_NEG); lia.
  - destruct (recv_exceeds p s sgn w ds u) as [m ->]; [lia|lia|done..|]. by exists m.
Qed.
End laws.

(** A reference conversion that stores the wire bytes after checking the
    precision. *)
Definition ref_recv (bs : list byte) (typmod : Z) : result RecvError (list byte) :=
  match numeric_precision_scale typmod, ne_value true <$> slice bs 0 2, ne_signed true <$> slice bs 2 4,
        be_groups <$> slice bs 8 (blen bs) with
  | Some t, Some n, Some w, Some ds =>
      let e := (w + 1 - n) * DEC_DIGITS + typmod_scale t in
      let m := if 0 <=? e then digits_value ds * 10 ^ e else digits_value ds / 10 ^ (- e) in
      if m <? 10 ^ typmod_precision t then Ok bs else Err (NUMERIC_VALUE_OUT_OF_RANGE "numeric field overflow")
  | _, _, _, _ => Err (INVALID_BINARY_REPRESENTATION "invalid length")
  end.

Lemma ref_recv_spec p s sgn w ds u : 1 ≤ p ≤ 38 → 0 ≤ s ≤ p → finite_wire sgn w ds → denotes sgn w ds s u →
  ref_recv (wire_bytes sgn w s ds) (numeric_typmod p s)
  = if Z.abs u <? 10 ^ p then Ok (wire_bytes sgn w s ds)
    else Err (NUMERIC_VALUE_OUT_OF_RANGE "numeric field overflow").
Proof.
  intros Hp Hs Hfw Hd. destruct (wire_fields sgn w s ds Hfw) as (H1 & H2 & _ & H4).
  unfold ref_recv. rewrite typmod_roundtrip, H1, H2, H4 by lia. simpl typmod_scale. simpl typmod_precision.
  apply denotes_abs in Hd; [|by apply Hfw]. set (e := (w + 1 - blen ds) * DEC_DIGITS + s) in *.
  replace (if 0 <=? e then digits_value ds * 10 ^ e else digits_value ds / 10 ^ (- e)) with (Z.abs u); [done|].
  destruct (Z.leb_spec 0 e).
  - rewrite (Z.max_r 0 e), (Z.max_l 0 (- e)), Z.pow_0_r in Hd by lia. lia.
  - rewrite (Z.max_l 0 e), (Z.max_r 0 (- e)), Z.pow_0_r, Z.mul_1_r in Hd by lia.
    rewrite Hd, Z.div_mul; [done|]. apply Z.pow_nonzero; lia.
Qed.

#[export] Instance ref_numeric_laws : NumericLaws ref_recv id.
Proof.
  split; intros p s sgn w ds u Hp Hs Hfw Hd Hu; rewrite (ref_recv_spec p s sgn w ds u Hp Hs Hfw Hd).
  - rewrite (proj2 (Z.ltb_lt _ _) Hu). by exists (wire_bytes sgn w s ds), w, ds.
  - rewrite (proj2 (Z.ltb_ge _ _) Hu). by exists "numeric field overflow"%string.
Qed.

Lemma decimal_roundtrip_witness :
  decode ref_recv (mkCodec 38 1) (10 ^ 37) = Err Panic ∧
  ∃ n, decode ref_recv (mkCodec 10 2) (-12345) = Ok n ∧ encode_bound_datum id (mkCodec 10 2) n = Ok (-12345).
Proof.
  split.
  - apply (decimal_roundtrip 38 1); [done|lia|lia|unfold i128_min, i128_max; lia|].
    left. split; [done|]. rewrite Z.abs_eq; lia.
  - destruct (decimal_roundtrip (numeric_recv := ref_recv) (numeric_send := id) 10 2 (mkCodec 10 2) (-12345))
      as (_ & H & _); [done|lia|lia|unfold i128_min, i128_max; lia|].
    apply H; [|lia]. intros [[? _]|[_ ?]]; [done|lia].
Defined.
