(* ===== verification/NumericAggregate.v ===== *)
(** * NUMERIC results of aggregates

    lagodb-core/src/datum/numeric/coefficient.rs: an exact SUM is a 256-bit
    two's complement coefficient with a scale; [PostgresNumericCodec::wire] turns
    it into the wire form of DecimalNumeric.v with long division over four 64-bit
    limbs.  The limbs are a list of four [Z], least significant first; every
    [expect], array index and [try_from] of the source is a possible [Panic], and
    the theorem includes that none happens. *)
From stdpp Require Import base list strings.
From Stdlib Require Import ZArith Lia.
From S2P Require Import Prelude Bytes DecimalNumeric.
Open Scope Z_scope.

Definition NUMERIC_BASE : Z := 10000.
Definition I256_BYTES : nat := 32.
Definition I256_LIMBS : nat := 4.
Definition I256_DECIMAL_DIGITS : Z := 77.
Definition I256_NUMERIC_DIGITS : nat := Z.to_nat (I256_DECIMAL_DIGITS / 4 + 1).
Definition I256_WIRE_BYTES : Z := 8 + Z.of_nat I256_NUMERIC_DIGITS * 2.

(** [T::try_from(x).expect(..)]. *)
Definition expect_le (max z : Z) : result Fault Z :=
  if (0 <=? z) && (z <=? max) then Ok z else Err Panic.

Lemma expect_le_Ok max z : 0 ≤ z ≤ max → expect_le max z = Ok z.
Proof. intros. unfold expect_le. by rewrite (proj2 (Z.leb_le _ _)), (proj2 (Z.leb_le _ _)) by lia. Qed.

(** ** Unsigned 256-bit integers *)

Abbreviation Unsigned256 := (list Z).

Definition limb_of_be_bytes (bytes : list byte) (index : nat) : Z :=
  ne_value true (take 8 (drop (I256_BYTES - (index + 1) * 8) bytes)).

Definition u256_from_be_bytes (bytes : list byte) : Unsigned256 :=
  map (limb_of_be_bytes bytes) (seq 0 I256_LIMBS).

Definition is_zero (v : Unsigned256) : bool := forallb (λ limb, limb =? 0) v.

(** The loop of [div_rem], most significant limb first. *)
Fixpoint div_loop (divisor remainder : Z) (rev_limbs : list Z) : result Fault (list Z * Z) :=
  match rev_limbs with
  | [] => Ok ([], remainder)
  | limb :: rest =>
      let value := Z.lor (Z.shiftl remainder 64) limb in
      quotient ← expect_le u64_max (value / divisor);
      '(quotients, remainder) ← div_loop divisor (value mod divisor) rest;
      Ok (quotient :: quotients, remainder)
  end.

Definition div_rem (v : Unsigned256) (divisor : Z) : result Fault (Unsigned256 * Z) :=
  '(quotients, remainder) ← div_loop divisor 0 (reverse v);
  remainder ← expect_le u64_max remainder;
  Ok (reverse quotients, remainder).

Definition group_digit_count (group : Z) : Z :=
  if 1000 <=? group then 4 else if 100 <=? group then 3 else if 10 <=? group then 2 else 1.

(** The value has at most twenty base-10000 digits; the fuel is its bit width. *)
Fixpoint count_loop (fuel : nat) (v : Unsigned256) (groups highest : Z) : result Fault (Z * Z) :=
  match fuel with
  | O => Ok (groups, highest)
  | S fuel' =>
      if is_zero v then Ok (groups, highest)
      else
        '(v, highest) ← div_rem v NUMERIC_BASE;
        count_loop fuel' v (groups + 1) highest
  end.

Definition u256_digit_count (v : Unsigned256) : result Fault Z :=
  '(groups, highest) ← count_loop 256 v 0 0;
  Ok ((groups - 1) * DEC_DIGITS + group_digit_count highest).

(** ** Signed coefficients *)

(** [bytes.iter_mut().rev()] with the carry of [overflowing_add(1)]. *)
Fixpoint increment (rev_bytes : list byte) : list byte :=
  match rev_bytes with
  | [] => []
  | b :: rest => if u8_of b =? 255 then byte_of 0 :: increment rest else byte_of (u8_of b + 1) :: rest
  end.

Record SignedCoefficient := mkCoefficient { magnitude : Unsigned256; negative : bool }.

Definition coefficient_from_be_bytes (bytes : list byte) : SignedCoefficient :=
  let negative := match bytes with [] => false | b :: _ => high_bit b end in
  let bytes :=
    if negative then reverse (increment (reverse (map (λ b, byte_of (255 - u8_of b)) bytes)))
    else bytes in
  let magnitude := u256_from_be_bytes bytes in
  mkCoefficient magnitude (negative && negb (is_zero magnitude)).

(** ** The wire form *)

Definition encode_wire (digits : list Z) (weight sgn scale : Z) : result Fault (list byte) :=
  count ← expect_le u16_max (blen digits);
  Ok (be_u16 count ++ be_u16 (as_u16 weight) ++ be_u16 sgn ++ be_u16 scale
      ++ concat (map be_u16 digits)).

(** The digit loop: [free] slots of the buffer are left. *)
Fixpoint limb_loop (free : nat) (v : Unsigned256) (acc : list Z) : result Fault (list Z) :=
  if is_zero v then Ok acc
  else
    match free with
    | O => Err Panic
    | S free' =>
        '(v, low) ← div_rem v NUMERIC_BASE;
        digit ← expect_le u16_max low;
        limb_loop free' v (digit :: acc)
    end.

Definition from_coefficient (c : SignedCoefficient) (scale : Z) : result Fault (list byte) :=
  if is_zero (magnitude c) then encode_wire [] 0 NUMERIC_POS scale
  else
    decimal_digits ← u256_digit_count (magnitude c);
    let decimal_weight := decimal_digits - scale - 1 in
    let weight := group_weight decimal_weight in
    let offset := (weight + 1) * DEC_DIGITS - decimal_weight - 1 in
    padding ← expect_le u32_max (Z.rem (offset + decimal_digits) DEC_DIGITS);
    digits ←
      (if negb (padding =? 0) then
         '(v, remainder) ← div_rem (magnitude c) (10 ^ padding);
         digit ← expect_le u16_max (remainder * 10 ^ (4 - padding));
         limb_loop (I256_NUMERIC_DIGITS - 1) v [digit]
       else limb_loop I256_NUMERIC_DIGITS (magnitude c) []);
    let sgn := if negative c then NUMERIC_NEG else NUMERIC_POS in
    weight ← (if (- 2 ^ 15 <=? weight) && (weight <? 2 ^ 15) then Ok weight else Err Panic);
    encode_wire digits weight sgn scale.

(** [PostgresNumericCodec::wire]; [None] is its SQL error. *)
Definition wire (coefficient : list byte) (scale : Z) : option (result Fault (list byte)) :=
  if (scale <=? u16_max) && (scale <=? NUMERIC_DSCALE_MASK)
  then Some (from_coefficient (coefficient_from_be_bytes coefficient) scale)
  else None.

(** ** Limb arithmetic *)

Definition is_limb (z : Z) : Prop := 0 ≤ z < 2 ^ 64.

(** The number with limbs [v], least significant first. *)
Definition u256_value (v : Unsigned256) : Z := foldr (λ limb acc, limb + 2 ^ 64 * acc) 0 v.

(** The same with the most significant limb first. *)
Definition rev_value (r : list Z) : Z := foldl (λ acc limb, acc * 2 ^ 64 + limb) 0 r.

Lemma rev_value_from a r : foldl (λ acc limb, acc * 2 ^ 64 + limb) a r
  = a * 2 ^ (64 * blen r) + rev_value r.
Proof.
  unfold rev_value. revert a. induction r as [|x r IH]; intros a; [change (blen []) with 0; simpl; lia|].
  simpl foldl. rewrite IH, (IH (0 * 2 ^ 64 + x)), blen_cons. pose proof (blen_nonneg r).
  replace (64 * (1 + blen r)) with (64 + 64 * blen r) by lia. rewrite Z.pow_add_r by lia. lia.
Qed.

Lemma rev_value_cons x r : rev_value (x :: r) = x * 2 ^ (64 * blen r) + rev_value r.
Proof. unfold rev_value at 1. simpl. apply rev_value_from. Qed.

Lemma rev_value_reverse v : rev_value (reverse v) = u256_value v.
Proof.
  induction v as [|x v IH]; [done|]. rewrite reverse_cons. unfold rev_value.
  rewrite foldl_app. fold (rev_value (reverse v)). rewrite IH. simpl. lia.
Qed.

Lemma rev_value_bounds r : Forall is_limb r → 0 ≤ rev_value r < 2 ^ (64 * blen r).
Proof.
  induction 1 as [|x r [Hx0 Hx] _ IH]; [done|]. rewrite rev_value_cons, blen_cons.
  pose proof (blen_nonneg r). replace (64 * (1 + blen r)) with (64 + 64 * blen r) by lia.
  rewrite Z.pow_add_r by lia. nia.
Qed.

Lemma is_zero_spec v : Forall is_limb v → is_zero v = (u256_value v =? 0).
Proof.
  induction 1 as [|x v [Hx _] Hv IH]; [done|]. simpl. fold (is_zero v). rewrite IH.
  assert (0 ≤ u256_value v).
  { rewrite <- rev_value_reverse. apply rev_value_bounds. by apply Forall_reverse. }
  destruct (Z.eqb_spec x 0), (Z.eqb_spec (u256_value v) 0); simpl; symmetry;
    first [apply Z.eqb_eq|apply Z.eqb_neq]; lia.
Qed.

(** Long division: the quotient limbs and the remainder of the whole number. *)
Lemma div_loop_spec d r : ∀ m, 0 < d ≤ 2 ^ 64 → 0 ≤ m < d → Forall is_limb r →
  ∃ q x, div_loop d m r = Ok (q, x) ∧ length q = length r ∧ Forall is_limb q ∧ 0 ≤ x < d ∧
    m * 2 ^ (64 * blen r) + rev_value r = rev_value q * d + x.
Proof.
  induction r as [|y r IH]; intros m Hd Hm Hr; simpl div_loop.
  { exists [], m. change (blen []) with 0. simpl. split_and!; [done|done|constructor|lia|lia|].
    unfold rev_value. simpl. lia. }
  apply Forall_cons in Hr as [[Hy0 Hy] Hr]. rewrite lor_shiftl_add by lia.
  set (v := m * 2 ^ 64 + y). pose proof (Z.div_mod v d ltac:(lia)) as Hv.
  pose proof (Z.mod_pos_bound v d ltac:(lia)) as Hx.
  assert (is_limb (v / d)) as Hq.
  { split; [apply Z.div_pos; nia|]. apply Z.div_lt_upper_bound; subst v; nia. }
  rewrite expect_le_Ok by (destruct Hq; width_lia).
  csimpl. destruct (IH (v mod d) Hd Hx Hr) as (q & x & -> & Hlen & Hql & Hxd & Heq). csimpl.
  exists (v / d :: q), x. split_and!; [done|simpl; lia|by constructor|lia|lia|].
  rewrite !rev_value_cons, blen_cons. unfold blen in *. rewrite Hlen.
  replace (64 * (1 + Z.of_nat (length r))) with (64 + 64 * Z.of_nat (length r)) by lia.
  rewrite Z.pow_add_r by lia. subst v. nia.
Qed.

Lemma div_rem_spec v d : 0 < d < 2 ^ 64 → Forall is_limb v →
  ∃ q, div_rem v d = Ok (q, u256_value v mod d) ∧ Forall is_limb q ∧ u256_value q = u256_value v / d.
Proof.
  intros Hd Hv. unfold div_rem.
  destruct (div_loop_spec d (reverse v) 0) as (q & x & -> & Hlen & Hq & Hx & Heq);
    [lia|lia|by apply Forall_reverse|]. csimpl.
  rewrite rev_value_reverse, Z.mul_0_l, Z.add_0_l in Heq.
  assert (u256_value v mod d = x ∧ u256_value v / d = rev_value q) as [-> ->].
  { rewrite Heq, Z.add_comm, Z.mod_add, Z.div_add, Z.mod_small, Z.div_small by lia. lia. }
  rewrite expect_le_Ok by width_lia. csimpl.
  exists (reverse q). split_and!; [done|by apply Forall_reverse|].
  rewrite <- rev_value_reverse. by rewrite reverse_involutive.
Qed.

(** The digit loop over limbs is the one over integers. *)
Lemma limb_loop_group free : ∀ v acc, Forall is_limb v →
  limb_loop free v acc = group_loop free (u256_value v) acc.
Proof.
  induction free as [|free IH]; intros v acc Hv; simpl; rewrite is_zero_spec by done;
    destruct (Z.eqb_spec (u256_value v) 0) as [|Hn]; try done.
  destruct (div_rem_spec v NUMERIC_BASE ltac:(done) Hv) as (q & -> & Hq & Hval). csimpl.
  pose proof (Z.mod_pos_bound (u256_value v) NUMERIC_BASE ltac:(done)) as Hm.
  rewrite expect_le_Ok by (unfold NUMERIC_BASE in *; width_lia).
  csimpl. rewrite IH, Hval by done. do 2 f_equal.
  pose proof (Z.div_mod (u256_value v) NUMERIC_BASE ltac:(done)).
  rewrite digit_as_i16 by (unfold is_digit, NUMERIC_BASE, NBASE in *; lia).
  unfold NUMERIC_BASE, NBASE in *. lia.
Qed.

Lemma count_loop_spec fuel : ∀ v g h, Forall is_limb v → 0 ≤ u256_value v < 2 ^ Z.of_nat fuel →
  ∃ k h', count_loop fuel v g h = Ok (g + k, h') ∧
    ((u256_value v = 0 ∧ k = 0 ∧ h' = h) ∨
     (0 < k ∧ 0 < h' < NBASE ∧ h' * NBASE ^ (k - 1) ≤ u256_value v < (h' + 1) * NBASE ^ (k - 1))).
Proof.
  induction fuel as [|fuel IH]; intros v g h Hv Hb; simpl count_loop.
  { exists 0, h. rewrite Z.add_0_r. split; [done|]. left. simpl in Hb. lia. }
  rewrite is_zero_spec by done. destruct (Z.eqb_spec (u256_value v) 0) as [Hz|Hn].
  { exists 0, h. rewrite Z.add_0_r. split; [done|]. by left. }
  rewrite Nat2Z.inj_succ, Z.pow_succ_r in Hb by lia.
  destruct (div_rem_spec v NUMERIC_BASE ltac:(done) Hv) as (q & -> & Hq & Hval). csimpl.
  pose proof (Z.div_mod (u256_value v) NUMERIC_BASE ltac:(done)) as Hdm.
  pose proof (Z.mod_pos_bound (u256_value v) NUMERIC_BASE ltac:(done)) as Hm.
  destruct (IH q (g + 1) (u256_value v mod NUMERIC_BASE) Hq) as (k & h' & -> & Hor).
  { rewrite Hval. split; [apply Z.div_pos; [lia|done]|]. apply Z.div_lt_upper_bound; [done|].
    unfold NUMERIC_BASE. lia. }
  exists (k + 1), h'. split; [do 2 f_equal; lia|]. right. unfold NUMERIC_BASE, NBASE in *.
  destruct Hor as [(Hq0 & -> & ->)|(Hk & Hh & Hlo & Hhi)].
  - simpl. lia.
  - split_and!; [lia..| |]; replace (k + 1 - 1) with (1 + (k - 1)) by lia;
      rewrite (Z.pow_add_r 10000 1 (k - 1)) by lia; nia.
Qed.

Lemma group_digit_count_spec h : 0 < h < NBASE →
  0 < group_digit_count h ∧ 10 ^ (group_digit_count h - 1) ≤ h < 10 ^ group_digit_count h.
Proof.
  intros [H0 H1]. unfold group_digit_count, NBASE in *.
  destruct (Z.leb_spec 1000 h), (Z.leb_spec 100 h), (Z.leb_spec 10 h); simpl; lia.
Qed.

Lemma u256_digit_count_spec v : Forall is_limb v → 0 < u256_value v < 2 ^ 256 →
  ∃ n, u256_digit_count v = Ok n ∧ 0 < n ∧ 10 ^ (n - 1) ≤ u256_value v < 10 ^ n.
Proof.
  intros Hv Hb. unfold u256_digit_count.
  destruct (count_loop_spec 256 v 0 0 Hv) as (k & h & -> & Hor); [lia|]. csimpl.
  destruct Hor as [(? & _)|(Hk & Hh & Hlo & Hhi)]; [lia|].
  destruct (group_digit_count_spec h Hh) as (Hg & Hg1 & Hg2).
  eexists. split; [done|]. rewrite NBASE_pow in Hlo, Hhi by lia. unfold DEC_DIGITS.
  set (G := group_digit_count h) in *.
  replace ((0 + k - 1) * 4 + G - 1) with (4 * (k - 1) + (G - 1)) by lia.
  replace ((0 + k - 1) * 4 + G) with (4 * (k - 1) + G) by lia.
  rewrite !Z.pow_add_r by lia. pose proof (Z.pow_pos_nonneg 10 (4 * (k - 1)) ltac:(lia) ltac:(lia)).
  split_and!; nia.
Qed.

(** ** Bytes *)

Lemma limb_bounds bytes i : (i < 4)%nat → length bytes = I256_BYTES → is_limb (limb_of_be_bytes bytes i).
Proof.
  intros Hi Hlen. unfold limb_of_be_bytes, is_limb.
  pose proof (ne_value_bounds true (take 8 (drop (I256_BYTES - (i + 1) * 8) bytes))) as Hb.
  assert (blen (take 8 (drop (I256_BYTES - (i + 1) * 8) bytes)) = 8) as Heq; [|by rewrite Heq in Hb].
  unfold blen. rewrite length_take, length_drop, Hlen. unfold I256_BYTES. lia.
Qed.

Lemma be_chunks bytes n : (8 ≤ length bytes - n)%nat →
  ne_value true (drop n bytes)
  = ne_value true (take 8 (drop n bytes)) * 2 ^ (8 * Z.of_nat (length bytes - n - 8))
    + ne_value true (drop (n + 8) bytes).
Proof.
  intros Hn. rewrite <- (take_drop 8 (drop n bytes)) at 1. rewrite be_value_app, drop_drop.
  unfold blen. rewrite length_drop. do 4 f_equal. lia.
Qed.

Lemma u256_from_be_bytes_spec bytes : length bytes = I256_BYTES →
  Forall is_limb (u256_from_be_bytes bytes) ∧ u256_value (u256_from_be_bytes bytes) = ne_value true bytes.
Proof.
  intros Hlen. split.
  { unfold u256_from_be_bytes. apply Forall_fmap, Forall_forall. intros i Hi%elem_of_seq.
    apply limb_bounds; [|done]. unfold I256_LIMBS in Hi. lia. }
  pose proof (be_chunks bytes 0) as H0. pose proof (be_chunks bytes 8) as H8.
  pose proof (be_chunks bytes 16) as H16. pose proof (be_chunks bytes 24) as H24.
  rewrite Hlen in H0, H8, H16, H24. unfold I256_BYTES in *. simpl in H0, H8, H16, H24.
  assert (drop 32 bytes = []) as Hd by (apply drop_ge; lia). rewrite Hd in H24.
  rewrite drop_0 in H0.
  cbn [u256_from_be_bytes I256_LIMBS seq map u256_value foldr limb_of_be_bytes I256_BYTES Nat.sub Nat.add Nat.mul].
  unfold limb_of_be_bytes, I256_BYTES. cbn [Nat.sub Nat.add Nat.mul]. rewrite drop_0.
  change (ne_value true []) with 0 in H24. rewrite H0, H8, H16, H24 by lia. lia.
Qed.

Lemma le_value_increment r :
  le_value (increment r) = (le_value r + 1) mod 2 ^ (8 * blen r) ∧ length (increment r) = length r.
Proof.
  induction r as [|b r [IH IHlen]]; [done|]. simpl increment. pose proof (u8_of_bounds b).
  pose proof (le_value_bounds r) as Hr. pose proof (blen_nonneg r). rewrite blen_cons.
  replace (8 * (1 + blen r)) with (8 + 8 * blen r) by lia. rewrite Z.pow_add_r by lia.
  set (P := 2 ^ (8 * blen r)) in *. change (2 ^ 8) with 256.
  destruct (Z.eqb_spec (u8_of b) 255) as [Hb|Hb]; simpl le_value; rewrite u8_of_byte_of.
  - rewrite IH. split; [|simpl; by rewrite IHlen].
    rewrite Hb, Z.rem_mul_r by lia.
    replace (255 + 256 * le_value r + 1) with ((le_value r + 1) * 256) by lia.
    rewrite Z.mod_mul, Z.div_mul by lia. change (0 mod 256) with 0. lia.
  - split; [|done]. rewrite (Z.mod_small (u8_of b + 1)) by lia.
    rewrite Z.mod_small by nia. lia.
Qed.

Lemma le_value_invert r :
  le_value (map (λ b, byte_of (255 - u8_of b)) r) = 2 ^ (8 * blen r) - 1 - le_value r.
Proof.
  induction r as [|b r IH]; [done|]. simpl. rewrite IH, u8_of_byte_of, blen_cons.
  pose proof (u8_of_bounds b). rewrite Z.mod_small by lia. pose proof (blen_nonneg r).
  replace (8 * (1 + blen r)) with (8 + 8 * blen r) by lia. rewrite Z.pow_add_r by lia. lia.
Qed.

(** Inverting and incrementing the bytes negates the number they spell. *)
Lemma negate_bytes_spec bytes :
  ne_value true (reverse (increment (reverse (map (λ b, byte_of (255 - u8_of b)) bytes))))
  = (- ne_value true bytes) mod 2 ^ (8 * blen bytes) ∧
  length (reverse (increment (reverse (map (λ b, byte_of (255 - u8_of b)) bytes)))) = length bytes.
Proof.
  unfold ne_value. rewrite reverse_involutive.
  assert (reverse (map (λ b, byte_of (255 - u8_of b)) bytes) = map (λ b, byte_of (255 - u8_of b)) (reverse bytes))
    as -> by (symmetry; apply fmap_reverse).
  set (r := map _ (reverse bytes)). destruct (le_value_increment r) as [-> Hlen].
  assert (blen r = blen bytes) as Hblen
    by (subst r; unfold blen; by rewrite length_map, length_reverse).
  subst r. rewrite le_value_invert, Hblen. rewrite length_reverse, Hlen, length_map, length_reverse.
  split; [|done]. unfold blen at 1. rewrite length_reverse. fold (blen bytes).
  rewrite <- (Z.mod_add (- le_value (reverse bytes)) 1) by (apply Z.pow_nonzero; pose proof (blen_nonneg bytes); lia).
  f_equal. lia.
Qed.

Lemma coefficient_spec b bs : length (b :: bs) = I256_BYTES →
  let c := coefficient_from_be_bytes (b :: bs) in
  let v := ne_signed true (b :: bs) in
  Forall is_limb (magnitude c) ∧ u256_value (magnitude c) = Z.abs v ∧
  negative c = (v <? 0) ∧ Z.abs v ≤ 2 ^ 255.
Proof.
  intros Hlen c v. pose proof (be_signed_bounds b bs) as Hv. fold v in Hv.
  assert (blen (b :: bs) = 32) as Hb by (unfold blen; by rewrite Hlen). rewrite Hb in Hv. simpl in Hv.
  pose proof (be_signed_cons b bs) as Hs. fold v in Hs. rewrite Hb in Hs.
  pose proof (ne_value_bounds true (b :: bs)) as Hn. rewrite Hb in Hn.
  subst c. unfold coefficient_from_be_bytes. set (l := b :: bs) in *.
  destruct (high_bit b) eqn:Hh; cbn [magnitude negative].
  - destruct (negate_bytes_spec l) as [Hneg Hnl]. rewrite Hb in Hneg.
    destruct (u256_from_be_bytes_spec _ (eq_trans Hnl Hlen)) as [Hlimbs Hval].
    rewrite Hval, Hneg, is_zero_spec, Hval, Hneg by done.
    assert ((- ne_value true l) mod 2 ^ (8 * 32) = Z.abs v) as ->.
    { rewrite <- (Z.mod_add _ 1) by done. rewrite Z.mod_small; simpl in *; lia. }
    split_and!; [done|done| |simpl in *; lia].
    destruct (Z.eqb_spec (Z.abs v) 0), (Z.ltb_spec v 0); simpl in *; try done; lia.
  - destruct (u256_from_be_bytes_spec l Hlen) as [Hlimbs Hval]. rewrite Hval. simpl.
    split_and!; [done|simpl in *; lia| |simpl in *; lia]. symmetry. apply Z.ltb_ge. lia.
Qed.

(** ** The wire number *)

#[local] Arguments limb_loop : simpl never.
#[local] Arguments group_loop : simpl never.

(** The two branches of the source fill the buffer as [digit_loop] does. *)
Lemma limb_digits v p : Forall is_limb v → 0 < u256_value v → 0 ≤ p < 4 →
  (if negb (p =? 0) then
     '(q, remainder) ← div_rem v (10 ^ p);
     digit ← expect_le u16_max (remainder * 10 ^ (4 - p));
     limb_loop (I256_NUMERIC_DIGITS - 1) q [digit]
   else limb_loop I256_NUMERIC_DIGITS v [])
  = digit_loop I256_NUMERIC_DIGITS (u256_value v) p.
Proof.
  intros Hv Hpos Hp. unfold digit_loop. destruct (Z.eqb_spec p 0) as [|Hn]; simpl negb.
  { by apply limb_loop_group. }
  destruct (padding_cases p Hp Hn) as (H1 & H2 & H3 & _). unfold DEC_DIGITS, NBASE in *.
  destruct (div_rem_spec v (10 ^ p)) as (q & -> & Hq & Hval); [nia|done|]. csimpl.
  destruct (Z.eqb_spec (u256_value v) 0); [lia|].
  pose proof (Z.mod_pos_bound (u256_value v) (10 ^ p) ltac:(lia)) as Hm.
  pose proof (Z.div_mod (u256_value v) (10 ^ p) ltac:(lia)).
  assert (is_digit (u256_value v mod 10 ^ p * 10 ^ (4 - p))) as Hd by (unfold is_digit, NBASE; nia).
  rewrite expect_le_Ok by (unfold is_digit, NBASE in Hd; width_lia).
  csimpl. rewrite limb_loop_group, Hval by done.
  change (I256_NUMERIC_DIGITS - 1)%nat with 19%nat.
  replace (u256_value v - u256_value v / 10 ^ p * 10 ^ p) with (u256_value v mod 10 ^ p) by lia.
  by rewrite digit_as_i16 by done.
Qed.

Lemma encode_wire_digits ds w sgn s : Forall is_digit ds → blen ds < 2 ^ 16 →
  encode_wire ds w sgn s = Ok (wire_bytes sgn w s ds).
Proof.
  intros Hds Hlen. unfold encode_wire. pose proof (blen_nonneg ds).
  rewrite expect_le_Ok by width_lia. unfold wire_bytes.
  assert (map be_u16 ds = map (λ d, be_u16 (as_u16 d)) ds) as ->; [|done].
  apply map_ext_Forall. eapply Forall_impl; [exact Hds|]. intros d [Hd0 Hd].
  unfold NBASE in Hd. by rewrite as_u16_small by lia.
Qed.

(** The number of digits of a 256-bit coefficient and of its padded form. *)
Lemma coefficient_fits v p : 0 < v ≤ 2 ^ 255 → 0 ≤ p < 4 →
  padded v p < NBASE ^ Z.of_nat I256_NUMERIC_DIGITS.
Proof.
  intros Hv Hp. unfold padded. change (NBASE ^ Z.of_nat I256_NUMERIC_DIGITS) with (10 ^ 80).
  assert (0 ≤ (4 - p) mod 4 ≤ 3) by (pose proof (Z.mod_pos_bound (4 - p) 4); lia).
  pose proof (Z.pow_le_mono_r 10 ((4 - p) mod 4) 3 ltac:(lia) ltac:(lia)).
  pose proof (Z.pow_pos_nonneg 10 ((4 - p) mod 4) ltac:(lia) ltac:(lia)).
  assert (2 ^ 255 * 10 ^ 3 < 10 ^ 80) by lia. nia.
Qed.

Lemma from_coefficient_spec c s v : Forall is_limb (magnitude c) → u256_value (magnitude c) = Z.abs v →
  negative c = (v <? 0) → Z.abs v ≤ 2 ^ 255 → 0 ≤ s ≤ NUMERIC_DSCALE_MASK →
  ∃ sgn w ds, from_coefficient c s = Ok (wire_bytes sgn w s ds) ∧
    finite_wire sgn w ds ∧ denotes sgn w ds s v ∧ blen ds ≤ 20.
Proof.
  unfold NUMERIC_DSCALE_MASK. intros Hl Hval Hneg Hv Hs. unfold from_coefficient.
  rewrite is_zero_spec, Hval by done. destruct (Z.eqb_spec (Z.abs v) 0) as [Hz|Hnz].
  { exists NUMERIC_POS, 0, []. rewrite encode_wire_digits by done.
    assert (v = 0) as -> by lia. split_and!; [done| |done|done]. split; try done; auto. }
  destruct (u256_digit_count_spec (magnitude c) Hl) as (n & -> & Hn & Hb).
  { rewrite Hval. assert (2 ^ 255 < 2 ^ 256) by lia. lia. }
  csimpl. pose proof (group_padding_scale n s Hn ltac:(lia)) as Hpad.
  unfold group_padding in Hpad. rewrite Z.sub_add_distr in Hpad. rewrite Hpad. rewrite group_weight_floor in *.
  pose proof (Z.mod_pos_bound s 4 ltac:(lia)) as Hm.
  rewrite expect_le_Ok by width_lia. csimpl.
  rewrite limb_digits by (done || lia).
  pose proof (digit_loop_spec I256_NUMERIC_DIGITS (u256_value (magnitude c)) (s mod 4) ltac:(lia) Hm) as Hloop.
  rewrite Hval in *.
  assert (padded (Z.abs v) (s mod 4) < NBASE ^ Z.of_nat I256_NUMERIC_DIGITS) as Hfit
    by (apply coefficient_fits; lia).
  rewrite (proj2 (Z.ltb_lt _ _) Hfit) in Hloop. destruct Hloop as (ds & -> & Hds). csimpl.
  destruct (digits_of_length _ _ (padded_pos (Z.abs v) (s mod 4) ltac:(lia)) Hds) as (Hlen & Hlo & _).
  assert (blen ds ≤ 20).
  { assert (blen ds - 1 < 20); [|lia]. apply (Z.pow_lt_mono_r_iff NBASE); [done|lia|].
    change 20 with (Z.of_nat I256_NUMERIC_DIGITS). lia. }
  assert (n ≤ 78).
  { assert (n - 1 < 78); [|lia]. apply pow10_mono; [lia|]. assert (2 ^ 255 < 10 ^ 78) by lia. lia. }
  rewrite (proj2 (Z.leb_le _ _)), (proj2 (Z.ltb_lt _ _)) by div_lia. csimpl.
  pose proof Hds as (Hdig & Hdv & Hhead). rewrite encode_wire_digits by (done || lia).
  exists (if negative c then NUMERIC_NEG else NUMERIC_POS), ((n - s - 1) / 4), ds.
  split_and!; [done| | |done].
  - split; try done; [destruct (negative c); auto|div_lia|lia|].
    intros ->. unfold blen in Hlen. simpl in Hlen. lia.
  - replace v with ((if (if negative c then NUMERIC_NEG else NUMERIC_POS) =? NUMERIC_NEG then -1 else 1) * Z.abs v)
      at 1; [|rewrite Hneg; destruct (Z.ltb_spec v 0); simpl; lia].
    apply denotes_magnitude; [|done]. apply (weight_length (Z.abs v) n); [lia|lia|lia|done|done].
Qed.

(** C26. The NUMERIC that a 256-bit aggregate coefficient becomes is exact: for
    every 32-byte coefficient and every scale that PostgreSQL's wire form can
    carry, the encoder returns, without a panic and within its 48-byte buffer, a
    canonical wire number that denotes the two's complement value of the
    coefficient at that scale; a larger scale is the only error. *)
Theorem aggregate_wire_exact bytes s : length bytes = I256_BYTES → 0 ≤ s →
  if s <=? NUMERIC_DSCALE_MASK then
    ∃ sgn w ds, wire bytes s = Some (Ok (wire_bytes sgn w s ds)) ∧
      finite_wire sgn w ds ∧ denotes sgn w ds s (ne_signed true bytes) ∧
      blen (wire_bytes sgn w s ds) ≤ I256_WIRE_BYTES
  else wire bytes s = None.
Proof.
  intros Hlen Hs. unfold wire, NUMERIC_DSCALE_MASK. destruct (Z.leb_spec s 0x3FFF) as [Hle|Hgt].
  - rewrite (proj2 (Z.leb_le _ _)) by width_lia. simpl. destruct bytes as [|b bs]; [done|].
    destruct (coefficient_spec b bs Hlen) as (H1 & H2 & H3 & H4).
    destruct (from_coefficient_spec _ s _ H1 H2 H3 H4) as (sgn & w & ds & -> & Hfw & Hd & Hl);
      [unfold NUMERIC_DSCALE_MASK; lia|].
    exists sgn, w, ds. split_and!; [done..|]. rewrite blen_wire_bytes. unfold I256_WIRE_BYTES.
    change (Z.of_nat I256_NUMERIC_DIGITS) with 20. lia.
  - by rewrite andb_false_r.
Qed.

Lemma aggregate_wire_exact_witness :
  ∃ sgn w ds, wire (replicate 31 (byte_of 255) ++ [byte_of 0xFE]) 2 = Some (Ok (wire_bytes sgn w 2 ds)) ∧
    denotes sgn w ds 2 (-2).
Proof.
  pose proof (aggregate_wire_exact (replicate 31 (byte_of 255) ++ [byte_of 0xFE]) 2 eq_refl ltac:(lia))
    as (sgn & w & ds & Hw & _ & Hd & _).
  exists sgn, w, ds. split; [exact Hw|]. vm_compute in Hd |- *. exact Hd.
Defined.
