(* ===== verification/PredicateTree.v ===== *)
(** * Predicate trees and their negotiation with a storage provider

    Models lagodb-core/src/expr/boolean.rs, expr/contract.rs,
    expr/pushdown/ir.rs and expr/pushdown/tree.rs.  A WHERE clause reaches a
    provider as a [PredicateExpr]; the shared walker [plan_with] asks the provider
    for a plan of every leaf and combines the answers through AND, OR and NOT.
    The meaning of a tree is SQL's three-valued logic, and the theorem of the file
    says what each answer of the walker promises when the leaves keep their
    promises. *)

From stdpp Require Import base list strings.
From Stdlib Require Import ZArith.
From S2P Require Import Prelude.
Local Open Scope Z_scope.

(** ** Three-valued logic

    [None] is SQL's UNKNOWN. *)
Definition tri : Type := option bool.

Definition kand (a b : tri) : tri :=
  match a, b with
  | Some false, _ | _, Some false => Some false
  | Some true, Some true => Some true
  | _, _ => None
  end.

Definition kor (a b : tri) : tri :=
  match a, b with
  | Some true, _ | _, Some true => Some true
  | Some false, Some false => Some false
  | _, _ => None
  end.

Definition knot (a : tri) : tri := negb <$> a.

Definition kall (l : list tri) : tri := foldr kand (Some true) l.
Definition kany (l : list tri) : tri := foldr kor (Some false) l.

(** ** Boolean tests *)
Inductive BooleanTestKind := IsTrue | IsNotTrue | IsFalse | IsNotFalse | IsUnknown | IsNotUnknown.

#[export] Instance BooleanTestKind_eq_dec : EqDecision BooleanTestKind.
Proof. solve_decision. Defined.

Definition kind_negated (k : BooleanTestKind) : BooleanTestKind :=
  match k with
  | IsTrue => IsNotTrue
  | IsNotTrue => IsTrue
  | IsFalse => IsNotFalse
  | IsNotFalse => IsFalse
  | IsUnknown => IsNotUnknown
  | IsNotUnknown => IsUnknown
  end.

Definition wire_id (k : BooleanTestKind) : Z :=
  match k with
  | IsTrue => 1 | IsNotTrue => 2 | IsFalse => 3 | IsNotFalse => 4 | IsUnknown => 5 | IsNotUnknown => 6
  end.

Definition from_wire_id (id : Z) : option BooleanTestKind :=
  match id with
  | 1 => Some IsTrue | 2 => Some IsNotTrue | 3 => Some IsFalse
  | 4 => Some IsNotFalse | 5 => Some IsUnknown | 6 => Some IsNotUnknown
  | _ => None
  end.

(** What SQL defines a test to yield: never UNKNOWN. *)
Definition boolean_test (k : BooleanTestKind) (v : tri) : bool :=
  match k with
  | IsTrue => bool_decide (v = Some true)
  | IsNotTrue => negb (bool_decide (v = Some true))
  | IsFalse => bool_decide (v = Some false)
  | IsNotFalse => negb (bool_decide (v = Some false))
  | IsUnknown => bool_decide (v = None)
  | IsNotUnknown => negb (bool_decide (v = None))
  end.

(** ** Contracts *)
Inductive PushdownContract := ExactRowFilter | ConservativePruning.
Inductive PushdownCosting := LayoutPruning | StatisticsPruning | UncostedBestEffort.

#[export] Instance PushdownContract_eq_dec : EqDecision PushdownContract.
Proof. solve_decision. Defined.
#[export] Instance PushdownCosting_eq_dec : EqDecision PushdownCosting.
Proof. solve_decision. Defined.

Definition requires_residual (c : PushdownContract) : bool := bool_decide (c = ConservativePruning).
Definition requires_recheck (c : PushdownContract) : bool := bool_decide (c = ExactRowFilter).
Definition is_costed (c : PushdownCosting) : bool := negb (bool_decide (c = UncostedBestEffort)).

Definition costing_conjunction (a b : PushdownCosting) : PushdownCosting :=
  if decide (a = b) then a else UncostedBestEffort.

Definition costing_disjunction (a b : PushdownCosting) : PushdownCosting :=
  match a, b with
  | LayoutPruning, LayoutPruning => LayoutPruning
  | _, _ => UncostedBestEffort
  end.

(** ** Predicate trees *)
Section tree.
Context {S O : Type}.

Inductive PredicateExpr : Type :=
| AlwaysTrue
| AlwaysFalse
| StrictTrue (value : S)
| StrictFalse (value : S)
| Comparison (operator : O) (left right : S)
| BooleanTest (kind : BooleanTestKind) (value : S)
| IsNull (value : S)
| IsNotNull (value : S)
| IsNan (value : S)
| IsNotNan (value : S)
| StartsWith (value prefix : S)
| InSet (operator : O) (value set : S)
| And (children : list PredicateExpr)
| Or (children : list PredicateExpr)
| Not (child : PredicateExpr).

Definition is_leaf (e : PredicateExpr) : bool :=
  match e with And _ | Or _ | Not _ => false | _ => true end.

(** Induction that reaches the children of AND and OR. *)
Section ind.
Context (P : PredicateExpr → Prop)
  (Hleaf : ∀ e, is_leaf e → P e)
  (Hand : ∀ cs, Forall P cs → P (And cs))
  (Hor : ∀ cs, Forall P cs → P (Or cs))
  (Hnot : ∀ c, P c → P (Not c)).

Fixpoint predicate_ind (e : PredicateExpr) : P e :=
  let all := fix all (cs : list PredicateExpr) : Forall P cs :=
    match cs with
    | [] => Forall_nil_2 P
    | c :: cs' => Forall_cons_2 P c cs' (predicate_ind c) (all cs')
    end in
  match e with
  | And cs => Hand cs (all cs)
  | Or cs => Hor cs (all cs)
  | Not c => Hnot c (predicate_ind c)
  | leaf => Hleaf leaf I
  end.
End ind.

Definition expr_and (a b : PredicateExpr) : PredicateExpr :=
  match a, b with
  | AlwaysFalse, _ | _, AlwaysFalse => AlwaysFalse
  | AlwaysTrue, p | p, AlwaysTrue => p
  | l, r => And [l; r]
  end.

Definition expr_or (a b : PredicateExpr) : PredicateExpr :=
  match a, b with
  | AlwaysTrue, _ | _, AlwaysTrue => AlwaysTrue
  | AlwaysFalse, p | p, AlwaysFalse => p
  | l, r => Or [l; r]
  end.
End tree.
Arguments PredicateExpr : clear implicits.

(** ** Meaning of a tree

    What a tree needs of its scalars: the value of a scalar in an environment
    ([None] is NULL), the strict comparison operators, and the tests. *)
Record Scalars (S O V Env : Type) := mkScalars {
  scalar : Env → S → option V;
  compare : O → V → V → bool;
  truth : V → bool;
  is_nan : V → bool;
  starts_with : V → V → bool;
  elements : V → list (option V);
}.
Arguments scalar {S O V Env}.
Arguments compare {S O V Env}.
Arguments truth {S O V Env}.
Arguments is_nan {S O V Env}.
Arguments starts_with {S O V Env}.
Arguments elements {S O V Env}.

Definition strict2 {A B} (f : A → A → B) (a b : option A) : option B :=
  match a, b with Some x, Some y => Some (f x y) | _, _ => None end.

Section eval.
Context {S O V Env : Type} (M : Scalars S O V Env).

Fixpoint eval (env : Env) (e : PredicateExpr S O) : tri :=
  let v := scalar M env in
  match e with
  | AlwaysTrue => Some true
  | AlwaysFalse => Some false
  | StrictTrue x => (λ _, true) <$> v x
  | StrictFalse x => (λ _, false) <$> v x
  | Comparison op l r => strict2 (compare M op) (v l) (v r)
  | BooleanTest k x => Some (boolean_test k (truth M <$> v x))
  | IsNull x => Some (bool_decide (v x = None))
  | IsNotNull x => Some (negb (bool_decide (v x = None)))
  | IsNan x => is_nan M <$> v x
  | IsNotNan x => negb ∘ is_nan M <$> v x
  | StartsWith x p => strict2 (starts_with M) (v x) (v p)
  | InSet op x set =>
      array ← v set;
      kany ((λ y, strict2 (compare M op) (v x) y) <$> elements M array)
  | And cs => kall (eval env <$> cs)
  | Or cs => kany (eval env <$> cs)
  | Not c => knot (eval env c)
  end.
End eval.

(** ** Plans of a provider *)
Inductive PredicatePlan (P : Type) :=
| Unsupported
| Partial (predicate : P)
| Conservative (predicate : P)
| Exact (predicate : P)
| ExactNoComplement (predicate : P).
Arguments Unsupported {P}.
Arguments Partial {P}.
Arguments Conservative {P}.
Arguments Exact {P}.
Arguments ExactNoComplement {P}.

Definition into_predicate {P} (q : PredicatePlan P) : option P :=
  match q with
  | Unsupported => None
  | Partial p | Conservative p | Exact p | ExactNoComplement p => Some p
  end.

(** The loop variables of [conjunction] and [disjunction]. *)
Record Negotiation (P : Type) := mkNegotiation {
  accepted : list P;
  exact : bool;
  complementable : bool;
  partial : bool;
}.
Arguments mkNegotiation {P}.
Arguments accepted {P}.
Arguments exact {P}.
Arguments complementable {P}.
Arguments partial {P}.

Section plan.
Context {P : Type}.

Definition negotiation_start : Negotiation P := mkNegotiation [] true true false.

(** The arm of the match that every child but an unsupported one takes. *)
Definition accept_child (st : Negotiation P) (child : PredicatePlan P) : Negotiation P :=
  let push p := accepted st ++ [p] in
  match child with
  | Unsupported => st
  | Partial p => mkNegotiation (push p) false (complementable st) true
  | Conservative p => mkNegotiation (push p) false (complementable st) (partial st)
  | Exact p => mkNegotiation (push p) (exact st) (complementable st) (partial st)
  | ExactNoComplement p => mkNegotiation (push p) (exact st) false (partial st)
  end.

Definition conjunction_child (st : Negotiation P) (child : PredicatePlan P) : Negotiation P :=
  match child with
  | Unsupported => mkNegotiation (accepted st) false (complementable st) true
  | child => accept_child st child
  end.

(** [None] is the early return of an unsupported branch. *)
Fixpoint disjunction_loop (st : Negotiation P) (children : list (PredicatePlan P)) : option (Negotiation P) :=
  match children with
  | [] => Some st
  | Unsupported :: _ => None
  | child :: rest => disjunction_loop (accept_child st child) rest
  end.

Definition negotiation_plan (st : Negotiation P) (combine : list P → P) : PredicatePlan P :=
  match accepted st with
  | [] => Unsupported
  | ps =>
      if partial st then Partial (combine ps)
      else if exact st && complementable st then Exact (combine ps)
      else if exact st then ExactNoComplement (combine ps)
      else Conservative (combine ps)
  end.

Definition conjunction (children : list (PredicatePlan P)) (combine : list P → P) : PredicatePlan P :=
  negotiation_plan (foldl conjunction_child negotiation_start children) combine.

Definition disjunction (children : list (PredicatePlan P)) (combine : list P → P) : PredicatePlan P :=
  match disjunction_loop negotiation_start children with
  | None => Unsupported
  | Some st => negotiation_plan st combine
  end.

Definition negate_plan (q : PredicatePlan P) (negate : P → P) : PredicatePlan P :=
  match q with
  | Exact p => Exact (negate p)
  | ExactNoComplement _ | Partial _ | Conservative _ | Unsupported => Unsupported
  end.
End plan.

(** A provider's adapter: the trait [PredicatePlanner]. *)
Class PredicatePlanner (S O P E : Type) := {
  plan_always_true : result E (PredicatePlan P);
  plan_always_false : result E (PredicatePlan P);
  plan_strict_true : S → result E (PredicatePlan P);
  plan_strict_false : S → result E (PredicatePlan P);
  plan_comparison : O → S → S → result E (PredicatePlan P);
  plan_boolean_test : BooleanTestKind → S → result E (PredicatePlan P);
  plan_is_null : S → result E (PredicatePlan P);
  plan_is_not_null : S → result E (PredicatePlan P);
  plan_is_nan : S → result E (PredicatePlan P);
  plan_is_not_nan : S → result E (PredicatePlan P);
  plan_starts_with : S → S → result E (PredicatePlan P);
  plan_in_set : O → S → S → result E (PredicatePlan P);
  plan_conjunction : list P → P;
  plan_disjunction : list P → P;
  plan_negate : P → P;
}.

Section plan_with.
Context {S O P E : Type} (planner : PredicatePlanner S O P E).

Fixpoint plan_with (e : PredicateExpr S O) : result E (PredicatePlan P) :=
  match e with
  | AlwaysTrue => plan_always_true
  | AlwaysFalse => plan_always_false
  | StrictTrue v => plan_strict_true v
  | StrictFalse v => plan_strict_false v
  | Comparison op l r => plan_comparison op l r
  | BooleanTest k v => plan_boolean_test k v
  | IsNull v => plan_is_null v
  | IsNotNull v => plan_is_not_null v
  | IsNan v => plan_is_nan v
  | IsNotNan v => plan_is_not_nan v
  | StartsWith v p => plan_starts_with v p
  | InSet op v s => plan_in_set op v s
  | And cs => qs ← collect plan_with cs; Ok (conjunction qs plan_conjunction)
  | Or cs => qs ← collect plan_with cs; Ok (disjunction qs plan_disjunction)
  | Not (BooleanTest k v) => plan_boolean_test (kind_negated k) v
  | Not c => q ← plan_with c; Ok (negate_plan q plan_negate)
  end.
End plan_with.

(** ** What a plan promises

    [den] is the three-valued meaning of the provider's artifact and [v] the
    meaning of the tree, both at one row.  An exact plan has the tree's meaning,
    an exact plan without complement is TRUE on the same rows, and a widened one
    is TRUE at least there. *)
Definition keeps {P} (den : P → tri) (q : PredicatePlan P) (v : tri) : Prop :=
  match q with
  | Unsupported => True
  | Partial p | Conservative p => v = Some true → den p = Some true
  | Exact p => den p = v
  | ExactNoComplement p => den p = Some true ↔ v = Some true
  end.

(** ** Laws of the logic *)
Lemma knot_knot a : knot (knot a) = a.
Proof. by destruct a as [[]|]. Qed.

Lemma kand_true a b : kand a b = Some true ↔ a = Some true ∧ b = Some true.
Proof. destruct a as [[]|], b as [[]|]; naive_solver. Qed.

Lemma kor_true a b : kor a b = Some true ↔ a = Some true ∨ b = Some true.
Proof. destruct a as [[]|], b as [[]|]; naive_solver. Qed.

Lemma knot_true a : knot a = Some true ↔ a = Some false.
Proof. destruct a as [[]|]; naive_solver. Qed.

Lemma kall_true l : kall l = Some true ↔ Forall (λ a, a = Some true) l.
Proof. induction l as [|a l IH]; [done|]. simpl. by rewrite kand_true, IH, Forall_cons. Qed.

Lemma kany_true l : kany l = Some true ↔ Exists (λ a, a = Some true) l.
Proof.
  induction l as [|a l IH]; [by rewrite Exists_nil|]. simpl. by rewrite kor_true, IH, Exists_cons.
Qed.

Lemma knot_kall l : knot (kall l) = kany (knot <$> l).
Proof. induction l as [|a l IH]; [done|]. csimpl. rewrite <- IH. by destruct a as [[]|], (kall l) as [[]|]. Qed.

Lemma knot_kany l : knot (kany l) = kall (knot <$> l).
Proof. induction l as [|a l IH]; [done|]. csimpl. rewrite <- IH. by destruct a as [[]|], (kany l) as [[]|]. Qed.

Lemma boolean_test_negated k v : boolean_test (kind_negated k) v = negb (boolean_test k v).
Proof. destruct k; simpl; by rewrite ?negb_involutive. Qed.

Lemma wire_id_roundtrip k : from_wire_id (wire_id k) = Some k.
Proof. by destruct k. Qed.

(** ** The negotiation loops in closed form *)
Section closed.
Context {P : Type}.
Implicit Types (q : PredicatePlan P) (qs : list (PredicatePlan P)).

Definition is_exact q : bool := match q with Exact _ | ExactNoComplement _ => true | _ => false end.
Definition has_complement q : bool := match q with ExactNoComplement _ => false | _ => true end.
Definition is_unsupported q : bool := match q with Unsupported => true | _ => false end.
Definition drops_child q : bool := match q with Unsupported | Partial _ => true | _ => false end.

Definition negotiated qs : Negotiation P :=
  mkNegotiation (omap into_predicate qs) (forallb is_exact qs) (forallb has_complement qs) (existsb drops_child qs).

Definition negotiation_app (a b : Negotiation P) : Negotiation P :=
  mkNegotiation (accepted a ++ accepted b) (exact a && exact b)
    (complementable a && complementable b) (partial a || partial b).

Lemma negotiation_app_start a : negotiation_app negotiation_start a = a.
Proof. by destruct a. Qed.

Lemma negotiation_app_cons st q qs :
  negotiation_app (conjunction_child st q) (negotiated qs) = negotiation_app st (negotiated (q :: qs)).
Proof.
  destruct st, q; unfold negotiation_app; csimpl;
    by rewrite ?app_nil_r, <- ?app_assoc, ?andb_true_r, ?andb_false_r, ?orb_true_r, ?orb_false_r.
Qed.

Lemma conjunction_loop_negotiated qs st : foldl conjunction_child st qs = negotiation_app st (negotiated qs).
Proof.
  revert st. induction qs as [|q qs IH]; intros st.
  - destruct st. unfold negotiation_app. csimpl. by rewrite app_nil_r, !andb_true_r, orb_false_r.
  - simpl. by rewrite IH, negotiation_app_cons.
Qed.

Lemma disjunction_loop_negotiated qs st :
  disjunction_loop st qs
  = if existsb is_unsupported qs then None else Some (negotiation_app st (negotiated qs)).
Proof.
  revert st. induction qs as [|q qs IH]; intros st.
  - destruct st. unfold negotiation_app. csimpl. by rewrite app_nil_r, !andb_true_r, orb_false_r.
  - destruct (is_unsupported q) eqn:Hq; [by destruct q|].
    transitivity (disjunction_loop (conjunction_child st q) qs); [by destruct q|].
    rewrite IH. simpl. by rewrite Hq, negotiation_app_cons.
Qed.

Lemma conjunction_negotiated qs combine : conjunction qs combine = negotiation_plan (negotiated qs) combine.
Proof. unfold conjunction. by rewrite conjunction_loop_negotiated, negotiation_app_start. Qed.

Lemma disjunction_negotiated qs combine :
  disjunction qs combine
  = if existsb is_unsupported qs then Unsupported else negotiation_plan (negotiated qs) combine.
Proof.
  unfold disjunction. rewrite disjunction_loop_negotiated, negotiation_app_start. by destruct (existsb _ qs).
Qed.

(** What an accepted plan says about its children. *)
Lemma negotiation_plan_cases qs combine :
  let ps := omap into_predicate qs in
  match negotiation_plan (negotiated qs) combine with
  | Unsupported => ps = []
  | Partial p | Conservative p => ps ≠ [] ∧ p = combine ps
  | Exact p => ps ≠ [] ∧ p = combine ps ∧ qs = Exact <$> ps
  | ExactNoComplement p => ps ≠ [] ∧ p = combine ps ∧ Forall is_exact qs
  end.
Proof.
  unfold negotiation_plan. simpl. destruct (omap into_predicate qs) as [|p ps] eqn:Hps; [done|].
  rewrite <- Hps. assert (omap into_predicate qs ≠ []) as Hne by (by rewrite Hps). clear p ps Hps.
  destruct (existsb drops_child qs); [done|].
  destruct (forallb is_exact qs) eqn:He; simpl; [|done].
  apply Is_true_eq_left, forallb_True in He. destruct (forallb has_complement qs) eqn:Hc; simpl; [|done].
  apply Is_true_eq_left, forallb_True in Hc. split_and!; [done..|]. clear Hne.
  induction qs as [|q qs IH]; [done|]. apply Forall_cons in He as [??], Hc as [??].
  destruct q; csimpl; try done. f_equal. auto.
Qed.
End closed.

(** ** Soundness of the combinators *)
Section combinators.
Context {P : Type} (den : P → tri).
Implicit Types (q : PredicatePlan P) (qs : list (PredicatePlan P)) (vs : list tri).

Lemma keeps_true q v p : keeps den q v → into_predicate q = Some p → v = Some true → den p = Some true.
Proof. destruct q; simpl; naive_solver. Qed.

Lemma keeps_exact q v p : keeps den q v → is_exact q → into_predicate q = Some p →
  den p = Some true ↔ v = Some true.
Proof. destruct q; simpl; naive_solver. Qed.

Lemma keeps_all_true qs vs : Forall2 (keeps den) qs vs → Forall (λ v, v = Some true) vs →
  Forall (λ v, v = Some true) (den <$> omap into_predicate qs).
Proof.
  induction 1 as [|q v qs vs Hq _ IH]; [done|]. intros [Hv Hvs]%Forall_cons. csimpl.
  destruct (into_predicate q) eqn:Hp; csimpl; [constructor|]; eauto using keeps_true.
Qed.

Lemma keeps_any_true qs vs : Forall2 (keeps den) qs vs → existsb is_unsupported qs = false → Exists (λ v, v = Some true) vs →
  Exists (λ v, v = Some true) (den <$> omap into_predicate qs).
Proof.
  induction 1 as [|q v qs vs Hq _ IH]; [done|]. intros [Hu Hus]%orb_false_iff. rewrite Exists_cons. csimpl.
  destruct (into_predicate q) as [p|] eqn:Hp; [|by destruct q]. csimpl. rewrite Exists_cons.
  intros [Hv|Hvs]; [left; eauto using keeps_true|right; auto].
Qed.

Lemma keeps_exact_true qs vs : Forall2 (keeps den) qs vs → Forall is_exact qs →
  Forall2 (λ a b, a = Some true ↔ b = Some true) (den <$> omap into_predicate qs) vs.
Proof.
  induction 1 as [|q v qs vs Hq _ IH]; [done|]. intros [He Hes]%Forall_cons. csimpl.
  destruct (into_predicate q) eqn:Hp; [|by destruct q]. constructor; [|auto].
  eapply keeps_exact; eauto.
Qed.

Lemma keeps_exact_fmap ps vs : Forall2 (keeps den) (Exact <$> ps) vs → den <$> ps = vs.
Proof.
  revert vs. induction ps as [|p ps IH]; intros vs; csimpl.
  - by intros ->%Forall2_nil_inv_l.
  - intros (v & vs' & Hv & Hvs & ->)%Forall2_cons_inv_l. csimpl. f_equal; [exact Hv|auto].
Qed.

Lemma same_truths_all l k : Forall2 (λ a b : tri, a = Some true ↔ b = Some true) l k →
  kall l = Some true ↔ kall k = Some true.
Proof. rewrite !kall_true. induction 1; [done|]. rewrite !Forall_cons. tauto. Qed.

Lemma same_truths_any l k : Forall2 (λ a b : tri, a = Some true ↔ b = Some true) l k →
  kany l = Some true ↔ kany k = Some true.
Proof. rewrite !kany_true. induction 1; [done|]. rewrite !Exists_cons. tauto. Qed.

Lemma conjunction_keeps qs vs combine :
  (∀ ps, ps ≠ [] → den (combine ps) = kall (den <$> ps)) →
  Forall2 (keeps den) qs vs → keeps den (conjunction qs combine) (kall vs).
Proof.
  intros Hden Hqs. rewrite conjunction_negotiated. pose proof (negotiation_plan_cases qs combine) as Hcase.
  destruct (negotiation_plan _ _); simpl in *; [done| | | |].
  1, 2: destruct Hcase as [Hne ->]; rewrite Hden, !kall_true by done; eauto using keeps_all_true.
  - destruct Hcase as (Hne & -> & Hq). rewrite Hq in Hqs. rewrite Hden by done. f_equal.
    by apply keeps_exact_fmap.
  - destruct Hcase as (Hne & -> & He). rewrite Hden by done.
    by apply same_truths_all, keeps_exact_true.
Qed.

Lemma disjunction_keeps qs vs combine :
  (∀ ps, ps ≠ [] → den (combine ps) = kany (den <$> ps)) →
  Forall2 (keeps den) qs vs → keeps den (disjunction qs combine) (kany vs).
Proof.
  intros Hden Hqs. rewrite disjunction_negotiated. destruct (existsb _ qs) eqn:Hu; [done|].
  pose proof (negotiation_plan_cases qs combine) as Hcase.
  destruct (negotiation_plan _ _); simpl in *; [done| | | |].
  1, 2: destruct Hcase as [Hne ->]; rewrite Hden, !kany_true by done; eauto using keeps_any_true.
  - destruct Hcase as (Hne & -> & Hq). rewrite Hq in Hqs. rewrite Hden by done. f_equal.
    by apply keeps_exact_fmap.
  - destruct Hcase as (Hne & -> & He). rewrite Hden by done.
    by apply same_truths_any, keeps_exact_true.
Qed.

Lemma negate_keeps q v negate :
  (∀ p, den (negate p) = knot (den p)) → keeps den q v → keeps den (negate_plan q negate) (knot v).
Proof. intros Hden. destruct q; simpl; try done. intros <-. apply Hden. Qed.
End combinators.

(** ** Soundness of the walker *)
Fixpoint leaves {S O} (e : PredicateExpr S O) : list (PredicateExpr S O) :=
  match e with
  | And cs | Or cs => concat (leaves <$> cs)
  | Not c => leaves c
  | leaf => [leaf]
  end.

(** What a provider owes the walker: its leaves keep their promises on the trees
    it is given, and its combinators have the meaning of AND, OR and NOT. *)
Class SoundPlanner {S O V Env P E} (planner : PredicatePlanner S O P E) (M : Scalars S O V Env)
    (den : Env → P → tri) (wf : Env → PredicateExpr S O → Prop) : Prop := {
  sound_leaf : ∀ env e q, is_leaf e → wf env e → plan_with planner e = Ok q → keeps (den env) q (eval M env e);
  wf_negated : ∀ env k v, wf env (BooleanTest k v) → wf env (BooleanTest (kind_negated k) v);
  den_conjunction : ∀ env ps, ps ≠ [] → den env (plan_conjunction ps) = kall (den env <$> ps);
  den_disjunction : ∀ env ps, ps ≠ [] → den env (plan_disjunction ps) = kany (den env <$> ps);
  den_negate : ∀ env p, den env (plan_negate p) = knot (den env p);
}.

Section sound.
Context {S O V Env P E : Type} (planner : PredicatePlanner S O P E) (M : Scalars S O V Env)
  (den : Env → P → tri) (wf : Env → PredicateExpr S O → Prop) {SP : SoundPlanner planner M den wf}.

Lemma plan_children_keep env cs qs :
  Forall (λ c, ∀ q, Forall (wf env) (leaves c) → plan_with planner c = Ok q → keeps (den env) q (eval M env c)) cs →
  Forall (wf env) (concat (leaves <$> cs)) → collect (plan_with planner) cs = Ok qs →
  Forall2 (keeps (den env)) qs (eval M env <$> cs).
Proof.
  intros IH Hwf Hqs%collect_Forall2. revert IH Hwf.
  induction Hqs as [|c q cs qs Hq _ IHqs]; [done|]. csimpl. rewrite Forall_cons, Forall_app.
  intros [Hc Hcs] [Hwf Hwfs]. constructor; auto.
Qed.

Lemma plan_with_not c :
  (∃ k v, c = BooleanTest k v) ∨
  plan_with planner (Not c) = q ← plan_with planner c; Ok (negate_plan q plan_negate).
Proof. destruct c; eauto. Qed.

Lemma plan_with_keeps env e q :
  Forall (wf env) (leaves e) → plan_with planner e = Ok q → keeps (den env) q (eval M env e).
Proof.
  revert q. induction e as [e Hleaf|cs IH|cs IH|c IH] using predicate_ind; intros q Hwf Hq.
  - apply sound_leaf; [done| |done]. destruct e; simpl in *; try done; by apply Forall_singleton.
  - simpl in Hq. destruct (collect _ cs) as [qs|] eqn:Hqs; [|done]. injection Hq as <-.
    apply conjunction_keeps; [apply den_conjunction|]. by eapply plan_children_keep.
  - simpl in Hq. destruct (collect _ cs) as [qs|] eqn:Hqs; [|done]. injection Hq as <-.
    apply disjunction_keeps; [apply den_disjunction|]. by eapply plan_children_keep.
  - destruct (plan_with_not c) as [(k & v & ->)|Hc].
    + apply Forall_cons in Hwf as [Hwf _]. change (eval M env (Not (BooleanTest k v)))
        with (Some (negb (boolean_test k (truth M <$> scalar M env v)))).
      rewrite <- boolean_test_negated.
      apply (sound_leaf env (BooleanTest (kind_negated k) v)); [exact I|exact (wf_negated env k v Hwf)|exact Hq].
    + rewrite Hc in Hq. destruct (plan_with planner c) as [q'|] eqn:Hq'; [|done]. injection Hq as <-.
      apply negate_keeps; [apply den_negate|]. by apply IH.
Qed.
End sound.

(** ** What holds of every accepted plan

    [I] of every artifact, [K] of the exact ones and [J] of those that may be
    complemented. *)
Section shape.
Context {S O P E : Type} (planner : PredicatePlanner S O P E) (wf : PredicateExpr S O → Prop) (I K J : P → Prop).

Definition shaped (q : PredicatePlan P) : Prop :=
  match q with
  | Unsupported => True
  | Exact p => J p
  | ExactNoComplement p => K p
  | Partial p | Conservative p => I p
  end.

Definition closed_under (combine : list P → P) : Prop :=
  ∀ ps, ps ≠ [] → (Forall I ps → I (combine ps)) ∧ (Forall K ps → K (combine ps)) ∧ (Forall J ps → J (combine ps)).

Context (HKI : ∀ p, K p → I p) (HJK : ∀ p, J p → K p)
  (Hleaf : ∀ e q, is_leaf e → wf e → plan_with planner e = Ok q → shaped q)
  (Hwf : ∀ k v, wf (BooleanTest k v) → wf (BooleanTest (kind_negated k) v))
  (Hconj : closed_under plan_conjunction) (Hdisj : closed_under plan_disjunction)
  (Hneg : ∀ p, J p → J (plan_negate p)).

Lemma shaped_accepted qs : Forall shaped qs → Forall I (omap into_predicate qs).
Proof.
  induction 1 as [|q qs Hq _ IH]; [done|]. destruct q; csimpl; try done; constructor; auto.
Qed.

Lemma shaped_exact qs : Forall shaped qs → Forall is_exact qs → Forall K (omap into_predicate qs).
Proof.
  induction 1 as [|q qs Hq _ IH]; [done|]. intros [He Hes]%Forall_cons. destruct q; csimpl; try done; constructor; auto.
Qed.

Lemma shaped_negotiated qs combine : closed_under combine →
  Forall shaped qs → shaped (negotiation_plan (negotiated qs) combine).
Proof.
  intros Hc Hqs. pose proof (negotiation_plan_cases qs combine) as Hcase.
  destruct (negotiation_plan _ _); simpl in *; [done| | | |].
  1, 2: destruct Hcase as [? ->]; apply Hc; [done|]; by apply shaped_accepted.
  - destruct Hcase as (? & -> & Hq). apply Hc; [done|]. rewrite Hq, Forall_fmap in Hqs. exact Hqs.
  - destruct Hcase as (? & -> & He). apply Hc; [done|]. by apply shaped_exact.
Qed.

Lemma children_shaped cs qs : Forall (λ c, ∀ q, Forall wf (leaves c) → plan_with planner c = Ok q → shaped q) cs →
  Forall wf (concat (leaves <$> cs)) → collect (plan_with planner) cs = Ok qs → Forall shaped qs.
Proof.
  intros IH Hl Hqs%collect_Forall2. revert IH Hl. induction Hqs as [|c q cs qs Hq _ IHqs]; [done|].
  csimpl. rewrite Forall_cons, Forall_app. intros [??] [??]. constructor; auto.
Qed.

Lemma plan_with_shaped e q : Forall wf (leaves e) → plan_with planner e = Ok q → shaped q.
Proof.
  revert q. induction e as [e Hl|cs IH|cs IH|c IH] using predicate_ind; intros q He Hq.
  - apply (Hleaf e); [done| |done]. destruct e; simpl in *; try done; by apply Forall_singleton.
  - simpl in Hq. destruct (collect _ cs) as [qs|] eqn:Hqs; [|done]. injection Hq as <-. rewrite conjunction_negotiated.
    apply shaped_negotiated; [exact Hconj|]. by eapply children_shaped.
  - simpl in Hq. destruct (collect _ cs) as [qs|] eqn:Hqs; [|done]. injection Hq as <-. rewrite disjunction_negotiated.
    destruct (existsb _ qs); [done|]. apply shaped_negotiated; [exact Hdisj|]. by eapply children_shaped.
  - destruct (plan_with_not planner c) as [(k & v & ->)|Hc].
    + apply Forall_cons in He as [He _]. apply (Hleaf (BooleanTest (kind_negated k) v)); [done|by apply Hwf|done].
    + rewrite Hc in Hq. destruct (plan_with planner c) as [q'|] eqn:Hq'; [|done]. injection Hq as <-.
      specialize (IH q' He eq_refl). destruct q'; simpl in *; auto.
Qed.
End shape.

(** ** What an accepted plan says of the leaves

    A plan that drops no child accepts every leaf of the tree. *)
Section accepted.
Context {S O P E : Type} (planner : PredicatePlanner S O P E) (good : PredicateExpr S O → Prop).
Context (Hleaf : ∀ e q, is_leaf e → plan_with planner e = Ok q → drops_child q = false → good e)
  (Hnegated : ∀ k v, good (BooleanTest (kind_negated k) v) → good (BooleanTest k v)).

Lemma negotiated_children (qs : list (PredicatePlan P)) combine :
  drops_child (negotiation_plan (negotiated qs) combine) = false → Forall (λ q, drops_child q = false) qs.
Proof.
  unfold negotiation_plan. simpl. destruct (omap into_predicate qs); [done|]. destruct (existsb drops_child qs) eqn:Hd; [done|].
  intros _. clear -Hd. induction qs as [|q qs IH]; [done|]. simpl in Hd. apply orb_false_iff in Hd as [??]. constructor; auto.
Qed.

Lemma children_accepted cs qs : Forall (λ c, ∀ q, plan_with planner c = Ok q → drops_child q = false → Forall good (leaves c)) cs →
  collect (plan_with planner) cs = Ok qs → Forall (λ q, drops_child q = false) qs → Forall good (concat (leaves <$> cs)).
Proof.
  intros IH Hqs%collect_Forall2. revert IH. induction Hqs as [|c q cs qs Hq _ IHqs]; [done|].
  csimpl. rewrite !Forall_cons, Forall_app. intros [??] [??]. split; eauto.
Qed.

Lemma plan_with_accepted e q : plan_with planner e = Ok q → drops_child q = false → Forall good (leaves e).
Proof.
  revert q. induction e as [e Hl|cs IH|cs IH|c IH] using predicate_ind; intros q Hq Hd.
  - assert (leaves e = [e]) as -> by (by destruct e). apply Forall_singleton. eauto.
  - simpl in Hq. destruct (collect _ cs) as [qs|] eqn:Hqs; [|done]. injection Hq as <-. rewrite conjunction_negotiated in Hd.
    eapply children_accepted; [done..|]. by eapply negotiated_children.
  - simpl in Hq. destruct (collect _ cs) as [qs|] eqn:Hqs; [|done]. injection Hq as <-. rewrite disjunction_negotiated in Hd.
    destruct (existsb _ qs); [done|]. eapply children_accepted; [done..|]. by eapply negotiated_children.
  - destruct (plan_with_not planner c) as [(k & v & ->)|Hc].
    + apply Forall_cons_2; [|constructor]. apply Hnegated. by apply (Hleaf _ q).
    + rewrite Hc in Hq. destruct (plan_with planner c) as [q'|] eqn:Hq'; [|done]. injection Hq as <-.
      apply (IH q'); [done|]. by destruct q'.
Qed.
End accepted.
