(* ===== verification/Expressions.v ===== *)
(** * Expressions: operators, scalar operands and runtime values

    Models lagodb-core/src/expr/contract.rs (operator identities),
    expr/comparison.rs and expr/comparison/catalog.rs (the built-in comparison
    operators), expr/scalar_semantics.rs (text comparison proofs),
    expr/integer_widening.rs, expr/decimal128.rs, expr/value.rs, expr/bindings.rs
    and the PostgreSQL instance of the predicate tree in expr/pushdown/ir.rs.
    PostgreSQL itself, its values, operators and collations, is the class
    [PgBackend] with the laws of [PgBackendLaws]. *)

From stdpp Require Import base list strings.
From Stdlib Require Import ZArith Lia.
From S2P Require Import Prelude.
From S2P Require Import Bytes.
From S2P Require Import DecimalNumeric.
From S2P Require Import PredicateTree.
Local Open Scope Z_scope.

(** ** PostgreSQL type identifiers *)
Definition Oid : Type := Z.
Definition InvalidOid : Oid := 0.
Definition BOOLOID : Oid := 16.
Definition BYTEAOID : Oid := 17.
Definition NAMEOID : Oid := 19.
Definition INT8OID : Oid := 20.
Definition INT2OID : Oid := 21.
Definition INT4OID : Oid := 23.
Definition TEXTOID : Oid := 25.
Definition FLOAT4OID : Oid := 700.
Definition FLOAT8OID : Oid := 701.
Definition BPCHAROID : Oid := 1042.
Definition VARCHAROID : Oid := 1043.
Definition DATEOID : Oid := 1082.
Definition TIMEOID : Oid := 1083.
Definition TIMESTAMPOID : Oid := 1114.
Definition TIMESTAMPTZOID : Oid := 1184.
Definition NUMERICOID : Oid := 1700.
Definition UUIDOID : Oid := 2950.
Definition JSONOID : Oid := 114.

(** Array types. *)
Definition BOOLARRAYOID : Oid := 1000.
Definition INT2ARRAYOID : Oid := 1005.
Definition INT4ARRAYOID : Oid := 1007.
Definition INT8ARRAYOID : Oid := 1016.
Definition FLOAT4ARRAYOID : Oid := 1021.
Definition FLOAT8ARRAYOID : Oid := 1022.
Definition TEXTARRAYOID : Oid := 1009.
Definition VARCHARARRAYOID : Oid := 1015.
Definition BPCHARARRAYOID : Oid := 1014.
Definition NAMEARRAYOID : Oid := 1003.
Definition JSONARRAYOID : Oid := 199.

Definition ARRAY_ELEMENTS : list (Oid * Oid) :=
  [(BOOLARRAYOID, BOOLOID); (INT2ARRAYOID, INT2OID); (INT4ARRAYOID, INT4OID); (INT8ARRAYOID, INT8OID);
   (FLOAT4ARRAYOID, FLOAT4OID); (FLOAT8ARRAYOID, FLOAT8OID); (TEXTARRAYOID, TEXTOID);
   (VARCHARARRAYOID, VARCHAROID); (BPCHARARRAYOID, BPCHAROID); (NAMEARRAYOID, NAMEOID);
   (JSONARRAYOID, JSONOID)].

(** ** Comparison operators *)
Inductive PgComparisonKind := Equal | NotEqual | Less | LessEqual | Greater | GreaterEqual.

#[export] Instance PgComparisonKind_eq_dec : EqDecision PgComparisonKind.
Proof. solve_decision. Defined.

(** What a comparison of each kind says of the order of its operands. *)
Definition kind_holds (k : PgComparisonKind) (c : comparison) : bool :=
  match k, c with
  | Equal, Eq | NotEqual, (Lt | Gt) | Less, Lt | LessEqual, (Lt | Eq) | Greater, Gt | GreaterEqual, (Gt | Eq) => true
  | _, _ => false
  end.

Inductive PgNanComparison := NanIsNan | NanIsNotNan | NanStrictTrue | NanStrictFalse.

Definition with_nan_on (k : PgComparisonKind) (nan_on_left : bool) : PgNanComparison :=
  match nan_on_left, k with
  | _, Equal => NanIsNan
  | _, NotEqual => NanIsNotNan
  | false, Less => NanIsNotNan
  | false, LessEqual => NanStrictTrue
  | false, Greater => NanStrictFalse
  | false, GreaterEqual => NanIsNan
  | true, Less => NanStrictFalse
  | true, LessEqual => NanIsNan
  | true, Greater => NanIsNotNan
  | true, GreaterEqual => NanStrictTrue
  end.

Record PgComparisonSignature := sig {
  operator_oid : Oid;
  left_type : Oid;
  right_type : Oid;
  signature_kind : PgComparisonKind;
}.

(** The catalog.  The function of a signature is the one [pg_operator] records
    for its operator, see [PgBackend]. *)
Definition SIGNATURES : list PgComparisonSignature :=
  [
   sig 91 BOOLOID BOOLOID Equal; sig 85 BOOLOID BOOLOID NotEqual; sig 94 INT2OID INT2OID Equal;
   sig 519 INT2OID INT2OID NotEqual; sig 95 INT2OID INT2OID Less; sig 522 INT2OID INT2OID LessEqual;
   sig 520 INT2OID INT2OID Greater; sig 524 INT2OID INT2OID GreaterEqual; sig 96 INT4OID INT4OID Equal;
   sig 518 INT4OID INT4OID NotEqual; sig 97 INT4OID INT4OID Less; sig 523 INT4OID INT4OID LessEqual;
   sig 521 INT4OID INT4OID Greater; sig 525 INT4OID INT4OID GreaterEqual; sig 410 INT8OID INT8OID Equal;
   sig 411 INT8OID INT8OID NotEqual; sig 412 INT8OID INT8OID Less; sig 414 INT8OID INT8OID LessEqual;
   sig 413 INT8OID INT8OID Greater; sig 415 INT8OID INT8OID GreaterEqual; sig 532 INT2OID INT4OID Equal;
   sig 538 INT2OID INT4OID NotEqual; sig 534 INT2OID INT4OID Less; sig 540 INT2OID INT4OID LessEqual;
   sig 536 INT2OID INT4OID Greater; sig 542 INT2OID INT4OID GreaterEqual; sig 533 INT4OID INT2OID Equal;
   sig 539 INT4OID INT2OID NotEqual; sig 535 INT4OID INT2OID Less; sig 541 INT4OID INT2OID LessEqual;
   sig 537 INT4OID INT2OID Greater; sig 543 INT4OID INT2OID GreaterEqual; sig 1862 INT2OID INT8OID Equal;
   sig 1863 INT2OID INT8OID NotEqual; sig 1864 INT2OID INT8OID Less; sig 1866 INT2OID INT8OID LessEqual;
   sig 1865 INT2OID INT8OID Greater; sig 1867 INT2OID INT8OID GreaterEqual; sig 1868 INT8OID INT2OID Equal;
   sig 1869 INT8OID INT2OID NotEqual; sig 1870 INT8OID INT2OID Less; sig 1872 INT8OID INT2OID LessEqual;
   sig 1871 INT8OID INT2OID Greater; sig 1873 INT8OID INT2OID GreaterEqual; sig 15 INT4OID INT8OID Equal;
   sig 36 INT4OID INT8OID NotEqual; sig 37 INT4OID INT8OID Less; sig 80 INT4OID INT8OID LessEqual;
   sig 76 INT4OID INT8OID Greater; sig 82 INT4OID INT8OID GreaterEqual; sig 416 INT8OID INT4OID Equal;
   sig 417 INT8OID INT4OID NotEqual; sig 418 INT8OID INT4OID Less; sig 420 INT8OID INT4OID LessEqual;
   sig 419 INT8OID INT4OID Greater; sig 430 INT8OID INT4OID GreaterEqual; sig 620 FLOAT4OID FLOAT4OID Equal;
   sig 621 FLOAT4OID FLOAT4OID NotEqual; sig 622 FLOAT4OID FLOAT4OID Less; sig 624 FLOAT4OID FLOAT4OID LessEqual;
   sig 623 FLOAT4OID FLOAT4OID Greater; sig 625 FLOAT4OID FLOAT4OID GreaterEqual; sig 670 FLOAT8OID FLOAT8OID Equal;
   sig 671 FLOAT8OID FLOAT8OID NotEqual; sig 672 FLOAT8OID FLOAT8OID Less; sig 673 FLOAT8OID FLOAT8OID LessEqual;
   sig 674 FLOAT8OID FLOAT8OID Greater; sig 675 FLOAT8OID FLOAT8OID GreaterEqual; sig 1120 FLOAT4OID FLOAT8OID Equal;
   sig 1121 FLOAT4OID FLOAT8OID NotEqual; sig 1122 FLOAT4OID FLOAT8OID Less; sig 1124 FLOAT4OID FLOAT8OID LessEqual;
   sig 1123 FLOAT4OID FLOAT8OID Greater; sig 1125 FLOAT4OID FLOAT8OID GreaterEqual; sig 1130 FLOAT8OID FLOAT4OID Equal;
   sig 1131 FLOAT8OID FLOAT4OID NotEqual; sig 1132 FLOAT8OID FLOAT4OID Less; sig 1134 FLOAT8OID FLOAT4OID LessEqual;
   sig 1133 FLOAT8OID FLOAT4OID Greater; sig 1135 FLOAT8OID FLOAT4OID GreaterEqual; sig 1752 NUMERICOID NUMERICOID Equal;
   sig 1753 NUMERICOID NUMERICOID NotEqual; sig 1754 NUMERICOID NUMERICOID Less; sig 1755 NUMERICOID NUMERICOID LessEqual;
   sig 1756 NUMERICOID NUMERICOID Greater; sig 1757 NUMERICOID NUMERICOID GreaterEqual; sig 1093 DATEOID DATEOID Equal;
   sig 1094 DATEOID DATEOID NotEqual; sig 1095 DATEOID DATEOID Less; sig 1096 DATEOID DATEOID LessEqual;
   sig 1097 DATEOID DATEOID Greater; sig 1098 DATEOID DATEOID GreaterEqual; sig 2060 TIMESTAMPOID TIMESTAMPOID Equal;
   sig 2061 TIMESTAMPOID TIMESTAMPOID NotEqual; sig 2062 TIMESTAMPOID TIMESTAMPOID Less; sig 2063 TIMESTAMPOID TIMESTAMPOID LessEqual;
   sig 2064 TIMESTAMPOID TIMESTAMPOID Greater; sig 2065 TIMESTAMPOID TIMESTAMPOID GreaterEqual; sig 1320 TIMESTAMPTZOID TIMESTAMPTZOID Equal;
   sig 1321 TIMESTAMPTZOID TIMESTAMPTZOID NotEqual; sig 1322 TIMESTAMPTZOID TIMESTAMPTZOID Less; sig 1323 TIMESTAMPTZOID TIMESTAMPTZOID LessEqual;
   sig 1324 TIMESTAMPTZOID TIMESTAMPTZOID Greater; sig 1325 TIMESTAMPTZOID TIMESTAMPTZOID GreaterEqual; sig 2972 UUIDOID UUIDOID Equal;
   sig 2973 UUIDOID UUIDOID NotEqual; sig 2974 UUIDOID UUIDOID Less; sig 2976 UUIDOID UUIDOID LessEqual;
   sig 2975 UUIDOID UUIDOID Greater; sig 2977 UUIDOID UUIDOID GreaterEqual; sig 1955 BYTEAOID BYTEAOID Equal;
   sig 1956 BYTEAOID BYTEAOID NotEqual; sig 1957 BYTEAOID BYTEAOID Less; sig 1958 BYTEAOID BYTEAOID LessEqual;
   sig 1959 BYTEAOID BYTEAOID Greater; sig 1960 BYTEAOID BYTEAOID GreaterEqual; sig 93 NAMEOID NAMEOID Equal;
   sig 1054 BPCHAROID BPCHAROID Equal; sig 98 TEXTOID TEXTOID Equal; sig 531 TEXTOID TEXTOID NotEqual;
   sig 664 TEXTOID TEXTOID Less; sig 665 TEXTOID TEXTOID LessEqual; sig 666 TEXTOID TEXTOID Greater;
   sig 667 TEXTOID TEXTOID GreaterEqual
  ].

Definition for_operator (operator : Oid) : option PgComparisonSignature :=
  find (λ s, operator_oid s =? operator) SIGNATURES.

Definition for_types (left right : Oid) (k : PgComparisonKind) : option PgComparisonSignature :=
  find (λ s, (left_type s =? left) && (right_type s =? right) && bool_decide (signature_kind s = k)) SIGNATURES.

Record PgComparisonIdentity := mkIdentity { id_opno : Oid; id_opcollid : Oid; id_inputcollid : Oid }.

Record PgComparisonOp := mkOp {
  opno : Oid;
  opfuncid : Oid;
  opresulttype : Oid;
  opcollid : Oid;
  inputcollid : Oid;
}.

#[export] Instance PgComparisonOp_eq_dec : EqDecision PgComparisonOp.
Proof. solve_decision. Defined.

Definition op_identity (op : PgComparisonOp) : PgComparisonIdentity :=
  mkIdentity (opno op) (opcollid op) (inputcollid op).

(** ** Integer widening casts *)
Inductive PgIntegerWidening := Int2ToInt4 | Int2ToInt8 | Int4ToInt8.

Definition widening_for_types (source target : Oid) : option PgIntegerWidening :=
  if (source =? INT2OID) && (target =? INT4OID) then Some Int2ToInt4
  else if (source =? INT2OID) && (target =? INT8OID) then Some Int2ToInt8
  else if (source =? INT4OID) && (target =? INT8OID) then Some Int4ToInt8
  else None.

(** ** Scalar operands *)
Record ExprType := mkType { type_oid : Oid; typmod : Z; collation : Oid }.

#[export] Instance ExprType_eq_dec : EqDecision ExprType.
Proof. solve_decision. Defined.

Record ColumnRef := mkColumn {
  scan : Z;
  attno : Z;
  declared_type : ExprType;
  value_type : ExprType;
}.

#[export] Instance ColumnRef_eq_dec : EqDecision ColumnRef.
Proof. solve_decision. Defined.

(** A slot of the values PostgreSQL evaluates before a scan starts. *)
Definition RuntimeValueId : Type := nat.

Definition from_plan_data (index binding_count : nat) : option RuntimeValueId :=
  if decide (index < binding_count)%nat then Some index else None.

Inductive RuntimeValueSource := Constant | ExternalParam | ExecParam | OuterValue.

#[export] Instance RuntimeValueSource_eq_dec : EqDecision RuntimeValueSource.
Proof. solve_decision. Defined.

Definition is_rescan_stable (s : RuntimeValueSource) : bool :=
  match s with Constant | ExternalParam => true | ExecParam | OuterValue => false end.

Definition is_static (s : RuntimeValueSource) : bool :=
  match s with Constant => true | _ => false end.

Record RuntimeValueSpec := mkSpec { spec_type : ExprType; source_kind : RuntimeValueSource }.

#[export] Instance RuntimeValueSpec_eq_dec : EqDecision RuntimeValueSpec.
Proof. solve_decision. Defined.

Definition RuntimeValueLayout : Type := list RuntimeValueSpec.

Inductive ScalarExpr := Column (c : ColumnRef) | Value (v : RuntimeValueId).

#[export] Instance ScalarExpr_eq_dec : EqDecision ScalarExpr.
Proof. solve_decision. Defined.

Definition PgPredicate : Type := PredicateExpr ScalarExpr PgComparisonOp.

Definition rebase_scalar (s : ScalarExpr) (offset : nat) : ScalarExpr :=
  match s with
  | Column c => Column c
  | Value v => Value (v + offset)%nat
  end.

Fixpoint rebase_runtime_values (e : PgPredicate) (offset : nat) : PgPredicate :=
  match e with
  | AlwaysTrue => AlwaysTrue
  | AlwaysFalse => AlwaysFalse
  | StrictTrue v => StrictTrue (rebase_scalar v offset)
  | StrictFalse v => StrictFalse (rebase_scalar v offset)
  | Comparison op l r => Comparison op (rebase_scalar l offset) (rebase_scalar r offset)
  | BooleanTest k v => BooleanTest k (rebase_scalar v offset)
  | IsNull v => IsNull (rebase_scalar v offset)
  | IsNotNull v => IsNotNull (rebase_scalar v offset)
  | IsNan v => IsNan (rebase_scalar v offset)
  | IsNotNan v => IsNotNan (rebase_scalar v offset)
  | StartsWith v p => StartsWith (rebase_scalar v offset) (rebase_scalar p offset)
  | InSet op v s => InSet op (rebase_scalar v offset) (rebase_scalar s offset)
  | And cs => And (map (λ c, rebase_runtime_values c offset) cs)
  | Or cs => Or (map (λ c, rebase_runtime_values c offset) cs)
  | Not c => Not (rebase_runtime_values c offset)
  end.

Record PredicateFragment := mkFragment { root : PgPredicate; runtime_values : RuntimeValueLayout }.

(** ** PostgreSQL values

    A non-NULL datum together with the type that tells how to read it.  The
    numbers are those of the datum: days and microseconds of dates and timestamps
    count from 2000-01-01.  An array is linear when it has at most one dimension
    and its lower bound is one. *)
Section values.
Context {N F : Type}.

Inductive PgValue : Type :=
| PgBool (b : bool)
| PgInt2 (z : Z)
| PgInt4 (z : Z)
| PgInt8 (z : Z)
| PgFloat4 (f : F)
| PgFloat8 (f : F)
| PgDate (days : Z)
| PgTime (micros : Z)
| PgTimestamp (micros : Z)
| PgTimestamptz (micros : Z)
| PgNumeric (n : N)
| PgText (bytes : list byte)
| PgUuid (bytes : list byte)
| PgBytea (bytes : list byte)
| PgArray (linear : bool) (elements : list (option PgValue)).

(** The values of the types that PostgreSQL orders as numbers: an integer of its
    width, a boolean, a date or a timestamp. *)
Definition ordered_value (v : PgValue) (oid : Oid) : option Z :=
  match v with
  | PgBool b => if oid =? BOOLOID then Some (Z.b2z b) else None
  | PgInt2 z => if (oid =? INT2OID) && (- 2 ^ 15 <=? z) && (z <? 2 ^ 15) then Some z else None
  | PgInt4 z => if (oid =? INT4OID) && (- 2 ^ 31 <=? z) && (z <? 2 ^ 31) then Some z else None
  | PgInt8 z => if (oid =? INT8OID) && (- 2 ^ 63 <=? z) && (z <? 2 ^ 63) then Some z else None
  | PgDate z => if (oid =? DATEOID) && (- 2 ^ 31 <=? z) && (z <? 2 ^ 31) then Some z else None
  | PgTimestamp z => if (oid =? TIMESTAMPOID) && (- 2 ^ 63 <=? z) && (z <? 2 ^ 63) then Some z else None
  | PgTimestamptz z => if (oid =? TIMESTAMPTZOID) && (- 2 ^ 63 <=? z) && (z <? 2 ^ 63) then Some z else None
  | _ => None
  end.

(** The values that PostgreSQL orders byte by byte. *)
Definition binary_value (v : PgValue) (oid : Oid) : option (list byte) :=
  match v with
  | PgUuid bs => if (oid =? UUIDOID) && (blen bs =? 16) then Some bs else None
  | PgBytea bs => if oid =? BYTEAOID then Some bs else None
  | _ => None
  end.

Definition text_value (v : PgValue) (oid : Oid) : option (list byte) :=
  match v with
  | PgText bs => if (oid =? TEXTOID) || (oid =? VARCHAROID) then Some bs else None
  | _ => None
  end.

Definition float_value (v : PgValue) (oid : Oid) : option F :=
  match v with
  | PgFloat4 f => if oid =? FLOAT4OID then Some f else None
  | PgFloat8 f => if oid =? FLOAT8OID then Some f else None
  | _ => None
  end.

(** The lossless casts that [PgIntegerWidening] admits around a column; a
    relabelling cast leaves the value as it is. *)
Definition coerce (v : PgValue) (target : Oid) : PgValue :=
  match v with
  | PgInt2 z => if target =? INT4OID then PgInt4 z else if target =? INT8OID then PgInt8 z else v
  | PgInt4 z => if target =? INT8OID then PgInt8 z else v
  | _ => v
  end.
End values.
Arguments PgValue : clear implicits.

Fixpoint bytes_compare (a b : list byte) : comparison :=
  match a, b with
  | [], [] => Eq
  | [], _ => Lt
  | _, [] => Gt
  | x :: a', y :: b' =>
      match u8_of x ?= u8_of y with
      | Eq => bytes_compare a' b'
      | c => c
      end
  end.

Definition is_prefix (p bs : list byte) : bool := bool_decide (take (length p) bs = p).

(** ** PostgreSQL *)
Class PgBackend := {
  AnyNumeric : Type;
  Float : Type;
  float_nan : Float → bool;
  numeric_recv : list byte → Z → result RecvError AnyNumeric;
  numeric_send : AnyNumeric → list byte;
  get_collation_isdeterministic : Oid → bool;
  lagodb_collation_is_c : Oid → bool;
  oprcode : Oid → Oid;
  getBaseTypeAndTypmod : Oid → Z → Oid * Z;
  get_element_type : Oid → Oid;
  pg_operator : Oid → Oid → PgValue AnyNumeric Float → PgValue AnyNumeric Float → bool;
  pg_starts_with : Oid → list byte → list byte → bool;
}.

Notation PgDatum := (PgValue AnyNumeric Float).

Section backend.
Context {B : PgBackend}.

(** [PgComparisonSignature::function_oid] and [matches]. *)
Definition function_oid (s : PgComparisonSignature) : Oid := oprcode (operator_oid s).

Definition signature_matches (s : PgComparisonSignature) (op : PgComparisonOp) : bool :=
  (opno op =? operator_oid s) && (opfuncid op =? function_oid s) && (opresulttype op =? BOOLOID).

Definition builtin_signature (op : PgComparisonOp) : option PgComparisonSignature :=
  match for_operator (opno op) with
  | Some s => if signature_matches s op then Some s else None
  | None => None
  end.

(** ** Text comparison *)
Inductive PgTextComparisonSemantics := Equality | Ordering.

Definition for_equality_collation (c : Oid) : option PgTextComparisonSemantics :=
  if negb (c =? InvalidOid) && get_collation_isdeterministic c then Some Equality else None.

Definition for_comparison (identity : PgComparisonIdentity) (k : PgComparisonKind)
    : option PgTextComparisonSemantics :=
  if negb (id_opcollid identity =? InvalidOid) then None
  else
    match for_operator (id_opno identity) with
    | None => None
    | Some s =>
        if negb (left_type s =? TEXTOID) || negb (right_type s =? TEXTOID)
           || negb (bool_decide (signature_kind s = k))
        then None
        else
          match k with
          | Equal | NotEqual => for_equality_collation (id_inputcollid identity)
          | Less | LessEqual | Greater | GreaterEqual =>
              if lagodb_collation_is_c (id_inputcollid identity) then Some Ordering else None
          end
    end.

(** ** Runtime values *)
Record RuntimeValue := mkValue { datum : option PgDatum; metadata : RuntimeValueSpec }.

(** [PgType::element] and [RuntimeValueSpec::array_element]. *)
Definition element_type (oid : Oid) (typmod : Z) : option (Oid * Z) :=
  let base := getBaseTypeAndTypmod oid typmod in
  let oid := get_element_type base.1 in
  if oid =? InvalidOid then None else Some (oid, base.2).

Definition array_element (s : RuntimeValueSpec) : option RuntimeValueSpec :=
  match element_type (type_oid (spec_type s)) (typmod (spec_type s)) with
  | Some (oid, m) => Some (mkSpec (mkType oid m (collation (spec_type s))) (source_kind s))
  | None => None
  end.

(** ** Meaning of a fragment

    An environment is the row that PostgreSQL reads and the values of the slots. *)
Record Environment := mkEnv { row : Z → option PgDatum; slots : list (option PgDatum) }.

Definition scalar_value (env : Environment) (s : ScalarExpr) : option PgDatum :=
  match s with
  | Column c => (λ v, coerce v (type_oid (value_type c))) <$> row env (attno c)
  | Value id => mjoin (slots env !! id)
  end.

Definition pg_scalars : Scalars ScalarExpr PgComparisonOp PgDatum Environment := {|
  scalar := scalar_value;
  compare op a b := pg_operator (opno op) (inputcollid op) a b;
  truth v := match v with PgBool b => b | _ => false end;
  is_nan v := match v with PgFloat4 f | PgFloat8 f => float_nan f | _ => false end;
  starts_with v p := match v, p with PgText v, PgText p => is_prefix p v | _, _ => false end;
  elements v := match v with PgArray _ l => l | _ => [] end;
|}.
End backend.

(** ** Decimals in expressions *)

(** [Decimal128Semantics::codec]; the shape was validated when it was made. *)
Definition semantics_codec (d : Decimal128Semantics) : Decimal128NumericCodec :=
  mkCodec (sem_precision d) (sem_scale d).

(** [Decimal128Semantics::for_type]; precision and scale must fit [u8] and [i8]. *)
Definition semantics_for_type (t : ExprType) : option Decimal128Semantics :=
  if negb (type_oid t =? NUMERICOID) || negb (collation t =? InvalidOid) then None
  else
    m ← numeric_precision_scale (typmod t);
    if (0 <=? typmod_precision m) && (typmod_precision m <=? u8_max)
       && (- 2 ^ 7 <=? typmod_scale m) && (typmod_scale m <? 2 ^ 7)
    then semantics_new (typmod_precision m) (typmod_scale m) else None.

Definition for_storage_comparison (declared effective value : ExprType) : option Decimal128Semantics :=
  d ← semantics_for_type declared;
  e ← semantics_for_type effective;
  v ← semantics_for_type value;
  if decide (d = e ∧ e = v) then Some e else None.

(** [Decimal128Semantics::value_type]. *)
Definition semantics_value_type (d : Decimal128Semantics) : ExprType :=
  mkType NUMERICOID (codec_typmod (semantics_codec d)) InvalidOid.

Definition matches_finite_column (v : Decimal128ComparisonValue) (k : PgComparisonKind) : option bool :=
  let matched value_is_above :=
    match k with
    | NotEqual => true
    | Less | LessEqual => value_is_above
    | Greater | GreaterEqual => negb value_is_above
    | Equal => false
    end in
  match v with
  | Finite _ => None
  | NegativeInfinity => Some (matched false)
  | PositiveInfinity | NaN => Some (matched true)
  end.

(** How a finite number compares with any NUMERIC: infinities are at the ends and
    NaN is above all numbers. *)
Definition finite_compare (u : Z) (v : Decimal128ComparisonValue) : comparison :=
  match v with
  | Finite u' => u ?= u'
  | NegativeInfinity => Gt
  | PositiveInfinity | NaN => Lt
  end.

Lemma matches_finite_column_spec u v k : (∀ u', v ≠ Finite u') →
  matches_finite_column v k = Some (kind_holds k (finite_compare u v)).
Proof. intros Hv. destruct v as [u'| | |]; [by destruct (Hv u')|by destruct k..]. Qed.

Section laws.
Context {B : PgBackend}.

Definition wire_sign (n : AnyNumeric) : option Z := ne_value true <$> slice (numeric_send n) 4 6.

(** The number [n] has the value [v] at scale [s]. *)
Definition numeric_is (n : AnyNumeric) (s : Z) (v : Decimal128ComparisonValue) : Prop :=
  match v with
  | Finite u => ∃ sgn w display ds, numeric_send n = wire_bytes sgn w display ds ∧
      finite_wire sgn w ds ∧ denotes sgn w ds s u
  | NegativeInfinity => wire_sign n = Some NUMERIC_NINF
  | PositiveInfinity => wire_sign n = Some NUMERIC_PINF
  | NaN => wire_sign n = Some NUMERIC_NAN
  end.
End laws.

(** What PostgreSQL documents of its comparison operators: integers of any width,
    booleans, dates and timestamps compare as numbers; uuid and bytea as byte
    strings; text as byte strings for equality under a deterministic collation
    and for order under a C collation; NUMERIC by value; NaN is equal to itself
    and above every other float.  The array types of the catalog have their
    elements. *)
Class PgBackendLaws (B : PgBackend) : Prop := {
  backend_numeric :: NumericLaws numeric_recv numeric_send;
  scalar_operator : ∀ op c s a b x y, for_operator op = Some s →
    ordered_value a (left_type s) = Some x → ordered_value b (right_type s) = Some y →
    pg_operator op c a b = kind_holds (signature_kind s) (x ?= y);
  binary_operator : ∀ op c s a b x y, for_operator op = Some s →
    binary_value a (left_type s) = Some x → binary_value b (right_type s) = Some y →
    pg_operator op c a b = kind_holds (signature_kind s) (bytes_compare x y);
  text_equality_operator : ∀ op c s a b x y, for_operator op = Some s →
    signature_kind s = Equal ∨ signature_kind s = NotEqual → get_collation_isdeterministic c = true →
    text_value a (left_type s) = Some x → text_value b (right_type s) = Some y →
    pg_operator op c a b = kind_holds (signature_kind s) (bytes_compare x y);
  text_order_operator : ∀ op c s a b x y, for_operator op = Some s → lagodb_collation_is_c c = true →
    text_value a (left_type s) = Some x → text_value b (right_type s) = Some y →
    pg_operator op c a b = kind_holds (signature_kind s) (bytes_compare x y);
  numeric_operator : ∀ op c s a b scale u v, for_operator op = Some s →
    left_type s = NUMERICOID → right_type s = NUMERICOID →
    numeric_is a scale (Finite u) → numeric_is b scale v →
    pg_operator op c (PgNumeric a) (PgNumeric b) = kind_holds (signature_kind s) (finite_compare u v) ∧
    pg_operator op c (PgNumeric b) (PgNumeric a) = kind_holds (signature_kind s) (CompOpp (finite_compare u v));
  nan_operator : ∀ op c s a b x y, for_operator op = Some s →
    float_value a (left_type s) = Some x → float_value b (right_type s) = Some y → float_nan y = true →
    pg_operator op c a b = kind_holds (signature_kind s) (if float_nan x then Eq else Lt);
  nan_operator_left : ∀ op c s a b x y, for_operator op = Some s →
    float_value a (left_type s) = Some x → float_value b (right_type s) = Some y → float_nan x = true →
    pg_operator op c a b = kind_holds (signature_kind s) (if float_nan y then Eq else Gt);
  array_elements : Forall (λ ae, get_element_type ae.1 = ae.2) ARRAY_ELEMENTS;
  starts_with_bytes : ∀ c v p, get_collation_isdeterministic c = true → pg_starts_with c v p = is_prefix p v;
}.

(** ** A reference backend

    Numbers are their wire form, floats are integers with a NaN, and every
    collation is the C collation. *)
Definition wire_value (bs : list byte) : option (Z * Z) :=
  w ← ne_signed true <$> slice bs 2 4;
  sgn ← ne_value true <$> slice bs 4 6;
  ds ← be_groups <$> slice bs 8 (blen bs);
  Some ((if sgn =? NUMERIC_NEG then -1 else 1) * digits_value ds, w + 1 - blen ds).

Definition wire_compare (a b : list byte) : comparison :=
  let special bs := match ne_value true <$> slice bs 4 6 with
    | Some sgn => if sgn =? NUMERIC_NINF then -1 else if sgn =? NUMERIC_PINF then 1
        else if sgn =? NUMERIC_NAN then 2 else 0
    | None => 0
    end in
  match special a ?= special b, wire_value a, wire_value b with
  | Eq, Some (x, e), Some (y, f) =>
      let m := Z.min e f in x * NBASE ^ (e - m) ?= y * NBASE ^ (f - m)
  | c, _, _ => c
  end.

Definition float_compare (a b : option Z) : comparison :=
  match a, b with
  | None, None => Eq
  | None, Some _ => Gt
  | Some _, None => Lt
  | Some x, Some y => x ?= y
  end.

Definition reference_compare (a b : PgValue (list byte) (option Z)) : comparison :=
  let key v := match v with
    | PgBool x => Z.b2z x
    | PgInt2 z | PgInt4 z | PgInt8 z | PgDate z | PgTimestamp z | PgTimestamptz z => z
    | _ => 0
    end in
  match a, b with
  | (PgText x | PgUuid x | PgBytea x), (PgText y | PgUuid y | PgBytea y) => bytes_compare x y
  | PgNumeric x, PgNumeric y => wire_compare x y
  | (PgFloat4 x | PgFloat8 x), (PgFloat4 y | PgFloat8 y) => float_compare x y
  | _, _ => key a ?= key b
  end.

Definition reference_backend : PgBackend := {|
  AnyNumeric := list byte;
  Float := option Z;
  float_nan f := bool_decide (f = None);
  numeric_recv := ref_recv;
  numeric_send := id;
  get_collation_isdeterministic _ := true;
  lagodb_collation_is_c _ := true;
  oprcode oid := if oid =? 1209 then 850 else oid;
  getBaseTypeAndTypmod oid m := (oid, m);
  get_element_type oid := from_option snd InvalidOid (find (λ ae, ae.1 =? oid) ARRAY_ELEMENTS);
  pg_operator op _ a b :=
    match for_operator op with
    | Some s => kind_holds (signature_kind s) (reference_compare a b)
    | None => false
    end;
  pg_starts_with _ v p := is_prefix p v;
|}.

Ltac compare_values a b :=
  let Ha := fresh in let Hb := fresh in intros Ha Hb;
  destruct a; try discriminate Ha; destruct b; try discriminate Hb; simpl in Ha, Hb;
  repeat case_match; by simplify_eq.

Lemma ordered_value_compare a b s t x y :
  ordered_value a s = Some x → ordered_value b t = Some y → reference_compare a b = (x ?= y).
Proof. compare_values a b. Qed.

Lemma binary_value_compare a b s t x y :
  binary_value a s = Some x → binary_value b t = Some y → reference_compare a b = bytes_compare x y.
Proof. compare_values a b. Qed.

Lemma text_value_compare a b s t x y :
  text_value a s = Some x → text_value b t = Some y → reference_compare a b = bytes_compare x y.
Proof. compare_values a b. Qed.

Lemma float_value_compare a b s t x y :
  float_value a s = Some x → float_value b t = Some y → reference_compare a b = float_compare x y.
Proof. compare_values a b. Qed.

(** Two numbers with coefficients [u] and [v] at one scale compare as these. *)
Lemma scaled_compare x y e f s u v :
  x * 10 ^ Z.max 0 (e * DEC_DIGITS + s) = u * 10 ^ Z.max 0 (- (e * DEC_DIGITS + s)) →
  y * 10 ^ Z.max 0 (f * DEC_DIGITS + s) = v * 10 ^ Z.max 0 (- (f * DEC_DIGITS + s)) →
  (x * NBASE ^ (e - Z.min e f) ?= y * NBASE ^ (f - Z.min e f)) = (u ?= v).
Proof.
  unfold DEC_DIGITS. intros Hu Hv.
  set (m := Z.min e f).
  assert (∀ g, m ≤ g → NBASE ^ (g - m) = 10 ^ ((g - m) * 4)) as Hpow.
  { intros g Hg. unfold NBASE. change 10000 with (10 ^ 4). rewrite <- Z.pow_mul_r by lia. f_equal. lia. }
  rewrite !Hpow by lia. set (k := Z.max 0 (- (m * 4 + s))).
  assert (∀ z g c, m ≤ g → z * 10 ^ Z.max 0 (g * 4 + s) = c * 10 ^ Z.max 0 (- (g * 4 + s)) →
    z * 10 ^ ((g - m) * 4) * 10 ^ (m * 4 + s + k) = c * 10 ^ k) as Hscale.
  { intros z g c Hg Hz. rewrite <- Z.mul_assoc, <- Z.pow_add_r by lia.
    apply (Z.mul_reg_r _ _ (10 ^ Z.max 0 (- (g * 4 + s)))); [apply Z.pow_nonzero; lia|].
    replace (c * 10 ^ k * 10 ^ Z.max 0 (- (g * 4 + s))) with (c * 10 ^ Z.max 0 (- (g * 4 + s)) * 10 ^ k) by ring.
    rewrite <- Hz, <- !Z.mul_assoc, <- !Z.pow_add_r by lia. do 2 f_equal. lia. }
  pose proof (Hscale x e u ltac:(lia) Hu) as Hx. pose proof (Hscale y f v ltac:(lia) Hv) as Hy.
  assert (0 < 10 ^ (m * 4 + s + k)) by (apply Z.pow_pos_nonneg; lia).
  assert (0 < 10 ^ k) by (apply Z.pow_pos_nonneg; lia).
  rewrite (Zmult_compare_compat_r (x * _) (y * _) (10 ^ (m * 4 + s + k))), Hx, Hy by lia.
  rewrite <- Zmult_compare_compat_r by lia. done.
Qed.

Lemma wire_value_finite sgn w display ds : finite_wire sgn w ds →
  wire_value (wire_bytes sgn w display ds)
  = Some ((if sgn =? NUMERIC_NEG then -1 else 1) * digits_value ds, w + 1 - blen ds).
Proof.
  intros Hfw. destruct (wire_fields sgn w display ds Hfw) as (_ & H2 & H3 & H4).
  unfold wire_value. rewrite H2, H3, H4. done.
Qed.

Lemma wire_compare_finite (a b : list byte) scale u v :
  numeric_is (B := reference_backend) a scale (Finite u) → numeric_is (B := reference_backend) b scale v →
  wire_compare a b = finite_compare u v ∧ wire_compare b a = CompOpp (finite_compare u v).
Proof.
  intros (sgn & w & dp & ds & Ha & Hfw & Hd). change (a = wire_bytes sgn w dp ds) in Ha. subst a.
  destruct (wire_fields sgn w dp ds Hfw) as (_ & _ & Hsgn & _).
  assert (∀ P : Z → Prop, P NUMERIC_POS → P NUMERIC_NEG → P sgn) as Hs by (intros P; by destruct Hfw as [[-> | ->]]).
  unfold wire_compare. rewrite Hsgn.
  assert ((if sgn =? NUMERIC_NINF then -1 else if sgn =? NUMERIC_PINF then 1
           else if sgn =? NUMERIC_NAN then 2 else 0) = 0) as -> by (by apply Hs).
  destruct v as [v| | |]; simpl.
  - intros (sgn' & w' & dp' & ds' & Hb & Hfw' & Hd'). change (b = wire_bytes sgn' w' dp' ds') in Hb. subst b.
    destruct (wire_fields sgn' w' dp' ds' Hfw') as (_ & _ & Hsgn' & _). rewrite Hsgn'.
    assert ((if sgn' =? NUMERIC_NINF then -1 else if sgn' =? NUMERIC_PINF then 1
             else if sgn' =? NUMERIC_NAN then 2 else 0) = 0) as -> by (by destruct Hfw' as [[-> | ->]]).
    rewrite !wire_value_finite by done. simpl. rewrite <- Z.compare_antisym.
    split; by apply (scaled_compare _ _ _ _ scale).
  - unfold wire_sign. simpl. intros Hb. change (id b) with b in Hb. rewrite Hb. done.
  - unfold wire_sign. simpl. intros Hb. change (id b) with b in Hb. rewrite Hb. done.
  - unfold wire_sign. simpl. intros Hb. change (id b) with b in Hb. rewrite Hb. done.
Qed.

#[export] Instance reference_backend_laws : PgBackendLaws reference_backend.
Proof.
  split; simpl.
  - apply ref_numeric_laws.
  - intros op c s a b x y -> Ha Hb. by rewrite (ordered_value_compare _ _ _ _ _ _ Ha Hb).
  - intros op c s a b x y -> Ha Hb. by rewrite (binary_value_compare _ _ _ _ _ _ Ha Hb).
  - intros op c s a b x y -> _ _ Ha Hb. by rewrite (text_value_compare _ _ _ _ _ _ Ha Hb).
  - intros op c s a b x y -> _ Ha Hb. by rewrite (text_value_compare _ _ _ _ _ _ Ha Hb).
  - intros op c s a b scale u v -> _ _ Ha Hb.
    destruct (wire_compare_finite a b scale u v Ha Hb) as [H1 H2]. simpl. by rewrite H1, H2.
  - intros op c s a b x y -> Ha Hb. rewrite (float_value_compare _ _ _ _ _ _ Ha Hb).
    destruct x, y; simpl; done.
  - intros op c s a b x y -> Ha Hb. rewrite (float_value_compare _ _ _ _ _ _ Ha Hb).
    destruct x, y; simpl; done.
  - repeat constructor.
  - done.
Qed.

(** ** Properties of trees *)
Section rebase.
Context {B : PgBackend}.

(** Shifting the slots of a tree is reading a longer list of values. *)
Lemma eval_rebase r pre vs e :
  eval pg_scalars (mkEnv r (pre ++ vs)) (rebase_runtime_values e (length pre)) = eval pg_scalars (mkEnv r vs) e.
Proof.
  assert (∀ s, scalar_value (mkEnv r (pre ++ vs)) (rebase_scalar s (length pre)) = scalar_value (mkEnv r vs) s) as Hs.
  { intros [c|id]; simpl; [done|]. rewrite lookup_app_r by lia. by rewrite Nat.add_sub. }
  induction e as [e Hleaf|cs IH|cs IH|c IH] using predicate_ind.
  - destruct e; simpl; try done; by rewrite ?Hs.
  - simpl. f_equal. change (map ?f cs) with (f <$> cs). rewrite <- list_fmap_compose. by apply Forall_fmap_ext_1.
  - simpl. f_equal. change (map ?f cs) with (f <$> cs). rewrite <- list_fmap_compose. by apply Forall_fmap_ext_1.
  - simpl. by rewrite IH.
Qed.
End rebase.
