(* ===== verification/PlanData.v ===== *)
(** * Plan data: the codec for values stored in PostgreSQL plans

    Models lagodb-core/src/plan_data (writer.rs, reader.rs, error.rs) and
    lagodb-core/src/expr/codec.rs.  A plan carries lists of PostgreSQL value nodes
    that survive [copyObject]; the writer appends cells and keeps its first error,
    the reader consumes them in order and checks every node tag. *)

From stdpp Require Import base list sets strings.
From Stdlib Require Import ZArith Lia.
From S2P Require Import Prelude.
From S2P Require Import Bytes.
From S2P Require Import PredicateTree.
From S2P Require Import Expressions.
Local Open Scope Z_scope.

(** ** Plan nodes

    A list node is never empty: PostgreSQL's NIL is the null pointer, so an empty
    list appended to a list is a null cell. *)
Inductive NodeTag := T_Integer | T_Boolean | T_Float | T_String | T_List | T_Other (tag : Z).

Inductive Cell :=
| CNull
| CInteger (ival : Z)
| CBoolean (boolval : bool)
| CFloat (fval : option (list byte))
| CString (sval : option (list byte))
| CList (cells : list Cell)
| COther (tag : Z).

Inductive PlanDataError :=
| NullList
| NullCell (field : nat)
| ReadPastEnd (position len : nat)
| UnexpectedTrailingCells (read len : nat)
| WrongNodeTag (field : nat) (expected found : NodeTag)
| NullString (field : nat)
| InvalidUtf8 (field : nat)
| CountTooLarge (value : nat)
| NegativeCount (field : nat) (value : Z)
| InteriorNul (position : nat)
| MalformedI64 (field : nat).

#[export] Instance NodeTag_eq_dec : EqDecision NodeTag.
Proof. solve_decision. Defined.

Definition node_tag (c : Cell) : NodeTag :=
  match c with
  | CInteger _ => T_Integer
  | CBoolean _ => T_Boolean
  | CFloat _ => T_Float
  | CString _ => T_String
  | CList _ => T_List
  | COther tag => T_Other tag
  | CNull => T_Other 0
  end.

(** The cell that holds the pointer of a list. *)
Definition list_cell (l : list Cell) : Cell := match l with [] => CNull | _ => CList l end.

(** ** Decimal text of an [i64]

    [to_string] and [parse::<i64>] of the standard library. *)
Definition ascii_minus : byte := byte_of 45.
Definition digit_char (d : Z) : byte := byte_of (48 + d).

Fixpoint digits_loop (fuel : nat) (z : Z) (acc : list byte) : list byte :=
  match fuel with
  | O => acc
  | S fuel' =>
      let acc := digit_char (z mod 10) :: acc in
      if z / 10 =? 0 then acc else digits_loop fuel' (z / 10) acc
  end.

(** An [i64] has at most nineteen digits. *)
Definition i64_to_string (z : Z) : list byte :=
  if z <? 0 then ascii_minus :: digits_loop 19 (- z) [] else digits_loop 19 z [].

Definition digit_of (b : byte) : option Z :=
  if (48 <=? u8_of b) && (u8_of b <=? 57) then Some (u8_of b - 48) else None.

Fixpoint parse_digits (negative : bool) (acc : Z) (bs : list byte) : option Z :=
  match bs with
  | [] => Some acc
  | b :: bs' =>
      d ← digit_of b;
      let acc := acc * 10 + (if negative then - d else d) in
      if (i64_min <=? acc) && (acc <=? i64_max) then parse_digits negative acc bs' else None
  end.

Definition parse_i64 (bs : list byte) : option Z :=
  match bs with
  | [] => None
  | b :: rest =>
      if bool_decide (b = ascii_minus) then match rest with [] => None | _ => parse_digits true 0 rest end
      else if u8_of b =? 43 then match rest with [] => None | _ => parse_digits false 0 rest end
      else parse_digits false 0 bs
  end.

(** ** Writer *)
Record PlanDataWriter := mkWriter {
  written : list Cell;
  error : option PlanDataError;
  position : nat;
}.

Definition writer_new : PlanDataWriter := mkWriter [] None 0.

Definition as_i32 (z : Z) : Z := (z + 2 ^ 31) mod 2 ^ 32 - 2 ^ 31.
Definition as_u32 (z : Z) : Z := z mod 2 ^ 32.

Definition push_node (w : PlanDataWriter) (c : Cell) : PlanDataWriter :=
  mkWriter (written w ++ [c]) (error w) (S (position w)).

Definition set_error (w : PlanDataWriter) (e : PlanDataError) : PlanDataWriter :=
  mkWriter (written w) (Some e) (position w).

(** [if self.error.is_none()]. *)
Definition unless_failed (w : PlanDataWriter) (next : PlanDataWriter) : PlanDataWriter :=
  match error w with None => next | Some _ => w end.

Definition append_i32 (value : Z) (w : PlanDataWriter) : PlanDataWriter :=
  unless_failed w (push_node w (CInteger value)).

Definition append_oid (value : Oid) (w : PlanDataWriter) : PlanDataWriter := append_i32 (as_i32 value) w.

Definition append_count (value : nat) (w : PlanDataWriter) : PlanDataWriter :=
  unless_failed w
    (if Z.of_nat value <=? i32_max then append_i32 (Z.of_nat value) w else set_error w (CountTooLarge value)).

Definition append_bool (value : bool) (w : PlanDataWriter) : PlanDataWriter :=
  unless_failed w (push_node w (CBoolean value)).

Definition append_i64 (value : Z) (w : PlanDataWriter) : PlanDataWriter :=
  unless_failed w (push_node w (CFloat (Some (i64_to_string value)))).

Definition append_cstr (value : list byte) (w : PlanDataWriter) : PlanDataWriter :=
  unless_failed w (push_node w (CString (Some value))).

Definition append_str (value : RString) (w : PlanDataWriter) : PlanDataWriter :=
  unless_failed w
    (if contains_nul value then set_error w (InteriorNul (position w)) else append_cstr value w).

Definition append_list (l : list Cell) (w : PlanDataWriter) : PlanDataWriter :=
  unless_failed w (push_node w (list_cell l)).

Definition into_list (w : PlanDataWriter) : result PlanDataError (list Cell) :=
  match error w with None => Ok (written w) | Some e => Err e end.

Definition append_nested (build : PlanDataWriter → PlanDataWriter) (w : PlanDataWriter) : PlanDataWriter :=
  unless_failed w
    (match into_list (build writer_new) with
     | Ok l => append_list l w
     | Err e => set_error w e
     end).

(** [encode_list] with an encoder that has no error of its own. *)
Definition encode_list (encode : PlanDataWriter → PlanDataWriter) : result PlanDataError (list Cell) :=
  into_list (encode writer_new).

(** ** Reader

    A reader is the list and the index of the next cell.  A read either fails, and
    the reader is given up, or returns the value and the advanced reader. *)
Record PlanDataReader := mkReader { source : list Cell; next : nat }.

Definition Decoder (E A : Type) : Type := PlanDataReader → result E (A * PlanDataReader).

#[export] Instance decoder_ret {E} : MRet (Decoder E) := λ A a r, Ok (a, r).
#[export] Instance decoder_bind {E} : MBind (Decoder E) := λ A B f m r,
  match m r with
  | Ok (a, r') => f a r'
  | Err e => Err e
  end.
#[export] Instance decoder_fmap {E} : FMap (Decoder E) := λ A B f m, a ← m; mret (f a).

Definition fail {E A} (e : E) : Decoder E A := λ _, Err e.
Definition lift_result {E A} (x : result E A) : Decoder E A :=
  λ r, match x with Ok a => Ok (a, r) | Err e => Err e end.

(** [E: From<PlanDataError>]. *)
Class FromPlanDataError (E : Type) := of_plan_data : PlanDataError → E.
#[export] Instance plan_data_from_itself : FromPlanDataError PlanDataError := λ e, e.

Section reader.
Context {E : Type} `{FromPlanDataError E}.

Definition read_cell : Decoder E Cell := λ r,
  match source r !! next r with
  | None => Err (of_plan_data (ReadPastEnd (next r) (length (source r))))
  | Some CNull => Err (of_plan_data (NullCell (next r)))
  | Some c => Ok (c, mkReader (source r) (S (next r)))
  end.

(** [let field = self.position] before a read. *)
Definition field : Decoder E nat := λ r, Ok (next r, r).

Definition expect (c : Cell) (expected : NodeTag) (fld : nat) : Decoder E () :=
  if decide (node_tag c = expected) then mret () else fail (of_plan_data (WrongNodeTag fld expected (node_tag c))).

Definition read_i32 : Decoder E Z :=
  fld ← field;
  node ← read_cell;
  _ ← expect node T_Integer fld;
  match node with CInteger ival => mret ival | _ => mret 0 end.

Definition read_oid : Decoder E Oid := as_u32 <$> read_i32.

Definition read_count : Decoder E nat :=
  fld ← field;
  value ← read_i32;
  if value <? 0 then fail (of_plan_data (NegativeCount fld value)) else mret (Z.to_nat value).

Definition read_bool : Decoder E bool :=
  fld ← field;
  node ← read_cell;
  _ ← expect node T_Boolean fld;
  match node with CBoolean b => mret b | _ => mret false end.

Definition read_i64 : Decoder E Z :=
  fld ← field;
  node ← read_cell;
  _ ← expect node T_Float fld;
  match node with
  | CFloat (Some text) =>
      match parse_i64 text with
      | Some z => mret z
      | None => fail (of_plan_data (MalformedI64 fld))
      end
  | _ => fail (of_plan_data (MalformedI64 fld))
  end.

Definition read_cstr : Decoder E (list byte) :=
  fld ← field;
  node ← read_cell;
  _ ← expect node T_String fld;
  match node with
  | CString (Some bs) => mret bs
  | _ => fail (of_plan_data (NullString fld))
  end.

Definition read_str : Decoder E RString :=
  fld ← field;
  bs ← read_cstr;
  match from_utf8 bs with
  | Some s => mret s
  | None => fail (of_plan_data (InvalidUtf8 fld))
  end.

(** The empty list stands for a null pointer. *)
Definition read_optional_list : Decoder E (list Cell) := λ r,
  match source r !! next r with
  | None => Err (of_plan_data (ReadPastEnd (next r) (length (source r))))
  | Some CNull => Ok ([], mkReader (source r) (S (next r)))
  | Some c =>
      if decide (node_tag c = T_List)
      then Ok (match c with CList l => l | _ => [] end, mkReader (source r) (S (next r)))
      else Err (of_plan_data (WrongNodeTag (next r) T_List (node_tag c)))
  end.

Definition read_encoded_list : Decoder E (list Cell) :=
  l ← read_optional_list;
  match l with [] => fail (of_plan_data NullList) | _ => mret l end.

Definition remaining : Decoder E nat := λ r, Ok ((length (source r) - next r)%nat, r).

Definition ensure_consumed (r : PlanDataReader) : result E () :=
  if decide (next r = length (source r)) then Ok ()
  else Err (of_plan_data (UnexpectedTrailingCells (next r) (length (source r)))).

(** [decode_list] and [decode_complete]. *)
Definition decode_list {A} (l : list Cell) (decode : Decoder E A) : result E A :=
  '(value, r) ← decode (mkReader l 0);
  _ ← ensure_consumed r;
  Ok value.

(** [decode_checked_list] on the node that a list pointer leads to. *)
Definition decode_checked_list {A} (node : Cell) (fld : nat) (decode : Decoder E A) : result E A :=
  match node with
  | CNull => Err (of_plan_data NullList)
  | CList l => decode_list l decode
  | c => Err (of_plan_data (WrongNodeTag fld T_List (node_tag c)))
  end.

Definition read_nested {A} (decode : Decoder E A) : Decoder E A :=
  l ← read_optional_list;
  lift_result (decode_list l decode).
End reader.

(** ** Expression metadata: expr/codec.rs *)
Inductive ExpressionCodecError :=
| ExprPlanData (error : PlanDataError)
| UnknownScalar (tag : Z)
| UnknownRuntimeValueSource (tag : Z)
| RuntimeValueOutOfBounds (index count : nat).

#[export] Instance expression_from_plan_data : FromPlanDataError ExpressionCodecError := ExprPlanData.

Definition encode_expr_type (t : ExprType) (w : PlanDataWriter) : PlanDataWriter :=
  append_oid (collation t) (append_i32 (typmod t) (append_oid (type_oid t) w)).

Definition source_tag (s : RuntimeValueSource) : Z :=
  match s with Constant => 1 | ExternalParam => 2 | ExecParam => 3 | OuterValue => 4 end.

Definition encode_spec (s : RuntimeValueSpec) (w : PlanDataWriter) : PlanDataWriter :=
  append_i32 (source_tag (source_kind s)) (encode_expr_type (spec_type s) w).

Definition encode_layout (l : RuntimeValueLayout) (w : PlanDataWriter) : PlanDataWriter :=
  foldl (λ w s, append_nested (encode_spec s) w) (append_count (length l) w) l.

Definition encode_comparison_op (op : PgComparisonOp) (w : PlanDataWriter) : PlanDataWriter :=
  append_oid (inputcollid op) (append_oid (opcollid op) (append_oid (opresulttype op)
    (append_oid (opfuncid op) (append_oid (opno op) w)))).

Section decode.
Context {E : Type} `{FromPlanDataError E}.

Definition decode_expr_type : Decoder E ExprType :=
  oid ← read_oid;
  m ← read_i32;
  c ← read_oid;
  mret (mkType oid m c).

Definition decode_comparison_op : Decoder E PgComparisonOp :=
  a ← read_oid;
  b ← read_oid;
  c ← read_oid;
  d ← read_oid;
  e ← read_oid;
  mret (mkOp a b c d e).

(** [for _ in 0..count { values.push(read()?) }]. *)
Fixpoint read_many {A} (count : nat) (read : Decoder E A) : Decoder E (list A) :=
  match count with
  | O => mret []
  | S count' => a ← read; l ← read_many count' read; mret (a :: l)
  end.
End decode.

Definition source_of_tag (tag : Z) : option RuntimeValueSource :=
  match tag with
  | 1 => Some Constant | 2 => Some ExternalParam | 3 => Some ExecParam | 4 => Some OuterValue
  | _ => None
  end.

Definition decode_spec : Decoder ExpressionCodecError RuntimeValueSpec :=
  t ← decode_expr_type;
  tag ← read_i32;
  match source_of_tag tag with
  | Some s => mret (mkSpec t s)
  | None => fail (UnknownRuntimeValueSource tag)
  end.

Definition decode_layout : Decoder ExpressionCodecError RuntimeValueLayout :=
  count ← read_count;
  read_many count (read_nested decode_spec).

(** ** What an encoder emits and a decoder reads

    [encodes enc ok cells]: when the writer is clean, [enc] succeeds exactly when
    [ok] holds, and then appends [cells].  [reads dec cells a]: wherever [cells]
    stand in a list, [dec] consumes them and returns [a]. *)
Definition encodes (enc : PlanDataWriter → PlanDataWriter) (ok : Prop) (cells : list Cell) : Prop :=
  ∀ w, (error w = None → ok →
        enc w = mkWriter (written w ++ cells) None (position w + length cells)) ∧
       (error (enc w) = None → error w = None ∧ ok).

Definition reads {E A} (dec : Decoder E A) (cells : list Cell) (a : A) : Prop :=
  ∀ pre post, dec (mkReader (pre ++ cells ++ post) (length pre))
    = Ok (a, mkReader (pre ++ cells ++ post) (length pre + length cells)).

Lemma encodes_then enc enc' ok ok' cells cells' :
  encodes enc ok cells → encodes enc' ok' cells' →
  encodes (λ w, enc' (enc w)) (ok ∧ ok') (cells ++ cells').
Proof.
  intros He He' w. split.
  - intros Hw [Ho Ho']. rewrite (proj1 (He w) Hw Ho).
    destruct (He' (mkWriter (written w ++ cells) None (position w + length cells))) as [Hok' _].
    rewrite (Hok' eq_refl Ho'). simpl. by rewrite <- app_assoc, length_app, Nat.add_assoc.
  - intros Herr. apply He' in Herr as [Herr Ho']. apply He in Herr as [Hw Ho]. done.
Qed.

Lemma encodes_iff enc ok ok' cells : encodes enc ok cells → (ok ↔ ok') → encodes enc ok' cells.
Proof. intros He Hok w. split; [intros Hw Ho; apply He; tauto|intros Herr%He; tauto]. Qed.

Lemma encodes_id : encodes (λ w, w) True [].
Proof.
  intros [l e p]; split; simpl; [|done]. intros -> _. by rewrite app_nil_r, Nat.add_0_r.
Qed.

(** A step that pushes one cell unless the writer has failed. *)
Lemma encodes_push c : encodes (λ w, unless_failed w (push_node w c)) True [c].
Proof.
  intros [l e p]; unfold unless_failed, push_node; split; simpl.
  - intros -> _. f_equal. lia.
  - by destruct e.
Qed.

Lemma encodes_i32 z : encodes (append_i32 z) True [CInteger z].
Proof. apply encodes_push. Qed.

Lemma encodes_oid o : encodes (append_oid o) True [CInteger (as_i32 o)].
Proof. apply encodes_push. Qed.

Lemma encodes_count n : encodes (append_count n) (Z.of_nat n ≤ i32_max) [CInteger (Z.of_nat n)].
Proof.
  intros [l e p]; unfold append_count, unless_failed, append_i32, unless_failed, set_error; split; simpl.
  - intros -> Hn. rewrite (proj2 (Z.leb_le _ _) Hn). unfold push_node. simpl. f_equal. lia.
  - destruct e; [done|]. simpl. destruct (Z.leb_spec (Z.of_nat n) i32_max); done.
Qed.

Lemma encodes_str s : encodes (append_str s) (contains_nul s = false) [CString (Some s)].
Proof.
  intros [l e p]; unfold append_str, append_cstr, unless_failed, set_error; split; simpl.
  - intros -> ->. unfold push_node. simpl. f_equal. lia.
  - destruct e; [done|]. simpl. by destruct (contains_nul s).
Qed.

Lemma encodes_list l : encodes (append_list l) True [list_cell l].
Proof. apply encodes_push. Qed.

Lemma encodes_nested build ok cells :
  encodes build ok cells → encodes (append_nested build) ok [list_cell cells].
Proof.
  intros Hb [l e p]. destruct (Hb writer_new) as [Hok Herr].
  unfold append_nested, unless_failed, into_list; split; simpl.
  - intros -> Ho. rewrite (Hok eq_refl Ho). simpl.
    unfold append_list, unless_failed, push_node. simpl. f_equal. lia.
  - destruct e; [done|]. destruct (error (build writer_new)); [done|]. split; [done|]. by apply Herr.
Qed.

Lemma encodes_foldl {A} (f : A → PlanDataWriter → PlanDataWriter) (ok : A → Prop) (cells : A → list Cell) l :
  (∀ x, x ∈ l → encodes (f x) (ok x) (cells x)) →
  encodes (λ w, foldl (λ w x, f x w) w l) (Forall ok l) (concat (cells <$> l)).
Proof.
  induction l as [|x l IH]; intros Hf.
  - eapply encodes_iff; [apply encodes_id|]. done.
  - eapply encodes_iff; [|symmetry; apply Forall_cons].
    apply (encodes_then (f x) (λ w, foldl (λ w x, f x w) w l)); [apply Hf; set_solver|apply IH; set_solver].
Qed.

Lemma encode_list_Ok enc ok cells l :
  encodes enc ok cells → encode_list enc = Ok l ↔ ok ∧ l = cells.
Proof.
  intros He. destruct (He writer_new) as [Hok Herr]. unfold encode_list, into_list. split.
  - destruct (error (enc writer_new)) eqn:Hn; [done|]. destruct (Herr eq_refl) as [_ Ho].
    rewrite (Hok eq_refl Ho). by intros [= <-].
  - intros [Ho ->]. by rewrite (Hok eq_refl Ho).
Qed.

Section reads.
Context {E : Type} `{FromPlanDataError E}.

Lemma reads_ret {A} (a : A) : reads (mret a : Decoder E A) [] a.
Proof. intros pre post. simpl. by rewrite Nat.add_0_r. Qed.

Lemma reads_bind {A C} (m : Decoder E A) (f : A → Decoder E C) cells cells' a c :
  reads m cells a → reads (f a) cells' c → reads (m ≫= f) (cells ++ cells') c.
Proof.
  intros Hm Hf pre post. unfold mbind, decoder_bind. rewrite <- app_assoc, Hm.
  specialize (Hf (pre ++ cells) post). rewrite length_app, <- app_assoc in Hf. rewrite Hf.
  by rewrite length_app, Nat.add_assoc.
Qed.

Lemma reads_cons {A C} (m : Decoder E A) (f : A → Decoder E C) cell cells a c :
  reads m [cell] a → reads (f a) cells c → reads (m ≫= f) (cell :: cells) c.
Proof. apply (reads_bind m f [cell]). Qed.

Lemma reads_last {A C} (m : Decoder E A) (f : A → Decoder E C) cells a c :
  reads m cells a → reads (f a) [] c → reads (m ≫= f) cells c.
Proof. intros Hm Hf. rewrite <- (app_nil_r cells). by eapply reads_bind. Qed.

Lemma reads_fmap {A C} (m : Decoder E A) (f : A → C) cells a : reads m cells a → reads (f <$> m) cells (f a).
Proof. intros Hm. eapply reads_last; [exact Hm|apply reads_ret]. Qed.

Lemma lookup_middle_cell (pre : list Cell) c post : (pre ++ c :: post) !! length pre = Some c.
Proof. by rewrite lookup_app_r, Nat.sub_diag. Qed.

Lemma reads_i32 z : reads (read_i32 : Decoder E Z) [CInteger z] z.
Proof.
  intros pre post. unfold read_i32, mbind, decoder_bind, field, read_cell. simpl app. simpl source. simpl next.
  rewrite lookup_middle_cell. simpl. unfold mret, decoder_ret. by rewrite Nat.add_1_r.
Qed.

Lemma as_u32_as_i32 o : 0 ≤ o < 2 ^ 32 → as_u32 (as_i32 o) = o.
Proof. unfold as_u32, as_i32. intros. div_lia. Qed.

Lemma reads_oid o : 0 ≤ o < 2 ^ 32 → reads (read_oid : Decoder E Oid) [CInteger (as_i32 o)] o.
Proof. intros Ho. rewrite <- (as_u32_as_i32 o Ho) at 2. apply reads_fmap, reads_i32. Qed.

Lemma reads_field {A} (f : nat → Decoder E A) cells a : (∀ n, reads (f n) cells a) → reads (field ≫= f) cells a.
Proof. intros Hf pre post. unfold mbind, decoder_bind, field. apply Hf. Qed.

Lemma reads_count n : reads (read_count : Decoder E nat) [CInteger (Z.of_nat n)] n.
Proof.
  apply reads_field. intros fld. eapply reads_cons; [apply reads_i32|].
  rewrite (proj2 (Z.ltb_ge _ _)) by lia. rewrite Nat2Z.id. apply reads_ret.
Qed.

Lemma reads_str s : utf8_valid s = true → reads (read_str : Decoder E RString) [CString (Some s)] s.
Proof.
  intros Hs. apply reads_field. intros fld. apply (reads_bind _ _ [_] []  s).
  - intros pre post. unfold read_cstr, mbind, decoder_bind, field, read_cell. simpl app. simpl source. simpl next.
    rewrite lookup_middle_cell. simpl. unfold mret, decoder_ret. by rewrite Nat.add_1_r.
  - unfold from_utf8. rewrite Hs. apply reads_ret.
Qed.

Lemma reads_optional_list l : reads (read_optional_list : Decoder E (list Cell)) [list_cell l] l.
Proof.
  intros pre post. unfold read_optional_list. simpl app. simpl source. simpl next. rewrite lookup_middle_cell.
  destruct l; simpl; by rewrite Nat.add_1_r.
Qed.

Lemma decode_list_reads {A} (dec : Decoder E A) cells a : reads dec cells a → decode_list cells dec = Ok a.
Proof.
  intros Hd. specialize (Hd [] []). simpl in Hd. rewrite app_nil_r in Hd.
  unfold decode_list. rewrite Hd. csimpl. unfold ensure_consumed. simpl. by rewrite decide_True.
Qed.

Lemma reads_nested {A} (dec : Decoder E A) cells a :
  reads dec cells a → reads (read_nested dec) [list_cell cells] a.
Proof.
  intros Hd. eapply reads_cons; [apply reads_optional_list|]. rewrite (decode_list_reads _ _ _ Hd).
  intros pre post. simpl. by rewrite Nat.add_0_r.
Qed.

Lemma reads_many {A} (read : Decoder E A) (cell : A → Cell) l :
  (∀ x, x ∈ l → reads read [cell x] x) → reads (read_many (length l) read) (cell <$> l) l.
Proof.
  induction l as [|x l IH]; intros Hr; [apply reads_ret|]. simpl.
  eapply reads_cons; [apply Hr; set_solver|]. rewrite <- (app_nil_r (map _ _)).
  eapply reads_bind; [apply IH; set_solver|apply reads_ret].
Qed.
End reads.

(** ** Round trips *)
Definition is_oid (o : Oid) : Prop := 0 ≤ o < 2 ^ 32.

Definition type_ok (t : ExprType) : Prop := is_oid (type_oid t) ∧ is_oid (collation t).
Definition layout_ok (l : RuntimeValueLayout) : Prop := Forall (λ s, type_ok (spec_type s)) l.

Definition type_cells (t : ExprType) : list Cell :=
  [CInteger (as_i32 (type_oid t)); CInteger (typmod t); CInteger (as_i32 (collation t))].
Definition spec_cells (s : RuntimeValueSpec) : list Cell :=
  type_cells (spec_type s) ++ [CInteger (source_tag (source_kind s))].
Definition layout_cells (l : RuntimeValueLayout) : list Cell :=
  CInteger (Z.of_nat (length l)) :: ((λ s, list_cell (spec_cells s)) <$> l).

Ltac encode_step :=
  match goal with
  | |- encodes (append_i32 _) _ _ => apply encodes_i32
  | |- encodes (append_oid _) _ _ => apply encodes_oid
  | |- encodes (append_count _) _ _ => apply encodes_count
  | |- encodes (append_str _) _ _ => apply encodes_str
  | |- encodes (append_nested _) _ _ => apply encodes_nested
  end.

Lemma encodes_expr_type t : encodes (encode_expr_type t) True (type_cells t).
Proof.
  eapply encodes_iff; [apply (encodes_then (λ w, append_i32 (typmod t) (append_oid (type_oid t) w))
    (append_oid (collation t)) (True ∧ True) True [_; _] [_])|tauto]; [|encode_step].
  apply (encodes_then _ _ True True [_] [_]); encode_step.
Qed.

Lemma encodes_spec s : encodes (encode_spec s) True (spec_cells s).
Proof.
  eapply encodes_iff; [apply (encodes_then (encode_expr_type (spec_type s)) (append_i32 _) True True)|tauto];
    [apply encodes_expr_type|encode_step].
Qed.

Lemma concat_singletons {A C} (f : A → C) l : concat ((λ x, [f x]) <$> l) = f <$> l.
Proof. induction l as [|x l IH]; [done|]. csimpl. by rewrite IH. Qed.

Lemma encodes_layout l : encodes (encode_layout l) (Z.of_nat (length l) ≤ i32_max) (layout_cells l).
Proof.
  unfold layout_cells. rewrite <- concat_singletons.
  eapply encodes_iff; [eapply (encodes_then (append_count (length l))
    (λ w, foldl (λ w s, append_nested (encode_spec s) w) w l) _ (Forall (λ _, True) l) [_])|].
  - encode_step.
  - apply (encodes_foldl (λ s, append_nested (encode_spec s))). intros s _. encode_step. apply encodes_spec.
  - split; [tauto|]. intros Hl. split; [done|]. by apply Forall_true.
Qed.

Section types.
Context {E : Type} `{FromPlanDataError E}.

Lemma reads_expr_type t : type_ok t → reads (decode_expr_type : Decoder E ExprType) (type_cells t) t.
Proof.
  intros [Ho Hc]. destruct t as [oid m c]. eapply reads_cons; [by apply reads_oid|].
  eapply reads_cons; [apply reads_i32|]. eapply reads_cons; [by apply reads_oid|]. apply reads_ret.
Qed.
End types.

Lemma source_tag_roundtrip s : source_of_tag (source_tag s) = Some s.
Proof. by destruct s. Qed.

Lemma reads_spec s : type_ok (spec_type s) → reads decode_spec (spec_cells s) s.
Proof.
  intros Ht. destruct s as [t s]. eapply reads_bind; [by apply reads_expr_type|].
  eapply reads_cons; [apply reads_i32|]. simpl. rewrite source_tag_roundtrip. apply reads_ret.
Qed.

Lemma reads_layout l : layout_ok l → reads decode_layout (layout_cells l) l.
Proof.
  intros Hl. unfold layout_ok in Hl. rewrite Forall_forall in Hl.
  eapply reads_cons; [apply reads_count|]. apply (reads_many _ (λ s, list_cell (spec_cells s))).
  intros s Hs. apply reads_nested, reads_spec. auto.
Qed.

(** *** Decimal text *)
Lemma digit_of_char d : 0 ≤ d < 10 → digit_of (digit_char d) = Some d.
Proof.
  intros Hd. unfold digit_of, digit_char. rewrite u8_of_byte_of, Z.mod_small by lia.
  rewrite (proj2 (Z.leb_le _ _)), (proj2 (Z.leb_le _ _)) by lia. simpl. f_equal. lia.
Qed.

Definition decimal (a : Z) (ds : list Z) : Z := foldl (λ a d, a * 10 + d) a ds.

Lemma decimal_mono a ds : 0 ≤ a → Forall (λ d, 0 ≤ d < 10) ds → a ≤ decimal a ds.
Proof.
  intros Ha Hds. revert a Ha. induction Hds as [|d ds Hd _ IH]; intros a Ha; [done|].
  change (decimal a (d :: ds)) with (decimal (a * 10 + d) ds). specialize (IH (a * 10 + d) ltac:(lia)). lia.
Qed.

Lemma digits_loop_spec fuel z tail : (0 < fuel)%nat → 0 ≤ z < 10 ^ Z.of_nat fuel →
  ∃ ds, digits_loop fuel z tail = (digit_char <$> ds) ++ tail ∧ ds ≠ [] ∧
    Forall (λ d, 0 ≤ d < 10) ds ∧ decimal 0 ds = z.
Proof.
  revert z tail. induction fuel as [|fuel IH]; intros z tail Hf Hz; [lia|].
  assert (0 ≤ z mod 10 < 10) as Hd by div_lia. simpl.
  destruct (Z.eqb_spec (z / 10) 0) as [H0|H0].
  - exists [z mod 10]. split_and!; [done|done|by constructor|]. unfold decimal. simpl. div_lia.
  - replace (Z.of_nat (S fuel)) with (Z.of_nat fuel + 1) in Hz by lia. rewrite Z.pow_add_r in Hz by lia.
    destruct fuel as [|fuel]; [div_lia|].
    destruct (IH (z / 10) (digit_char (z mod 10) :: tail)) as (ds & -> & Hne & Hds & Hv); [lia|div_lia|].
    exists (ds ++ [z mod 10]). rewrite fmap_app, <- app_assoc. split_and!; [done|by destruct ds| |].
    + apply Forall_app. split; [done|by constructor].
    + unfold decimal in *. rewrite foldl_app, Hv. simpl. div_lia.
Qed.

Lemma parse_digits_decimal (negative : bool) a ds : Forall (λ d, 0 ≤ d < 10) ds → 0 ≤ a →
  let sg := if negative then -1 else 1 in
  i64_min ≤ sg * decimal a ds ≤ i64_max →
  parse_digits negative (sg * a) (digit_char <$> ds) = Some (sg * decimal a ds).
Proof.
  intros Hds Ha sg Hb. revert a Ha Hb. induction Hds as [|d ds Hd Hds IH]; intros a Ha Hb; [done|].
  csimpl. rewrite digit_of_char by done. csimpl.
  replace (sg * a * 10 + (if negative then - d else d)) with (sg * (a * 10 + d)) by (destruct negative; subst sg; lia).
  pose proof (decimal_mono (a * 10 + d) ds ltac:(lia) Hds) as Hm.
  change (decimal a (d :: ds)) with (decimal (a * 10 + d) ds) in *.
  rewrite (proj2 (Z.leb_le _ _)), (proj2 (Z.leb_le _ _)) by (destruct negative; subst sg; width_lia).
  apply IH; [lia|done].
Qed.

Lemma digit_char_sign d : 0 ≤ d < 10 → digit_char d ≠ ascii_minus ∧ u8_of (digit_char d) ≠ 43.
Proof.
  intros Hd. assert (u8_of (digit_char d) = 48 + d) as Hu.
  { unfold digit_char. rewrite u8_of_byte_of, Z.mod_small by lia. done. }
  split; [|lia]. intros Heq. rewrite Heq in Hu. change (45 = 48 + d) in Hu. lia.
Qed.

(** [i64::to_string] is read back by [parse::<i64>]. *)
Lemma parse_i64_to_string z : i64_min ≤ z ≤ i64_max → parse_i64 (i64_to_string z) = Some z.
Proof.
  intros Hz. unfold i64_to_string. destruct (Z.ltb_spec z 0).
  - destruct (digits_loop_spec 19 (- z) []) as (ds & -> & Hne & Hds & Hv); [lia|width_lia|].
    rewrite app_nil_r. unfold parse_i64. rewrite bool_decide_true by done.
    destruct ds as [|d ds]; [done|]. change (0) with (-1 * 0) at 1. 
    rewrite (parse_digits_decimal true 0 (d :: ds)), Hv; [f_equal; lia|done|lia|rewrite Hv; lia].
  - destruct (digits_loop_spec 19 z []) as (ds & -> & Hne & Hds & Hv); [lia|width_lia|].
    rewrite app_nil_r. destruct ds as [|d ds]; [done|]. inversion_clear Hds as [|?? Hd Hds'].
    destruct (digit_char_sign d Hd) as [H1 H2]. unfold parse_i64.
    transitivity (parse_digits false (1 * 0) (digit_char <$> d :: ds)).
    { csimpl. rewrite bool_decide_false by done. by rewrite (proj2 (Z.eqb_neq _ _)) by done. }
    rewrite (parse_digits_decimal false 0 (d :: ds)), Hv; [f_equal; lia|by constructor|lia|rewrite Hv; lia].
Qed.

Lemma reads_i64 {E} `{FromPlanDataError E} z : i64_min ≤ z ≤ i64_max →
  reads (read_i64 : Decoder E Z) [CFloat (Some (i64_to_string z))] z.
Proof.
  intros Hz pre post. unfold read_i64, mbind, decoder_bind, field, read_cell. simpl app. simpl source. simpl next.
  rewrite lookup_middle_cell. simpl. rewrite parse_i64_to_string by done.
  unfold mret, decoder_ret. by rewrite Nat.add_1_r.
Qed.
