(* ===== verification/IcebergPredicate.v ===== *)
(** * Planned Iceberg predicates

    Models lagodb-iceberg/src/predicate/plan.rs, plan/value.rs, error.rs and the
    precision type of temporal.rs: the predicate a scan of an Iceberg table carries
    in its plan, its codec, and the part of it that the reader evaluates on each
    row. *)

From stdpp Require Import base list sets strings.
From Stdlib Require Import ZArith Lia.
From S2P Require Import Prelude.
From S2P Require Import Bytes.
From S2P Require Import DecimalNumeric.
From S2P Require Import PredicateTree.
From S2P Require Import Expressions.
From S2P Require Import PlanData.
Local Open Scope Z_scope.

(** ** Errors

    [FilterPanic] is an index that is out of bounds; the decimal codec's own
    faults are carried whole. *)
Inductive IcebergFilterError :=
| UnknownBooleanTest (tag : Z)
| IcebergLibrary (message : string)
| FilterPlanData (error : PlanDataError)
| UnknownNodeTag (tag : Z)
| UnknownOperatorTag (tag : Z)
| UnknownValueTypeTag (tag : Z)
| InvalidDecimalShape
| EmptyLogicalNode (kind : string)
| BindingSlotOutOfBounds (index binding_count : nat)
| SchemaMismatch (planned execution : Z)
| DatumDecode (type_oid : Oid)
| DecimalCodec (fault : Fault)
| FilterPanic.

#[export] Instance filter_from_plan_data : FromPlanDataError IcebergFilterError := FilterPlanData.

(** ** Value types *)
Inductive TimestampPrecision := Microseconds | Nanoseconds.

Inductive PlannedValueType :=
| VBoolean
| VUuid
| VBinary
| VFixedBinary (width : Z)
| VInt2ToLong
| VInt4ToLong
| VInt2
| VInt4
| VInt8
| VDate
| VTimestamp (p : TimestampPrecision)
| VTimestamptz (p : TimestampPrecision)
| VString
| VDecimal128 (d : Decimal128Semantics)
| VInt8ToInt.

#[export] Instance TimestampPrecision_eq_dec : EqDecision TimestampPrecision.
Proof. solve_decision. Defined.
#[export] Instance PlannedValueType_eq_dec : EqDecision PlannedValueType.
Proof. solve_decision. Defined.

(** The types of the Iceberg schema that the code distinguishes. *)
Inductive PrimitiveType :=
| TBoolean | TInt | TLong | TFloat | TDouble | TDecimal (precision scale : Z) | TDate | TTime
| TTimestamp | TTimestamptz | TTimestampNs | TTimestamptzNs | TString | TUuid | TFixed (width : Z) | TBinary.

(** A field's type; [None] is a nested type. *)
Definition FieldType : Type := option PrimitiveType.

Definition with_source_type (v : PlannedValueType) (source : FieldType) : option PlannedValueType :=
  match v, source with
  | VBinary, Some (TFixed width) => Some (VFixedBinary width)
  | VBinary, Some TBinary => Some v
  | VUuid, Some TUuid => Some v
  | (VBinary | VUuid), _ => None
  | VTimestamp _, Some TTimestamp => Some (VTimestamp Microseconds)
  | VTimestamp _, Some TTimestampNs => Some (VTimestamp Nanoseconds)
  | VTimestamptz _, Some TTimestamptz => Some (VTimestamptz Microseconds)
  | VTimestamptz _, Some TTimestamptzNs => Some (VTimestamptz Nanoseconds)
  | (VTimestamp _ | VTimestamptz _), _ => None
  | _, _ => Some v
  end.

(** [append_count(width as usize)]: widths are [u64]. *)
Definition encode_value_type (v : PlannedValueType) (w : PlanDataWriter) : PlanDataWriter :=
  match v with
  | VBoolean => append_i32 11 w
  | VUuid => append_i32 12 w
  | VBinary => append_i32 13 w
  | VFixedBinary width => append_count (Z.to_nat width) (append_i32 14 w)
  | VInt2ToLong => append_i32 15 w
  | VInt4ToLong => append_i32 16 w
  | VInt2 => append_i32 0 w
  | VInt4 => append_i32 1 w
  | VInt8 => append_i32 2 w
  | VDate => append_i32 3 w
  | VTimestamp Microseconds => append_i32 4 w
  | VTimestamp Nanoseconds => append_i32 9 w
  | VTimestamptz Microseconds => append_i32 5 w
  | VTimestamptz Nanoseconds => append_i32 10 w
  | VString => append_i32 6 w
  | VDecimal128 d => append_i32 (sem_scale d) (append_i32 (sem_precision d) (append_i32 7 w))
  | VInt8ToInt => append_i32 8 w
  end.

(** [u8::try_from] and [i8::try_from] of the encoded shape. *)
Definition decimal_of_shape (precision scale : Z) : option Decimal128Semantics :=
  if (0 <=? precision) && (precision <=? u8_max) && (- 2 ^ 7 <=? scale) && (scale <? 2 ^ 7)
  then semantics_new precision scale else None.

Definition decode_value_type : Decoder IcebergFilterError PlannedValueType :=
  tag ← read_i32;
  match tag with
  | 11 => mret VBoolean
  | 12 => mret VUuid
  | 13 => mret VBinary
  | 14 => width ← read_count; mret (VFixedBinary (Z.of_nat width))
  | 15 => mret VInt2ToLong
  | 16 => mret VInt4ToLong
  | 0 => mret VInt2
  | 1 => mret VInt4
  | 2 => mret VInt8
  | 3 => mret VDate
  | 4 => mret (VTimestamp Microseconds)
  | 9 => mret (VTimestamp Nanoseconds)
  | 5 => mret (VTimestamptz Microseconds)
  | 10 => mret (VTimestamptz Nanoseconds)
  | 6 => mret VString
  | 7 =>
      precision ← read_i32;
      scale ← read_i32;
      match decimal_of_shape precision scale with
      | Some d => mret (VDecimal128 d)
      | None => fail InvalidDecimalShape
      end
  | 8 => mret VInt8ToInt
  | tag => fail (UnknownValueTypeTag tag)
  end.

(** ** Operators *)
Inductive PlannedComparisonOperator := PEq | PNotEq | PLt | PLe | PGt | PGe.

Definition operator_kind (o : PlannedComparisonOperator) : PgComparisonKind :=
  match o with
  | PEq => Equal | PNotEq => NotEqual | PLt => Less | PLe => LessEqual | PGt => Greater | PGe => GreaterEqual
  end.

Definition operator_of_kind (k : PgComparisonKind) : PlannedComparisonOperator :=
  match k with
  | Equal => PEq | NotEqual => PNotEq | Less => PLt | LessEqual => PLe | Greater => PGt | GreaterEqual => PGe
  end.

Definition mirrored (o : PlannedComparisonOperator) : PlannedComparisonOperator :=
  match o with PLt => PGt | PLe => PGe | PGt => PLt | PGe => PLe | PEq | PNotEq => o end.

Definition operator_negated (o : PlannedComparisonOperator) : PlannedComparisonOperator :=
  match o with PEq => PNotEq | PNotEq => PEq | PLt => PGe | PLe => PGt | PGt => PLe | PGe => PLt end.

Definition operator_tag (o : PlannedComparisonOperator) : Z :=
  match o with PEq => 0 | PNotEq => 1 | PLt => 2 | PLe => 3 | PGt => 4 | PGe => 5 end.

Definition operator_from_tag (tag : Z) : result IcebergFilterError PlannedComparisonOperator :=
  match tag with
  | 0 => Ok PEq | 1 => Ok PNotEq | 2 => Ok PLt | 3 => Ok PLe | 4 => Ok PGt | 5 => Ok PGe
  | tag => Err (UnknownOperatorTag tag)
  end.

(** ** Nodes *)
Record PlannedIcebergColumn := mkIcebergColumn { field_id : Z; debug_name : RString }.

Definition encode_column (c : PlannedIcebergColumn) (w : PlanDataWriter) : PlanDataWriter :=
  append_str (debug_name c) (append_i32 (field_id c) w).

Definition decode_column : Decoder IcebergFilterError PlannedIcebergColumn :=
  id ← read_i32;
  name ← read_str;
  mret (mkIcebergColumn id name).

Module Node.
Inductive PlannedIcebergNode :=
| AlwaysTrue
| AlwaysFalse
| Comparison (operator : PlannedComparisonOperator) (column : PlannedIcebergColumn)
    (value : RuntimeValueId) (value_type : PlannedValueType)
| BooleanTest (kind : BooleanTestKind) (column : PlannedIcebergColumn)
| IsNull (column : PlannedIcebergColumn)
| IsNotNull (column : PlannedIcebergColumn)
| IsNan (column : PlannedIcebergColumn)
| IsNotNan (column : PlannedIcebergColumn)
| StartsWith (column : PlannedIcebergColumn) (prefix : RuntimeValueId)
| InSet (column : PlannedIcebergColumn) (set : RuntimeValueId) (value_type : PlannedValueType)
| And (children : list PlannedIcebergNode)
| Or (children : list PlannedIcebergNode)
| Not (child : PlannedIcebergNode).

Section ind.
Context (P : PlannedIcebergNode → Prop)
  (Hleaf : ∀ n, match n with And _ | Or _ | Not _ => False | _ => True end → P n)
  (Hand : ∀ cs, Forall P cs → P (And cs))
  (Hor : ∀ cs, Forall P cs → P (Or cs))
  (Hnot : ∀ c, P c → P (Not c)).

Fixpoint node_ind (n : PlannedIcebergNode) : P n :=
  let all := fix all (cs : list PlannedIcebergNode) : Forall P cs :=
    match cs with
    | [] => Forall_nil_2 P
    | c :: cs' => Forall_cons_2 P c cs' (node_ind c) (all cs')
    end in
  match n with
  | And cs => Hand cs (all cs)
  | Or cs => Hor cs (all cs)
  | Not c => Hnot c (node_ind c)
  | leaf => Hleaf leaf I
  end.
End ind.
End Node.

(** ** Codec *)
Fixpoint encode_node (n : Node.PlannedIcebergNode) (w : PlanDataWriter) : PlanDataWriter :=
  let encode_children tag children w :=
    foldl (λ w child, append_nested (encode_node child) w)
      (append_count (length children) (append_i32 tag w)) children in
  match n with
  | Node.AlwaysTrue => append_i32 6 w
  | Node.AlwaysFalse => append_i32 7 w
  | Node.Comparison op column value value_type =>
      encode_value_type value_type (append_count value
        (encode_column column (append_i32 (operator_tag op) (append_i32 0 w))))
  | Node.BooleanTest kind column => encode_column column (append_i32 (wire_id kind) (append_i32 11 w))
  | Node.IsNull column => encode_column column (append_i32 1 w)
  | Node.IsNotNull column => encode_column column (append_i32 2 w)
  | Node.IsNan column => encode_column column (append_i32 8 w)
  | Node.IsNotNan column => encode_column column (append_i32 9 w)
  | Node.StartsWith column prefix => append_count prefix (encode_column column (append_i32 10 w))
  | Node.InSet column set value_type =>
      encode_value_type value_type (append_count set (encode_column column (append_i32 12 w)))
  | Node.And children => encode_children 3 children w
  | Node.Or children => encode_children 4 children w
  | Node.Not child => append_nested (encode_node child) (append_i32 5 w)
  end.

(** A slot index that was read must belong to the fragment's bindings. *)
Definition read_slot (binding_count : nat) : Decoder IcebergFilterError RuntimeValueId :=
  index ← read_count;
  match from_plan_data index binding_count with
  | Some v => mret v
  | None => fail (BindingSlotOutOfBounds index binding_count)
  end.

(** The recursion goes into nested lists, so the depth of the list is enough
    fuel. *)
Fixpoint decode_node (fuel binding_count : nat) : Decoder IcebergFilterError Node.PlannedIcebergNode :=
  match fuel with
  | O => fail FilterPanic
  | S fuel' =>
      let decode_children kind :=
        count ← read_count;
        if decide (count = 0%nat) then fail (EmptyLogicalNode kind)
        else read_many count (read_nested (decode_node fuel' binding_count)) in
      tag ← read_i32;
      match tag with
      | 6 => mret Node.AlwaysTrue
      | 7 => mret Node.AlwaysFalse
      | 0 =>
          op_tag ← read_i32;
          op ← lift_result (operator_from_tag op_tag);
          column ← decode_column;
          value ← read_slot binding_count;
          value_type ← decode_value_type;
          mret (Node.Comparison op column value value_type)
      | 11 =>
          kind_tag ← read_i32;
          kind ← lift_result (ok_or (from_wire_id kind_tag) (UnknownBooleanTest kind_tag));
          column ← decode_column;
          mret (Node.BooleanTest kind column)
      | 1 => Node.IsNull <$> decode_column
      | 2 => Node.IsNotNull <$> decode_column
      | 8 => Node.IsNan <$> decode_column
      | 9 => Node.IsNotNan <$> decode_column
      | 10 =>
          column ← decode_column;
          prefix ← read_slot binding_count;
          mret (Node.StartsWith column prefix)
      | 12 =>
          column ← decode_column;
          set ← read_slot binding_count;
          value_type ← decode_value_type;
          mret (Node.InSet column set value_type)
      | 3 => Node.And <$> decode_children "AND"%string
      | 4 => Node.Or <$> decode_children "OR"%string
      | 5 => Node.Not <$> read_nested (decode_node fuel' binding_count)
      | tag => fail (UnknownNodeTag tag)
      end
  end.

Record PlannedIcebergPredicate := mkPlanned { schema_id : Z; planned_root : Node.PlannedIcebergNode }.

Definition encode_planned (p : PlannedIcebergPredicate) (w : PlanDataWriter) : PlanDataWriter :=
  append_nested (encode_node (planned_root p)) (append_i32 (schema_id p) w).

Fixpoint cell_depth (c : Cell) : nat :=
  match c with CList l => S (foldr (λ c n, Nat.max (cell_depth c) n) 0%nat l) | _ => 0%nat end.

Definition decode_planned (binding_count : nat) : Decoder IcebergFilterError PlannedIcebergPredicate := λ r,
  let fuel := cell_depth (CList (source r)) in
  (id ← read_i32;
   root ← read_nested (decode_node fuel binding_count);
   mret (mkPlanned id root)) r.

(** ** The part that is evaluated on each row *)
Fixpoint contains_in_set (n : Node.PlannedIcebergNode) : bool :=
  match n with
  | Node.InSet _ _ _ => true
  | Node.And children | Node.Or children => existsb contains_in_set children
  | _ => false
  end.

Section row_filter.
Context {T E : Type} (leaf : Node.PlannedIcebergNode → result E (PredicatePlan T)) (conj disj : list T → T).

Fixpoint row_filter (n : Node.PlannedIcebergNode) : result E (PredicatePlan T) :=
  match n with
  | Node.InSet _ _ _ => Ok Unsupported
  | Node.And nodes => qs ← collect row_filter nodes; Ok (conjunction qs conj)
  | Node.Or nodes => qs ← collect row_filter nodes; Ok (disjunction qs disj)
  | node => leaf node
  end.
End row_filter.

Inductive FilterEvaluation := PerRow | Projected | PruningOnly.

#[export] Instance FilterEvaluation_eq_dec : EqDecision FilterEvaluation.
Proof. solve_decision. Defined.

Definition evaluation (n : Node.PlannedIcebergNode) : FilterEvaluation :=
  match row_filter (E := Empty_set) (λ _, Ok (Exact ())) (λ _, ()) (λ _, ()) n with
  | Ok Unsupported => PruningOnly
  | Ok (Partial _) => Projected
  | Ok (Exact _ | ExactNoComplement _ | Conservative _) => PerRow
  | Err e => match e with end
  end.

(** ** Round trip of the codec *)
Definition value_type_cells (v : PlannedValueType) : list Cell :=
  match v with
  | VBoolean => [CInteger 11]
  | VUuid => [CInteger 12]
  | VBinary => [CInteger 13]
  | VFixedBinary width => [CInteger 14; CInteger (Z.of_nat (Z.to_nat width))]
  | VInt2ToLong => [CInteger 15]
  | VInt4ToLong => [CInteger 16]
  | VInt2 => [CInteger 0]
  | VInt4 => [CInteger 1]
  | VInt8 => [CInteger 2]
  | VDate => [CInteger 3]
  | VTimestamp Microseconds => [CInteger 4]
  | VTimestamp Nanoseconds => [CInteger 9]
  | VTimestamptz Microseconds => [CInteger 5]
  | VTimestamptz Nanoseconds => [CInteger 10]
  | VString => [CInteger 6]
  | VDecimal128 d => [CInteger 7; CInteger (sem_precision d); CInteger (sem_scale d)]
  | VInt8ToInt => [CInteger 8]
  end.

Definition value_type_fits (v : PlannedValueType) : Prop :=
  match v with VFixedBinary width => Z.of_nat (Z.to_nat width) ≤ i32_max | _ => True end.

Definition column_cells (c : PlannedIcebergColumn) : list Cell :=
  [CInteger (field_id c); CString (Some (debug_name c))].
Definition column_fits (c : PlannedIcebergColumn) : Prop := contains_nul (debug_name c) = false.

Definition count_cell (n : nat) : Cell := CInteger (Z.of_nat n).
Definition count_fits (n : nat) : Prop := Z.of_nat n ≤ i32_max.

Fixpoint node_cells (n : Node.PlannedIcebergNode) : list Cell :=
  let children tag cs := CInteger tag :: count_cell (length cs) :: map (λ c, list_cell (node_cells c)) cs in
  match n with
  | Node.AlwaysTrue => [CInteger 6]
  | Node.AlwaysFalse => [CInteger 7]
  | Node.Comparison op c v t =>
      CInteger 0 :: CInteger (operator_tag op) :: column_cells c ++ count_cell v :: value_type_cells t
  | Node.BooleanTest k c => CInteger 11 :: CInteger (wire_id k) :: column_cells c
  | Node.IsNull c => CInteger 1 :: column_cells c
  | Node.IsNotNull c => CInteger 2 :: column_cells c
  | Node.IsNan c => CInteger 8 :: column_cells c
  | Node.IsNotNan c => CInteger 9 :: column_cells c
  | Node.StartsWith c p => CInteger 10 :: column_cells c ++ [count_cell p]
  | Node.InSet c s t => CInteger 12 :: column_cells c ++ count_cell s :: value_type_cells t
  | Node.And cs => children 3 cs
  | Node.Or cs => children 4 cs
  | Node.Not c => [CInteger 5; list_cell (node_cells c)]
  end.

(** The plans that the writer can hold: counts and slots fit an [i32] and names
    have no NUL. *)
Fixpoint node_fits (n : Node.PlannedIcebergNode) : Prop :=
  let all := fix all (cs : list Node.PlannedIcebergNode) : Prop :=
    match cs with [] => True | c :: cs' => node_fits c ∧ all cs' end in
  match n with
  | Node.AlwaysTrue | Node.AlwaysFalse => True
  | Node.Comparison _ c v t => column_fits c ∧ count_fits v ∧ value_type_fits t
  | Node.BooleanTest _ c | Node.IsNull c | Node.IsNotNull c | Node.IsNan c | Node.IsNotNan c => column_fits c
  | Node.StartsWith c p => column_fits c ∧ count_fits p
  | Node.InSet c s t => column_fits c ∧ count_fits s ∧ value_type_fits t
  | Node.And cs | Node.Or cs => count_fits (length cs) ∧ all cs
  | Node.Not c => node_fits c
  end.

(** What planning establishes of a node: slots of the fragment, no empty AND or
    OR, validated decimals, and names that are Rust strings. *)
Definition value_type_valid (v : PlannedValueType) : Prop :=
  match v with
  | VFixedBinary width => 0 ≤ width
  | VDecimal128 d => decimal_of_shape (sem_precision d) (sem_scale d) = Some d
  | _ => True
  end.
Definition column_valid (c : PlannedIcebergColumn) : Prop := utf8_valid (debug_name c) = true.

Fixpoint node_valid (bc : nat) (n : Node.PlannedIcebergNode) : Prop :=
  let all := fix all (cs : list Node.PlannedIcebergNode) : Prop :=
    match cs with [] => True | c :: cs' => node_valid bc c ∧ all cs' end in
  match n with
  | Node.AlwaysTrue | Node.AlwaysFalse => True
  | Node.Comparison _ c v t => column_valid c ∧ (v < bc)%nat ∧ value_type_valid t
  | Node.BooleanTest _ c | Node.IsNull c | Node.IsNotNull c | Node.IsNan c | Node.IsNotNan c => column_valid c
  | Node.StartsWith c p => column_valid c ∧ (p < bc)%nat
  | Node.InSet c s t => column_valid c ∧ (s < bc)%nat ∧ value_type_valid t
  | Node.And cs | Node.Or cs => cs ≠ [] ∧ all cs
  | Node.Not c => node_valid bc c
  end.

Fixpoint node_depth (n : Node.PlannedIcebergNode) : nat :=
  match n with
  | Node.And cs | Node.Or cs => S (foldr (λ c d, Nat.max (node_depth c) d) 0%nat cs)
  | Node.Not c => S (node_depth c)
  | _ => 1%nat
  end.

Lemma node_fits_all cs :
  (fix all (cs : list Node.PlannedIcebergNode) : Prop := match cs with [] => True | c :: cs' => node_fits c ∧ all cs' end) cs
  ↔ Forall node_fits cs.
Proof. induction cs as [|c cs IH]; [done|]. by rewrite Forall_cons, <- IH. Qed.

Lemma node_valid_all bc cs :
  (fix all (cs : list Node.PlannedIcebergNode) : Prop := match cs with [] => True | c :: cs' => node_valid bc c ∧ all cs' end) cs
  ↔ Forall (node_valid bc) cs.
Proof. induction cs as [|c cs IH]; [done|]. by rewrite Forall_cons, <- IH. Qed.

Lemma encodes_cons enc enc' ok ok' cell cells :
  encodes enc ok [cell] → encodes enc' ok' cells → encodes (λ w, enc' (enc w)) (ok ∧ ok') (cell :: cells).
Proof. apply (encodes_then enc enc' ok ok' [cell]). Qed.

Lemma encodes_column c : encodes (encode_column c) (column_fits c) (column_cells c).
Proof.
  eapply encodes_iff; [apply (encodes_cons (append_i32 _) (append_str _) True); encode_step|].
  unfold column_fits. tauto.
Qed.

Lemma encodes_value_type v : encodes (encode_value_type v) (value_type_fits v) (value_type_cells v).
Proof.
  destruct v as [| | |width| | | | | | |[]|[]| |d|]; try apply encodes_i32.
  - eapply encodes_iff; [apply (encodes_cons (append_i32 14) (append_count _) True); encode_step|]. simpl. tauto.
  - eapply encodes_iff; [apply (encodes_cons (append_i32 7)
      (λ w, append_i32 (sem_scale d) (append_i32 (sem_precision d) w)) True (True ∧ True))|]; [encode_step| |].
    + apply (encodes_cons (append_i32 _) (append_i32 _)); encode_step.
    + simpl. tauto.
Qed.

Lemma encodes_children tag cs :
  Forall (λ c, encodes (encode_node c) (node_fits c) (node_cells c)) cs →
  encodes (λ w, foldl (λ w child, append_nested (encode_node child) w)
      (append_count (length cs) (append_i32 tag w)) cs)
    (count_fits (length cs) ∧ Forall node_fits cs)
    (CInteger tag :: count_cell (length cs) :: map (λ c, list_cell (node_cells c)) cs).
Proof.
  intros Hcs. rewrite Forall_forall in Hcs.
  change (map ?f cs) with (f <$> cs). rewrite <- concat_singletons.
  eapply encodes_iff; [apply (encodes_cons (append_i32 tag)
    (λ w, foldl (λ w child, append_nested (encode_node child) w) (append_count (length cs) w) cs)
    True (count_fits (length cs) ∧ Forall node_fits cs))|tauto]; [encode_step|].
  apply (encodes_cons (append_count (length cs)) (λ w, foldl (λ w child, append_nested (encode_node child) w) w cs));
    [encode_step|].
  apply (encodes_foldl (λ c, append_nested (encode_node c))). intros c Hc. encode_step. auto.
Qed.

Lemma encodes_tagged tag enc ok cells :
  encodes enc ok cells → encodes (λ w, enc (append_i32 tag w)) ok (CInteger tag :: cells).
Proof. intros He. eapply encodes_iff; [apply (encodes_cons (append_i32 tag) enc True ok); [encode_step|done]|tauto]. Qed.

Lemma encodes_slot_type v t :
  encodes (λ w, encode_value_type t (append_count v w)) (count_fits v ∧ value_type_fits t)
    (count_cell v :: value_type_cells t).
Proof. apply (encodes_cons (append_count v) (encode_value_type t)); [encode_step|apply encodes_value_type]. Qed.

Lemma encodes_node n : encodes (encode_node n) (node_fits n) (node_cells n).
Proof.
  induction n as [n Hleaf|cs IH|cs IH|c IH] using Node.node_ind.
  - destruct n as [| |op c v t|k c|c|c|c|c|c p|c s t|?|?|?]; try done; try apply encodes_i32.
    + apply (encodes_tagged 0 (λ w, encode_value_type t (append_count v
        (encode_column c (append_i32 (operator_tag op) w))))).
      apply (encodes_tagged _ (λ w, encode_value_type t (append_count v (encode_column c w)))).
      apply (encodes_then (encode_column c) (λ w, encode_value_type t (append_count v w)));
        [apply encodes_column|apply encodes_slot_type].
    + apply (encodes_tagged 11 (λ w, encode_column c (append_i32 (wire_id k) w))).
      apply encodes_tagged, encodes_column.
    + apply encodes_tagged, encodes_column.
    + apply encodes_tagged, encodes_column.
    + apply encodes_tagged, encodes_column.
    + apply encodes_tagged, encodes_column.
    + apply (encodes_tagged 10 (λ w, append_count p (encode_column c w))).
      apply (encodes_then (encode_column c) (append_count p)); [apply encodes_column|encode_step].
    + apply (encodes_tagged 12 (λ w, encode_value_type t (append_count s (encode_column c w)))).
      apply (encodes_then (encode_column c) (λ w, encode_value_type t (append_count s w)));
        [apply encodes_column|apply encodes_slot_type].
  - eapply encodes_iff; [by apply encodes_children|]. simpl. by rewrite node_fits_all.
  - eapply encodes_iff; [by apply encodes_children|]. simpl. by rewrite node_fits_all.
  - apply encodes_tagged. by apply encodes_nested.
Qed.

Lemma reads_column c : column_valid c → reads decode_column (column_cells c) c.
Proof.
  intros Hc. destruct c as [id name]. eapply reads_cons; [apply reads_i32|].
  eapply reads_cons; [by apply reads_str|]. apply reads_ret.
Qed.

Lemma reads_slot bc v : (v < bc)%nat → reads (read_slot bc) [count_cell v] v.
Proof.
  intros Hv. eapply reads_cons; [apply reads_count|]. unfold from_plan_data. rewrite decide_True by done.
  apply reads_ret.
Qed.

Lemma reads_value_type v : value_type_valid v → reads decode_value_type (value_type_cells v) v.
Proof.
  intros Hv. destruct v as [| | |width| | | | | | |[]|[]| |d|].
  all: try (eapply reads_cons; [apply reads_i32|apply reads_ret]).
  - eapply reads_cons; [apply reads_i32|]. eapply reads_cons; [apply reads_count|].
    rewrite Z2Nat.id by done. apply reads_ret.
  - do 3 (eapply reads_cons; [apply reads_i32|]). simpl in Hv. rewrite Hv. apply reads_ret.
Qed.

Lemma node_cells_cons n : ∃ c cs, node_cells n = c :: cs.
Proof. destruct n; simpl; eauto. Qed.

Lemma children_depth cs :
  Forall (λ c, node_depth c ≤ cell_depth (list_cell (node_cells c)))%nat cs →
  (foldr (λ c d, Nat.max (node_depth c) d) 0 cs
   ≤ foldr (λ c n, Nat.max (cell_depth c) n) 0 (map (λ c, list_cell (node_cells c)) cs))%nat.
Proof. induction 1; simpl; lia. Qed.

Lemma foldr_max_elem {A} (f : A → nat) l x : x ∈ l → (f x ≤ foldr (λ x d, Nat.max (f x) d) 0 l)%nat.
Proof. induction 1; simpl; lia. Qed.

Lemma node_depth_cells n : (node_depth n ≤ cell_depth (list_cell (node_cells n)))%nat.
Proof.
  induction n as [n Hleaf|cs IH|cs IH|c IH] using Node.node_ind.
  - destruct (node_cells_cons n) as (c & cs & ->). destruct n; simpl in *; try done; lia.
  - simpl. apply le_n_S. by apply children_depth.
  - simpl. apply le_n_S. by apply children_depth.
  - simpl. lia.
Qed.

Lemma reads_children fuel bc cs kind :
  cs ≠ [] → (∀ c, c ∈ cs → reads (decode_node fuel bc) (node_cells c) c) →
  reads (count ← read_count;
      if decide (count = 0%nat) then fail (EmptyLogicalNode kind)
      else read_many count (read_nested (decode_node fuel bc)))
    (count_cell (length cs) :: map (λ c, list_cell (node_cells c)) cs) cs.
Proof.
  intros Hne Hcs. eapply reads_cons; [apply reads_count|]. rewrite decide_False by (by destruct cs).
  apply (reads_many _ (λ c, list_cell (node_cells c))). intros c Hc. apply reads_nested. auto.
Qed.

Lemma reads_node bc n fuel : node_valid bc n → (node_depth n ≤ fuel)%nat →
  reads (decode_node fuel bc) (node_cells n) n.
Proof.
  revert fuel. induction n as [n Hleaf|cs IH|cs IH|c IH] using Node.node_ind; intros fuel Hv Hd.
  - destruct fuel as [|fuel]; [destruct n; simpl in *; lia|].
    destruct n as [| |op c v t|k c|c|c|c|c|c p|c s t|?|?|?]; try done; (eapply reads_cons; [apply reads_i32|]).
    + apply reads_ret.
    + apply reads_ret.
    + destruct Hv as (Hc & Hs & Ht). eapply reads_cons; [apply reads_i32|].
      eapply (reads_bind _ _ []); [destruct op; apply reads_ret|].
      eapply (reads_bind _ _ (column_cells c)); [by apply reads_column|]. eapply reads_cons; [by apply reads_slot|].
      eapply (reads_last _ _ (value_type_cells t)); [by apply reads_value_type|apply reads_ret].
    + eapply reads_cons; [apply reads_i32|]. rewrite wire_id_roundtrip.
      eapply (reads_bind _ _ []); [apply reads_ret|].
      eapply (reads_last _ _ (column_cells c)); [by apply reads_column|apply reads_ret].
    + by apply reads_fmap, reads_column.
    + by apply reads_fmap, reads_column.
    + by apply reads_fmap, reads_column.
    + by apply reads_fmap, reads_column.
    + destruct Hv as (Hc & Hs). eapply (reads_bind _ _ (column_cells c)); [by apply reads_column|].
      eapply reads_cons; [by apply reads_slot|apply reads_ret].
    + destruct Hv as (Hc & Hs & Ht). eapply (reads_bind _ _ (column_cells c)); [by apply reads_column|].
      eapply reads_cons; [by apply reads_slot|].
      eapply (reads_last _ _ (value_type_cells t)); [by apply reads_value_type|apply reads_ret].
  - destruct fuel as [|fuel]; [simpl in Hd; lia|]. destruct Hv as [Hne Hv%node_valid_all].
    rewrite Forall_forall in IH, Hv. eapply reads_cons; [apply reads_i32|]. apply reads_fmap, reads_children; [done|].
    intros c Hc. apply IH; [done|by apply Hv|]. pose proof (foldr_max_elem node_depth cs c Hc). simpl in Hd. lia.
  - destruct fuel as [|fuel]; [simpl in Hd; lia|]. destruct Hv as [Hne Hv%node_valid_all].
    rewrite Forall_forall in IH, Hv. eapply reads_cons; [apply reads_i32|]. apply reads_fmap, reads_children; [done|].
    intros c Hc. apply IH; [done|by apply Hv|]. pose proof (foldr_max_elem node_depth cs c Hc). simpl in Hd. lia.
  - destruct fuel as [|fuel]; [simpl in Hd; lia|]. eapply reads_cons; [apply reads_i32|].
    apply reads_fmap, reads_nested, IH; [done|simpl in Hd; lia].
Qed.

Definition planned_cells (p : PlannedIcebergPredicate) : list Cell :=
  [CInteger (schema_id p); list_cell (node_cells (planned_root p))].

Lemma encodes_planned p : encodes (encode_planned p) (node_fits (planned_root p)) (planned_cells p).
Proof. apply encodes_tagged, encodes_nested, encodes_node. Qed.

Lemma cell_depth_elem l c : c ∈ l → (cell_depth c ≤ cell_depth (CList l))%nat.
Proof. intros Hc. simpl. pose proof (foldr_max_elem cell_depth l c Hc). lia. Qed.

Lemma reads_planned bc p : node_valid bc (planned_root p) → reads (decode_planned bc) (planned_cells p) p.
Proof.
  intros Hv pre post. destruct p as [id n]. unfold decode_planned. simpl source.
  set (fuel := cell_depth (CList _)).
  assert (node_depth n ≤ fuel)%nat as Hfuel.
  { etransitivity; [apply node_depth_cells|]. apply cell_depth_elem. unfold planned_cells. simpl. set_solver. }
  assert (reads (id ← read_i32; root ← read_nested (decode_node fuel bc); mret (mkPlanned id root))
    (planned_cells (mkPlanned id n)) (mkPlanned id n)) as Hr; [|apply Hr].
  eapply reads_cons; [apply reads_i32|]. eapply reads_cons; [by apply reads_nested, reads_node|apply reads_ret].
Qed.

(** ** Laws of the operators *)
Lemma operator_kind_of_kind k : operator_kind (operator_of_kind k) = k.
Proof. by destruct k. Qed.

Lemma mirrored_holds o c : kind_holds (operator_kind (mirrored o)) (CompOpp c) = kind_holds (operator_kind o) c.
Proof. by destruct o, c. Qed.

Lemma negated_holds o c : kind_holds (operator_kind (operator_negated o)) c = negb (kind_holds (operator_kind o) c).
Proof. by destruct o, c. Qed.

(** ** The row filter widens the tree

    Whatever predicate the leaves stand for, the row filter is TRUE wherever the
    tree is. *)
Section row_filter_sound.
Context {T E : Type} (leaf : Node.PlannedIcebergNode → result E (PredicatePlan T)) (conj disj : list T → T)
  (den : T → tri) (meaning : Node.PlannedIcebergNode → tri)
  (Hconj : ∀ ps, ps ≠ [] → den (conj ps) = kall (den <$> ps))
  (Hdisj : ∀ ps, ps ≠ [] → den (disj ps) = kany (den <$> ps))
  (Hand : ∀ cs, meaning (Node.And cs) = kall (meaning <$> cs))
  (Hor : ∀ cs, meaning (Node.Or cs) = kany (meaning <$> cs))
  (ok : Node.PlannedIcebergNode → Prop)
  (Hok : ∀ cs, ok (Node.And cs) ∨ ok (Node.Or cs) → Forall ok cs)
  (Hleaf : ∀ n q, ok n → match n with Node.InSet _ _ _ | Node.And _ | Node.Or _ => False | _ => True end →
    leaf n = Ok q → keeps den q (meaning n)).

Lemma row_filter_children cs qs :
  Forall (λ c, ∀ q, ok c → row_filter leaf conj disj c = Ok q → keeps den q (meaning c)) cs → Forall ok cs →
  collect (row_filter leaf conj disj) cs = Ok qs → Forall2 (keeps den) qs (meaning <$> cs).
Proof.
  intros IH Ho Hqs%collect_Forall2. revert IH Ho.
  induction Hqs as [|c q cs qs Hq _ IHqs]; [done|]. rewrite !Forall_cons. intros [Hc Hcs] [Ho Hos].
  constructor; auto.
Qed.

Lemma row_filter_keeps n q : ok n → row_filter leaf conj disj n = Ok q → keeps den q (meaning n).
Proof.
  revert q. induction n as [n Hn|cs IH|cs IH|c IH] using Node.node_ind; intros q Ho Hq.
  - destruct n; try done; try (by apply Hleaf). by injection Hq as <-.
  - simpl in Hq. destruct (collect _ cs) as [qs|] eqn:Hqs; [|done]. injection Hq as <-. rewrite Hand.
    apply conjunction_keeps; [done|]. apply row_filter_children; eauto.
  - simpl in Hq. destruct (collect _ cs) as [qs|] eqn:Hqs; [|done]. injection Hq as <-. rewrite Hor.
    apply disjunction_keeps; [done|]. apply row_filter_children; eauto.
  - by apply Hleaf.
Qed.
End row_filter_sound.
