(* ===== verification/PredicatePolicy.v ===== *)
(** * Which predicates an Iceberg scan takes

    Models lagodb-iceberg/src/predicate/policy (mod.rs, postgres.rs, integer.rs),
    predicate/planner.rs and the relation layout of schema/relation.rs: the
    policy that says which comparisons Iceberg evaluates as PostgreSQL does, and
    the planner that turns a fragment into a planned predicate with its costing.

    The Iceberg schema and partition specs are those of the table metadata. *)

From stdpp Require Import base list strings.
From Stdlib Require Import ZArith Lia.
From S2P Require Import Prelude.
From S2P Require Import Bytes.
From S2P Require Import DecimalNumeric.
From S2P Require Import PredicateTree.
From S2P Require Import Expressions.
From S2P Require Import PlanData.
From S2P Require Import IcebergPredicate.
Local Open Scope Z_scope.

(** ** Policy *)
Inductive SupportedPredicateCapability := CapExact | CapConservative.

#[export] Instance SupportedPredicateCapability_eq_dec : EqDecision SupportedPredicateCapability.
Proof. solve_decision. Defined.

Record SupportedComparison := mkSupported {
  supported_operator : PgComparisonKind;
  capability : SupportedPredicateCapability;
}.

Inductive PredicateValueKind :=
| KBoolean | KInteger | KLong | KDate | KTimestamp | KTimestamptz | KDecimal | KFloat | KString | KBinary | KTime.

Definition comparison_capability (kind : PredicateValueKind) (operator : PgComparisonKind)
    : option SupportedPredicateCapability :=
  match kind with
  | KBoolean => match operator with Equal | NotEqual => Some CapExact | _ => None end
  | KFloat | KTime => None
  | KInteger | KLong | KDate | KTimestamp | KTimestamptz | KDecimal | KString | KBinary => Some CapExact
  end.

Definition kind_starts_with (kind : PredicateValueKind) : bool := match kind with KString => true | _ => false end.
Definition kind_nan_test (kind : PredicateValueKind) : bool := match kind with KFloat => true | _ => false end.
Definition kind_null_test (kind : PredicateValueKind) : bool := true.

Definition is_integer_oid (oid : Oid) : bool := (oid =? INT2OID) || (oid =? INT4OID) || (oid =? INT8OID).
Definition is_text_oid (oid : Oid) : bool := (oid =? TEXTOID) || (oid =? VARCHAROID).

(** The operator families of [op_class]. *)
Definition same_family (l r : Oid) : bool :=
  (is_integer_oid l && is_integer_oid r)
  || ((l =? r) && existsb (Z.eqb l) [BOOLOID; UUIDOID; BYTEAOID; DATEOID; TIMESTAMPOID; TIMESTAMPTZOID; NUMERICOID; TEXTOID]).

Definition op_class (op : Oid) : option PgComparisonKind :=
  s ← for_operator op;
  if same_family (left_type s) (right_type s) then Some (signature_kind s) else None.

Definition is_collation_free (op_key : PgComparisonIdentity) : bool :=
  (id_opcollid op_key =? InvalidOid) && (id_inputcollid op_key =? InvalidOid).

Definition capability_for_class (oid : Oid) (op_key : PgComparisonIdentity)
    (text_semantics : option PgTextComparisonSemantics) (class : PgComparisonKind)
    : option SupportedPredicateCapability :=
  if oid =? BOOLOID then comparison_capability KBoolean class
  else if (oid =? UUIDOID) || (oid =? BYTEAOID) then comparison_capability KBinary class
  else if is_integer_oid oid then
    if is_collation_free op_key
    then comparison_capability (if oid =? INT8OID then KLong else KInteger) class else None
  else if (oid =? DATEOID) || (oid =? TIMESTAMPOID) || (oid =? TIMESTAMPTZOID) then
    let kind := if oid =? DATEOID then KDate else if oid =? TIMESTAMPOID then KTimestamp else KTimestamptz in
    _ ← comparison_capability kind class; Some CapConservative
  else if oid =? NUMERICOID then
    if is_collation_free op_key then comparison_capability KDecimal class else None
  else if is_text_oid oid then _ ← text_semantics; comparison_capability KString class
  else None.

Definition null_test_value_kind (oid : Oid) : option PredicateValueKind :=
  if oid =? BOOLOID then Some KBoolean
  else if (oid =? UUIDOID) || (oid =? BYTEAOID) then Some KBinary
  else if oid =? TIMEOID then Some KTime
  else if (oid =? INT2OID) || (oid =? INT4OID) then Some KInteger
  else if oid =? INT8OID then Some KLong
  else if oid =? NUMERICOID then Some KDecimal
  else if oid =? DATEOID then Some KDate
  else if oid =? TIMESTAMPOID then Some KTimestamp
  else if oid =? TIMESTAMPTZOID then Some KTimestamptz
  else if is_text_oid oid then Some KString
  else if (oid =? FLOAT4OID) || (oid =? FLOAT8OID) then Some KFloat
  else None.

(** *** Integers outside the domain of an Iceberg [int] *)
Inductive Int32OutOfRange := Below | Above.

Definition narrow (value : Z) : result Int32OutOfRange Z :=
  if (- 2 ^ 31 <=? value) && (value <? 2 ^ 31) then Ok value
  else Err (if value <? 0 then Below else Above).

Definition comparison_matches_non_null (b : Int32OutOfRange) (operator : PgComparisonKind) : bool :=
  match b, operator with
  | _, NotEqual | Above, (Less | LessEqual) | Below, (Greater | GreaterEqual) => true
  | _, Equal | Above, (Greater | GreaterEqual) | Below, (Less | LessEqual) => false
  end.

(** *** The adapter for PostgreSQL types *)
Section policy.
Context {B : PgBackend}.

Definition supports_null_test (oid : Oid) : bool :=
  match null_test_value_kind oid with Some kind => kind_null_test kind | None => false end.

Definition planned_value_kind (v : PlannedValueType) : PredicateValueKind :=
  match v with
  | VInt2 | VInt4 | VInt8ToInt => KInteger
  | VInt8 | VInt2ToLong | VInt4ToLong => KLong
  | VBoolean => KBoolean
  | VUuid | VBinary | VFixedBinary _ => KBinary
  | VDate => KDate
  | VTimestamp _ => KTimestamp
  | VTimestamptz _ => KTimestamptz
  | VString => KString
  | VDecimal128 _ => KDecimal
  end.

Definition planned_value_type (column : ColumnRef) (value : RuntimeValueSpec) (utf8 : bool) : option PlannedValueType :=
  let declared := type_oid (declared_type column) in
  let effective := type_oid (value_type column) in
  let oid := type_oid (spec_type value) in
  let all3 t := (declared =? t) && (effective =? t) && (oid =? t) in
  let small := (declared =? INT2OID) || (declared =? INT4OID) in
  match (if effective =? oid then widening_for_types declared effective else None) with
  | Some Int2ToInt4 => Some VInt4
  | Some (Int2ToInt8 | Int4ToInt8) => Some VInt8ToInt
  | None =>
      if all3 BOOLOID then Some VBoolean
      else if all3 UUIDOID then Some VUuid
      else if all3 BYTEAOID then Some VBinary
      else if small && is_integer_oid effective && (oid =? INT8OID) then Some VInt8ToInt
      else if small && is_integer_oid effective && (oid =? INT2OID) then Some VInt2
      else if small && is_integer_oid effective && (oid =? INT4OID) then Some VInt4
      else if (declared =? INT8OID) && (effective =? INT8OID) && (oid =? INT2OID) then Some VInt2ToLong
      else if (declared =? INT8OID) && (effective =? INT8OID) && (oid =? INT4OID) then Some VInt4ToLong
      else if all3 INT8OID then Some VInt8
      else if all3 DATEOID then Some VDate
      else if all3 TIMESTAMPOID then Some (VTimestamp Microseconds)
      else if all3 TIMESTAMPTZOID then Some (VTimestamptz Microseconds)
      else if all3 NUMERICOID then
        VDecimal128 <$> for_storage_comparison (declared_type column) (value_type column) (spec_type value)
      else if is_text_oid declared && is_text_oid effective && is_text_oid oid
      then if utf8 then Some VString else None
      else None
  end.

Definition policy_plan_comparison (column : ColumnRef) (value : RuntimeValueSpec) (op_key : PgComparisonIdentity)
    (utf8 : bool) : option (SupportedComparison * PlannedValueType) :=
  value_type' ← planned_value_type column value utf8;
  let oid := type_oid (value_type column) in
  operator ← op_class (id_opno op_key);
  let text_semantics := if is_text_oid oid then for_comparison op_key operator else None in
  cap ← capability_for_class oid op_key text_semantics operator;
  Some (mkSupported operator cap, value_type').

Definition policy_plan_starts_with (column : ColumnRef) (prefix : RuntimeValueSpec) (utf8 : bool)
    : option PlannedValueType :=
  value_type' ← planned_value_type column prefix utf8;
  if kind_starts_with (planned_value_kind value_type') then
    _ ← for_equality_collation (collation (value_type column)); Some value_type'
  else None.

Definition supports_set_membership (v : PlannedValueType) : bool :=
  match v with
  | VInt2 | VInt4 | VInt8 | VInt2ToLong | VInt4ToLong | VInt8ToInt | VDate | VString | VUuid => true
  | _ => false
  end.

Definition supports_nan_test (column : ColumnRef) : bool :=
  let declared := type_oid (declared_type column) in
  let effective := type_oid (value_type column) in
  (((declared =? FLOAT4OID) && (effective =? FLOAT4OID)) || ((declared =? FLOAT8OID) && (effective =? FLOAT8OID)))
  && kind_nan_test KFloat.
End policy.

(** ** The layout of a relation *)
Record LiveColumn := mkLive { live_attno : Z; live_name : RString; live_required : bool }.

Record RelationLayout := mkLayout {
  live_columns : list LiveColumn;
  by_attno : list (option nat);
  slot_width : nat;
  attr_types : list (Oid * Z);
}.

(** PostgreSQL numbers its live attributes from 1 to the width of the slot. *)
Definition layout_new (live : list LiveColumn) (width : nat) (types : list (Oid * Z)) : RelationLayout :=
  mkLayout live
    (foldl (λ acc ic, <[Z.to_nat (live_attno ic.2 - 1) := Some ic.1]> acc) (replicate width None) (imap pair live))
    width types.

Definition attribute_offset (attno : Z) (width : nat) : result IcebergFilterError nat :=
  if attno <? 1 then Err (IcebergLibrary "InvariantViolated")
  else if Z.of_nat width <=? attno - 1 then Err (IcebergLibrary "InvariantViolated")
  else Ok (Z.to_nat (attno - 1)).

Definition layout_column (l : RelationLayout) (attno : Z) : result IcebergFilterError LiveColumn :=
  offset ← attribute_offset attno (slot_width l);
  entry ← ok_or (by_attno l !! offset) FilterPanic;
  match entry with
  | Some index => ok_or (live_columns l !! index) FilterPanic
  | None => Err (IcebergLibrary "ColumnNotFound")
  end.

(** ** The Iceberg schema and partition specs *)
Record NestedField := mkNested { nested_id : Z; nested_type : FieldType }.

Record IcebergSchema := mkSchema {
  iceberg_schema_id : Z;
  field_by_name : RString → option NestedField;
  field_by_id : Z → option NestedField;
}.

Inductive Transform := Identity | Bucket (n : Z) | Truncate (w : Z) | Year | Month | Day | Hour | Void | Unknown.

(** A partition field: its source and its transform. *)
Definition PartitionSpec : Type := list (Z * Transform).

(** ** The planner *)
Inductive PartitionMatch := MatchValue | MatchOrder.

Definition match_le (a b : PartitionMatch) : bool :=
  match a, b with MatchOrder, MatchValue => false | _, _ => true end.
Definition match_max (a b : PartitionMatch) : PartitionMatch := if match_le a b then b else a.
Definition match_min (a b : PartitionMatch) : PartitionMatch := if match_le a b then a else b.

Definition match_of (t : Transform) : option PartitionMatch :=
  match t with
  | Void | Unknown => None
  | Bucket _ => Some MatchValue
  | Identity | Truncate _ | Year | Month | Day | Hour => Some MatchOrder
  end.

Definition LayoutSources : Type := list (Z * PartitionMatch).

Definition layout_match (sources : LayoutSources) (field : Z) : option PartitionMatch :=
  snd <$> find (λ s, s.1 =? field) sources.

(** [find] then update or push. *)
Fixpoint add_source (sources : LayoutSources) (id : Z) (matched : PartitionMatch) : LayoutSources :=
  match sources with
  | [] => [(id, matched)]
  | (id', best) :: rest =>
      if id' =? id then (id', match_max best matched) :: rest else (id', best) :: add_source rest id matched
  end.

Definition spec_sources (spec : PartitionSpec) : LayoutSources :=
  foldl (λ sources f, match match_of f.2 with Some m => add_source sources f.1 m | None => sources end) [] spec.

(** [retain_mut]. *)
Definition retain_common (common sources : LayoutSources) : LayoutSources :=
  omap (λ s, (λ other, (s.1, match_min s.2 other)) <$> layout_match sources s.1) common.

Definition layout_sources (specs : list PartitionSpec) : LayoutSources :=
  match specs with
  | [] => []
  | spec :: rest => foldl (λ common spec, retain_common common (spec_sources spec)) (spec_sources spec) rest
  end.

Record IcebergFilterPlanner := mkPlanner {
  planner_schema : IcebergSchema;
  planner_layout : RelationLayout;
  planner_utf8 : bool;
  planner_sources : LayoutSources;
}.

Record PlannedNode := mkNode { node : Node.PlannedIcebergNode; costing : PushdownCosting }.

Record ResolvedComparison := mkResolved {
  supported : SupportedComparison;
  resolved_column : PlannedIcebergColumn;
  resolved_type : PlannedValueType;
}.

Section planner.
Context {B : PgBackend} (pl : IcebergFilterPlanner).
Local Notation Plan := (result IcebergFilterError (PredicatePlan PlannedNode)).

Definition planner_column (attno : Z) : result IcebergFilterError (option PlannedIcebergColumn) :=
  column ← layout_column (planner_layout pl) attno;
  field ← ok_or (field_by_name (planner_schema pl) (live_name column)) (IcebergLibrary "ColumnNotFound");
  match nested_type field with
  | Some (TDecimal precision scale) =>
      attr ← ok_or (attr_types (planner_layout pl) !! Z.to_nat (attno - 1)) FilterPanic;
      if negb (attr.2 =? numeric_typmod precision scale) then Ok None
      else Ok (Some (mkIcebergColumn (nested_id field) (live_name column)))
  | _ => Ok (Some (mkIcebergColumn (nested_id field) (live_name column)))
  end.

Definition pruning_costing (column : PlannedIcebergColumn) (needed : PartitionMatch) : PushdownCosting :=
  match layout_match (planner_sources pl) (field_id column) with
  | Some matched => if match_le needed matched then LayoutPruning else StatisticsPruning
  | None => StatisticsPruning
  end.

Definition is_fixed_binary (v : PlannedValueType) : bool := match v with VFixedBinary _ => true | _ => false end.

Definition comparison_costing (s : SupportedComparison) (source : RuntimeValueSource) (v : PlannedValueType)
    (column : PlannedIcebergColumn) : PushdownCosting :=
  if bool_decide (capability s = CapConservative) && (negb (bool_decide (source = Constant)) || is_fixed_binary v)
  then UncostedBestEffort
  else
    match supported_operator s with
    | Equal => pruning_costing column MatchValue
    | NotEqual => StatisticsPruning
    | Less | LessEqual | Greater | GreaterEqual => pruning_costing column MatchOrder
    end.

Definition resolve_comparison (column : ColumnRef) (value : RuntimeValueSpec) (operator : PgComparisonOp)
    : result IcebergFilterError (option ResolvedComparison) :=
  match policy_plan_comparison column value (op_identity operator) (planner_utf8 pl) with
  | None => Ok None
  | Some (s, v) =>
      planned ← planner_column (attno column);
      match planned with
      | None => Ok None
      | Some planned =>
          field ← ok_or (field_by_id (planner_schema pl) (field_id planned)) FilterPanic;
          Ok (mkResolved s planned <$> with_source_type v (nested_type field))
      end
  end.

(** [PredicateFragment::value] indexes the layout. *)
Definition fragment_value (f : PredicateFragment) (id : RuntimeValueId) : result IcebergFilterError RuntimeValueSpec :=
  ok_or (runtime_values f !! id) FilterPanic.

(** A filter on a column that must also be one of the table's: [strict_true],
    [strict_false], the null and the NaN tests and [boolean_test] share it. *)
Definition plan_column (value : ScalarExpr) (accepted : ColumnRef → bool)
    (build : PlannedIcebergColumn → PredicatePlan PlannedNode) : Plan :=
  match value with
  | Column column =>
      if negb (accepted column) then Ok Unsupported
      else
        planned ← planner_column (attno column);
        match planned with None => Ok Unsupported | Some planned => Ok (build planned) end
  | Value _ => Ok Unsupported
  end.

Definition plan_resolved (f : PredicateFragment) (operator : PgComparisonOp) (column : ColumnRef)
    (value : RuntimeValueId) (is_mirrored : bool) : Plan :=
  slot ← fragment_value f value;
  resolved ← resolve_comparison column slot operator;
  match resolved with
  | None => Ok Unsupported
  | Some r =>
      let v := resolved_type r in
      let s := mkSupported (supported_operator (supported r))
        (if is_fixed_binary v then CapConservative else capability (supported r)) in
      let op := operator_of_kind (supported_operator s) in
      let op := if is_mirrored then mirrored op else op in
      let n := mkNode (Node.Comparison op (resolved_column r) value v)
        (comparison_costing s (source_kind slot) v (resolved_column r)) in
      Ok (match capability s with CapExact => Exact n | CapConservative => Conservative n end)
  end.

Definition plan_comparison_leaf (f : PredicateFragment) (operator : PgComparisonOp) (left right : ScalarExpr) : Plan :=
  match left, right with
  | Column column, Value value => plan_resolved f operator column value false
  | Value value, Column column => plan_resolved f operator column value true
  | _, _ => Ok Unsupported
  end.

Definition plan_in_set_leaf (f : PredicateFragment) (operator : PgComparisonOp) (value set : ScalarExpr) : Plan :=
  match value, set with
  | Column column, Value set =>
      slot ← fragment_value f set;
      if negb (is_rescan_stable (source_kind slot)) then Ok Unsupported
      else
        match array_element slot with
        | None => Ok Unsupported
        | Some element =>
            resolved ← resolve_comparison column element operator;
            match resolved with
            | None => Ok Unsupported
            | Some r =>
                if negb (bool_decide (supported_operator (supported r) = Equal))
                   || negb (supports_set_membership (resolved_type r))
                then Ok Unsupported
                else
                  let c :=
                    match comparison_costing (supported r) (source_kind slot) (resolved_type r) (resolved_column r) with
                    | LayoutPruning => LayoutPruning
                    | StatisticsPruning | UncostedBestEffort => UncostedBestEffort
                    end in
                  Ok (Conservative (mkNode (Node.InSet (resolved_column r) set (resolved_type r)) c))
            end
        end
  | _, _ => Ok Unsupported
  end.

Definition plan_null_test (value : ScalarExpr) (is_not_null : bool) : Plan :=
  plan_column value (λ c, supports_null_test (type_oid (declared_type c))) (λ c,
    Exact (mkNode (if is_not_null then Node.IsNotNull c else Node.IsNull c) (pruning_costing c MatchValue))).

Definition plan_nan_test (value : ScalarExpr) (is_not_nan : bool) : Plan :=
  plan_column value supports_nan_test (λ c,
    Exact (mkNode (if is_not_nan then Node.IsNotNan c else Node.IsNan c) (pruning_costing c MatchValue))).

Definition plan_starts_with_leaf (f : PredicateFragment) (value prefix : ScalarExpr) : Plan :=
  match value, prefix with
  | Column column, Value prefix =>
      slot ← fragment_value f prefix;
      match policy_plan_starts_with column slot (planner_utf8 pl) with
      | None => Ok Unsupported
      | Some _ =>
          plan_column value (λ _, true) (λ c,
            ExactNoComplement (mkNode (Node.StartsWith c prefix) (pruning_costing c MatchOrder)))
      end
  | _, _ => Ok Unsupported
  end.

(** [RelationPredicateAdapter]. *)
Definition logical (children : list PlannedNode) (combine : PushdownCosting → PushdownCosting → PushdownCosting)
    (build : list Node.PlannedIcebergNode → Node.PlannedIcebergNode) : PlannedNode :=
  mkNode (build (node <$> children))
    (match costing <$> children with [] => StatisticsPruning | c :: cs => foldl combine c cs end).

Definition adapter (f : PredicateFragment)
    : PredicatePlanner ScalarExpr PgComparisonOp PlannedNode IcebergFilterError := {|
  plan_always_true := Ok (Exact (mkNode Node.AlwaysTrue StatisticsPruning));
  plan_always_false := Ok (Exact (mkNode Node.AlwaysFalse StatisticsPruning));
  plan_strict_true v := plan_column v (λ _, true) (λ c,
    ExactNoComplement (mkNode (Node.IsNotNull c) (pruning_costing c MatchValue)));
  plan_strict_false v := plan_column v (λ _, true) (λ c,
    ExactNoComplement (mkNode Node.AlwaysFalse (pruning_costing c MatchValue)));
  plan_comparison := plan_comparison_leaf f;
  plan_boolean_test k v := plan_column v (λ _, true) (λ c,
    Exact (mkNode (Node.BooleanTest k c) (pruning_costing c MatchValue)));
  plan_is_null v := plan_null_test v false;
  plan_is_not_null v := plan_null_test v true;
  plan_is_nan v := plan_nan_test v false;
  plan_is_not_nan v := plan_nan_test v true;
  plan_starts_with := plan_starts_with_leaf f;
  plan_in_set := plan_in_set_leaf f;
  plan_conjunction ps := logical ps costing_conjunction Node.And;
  plan_disjunction ps := logical ps costing_disjunction Node.Or;
  plan_negate p := mkNode (Node.Not (node p)) (costing p);
|}.

(** [FilterPlan] with its constructors, and [try_plan_filter]. *)
Record PlannedFilter (P : Type) := mkFilter {
  predicate : P;
  filter_costing : PushdownCosting;
  filter_evaluation : FilterEvaluation;
}.
End planner.
Arguments mkFilter {P}.
Arguments predicate {P}.
Arguments filter_costing {P}.
Arguments filter_evaluation {P}.

Module Filter.
Inductive FilterPlan (P : Type) :=
| Unsupported
| Partial (planned : PlannedFilter P)
| Exact (planned : PlannedFilter P)
| Conservative (planned : PlannedFilter P).
Arguments Unsupported {P}.
Arguments Partial {P}.
Arguments Exact {P}.
Arguments Conservative {P}.
End Filter.

Definition try_plan_filter `{PgBackend} (pl : IcebergFilterPlanner) (f : PredicateFragment)
    : result IcebergFilterError (Filter.FilterPlan PlannedIcebergPredicate) :=
  q ← plan_with (adapter pl f) (root f);
  let predicate p := mkPlanned (iceberg_schema_id (planner_schema pl)) (node p) in
  Ok (match q with
      | Unsupported => Filter.Unsupported
      | Partial p => Filter.Partial (mkFilter (predicate p) (costing p) PerRow)
      | Exact p | ExactNoComplement p => Filter.Exact (mkFilter (predicate p) (costing p) PerRow)
      | Conservative p => Filter.Conservative (mkFilter (predicate p) (costing p) (evaluation (node p)))
      end).
