(* ===== verification/ArrowCodec.v ===== *)
(** * Arrow columns and PostgreSQL values

    Models the scalar and native-list part of lagodb-arrow: rule.rs (which Arrow
    type backs which PostgreSQL type), datum_codec/native.rs (the encoder chosen
    for a column), column_encoder/{primitive,string,binary,temporal,timestamp,
    decimal}.rs (the conversion of one value), datum_codec/reader.rs and
    read/list.rs (the conversion back), with the target conversion of
    lagodb-core/src/datum/codec.rs and codec/text.rs.  Batches of rows are in
    [ArrowWrite].

    PostgreSQL's and pgrx's own conversions are the class [PgTypes]. *)

From stdpp Require Import base list strings.
From Stdlib Require Import ZArith Lia.
From S2P Require Import Prelude.
From S2P Require Import Bytes.
From S2P Require Import DecimalNumeric.
From S2P Require Import Expressions.
Local Open Scope Z_scope.

(** ** Epochs (core datum/temporal.rs) *)
Definition POSTGRES_EPOCH_JDATE : Z := 2451545.
Definition UNIX_EPOCH_JDATE : Z := 2440588.
Definition USECS_PER_DAY : Z := 86400000000.
Definition PG_EPOCH_DAYS_DIFF : Z := POSTGRES_EPOCH_JDATE - UNIX_EPOCH_JDATE.
Definition PG_EPOCH_USECS_DIFF : Z := PG_EPOCH_DAYS_DIFF * USECS_PER_DAY.

(** [i32::checked_*] and [i64::checked_*]. *)
Definition checked_i32 (z : Z) : option Z := if (- 2 ^ 31 <=? z) && (z <? 2 ^ 31) then Some z else None.
Definition checked_i64 (z : Z) : option Z := if (- 2 ^ 63 <=? z) && (z <? 2 ^ 63) then Some z else None.

Definition pg_epoch_days_to_unix_days (pg_days : Z) : option Z := checked_i32 (pg_days + PG_EPOCH_DAYS_DIFF).
Definition pg_epoch_micros_to_unix_micros (pg_micros : Z) : option Z :=
  checked_i64 (pg_micros + PG_EPOCH_USECS_DIFF).

(** ** Types *)
Definition JSONBOID : Oid := 3802.

Inductive TimeUnit := Second | Millisecond | Microsecond | Nanosecond.

#[export] Instance TimeUnit_eq_dec : EqDecision TimeUnit.
Proof. solve_decision. Defined.

(** Arrow's types as far as the code distinguishes them; of a timezone only its
    presence matters, and of a list's field its type and nullability. *)
Inductive DataType :=
| DBoolean | DInt16 | DInt32 | DInt64 | DFloat32 | DFloat64
| DUtf8 | DLargeUtf8 | DBinary | DLargeBinary | DFixedSizeBinary (width : Z)
| DDate32 | DTime64 (unit : TimeUnit) | DTimestamp (unit : TimeUnit) (tz : bool)
| DDecimal128 (precision scale : Z)
| DList (element : DataType) (nullable : bool)
| DOther.

#[export] Instance DataType_eq_dec : EqDecision DataType.
Proof. solve_decision. Defined.

(** [AssertionFailed] is a panic of an assertion. *)
Inductive ArrowConversionError :=
| UnsupportedColumnType
| IncompatibleColumnType
| ArrowTypeMismatch
| IncompatibleCell (target : Oid)
| CellOutOfRange (target : Oid)
| CellInvalidInput (target : Oid)
| ValueOutOfRange
| InvariantViolated
| DecimalFault (fault : Fault)
| ArrowError
| AssertionFailed.

(** [From<DecimalCodecError>]: a shape that no column can have is a mismatch. *)
Definition of_decimal_fault (f : Fault) : ArrowConversionError :=
  match f with
  | Codec (PrecisionOutOfRange _) | Codec (ScaleOutOfRange _ _) => IncompatibleColumnType
  | f => DecimalFault f
  end.

(** The target buckets: [PgColumnType]. *)
Module Col.
Inductive PgColumnType :=
| Bool | Int2 | Int4 | Int8 | Float4 | Float8 | Text | Bytea | Jsonb | Uuid | Numeric
| Date | Time | Timestamp | Timestamptz | Array (element : Oid).
End Col.

#[export] Instance Col_eq_dec : EqDecision Col.PgColumnType.
Proof. solve_decision. Defined.

(** The elements that have a list codec of their own: [ListElementRule]. *)
Module Elem.
Inductive ListElementRule := Bool | Short | Int | Long | Float | Double | String.
End Elem.

(** The conversion of a column: [CellRule]. *)
Module Rule.
Inductive CellRule :=
| Bool | I16 | I32 | I64 | F32 | F64 | Utf8 | Binary | FixedBinary (len : Z) | Uuid
| Date32 | Time64Micros | Timestamp (nanos tz : bool) | Decimal128 (precision scale : Z)
| List (element : Elem.ListElementRule) (nullable : bool) (elem_oid : Oid).
End Rule.

Section rules.
Context {B : PgBackend}.

Definition from_pg_type (oid : Oid) : option Col.PgColumnType :=
  if oid =? BOOLOID then Some Col.Bool
  else if oid =? INT2OID then Some Col.Int2
  else if oid =? INT4OID then Some Col.Int4
  else if oid =? INT8OID then Some Col.Int8
  else if oid =? FLOAT4OID then Some Col.Float4
  else if oid =? FLOAT8OID then Some Col.Float8
  else if (oid =? TEXTOID) || (oid =? VARCHAROID) || (oid =? BPCHAROID) || (oid =? NAMEOID) || (oid =? JSONOID)
  then Some Col.Text
  else if oid =? BYTEAOID then Some Col.Bytea
  else if oid =? JSONBOID then Some Col.Jsonb
  else if oid =? UUIDOID then Some Col.Uuid
  else if oid =? NUMERICOID then Some Col.Numeric
  else if oid =? DATEOID then Some Col.Date
  else if oid =? TIMEOID then Some Col.Time
  else if oid =? TIMESTAMPOID then Some Col.Timestamp
  else if oid =? TIMESTAMPTZOID then Some Col.Timestamptz
  else if get_element_type oid =? InvalidOid then None
  else Some (Col.Array (get_element_type oid)).

Definition for_arrow_type (dt : DataType) : option Elem.ListElementRule :=
  match dt with
  | DBoolean => Some Elem.Bool
  | DInt16 => Some Elem.Short
  | DInt32 => Some Elem.Int
  | DInt64 => Some Elem.Long
  | DFloat32 => Some Elem.Float
  | DFloat64 => Some Elem.Double
  | DUtf8 | DLargeUtf8 => Some Elem.String
  | _ => None
  end.

Definition accepts_data_type (e : Elem.ListElementRule) (dt : DataType) : bool :=
  match e, dt with
  | Elem.Bool, DBoolean | Elem.Short, DInt16 | Elem.Int, DInt32 | Elem.Long, DInt64
  | Elem.Float, DFloat32 | Elem.Double, DFloat64 | Elem.String, DUtf8 | Elem.String, DLargeUtf8 => true
  | _, _ => false
  end.

Definition accepts_target_oid (e : Elem.ListElementRule) (oid : Oid) : bool :=
  match e with
  | Elem.Bool => oid =? BOOLOID
  | Elem.Short => oid =? INT2OID
  | Elem.Int => (oid =? INT2OID) || (oid =? INT4OID)
  | Elem.Long => oid =? INT8OID
  | Elem.Float => oid =? FLOAT4OID
  | Elem.Double => oid =? FLOAT8OID
  | Elem.String =>
      (oid =? TEXTOID) || (oid =? VARCHAROID) || (oid =? BPCHAROID) || (oid =? NAMEOID) || (oid =? JSONOID)
  end.

(** [CellRule::accepts]. *)
Definition rule_accepts (rule : Rule.CellRule) (dt : DataType) : bool :=
  match rule, dt with
  | Rule.Bool, DBoolean | Rule.I16, DInt16 | Rule.I32, DInt32 | Rule.I64, DInt64
  | Rule.F32, DFloat32 | Rule.F64, DFloat64
  | Rule.Utf8, DUtf8 | Rule.Utf8, DLargeUtf8 | Rule.Binary, DBinary | Rule.Binary, DLargeBinary
  | Rule.Date32, DDate32 | Rule.Time64Micros, DTime64 Microsecond => true
  | Rule.FixedBinary len, DFixedSizeBinary n => n =? len
  | Rule.Uuid, DFixedSizeBinary n => n =? 16
  | Rule.Timestamp nanos tz, DTimestamp unit zone =>
      bool_decide (unit = if nanos then Nanosecond else Microsecond) && Bool.eqb zone tz
  | Rule.Decimal128 p s, DDecimal128 p' s' => (p' =? p) && (s' =? s)
  | Rule.List e _ _, DList dt _ => accepts_data_type e dt
  | _, _ => false
  end.

Definition require_pg (compatible : bool) (rule : Rule.CellRule) : result ArrowConversionError Rule.CellRule :=
  if compatible then Ok rule else Err IncompatibleColumnType.

Definition resolve_cell_rule (arrow : DataType) (pg : Col.PgColumnType) : result ArrowConversionError Rule.CellRule :=
  match arrow with
  | DBoolean => require_pg (bool_decide (pg = Col.Bool)) Rule.Bool
  | DInt16 => require_pg (bool_decide (pg = Col.Int2)) Rule.I16
  | DInt32 => require_pg (bool_decide (pg = Col.Int2) || bool_decide (pg = Col.Int4)) Rule.I32
  | DInt64 => require_pg (bool_decide (pg = Col.Int8)) Rule.I64
  | DFloat32 => require_pg (bool_decide (pg = Col.Float4)) Rule.F32
  | DFloat64 => require_pg (bool_decide (pg = Col.Float8)) Rule.F64
  | DUtf8 | DLargeUtf8 => require_pg (bool_decide (pg = Col.Text)) Rule.Utf8
  | DBinary | DLargeBinary => require_pg (bool_decide (pg = Col.Bytea)) Rule.Binary
  | DDate32 => require_pg (bool_decide (pg = Col.Date)) Rule.Date32
  | DTime64 Microsecond => require_pg (bool_decide (pg = Col.Time)) Rule.Time64Micros
  | DTimestamp (Second | Millisecond) _ => Err UnsupportedColumnType
  | DTimestamp unit tz =>
      require_pg (bool_decide (pg = if tz then Col.Timestamptz else Col.Timestamp))
        (Rule.Timestamp (bool_decide (unit = Nanosecond)) tz)
  | DDecimal128 precision scale =>
      if negb (bool_decide (pg = Col.Numeric)) then Err IncompatibleColumnType
      else if negb ((1 <=? precision) && (precision <=? 38)) || negb ((0 <=? scale) && (scale <=? 38))
              || (precision <? scale)
      then Err IncompatibleColumnType
      else Ok (Rule.Decimal128 precision scale)
  | DFixedSizeBinary n =>
      if (n =? 16) && bool_decide (pg = Col.Uuid) then Ok Rule.Uuid
      else if bool_decide (pg = Col.Bytea) && (1 <=? n) && (n <=? i32_max) then Ok (Rule.FixedBinary n)
      else if n =? 16 then Err IncompatibleColumnType
      else Err UnsupportedColumnType
  | DList element nullable =>
      match pg with
      | Col.Array elem_oid =>
          e ← ok_or (for_arrow_type element) UnsupportedColumnType;
          if accepts_target_oid e elem_oid then Ok (Rule.List e nullable elem_oid)
          else Err IncompatibleColumnType
      | _ => Err IncompatibleColumnType
      end
  | DTime64 _ | DOther => Err UnsupportedColumnType
  end.
End rules.

(** ** The encoder of a column: [NativeEncoderPlan]

    A list plan carries the nullability of its element field. *)
Module Native.
Inductive NativeEncoderPlan :=
| Bool | I16 | I32Int2 | I32Int4 | I64Int8 | F32 | F64Float8 | Text | Name | Bytea
| FixedBytea (len : Z) | Uuid | Numeric (precision scale : Z) | Date | Time
| Timestamp (nanos : bool) | Timestamptz (nanos : bool)
| BoolArray (nullable : bool) | ShortArray (nullable : bool) | Int2Array (nullable : bool)
| Int4Array (nullable : bool) | Int8Array (nullable : bool) | Float4Array (nullable : bool)
| Float8Array (nullable : bool) | TextArray (nullable : bool) | VarcharArray (nullable : bool)
| BpcharArray (nullable : bool) | NameArray (nullable : bool) | JsonArray (nullable : bool).
End Native.

(** [NativeEncoderPlan::bind]. *)
Definition bind_plan (rule : Rule.CellRule) (oid : Oid) : result ArrowConversionError Native.NativeEncoderPlan :=
  let when (expected : Oid) (plan : Native.NativeEncoderPlan) : result ArrowConversionError Native.NativeEncoderPlan :=
    if oid =? expected then Ok plan else Err InvariantViolated in
  match rule with
  | Rule.Bool => when BOOLOID Native.Bool
  | Rule.I16 => when INT2OID Native.I16
  | Rule.I32 => if oid =? INT2OID then Ok Native.I32Int2 else when INT4OID Native.I32Int4
  | Rule.I64 => when INT8OID Native.I64Int8
  | Rule.F32 => when FLOAT4OID Native.F32
  | Rule.F64 => when FLOAT8OID Native.F64Float8
  | Rule.Utf8 =>
      if (oid =? TEXTOID) || (oid =? VARCHAROID) || (oid =? BPCHAROID) || (oid =? JSONOID) then Ok Native.Text
      else when NAMEOID Native.Name
  | Rule.Binary => when BYTEAOID Native.Bytea
  | Rule.FixedBinary len => when BYTEAOID (Native.FixedBytea len)
  | Rule.Uuid => when UUIDOID Native.Uuid
  | Rule.Decimal128 precision scale => when NUMERICOID (Native.Numeric precision scale)
  | Rule.Date32 => when DATEOID Native.Date
  | Rule.Time64Micros => when TIMEOID Native.Time
  | Rule.Timestamp nanos false => when TIMESTAMPOID (Native.Timestamp nanos)
  | Rule.Timestamp nanos true => when TIMESTAMPTZOID (Native.Timestamptz nanos)
  | Rule.List Elem.Bool field _ => when BOOLARRAYOID (Native.BoolArray field)
  | Rule.List Elem.Short field _ => when INT2ARRAYOID (Native.ShortArray field)
  | Rule.List Elem.Int field _ =>
      if oid =? INT2ARRAYOID then Ok (Native.Int2Array field) else when INT4ARRAYOID (Native.Int4Array field)
  | Rule.List Elem.Long field _ => when INT8ARRAYOID (Native.Int8Array field)
  | Rule.List Elem.Float field _ => when FLOAT4ARRAYOID (Native.Float4Array field)
  | Rule.List Elem.Double field _ => when FLOAT8ARRAYOID (Native.Float8Array field)
  | Rule.List Elem.String field _ =>
      if oid =? TEXTARRAYOID then Ok (Native.TextArray field)
      else if oid =? VARCHARARRAYOID then Ok (Native.VarcharArray field)
      else if oid =? BPCHARARRAYOID then Ok (Native.BpcharArray field)
      else if oid =? NAMEARRAYOID then Ok (Native.NameArray field)
      else when JSONARRAYOID (Native.JsonArray field)
  end.

(** ** Values *)

(** One value of an Arrow array; a timestamp's unit is that of its array. *)
Inductive Scalar (F : Type) :=
| ABool (b : bool)
| AI16 (z : Z)
| AI32 (z : Z)
| AI64 (z : Z)
| AF32 (f : F)
| AF64 (f : F)
| AString (bytes : list byte)
| ABytes (bytes : list byte)
| ADate32 (days : Z)
| ATime64 (micros : Z)
| ATimestamp (units : Z)
| ADecimal (unscaled : Z).
Arguments ABool {F}.
Arguments AI16 {F}.
Arguments AI32 {F}.
Arguments AI64 {F}.
Arguments AF32 {F}.
Arguments AF64 {F}.
Arguments AString {F}.
Arguments ABytes {F}.
Arguments ADate32 {F}.
Arguments ATime64 {F}.
Arguments ATimestamp {F}.
Arguments ADecimal {F}.

(** The cells that scalar readers build. *)
Module SqlCell.
Inductive PgCell (N F : Type) :=
| Bool (b : bool)
| I8 (z : Z)
| I16 (z : Z)
| F32 (f : F)
| I32 (z : Z)
| F64 (f : F)
| I64 (z : Z)
| Numeric (n : N)
| String (bytes : list byte)
| StringView (bytes : list byte)
| Date (days : Z)
| Time (micros : Z)
| Timestamp (micros : Z)
| Timestamptz (micros : Z)
| Bytea (bytes : list byte)
| ByteaView (bytes : list byte)
| Uuid (bytes : list byte).
Arguments Bool {N F}.
Arguments I8 {N F}.
Arguments I16 {N F}.
Arguments F32 {N F}.
Arguments I32 {N F}.
Arguments F64 {N F}.
Arguments I64 {N F}.
Arguments Numeric {N F}.
Arguments String {N F}.
Arguments StringView {N F}.
Arguments Date {N F}.
Arguments Time {N F}.
Arguments Timestamp {N F}.
Arguments Timestamptz {N F}.
Arguments Bytea {N F}.
Arguments ByteaView {N F}.
Arguments Uuid {N F}.
End SqlCell.

(** PostgreSQL and pgrx: the ranges that pgrx's [try_from] admits for days and
    microseconds, clipping at a character boundary, and JSON input, which returns
    the text it accepts. *)
Class PgTypes := {
  date_try_from : Z → bool;
  time_try_from : Z → bool;
  timestamp_try_from : Z → bool;
  timestamptz_try_from : Z → bool;
  pg_mbcliplen : list byte → Z → Z → Z;
  json_in : list byte → option (list byte);
}.

Definition reference_types : PgTypes := {|
  date_try_from z := (-2451545 <=? z) && (z <? 2145031949);
  time_try_from z := (0 <=? z) && (z <=? 86400000000);
  timestamp_try_from _ := true;
  timestamptz_try_from _ := true;
  pg_mbcliplen _ len limit := Z.min len limit;
  json_in bs := Some bs;
|}.

Definition NAMEDATALEN : Z := 64.

Section convert.
Context {B : PgBackend} {PT : PgTypes}.
Local Notation PScalar := (Scalar Float).
Local Notation PCell := (SqlCell.PgCell AnyNumeric Float).
Local Notation Conv := (result ArrowConversionError).

(** *** Into PostgreSQL *)

(** [name_datum_from_str_unchecked]. *)
Definition name_datum_from_str (bytes : list byte) : Conv PgDatum :=
  if contains_nul bytes then Err (CellInvalidInput NAMEOID)
  else if i32_max <? blen bytes then Err (CellOutOfRange NAMEOID)
  else
    let storage_limit := NAMEDATALEN - 1 in
    let copy_len :=
      if storage_limit <? blen bytes then pg_mbcliplen bytes (blen bytes) storage_limit else blen bytes in
    Ok (PgText (take (Z.to_nat copy_len) bytes)).

Definition cell_text (c : PCell) : option (list byte) :=
  match c with SqlCell.String bs | SqlCell.StringView bs => Some bs | _ => None end.

Definition into_text_datum (target : Oid) (c : PCell) : Conv PgDatum :=
  bs ← ok_or (cell_text c) (IncompatibleCell target);
  if contains_nul bs then Err (CellInvalidInput target) else Ok (PgText bs).

Definition into_name_datum (target : Oid) (c : PCell) : Conv PgDatum :=
  bs ← ok_or (cell_text c) (IncompatibleCell target);
  name_datum_from_str bs.

(** [CString::new] rejects an embedded NUL. *)
Definition into_json_text_datum (target : Oid) (c : PCell) : Conv PgDatum :=
  bs ← ok_or (cell_text c) (IncompatibleCell target);
  if contains_nul bs then Err (CellInvalidInput target)
  else PgText <$> ok_or (json_in bs) (CellInvalidInput target).

Definition into_integer_datum (target : Oid) (c : PCell) : Conv PgDatum :=
  if target =? INT2OID then
    match c with
    | SqlCell.I16 z => Ok (PgInt2 z)
    | SqlCell.I32 z => Ok (PgInt2 (as_i16 z))
    | _ => Err (IncompatibleCell target)
    end
  else if target =? INT4OID then
    match c with SqlCell.I16 z | SqlCell.I32 z => Ok (PgInt4 z) | _ => Err (IncompatibleCell target) end
  else
    match c with
    | SqlCell.I16 z | SqlCell.I32 z | SqlCell.I64 z => Ok (PgInt8 z)
    | _ => Err (IncompatibleCell target)
    end.

(** [cell_to_datum] for the targets that a scalar rule can have. *)
Definition cell_to_datum (target : Oid) (c : PCell) : Conv PgDatum :=
  let incompatible := Err (IncompatibleCell target) in
  if target =? BOOLOID then match c with SqlCell.Bool b => Ok (PgBool b) | _ => incompatible end
  else if (target =? INT2OID) || (target =? INT4OID) || (target =? INT8OID) then into_integer_datum target c
  else if target =? FLOAT4OID then match c with SqlCell.F32 f => Ok (PgFloat4 f) | _ => incompatible end
  else if target =? FLOAT8OID then match c with SqlCell.F64 f => Ok (PgFloat8 f) | _ => incompatible end
  else if target =? NUMERICOID then match c with SqlCell.Numeric n => Ok (PgNumeric n) | _ => incompatible end
  else if (target =? TEXTOID) || (target =? VARCHAROID) || (target =? BPCHAROID) then into_text_datum target c
  else if target =? NAMEOID then into_name_datum target c
  else if target =? JSONOID then into_json_text_datum target c
  else if target =? DATEOID then match c with SqlCell.Date z => Ok (PgDate z) | _ => incompatible end
  else if target =? TIMEOID then match c with SqlCell.Time z => Ok (PgTime z) | _ => incompatible end
  else if target =? TIMESTAMPOID then match c with SqlCell.Timestamp z => Ok (PgTimestamp z) | _ => incompatible end
  else if target =? TIMESTAMPTZOID then match c with SqlCell.Timestamptz z => Ok (PgTimestamptz z) | _ => incompatible end
  else if target =? BYTEAOID then
    match c with SqlCell.Bytea bs | SqlCell.ByteaView bs => Ok (PgBytea bs) | _ => incompatible end
  else if target =? UUIDOID then match c with SqlCell.Uuid bs => Ok (PgUuid bs) | _ => incompatible end
  else incompatible.

Definition pg_date_from_arrow_days (arrow_days : Z) : Conv Z :=
  pg_days ← ok_or (checked_i32 (arrow_days - PG_EPOCH_DAYS_DIFF)) ValueOutOfRange;
  if date_try_from pg_days then Ok pg_days else Err ValueOutOfRange.

Definition time_from_micros (micros : Z) : Conv Z :=
  if time_try_from micros then Ok micros else Err ValueOutOfRange.

Definition unix_micros_to_pg_micros (unix_micros : Z) : Conv Z :=
  ok_or (checked_i64 (unix_micros - PG_EPOCH_USECS_DIFF)) ValueOutOfRange.

Definition timestamp_from_unix_micros (unix_micros : Z) : Conv Z :=
  pg_micros ← unix_micros_to_pg_micros unix_micros;
  if timestamp_try_from pg_micros then Ok pg_micros else Err ValueOutOfRange.

Definition timestamptz_from_unix_micros (unix_micros : Z) : Conv Z :=
  pg_micros ← unix_micros_to_pg_micros unix_micros;
  if timestamptz_try_from pg_micros then Ok pg_micros else Err ValueOutOfRange.

(** [div_euclid] by a positive number. *)
Definition unix_micros_from_nanos (unix_nanos : Z) : Z := unix_nanos / 1000.

Definition timestamp_cell (unix_micros : Z) (tz : bool) : Conv PCell :=
  if tz then SqlCell.Timestamptz <$> timestamptz_from_unix_micros unix_micros
  else SqlCell.Timestamp <$> timestamp_from_unix_micros unix_micros.

Definition recv_raised (e : RecvError) : Fault :=
  match e with
  | NUMERIC_VALUE_OUT_OF_RANGE m | INVALID_BINARY_REPRESENTATION m | OTHER_SQL_STATE m => Raised m
  end.

Definition decode_datum_with_typmod (c : Decimal128NumericCodec) (unscaled target_typmod : Z)
    : result Fault PgDatum :=
  external ← from_decimal128 unscaled (scale c);
  PgNumeric <$> map_err recv_raised (numeric_recv (write_be_bytes external) target_typmod).

(** One non-NULL value of a bound reader.  The array's type was checked by
    [rule_accepts] when the reader was bound. *)
Definition read_scalar (rule : Rule.CellRule) (target typmod : Z) (v : PScalar) : Conv PgDatum :=
  match rule, v with
  | Rule.Bool, ABool b => cell_to_datum target (SqlCell.Bool b)
  | Rule.I16, AI16 z => cell_to_datum target (SqlCell.I16 z)
  | Rule.I32, AI32 z => cell_to_datum target (SqlCell.I32 z)
  | Rule.I64, AI64 z => cell_to_datum target (SqlCell.I64 z)
  | Rule.F32, AF32 f => cell_to_datum target (SqlCell.F32 f)
  | Rule.F64, AF64 f => cell_to_datum target (SqlCell.F64 f)
  | Rule.Utf8, AString bs => cell_to_datum target (SqlCell.StringView bs)
  | Rule.Binary, ABytes bs | Rule.FixedBinary _, ABytes bs => cell_to_datum target (SqlCell.ByteaView bs)
  | Rule.Uuid, ABytes bs => cell_to_datum target (SqlCell.Uuid bs)
  | Rule.Date32, ADate32 z => d ← pg_date_from_arrow_days z; cell_to_datum target (SqlCell.Date d)
  | Rule.Time64Micros, ATime64 z => t ← time_from_micros z; cell_to_datum target (SqlCell.Time t)
  | Rule.Timestamp nanos tz, ATimestamp z =>
      c ← timestamp_cell (if nanos then unix_micros_from_nanos z else z) tz;
      cell_to_datum target c
  | Rule.Decimal128 precision scale, ADecimal u =>
      c ← map_err (of_decimal_fault ∘ Codec) (codec_new precision scale);
      map_err of_decimal_fault (decode_datum_with_typmod c u typmod)
  | _, _ => Err ArrowTypeMismatch
  end.

(** An element of a list. *)
Definition element_cell (e : Elem.ListElementRule) (v : PScalar) : option PCell :=
  match e, v with
  | Elem.Bool, ABool b => Some (SqlCell.Bool b)
  | Elem.Short, AI16 z => Some (SqlCell.I16 z)
  | Elem.Int, AI32 z => Some (SqlCell.I32 z)
  | Elem.Long, AI64 z => Some (SqlCell.I64 z)
  | Elem.Float, AF32 f => Some (SqlCell.F32 f)
  | Elem.Double, AF64 f => Some (SqlCell.F64 f)
  | Elem.String, AString bs => Some (SqlCell.StringView bs)
  | _, _ => None
  end.

Definition read_element (e : Elem.ListElementRule) (target : Oid) (v : option PScalar) : Conv (option PgDatum) :=
  match v with
  | None => Ok None
  | Some v => c ← ok_or (element_cell e v) ArrowTypeMismatch; Some <$> cell_to_datum target c
  end.

(** [ListValues::append_to] and the array that the buffer forms. *)
Definition read_list (e : Elem.ListElementRule) (target : Oid) (vs : list (option PScalar)) : Conv PgDatum :=
  PgArray true <$> collect (read_element e target) vs.

(** *** From PostgreSQL *)
Definition arrow_days_from_pg_date (days : Z) : Conv Z := ok_or (pg_epoch_days_to_unix_days days) ValueOutOfRange.

(** [Time64Conv::from_pg_micros]: Arrow's day has no 24:00:00. *)
Definition time_from_pg_micros (micros : Z) : Conv Z :=
  if micros =? USECS_PER_DAY then Err ValueOutOfRange else Ok micros.

Definition unix_micros_from_timestamp (pg_micros : Z) : Conv Z :=
  ok_or (pg_epoch_micros_to_unix_micros pg_micros) ValueOutOfRange.

Definition unix_nanos_from_timestamp (pg_micros : Z) : Conv Z :=
  unix_micros ← unix_micros_from_timestamp pg_micros;
  ok_or (checked_i64 (unix_micros * 1000)) ValueOutOfRange.

(** [TimestampUnit::from_pg_micros] of the two units. *)
Definition timestamp_units (nanos : bool) (pg_micros : Z) : Conv Z :=
  if nanos then unix_nanos_from_timestamp pg_micros else unix_micros_from_timestamp pg_micros.

(** [FixedCodec::validate]. *)
Definition fixed_validate (len actual_len : Z) : Conv unit :=
  if actual_len =? len then Ok () else Err IncompatibleColumnType.

(** The value and the size estimate that a scalar encoder appends for a non-NULL
    datum.  A datum of another type is outside every encoder's contract. *)
Definition write_scalar (plan : Native.NativeEncoderPlan) (d : PgDatum) : Conv (PScalar * Z) :=
  match plan, d with
  | Native.Bool, PgBool b => Ok (ABool b, 1)
  | Native.I16, PgInt2 z => Ok (AI16 z, 2)
  | Native.I32Int2, PgInt2 z => Ok (AI32 z, 4)
  | Native.I32Int4, PgInt4 z => Ok (AI32 z, 4)
  | Native.I64Int8, PgInt8 z => Ok (AI64 z, 8)
  | Native.F32, PgFloat4 f => Ok (AF32 f, 4)
  | Native.F64Float8, PgFloat8 f => Ok (AF64 f, 8)
  | Native.Text, PgText bs | Native.Name, PgText bs => Ok (AString bs, blen bs)
  | Native.Bytea, PgBytea bs => Ok (ABytes bs, blen bs)
  | Native.FixedBytea len, PgBytea bs => _ ← fixed_validate len (blen bs); Ok (ABytes bs, blen bs)
  | Native.Uuid, PgUuid bs => Ok (ABytes bs, 16)
  | Native.Numeric precision scale, PgNumeric n =>
      c ← map_err (of_decimal_fault ∘ Codec) (codec_new precision scale);
      u ← map_err of_decimal_fault (encode_bound_datum numeric_send c n);
      Ok (ADecimal u, 16)
  | Native.Date, PgDate z => d ← arrow_days_from_pg_date z; Ok (ADate32 d, 4)
  | Native.Time, PgTime z => t ← time_from_pg_micros z; Ok (ATime64 t, 8)
  | Native.Timestamp nanos, PgTimestamp z | Native.Timestamptz nanos, PgTimestamptz z =>
      t ← timestamp_units nanos z; Ok (ATimestamp t, 8)
  | _, _ => Err InvariantViolated
  end.

(** The conversions of the element markers in native_list.rs. *)
Definition write_element (plan : Native.NativeEncoderPlan) (d : PgDatum) : option PScalar :=
  match plan, d with
  | Native.BoolArray _, PgBool b => Some (ABool b)
  | Native.ShortArray _, PgInt2 z => Some (AI16 z)
  | Native.Int2Array _, PgInt2 z | Native.Int4Array _, PgInt4 z => Some (AI32 z)
  | Native.Int8Array _, PgInt8 z => Some (AI64 z)
  | Native.Float4Array _, PgFloat4 f => Some (AF32 f)
  | Native.Float8Array _, PgFloat8 f => Some (AF64 f)
  | (Native.TextArray _ | Native.VarcharArray _ | Native.BpcharArray _ | Native.NameArray _ | Native.JsonArray _),
      PgText bs => Some (AString bs)
  | _, _ => None
  end.

Definition is_list_plan (plan : Native.NativeEncoderPlan) : bool :=
  match plan with
  | Native.BoolArray _ | Native.ShortArray _ | Native.Int2Array _ | Native.Int4Array _ | Native.Int8Array _
  | Native.Float4Array _ | Native.Float8Array _ | Native.TextArray _ | Native.VarcharArray _
  | Native.BpcharArray _ | Native.NameArray _ | Native.JsonArray _ => true
  | _ => false
  end.

(** The estimate of [append_values]: the element width, or for strings their
    bytes with an offset and a validity byte each. *)
Definition elements_bytes (plan : Native.NativeEncoderPlan) (vs : list (option PScalar)) : Z :=
  let count := blen vs in
  match plan with
  | Native.BoolArray _ => count * 1
  | Native.ShortArray _ => count * 2
  | Native.Int2Array _ | Native.Int4Array _ | Native.Float4Array _ => count * 4
  | Native.Int8Array _ | Native.Float8Array _ => count * 8
  | _ =>
      foldr (λ v acc, match v with Some (AString bs) => blen bs | _ => 0 end + acc) 0 vs + count * 5
  end.

(** The physical type that the encoder's [finish] builds. *)
Definition plan_type (plan : Native.NativeEncoderPlan) : DataType :=
  match plan with
  | Native.Bool => DBoolean
  | Native.I16 => DInt16
  | Native.I32Int2 | Native.I32Int4 => DInt32
  | Native.I64Int8 => DInt64
  | Native.F32 => DFloat32
  | Native.F64Float8 => DFloat64
  | Native.Text | Native.Name => DUtf8
  | Native.Bytea => DLargeBinary
  | Native.FixedBytea len => DFixedSizeBinary len
  | Native.Uuid => DFixedSizeBinary 16
  | Native.Numeric precision scale => DDecimal128 precision scale
  | Native.Date => DDate32
  | Native.Time => DTime64 Microsecond
  | Native.Timestamp nanos => DTimestamp (if nanos then Nanosecond else Microsecond) false
  | Native.Timestamptz nanos => DTimestamp (if nanos then Nanosecond else Microsecond) true
  | Native.BoolArray field => DList DBoolean field
  | Native.ShortArray field => DList DInt16 field
  | Native.Int2Array field | Native.Int4Array field => DList DInt32 field
  | Native.Int8Array field => DList DInt64 field
  | Native.Float4Array field => DList DFloat32 field
  | Native.Float8Array field => DList DFloat64 field
  | Native.TextArray field | Native.VarcharArray field | Native.BpcharArray field
  | Native.NameArray field | Native.JsonArray field => DList DUtf8 field
  end.
End convert.

(** Decide the comparisons of the type identifiers that are left. *)
Ltac oids :=
  repeat match goal with
  | H : context [ if ?a =? ?b then _ else _ ] |- _ => destruct (Z.eqb_spec a b) as [?|?]; simplify_eq/=
  | H : context [ if (?a =? ?b) || ?c then _ else _ ] |- _ => destruct (Z.eqb_spec a b) as [?|?]; simplify_eq/=
  end.

(** ** Valid datums

    What PostgreSQL guarantees of a non-NULL datum of a type, and what it is to
    come back from Arrow: the same datum, or for a NUMERIC the same number. *)
Section valid.
Context {B : PgBackend} {PT : PgTypes}.

(** [numeric_send] writes a finite number or one of the special values. *)
Definition numeric_form (n : AnyNumeric) : Prop :=
  (∃ sgn w display ds, numeric_send n = wire_bytes sgn w display ds ∧ finite_wire sgn w ds) ∨
  (∃ sgn, wire_sign n = Some sgn ∧ sgn ≠ NUMERIC_POS ∧ sgn ≠ NUMERIC_NEG).

Definition text_ok (oid : Oid) (bs : list byte) : Prop :=
  contains_nul bs = false ∧
  (oid = TEXTOID ∨ oid = VARCHAROID ∨ oid = BPCHAROID ∨ (oid = NAMEOID ∧ blen bs < NAMEDATALEN) ∨
   (oid = JSONOID ∧ json_in bs = Some bs)).

Definition datum_ok (oid : Oid) (d : PgDatum) : Prop :=
  match d with
  | PgBool _ => oid = BOOLOID
  | PgInt2 z => oid = INT2OID ∧ - 2 ^ 15 ≤ z < 2 ^ 15
  | PgInt4 z => oid = INT4OID ∧ - 2 ^ 31 ≤ z < 2 ^ 31
  | PgInt8 z => oid = INT8OID ∧ - 2 ^ 63 ≤ z < 2 ^ 63
  | PgFloat4 _ => oid = FLOAT4OID
  | PgFloat8 _ => oid = FLOAT8OID
  | PgDate z => oid = DATEOID ∧ - 2 ^ 31 ≤ z < 2 ^ 31 ∧ date_try_from z = true
  | PgTime z => oid = TIMEOID ∧ time_try_from z = true
  | PgTimestamp z => oid = TIMESTAMPOID ∧ - 2 ^ 63 ≤ z < 2 ^ 63 ∧ timestamp_try_from z = true
  | PgTimestamptz z => oid = TIMESTAMPTZOID ∧ - 2 ^ 63 ≤ z < 2 ^ 63 ∧ timestamptz_try_from z = true
  | PgNumeric n => oid = NUMERICOID ∧ numeric_form n
  | PgText bs => text_ok oid bs
  | PgUuid bs => oid = UUIDOID ∧ blen bs = 16
  | PgBytea _ => oid = BYTEAOID
  | PgArray _ _ => False
  end.

Definition same_datum (d d' : PgDatum) : Prop :=
  match d, d' with
  | PgNumeric n, PgNumeric n' => ∃ s u, numeric_is n s (Finite u) ∧ numeric_is n' s (Finite u)
  | _, _ => d = d'
  end.

(** The coefficients that the NUMERIC wire buffer holds. *)
Definition decodable (v : Scalar Float) (rule : Rule.CellRule) : Prop :=
  match rule, v with Rule.Decimal128 _ s, ADecimal u => ¬ overflows_buffer u s | _, _ => True end.

(** The typmod that a column of the rule declares. *)
Definition rule_typmod (rule : Rule.CellRule) (typmod : Z) : Prop :=
  match rule with Rule.Decimal128 p s => typmod = numeric_typmod p s | _ => True end.

(** ** One value, there and back *)
Lemma same_datum_refl d : (∀ n, d ≠ PgNumeric n) → same_datum d d.
Proof. destruct d as [| | | | | | | | | |n| | | |]; try done. intros Hn. by destruct (Hn n). Qed.

Lemma checked_i32_Some z y : checked_i32 z = Some y ↔ y = z ∧ - 2 ^ 31 ≤ z < 2 ^ 31.
Proof. unfold checked_i32. case_bool; [|naive_solver lia]. naive_solver lia. Qed.

Lemma checked_i64_Some z y : checked_i64 z = Some y ↔ y = z ∧ - 2 ^ 63 ≤ z < 2 ^ 63.
Proof. unfold checked_i64. case_bool; [|naive_solver lia]. naive_solver lia. Qed.

Lemma date_back z d : - 2 ^ 31 ≤ z < 2 ^ 31 → date_try_from z = true →
  arrow_days_from_pg_date z = Ok d → pg_date_from_arrow_days d = Ok z.
Proof.
  intros Hz Hd. unfold arrow_days_from_pg_date, pg_epoch_days_to_unix_days, pg_date_from_arrow_days.
  destruct (checked_i32 (z + _)) as [d'|] eqn:Hc; [|done]. intros [= ->].
  apply checked_i32_Some in Hc as [-> _]. rewrite Z.add_simpl_r.
  rewrite (proj2 (checked_i32_Some z z)) by done. csimpl. by rewrite Hd.
Qed.

Lemma micros_back z t : - 2 ^ 63 ≤ z < 2 ^ 63 → unix_micros_from_timestamp z = Ok t → unix_micros_to_pg_micros t = Ok z.
Proof.
  intros Hz. unfold unix_micros_from_timestamp, pg_epoch_micros_to_unix_micros, unix_micros_to_pg_micros.
  destruct (checked_i64 (z + _)) as [t'|] eqn:Hc; [|done]. intros [= ->].
  apply checked_i64_Some in Hc as [-> _]. rewrite Z.add_simpl_r.
  by rewrite (proj2 (checked_i64_Some z z)).
Qed.

(** Reading a written timestamp floors back to the microsecond. *)
Lemma units_back nanos z t : - 2 ^ 63 ≤ z < 2 ^ 63 → timestamp_units nanos z = Ok t →
  unix_micros_to_pg_micros (if nanos then unix_micros_from_nanos t else t) = Ok z.
Proof.
  intros Hz. destruct nanos; simpl; [|by apply micros_back]. unfold unix_nanos_from_timestamp.
  destruct (unix_micros_from_timestamp z) as [m|] eqn:Hm; [|done]. csimpl.
  destruct (checked_i64 (m * 1000)) as [t'|] eqn:Hc; [|done]. intros [= ->].
  apply checked_i64_Some in Hc as [-> _]. unfold unix_micros_from_nanos.
  rewrite Z.div_mul by done. by apply micros_back.
Qed.

Lemma encode_special n c : (∃ sgn, wire_sign n = Some sgn ∧ sgn ≠ NUMERIC_POS ∧ sgn ≠ NUMERIC_NEG) →
  ∀ u, encode_bound_datum numeric_send c n ≠ Ok u.
Proof.
  intros (sgn & Hs & Hp & Hn) u. unfold encode_bound_datum, numeric_send_to_i128.
  destruct (slice (numeric_send n) 0 2); csimpl; [|done]. destruct (slice (numeric_send n) 2 4); csimpl; [|done].
  unfold wire_sign in Hs. rewrite Hs. csimpl.
  apply Z.eqb_neq in Hp, Hn. by rewrite Hp, Hn.
Qed.

Lemma numeric_written n p s c u : codec_new p s = Ok c → 0 ≤ p → 0 ≤ s → numeric_form n →
  encode_bound_datum numeric_send c n = Ok u → numeric_is n s (Finite u) ∧ Z.abs u < 10 ^ p.
Proof.
  intros Hc Hp Hs [Hfin|Hspecial] Hu; [|by destruct (encode_special n c Hspecial u)].
  destruct Hfin as (sgn & w & display & ds & Hsend & Hfw). unfold encode_bound_datum in Hu. rewrite Hsend in Hu.
  apply (numeric_send_spec p s c sgn w ds display Hc Hp Hs Hfw) in Hu as (Hd & Hlt & _).
  split; [|done]. by exists sgn, w, display, ds.
Qed.

Lemma numeric_back {HL : PgBackendLaws B} p s c u : codec_new p s = Ok c → 0 ≤ p → 0 ≤ s → Z.abs u < 10 ^ p →
  ¬ overflows_buffer u s →
  ∃ n, decode_datum_with_typmod c u (numeric_typmod p s) = Ok (PgNumeric n) ∧ numeric_is n s (Finite u).
Proof.
  intros Hc Hp Hs Hu Hno. destruct (codec_new_Ok p s c Hc Hp) as (-> & Hp38 & Hsp).
  pose proof (precision_fits p ltac:(lia)) as Hfit.
  destruct (from_decimal128_spec u s) as [_ Hwire];
    [unfold i128_min; unfold i128_max in *; lia|unfold MAX_DEC_DIGITS; lia|].
  destruct (Hwire Hno) as (x & sgn & w & ds & Hx & Hfw & Hd & Hb & _).
  destruct (recv_fits (NumericLaws := backend_numeric) p s sgn w ds u) as (n & w' & ds' & Hr & Hfw' & Hd' & Hsend); [lia|lia|done..|].
  exists n. unfold decode_datum_with_typmod. simpl scale. rewrite Hx. csimpl. rewrite Hb, Hr.
  split; [done|]. by exists sgn, w', s, ds'.
Qed.

Definition rule_ok (rule : Rule.CellRule) : Prop :=
  match rule with Rule.Decimal128 p s => 0 ≤ p ∧ 0 ≤ s | _ => True end.

Lemma text_back oid bs : text_ok oid bs → cell_to_datum oid (SqlCell.StringView bs) = Ok (PgText bs).
Proof.
  intros [Hnul Ho]. destruct Ho as [->|[->|[->|[[-> Hlen]|[-> Hjson]]]]];
    unfold cell_to_datum, into_text_datum, into_name_datum, into_json_text_datum; simpl; rewrite ?Hnul; try done.
  - unfold name_datum_from_str. rewrite Hnul. unfold NAMEDATALEN in *.
    rewrite (proj2 (Z.ltb_ge i32_max (blen bs))) by width_lia. rewrite (proj2 (Z.ltb_ge (64 - 1) (blen bs))) by lia.
    unfold blen. by rewrite Nat2Z.id, take_ge.
  - by rewrite Hjson.
Qed.

Lemma int2_back z : - 2 ^ 15 ≤ z < 2 ^ 15 → cell_to_datum INT2OID (SqlCell.I32 z) = Ok (PgInt2 z).
Proof.
  intros Hz. transitivity (Ok (E := ArrowConversionError) (PgInt2 (N := AnyNumeric) (F := Float) (as_i16 z))); [done|].
  by rewrite as_i16_small.
Qed.

Lemma decimal_back {HL : PgBackendLaws B} p s n v k : 0 ≤ p → 0 ≤ s → numeric_form n →
  write_scalar (Native.Numeric p s) (PgNumeric n) = Ok (v, k) → decodable v (Rule.Decimal128 p s) →
  ∃ d, read_scalar (Rule.Decimal128 p s) NUMERICOID (numeric_typmod p s) v = Ok d ∧ same_datum (PgNumeric n) d.
Proof.
  intros Hp Hs Hform. unfold write_scalar, read_scalar.
  destruct (codec_new p s) as [c|] eqn:Hc; csimpl; [|done].
  destruct (encode_bound_datum numeric_send c n) as [u|] eqn:Hu; csimpl; [|done]. intros [= <- <-] Hno.
  destruct (numeric_written n p s c u Hc Hp Hs Hform Hu) as [Hn Hlt].
  destruct (numeric_back p s c u Hc Hp Hs Hlt Hno) as (n' & Hd & Hn'). rewrite Hd.
  exists (PgNumeric n'). split; [done|]. by exists s, u.
Qed.

Lemma timestamp_back nanos z t : - 2 ^ 63 ≤ z < 2 ^ 63 → timestamp_units nanos z = Ok t →
  let micros := if nanos then unix_micros_from_nanos t else t in
  (timestamp_try_from z = true → timestamp_from_unix_micros micros = Ok z) ∧
  (timestamptz_try_from z = true → timestamptz_from_unix_micros micros = Ok z).
Proof.
  intros Hz Ht micros. pose proof (units_back nanos z t Hz Ht) as Hm.
  unfold timestamp_from_unix_micros, timestamptz_from_unix_micros. subst micros. rewrite Hm. csimpl.
  split; by intros ->.
Qed.

(** The rule that a scalar plan was bound from. *)
Definition plan_rule (plan : Native.NativeEncoderPlan) (rule : Rule.CellRule) (oid : Oid) : Prop :=
  match plan with
  | Native.Bool => rule = Rule.Bool ∧ oid = BOOLOID
  | Native.I16 => rule = Rule.I16 ∧ oid = INT2OID
  | Native.I32Int2 => rule = Rule.I32 ∧ oid = INT2OID
  | Native.I32Int4 => rule = Rule.I32 ∧ oid = INT4OID
  | Native.I64Int8 => rule = Rule.I64 ∧ oid = INT8OID
  | Native.F32 => rule = Rule.F32 ∧ oid = FLOAT4OID
  | Native.F64Float8 => rule = Rule.F64 ∧ oid = FLOAT8OID
  | Native.Text | Native.Name => rule = Rule.Utf8
  | Native.Bytea => rule = Rule.Binary ∧ oid = BYTEAOID
  | Native.FixedBytea len => rule = Rule.FixedBinary len ∧ oid = BYTEAOID
  | Native.Uuid => rule = Rule.Uuid ∧ oid = UUIDOID
  | Native.Numeric p s => rule = Rule.Decimal128 p s ∧ oid = NUMERICOID
  | Native.Date => rule = Rule.Date32 ∧ oid = DATEOID
  | Native.Time => rule = Rule.Time64Micros ∧ oid = TIMEOID
  | Native.Timestamp nanos => rule = Rule.Timestamp nanos false ∧ oid = TIMESTAMPOID
  | Native.Timestamptz nanos => rule = Rule.Timestamp nanos true ∧ oid = TIMESTAMPTZOID
  | _ => ∃ e nullable elem, rule = Rule.List e nullable elem
  end.

Lemma bind_plan_rule rule oid plan : bind_plan rule oid = Ok plan → plan_rule plan rule oid.
Proof.
  intros Hb. destruct rule; try destruct tz; try destruct element; simpl in Hb; oids; repeat case_bool;
    simplify_eq/=; eauto.
Qed.

Lemma scalar_back {HL : PgBackendLaws B} rule oid plan d v k typmod :
  bind_plan rule oid = Ok plan → rule_ok rule → rule_typmod rule typmod → datum_ok oid d →
  write_scalar plan d = Ok (v, k) → decodable v rule →
  ∃ d', read_scalar rule oid typmod v = Ok d' ∧ same_datum d d'.
Proof.
  intros Hbind%bind_plan_rule Hrule Htypmod Hd Hw Hv.
  destruct plan, d; try discriminate Hw; simpl in Hbind; destruct_and?; subst.
  all: try (injection Hw as <- <-; eexists; done).
  - injection Hw as <- <-. destruct Hd as [_ Hz]. exists (PgInt2 z). split; [|done].
    exact (int2_back z Hz).
  - injection Hw as <- <-. exists (PgText bytes). split; [by apply text_back|done].
  - injection Hw as <- <-. exists (PgText bytes). split; [by apply text_back|done].
  - unfold write_scalar in Hw. destruct (fixed_validate _ _); [|done]. injection Hw as <- <-. by exists (PgBytea bytes).
  - destruct Hd as [_ Hform]. destruct Hrule. simpl in Htypmod. subst typmod. by eapply decimal_back.
  - simpl in Hw. destruct Hd as (_ & Hz & Hok). destruct (arrow_days_from_pg_date days) eqn:Ha; [|done].
    injection Hw as <- <-. exists (PgDate days). simpl. by rewrite (date_back days _ Hz Hok Ha).
  - simpl in Hw. unfold time_from_pg_micros in Hw. destruct Hd as [_ Hok]. case_bool; [done|].
    injection Hw as <- <-. exists (PgTime micros). simpl. unfold time_from_micros. by rewrite Hok.
  - simpl in Hw. destruct Hd as (_ & Hz & Hok). destruct (timestamp_units nanos micros) eqn:Ht; [|done].
    injection Hw as <- <-. exists (PgTimestamp micros). simpl.
    by rewrite (proj1 (timestamp_back nanos micros _ Hz Ht) Hok).
  - simpl in Hw. destruct Hd as (_ & Hz & Hok). destruct (timestamp_units nanos micros) eqn:Ht; [|done].
    injection Hw as <- <-. exists (PgTimestamptz micros). simpl.
    by rewrite (proj2 (timestamp_back nanos micros _ Hz Ht) Hok).
Qed.

(** ** Lists of values *)

(** The element kind and type of a list plan. *)
Definition plan_element (plan : Native.NativeEncoderPlan) : option (Elem.ListElementRule * Oid) :=
  match plan with
  | Native.BoolArray _ => Some (Elem.Bool, BOOLOID)
  | Native.ShortArray _ => Some (Elem.Short, INT2OID)
  | Native.Int2Array _ => Some (Elem.Int, INT2OID)
  | Native.Int4Array _ => Some (Elem.Int, INT4OID)
  | Native.Int8Array _ => Some (Elem.Long, INT8OID)
  | Native.Float4Array _ => Some (Elem.Float, FLOAT4OID)
  | Native.Float8Array _ => Some (Elem.Double, FLOAT8OID)
  | Native.TextArray _ => Some (Elem.String, TEXTOID)
  | Native.VarcharArray _ => Some (Elem.String, VARCHAROID)
  | Native.BpcharArray _ => Some (Elem.String, BPCHAROID)
  | Native.NameArray _ => Some (Elem.String, NAMEOID)
  | Native.JsonArray _ => Some (Elem.String, JSONOID)
  | _ => None
  end.

Lemma read_element_Some e oid v c d : element_cell e v = Some c → cell_to_datum oid c = Ok d →
  read_element e oid (Some v) = Ok (Some d).
Proof. unfold read_element. intros -> Hd. csimpl. by rewrite Hd. Qed.

Lemma element_back plan e oid d v : plan_element plan = Some (e, oid) → datum_ok oid d →
  write_element plan d = Some v → read_element e oid (Some v) = Ok (Some d).
Proof.
  intros Hp Hd Hw. destruct plan, d; try discriminate Hw; injection Hp as <- <-; injection Hw as <-;
    (eapply read_element_Some; [reflexivity|]); try done; try by apply text_back.
  destruct Hd as [_ Hz]. exact (int2_back z Hz).
Qed.
End valid.
