(* ===== verification/ArrowWrite.v ===== *)
(** * Arrow batches

    Models lagodb-arrow/src/datum_codec/native_list.rs (the state of a list
    encoder), datum_codec/encoder.rs (the encoder of a column), write.rs (the
    buffer that turns rows of datums into a record batch), read/list.rs and
    datum_codec/{batch,decoder}.rs (reading a row back), for the columns of
    [ArrowCodec].

    The builders and arrays of the Arrow library are the class [ArrowLib]. *)

From stdpp Require Import base list strings.
From Stdlib Require Import ZArith Lia.
From S2P Require Import Prelude.
From S2P Require Import Bytes.
From S2P Require Import DecimalNumeric.
From S2P Require Import Expressions.
From S2P Require Import ArrowCodec.
Local Open Scope Z_scope.

(** ** The Arrow library

    A builder collects optional values and [finish] turns them into an array,
    leaving the builder empty.  [ListArray::try_new] refuses a NULL element when
    the field of the elements is required, and [RecordBatch::try_new] columns
    whose types are not those of the schema. *)
Class ArrowLib (A : Type) := {
  Builder : Type;
  Array : Type;
  builder_new : Builder;
  builder_append : option A → Builder → Builder;
  builder_len : Builder → nat;
  builder_finish : Builder → Array * Builder;
  array_get : Array → nat → option A;
  array_len : Array → nat;
  has_null : Array → bool;
}.

Class ArrowLibLaws {A} (L : ArrowLib A) := {
  contents : Builder → list (option A);
  values_of : Array → list (option A);
  contents_new : contents builder_new = [];
  contents_append : ∀ o b, contents (builder_append o b) = contents b ++ [o];
  builder_len_contents : ∀ b, builder_len b = length (contents b);
  finish_values : ∀ b, values_of (builder_finish b).1 = contents b;
  finish_empty : ∀ b, contents (builder_finish b).2 = [];
  array_get_values : ∀ a i v, values_of a !! i = Some v → array_get a i = v;
  array_len_values : ∀ a, array_len a = length (values_of a);
  has_null_values : ∀ a, has_null a = existsb (λ v, match v with None => true | Some _ => false end) (values_of a);
}.

(** ** Encoders *)
Section encoders.
Context {B : PgBackend} {PT : PgTypes} {AL : ArrowLib (Scalar Float)}.
Local Notation Conv := (result ArrowConversionError).

(** [BoundListEncoder]; the marker and its layout are the plan. *)
Record BoundListEncoder := mkListEncoder {
  values : Builder;
  offsets : list Z;
  nulls : list bool;
}.

Definition list_encoder_new : BoundListEncoder := mkListEncoder builder_new [0] [].

(** [append_values]. *)
Definition append_values (vs : list (option (Scalar Float))) (b : Builder) : Builder :=
  foldl (λ b v, builder_append v b) b vs.

Definition element_values (plan : Native.NativeEncoderPlan) (es : list (option PgDatum)) : option (list (option (Scalar Float))) :=
  mapM (λ e, match e with None => Some None | Some d => Some <$> write_element plan d end) es.

(** The elements are appended before the offset is checked.  An array whose
    elements are not of the bound type is outside the contract. *)
Definition list_append (plan : Native.NativeEncoderPlan) (enc : BoundListEncoder) (d : PgDatum)
    : BoundListEncoder * Conv Z :=
  match d with
  | PgArray linear es =>
      if negb linear then (enc, Err IncompatibleColumnType)
      else
        match element_values plan es with
        | None => (enc, Err InvariantViolated)
        | Some vs =>
            let b := append_values vs (values enc) in
            let offset := Z.of_nat (builder_len b) in
            if i32_max <? offset
            then (mkListEncoder b (offsets enc) (nulls enc), Err ValueOutOfRange)
            else (mkListEncoder b (offsets enc ++ [offset]) (nulls enc ++ [true]), Ok (elements_bytes plan vs))
        end
  | _ => (enc, Err InvariantViolated)
  end.

Definition list_append_null (enc : BoundListEncoder) : BoundListEncoder :=
  mkListEncoder (values enc) (offsets enc ++ [default 0 (last (offsets enc))]) (nulls enc ++ [false]).

(** A finished column: an array of scalars, or a list array. *)
Inductive Column :=
| ScalarColumn (type : DataType) (array : Array)
| ListColumn (type : DataType) (list_offsets : list Z) (list_values : Array) (validity : list bool).

(** [ListArray::try_new]: [None] is Arrow's error. *)
Definition list_array_try_new (type : DataType) (nullable : bool) (os : list Z) (vs : Array) (ns : list bool)
    : option Column :=
  if negb nullable && has_null vs then None else Some (ListColumn type os vs ns).

(** The nullability of the element field of a list plan. *)
Definition plan_nullable (plan : Native.NativeEncoderPlan) : bool :=
  match plan_type plan with DList _ nullable => nullable | _ => true end.

Definition list_finish (plan : Native.NativeEncoderPlan) (enc : BoundListEncoder) : BoundListEncoder * option Column :=
  let '(vs, b) := builder_finish (values enc) in
  (mkListEncoder b [0] [], list_array_try_new (plan_type plan) (plan_nullable plan) (offsets enc) vs (nulls enc)).

(** [DatumEncoder]. *)
Inductive DatumEncoder :=
| ScalarEncoder (plan : Native.NativeEncoderPlan) (builder : Builder)
| ListEncoder (plan : Native.NativeEncoderPlan) (state : BoundListEncoder).

(** [NativeEncoderPlan::materialize]: a decimal encoder binds its codec. *)
Definition materialize (plan : Native.NativeEncoderPlan) : Conv DatumEncoder :=
  match plan with
  | Native.Numeric precision scale =>
      _ ← map_err (of_decimal_fault ∘ Codec) (codec_new precision scale);
      Ok (ScalarEncoder plan builder_new)
  | _ => Ok (if is_list_plan plan then ListEncoder plan list_encoder_new else ScalarEncoder plan builder_new)
  end.

Definition append (enc : DatumEncoder) (d : PgDatum) : DatumEncoder * Conv Z :=
  match enc with
  | ScalarEncoder plan b =>
      match write_scalar plan d with
      | Ok (v, bytes) => (ScalarEncoder plan (builder_append (Some v) b), Ok bytes)
      | Err e => (enc, Err e)
      end
  | ListEncoder plan st => let '(st', r) := list_append plan st d in (ListEncoder plan st', r)
  end.

Definition append_null (enc : DatumEncoder) : DatumEncoder :=
  match enc with
  | ScalarEncoder plan b => ScalarEncoder plan (builder_append None b)
  | ListEncoder plan st => ListEncoder plan (list_append_null st)
  end.

Definition finish (enc : DatumEncoder) : DatumEncoder * option Column :=
  match enc with
  | ScalarEncoder plan b =>
      let '(a, b') := builder_finish b in (ScalarEncoder plan b', Some (ScalarColumn (plan_type plan) a))
  | ListEncoder plan st => let '(st', c) := list_finish plan st in (ListEncoder plan st', c)
  end.

Definition encoder_len (enc : DatumEncoder) : nat :=
  match enc with ScalarEncoder _ b => builder_len b | ListEncoder _ st => length (nulls st) end.

(** ** The buffer of rows *)

(** A field of the Arrow schema: its type and whether it admits NULL. *)
Record Field := mkField { field_type : DataType; field_nullable : bool }.

Record RecordBatch := mkBatch { batch_columns : list Column; num_rows : nat }.

Definition column_type (c : Column) : DataType :=
  match c with ScalarColumn t _ | ListColumn t _ _ _ => t end.

Definition column_has_null (c : Column) : bool :=
  match c with ScalarColumn _ a => has_null a | ListColumn _ _ _ ns => existsb negb ns end.

Definition column_len (c : Column) : nat :=
  match c with ScalarColumn _ a => array_len a | ListColumn _ _ _ ns => length ns end.

(** [RecordBatch::try_new]. *)
Definition field_admits (f : Field) (c : Column) : bool :=
  bool_decide (column_type c = field_type f) && (field_nullable f || negb (column_has_null c)).

Definition batch_try_new (schema : list Field) (cs : list Column) (rows : nat) : option RecordBatch :=
  if bool_decide (length schema = length cs) && forallb (λ fc, field_admits fc.1 fc.2) (zip schema cs)
     && forallb (λ c, bool_decide (column_len c = rows)) cs
  then Some (mkBatch cs rows) else None.

(** [RecordBatch::new_empty]. *)
Definition batch_new_empty (schema : list Field) : RecordBatch :=
  let empty := (builder_finish builder_new).1 in
  mkBatch ((λ f, match field_type f with
                 | DList _ _ as t => ListColumn t [0] empty []
                 | t => ScalarColumn t empty
                 end) <$> schema) 0.

Record BoundDatumBuffer := mkBuffer {
  schema : list Field;
  columns : list DatumEncoder;
  rows : nat;
  estimated_bytes : Z;
}.

(** [BoundDatumBuffer::new] from the encoder plans of its columns; the server's
    encoding was checked by the caller. *)
Definition buffer_new (fields : list Field) (plans : list Native.NativeEncoderPlan) : Conv BoundDatumBuffer :=
  if negb (bool_decide (length plans = length fields)) then Err InvariantViolated
  else encs ← collect materialize plans; Ok (mkBuffer fields encs 0 0).

(** One row, column by column.  An error leaves the columns before it one value
    longer. *)
Fixpoint append_columns (encs : list DatumEncoder) (vs : list (option PgDatum)) (bytes : Z)
    : list DatumEncoder * Z * Conv unit :=
  match encs, vs with
  | enc :: encs', None :: vs' =>
      let '(encs'', bytes', r) := append_columns encs' vs' bytes in (append_null enc :: encs'', bytes', r)
  | enc :: encs', Some d :: vs' =>
      match append enc d with
      | (enc', Ok n) =>
          let '(encs'', bytes', r) := append_columns encs' vs' (bytes + n) in (enc' :: encs'', bytes', r)
      | (enc', Err e) => (enc' :: encs', bytes, Err e)
      end
  | _, _ => (encs, bytes, Ok ())
  end.

Definition append_row (b : BoundDatumBuffer) (vs : list (option PgDatum)) : BoundDatumBuffer * Conv unit :=
  let '(encs, bytes, r) := append_columns (columns b) vs (estimated_bytes b) in
  match r with
  | Ok _ => (mkBuffer (schema b) encs (S (rows b)) bytes, Ok ())
  | Err e => (mkBuffer (schema b) encs (rows b) bytes, Err e)
  end.

Fixpoint append_rows (b : BoundDatumBuffer) (rs : list (list (option PgDatum))) : BoundDatumBuffer * Conv unit :=
  match rs with
  | [] => (b, Ok ())
  | r :: rs' =>
      match append_row b r with
      | (b', Ok _) => append_rows b' rs'
      | (b', Err e) => (b', Err e)
      end
  end.

(** The loop of [finish_columns]; the length assertion is a panic. *)
Fixpoint finish_columns (rows : nat) (encs : list DatumEncoder) : list DatumEncoder * Conv (list Column) :=
  match encs with
  | [] => ([], Ok [])
  | enc :: encs' =>
      if negb (bool_decide (encoder_len enc = rows)) then (encs, Err AssertionFailed)
      else
        match finish enc with
        | (enc', None) => (enc' :: encs', Err ArrowError)
        | (enc', Some c) =>
            let '(encs'', r) := finish_columns rows encs' in (enc' :: encs'', cons c <$> r)
        end
  end.

Definition finish_batch (b : BoundDatumBuffer) : BoundDatumBuffer * Conv RecordBatch :=
  if bool_decide (rows b = 0%nat) then (b, Ok (batch_new_empty (schema b)))
  else
    match finish_columns (rows b) (columns b) with
    | (encs, Err e) => (mkBuffer (schema b) encs (rows b) (estimated_bytes b), Err e)
    | (encs, Ok cs) =>
        (mkBuffer (schema b) encs 0 0, ok_or (batch_try_new (schema b) cs (rows b)) ArrowError)
    end.

Definition MAX_BUFFERED_ROWS : Z := 65536.

Definition should_flush (b : BoundDatumBuffer) (max_bytes : Z) : bool :=
  (max_bytes <=? estimated_bytes b) || (MAX_BUFFERED_ROWS <=? Z.of_nat (rows b)).

(** ** Reading *)

(** A column of the decoder: its rule and its PostgreSQL type. *)
Record DecodedColumn := mkDecoded {
  rule : Rule.CellRule;
  target_oid : Oid;
  target_typmod : Z;
  src_col : nat;
  dest : nat;
}.

(** [ListReader::range]. *)
Definition list_range (os : list Z) (row : nat) : option (nat * nat) :=
  start ← os !! row;
  stop ← os !! S row;
  Some (Z.to_nat start, (Z.to_nat stop - Z.to_nat start)%nat).

Definition read_column (r : Rule.CellRule) (oid typmod : Z) (c : Column) (row : nat) : Conv (option PgDatum) :=
  match c, r with
  | ScalarColumn _ a, _ =>
      match array_get a row with
      | None => Ok None
      | Some v => Some <$> read_scalar r oid typmod v
      end
  | ListColumn _ os vs ns, Rule.List e _ elem_oid =>
      match ns !! row with
      | Some true =>
          '(start, len) ← ok_or (list_range os row) InvariantViolated;
          Some <$> read_list e elem_oid (array_get vs <$> seq start len)
      | _ => Ok None
      end
  | ListColumn _ _ _ _, _ => Err ArrowTypeMismatch
  end.

(** [ArrowColumnDecoder::bind]: every mapped column exists and has the type of
    its rule. *)
Definition decoder_bind (ds : list DecodedColumn) (b : RecordBatch) : Conv unit :=
  if forallb (λ d, match batch_columns b !! src_col d with
                   | Some c => rule_accepts (rule d) (column_type c)
                   | None => false
                   end) ds
  then Ok () else Err ArrowTypeMismatch.

(** [write_row] into the slot's positions. *)
Definition write_datum (b : RecordBatch) (row : nat) (slot : list (option PgDatum)) (d : DecodedColumn)
    : Conv (list (option PgDatum)) :=
  c ← ok_or (batch_columns b !! src_col d) ArrowTypeMismatch;
  v ← read_column (rule d) (target_oid d) (target_typmod d) c row;
  Ok (<[dest d := v]> slot).

Definition write_row (ds : list DecodedColumn) (b : RecordBatch) (row : nat) (slot : list (option PgDatum))
    : Conv (list (option PgDatum)) :=
  if bool_decide (num_rows b ≤ row)%nat then Err InvariantViolated
  else try_fold (write_datum b row) slot ds.
End encoders.

(** ** What an encoder holds *)
Section holds.
Context {B : PgBackend} {PT : PgTypes} {AL : ArrowLib (Scalar Float)} {ALL : ArrowLibLaws AL}.

Definition scalar_written (plan : Native.NativeEncoderPlan) (r : option PgDatum) (c : option (Scalar Float)) : Prop :=
  match r, c with
  | None, None => True
  | Some d, Some v => ∃ k, write_scalar plan d = Ok (v, k)
  | _, _ => False
  end.

Definition list_written (plan : Native.NativeEncoderPlan) (r : option PgDatum) (vs : list (option (Scalar Float))) : Prop :=
  match r with
  | None => vs = []
  | Some (PgArray true es) => element_values plan es = Some vs
  | Some _ => False
  end.

Definition is_present (r : option PgDatum) : bool := match r with Some _ => true | None => false end.

(** The offsets of the lists [vss]: how much lies before each, and the total. *)
Definition offsets_of {A} (vss : list (list A)) : list Z :=
  (λ k, Z.of_nat (length (concat (take k vss)))) <$> seq 0 (S (length vss)).

Definition holds (enc : DatumEncoder) (plan : Native.NativeEncoderPlan) (hist : list (option PgDatum)) : Prop :=
  match enc with
  | ScalarEncoder p b => p = plan ∧ is_list_plan plan = false ∧ Forall2 (scalar_written plan) hist (contents b)
  | ListEncoder p st => p = plan ∧ is_list_plan plan = true ∧
      ∃ vss, Forall2 (list_written plan) hist vss ∧ contents (values st) = concat vss ∧
        nulls st = is_present <$> hist ∧ offsets st = offsets_of vss
  end.

Lemma contents_append_values vs b : contents (append_values vs b) = contents b ++ vs.
Proof.
  unfold append_values. revert b. induction vs as [|v vs IH]; intros b; [by rewrite app_nil_r|]. simpl.
  rewrite IH, contents_append. by rewrite <- app_assoc.
Qed.

Lemma concat_snoc {A} (vss : list (list A)) vs : concat (vss ++ [vs]) = concat vss ++ vs.
Proof. rewrite concat_app. simpl. by rewrite app_nil_r. Qed.

Lemma offsets_of_snoc {A} (vss : list (list A)) vs :
  offsets_of (vss ++ [vs]) = offsets_of vss ++ [Z.of_nat (length (concat (vss ++ [vs])))].
Proof.
  unfold offsets_of. rewrite length_app, Nat.add_1_r, (seq_S (S (length vss))), fmap_app. f_equal.
  - apply list_fmap_ext. intros i k Hk. apply lookup_seq in Hk as [-> Hk]. by rewrite take_app_le by lia.
  - simpl. by rewrite take_ge by (rewrite length_app; simpl; lia).
Qed.

Lemma last_offsets_of {A} (vss : list (list A)) : last (offsets_of vss) = Some (Z.of_nat (length (concat vss))).
Proof.
  induction vss as [|vs vss _] using rev_ind; [done|]. by rewrite offsets_of_snoc, last_snoc.
Qed.

Lemma lookup_offsets_of {A} (vss : list (list A)) k : (k ≤ length vss)%nat →
  offsets_of vss !! k = Some (Z.of_nat (length (concat (take k vss)))).
Proof.
  intros Hk. unfold offsets_of. rewrite list_lookup_fmap, lookup_seq_lt by lia. done.
Qed.

Lemma holds_new plan enc : materialize plan = Ok enc → holds enc plan [].
Proof.
  assert (holds (if is_list_plan plan then ListEncoder plan list_encoder_new else ScalarEncoder plan builder_new) plan [])
    as Hnew.
  { destruct (is_list_plan plan) eqn:Hl; simpl.
    - split_and!; [done..|]. exists []. by rewrite contents_new.
    - by rewrite contents_new. }
  destruct plan; simpl in *; try (by intros [= <-]).
  destruct (codec_new _ _); [|done]. by intros [= <-].
Qed.

Lemma holds_append plan enc hist d enc' n :
  holds enc plan hist → append enc d = (enc', Ok n) → holds enc' plan (hist ++ [Some d]).
Proof.
  destruct enc as [p b|p st]; simpl.
  - intros (-> & Hl & Hh). destruct (write_scalar plan d) as [[v k]|] eqn:Hw; [|done]. intros [= <- _]. simpl.
    rewrite contents_append. split_and!; [done..|]. apply Forall2_app; [done|]. constructor; [|done]. by exists k.
  - intros (-> & Hl & vss & Hh & Hc & Hn & Ho). unfold list_append. destruct d; try done. destruct linear; [|done]. simpl.
    destruct (element_values plan elements) as [vs|] eqn:Hvs; [|done]. case_bool; [done|]. intros [= <- _]. simpl.
    split_and!; [done..|]. exists (vss ++ [vs]). split_and!.
    + apply Forall2_app; [done|]. by constructor.
    + by rewrite contents_append_values, Hc, concat_snoc.
    + by rewrite Hn, fmap_app.
    + rewrite Ho, offsets_of_snoc, builder_len_contents, contents_append_values, Hc.
      by rewrite concat_snoc.
Qed.

Lemma holds_null plan enc hist : holds enc plan hist → holds (append_null enc) plan (hist ++ [None]).
Proof.
  destruct enc as [p b|p st]; simpl.
  - intros (-> & Hl & Hh). rewrite contents_append. split_and!; [done..|]. apply Forall2_app; [done|]. by constructor.
  - intros (-> & Hl & vss & Hh & Hc & Hn & Ho). split_and!; [done..|]. exists (vss ++ [[]]). split_and!.
    + apply Forall2_app; [done|]. by constructor.
    + by rewrite Hc, concat_snoc, app_nil_r.
    + by rewrite Hn, fmap_app.
    + by rewrite Ho, last_offsets_of, offsets_of_snoc, concat_snoc, app_nil_r.
Qed.

Lemma holds_len plan enc hist : holds enc plan hist → encoder_len enc = length hist.
Proof.
  destruct enc as [p b|p st]; simpl.
  - intros (_ & _ & Hh). by rewrite builder_len_contents, <- (Forall2_length _ _ _ Hh).
  - intros (_ & _ & vss & _ & _ & -> & _). by rewrite length_fmap.
Qed.

(** ** What a finished column holds *)
Definition column_holds (c : Column) (plan : Native.NativeEncoderPlan) (hist : list (option PgDatum)) : Prop :=
  column_type c = plan_type plan ∧ column_len c = length hist ∧
  match c with
  | ScalarColumn _ a => is_list_plan plan = false ∧ Forall2 (scalar_written plan) hist (values_of a)
  | ListColumn _ os vs ns => is_list_plan plan = true ∧
      ∃ vss, Forall2 (list_written plan) hist vss ∧ values_of vs = concat vss ∧
        ns = is_present <$> hist ∧ os = offsets_of vss
  end.

(** Whether no array among the values has a NULL element, where the field of the
    elements is required. *)
Definition elements_admitted (plan : Native.NativeEncoderPlan) (hist : list (option PgDatum)) : bool :=
  plan_nullable plan || forallb (λ v, match v with Some (PgArray _ es) => forallb is_present es | _ => true end) hist.

Lemma element_values_present plan es vs : element_values plan es = Some vs →
  existsb (λ v, match v with None => true | Some _ => false end) vs = negb (forallb is_present es).
Proof.
  intros Hvs%mapM_Some_1. induction Hvs as [|o v es vs Hv _ IH]; [done|]. simpl. rewrite IH.
  destruct o as [d|]; simpl in *; [|by injection Hv as <-]. by destruct (write_element plan d); simplify_eq/=.
Qed.

Lemma lists_have_null plan hist vss : Forall2 (list_written plan) hist vss →
  existsb (λ v, match v with None => true | Some _ => false end) (concat vss) =
  negb (forallb (λ v, match v with Some (PgArray _ es) => forallb is_present es | _ => true end) hist).
Proof.
  induction 1 as [|o vs hist vss Ho _ IH]; [done|]. simpl. rewrite existsb_app, IH, negb_andb. f_equal.
  destruct o as [d|]; simpl in Ho; [|by subst]. destruct d; try done. destruct linear; [|done].
  by apply element_values_present in Ho.
Qed.

Lemma scalar_elements_admitted plan hist : is_list_plan plan = false → elements_admitted plan hist = true.
Proof. by destruct plan. Qed.

(** A finished encoder is empty; its column holds the values, unless a required
    element is NULL. *)
Lemma holds_finish plan enc hist : holds enc plan hist →
  ∃ enc', holds enc' plan [] ∧
    if elements_admitted plan hist then ∃ c, finish enc = (enc', Some c) ∧ column_holds c plan hist
    else finish enc = (enc', None).
Proof.
  intros Hh. pose proof (holds_len _ _ _ Hh) as Hlen. destruct enc as [p b|p st]; simpl in *.
  - destruct Hh as (-> & Hl & Hh). destruct (builder_finish b) as [a b'] eqn:Hf.
    pose proof (finish_values b) as Ha. pose proof (finish_empty b) as Hb. rewrite Hf in Ha, Hb. simpl in Ha, Hb.
    exists (ScalarEncoder plan b'). rewrite (scalar_elements_admitted plan hist Hl). simpl. rewrite Hb. split; [done|].
    eexists. split; [done|]. split; [done|]. simpl. rewrite Ha, array_len_values, Ha. by rewrite builder_len_contents in Hlen.
  - destruct Hh as (-> & Hl & vss & Hh & Hc & Hn & Ho). unfold list_finish.
    destruct (builder_finish (values st)) as [a b'] eqn:Hf.
    pose proof (finish_values (values st)) as Ha. pose proof (finish_empty (values st)) as Hb.
    rewrite Hf in Ha, Hb. simpl in Ha, Hb. exists (ListEncoder plan (mkListEncoder b' [0] [])). split.
    { split_and!; [done..|]. by exists []. }
    unfold elements_admitted, list_array_try_new. rewrite has_null_values, Ha, Hc, (lists_have_null plan hist vss Hh).
    rewrite <- negb_orb. destruct (_ || _) eqn:Hif; simpl; [|done]. eexists. split; [done|].
    split; [done|]. split; [done|]. split; [done|]. exists vss. by rewrite Ha.
Qed.

Lemma column_nulls c plan hist : column_holds c plan hist → column_has_null c = negb (forallb is_present hist).
Proof.
  intros (_ & _ & Hc). destruct c as [t a|t os vs ns]; simpl.
  - destruct Hc as [_ Hh]. rewrite has_null_values. induction Hh as [|o v hist vs Hv _ IH]; [done|]. simpl.
    rewrite IH, negb_andb. by destruct o, v.
  - destruct Hc as (_ & vss & _ & _ & -> & _). induction hist as [|o hist IH]; [done|]. csimpl. by rewrite IH, negb_andb.
Qed.

(** ** Reading back *)

(** The values that a column takes: datums of its type, or linear arrays of
    datums of its element type. *)
Definition value_ok (oid : Oid) (plan : Native.NativeEncoderPlan) (v : option PgDatum) : Prop :=
  match v, plan_element plan with
  | None, _ => True
  | Some d, None => datum_ok oid d
  | Some d, Some (_, elem) =>
      ∃ es, d = PgArray true es ∧ Forall (λ e, from_option (datum_ok elem) True e) es
  end.

(** A decimal that was written is read through the NUMERIC wire buffer, which
    does not hold every coefficient of the widest columns. *)
Definition value_fits (r : Rule.CellRule) (plan : Native.NativeEncoderPlan) (v : option PgDatum) : Prop :=
  match v with
  | Some d => match write_scalar plan d with Ok (x, _) => decodable x r | Err _ => True end
  | None => True
  end.

(** A column whose types were resolved and bound. *)
Record bound_column (f : Field) (oid typmod : Z) (r : Rule.CellRule) (plan : Native.NativeEncoderPlan) : Prop := {
  bound_rule : ∃ col, from_pg_type oid = Some col ∧ resolve_cell_rule (field_type f) col = Ok r;
  bound_plan : bind_plan r oid = Ok plan;
  bound_typmod : rule_typmod r typmod;
}.

#[export] Instance decodable_dec v r : Decision (decodable v r).
Proof. unfold decodable, overflows_buffer. destruct r, v; apply _. Defined.

#[export] Instance value_fits_dec r plan v : Decision (value_fits r plan v).
Proof. unfold value_fits. destruct v as [d|]; [destruct (write_scalar plan d) as [[x k]|]|]; apply _. Defined.

Lemma decimal_panics {HL : PgBackendLaws B} r oid plan typmod d x k :
  bind_plan r oid = Ok plan → rule_ok r → datum_ok oid d → write_scalar plan d = Ok (x, k) → ¬ decodable x r →
  read_scalar r oid typmod x = Err (DecimalFault Panic).
Proof.
  intros Hb%bind_plan_rule Hr Hd Hw Hno. destruct r as [| | | | | | | | | | | | |p s|]; try done.
  destruct x as [| | | | | | | | | | |u]; try done. destruct plan; simpl in Hb; try naive_solver.
  destruct Hb as [[= <- <-] ->], Hr as [Hp Hs]. destruct d as [| | | | | | | | | |n| | | |]; try done. destruct Hd as [_ Hn].
  unfold write_scalar in Hw. unfold read_scalar. destruct (codec_new p s) as [c|] eqn:Hc; csimpl in *; [|done].
  destruct (encode_bound_datum numeric_send c n) as [u'|] eqn:Hu; csimpl in Hw; [|done]. injection Hw as -> _.
  destruct (numeric_written n p s c u Hc Hp Hs Hn Hu) as [_ Hlt].
  destruct (codec_new_Ok p s c Hc Hp) as (-> & Hp38 & Hsp). pose proof (precision_fits p ltac:(lia)) as Hfit.
  destruct (from_decimal128_spec u s) as [Hpanic _];
    [unfold i128_min; unfold i128_max in *; lia|unfold MAX_DEC_DIGITS; lia|].
  unfold decode_datum_with_typmod. simpl scale. rewrite Hpanic; [done|]. by apply dec_stable in Hno.
Qed.

Lemma resolved_rule_ok dt col r : resolve_cell_rule dt col = Ok r → rule_ok r.
Proof.
  intros Hr. destruct r as [| | | | | | | | | | | | |p s|]; try done. simpl.
  destruct dt; simpl in Hr; unfold require_pg in Hr; try (repeat case_match; discriminate Hr).
  - case_bool; [done|]. destruct (_ || _) eqn:Hif' in Hr; [done|]. injection Hr as -> ->. lia.
  - destruct col; try done. destruct (for_arrow_type dt); simpl in Hr; [|done]. by case_bool.
Qed.

Lemma from_pg_type_array oid elem : from_pg_type oid = Some (Col.Array elem) → get_element_type oid = elem.
Proof. unfold from_pg_type. intros H. by repeat (case_bool; simplify_eq). Qed.

Lemma resolved_list dt oid col e nullable elem : from_pg_type oid = Some col →
  resolve_cell_rule dt col = Ok (Rule.List e nullable elem) → elem = get_element_type oid.
Proof.
  intros Hc Hr. destruct dt; simpl in Hr; unfold require_pg in Hr; try (repeat case_match; discriminate Hr).
  destruct col as [| | | | | | | | | | | | | | |o]; try done. destruct (for_arrow_type dt); simpl in Hr; [|done].
  case_bool; [|done]. injection Hr as _ _ <-. symmetry. by apply from_pg_type_array.
Qed.

Lemma list_plan_rule {HL : PgBackendLaws B} e nullable oid plan :
  bind_plan (Rule.List e nullable (get_element_type oid)) oid = Ok plan → plan_element plan = Some (e, get_element_type oid).
Proof.
  pose proof array_elements as Hel. repeat (apply Forall_cons in Hel as [? Hel]). simpl in *.
  intros Hb. destruct e; simpl in Hb; oids; simpl; congruence.
Qed.

Lemma elements_back plan e elem es vs : plan_element plan = Some (e, elem) →
  Forall (λ o, from_option (datum_ok elem) True o) es → element_values plan es = Some vs →
  collect (read_element e elem) vs = Ok es.
Proof.
  intros Hp Hes Hvs. apply mapM_Some_1 in Hvs. revert Hes.
  induction Hvs as [|o v es vs Hv _ IH]; [done|]. rewrite Forall_cons. intros [Ho Hes]. simpl.
  destruct o as [d|]; simpl in *.
  - destruct (write_element plan d) as [x|] eqn:Hx; [|done]. injection Hv as <-.
    rewrite (element_back plan e elem d x Hp Ho Hx). csimpl. by rewrite (IH Hes).
  - injection Hv as <-. csimpl. by rewrite (IH Hes).
Qed.

Lemma concat_lookup_split {A} (vss : list (list A)) i vs : vss !! i = Some vs →
  concat vss = concat (take i vss) ++ vs ++ concat (drop (S i) vss).
Proof. intros Hi. rewrite <- (take_drop_middle vss i vs Hi) at 1. rewrite concat_app. done. Qed.

Lemma array_slice a pre vs post : values_of a = pre ++ vs ++ post →
  array_get a <$> seq (length pre) (length vs) = vs.
Proof.
  intros Ha. apply list_eq. intros j. rewrite list_lookup_fmap. destruct (decide (j < length vs)%nat) as [Hj|Hj].
  - rewrite lookup_seq_lt by done. simpl. destruct (lookup_lt_is_Some_2 vs j Hj) as [v Hv]. rewrite Hv. f_equal.
    apply array_get_values. rewrite Ha, lookup_app_r by lia. by rewrite Nat.add_sub_swap, Nat.sub_diag, Nat.add_0_l, lookup_app_l by lia.
  - rewrite lookup_seq_ge by lia. symmetry. apply lookup_ge_None. lia.
Qed.

Lemma list_range_of {A} (vss : list (list A)) i vs : vss !! i = Some vs →
  list_range (offsets_of vss) i = Some (length (concat (take i vss)), length vs).
Proof.
  intros Hi. pose proof (lookup_lt_Some _ _ _ Hi). unfold list_range.
  rewrite !lookup_offsets_of by lia. csimpl. rewrite !Nat2Z.id, (take_S_r vss i vs Hi), concat_snoc, length_app.
  do 2 f_equal. lia.
Qed.

Lemma scalar_plan_element plan : is_list_plan plan = false → plan_element plan = None.
Proof. by destruct plan. Qed.

Lemma list_plan_is_list r oid plan : bind_plan r oid = Ok plan → is_list_plan plan = true →
  ∃ e nullable elem, r = Rule.List e nullable elem.
Proof. intros Hp%bind_plan_rule Hl. by destruct plan. Qed.

Lemma column_back {HL : PgBackendLaws B} f oid typmod r plan c hist i v :
  bound_column f oid typmod r plan → column_holds c plan hist → hist !! i = Some v → value_ok oid plan v →
  if decide (value_fits r plan v) then ∃ v', read_column r oid typmod c i = Ok v' ∧ option_Forall2 same_datum v v'
  else read_column r oid typmod c i = Err (DecimalFault Panic).
Proof.
  intros [(col & Hcol & Hres) Hplan Htypmod] (_ & _ & Hc) Hi Hok. pose proof (resolved_rule_ok _ _ _ Hres) as Hr.
  destruct c as [t a|t os vs ns].
  - destruct Hc as [Hl Hh]. destruct (Forall2_lookup_l _ _ _ _ _ Hh Hi) as (x & Hx & Hw). simpl.
    rewrite (array_get_values a i x Hx). destruct v as [d|], x as [x|]; try done; [|exists None; split; [done|constructor]].
    destruct Hw as [k Hw]. unfold value_ok in Hok. rewrite (scalar_plan_element plan Hl) in Hok.
    case_decide as Hf; simpl in Hf; rewrite Hw in Hf; [|by rewrite (decimal_panics r oid plan typmod d x k)].
    destruct (scalar_back r oid plan d x k typmod Hplan Hr Htypmod Hok Hw Hf) as (d' & -> & Hs).
    exists (Some d'). split; [done|]. by constructor.
  - destruct Hc as (Hl & vss & Hh & Hvs & -> & ->). destruct (Forall2_lookup_l _ _ _ _ _ Hh Hi) as (xs & Hxs & Hw).
    destruct (list_plan_is_list r oid plan Hplan Hl) as (e & nullable & elem & ->).
    rewrite (resolved_list _ _ _ _ _ _ Hcol Hres) in *. pose proof (list_plan_rule e nullable oid plan Hplan) as Hpe.
    rewrite decide_True by (unfold value_fits; destruct v as [d|]; [destruct (write_scalar plan d) as [[]|]|]; done).
    simpl. rewrite list_lookup_fmap, Hi. simpl. destruct v as [d|]; [|exists None; split; [done|constructor]]. simpl.
    rewrite (list_range_of vss i xs Hxs). csimpl. unfold value_ok in Hok. rewrite Hpe in Hok. destruct Hok as (es & -> & Hes).
    rewrite (array_slice vs (concat (take i vss)) xs (concat (drop (S i) vss))) by (by rewrite Hvs; apply concat_lookup_split).
    unfold read_list. rewrite (elements_back plan e _ es xs Hpe Hes Hw). eexists. split; [done|]. by constructor.
Qed.

(** ** The buffer *)
Definition history (j : nat) (rs : list (list (option PgDatum))) : list (option PgDatum) := omap (.!! j) rs.

Record buffer_holds (b : BoundDatumBuffer) (fields : list Field) (plans : list Native.NativeEncoderPlan)
    (rs : list (list (option PgDatum))) : Prop := {
  bh_schema : schema b = fields;
  bh_rows : rows b = length rs;
  bh_columns : Forall2 (λ enc jp, holds enc jp.2 (history jp.1 rs)) (columns b) (imap pair plans);
}.

Lemma history_snoc j rs r v : r !! j = Some v → history j (rs ++ [r]) = history j rs ++ [v].
Proof. intros Hv. unfold history. rewrite omap_app. simpl. by rewrite Hv. Qed.

Lemma length_history j rs n : Forall (λ r, length r = n) rs → (j < n)%nat → length (history j rs) = length rs.
Proof.
  intros Hrs Hj. induction Hrs as [|r rs Hr _ IH]; [done|]. unfold history in *. csimpl.
  destruct (lookup_lt_is_Some_2 r j ltac:(lia)) as [v ->]. csimpl. by rewrite IH.
Qed.

Lemma history_lookup j rs n i r v : Forall (λ r, length r = n) rs → rs !! i = Some r → r !! j = Some v →
  history j rs !! i = Some v.
Proof.
  intros Hrs Hi Hv. revert i Hi. induction Hrs as [|r' rs Hr' Hrs' IH]; intros i Hi; [done|]. unfold history in *.
  csimpl. destruct i as [|i]; simpl in Hi; [injection Hi as ->; by rewrite Hv|].
  assert (j < n)%nat as Hj.
  { rewrite Forall_forall in Hrs'. rewrite <- (Hrs' r) by (by eapply list_elem_of_lookup_2). by eapply lookup_lt_Some. }
  destruct (lookup_lt_is_Some_2 r' j ltac:(lia)) as [v' ->]. simpl. by apply IH.
Qed.

Lemma append_columns_holds k encs plans rs r vs bytes encs' bytes' :
  Forall2 (λ enc jp, holds enc jp.2 (history jp.1 rs)) encs (imap (λ j p, ((k + j)%nat, p)) plans) →
  (∀ j, vs !! j = r !! (k + j)%nat) → length vs = length plans →
  append_columns encs vs bytes = (encs', bytes', Ok ()) →
  Forall2 (λ enc jp, holds enc jp.2 (history jp.1 (rs ++ [r]))) encs' (imap (λ j p, ((k + j)%nat, p)) plans).
Proof.
  revert k plans vs bytes encs' bytes'. induction encs as [|enc encs IH]; intros k plans vs bytes encs' bytes' Hh Hr Hlen Ha.
  { apply Forall2_nil_inv_l in Hh. destruct plans; [|done]. destruct vs; [|done]. injection Ha as <- _. constructor. }
  destruct plans as [|p plans]; [by apply Forall2_nil_inv_r in Hh|]. destruct vs as [|v vs]; [done|].
  rewrite imap_cons in *. apply Forall2_cons in Hh as [Henc Hencs]. rewrite Nat.add_0_r in *. simpl in *.
  rewrite (imap_ext _ (λ j q, ((S k + j)%nat, q)) plans) in Hencs |- * by (intros; simpl; f_equal; lia).
  assert (r !! k = Some v) as Hv by (by specialize (Hr 0%nat); simpl in Hr; rewrite Hr, Nat.add_0_r).
  assert (∀ j, vs !! j = r !! (S k + j)%nat) as Hrest by (intros j; specialize (Hr (S j)); simpl in Hr; rewrite Hr; f_equal; lia).
  destruct v as [d|].
  - destruct (append enc d) as [enc1 [n|e]] eqn:He; [|done].
    destruct (append_columns encs vs (bytes + n)) as [[encs1 b1] res] eqn:Hs. injection Ha as <- <- ->.
    constructor; [simpl; rewrite (history_snoc _ _ _ _ Hv); by eapply holds_append|]. eapply IH; eauto.
  - destruct (append_columns encs vs bytes) as [[encs1 b1] res] eqn:Hs. injection Ha as <- <- ->.
    constructor; [simpl; rewrite (history_snoc _ _ _ _ Hv); by apply holds_null|]. eapply IH; eauto.
Qed.

Lemma buffer_new_holds fields plans b : buffer_new fields plans = Ok b → buffer_holds b fields plans [].
Proof.
  unfold buffer_new. case_bool; [done|]. destruct (collect materialize plans) as [encs|] eqn:He; [|done].
  intros [= <-]. split; [done..|]. simpl. apply collect_Forall2 in He. clear Hif.
  change (imap pair plans) with (imap (λ j p, ((0 + j)%nat, p)) plans). generalize 0%nat as k.
  induction He as [|p enc plans encs Hp _ IH]; intros k; [constructor|]. rewrite imap_cons.
  constructor; [by apply holds_new|].
  rewrite (imap_ext _ (λ j q, ((S k + j)%nat, q)) plans) by (intros; simpl; f_equal; lia). apply IH.
Qed.

Lemma append_row_holds b fields plans rs r b' : buffer_holds b fields plans rs → length r = length plans →
  append_row b r = (b', Ok ()) → buffer_holds b' fields plans (rs ++ [r]).
Proof.
  intros [<- Hrows Hcols] Hlen. unfold append_row.
  destruct (append_columns (columns b) r (estimated_bytes b)) as [[encs bytes] [u|]] eqn:Ha; [|done].
  destruct u. intros [= <-]. split; simpl; [done|by rewrite length_app, Hrows, Nat.add_1_r|].
  by apply (append_columns_holds 0 (columns b) plans rs r r (estimated_bytes b) encs bytes).
Qed.

Lemma append_rows_holds b fields plans rs0 rs b' : buffer_holds b fields plans rs0 →
  Forall (λ r, length r = length plans) rs → append_rows b rs = (b', Ok ()) → buffer_holds b' fields plans (rs0 ++ rs).
Proof.
  revert b rs0. induction rs as [|r rs IH]; intros b rs0 Hb Hrs; simpl.
  - intros [= <-]. by rewrite app_nil_r.
  - apply Forall_cons in Hrs as [Hr Hrs]. destruct (append_row b r) as [b1 [u|]] eqn:Ha; [|done]. destruct u. intros Hb'.
    rewrite (assoc_L (++) rs0 [r] rs : rs0 ++ r :: rs = _). apply (IH b1); [|done|done]. by eapply append_row_holds.
Qed.

Lemma finish_columns_spec n encs jps rs :
  Forall2 (λ enc jp, holds enc jp.2 (history jp.1 rs)) encs jps →
  Forall (λ jp : nat * Native.NativeEncoderPlan, length (history jp.1 rs) = n) jps →
  if forallb (λ jp, elements_admitted jp.2 (history jp.1 rs)) jps then
    ∃ encs' cs, finish_columns n encs = (encs', Ok cs) ∧
      Forall2 (λ enc (jp : nat * Native.NativeEncoderPlan), holds enc jp.2 []) encs' jps ∧
      Forall2 (λ c jp, column_holds c jp.2 (history jp.1 rs)) cs jps
  else (finish_columns n encs).2 = Err ArrowError.
Proof.
  induction 1 as [|enc jp encs jps Henc _ IH]; intros Hjps; [by exists [], []|].
  apply Forall_cons in Hjps as [Hn Hjps]. specialize (IH Hjps). simpl.
  rewrite bool_decide_true by (by rewrite (holds_len _ _ _ Henc)). simpl.
  destruct (holds_finish _ _ _ Henc) as (enc' & Hh & Hfin). destruct (elements_admitted _ _); simpl; [|by rewrite Hfin].
  destruct Hfin as (c & -> & Hcol). destruct (forallb _ jps).
  - destruct IH as (encs' & cs & -> & He & Hc). exists (enc' :: encs'), (c :: cs). split_and!; [done|by constructor..].
  - destruct (finish_columns n encs) as [encs' r]. simpl in IH. by rewrite IH.
Qed.

Lemma write_datums_ok b row (P : DecodedColumn → option PgDatum → Prop) ds slot :
  Forall (λ d, ∃ c v, batch_columns b !! src_col d = Some c ∧
    read_column (rule d) (target_oid d) (target_typmod d) c row = Ok v ∧ P d v) ds →
  NoDup (dest <$> ds) → Forall (λ d, dest d < length slot)%nat ds →
  ∃ slot', try_fold (write_datum b row) slot ds = Ok slot' ∧
    (∀ k, k ∉ dest <$> ds → slot' !! k = slot !! k) ∧
    Forall (λ d, ∃ v, slot' !! dest d = Some v ∧ P d v) ds.
Proof.
  revert slot. induction ds as [|d ds IH]; intros slot Hds Hnd Hlt; [exists slot; by repeat constructor|].
  apply Forall_cons in Hds as [(c & v & Hc & Hv & HP) Hds]. csimpl in Hnd. apply NoDup_cons in Hnd as [Hd Hnd].
  apply Forall_cons in Hlt as [Hlt Hlts].
  assert (write_datum b row slot d = Ok (<[dest d := v]> slot)) as Hw by (unfold write_datum; rewrite Hc; csimpl; by rewrite Hv).
  simpl. rewrite Hw. csimpl.
  destruct (IH (<[dest d := v]> slot) Hds Hnd) as (slot' & Hf & Hother & Hall).
  { by rewrite length_insert. }
  exists slot'. split; [done|]. split.
  - intros k [Hk Hks]%not_elem_of_cons. rewrite (Hother k Hks). by apply list_lookup_insert_ne.
  - constructor; [|done]. exists v. split; [|done]. rewrite (Hother _ Hd). by apply list_lookup_insert_eq.
Qed.

Lemma write_datums_err b row e ds slot :
  Forall (λ d, ∃ c, batch_columns b !! src_col d = Some c ∧
    ((∃ v, read_column (rule d) (target_oid d) (target_typmod d) c row = Ok v) ∨
     read_column (rule d) (target_oid d) (target_typmod d) c row = Err e)) ds →
  Exists (λ d, ∃ c, batch_columns b !! src_col d = Some c ∧
    read_column (rule d) (target_oid d) (target_typmod d) c row = Err e) ds →
  try_fold (write_datum b row) slot ds = Err e.
Proof.
  intros Hds. revert slot. induction Hds as [|d ds (c & Hc & Hr) _ IH]; intros slot He; [by apply Exists_nil in He|].
  assert (write_datum b row slot d = (v ← read_column (rule d) (target_oid d) (target_typmod d) c row; Ok (<[dest d := v]> slot)))
    as Hw by (unfold write_datum; by rewrite Hc).
  simpl. rewrite Hw. destruct Hr as [[v Hv]|Hv]; rewrite Hv in *; csimpl; [|done]. apply IH. apply Exists_cons in He as [(c' & Hc' & He)|He]; [|done]. simplify_eq. congruence.
Qed.

Lemma bind_plan_accepts r oid plan : bind_plan r oid = Ok plan → rule_accepts r (plan_type plan) = true.
Proof.
  intros Hb. destruct r; try destruct tz; try destruct element; simpl in Hb; oids; repeat case_bool;
    simplify_eq/=; try done; try (by rewrite !Z.eqb_refl); by destruct nanos.
Qed.

(** ** The columns of a table *)
Record ColumnSpec := mkSpecColumn {
  cs_field : Field;
  cs_oid : Oid;
  cs_typmod : Z;
  cs_rule : Rule.CellRule;
  cs_plan : Native.NativeEncoderPlan;
}.

Definition spec_bound (sp : ColumnSpec) : Prop :=
  bound_column (cs_field sp) (cs_oid sp) (cs_typmod sp) (cs_rule sp) (cs_plan sp).

Definition spec_takes (sp : ColumnSpec) (v : option PgDatum) : Prop := value_ok (cs_oid sp) (cs_plan sp) v.

(** Whether Arrow takes the values of a column into a batch of its schema: the
    encoder builds the type of the field, a required field has no NULL, and a
    list whose elements are required has no NULL element. *)
Definition column_admitted (sp : ColumnSpec) (hist : list (option PgDatum)) : bool :=
  elements_admitted (cs_plan sp) hist &&
  (bool_decide (plan_type (cs_plan sp) = field_type (cs_field sp)) &&
   (field_nullable (cs_field sp) || forallb is_present hist)).

Definition batch_admitted (specs : list ColumnSpec) (rs : list (list (option PgDatum))) : bool :=
  forallb (λ jsp, column_admitted jsp.2 (history jsp.1 rs)) (imap pair specs).

(** Whether the value of a row that a decoder column reads fits the wire buffer. *)
Definition row_fits (specs : list ColumnSpec) (r : list (option PgDatum)) (d : DecodedColumn) : Prop :=
  match specs !! src_col d, r !! src_col d with
  | Some sp, Some v => value_fits (cs_rule sp) (cs_plan sp) v
  | _, _ => True
  end.

#[export] Instance row_fits_dec specs r d : Decision (row_fits specs r d).
Proof. unfold row_fits. destruct (specs !! src_col d), (r !! src_col d); apply _. Defined.

(** A decoder column that reads the column of a table by its own rule. *)
Definition decodes_spec (specs : list ColumnSpec) (d : DecodedColumn) : Prop :=
  ∃ sp, specs !! src_col d = Some sp ∧ rule d = cs_rule sp ∧ target_oid d = cs_oid sp ∧ target_typmod d = cs_typmod sp.

Lemma forallb_and {A} (f g : A → bool) l : forallb (λ x, f x && g x) l = forallb f l && forallb g l.
Proof. induction l as [|x l IH]; [done|]. simpl. rewrite IH. by destruct (f x), (g x), (forallb f l). Qed.

Lemma indexed_plans specs : imap pair (cs_plan <$> specs) = (λ jsp, (jsp.1, cs_plan jsp.2)) <$> imap pair specs.
Proof. by rewrite imap_fmap, fmap_imap. Qed.

Lemma indexed_snd {A} (l : list A) : (imap pair l).*2 = l.
Proof. rewrite fmap_imap. apply list_eq. intros i. rewrite list_lookup_imap. by destruct (l !! i). Qed.

Lemma fields_admit jsps cs rs :
  Forall2 (λ c jsp, column_holds c (cs_plan jsp.2) (history jsp.1 rs)) cs jsps →
  forallb (λ fc, field_admits fc.1 fc.2) (zip (cs_field ∘ snd <$> jsps) cs) =
  forallb (λ jsp, bool_decide (plan_type (cs_plan jsp.2) = field_type (cs_field jsp.2)) &&
                  (field_nullable (cs_field jsp.2) || forallb is_present (history jsp.1 rs))) jsps.
Proof.
  induction 1 as [|c jsp cs jsps Hc _ IH]; [done|]. csimpl. rewrite IH.
  unfold field_admits. rewrite (column_nulls _ _ _ Hc), negb_involutive. by destruct Hc as [-> _].
Qed.

Lemma histories_long specs rs : Forall (λ r, length r = length specs) rs →
  Forall (λ jp : nat * Native.NativeEncoderPlan, length (history jp.1 rs) = length rs) (imap pair (cs_plan <$> specs)).
Proof.
  intros Hrs. apply Forall_forall. intros jp [j Hj]%list_elem_of_lookup. rewrite list_lookup_imap in Hj.
  apply fmap_Some in Hj as (p & Hp & ->). apply lookup_lt_Some in Hp. rewrite length_fmap in Hp. by eapply length_history.
Qed.

Lemma columns_admitted specs cs rs : Forall (λ r, length r = length specs) rs →
  Forall2 (λ c jp, column_holds c jp.2 (history jp.1 rs)) cs (imap pair (cs_plan <$> specs)) →
  batch_try_new (cs_field <$> specs) cs (length rs) =
    if forallb (λ jsp, bool_decide (plan_type (cs_plan jsp.2) = field_type (cs_field jsp.2)) &&
                       (field_nullable (cs_field jsp.2) || forallb is_present (history jsp.1 rs))) (imap pair specs)
    then Some (mkBatch cs (length rs)) else None.
Proof.
  intros Hrs Hcs. unfold batch_try_new. pose proof (Forall2_length _ _ _ Hcs) as Hlen. rewrite length_imap, length_fmap in Hlen.
  rewrite (bool_decide_true (length _ = _)) by (by rewrite length_fmap). simpl.
  rewrite (proj2 (forallb_forall (λ c, bool_decide (column_len c = length rs)) cs)), andb_true_r.
  - rewrite indexed_plans in Hcs. apply Forall2_fmap_r in Hcs.
    rewrite <- (indexed_snd specs) at 1. rewrite <- list_fmap_compose. by rewrite (fields_admit (imap pair specs) cs rs).
  - intros c [j Hc]%list_elem_of_In%list_elem_of_lookup. destruct (Forall2_lookup_l _ _ _ _ _ Hcs Hc) as ([k p] & Hk & _ & -> & _).
    apply bool_decide_true. pose proof (histories_long specs rs Hrs) as Hl. rewrite Forall_forall in Hl.
    by apply (Hl (k, p)), list_elem_of_lookup_2 with j.
Qed.

Lemma spec_rows specs rs : Forall (λ r, Forall2 spec_takes specs r) rs → Forall (λ r, length r = length specs) rs.
Proof. intros Hrs. eapply Forall_impl; [exact Hrs|]. simpl. intros r Hr. symmetry. by eapply Forall2_length. Qed.

Lemma finish_batch_spec specs b rs :
  Forall (λ r, length r = length specs) rs → rs ≠ [] →
  buffer_holds b (cs_field <$> specs) (cs_plan <$> specs) rs →
  if batch_admitted specs rs then
    ∃ b' cs, finish_batch b = (b', Ok (mkBatch cs (length rs))) ∧ estimated_bytes b' = 0 ∧
      buffer_holds b' (cs_field <$> specs) (cs_plan <$> specs) [] ∧
      Forall2 (λ c jp, column_holds c jp.2 (history jp.1 rs)) cs (imap pair (cs_plan <$> specs))
  else (finish_batch b).2 = Err ArrowError.
Proof.
  intros Hrs Hne [Hschema Hrows Hcols].
  pose proof (finish_columns_spec (length rs) (columns b) _ rs Hcols (histories_long specs rs Hrs)) as Hspec.
  unfold finish_batch. rewrite bool_decide_false by (rewrite Hrows; by destruct rs). rewrite Hrows, Hschema.
  unfold batch_admitted, column_admitted. rewrite forallb_and.
  assert (forallb (λ jp, elements_admitted jp.2 (history jp.1 rs)) (imap pair (cs_plan <$> specs)) =
    forallb (λ jsp, elements_admitted (cs_plan jsp.2) (history jsp.1 rs)) (imap pair specs)) as Hel.
  { rewrite indexed_plans. induction (imap pair specs) as [|jsp jsps IH]; [done|]. csimpl. by rewrite IH. }
  rewrite Hel in Hspec. destruct (forallb (λ jsp, elements_admitted _ _) (imap pair specs)); simpl.
  - destruct Hspec as (encs & cs & -> & He & Hc).
    rewrite (columns_admitted specs cs rs) by done.
    match goal with |- if ?admitted then _ else _ => destruct admitted end; simpl; [|done].
    by exists (mkBuffer (cs_field <$> specs) encs 0 0), cs.
  - destruct (finish_columns (length rs) (columns b)) as [encs r]. simpl in Hspec. by rewrite Hspec.
Qed.

Lemma spec_column specs cs rs j sp :
  Forall2 (λ c jp, column_holds c jp.2 (history jp.1 rs)) cs (imap pair (cs_plan <$> specs)) →
  specs !! j = Some sp → ∃ c, cs !! j = Some c ∧ column_holds c (cs_plan sp) (history j rs).
Proof.
  intros Hcs Hj. destruct (Forall2_lookup_r _ _ _ j (j, cs_plan sp) Hcs) as (c & Hc & Hh); [|by exists c].
  by rewrite list_lookup_imap, list_lookup_fmap, Hj.
Qed.

Lemma decoder_bind_ok specs cs rs n ds : Forall spec_bound specs →
  Forall2 (λ c jp, column_holds c jp.2 (history jp.1 rs)) cs (imap pair (cs_plan <$> specs)) →
  Forall (decodes_spec specs) ds → decoder_bind ds (mkBatch cs n) = Ok ().
Proof.
  intros Hsp Hcs Hds. unfold decoder_bind. rewrite (proj2 (forallb_forall _ _)); [done|].
  intros d Hd%list_elem_of_In. rewrite Forall_forall in Hds. destruct (Hds d Hd) as (sp & Hj & -> & _). simpl.
  destruct (spec_column _ _ _ _ _ Hcs Hj) as (c & -> & -> & _). rewrite Forall_forall in Hsp.
  eapply bind_plan_accepts, (bound_plan _ _ _ _ _ (Hsp sp _)). Unshelve. by eapply list_elem_of_lookup_2.
Qed.

(** What a decoder column reads of a row. *)
Lemma decoded_back {HL : PgBackendLaws B} specs cs rs i r d : Forall spec_bound specs →
  Forall (λ r, Forall2 spec_takes specs r) rs → rs !! i = Some r →
  Forall2 (λ c jp, column_holds c jp.2 (history jp.1 rs)) cs (imap pair (cs_plan <$> specs)) → decodes_spec specs d →
  ∃ c, cs !! src_col d = Some c ∧
    if decide (row_fits specs r d) then
      ∃ v, read_column (rule d) (target_oid d) (target_typmod d) c i = Ok v ∧
        ∃ w, r !! src_col d = Some w ∧ option_Forall2 same_datum w v
    else read_column (rule d) (target_oid d) (target_typmod d) c i = Err (DecimalFault Panic).
Proof.
  intros Hsp Hrs Hi Hcs (sp & Hj & -> & -> & ->). rewrite Forall_forall in Hsp.
  pose proof (spec_rows _ _ Hrs) as Hlen. rewrite Forall_forall in Hrs.
  destruct (Forall2_lookup_l _ _ _ _ _ (Hrs r (list_elem_of_lookup_2 _ _ _ Hi)) Hj) as (w & Hw & Hok).
  destruct (spec_column _ _ _ _ _ Hcs Hj) as (c & Hc & Hh). exists c. split; [done|].
  pose proof (column_back _ _ _ _ _ c (history (src_col d) rs) i w (Hsp sp (list_elem_of_lookup_2 _ _ _ Hj)) Hh
    (history_lookup _ _ _ _ _ _ Hlen Hi Hw) Hok) as Hback.
  assert (row_fits specs r d ↔ value_fits (cs_rule sp) (cs_plan sp) w) as Hfits by (unfold row_fits; by rewrite Hj, Hw).
  do 2 case_decide; try tauto. destruct Hback as (v & Hv & Hs). exists v. split; [done|]. by exists w.
Qed.

Lemma write_row_back {HL : PgBackendLaws B} specs cs rs i r ds slot : Forall spec_bound specs →
  Forall (λ r, Forall2 spec_takes specs r) rs → rs !! i = Some r →
  Forall2 (λ c jp, column_holds c jp.2 (history jp.1 rs)) cs (imap pair (cs_plan <$> specs)) →
  Forall (decodes_spec specs) ds → NoDup (dest <$> ds) → Forall (λ d, dest d < length slot)%nat ds →
  if decide (Forall (row_fits specs r) ds) then
    ∃ slot', write_row ds (mkBatch cs (length rs)) i slot = Ok slot' ∧
      (∀ k, k ∉ dest <$> ds → slot' !! k = slot !! k) ∧
      Forall (λ d, ∃ v, slot' !! dest d = Some v ∧ ∃ w, r !! src_col d = Some w ∧ option_Forall2 same_datum w v) ds
  else write_row ds (mkBatch cs (length rs)) i slot = Err (DecimalFault Panic).
Proof.
  intros Hsp Hrs Hi Hcs Hds Hnd Hlt. unfold write_row. pose proof (lookup_lt_Some _ _ _ Hi).
  rewrite bool_decide_false by (simpl; lia). case_decide as Hf.
  - apply (write_datums_ok _ _ (λ d v, ∃ w, r !! src_col d = Some w ∧ option_Forall2 same_datum w v)); [|done..].
    apply Forall_forall. intros d Hd. rewrite Forall_forall in Hf, Hds.
    destruct (decoded_back specs cs rs i r d Hsp Hrs Hi Hcs (Hds d Hd)) as (c & Hc & Hr).
    rewrite decide_True in Hr by auto. destruct Hr as (v & Hv & Hw). by exists c, v.
  - apply write_datums_err.
    + eapply Forall_impl; [exact Hds|]. intros d Hd.
      destruct (decoded_back specs cs rs i r d Hsp Hrs Hi Hcs Hd) as (c & Hc & Hr). exists c. split; [done|].
      case_decide; [|by right]. destruct Hr as (v & Hv & _). left. by exists v.
    + apply not_Forall_Exists in Hf; [|apply _]. apply Exists_exists in Hf as (d & Hd & Hf). apply Exists_exists.
      exists d. split; [done|]. rewrite Forall_forall in Hds.
      destruct (decoded_back specs cs rs i r d Hsp Hrs Hi Hcs (Hds d Hd)) as (c & Hc & Hr). exists c.
      by rewrite decide_False in Hr by done.
Qed.

(** C18. What becomes of rows written through the batch buffer, for columns
    whose types were resolved and bound and rows (of the table's width, with
    values of the columns' types) that were appended to a fresh buffer without
    error.  [finish_batch] succeeds exactly when every encoder builds the type
    of its field, no required field has a NULL and no list with required
    elements a NULL element ([batch_admitted]); otherwise it returns Arrow's
    error.  When it succeeds, the buffer is empty again and takes further rows,
    and a decoder of any selection of the columns accepts the batch.  For each
    row whose selected decimals fit the NUMERIC wire buffer ([row_fits]) the
    decoder writes the datum that was appended into the position of each
    selected column (the same datum, or an equal numeric value at the column's
    scale), leaving every other position of the slot as it was; a row with a
    decimal that does not fit, though it was appended, panics when it is read. *)
Theorem batch_roundtrip {HL : PgBackendLaws B} specs b0 rs b1 :
  Forall spec_bound specs → buffer_new (cs_field <$> specs) (cs_plan <$> specs) = Ok b0 → rs ≠ [] →
  Forall (λ r, Forall2 spec_takes specs r) rs → append_rows b0 rs = (b1, Ok ()) →
  if batch_admitted specs rs then
    ∃ b2 batch, finish_batch b1 = (b2, Ok batch) ∧ num_rows batch = length rs ∧
    estimated_bytes b2 = 0 ∧ buffer_holds b2 (cs_field <$> specs) (cs_plan <$> specs) [] ∧
    ∀ ds, Forall (decodes_spec specs) ds → decoder_bind ds batch = Ok () ∧
      ∀ i r slot, rs !! i = Some r → NoDup (dest <$> ds) → Forall (λ d, dest d < length slot)%nat ds →
      if decide (Forall (row_fits specs r) ds) then
        ∃ slot', write_row ds batch i slot = Ok slot' ∧
          (∀ k, k ∉ dest <$> ds → slot' !! k = slot !! k) ∧
          Forall (λ d, ∃ v, slot' !! dest d = Some v ∧ ∃ w, r !! src_col d = Some w ∧ option_Forall2 same_datum w v) ds
      else write_row ds batch i slot = Err (DecimalFault Panic)
  else (finish_batch b1).2 = Err ArrowError.
Proof.
  intros Hsp Hnew Hne Hrs Happ. pose proof (spec_rows _ _ Hrs) as Hlen.
  pose proof (append_rows_holds b0 _ _ [] rs b1 (buffer_new_holds _ _ _ Hnew)) as Hb1. rewrite length_fmap in Hb1.
  pose proof (finish_batch_spec specs b1 rs Hlen Hne (Hb1 Hlen Happ)) as Hfin.
  destruct (batch_admitted specs rs); [|done]. destruct Hfin as (b2 & cs & -> & Hbytes & Hb2 & Hcs).
  exists b2, (mkBatch cs (length rs)). split_and!; [done..|]. intros ds Hds.
  split; [by eapply decoder_bind_ok|]. intros i r slot Hi Hnd Hlt. by eapply write_row_back.
Qed.

(** A column of [LargeUtf8] or [Binary] resolves and binds, but its encoder
    builds another type: no row that is buffered for it becomes a batch. *)
Lemma wide_column_never_finishes dt nullable oid typmod r plan rs :
  (dt = DLargeUtf8 ∧ oid = TEXTOID) ∨ (dt = DBinary ∧ oid = BYTEAOID) →
  (col ← ok_or (from_pg_type oid) UnsupportedColumnType; resolve_cell_rule dt col) = Ok r → bind_plan r oid = Ok plan →
  batch_admitted [mkSpecColumn (mkField dt nullable) oid typmod r plan] rs = false.
Proof.
  intros Hdt Hr Hp. unfold batch_admitted, column_admitted. simpl.
  assert (plan_type plan ≠ dt) as Hty.
  { destruct Hdt as [[-> ->]|[-> ->]]; vm_compute in Hr; injection Hr as <-; vm_compute in Hp; by injection Hp as <-. }
  by rewrite bool_decide_false, andb_false_r by done.
Qed.
End holds.

(** ** A reference library *)
#[export] Instance list_arrow {A} : ArrowLib A := {|
  Builder := list (option A);
  Array := list (option A);
  builder_new := [];
  builder_append o b := b ++ [o];
  builder_len := length;
  builder_finish b := (b, []);
  array_get a i := a !! i ≫= id;
  array_len := length;
  has_null a := existsb (λ v, match v with None => true | Some _ => false end) a;
|}.

#[export] Instance list_arrow_laws {A} : ArrowLibLaws (@list_arrow A).
Proof. refine {| contents b := b : list (option A); values_of a := a : list (option A) |}; try done. simpl. by intros a i v ->. Defined.

(** A table of a required [int4] and an [int2[]], whose first row has an array
    with a NULL element and whose second row no array. *)
Definition sample_specs : list ColumnSpec :=
  [mkSpecColumn (mkField DInt32 false) INT4OID (-1) Rule.I32 Native.I32Int4;
   mkSpecColumn (mkField (DList DInt32 true) true) INT2ARRAYOID (-1) (Rule.List Elem.Int true INT2OID) (Native.Int2Array true)].

Definition sample_rows : list (list (option (PgValue (list byte) (option Z)))) :=
  [[Some (PgInt4 7); Some (PgArray true [Some (PgInt2 (-3)); None])]; [Some (PgInt4 8); None]].

Definition sample_buffer : @BoundDatumBuffer reference_backend list_arrow :=
  mkBuffer (cs_field <$> sample_specs)
    [ScalarEncoder Native.I32Int4 builder_new; ListEncoder (Native.Int2Array true) list_encoder_new] 0 0.

Lemma batch_roundtrip_witness :
  let B := reference_backend in let PT := reference_types in let filled := append_rows sample_buffer sample_rows in
  buffer_new (cs_field <$> sample_specs) (cs_plan <$> sample_specs) = Ok sample_buffer ∧ filled.2 = Ok () ∧
  batch_admitted sample_specs sample_rows = true ∧ batch_admitted sample_specs [[None; None]] = false ∧
  ∃ b2 batch, finish_batch filled.1 = (b2, Ok batch) ∧ num_rows batch = 2%nat.
Proof.
  intros B PT filled. split; [reflexivity|]. split; [reflexivity|]. split; [reflexivity|]. split; [reflexivity|].
  destruct (@batch_roundtrip B PT list_arrow list_arrow_laws reference_backend_laws sample_specs sample_buffer
    sample_rows filled.1) as (b2 & batch & Hf & Hn & _).
  - repeat constructor; by eexists.
  - reflexivity.
  - done.
  - repeat constructor; simpl; try lia; try done.
    eexists. split; [done|]. repeat constructor; simpl; lia.
  - reflexivity.
  - exists b2, batch. split; [exact Hf|exact Hn].
Defined.
