(* ===== verification/PredicateMeaning.v ===== *)
(** * The meaning of planned Iceberg predicates

    A planned predicate speaks of the values that a data file stores, by field
    id, and of the values of the runtime slots.  The file gives it a three-valued
    meaning over the Arrow values of a stored row, and shows that the planner of
    [PredicatePolicy] keeps its promises: on every stored row that the reader of
    [ArrowCodec] turns into the row PostgreSQL sees, an exact plan has the meaning
    of the fragment and a conservative one holds wherever the fragment does. *)

From stdpp Require Import base list strings.
From Stdlib Require Import ZArith Lia.
From S2P Require Import Prelude.
From S2P Require Import Bytes.
From S2P Require Import DecimalNumeric.
From S2P Require Import PredicateTree.
From S2P Require Import Expressions.
From S2P Require Import PlanData.
From S2P Require Import IcebergPredicate.
From S2P Require Import PredicatePolicy.
From S2P Require Import ArrowCodec.
Local Open Scope Z_scope.

(** ** Types of the stored columns

    The Arrow type of an Iceberg type, as the Iceberg library documents it. *)
Class IcebergArrow := { arrow_type : PrimitiveType → DataType }.

Class IcebergArrowLaws (IA : IcebergArrow) : Prop := {
  arrow_type_documented : ∀ t, arrow_type t =
    match t with
    | TBoolean => DBoolean
    | TInt => DInt32
    | TLong => DInt64
    | TFloat => DFloat32
    | TDouble => DFloat64
    | TDecimal p s => DDecimal128 p s
    | TDate => DDate32
    | TTime => DTime64 Microsecond
    | TTimestamp => DTimestamp Microsecond false
    | TTimestamptz => DTimestamp Microsecond true
    | TTimestampNs => DTimestamp Nanosecond false
    | TTimestamptzNs => DTimestamp Nanosecond true
    | TString => DUtf8
    | TUuid => DFixedSizeBinary 16
    | TFixed w => DFixedSizeBinary w
    | TBinary => DLargeBinary
    end;
}.

Section meaning.
Context {B : PgBackend} {PT : PgTypes}.
Local Notation PScalar := (Scalar Float).

(** A row of a data file: the values of its fields, [None] is NULL. *)
Definition StoredRow : Type := Z → option PScalar.

(** The width of the values of an array. *)
Definition scalar_fits (dt : DataType) (x : PScalar) : Prop :=
  match x with
  | AI16 z => - 2 ^ 15 ≤ z < 2 ^ 15
  | AI32 z | ADate32 z => - 2 ^ 31 ≤ z < 2 ^ 31
  | AI64 z | ATime64 z | ATimestamp z => - 2 ^ 63 ≤ z < 2 ^ 63
  | ADecimal u => i128_min ≤ u ≤ i128_max
  | ABytes bs => match dt with DFixedSizeBinary w => blen bs = w | _ => True end
  | _ => True
  end.

(** ** Meaning *)

(** How a stored value compares with a PostgreSQL value of a slot. *)
Definition stored_compare (t : PlannedValueType) (x : PScalar) (d : PgDatum) : option comparison :=
  match t, x, d with
  | VBoolean, ABool b, PgBool b' => Some (Z.b2z b ?= Z.b2z b')
  | VUuid, ABytes bs, PgUuid bs' | (VBinary | VFixedBinary _), ABytes bs, PgBytea bs'
  | VString, AString bs, PgText bs' => Some (bytes_compare bs bs')
  | VInt2, AI32 z, PgInt2 z' | VInt4, AI32 z, PgInt4 z' | VInt8ToInt, AI32 z, PgInt8 z'
  | VInt2ToLong, AI64 z, PgInt2 z' | VInt4ToLong, AI64 z, PgInt4 z' | VInt8, AI64 z, PgInt8 z' => Some (z ?= z')
  | VDate, ADate32 z, PgDate z' => Some (z ?= z' + PG_EPOCH_DAYS_DIFF)
  | VTimestamp Microseconds, ATimestamp z, PgTimestamp z'
  | VTimestamptz Microseconds, ATimestamp z, PgTimestamptz z' => Some (z ?= z' + PG_EPOCH_USECS_DIFF)
  | VTimestamp Nanoseconds, ATimestamp z, PgTimestamp z'
  | VTimestamptz Nanoseconds, ATimestamp z, PgTimestamptz z' => Some (z / 1000 ?= z' + PG_EPOCH_USECS_DIFF)
  | VDecimal128 s, ADecimal u, PgNumeric n =>
      match encode_comparison_datum numeric_send (semantics_codec s) n with
      | Ok v => Some (finite_compare u v)
      | Err _ => None
      end
  | _, _, _ => None
  end.

(** The column type that a value type compares with, and the values it takes. *)
Definition storage_type (t : PlannedValueType) : PrimitiveType :=
  match t with
  | VBoolean => TBoolean
  | VUuid => TUuid
  | VBinary => TBinary
  | VFixedBinary w => TFixed w
  | VInt2ToLong | VInt4ToLong | VInt8 => TLong
  | VInt2 | VInt4 | VInt8ToInt => TInt
  | VDate => TDate
  | VTimestamp Microseconds => TTimestamp
  | VTimestamp Nanoseconds => TTimestampNs
  | VTimestamptz Microseconds => TTimestamptz
  | VTimestamptz Nanoseconds => TTimestamptzNs
  | VString => TString
  | VDecimal128 s => TDecimal (sem_precision s) (sem_scale s)
  end.

Definition value_matches (t : PlannedValueType) (d : PgDatum) : Prop :=
  match t, d with
  | VBoolean, PgBool _ | VUuid, PgUuid _ | (VBinary | VFixedBinary _), PgBytea _ | VString, PgText _ => True
  | (VInt2 | VInt2ToLong), PgInt2 z => - 2 ^ 15 ≤ z < 2 ^ 15
  | (VInt4 | VInt4ToLong), PgInt4 z | VDate, PgDate z => - 2 ^ 31 ≤ z < 2 ^ 31
  | (VInt8 | VInt8ToInt), PgInt8 z | VTimestamp _, PgTimestamp z | VTimestamptz _, PgTimestamptz z => - 2 ^ 63 ≤ z < 2 ^ 63
  | VDecimal128 s, PgNumeric n => semantics_new (sem_precision s) (sem_scale s) = Some s ∧
      ∃ v, encode_comparison_datum numeric_send (semantics_codec s) n = Ok v
  | _, _ => False
  end.

Definition scalar_matches (t : PlannedValueType) (x : PScalar) : Prop :=
  match t, x with
  | VBoolean, ABool _ | (VUuid | VBinary | VFixedBinary _), ABytes _ | VString, AString _
  | (VInt2ToLong | VInt4ToLong | VInt8), AI64 _ | VDate, ADate32 _ | (VTimestamp _ | VTimestamptz _), ATimestamp _
  | VDecimal128 _, ADecimal _ => True
  | (VInt2 | VInt4 | VInt8ToInt), AI32 z => - 2 ^ 31 ≤ z < 2 ^ 31
  | _, _ => False
  end.

Definition scalar_nan (x : PScalar) : bool := match x with AF32 f | AF64 f => float_nan f | _ => false end.
Definition scalar_truth (x : PScalar) : bool := match x with ABool b => b | _ => false end.
Definition is_null {A} (x : option A) : bool := match x with None => true | Some _ => false end.

Definition compare_node (op : PlannedComparisonOperator) (t : PlannedValueType) (x : option PScalar)
    (d : option PgDatum) : tri :=
  x ← x; d ← d; kind_holds (operator_kind op) <$> stored_compare t x d.

Fixpoint node_eval (stored : StoredRow) (values : list (option PgDatum)) (n : Node.PlannedIcebergNode) : tri :=
  let at_ (c : PlannedIcebergColumn) := stored (field_id c) in
  let slot (v : RuntimeValueId) : option PgDatum := mjoin (values !! v) in
  match n with
  | Node.AlwaysTrue => Some true
  | Node.AlwaysFalse => Some false
  | Node.Comparison op c v t => compare_node op t (at_ c) (slot v)
  | Node.BooleanTest k c => Some (boolean_test k (scalar_truth <$> at_ c))
  | Node.IsNull c => Some (is_null (at_ c))
  | Node.IsNotNull c => Some (negb (is_null (at_ c)))
  | Node.IsNan c => scalar_nan <$> at_ c
  | Node.IsNotNan c => negb ∘ scalar_nan <$> at_ c
  | Node.StartsWith c p =>
      x ← at_ c; d ← slot p;
      match x, d with AString v, PgText p => Some (is_prefix p v) | _, _ => None end
  | Node.InSet c s t =>
      array ← slot s;
      kany ((λ y, compare_node PEq t (at_ c) y) <$> elements pg_scalars array)
  | Node.And cs => kall (node_eval stored values <$> cs)
  | Node.Or cs => kany (node_eval stored values <$> cs)
  | Node.Not c => knot (node_eval stored values c)
  end.
End meaning.

(** ** Reading a stored row *)
Section reading.
Context {B : PgBackend} {PT : PgTypes} {IA : IcebergArrow}.

Definition is_scalar_oid (oid : Oid) : bool :=
  existsb (Z.eqb oid) [BOOLOID; INT2OID; INT4OID; INT8OID; FLOAT4OID; FLOAT8OID; DATEOID; TIMEOID; TIMESTAMPOID;
    TIMESTAMPTZOID; NUMERICOID; TEXTOID; VARCHAROID; UUIDOID; BYTEAOID].

(** A stored value and the datum that the reader of the column makes of it.  The
    producer of an [int2] column preserves its domain. *)
Record read_as (ft : PrimitiveType) (oid typmod : Z) (x : Scalar Float) (d : PgDatum) : Prop := {
  read_rule : ∃ col r, from_pg_type oid = Some col ∧ resolve_cell_rule (arrow_type ft) col = Ok r ∧
    read_scalar r oid typmod x = Ok d;
  read_fits : scalar_fits (arrow_type ft) x;
  read_int2 : ∀ z, oid = INT2OID → x = AI32 z → - 2 ^ 15 ≤ z < 2 ^ 15;
}.

(** No reader makes a scalar of a nested value. *)
Definition column_conforms (ft : FieldType) (oid typmod : Z) (x : option (Scalar Float)) (d : option PgDatum) : Prop :=
  match x, d with
  | None, None => True
  | Some x, Some d => match ft with Some ft => read_as ft oid typmod x d | None => is_scalar_oid oid = false end
  | _, _ => False
  end.

(** The row that PostgreSQL reads from a stored row. *)
Definition row_conforms (pl : IcebergFilterPlanner) (stored : StoredRow) (r : Z → option PgDatum) : Prop :=
  ∀ attno column field oid typmod, layout_column (planner_layout pl) attno = Ok column →
    field_by_name (planner_schema pl) (live_name column) = Some field →
    attr_types (planner_layout pl) !! Z.to_nat (attno - 1) = Some (oid, typmod) →
    column_conforms (nested_type field) oid typmod (stored (nested_id field)) (r attno).

(** What a read value is; a timestamp of nanoseconds is read down to its
    microsecond. *)
Definition stored_micros (nanos : bool) (z : Z) : Z := if nanos then z / 1000 else z.

Definition timestamp_reads (nanos tz : bool) (oid : Oid) (x : Scalar Float) (d : PgDatum) : Prop :=
  ∃ z, x = ATimestamp z ∧ - 2 ^ 63 ≤ stored_micros nanos z - PG_EPOCH_USECS_DIFF < 2 ^ 63 ∧
    if tz then d = PgTimestamptz (stored_micros nanos z - PG_EPOCH_USECS_DIFF) ∧ oid = TIMESTAMPTZOID
    else d = PgTimestamp (stored_micros nanos z - PG_EPOCH_USECS_DIFF) ∧ oid = TIMESTAMPOID.

Definition reads_to (ft : PrimitiveType) (oid typmod : Z) (x : Scalar Float) (d : PgDatum) : Prop :=
  match ft with
  | TBoolean => ∃ b, x = ABool b ∧ d = PgBool b ∧ oid = BOOLOID
  | TInt => ∃ z, x = AI32 z ∧ - 2 ^ 31 ≤ z < 2 ^ 31 ∧
      ((oid = INT2OID ∧ d = PgInt2 z ∧ - 2 ^ 15 ≤ z < 2 ^ 15) ∨ (oid = INT4OID ∧ d = PgInt4 z))
  | TLong => ∃ z, x = AI64 z ∧ - 2 ^ 63 ≤ z < 2 ^ 63 ∧ d = PgInt8 z ∧ oid = INT8OID
  | TFloat => ∃ f, x = AF32 f ∧ d = PgFloat4 f ∧ oid = FLOAT4OID
  | TDouble => ∃ f, x = AF64 f ∧ d = PgFloat8 f ∧ oid = FLOAT8OID
  | TDate => ∃ z, x = ADate32 z ∧ d = PgDate (z - PG_EPOCH_DAYS_DIFF) ∧ oid = DATEOID ∧
      - 2 ^ 31 ≤ z - PG_EPOCH_DAYS_DIFF < 2 ^ 31
  | TTime => oid = TIMEOID
  | TTimestamp => timestamp_reads false false oid x d
  | TTimestamptz => timestamp_reads false true oid x d
  | TTimestampNs => timestamp_reads true false oid x d
  | TTimestamptzNs => timestamp_reads true true oid x d
  | TString => ∃ bs, x = AString bs ∧ (is_text_oid oid = true → d = PgText bs) ∧
      (is_text_oid oid = true ∨ oid = BPCHAROID ∨ oid = NAMEOID ∨ oid = JSONOID)
  | TUuid => ∃ bs, x = ABytes bs ∧ blen bs = 16 ∧ ((oid = UUIDOID ∧ d = PgUuid bs) ∨ (oid = BYTEAOID ∧ d = PgBytea bs))
  | TFixed w => ∃ bs, x = ABytes bs ∧ blen bs = w ∧ ((oid = UUIDOID ∧ d = PgUuid bs) ∨ (oid = BYTEAOID ∧ d = PgBytea bs))
  | TBinary => ∃ bs, x = ABytes bs ∧ d = PgBytea bs ∧ oid = BYTEAOID
  | TDecimal p s => ∃ u n, x = ADecimal u ∧ d = PgNumeric n ∧ oid = NUMERICOID ∧ 1 ≤ p ≤ 38 ∧ 0 ≤ s ≤ p ∧
      (typmod = numeric_typmod p s → numeric_is n s (Finite u))
  end.

Lemma from_pg_type_inv oid col : from_pg_type oid = Some col →
  match col with
  | Col.Bool => oid = BOOLOID
  | Col.Int2 => oid = INT2OID
  | Col.Int4 => oid = INT4OID
  | Col.Int8 => oid = INT8OID
  | Col.Float4 => oid = FLOAT4OID
  | Col.Float8 => oid = FLOAT8OID
  | Col.Text => is_text_oid oid = true ∨ oid = BPCHAROID ∨ oid = NAMEOID ∨ oid = JSONOID
  | Col.Bytea => oid = BYTEAOID
  | Col.Uuid => oid = UUIDOID
  | Col.Numeric => oid = NUMERICOID
  | Col.Date => oid = DATEOID
  | Col.Time => oid = TIMEOID
  | Col.Timestamp => oid = TIMESTAMPOID
  | Col.Timestamptz => oid = TIMESTAMPTZOID
  | _ => True
  end.
Proof.
  unfold from_pg_type, is_text_oid. intros H.
  repeat match type of H with
  | (if ?b then _ else _) = _ => let Hb := fresh "Hb" in destruct b eqn:Hb; [injection H as <-; lia|clear Hb]
  end. by case_bool; simplify_eq.
Qed.

Lemma read_date z oid m d : read_scalar Rule.Date32 oid m (ADate32 z) = Ok d → oid = DATEOID →
  d = PgDate (z - PG_EPOCH_DAYS_DIFF) ∧ - 2 ^ 31 ≤ z - PG_EPOCH_DAYS_DIFF < 2 ^ 31.
Proof.
  intros Hr ->. unfold read_scalar, pg_date_from_arrow_days in Hr.
  destruct (checked_i32 (z - PG_EPOCH_DAYS_DIFF)) as [y|] eqn:Hc; [|done]. apply checked_i32_Some in Hc as [-> Hz].
  csimpl in Hr. case_bool; [|done]. by injection Hr as <-.
Qed.

Lemma read_timestamp nanos tz z oid m d : read_scalar (Rule.Timestamp nanos tz) oid m (ATimestamp z) = Ok d →
  oid = (if tz then TIMESTAMPTZOID else TIMESTAMPOID) → timestamp_reads nanos tz oid (ATimestamp z) d.
Proof.
  intros Hr ->. exists z. split; [done|]. change (if nanos then _ else _) with (stored_micros nanos z) in *.
  unfold read_scalar, timestamp_cell, timestamp_from_unix_micros, timestamptz_from_unix_micros, unix_micros_to_pg_micros in Hr.
  change (if nanos then unix_micros_from_nanos z else z) with (stored_micros nanos z) in Hr.
  destruct (checked_i64 (stored_micros nanos z - PG_EPOCH_USECS_DIFF)) as [y|] eqn:Hc; [|by destruct tz].
  apply checked_i64_Some in Hc as [-> Hz]. split; [done|].
  destruct tz; csimpl in Hr; case_bool; try done; by injection Hr as <-.
Qed.

Lemma read_text bs oid m d : read_scalar Rule.Utf8 oid m (AString bs) = Ok d → is_text_oid oid = true → d = PgText bs.
Proof.
  intros Hr Ho. unfold is_text_oid in Ho. unfold read_scalar, cell_to_datum, into_text_datum in Hr. simpl in Hr.
  apply orb_true_iff in Ho as [->%Z.eqb_eq| ->%Z.eqb_eq]; simpl in Hr; case_bool; try done; by injection Hr as <-.
Qed.

Lemma read_decimal {HL : PgBackendLaws B} p s u m d : 1 ≤ p ≤ 38 → 0 ≤ s ≤ p → i128_min ≤ u ≤ i128_max →
  read_scalar (Rule.Decimal128 p s) NUMERICOID m (ADecimal u) = Ok d →
  ∃ n, d = PgNumeric n ∧ (m = numeric_typmod p s → numeric_is n s (Finite u)).
Proof.
  intros Hp Hs Hu Hr. unfold read_scalar in Hr. destruct (codec_new p s) as [c|] eqn:Hc; [|done].
  destruct (codec_new_Ok p s c Hc) as (-> & _); [lia|]. csimpl in Hr. unfold decode_datum_with_typmod in Hr. simpl scale in Hr.
  destruct (from_decimal128_spec u s Hu) as [Hover Hwire]; [unfold MAX_DEC_DIGITS; lia|].
  destruct (decide (overflows_buffer u s)) as [Ho|Ho]; [by rewrite (Hover Ho) in Hr|].
  destruct (Hwire Ho) as (x & sgn & w & ds & Hx & Hfw & Hd & Hb & _). rewrite Hx in Hr. csimpl in Hr. rewrite Hb in Hr.
  destruct (numeric_recv (wire_bytes sgn w s ds) m) as [n|] eqn:Hn; [|done]. injection Hr as <-. exists n. split; [done|].
  intros ->. destruct (decide (Z.abs u < 10 ^ p)) as [Hlt|Hge].
  - destruct (recv_fits (NumericLaws := backend_numeric) p s sgn w ds u) as (n' & w' & ds' & Hn' & Hfw' & Hd' & Hsend); [lia|lia|done..|].
    rewrite Hn in Hn'. injection Hn' as <-. by exists sgn, w', s, ds'.
  - destruct (recv_exceeds (NumericLaws := backend_numeric) p s sgn w ds u) as (msg & Hm); [lia|lia|done|done|lia|].
    by rewrite Hn in Hm.
Qed.

Lemma read_as_reads_to {HL : PgBackendLaws B} {IAL : IcebergArrowLaws IA} ft oid typmod x d :
  read_as ft oid typmod x d → reads_to ft oid typmod x d.
Proof.
  intros [(col & r & Hcol%from_pg_type_inv & Hr & Hd) Hf Hi]. rewrite arrow_type_documented in Hr, Hf.
  destruct ft; simpl in Hr; unfold require_pg in Hr.
  all: try (destruct (bool_decide _) eqn:Hb in Hr; [|done]; apply bool_decide_eq_true in Hb as ->; injection Hr as <-;
    destruct x; try discriminate Hd; simpl in Hcol, Hf).
  - subst oid. injection Hd as <-. by exists b.
  - destruct (bool_decide (col = Col.Int2)) eqn:Hb; simpl in Hr.
    + apply bool_decide_eq_true in Hb as ->. injection Hr as <-. destruct x; try discriminate Hd. simpl in Hcol. subst oid.
      exists z. split; [done|]. split; [done|]. left. split; [done|]. pose proof (Hi z eq_refl eq_refl) as Hz.
      unfold read_scalar in Hd. rewrite (int2_back z Hz) in Hd. by injection Hd as <-.
    + destruct (bool_decide (col = Col.Int4)) eqn:Hb'; [|done]. apply bool_decide_eq_true in Hb' as ->. injection Hr as <-.
      destruct x; try discriminate Hd. simpl in Hcol. subst oid. injection Hd as <-. exists z. auto.
  - subst oid. injection Hd as <-. by exists z.
  - subst oid. injection Hd as <-. by exists f.
  - subst oid. injection Hd as <-. by exists f.
  - destruct (negb (bool_decide _)) eqn:Hb in Hr; [done|]. apply negb_false_iff, bool_decide_eq_true in Hb as ->.
    destruct (_ || _) eqn:Hif in Hr; [done|]. injection Hr as <-. destruct x; try discriminate Hd. simpl in Hcol, Hf. subst oid.
    destruct (read_decimal precision scale unscaled typmod d) as (n & -> & Hn); [lia..|done|done|].
    exists unscaled, n. split_and!; [done|done|done|lia..|done].
  - destruct (read_date _ _ _ _ Hd Hcol) as [-> Hz]. by exists days.
  - done.
  - by apply (read_timestamp false false _ _ typmod).
  - by apply (read_timestamp false true _ _ typmod).
  - by apply (read_timestamp true false _ _ typmod).
  - by apply (read_timestamp true true _ _ typmod).
  - exists bytes. split; [done|]. split; [|done]. by apply (read_text _ _ typmod).
  - destruct (bool_decide (col = Col.Uuid)) eqn:Hb; simpl in Hr.
    + apply bool_decide_eq_true in Hb as ->. injection Hr as <-. destruct x; try discriminate Hd. simpl in Hcol, Hf. subst oid.
      injection Hd as <-. exists bytes. auto.
    + destruct (bool_decide (col = Col.Bytea)) eqn:Hb'; [|done]. apply bool_decide_eq_true in Hb' as ->. injection Hr as <-.
      destruct x; try discriminate Hd. simpl in Hcol, Hf. subst oid. injection Hd as <-. exists bytes. auto.
  - destruct ((width =? 16) && bool_decide (col = Col.Uuid)) eqn:Hb; simpl in Hr.
    + apply andb_true_iff in Hb as [_ ->%bool_decide_eq_true]. injection Hr as <-. destruct x; try discriminate Hd.
      simpl in Hcol, Hf. subst oid. injection Hd as <-. exists bytes. auto.
    + destruct (bool_decide (col = Col.Bytea)) eqn:Hb'; simpl in Hr; [|by case_bool]. apply bool_decide_eq_true in Hb' as ->.
      destruct (_ && _) in Hr; [|by case_bool]. injection Hr as <-.
      destruct x; try discriminate Hd. simpl in Hcol, Hf. subst oid. injection Hd as <-. exists bytes. auto.
  - subst oid. injection Hd as <-. by exists bytes.
Qed.
End reading.

(** ** Well-typed operands *)
Section typing.
Context {B : PgBackend} {PT : PgTypes}.

(** What PostgreSQL guarantees of a non-NULL value of a type of the catalog.  A
    NUMERIC whose type modifier gives it a Decimal128 shape has a comparison value
    of this shape. *)
Definition has_type (t : ExprType) (d : PgDatum) : Prop :=
  let oid := type_oid t in
  is_scalar_oid oid = true →
  match d with
  | PgBool _ => oid = BOOLOID
  | PgInt2 z => oid = INT2OID ∧ - 2 ^ 15 ≤ z < 2 ^ 15
  | PgInt4 z => oid = INT4OID ∧ - 2 ^ 31 ≤ z < 2 ^ 31
  | PgInt8 z => oid = INT8OID ∧ - 2 ^ 63 ≤ z < 2 ^ 63
  | PgFloat4 _ => oid = FLOAT4OID
  | PgFloat8 _ => oid = FLOAT8OID
  | PgDate z => oid = DATEOID ∧ - 2 ^ 31 ≤ z < 2 ^ 31
  | PgTime _ => oid = TIMEOID
  | PgTimestamp z => oid = TIMESTAMPOID ∧ - 2 ^ 63 ≤ z < 2 ^ 63
  | PgTimestamptz z => oid = TIMESTAMPTZOID ∧ - 2 ^ 63 ≤ z < 2 ^ 63
  | PgNumeric n => oid = NUMERICOID ∧ numeric_form n ∧
      ∀ s, semantics_for_type t = Some s → ∃ v, encode_comparison_datum numeric_send (semantics_codec s) n = Ok v
  | PgText _ => is_text_oid oid = true
  | PgUuid bs => oid = UUIDOID ∧ blen bs = 16
  | PgBytea _ => oid = BYTEAOID
  | PgArray _ _ => False
  end.

(** A column of an expression is an attribute of the relation, as declared or
    under a cast that [PgIntegerWidening] admits or that relabels it. *)
Definition column_typed (pl : IcebergFilterPlanner) (c : ColumnRef) : Prop :=
  let declared := type_oid (declared_type c) in
  let effective := type_oid (value_type c) in
  attr_types (planner_layout pl) !! Z.to_nat (attno c - 1) = Some (declared, typmod (declared_type c)) ∧
  (is_integer_oid declared = true → is_integer_oid effective = true →
   declared = effective ∨ widening_for_types declared effective ≠ None).

Definition slot_typed (f : PredicateFragment) (values : list (option PgDatum)) (id : RuntimeValueId) : Prop :=
  ∀ spec d, runtime_values f !! id = Some spec → values !! id = Some (Some d) → has_type (spec_type spec) d.

Definition scalar_typed (pl : IcebergFilterPlanner) (f : PredicateFragment) (values : list (option PgDatum))
    (s : ScalarExpr) : Prop :=
  match s with Column c => column_typed pl c | Value id => slot_typed f values id end.

(** The type of an operand, where it has one. *)
Definition operand_oid (f : PredicateFragment) (s : ScalarExpr) : option Oid :=
  match s with
  | Column c => Some (type_oid (value_type c))
  | Value id => (λ spec, type_oid (spec_type spec)) <$> runtime_values f !! id
  end.

(** The operator of a comparison takes the types of its operands. *)
Definition operator_typed (op : PgComparisonOp) (l r : option Oid) : Prop :=
  ∀ s, for_operator (opno op) = Some s →
    (∀ o, l = Some o → left_type s = o) ∧ (∀ o, r = Some o → right_type s = o).
End typing.

(** ** Comparing a stored value with a slot *)
Lemma bytes_compare_antisym a b : bytes_compare b a = CompOpp (bytes_compare a b).
Proof.
  revert b. induction a as [|x a IH]; intros [|y b]; try done. simpl. rewrite (Z.compare_antisym (u8_of x)).
  destruct (u8_of x ?= u8_of y); simpl; auto.
Qed.

Lemma planned_value_type_cases {B : PgBackend} c spec utf8 v : planned_value_type c spec utf8 = Some v →
  let declared := type_oid (declared_type c) in
  let effective := type_oid (value_type c) in
  let oid := type_oid (spec_type spec) in
  let all3 t := declared = t ∧ effective = t ∧ oid = t in
  let small := declared = INT2OID ∨ declared = INT4OID in
  match v with
  | VBoolean => all3 BOOLOID
  | VUuid => all3 UUIDOID
  | VBinary => all3 BYTEAOID
  | VInt8ToInt => small ∧ is_integer_oid effective = true ∧ oid = INT8OID
  | VInt2 => small ∧ is_integer_oid effective = true ∧ oid = INT2OID
  | VInt4 => small ∧ is_integer_oid effective = true ∧ oid = INT4OID
  | VInt2ToLong => declared = INT8OID ∧ effective = INT8OID ∧ oid = INT2OID
  | VInt4ToLong => declared = INT8OID ∧ effective = INT8OID ∧ oid = INT4OID
  | VInt8 => all3 INT8OID
  | VDate => all3 DATEOID
  | VTimestamp Microseconds => all3 TIMESTAMPOID
  | VTimestamptz Microseconds => all3 TIMESTAMPTZOID
  | VDecimal128 s => all3 NUMERICOID ∧ for_storage_comparison (declared_type c) (value_type c) (spec_type spec) = Some s
  | VString => is_text_oid declared = true ∧ is_text_oid effective = true ∧ is_text_oid oid = true
  | VFixedBinary _ | VTimestamp Nanoseconds | VTimestamptz Nanoseconds => False
  end.
Proof.
  unfold planned_value_type, widening_for_types. simpl.
  set (declared := type_oid (declared_type c)). set (effective := type_oid (value_type c)). set (oid := type_oid (spec_type spec)).
  clearbody declared effective oid.
  assert (∀ w : option PgIntegerWidening, w = (if effective =? oid then widening_for_types declared effective else None) →
    w ≠ None → (declared = INT2OID ∨ declared = INT4OID) ∧ effective = oid ∧
      match w with Some Int2ToInt4 => oid = INT4OID | _ => oid = INT8OID end) as Hw.
  { intros w -> Hn. unfold widening_for_types in *. repeat case_bool; try done; lia. }
  unfold widening_for_types in Hw. specialize (Hw _ eq_refl). destruct (if effective =? oid then _ else _) as [[]|].
  1-3: intros [= <-]; destruct Hw as (? & -> & ->); done.
  clear Hw. repeat match goal with
  | |- (if ?b then _ else _) = Some _ → _ =>
      let Hb := fresh "H" in destruct b eqn:Hb; [try (intros [= <-]; unfold is_integer_oid in *; lia)|clear Hb]
  end; try done.
  - destruct (for_storage_comparison _ _ _) as [d|]; [|done]. intros [= <-]. split; [lia|done].
  - destruct utf8; [|done]. intros [= <-]. by apply andb_true_iff in H as [[??]%andb_true_iff ?].
Qed.

(** Decide that a value is in its range. *)
Ltac in_range := rewrite (proj2 (Z.leb_le _ _)), (proj2 (Z.ltb_lt _ _)) by lia.

Section decides.
Context {B : PgBackend} {PT : PgTypes} {HL : PgBackendLaws B}.

(** An operator between the types [L] and [R], on either side, compares [a] with
    [y] as [c] says. *)
Definition decides (op : PgComparisonOp) (L R : Oid) (a y : PgDatum) (c : comparison) : Prop :=
  ∀ s, for_operator (opno op) = Some s →
    (left_type s = L → right_type s = R →
     pg_operator (opno op) (inputcollid op) a y = kind_holds (signature_kind s) c) ∧
    (left_type s = R → right_type s = L →
     pg_operator (opno op) (inputcollid op) y a = kind_holds (signature_kind s) (CompOpp c)).

Lemma ordered_decides op L R a y x z : ordered_value a L = Some x → ordered_value y R = Some z → decides op L R a y (x ?= z).
Proof.
  intros Ha Hy s Hs. split; intros <- <-; [by apply scalar_operator|]. rewrite <- Z.compare_antisym. by apply scalar_operator.
Qed.

Lemma binary_decides op L R a y x z : binary_value a L = Some x → binary_value y R = Some z →
  decides op L R a y (bytes_compare x z).
Proof.
  intros Ha Hy s Hs. split; intros <- <-; [by apply binary_operator|]. rewrite <- bytes_compare_antisym. by apply binary_operator.
Qed.

(** The collation lets the operator compare bytes. *)
Definition compares_bytes (op : PgComparisonOp) : Prop :=
  ∀ s, for_operator (opno op) = Some s → for_comparison (op_identity op) (signature_kind s) ≠ None.

Lemma text_operator op s a y x z : for_operator (opno op) = Some s → compares_bytes op →
  text_value a (left_type s) = Some x → text_value y (right_type s) = Some z →
  pg_operator (opno op) (inputcollid op) a y = kind_holds (signature_kind s) (bytes_compare x z).
Proof.
  intros Hs Hc Ha Hy. specialize (Hc s Hs). unfold for_comparison, op_identity in Hc. simpl in Hc. rewrite Hs in Hc.
  destruct (negb (opcollid op =? InvalidOid)); [done|]. destruct (_ || _); [done|]. unfold for_equality_collation in Hc.
  destruct (signature_kind s) eqn:Hk; rewrite <- Hk.
  1, 2: destruct (_ && _) eqn:Hd in Hc; [|done]; apply andb_true_iff in Hd as [_ Hd]; apply text_equality_operator; auto.
  all: destruct (lagodb_collation_is_c _) eqn:Hd; [|done]; by apply text_order_operator.
Qed.

Lemma text_decides op L R a y x z : compares_bytes op → text_value a L = Some x → text_value y R = Some z →
  decides op L R a y (bytes_compare x z).
Proof.
  intros Hc Ha Hy s Hs. split; intros <- <-; [by apply text_operator|]. rewrite <- bytes_compare_antisym. by apply text_operator.
Qed.

Lemma numeric_decides op a y s u v : numeric_is a s (Finite u) → numeric_is y s v →
  decides op NUMERICOID NUMERICOID (PgNumeric a) (PgNumeric y) (finite_compare u v).
Proof.
  intros Ha Hy sg Hs. split; intros Hl Hr; by eapply (numeric_operator (opno op) (inputcollid op) sg a y s u v).
Qed.

Lemma encode_comparison_is p s n v : codec_new p s = Ok (mkCodec p s) → 0 ≤ p → 0 ≤ s → numeric_form n →
  encode_comparison_datum numeric_send (mkCodec p s) n = Ok v → numeric_is n s v.
Proof.
  intros Hc Hp Hs Hform Hv. unfold encode_comparison_datum, encode_comparison_bytes in Hv.
  destruct (ne_value true <$> slice (numeric_send n) 4 6) as [sgn|] eqn:Hsgn; [|done]. csimpl in Hv.
  destruct ((sgn =? NUMERIC_POS) || (sgn =? NUMERIC_NEG)) eqn:Hfin.
  - destruct (numeric_send_to_i128 _ _) as [u|] eqn:Hu; [|done]. injection Hv as <-.
    destruct Hform as [(sg & w & display & ds & Hsend & Hfw)|(sg & Hsg & Hne & Hnn)].
    + rewrite Hsend in Hu. apply (numeric_send_spec p s _ sg w ds display Hc Hp Hs Hfw) in Hu as (Hd & _).
      by exists sg, w, display, ds.
    + unfold wire_sign in Hsg. rewrite Hsgn in Hsg. injection Hsg as ->. lia.
  - repeat case_bool; try done; injection Hv as <-; simpl; unfold wire_sign; rewrite Hsgn; f_equal; lia.
Qed.

Lemma semantics_shape t s : semantics_for_type t = Some s →
  codec_new (sem_precision s) (sem_scale s) = Ok (mkCodec (sem_precision s) (sem_scale s)) ∧
  0 ≤ sem_precision s ∧ 0 ≤ sem_scale s ∧
  numeric_precision_scale (typmod t) = Some (mkTypmod (sem_precision s) (sem_scale s)) ∧
  semantics_new (sem_precision s) (sem_scale s) = Some s.
Proof.
  unfold semantics_for_type. destruct (_ || _); [done|]. destruct (numeric_precision_scale _) as [[p sc]|]; [|done]. csimpl.
  destruct (_ && _) eqn:Hr; [|done]. unfold semantics_new. destruct (sc <? 0) eqn:Hsc; [done|].
  destruct (codec_new p sc) as [c|] eqn:Hc; [|done]. intros [= <-]. simpl.
  rewrite Hsc. destruct (codec_new_Ok p sc c Hc) as (-> & _); [lia|]. rewrite Hc. split_and!; [done|lia..|done|done].
Qed.

Lemma for_storage_comparison_Some d e v s : for_storage_comparison d e v = Some s →
  semantics_for_type d = Some s ∧ semantics_for_type v = Some s.
Proof.
  unfold for_storage_comparison. destruct (semantics_for_type d) as [x|]; [|done]. destruct (semantics_for_type e) as [y|]; [|done].
  destruct (semantics_for_type v) as [z|]; [|done]. csimpl. case_decide as H; [|done]. destruct H as [-> ->]. by intros [= ->].
Qed.

(** The integer of an [int2] or [int4] column under the casts that widen it. *)
Lemma small_integer_value oid eff (d : PgDatum) z : is_integer_oid eff = true →
  (oid = INT2OID ∧ d = PgInt2 z ∧ - 2 ^ 15 ≤ z < 2 ^ 15) ∨ (oid = INT4OID ∧ d = PgInt4 z ∧ - 2 ^ 31 ≤ z < 2 ^ 31) →
  oid = eff ∨ widening_for_types oid eff ≠ None → ordered_value (coerce d eff) eff = Some z.
Proof.
  intros He Hd Hw. unfold is_integer_oid in He. unfold widening_for_types in Hw.
  destruct Hd as [(-> & -> & Hz)|(-> & -> & Hz)]; destruct (Z.eqb_spec eff INT2OID) as [->|]; simpl in *.
  - by in_range.
  - destruct (Z.eqb_spec eff INT4OID) as [->|]; simpl in *.
    + by in_range.
    + apply Z.eqb_eq in He as ->. simpl. by in_range.
  - by destruct Hw.
  - destruct (Z.eqb_spec eff INT4OID) as [->|]; simpl in *.
    + by in_range.
    + apply Z.eqb_eq in He as ->. simpl. by in_range.
Qed.

(** What is read for the type of a column, whatever stores it. *)
Lemma reads_declared ft oid m x d : reads_to ft oid m x d →
  (oid = BOOLOID → ∃ b, x = ABool b ∧ d = PgBool b) ∧
  (oid = INT2OID ∨ oid = INT4OID → ∃ z, x = AI32 z ∧ ((oid = INT2OID ∧ d = PgInt2 z ∧ - 2 ^ 15 ≤ z < 2 ^ 15) ∨
    (oid = INT4OID ∧ d = PgInt4 z ∧ - 2 ^ 31 ≤ z < 2 ^ 31))) ∧
  (oid = INT8OID → ∃ z, x = AI64 z ∧ d = PgInt8 z ∧ - 2 ^ 63 ≤ z < 2 ^ 63) ∧
  (oid = DATEOID → ∃ z, x = ADate32 z ∧ d = PgDate (z - PG_EPOCH_DAYS_DIFF) ∧ - 2 ^ 31 ≤ z - PG_EPOCH_DAYS_DIFF < 2 ^ 31) ∧
  (oid = UUIDOID → ∃ bs, x = ABytes bs ∧ d = PgUuid bs) ∧
  (oid = BYTEAOID → ∃ bs, x = ABytes bs ∧ d = PgBytea bs) ∧
  (is_text_oid oid = true → ∃ bs, x = AString bs ∧ d = PgText bs) ∧
  (oid = FLOAT4OID → ∃ f, x = AF32 f ∧ d = PgFloat4 f) ∧ (oid = FLOAT8OID → ∃ f, x = AF64 f ∧ d = PgFloat8 f).
Proof.
  intros H. destruct ft; simpl in H; unfold timestamp_reads in H; decompose [ex and or] H; subst; split_and!; intros Ho;
    try discriminate Ho; try (destruct Ho as [Ho|Ho]; discriminate Ho); eauto 10.
  all: try (destruct Ho as [Ho|Ho]); subst; done.
Qed.

Lemma timestamp_read v t ft oid m x d (tz : bool) : with_source_type v (Some ft) = Some t →
  v = (if tz then VTimestamptz Microseconds else VTimestamp Microseconds) → reads_to ft oid m x d →
  ∃ (nanos : bool) z, let p := if nanos then Nanoseconds else Microseconds in
    t = (if tz then VTimestamptz p else VTimestamp p) ∧ x = ATimestamp z ∧
    - 2 ^ 63 ≤ stored_micros nanos z - PG_EPOCH_USECS_DIFF < 2 ^ 63 ∧
    d = (if tz then PgTimestamptz else PgTimestamp) (stored_micros nanos z - PG_EPOCH_USECS_DIFF).
Proof.
  intros Ht -> Hr. destruct tz, ft; try discriminate Ht; injection Ht as <-; destruct Hr as (z & -> & Hz & -> & _);
    first [by exists false, z|by exists true, z].
Qed.

Lemma shifted_compare z y k : (z - k ?= y) = (z ?= y + k).
Proof. destruct (Z.compare_spec (z - k) y), (Z.compare_spec z (y + k)); try done; lia. Qed.

Lemma text_scalar oid : is_text_oid oid = true → is_scalar_oid oid = true.
Proof. unfold is_text_oid. by intros [->%Z.eqb_eq| ->%Z.eqb_eq]%orb_true_iff. Qed.

(** What a value of a type is. *)
Lemma has_type_inv t d : has_type t d →
  let oid := type_oid t in
  (oid = BOOLOID → ∃ b, d = PgBool b ∧ ordered_value d oid = Some (Z.b2z b)) ∧
  (oid = INT2OID → ∃ z, d = PgInt2 z ∧ ordered_value d oid = Some z) ∧
  (oid = INT4OID → ∃ z, d = PgInt4 z ∧ ordered_value d oid = Some z) ∧
  (oid = INT8OID → ∃ z, d = PgInt8 z ∧ ordered_value d oid = Some z) ∧
  (oid = DATEOID → ∃ z, d = PgDate z ∧ ordered_value d oid = Some z) ∧
  (oid = TIMESTAMPOID → ∃ z, d = PgTimestamp z ∧ ordered_value d oid = Some z) ∧
  (oid = TIMESTAMPTZOID → ∃ z, d = PgTimestamptz z ∧ ordered_value d oid = Some z) ∧
  (oid = UUIDOID → ∃ bs, d = PgUuid bs ∧ binary_value d oid = Some bs) ∧
  (oid = BYTEAOID → ∃ bs, d = PgBytea bs ∧ binary_value d oid = Some bs) ∧
  (is_text_oid oid = true → ∃ bs, d = PgText bs ∧ text_value d oid = Some bs) ∧
  (oid = NUMERICOID → ∃ n, d = PgNumeric n ∧ numeric_form n ∧
    ∀ s, semantics_for_type t = Some s → ∃ v, encode_comparison_datum numeric_send (semantics_codec s) n = Ok v).
Proof.
  destruct t as [oid m k]. unfold has_type. simpl. intros H.
  split_and!; intros Ho; (assert (is_scalar_oid oid = true) as Hs by (by subst || by apply text_scalar));
    specialize (H Hs); clear Hs; destruct d; simpl in *;
    destruct_and?; destruct_or?; subst; try discriminate; try done;
    eexists; (split; [reflexivity|]); try done; try (by in_range).
  - match goal with H : blen _ = 16 |- _ => by rewrite H end.
  - unfold is_text_oid in Ho. by rewrite Ho.
Qed.

Lemma with_source_uuid ft t : with_source_type VUuid (Some ft) = Some t → ft = TUuid ∧ t = VUuid.
Proof. destruct ft; try done. by intros [= <-]. Qed.

Lemma with_source_binary ft t : with_source_type VBinary (Some ft) = Some t → t = VBinary ∨ ∃ w, t = VFixedBinary w.
Proof. destruct ft; try done; intros [= <-]; eauto. Qed.

Lemma reads_numeric ft oid m x d : reads_to ft oid m x d → oid = NUMERICOID → ∃ p s, ft = TDecimal p s.
Proof.
  intros Hr Ho. destruct ft; simpl in Hr; unfold timestamp_reads in Hr; decompose [ex and or] Hr; subst; try discriminate; eauto.
Qed.

Lemma compare_defined t (x : Scalar Float) d : scalar_matches t x → value_matches t d → ∃ c, stored_compare t x d = Some c.
Proof.
  destruct t as [| | |w| | | | | | |[]|[]| |sm|], x; try done; destruct d; try done; simpl; eauto.
  intros _ [_ [v ->]]. eauto.
Qed.

(** What a planned comparison says of its slot and of the stored column. *)
Lemma with_source_matches v source t y : with_source_type v source = Some t → value_matches v y → value_matches t y.
Proof. destruct v as [| | |w| | | | | | |[]|[]| |sm|], source as [[]|]; simpl; intros [= <-]; done. Qed.

Lemma planned_value_matches c spec utf8 v t source y : planned_value_type c spec utf8 = Some v →
  with_source_type v source = Some t → has_type (spec_type spec) y → value_matches t y.
Proof.
  intros Hv Ht Hy. apply (with_source_matches v source); [done|]. clear Ht. apply planned_value_type_cases in Hv. cbn zeta in Hv.
  assert (∀ s, v = VDecimal128 s → semantics_for_type (spec_type spec) = Some s) as Hs.
  { intros s ->. destruct Hv as [_ Hs]. by apply for_storage_comparison_Some in Hs as [_ Hs]. }
  assert (type_oid (spec_type spec) = match v with
    | VBoolean => BOOLOID | VUuid => UUIDOID | VBinary | VFixedBinary _ => BYTEAOID | VInt2ToLong | VInt2 => INT2OID
    | VInt4ToLong | VInt4 => INT4OID | VInt8 | VInt8ToInt => INT8OID | VDate => DATEOID | VTimestamp _ => TIMESTAMPOID
    | VTimestamptz _ => TIMESTAMPTZOID | VDecimal128 _ => NUMERICOID | VString => type_oid (spec_type spec) end) as Ho.
  { destruct v as [| | |w| | | | | | |[]|[]| |sm|]; simpl in Hv; try done;
      first [by destruct Hv as (? & ? & ?)|by destruct Hv as ((? & ? & ?) & _)]. }
  assert (v = VString → is_text_oid (type_oid (spec_type spec)) = true) as Htext by (intros ->; by destruct Hv as (_ & _ & ?)).
  destruct (decide (v = VString)) as [->|Hns].
  { pose proof (has_type_inv _ _ Hy) as (_ & _ & _ & _ & _ & _ & _ & _ & _ & Yt & _). by destruct (Yt (Htext eq_refl)) as (bs & -> & _). }
  unfold has_type in Hy. clear Hv.
  destruct v as [| | |w| | | | | | |[]|[]| |sm|]; try done; rewrite Ho in Hy; specialize (Hy eq_refl); destruct y; simpl in Hy; destruct_and?;
    destruct_or?; try done. specialize (Hs sm eq_refl). split; [by apply (semantics_shape _ _ Hs)|]. naive_solver.
Qed.

(** The stored column. *)
Lemma reads_type ft oid m x d : reads_to ft oid m x d →
  (oid = BOOLOID → ft = TBoolean) ∧ (oid = INT2OID ∨ oid = INT4OID → ft = TInt) ∧ (oid = INT8OID → ft = TLong) ∧
  (oid = DATEOID → ft = TDate) ∧ (is_text_oid oid = true → ft = TString) ∧
  (oid = NUMERICOID → ∃ p s, ft = TDecimal p s ∧ 1 ≤ p ≤ 38 ∧ 0 ≤ s ≤ p).
Proof.
  intros H. destruct ft; simpl in H; unfold timestamp_reads in H; decompose [ex and or] H; subst; split_and!; intros Ho;
    try discriminate Ho; try (destruct Ho as [Ho|Ho]; discriminate Ho); eauto 10.
  all: try (destruct Ho as [Ho|Ho]); subst; done.
Qed.

Lemma storage_matches c spec utf8 v ft t x d : planned_value_type c spec utf8 = Some v → with_source_type v (Some ft) = Some t →
  reads_to ft (type_oid (declared_type c)) (typmod (declared_type c)) x d →
  (∀ p s, ft = TDecimal p s → typmod (declared_type c) = numeric_typmod p s) → scalar_matches t x ∧ storage_type t = ft.
Proof.
  intros Hv Ht Hr Hdec. apply planned_value_type_cases in Hv. cbn zeta in Hv.
  pose proof (reads_type _ _ _ _ _ Hr) as (Rb & Ri & Rl & Rd & Rs & Rn).
  assert (∀ s, v = VDecimal128 s → ft = TDecimal (sem_precision s) (sem_scale s)) as Hs.
  { intros s ->. destruct Hv as [(Hn & _) Hs]. apply for_storage_comparison_Some in Hs as [Hs _].
    destruct (Rn Hn) as (p & sc & Hft & Hp & Hsc). destruct (semantics_shape _ _ Hs) as (_ & _ & _ & Hps & _).
    rewrite (Hdec _ _ Hft), typmod_roundtrip in Hps by lia. by injection Hps as -> ->. }
  assert (storage_type t = ft) as Hst.
  { destruct v as [| | |w| | | | | | |[]|[]| |sm|]; simpl in Hv; try done; try (injection Ht as <-; simpl; symmetry; tauto).
    all: try (by destruct ft; try discriminate Ht; injection Ht as <-).
    injection Ht as <-. symmetry. by apply Hs. }
  split; [|done]. subst ft. destruct t as [| | |w| | | | | | |[]|[]| |sm|]; simpl in Hr; unfold timestamp_reads in Hr;
    decompose [ex and or] Hr; subst; done.
Qed.

(** *** The groups of types *)
Section column.
Context (c : ColumnRef) (spec : RuntimeValueSpec) (ft : PrimitiveType) (x : Scalar Float) (d y : PgDatum) (op : PgComparisonOp).
Let declared := type_oid (declared_type c).
Let effective := type_oid (value_type c).
Let oid := type_oid (spec_type spec).
Context (Hread : reads_to ft declared (typmod (declared_type c)) x d)
  (Hint : is_integer_oid declared = true → is_integer_oid effective = true →
    declared = effective ∨ widening_for_types declared effective ≠ None)
  (Hy : has_type (spec_type spec) y).

Definition decided (t : PlannedValueType) : Prop :=
  ∃ cmp, stored_compare t x y = Some cmp ∧ decides op effective oid (coerce d effective) y cmp.

Lemma small_decided : declared = INT2OID ∨ declared = INT4OID → is_integer_oid effective = true →
  (oid = INT2OID → decided VInt2) ∧ (oid = INT4OID → decided VInt4) ∧ (oid = INT8OID → decided VInt8ToInt).
Proof.
  intros Hd He. pose proof (reads_declared _ _ _ _ _ Hread) as (_ & Rint & _). destruct (Rint Hd) as (z & Hx & Hz).
  pose proof (has_type_inv _ _ Hy) as (_ & Y2 & Y4 & Y8 & _).
  assert (ordered_value (coerce d effective) effective = Some z) as Ha.
  { eapply small_integer_value; [done|exact Hz|]. apply Hint; [|done]. by destruct Hd as [-> | ->]. }
  unfold decided. rewrite Hx. split_and!; intros Ho.
  - destruct (Y2 Ho) as (z' & -> & Hz'). eexists. split; [done|]. by apply ordered_decides.
  - destruct (Y4 Ho) as (z' & -> & Hz'). eexists. split; [done|]. by apply ordered_decides.
  - destruct (Y8 Ho) as (z' & -> & Hz'). eexists. split; [done|]. by apply ordered_decides.
Qed.

Lemma long_decided : declared = INT8OID → effective = INT8OID →
  (oid = INT2OID → decided VInt2ToLong) ∧ (oid = INT4OID → decided VInt4ToLong) ∧ (oid = INT8OID → decided VInt8).
Proof.
  intros Hd He. pose proof (reads_declared _ _ _ _ _ Hread) as (_ & _ & Rlong & _). destruct (Rlong Hd) as (z & Hx & Hdz & Hz).
  pose proof (has_type_inv _ _ Hy) as (_ & Y2 & Y4 & Y8 & _).
  assert (ordered_value (coerce d effective) effective = Some z) as Ha.
  { rewrite He, Hdz. simpl. by in_range. }
  unfold decided. rewrite Hx. split_and!; intros Ho.
  - destruct (Y2 Ho) as (z' & -> & Hz'). eexists. split; [done|]. by apply ordered_decides.
  - destruct (Y4 Ho) as (z' & -> & Hz'). eexists. split; [done|]. by apply ordered_decides.
  - destruct (Y8 Ho) as (z' & -> & Hz'). eexists. split; [done|]. by apply ordered_decides.
Qed.

Lemma bytes_decided : 
  (declared = UUIDOID → effective = UUIDOID → oid = UUIDOID → ft = TUuid → decided VUuid) ∧
  (declared = BYTEAOID → effective = BYTEAOID → oid = BYTEAOID → ∀ t, t = VBinary ∨ (∃ w, t = VFixedBinary w) → decided t) ∧
  (is_text_oid declared = true → is_text_oid effective = true → is_text_oid oid = true → compares_bytes op → decided VString).
Proof.
  pose proof (reads_declared _ _ _ _ _ Hread) as (_ & _ & _ & _ & Ru & Rb & Rt & _).
  pose proof (has_type_inv _ _ Hy) as (_ & _ & _ & _ & _ & _ & _ & Yu & Yb & Yt & _). unfold decided. split_and!.
  - intros Hd He Ho Hft. destruct (Ru Hd) as (bs & -> & Hdv), (Yu Ho) as (bs' & -> & Hb). eexists. split; [done|].
    apply binary_decides; [|done]. pose proof Hread as Hr. rewrite Hft in Hr. destruct Hr as (bs0 & [= <-] & Hlen & _).
    rewrite Hdv, He. simpl. by rewrite Hlen.
  - intros Hd He Ho t Ht. destruct (Rb Hd) as (bs & -> & ->), (Yb Ho) as (bs' & -> & Hb).
    exists (bytes_compare bs bs'). split; [by destruct Ht as [-> |[w ->]]|]. apply binary_decides; [|done]. by rewrite He.
  - intros Hd He Ho Hop. destruct (Rt Hd) as (bs & -> & ->), (Yt Ho) as (bs' & -> & Hb). eexists. split; [done|].
    apply text_decides; [done| |done]. simpl. unfold is_text_oid in He. by rewrite He.
Qed.

Lemma boolean_decided : declared = BOOLOID → effective = BOOLOID → oid = BOOLOID → decided VBoolean.
Proof.
  intros Hd He Ho. pose proof (reads_declared _ _ _ _ _ Hread) as (Rb & _). pose proof (has_type_inv _ _ Hy) as (Yb & _).
  destruct (Rb Hd) as (b & Hx & Hdb), (Yb Ho) as (b' & Hyb & Hb). exists (Z.b2z b ?= Z.b2z b'). split; [by rewrite Hx, Hyb|].
  apply ordered_decides; [|done]. by rewrite Hdb, He.
Qed.

Lemma temporal_decided :
  (declared = DATEOID → effective = DATEOID → oid = DATEOID → decided VDate) ∧
  (∀ (tz nanos : bool) z, let o := if tz then TIMESTAMPTZOID else TIMESTAMPOID in
    let p := if nanos then Nanoseconds else Microseconds in
    effective = o → oid = o → x = ATimestamp z → - 2 ^ 63 ≤ stored_micros nanos z - PG_EPOCH_USECS_DIFF < 2 ^ 63 →
    d = (if tz then PgTimestamptz else PgTimestamp) (stored_micros nanos z - PG_EPOCH_USECS_DIFF) →
    decided (if tz then VTimestamptz p else VTimestamp p)).
Proof.
  pose proof (reads_declared _ _ _ _ _ Hread) as (_ & _ & _ & Rd & _).
  pose proof (has_type_inv _ _ Hy) as (_ & _ & _ & _ & Yd & Yts & Ytz & _). unfold decided. split.
  - intros Hd He Ho. destruct (Rd Hd) as (z & Hx & Hdz & Hz), (Yd Ho) as (z' & Hyz & Hz'). rewrite Hx, Hyz. eexists.
    split; [done|]. rewrite <- shifted_compare. apply ordered_decides; [|by rewrite <- Hyz]. rewrite Hdz, He. simpl. by in_range.
  - intros tz nanos z He Ho Hx Hz Hd.
    assert (∃ z', y = (if tz then PgTimestamptz z' else PgTimestamp z') ∧ ordered_value y oid = Some z') as (z' & Hyz & Hz').
    { destruct tz; [apply Ytz|apply Yts]; done. }
    exists (stored_micros nanos z ?= z' + PG_EPOCH_USECS_DIFF). split; [rewrite Hx, Hyz; by destruct tz, nanos|].
    rewrite <- shifted_compare. apply ordered_decides; [|done]. rewrite Hd, He. destruct tz; simpl; by in_range.
Qed.

Lemma decimal_decided p s sm : ft = TDecimal p s → typmod (declared_type c) = numeric_typmod p s →
  effective = NUMERICOID → oid = NUMERICOID →
  for_storage_comparison (declared_type c) (value_type c) (spec_type spec) = Some sm → decided (VDecimal128 sm).
Proof.
  intros -> Hm He Ho Hs. destruct (for_storage_comparison_Some _ _ _ _ Hs) as [Hsd Hsv].
  destruct Hread as (u & n & Hx & Hd & _ & Hp & Hsc & Hn). specialize (Hn Hm).
  destruct (semantics_shape _ _ Hsd) as (Hc & Hp0 & Hs0 & Hps & _). rewrite Hm, typmod_roundtrip in Hps by lia. injection Hps as -> ->.
  pose proof (has_type_inv _ _ Hy) as (_ & _ & _ & _ & _ & _ & _ & _ & _ & _ & Yn).
  destruct (Yn Ho) as (n' & Hyn & Hform & Henc). destruct (Henc sm Hsv) as (v & Hv).
  unfold decided. rewrite Hx, Hyn. simpl. unfold semantics_codec in Hv |- *. rewrite Hv. eexists. split; [done|].
  rewrite He, Ho, Hd. simpl. eapply numeric_decides; [exact Hn|]. by eapply encode_comparison_is.
Qed.

(** An operator compares a column, under its casts, with a slot as the stored
    value compares with it. *)
Lemma stored_decides utf8 v t : planned_value_type c spec utf8 = Some v → with_source_type v (Some ft) = Some t →
  (∀ p s, ft = TDecimal p s → typmod (declared_type c) = numeric_typmod p s) →
  (is_text_oid effective = true → compares_bytes op) → decided t.
Proof.
  intros Hv Ht Hdec Htext. apply planned_value_type_cases in Hv. fold declared effective oid in Hv.
  destruct v as [| | |w| | | | | | |[]|[]| |sm|]; simpl in Hv; try done.
  1: injection Ht as <-; destruct Hv as (H1 & H2 & H3); by apply boolean_decided.
  1: apply with_source_uuid in Ht as [Hft ->]; destruct Hv as (H1 & H2 & H3); by apply (proj1 bytes_decided).
  1: apply with_source_binary in Ht; destruct Hv as (H1 & H2 & H3); by apply (proj1 (proj2 bytes_decided)).
  all: try (injection Ht as <-; destruct Hv as (H1 & H2 & H3);
    first [by apply long_decided|by apply small_decided|by apply temporal_decided|by apply (proj2 (proj2 bytes_decided)); auto]).
  - destruct (timestamp_read _ _ _ _ _ _ _ false Ht eq_refl Hread) as (nanos & z & -> & Hx & Hz & Hd).
    destruct Hv as (H1 & H2 & H3). by apply (proj2 temporal_decided false nanos z).
  - destruct (timestamp_read _ _ _ _ _ _ _ true Ht eq_refl Hread) as (nanos & z & -> & Hx & Hz & Hd).
    destruct Hv as (H1 & H2 & H3). by apply (proj2 temporal_decided true nanos z).
  - injection Ht as <-. destruct Hv as [(Hd & He & Ho) Hs].
    destruct (reads_numeric _ _ _ _ _ Hread Hd) as (p & s & Hft).
    eapply decimal_decided; eauto.
Qed.
End column.
End decides.




(** ** The planner keeps its promises *)
Lemma planned_value_scalar {B : PgBackend} c spec utf8 v :
  planned_value_type c spec utf8 = Some v → is_scalar_oid (type_oid (declared_type c)) = true.
Proof.
  intros Hv%planned_value_type_cases. destruct v as [| | |w| | | | | | |[]|[]| |sm|]; simpl in Hv; try done.
  all: destruct Hv as [H1 _]; first [by apply text_scalar|by rewrite H1|by destruct H1 as [-> | ->]|by destruct H1 as (-> & _)].
Qed.

Section sound.
Context {B : PgBackend} {PT : PgTypes} {IA : IcebergArrow} {HL : PgBackendLaws B} {IAL : IcebergArrowLaws IA}.
Context (pl : IcebergFilterPlanner) (f : PredicateFragment) (stored : StoredRow).

(** A schema finds the fields it names by their id. *)
Definition schema_indexed (s : IcebergSchema) : Prop :=
  ∀ name field, field_by_name s name = Some field → field_by_id s (nested_id field) = Some field.

(** The field of a planned column. *)
Lemma planner_column_field attno c (oid : Oid) m (r : Z → option PgDatum) : planner_column pl attno = Ok (Some c) →
  attr_types (planner_layout pl) !! Z.to_nat (attno - 1) = Some (oid, m) → row_conforms pl stored r →
  ∃ name field, field_by_name (planner_schema pl) name = Some field ∧ nested_id field = field_id c ∧
    column_conforms (nested_type field) oid m (stored (field_id c)) (r attno) ∧
    ∀ p s, nested_type field = Some (TDecimal p s) → m = numeric_typmod p s.
Proof.
  unfold planner_column. intros Hc Ha Hr. destruct (layout_column _ _) as [col|] eqn:Hcol; [|done]. csimpl in Hc.
  destruct (field_by_name _ _) as [field|] eqn:Hf; [|done]. csimpl in Hc.
  pose proof (Hr _ _ _ _ _ Hcol Hf Ha) as Hconf. exists (live_name col), field.
  assert (mkIcebergColumn (nested_id field) (live_name col) = c ∧
    ∀ p s, nested_type field = Some (TDecimal p s) → m = numeric_typmod p s) as [<- Hdec].
  { destruct (nested_type field) as [[]|]; try (by injection Hc as <-). rewrite Ha in Hc. csimpl in Hc.
    destruct (m =? numeric_typmod precision scale) eqn:Hm; simpl in Hc; [|done]. injection Hc as <-. split; [done|].
    intros p s [= -> ->]. by apply Z.eqb_eq. }
  done.
Qed.

Lemma plan_comparison_operator c spec op utf8 s v :
  policy_plan_comparison c spec (op_identity op) utf8 = Some (s, v) →
  planned_value_type c spec utf8 = Some v ∧
  (∃ sg, for_operator (opno op) = Some sg ∧ signature_kind sg = supported_operator s) ∧
  (is_text_oid (type_oid (value_type c)) = true → compares_bytes op).
Proof.
  unfold policy_plan_comparison. destruct (planned_value_type c spec utf8) as [v'|]; [|done]. csimpl.
  unfold op_class. csimpl. destruct (for_operator (opno op)) as [sg|] eqn:Hsg; [|done]. csimpl.
  destruct (same_family _ _); [|done]. csimpl. set (oid := type_oid (value_type c)).
  destruct (capability_for_class _ _ _ _) as [cap|] eqn:Hcap; [|done]. intros [= <- <-]. split; [done|].
  split; [by exists sg|]. intros Ht. rewrite Ht in Hcap. intros sg' Hsg'. rewrite Hsg in Hsg'. injection Hsg' as <-.
  intros Hnone. unfold capability_for_class in Hcap. rewrite Hnone in Hcap. unfold is_text_oid in Ht.
  apply orb_true_iff in Ht as [Ht%Z.eqb_eq|Ht%Z.eqb_eq]; by rewrite Ht in Hcap.
Qed.

(** What a comparison was resolved from. *)
Lemma resolve_comparison_Ok c spec op r (rw : Z → option PgDatum) : schema_indexed (planner_schema pl) →
  column_typed pl c → row_conforms pl stored rw → resolve_comparison pl c spec op = Ok (Some r) →
  ∃ v field, policy_plan_comparison c spec (op_identity op) (planner_utf8 pl) = Some (supported r, v) ∧
    field_by_id (planner_schema pl) (field_id (resolved_column r)) = Some field ∧
    with_source_type v (nested_type field) = Some (resolved_type r) ∧
    column_conforms (nested_type field) (type_oid (declared_type c)) (typmod (declared_type c))
      (stored (field_id (resolved_column r))) (rw (attno c)) ∧
    (∀ p s, nested_type field = Some (TDecimal p s) → typmod (declared_type c) = numeric_typmod p s).
Proof.
  intros Hsch [Hattr Hint] Hrow Hres. unfold resolve_comparison in Hres.
  destruct (policy_plan_comparison _ _ _ _) as [[s v]|] eqn:Hpol; [|done].
  destruct (planner_column pl (attno c)) as [[col|]|] eqn:Hcol; [|done..]. csimpl in Hres.
  destruct (planner_column_field _ _ _ _ _ Hcol Hattr Hrow) as (name & field & Hname & Hid & Hconf & Hdec).
  apply Hsch in Hname. rewrite Hid in Hname. rewrite Hname in Hres. csimpl in Hres.
  destruct (with_source_type v (nested_type field)) as [t|] eqn:Ht; [|done]. injection Hres as <-. simpl. by exists v, field.
Qed.

(** What a resolved comparison compares. *)
Lemma resolve_comparison_decides c spec op r (rw : Z → option PgDatum) : schema_indexed (planner_schema pl) →
  column_typed pl c → row_conforms pl stored rw → resolve_comparison pl c spec op = Ok (Some r) →
  (∃ sg, for_operator (opno op) = Some sg ∧ signature_kind sg = supported_operator (supported r)) ∧
  match stored (field_id (resolved_column r)), rw (attno c) with
  | None, None => True
  | Some x, Some d => ∀ y, has_type (spec_type spec) y → ∃ cmp, stored_compare (resolved_type r) x y = Some cmp ∧
      decides op (type_oid (value_type c)) (type_oid (spec_type spec)) (coerce d (type_oid (value_type c))) y cmp
  | _, _ => False
  end.
Proof.
  intros Hsch Hc Hrow Hres.
  destruct (resolve_comparison_Ok _ _ _ _ _ Hsch Hc Hrow Hres) as (v & field & Hpol & _ & Ht & Hconf & Hdec).
  destruct (plan_comparison_operator _ _ _ _ _ _ Hpol) as (Hv & Hsg & Htext). split; [done|].
  unfold column_conforms in Hconf. destruct (stored _) as [x|], (rw (attno c)) as [d|]; try done.
  destruct (nested_type field) as [ft|]; [|by rewrite (planned_value_scalar _ _ _ _ Hv) in Hconf].
  intros y Hy. apply (stored_decides _ _ ft x d y op (read_as_reads_to _ _ _ _ _ Hconf) (proj2 Hc) Hy (planner_utf8 pl) v); auto.
  intros p sc ->. by apply Hdec.
Qed.

(** The type of a column in the schema of the table. *)
Definition field_typed (s : IcebergSchema) (id : Z) (t : PrimitiveType) : Prop :=
  ∃ field, field_by_id s id = Some field ∧ nested_type field = Some t.

Lemma resolve_comparison_matches c spec op r (rw : Z → option PgDatum) : schema_indexed (planner_schema pl) →
  column_typed pl c → row_conforms pl stored rw → resolve_comparison pl c spec op = Ok (Some r) →
  (∀ y, has_type (spec_type spec) y → value_matches (resolved_type r) y) ∧
  ∀ x, stored (field_id (resolved_column r)) = Some x → scalar_matches (resolved_type r) x ∧
    field_typed (planner_schema pl) (field_id (resolved_column r)) (storage_type (resolved_type r)).
Proof.
  intros Hsch Hc Hrow Hres.
  destruct (resolve_comparison_Ok _ _ _ _ _ Hsch Hc Hrow Hres) as (v & field & Hpol & Hf & Ht & Hconf & Hdec).
  destruct (plan_comparison_operator _ _ _ _ _ _ Hpol) as (Hv & _). split.
  - intros y. by eapply planned_value_matches.
  - intros x Hx. rewrite Hx in Hconf. unfold column_conforms in Hconf. destruct (rw (attno c)) as [d|]; [|done].
    destruct (nested_type field) as [ft|] eqn:Hft; [|by rewrite (planned_value_scalar _ _ _ _ Hv) in Hconf].
    destruct (storage_matches _ _ _ _ _ _ _ _ Hv Ht (read_as_reads_to _ _ _ _ _ Hconf)) as [Hm Hst].
    { intros p s ->. by apply Hdec. }
    split; [done|]. exists field. by rewrite Hst.
Qed.

(** The elements of the array in a slot have the type of its elements. *)
Definition set_typed (values : list (option PgDatum)) (s : ScalarExpr) : Prop :=
  ∀ id spec element d, s = Value id → runtime_values f !! id = Some spec → array_element spec = Some element →
    values !! id = Some (Some d) → ∀ y, Some y ∈ elements pg_scalars d → has_type (spec_type element) y.

Definition element_oid (s : ScalarExpr) : option Oid :=
  match s with
  | Column _ => None
  | Value id => spec ← runtime_values f !! id; (λ element, type_oid (spec_type element)) <$> array_element spec
  end.

(** The typing that PostgreSQL's parser gives every leaf of a fragment. *)
Definition leaf_typed (values : list (option PgDatum)) (e : PgPredicate) : Prop :=
  match e with
  | Comparison op l r => scalar_typed pl f values l ∧ scalar_typed pl f values r ∧
      operator_typed op (operand_oid f l) (operand_oid f r)
  | InSet op v s => scalar_typed pl f values v ∧ set_typed values s ∧ operator_typed op (operand_oid f v) (element_oid s)
  | StartsWith v p => scalar_typed pl f values v ∧ scalar_typed pl f values p
  | BooleanTest _ v => scalar_typed pl f values v ∧ ∀ c, v = Column c → type_oid (declared_type c) = BOOLOID
  | StrictTrue v | StrictFalse v | IsNull v | IsNotNull v | IsNan v | IsNotNan v => scalar_typed pl f values v
  | _ => True
  end.

Definition env_typed (env : Environment) (e : PgPredicate) : Prop :=
  row_conforms pl stored (row env) ∧ leaf_typed (slots env) e.

Context (Hsch : schema_indexed (planner_schema pl)).
Definition planned_meaning (env : Environment) (p : PlannedNode) : tri := node_eval stored (slots env) (node p).

(** A column is NULL where the stored value is; the other values are read. *)
Definition column_reads (c : ColumnRef) (col : PlannedIcebergColumn) (d : option PgDatum) : Prop :=
  match stored (field_id col), d with
  | None, None => True
  | Some x, Some d => is_scalar_oid (type_oid (declared_type c)) = true →
      ∃ ft, field_typed (planner_schema pl) (field_id col) ft ∧
        reads_to ft (type_oid (declared_type c)) (typmod (declared_type c)) x d
  | _, _ => False
  end.

Lemma planned_column_reads c col (r : Z → option PgDatum) : planner_column pl (attno c) = Ok (Some col) →
  column_typed pl c → row_conforms pl stored r → column_reads c col (r (attno c)).
Proof.
  intros Hcol [Hattr _] Hrow. unfold column_reads.
  destruct (planner_column_field _ _ _ _ _ Hcol Hattr Hrow) as (name & field & Hname & Hid & Hconf & _).
  unfold column_conforms in Hconf. destruct (stored _) as [x|], (r _) as [d|]; try done. intros Hsc.
  destruct (nested_type field) as [ft|] eqn:Hft; [|by rewrite Hsc in Hconf]. exists ft. split; [|by apply read_as_reads_to].
  exists field. split; [|done]. rewrite <- Hid. by eapply Hsch.
Qed.

Lemma plan_column_Ok v acc build q : plan_column pl v acc build = Ok q →
  q = Unsupported ∨ ∃ c col, v = Column c ∧ acc c = true ∧ planner_column pl (attno c) = Ok (Some col) ∧ q = build col.
Proof.
  unfold plan_column. destruct v as [c|]; [|intros [= <-]; auto]. destruct (acc c) eqn:Hacc; simpl; [|intros [= <-]; auto].
  destruct (planner_column pl (attno c)) as [[col|]|] eqn:Hcol; csimpl; [|intros [= <-]; auto|done]. intros [= <-].
  right. by exists c, col.
Qed.

(** A resolved comparison, on either side, has the meaning of the operator. *)
Lemma resolved_compare env op c spec r (y : option PgDatum) (m : bool) : row_conforms pl stored (row env) →
  resolve_comparison pl c spec op = Ok (Some r) → column_typed pl c → (∀ d, y = Some d → has_type (spec_type spec) d) →
  (let l := Some (type_oid (value_type c)) in let s := Some (type_oid (spec_type spec)) in
   operator_typed op (if m then s else l) (if m then l else s)) →
  let o := operator_of_kind (supported_operator (supported r)) in
  let a := scalar_value env (Column c) in
  compare_node (if m then mirrored o else o) (resolved_type r) (stored (field_id (resolved_column r))) y
  = strict2 (compare pg_scalars op) (if m then y else a) (if m then a else y).
Proof.
  intros Hrow Hres Hc Hy Ho. destruct (resolve_comparison_decides _ _ _ _ _ Hsch Hc Hrow Hres) as [(sg & Hsg & <-) Hdec].
  destruct (Ho sg Hsg) as [HL' HR']. simpl. destruct (stored _) as [x|], (row env (attno c)) as [d|]; try done.
  2: by destruct m, y.
  destruct y as [y|]; [|by destruct m]. destruct (Hdec y (Hy y eq_refl)) as (cmp & Hcmp & Hd). csimpl. rewrite Hcmp.
  destruct (Hd sg Hsg) as [Hd1 Hd2]. destruct m; simpl.
  - rewrite Hd2 by auto. by destruct (signature_kind sg), cmp.
  - rewrite Hd1 by auto. by destruct (signature_kind sg).
Qed.

Lemma fragment_value_Ok id spec : fragment_value f id = Ok spec → runtime_values f !! id = Some spec.
Proof. unfold fragment_value. destruct (runtime_values f !! id); [by intros [= ->]|done]. Qed.

Lemma slot_value values id spec d : slot_typed f values id → runtime_values f !! id = Some spec →
  mjoin (values !! id) = Some d → has_type (spec_type spec) d.
Proof. intros Hs Hspec Hd. apply (Hs _ _ Hspec). destruct (values !! id) as [[]|]; by simplify_eq/=. Qed.

Lemma plan_resolved_sound env op c id (m : bool) q : row_conforms pl stored (row env) → column_typed pl c →
  slot_typed f (slots env) id →
  (let l := Column c in let s := Value id in
   operator_typed op (operand_oid f (if m then s else l)) (operand_oid f (if m then l else s))) →
  plan_resolved pl f op c id m = Ok q →
  keeps (planned_meaning env) q (eval pg_scalars env (if m then Comparison op (Value id) (Column c) else Comparison op (Column c) (Value id))).
Proof.
  intros Hrow Hc Hs Ho Hq. unfold plan_resolved in Hq. destruct (fragment_value f id) as [spec|] eqn:Hf; [|done]. csimpl in Hq.
  apply fragment_value_Ok in Hf. destruct (resolve_comparison pl c spec op) as [[r|]|] eqn:Hr; csimpl in Hq; [|by injection Hq as <-|done].
  pose proof (resolved_compare env op c spec r (mjoin (slots env !! id)) m Hrow Hr Hc) as Hcmp. simpl in Hcmp.
  assert (∀ k, planned_meaning env (mkNode (Node.Comparison (if m then mirrored (operator_of_kind (supported_operator (supported r)))
    else operator_of_kind (supported_operator (supported r))) (resolved_column r) id (resolved_type r)) k)
    = eval pg_scalars env (if m then Comparison op (Value id) (Column c) else Comparison op (Column c) (Value id))) as Hden.
  { intros k. unfold planned_meaning. simpl. rewrite Hcmp; [by destruct m|intros d; by apply slot_value|]. destruct m; simpl in *; rewrite Hf in Ho; exact Ho. }
  injection Hq as <-. cbn [capability].
  destruct (if is_fixed_binary _ then _ else _); unfold keeps; [apply Hden|]. intros <-. apply Hden.
Qed.

Lemma comparison_leaf_sound env op l r q : env_typed env (Comparison op l r) →
  plan_comparison_leaf pl f op l r = Ok q → keeps (planned_meaning env) q (eval pg_scalars env (Comparison op l r)).
Proof.
  intros (Hrow & Hl & Hr & Hop) Hq. destruct l as [c|id], r as [c'|id']; simpl in Hq; try (by injection Hq as <-).
  - by apply (plan_resolved_sound env op c id' false).
  - by apply (plan_resolved_sound env op c' id true).
Qed.

Lemma in_set_leaf_sound env op v s q : env_typed env (InSet op v s) →
  plan_in_set_leaf pl f op v s = Ok q → keeps (planned_meaning env) q (eval pg_scalars env (InSet op v s)).
Proof.
  intros (Hrow & Hv & Hs & Hop) Hq. destruct v as [c|], s as [|id]; simpl in Hq; try (by injection Hq as <-).
  destruct (fragment_value f id) as [spec|] eqn:Hf; [|done]. csimpl in Hq. apply fragment_value_Ok in Hf.
  destruct (is_rescan_stable _); simpl in Hq; [|by injection Hq as <-].
  destruct (array_element spec) as [element|] eqn:He; [|by injection Hq as <-].
  destruct (resolve_comparison pl c element op) as [[r|]|] eqn:Hr; csimpl in Hq; [|by injection Hq as <-|done].
  destruct (bool_decide (supported_operator (supported r) = Equal)) eqn:Heq; simpl in Hq; [|by injection Hq as <-].
  apply bool_decide_eq_true in Heq. destruct (supports_set_membership _); simpl in Hq; [|by injection Hq as <-].
  injection Hq as <-. unfold keeps, planned_meaning. simpl. intros Htrue. rewrite <- Htrue. clear Htrue.
  destruct (slots env !! id) as [[d|]|] eqn:Hd; simpl; [|done..].
  change (PgValue AnyNumeric Float) with PgDatum. f_equal. apply list_fmap_ext. intros i y Hy.
  assert (∀ d, y = Some d → has_type (spec_type element) d) as Hty.
  { intros d' ->. eapply (Hs id spec element d); [done..|]. by eapply list_elem_of_lookup_2. }
  pose proof (resolved_compare env op c element r y false Hrow Hr Hv Hty) as Hcmp. simpl in Hcmp, Hop.
  rewrite Hf in Hop. simpl in Hop. rewrite He in Hop. rewrite Heq in Hcmp. by apply Hcmp.
Qed.

(** The filters on one column. *)
Lemma column_leaf_sound env v e acc build q : env_typed env e → scalar_typed pl f (slots env) v →
  plan_column pl v acc build = Ok q →
  (∀ c col, v = Column c → acc c = true → planner_column pl (attno c) = Ok (Some col) →
    column_typed pl c → column_reads c col (row env (attno c)) →
    keeps (planned_meaning env) (build col) (eval pg_scalars env e)) →
  keeps (planned_meaning env) q (eval pg_scalars env e).
Proof.
  intros [Hrow _] Hv Hq Hk. destruct (plan_column_Ok _ _ _ _ Hq) as [->|(c & col & -> & Hacc & Hcol & ->)]; [done|].
  apply (Hk c col); try done. by apply planned_column_reads.
Qed.

Lemma nan_test_type c : supports_nan_test c = true →
  (type_oid (declared_type c) = FLOAT4OID ∨ type_oid (declared_type c) = FLOAT8OID) ∧
  is_scalar_oid (type_oid (declared_type c)) = true.
Proof.
  unfold supports_nan_test. rewrite andb_true_r. intros [[H _]%andb_true_iff|[H _]%andb_true_iff]%orb_true_iff;
    apply Z.eqb_eq in H; rewrite H; auto.
Qed.

Lemma null_leaf_sound env v q (b : bool) : env_typed env (if b then IsNotNull v else IsNull v) →
  plan_null_test pl v b = Ok q → keeps (planned_meaning env) q (eval pg_scalars env (if b then IsNotNull v else IsNull v)).
Proof.
  intros Henv Hq. eapply (column_leaf_sound env v); [done| |exact Hq|]; [by destruct b, Henv|].
  intros c col -> _ _ _ Hread. unfold column_reads in Hread. simpl. unfold planned_meaning. destruct b; simpl;
    destruct (stored _), (row env (attno c)); simpl; done.
Qed.

Lemma nan_leaf_sound env v q (b : bool) : env_typed env (if b then IsNotNan v else IsNan v) →
  plan_nan_test pl v b = Ok q → keeps (planned_meaning env) q (eval pg_scalars env (if b then IsNotNan v else IsNan v)).
Proof.
  intros Henv Hq. eapply (column_leaf_sound env v); [done| |exact Hq|]; [by destruct b, Henv|].
  intros c col -> [Hf Hsc]%nan_test_type _ _ Hread. unfold column_reads in Hread. simpl. unfold planned_meaning.
  assert (scalar_nan <$> stored (field_id col) = is_nan pg_scalars <$> scalar_value env (Column c)) as Heq.
  { simpl. destruct (stored _) as [x|], (row env (attno c)) as [d|]; try done. destruct (Hread Hsc) as (ft & _ & Hr).
    pose proof (reads_declared _ _ _ _ _ Hr) as (_ & _ & _ & _ & _ & _ & _ & R4 & R8).
    destruct Hf as [Hf|Hf]; [destruct (R4 Hf) as (fl & -> & ->)|destruct (R8 Hf) as (fl & -> & ->)]; done. }
  destruct b; simpl in *; [|exact Heq]. rewrite !option_fmap_compose, Heq. done.
Qed.

Lemma boolean_leaf_sound env k v q : env_typed env (BooleanTest k v) →
  plan_column pl v (λ _, true) (λ c, Exact (mkNode (Node.BooleanTest k c) (pruning_costing pl c MatchValue))) = Ok q →
  keeps (planned_meaning env) q (eval pg_scalars env (BooleanTest k v)).
Proof.
  intros Henv Hq. eapply (column_leaf_sound env v); [done| |exact Hq|]; [by destruct Henv as (_ & ? & _)|].
  intros c col -> _ _ _ Hread. unfold column_reads in Hread. simpl. unfold planned_meaning. simpl. do 2 f_equal. destruct Henv as (_ & _ & Hb). specialize (Hb c eq_refl).
  destruct (stored _) as [x|], (row env (attno c)) as [d|]; try done. rewrite Hb in Hread. destruct (Hread eq_refl) as (ft & _ & Hr).
  destruct (reads_declared _ _ _ _ _ Hr) as [Rb _]. destruct (Rb eq_refl) as (b & -> & ->). done.
Qed.

Lemma starts_with_text c spec utf8 v : policy_plan_starts_with c spec utf8 = Some v →
  is_text_oid (type_oid (declared_type c)) = true ∧ is_text_oid (type_oid (spec_type spec)) = true.
Proof.
  unfold policy_plan_starts_with. destruct (planned_value_type c spec _) as [v'|] eqn:Hv; [|done]. csimpl. intros Hp.
  apply planned_value_type_cases in Hv. destruct v' as [| | |w| | | | | | |[]|[]| |sm|]; try discriminate Hp.
  by destruct Hv as (H1 & _ & H3).
Qed.

Lemma starts_with_leaf_sound env v p q : env_typed env (StartsWith v p) →
  plan_starts_with_leaf pl f v p = Ok q → keeps (planned_meaning env) q (eval pg_scalars env (StartsWith v p)).
Proof.
  intros Henv Hq. destruct v as [c|], p as [|id]; simpl in Hq; try (by injection Hq as <-).
  destruct (fragment_value f id) as [spec|] eqn:Hf; [|done]. csimpl in Hq. apply fragment_value_Ok in Hf.
  destruct (policy_plan_starts_with _ _ _) as [v|] eqn:Hp; [|by injection Hq as <-].
  destruct (starts_with_text _ _ _ _ Hp) as [Hd Ho].
  apply (column_leaf_sound env (Column c) _ (λ _, true) (λ c, ExactNoComplement (mkNode (Node.StartsWith c id)
    (pruning_costing pl c MatchOrder)))); [done|by destruct Henv as (_ & ? & _)|exact Hq|].
  intros c' col [= <-] _ _ _ Hread. unfold column_reads in Hread. destruct Henv as (_ & _ & Hs). unfold planned_meaning. simpl.
  destruct (stored _) as [x|], (row env (attno c)) as [d|]; try done. destruct (Hread (text_scalar _ Hd)) as (ft & _ & Hr).
  pose proof (reads_declared _ _ _ _ _ Hr) as (_ & _ & _ & _ & _ & _ & Rt & _). destruct (Rt Hd) as (bs & -> & ->).
  destruct (mjoin (slots env !! id)) as [y|] eqn:Hy; [|done].
  pose proof (has_type_inv _ _ (slot_value _ _ _ _ Hs Hf Hy)) as (_ & _ & _ & _ & _ & _ & _ & _ & _ & Yt & _).
  by destruct (Yt Ho) as (bs' & -> & _).
Qed.

#[export] Instance adapter_sound : SoundPlanner (adapter pl f) pg_scalars planned_meaning env_typed.
Proof.
  split.
  - intros env e q Hleaf Henv Hq. destruct e; try done; simpl in Hq.
    + by injection Hq as <-.
    + by injection Hq as <-.
    + eapply (column_leaf_sound env value); [done|by destruct Henv|exact Hq|]. intros c col -> _ _ _ Hread. unfold column_reads in Hread. unfold planned_meaning. simpl.
      by destruct (stored _), (row env (attno c)).
    + eapply (column_leaf_sound env value); [done|by destruct Henv|exact Hq|]. intros c col -> _ _ _ Hread. unfold column_reads in Hread. unfold planned_meaning. simpl.
      by destruct (row env (attno c)).
    + by apply comparison_leaf_sound.
    + by apply boolean_leaf_sound.
    + by apply (null_leaf_sound env value q false).
    + by apply (null_leaf_sound env value q true).
    + by apply (nan_leaf_sound env value q false).
    + by apply (nan_leaf_sound env value q true).
    + by apply starts_with_leaf_sound.
    + by apply in_set_leaf_sound.
  - by intros env k v [Hrow Hv].
  - intros env ps _. unfold planned_meaning. simpl. by rewrite <- list_fmap_compose.
  - intros env ps _. unfold planned_meaning. simpl. by rewrite <- list_fmap_compose.
  - done.
Qed.

(** ** Planned filters *)

(** The leaves of the fragment are typed on the row that PostgreSQL reads. *)
Definition fragment_typed (env : Environment) : Prop :=
  row_conforms pl stored (row env) ∧ Forall (leaf_typed (slots env)) (leaves (root f)).

Definition filter_keeps (env : Environment) (q : Filter.FilterPlan PlannedIcebergPredicate) : Prop :=
  let den p := node_eval stored (slots env) (planned_root (predicate p)) in
  let v := eval pg_scalars env (root f) in
  match q with
  | Filter.Unsupported => True
  | Filter.Exact p => den p = Some true ↔ v = Some true
  | Filter.Partial p | Filter.Conservative p => v = Some true → den p = Some true
  end.

Lemma try_plan_filter_keeps env q : fragment_typed env → try_plan_filter pl f = Ok q → filter_keeps env q.
Proof.
  intros [Hrow Hleaf] Hq. unfold try_plan_filter in Hq. destruct (plan_with _ _) as [plan|] eqn:Hp; [|done]. injection Hq as <-.
  assert (keeps (planned_meaning env) plan (eval pg_scalars env (root f))) as Hk.
  { eapply plan_with_keeps; [exact adapter_sound| |exact Hp]. eapply Forall_impl; [exact Hleaf|]. by split. }
  destruct plan; simpl in *; try done. unfold planned_meaning in Hk. by rewrite Hk.
Qed.
End sound.
