(* ===== verification/PredicateBinding.v ===== *)
(** * Binding planned predicates to runtime values

    Models lagodb-iceberg/src/predicate/binding.rs, binding/value.rs,
    binding/set.rs, builder.rs and temporal.rs: how a planned predicate becomes,
    for the parameter values of one execution, the predicate that prunes files
    and the one that the Arrow reader evaluates on each row.

    The predicates themselves belong to the Iceberg library, see [IcebergExpr]. *)

From stdpp Require Import base list strings.
From Stdlib Require Import ZArith Lia.
From S2P Require Import Prelude.
From S2P Require Import Bytes.
From S2P Require Import DecimalNumeric.
From S2P Require Import PredicateTree.
From S2P Require Import Expressions.
From S2P Require Import PlanData.
From S2P Require Import IcebergPredicate.
From S2P Require Import PredicatePolicy.
From S2P Require Import ArrowCodec.
From S2P Require Import PredicateMeaning.
Local Open Scope Z_scope.

(** ** Predicates of the Iceberg library *)
Module PredOp.
Inductive PredicateOperator :=
| IsNull | NotNull | IsNan | NotNan
| LessThan | LessThanOrEq | GreaterThan | GreaterThanOrEq | Eq | NotEq | StartsWith.
End PredOp.

(** The constructors of [Datum] that the code calls. *)
Inductive Literal :=
| LBool (b : bool)
| LInt (z : Z)
| LLong (z : Z)
| LDate (days : Z)
| LTimestamp (p : TimestampPrecision) (tz : bool) (units : Z)
| LString (bytes : list byte)
| LUuid (bytes : list byte)
| LFixed (bytes : list byte)
| LBinary (bytes : list byte)
| LDecimal (unscaled precision scale : Z).

(** [Reference::new_bound_field]. *)
Record Reference := mkReference { ref_name : RString; ref_field : Z }.

(** [accepts schema present p row]: the row filter [p] keeps a row of a data file
    whose Parquet schema has the columns of [present]. *)
Class IcebergExpr (F : Type) := {
  Predicate : Type;
  IDatum : Type;
  literal : Literal → IDatum;
  decimal_from_unscaled : Z → Z → Z → result string IDatum;
  always_true : Predicate;
  always_false : Predicate;
  unary : PredOp.PredicateOperator → Reference → Predicate;
  binary : PredOp.PredicateOperator → Reference → IDatum → Predicate;
  is_in : Reference → list IDatum → Predicate;
  pred_and : Predicate → Predicate → Predicate;
  pred_or : Predicate → Predicate → Predicate;
  pred_not : Predicate → Predicate;
  accepts : IcebergSchema → (Z → bool) → Predicate → (Z → option (Scalar F)) → bool;
}.

(** The type of a literal and how a stored value of this type compares with it. *)
Definition literal_type (l : Literal) : PrimitiveType :=
  match l with
  | LBool _ => TBoolean
  | LInt _ => TInt
  | LLong _ => TLong
  | LDate _ => TDate
  | LTimestamp Microseconds false _ => TTimestamp
  | LTimestamp Microseconds true _ => TTimestamptz
  | LTimestamp Nanoseconds false _ => TTimestampNs
  | LTimestamp Nanoseconds true _ => TTimestamptzNs
  | LString _ => TString
  | LUuid _ => TUuid
  | LFixed bs => TFixed (blen bs)
  | LBinary _ => TBinary
  | LDecimal _ p s => TDecimal p s
  end.

Definition literal_compare {F} (x : Scalar F) (l : Literal) : option comparison :=
  match x, l with
  | ABool b, LBool b' => Some (Z.b2z b ?= Z.b2z b')
  | AI32 z, LInt z' | AI64 z, LLong z' | ADate32 z, LDate z' | ATimestamp z, LTimestamp _ _ z'
  | ADecimal z, LDecimal z' _ _ => Some (z ?= z')
  | AString bs, LString bs' | ABytes bs, (LUuid bs' | LFixed bs' | LBinary bs') => Some (bytes_compare bs bs')
  | _, _ => None
  end.

Definition predicate_operator (o : PlannedComparisonOperator) : PredOp.PredicateOperator :=
  match o with
  | PEq => PredOp.Eq
  | PNotEq => PredOp.NotEq
  | PLt => PredOp.LessThan
  | PLe => PredOp.LessThanOrEq
  | PGt => PredOp.GreaterThan
  | PGe => PredOp.GreaterThanOrEq
  end.

(** What the library documents: comparisons and NaN tests reject NULL (what "not
    NaN" says of a NULL is left open), null tests look at validity only, a set is
    the disjunction of its equalities.  A column that the file does not have is
    treated as NULL, except that the ordered comparisons below a bound accept
    every row (apache/iceberg-rust issue 3355, reported at the top of
    [PredicatePushdownPolicy]).  [pr] tells which columns the file has. *)
Class IcebergExprLaws {F} (IE : IcebergExpr F) (nan : Scalar F → bool) : Prop := {
  decimal_literal : ∀ u p s, 1 ≤ p ≤ 38 → 0 ≤ s ≤ p → Z.abs u < 10 ^ p →
    decimal_from_unscaled u p s = Ok (literal (LDecimal u p s));
  accepts_always_true : ∀ sch pr row, accepts sch pr always_true row = true;
  accepts_always_false : ∀ sch pr row, accepts sch pr always_false row = false;
  accepts_and : ∀ sch pr p q row, accepts sch pr (pred_and p q) row = accepts sch pr p row && accepts sch pr q row;
  accepts_or : ∀ sch pr p q row, accepts sch pr (pred_or p q) row = accepts sch pr p row || accepts sch pr q row;
  accepts_is_null : ∀ sch pr r row, pr (ref_field r) = true ∨ row (ref_field r) = None →
    accepts sch pr (unary PredOp.IsNull r) row = is_null (row (ref_field r));
  accepts_not_null : ∀ sch pr r row, pr (ref_field r) = true ∨ row (ref_field r) = None →
    accepts sch pr (unary PredOp.NotNull r) row = negb (is_null (row (ref_field r)));
  accepts_is_nan : ∀ sch pr r row, pr (ref_field r) = true ∨ row (ref_field r) = None →
    accepts sch pr (unary PredOp.IsNan r) row = from_option nan false (row (ref_field r));
  accepts_not_nan : ∀ sch pr r row x, pr (ref_field r) = true → row (ref_field r) = Some x →
    accepts sch pr (unary PredOp.NotNan r) row = negb (nan x);
  accepts_compare_null : ∀ sch pr o r d row, pr (ref_field r) = true ∨ (o ≠ PLt ∧ o ≠ PLe) → row (ref_field r) = None →
    accepts sch pr (binary (predicate_operator o) r d) row = false;
  accepts_compare : ∀ sch pr o r l row x c, pr (ref_field r) = true → row (ref_field r) = Some x →
    field_typed sch (ref_field r) (literal_type l) → literal_compare x l = Some c →
    accepts sch pr (binary (predicate_operator o) r (literal l)) row = kind_holds (operator_kind o) c;
  accepts_compare_missing : ∀ sch pr o r d row, pr (ref_field r) = false → o = PLt ∨ o = PLe →
    accepts sch pr (binary (predicate_operator o) r d) row = true;
  accepts_starts_with_null : ∀ sch pr r d row, row (ref_field r) = None →
    accepts sch pr (binary PredOp.StartsWith r d) row = false;
  accepts_starts_with : ∀ sch pr r p row bs, pr (ref_field r) = true → row (ref_field r) = Some (AString bs) →
    field_typed sch (ref_field r) TString →
    accepts sch pr (binary PredOp.StartsWith r (literal (LString p))) row = is_prefix p bs;
  accepts_in : ∀ sch pr r ls row x l, pr (ref_field r) = true → row (ref_field r) = Some x →
    Forall (λ l, field_typed sch (ref_field r) (literal_type l)) ls → l ∈ ls → literal_compare x l = Some Eq →
    accepts sch pr (is_in r (literal <$> ls)) row = true;
}.

(** ** Leaf construction *)
Section builder.
Context {F : Type} {IE : IcebergExpr F}.

(** An [IcebergPredicateBuilder] is its reference. *)
Definition builder (c : PlannedIcebergColumn) : Reference := mkReference (debug_name c) (field_id c).

Definition null_test (r : Reference) (is_not_null : bool) : Predicate :=
  unary (if is_not_null then PredOp.NotNull else PredOp.IsNull) r.

Definition nan_test (r : Reference) (is_not_nan : bool) : Predicate :=
  let p := unary (if is_not_nan then PredOp.NotNan else PredOp.IsNan) r in
  if is_not_nan then pred_and (unary PredOp.NotNull r) p else p.

Definition build_boolean_test (r : Reference) (kind : BooleanTestKind) : Predicate :=
  match kind with
  | IsTrue | IsFalse => binary PredOp.Eq r (literal (LBool (bool_decide (kind = IsTrue))))
  | IsNotTrue | IsNotFalse =>
      pred_or (null_test r false) (binary PredOp.Eq r (literal (LBool (bool_decide (kind = IsNotFalse)))))
  | IsUnknown => null_test r false
  | IsNotUnknown => null_test r true
  end.

(** ** Timestamps *)
Record TimestampComparison := mkTimestamp { unix_micros : Z; precision : TimestampPrecision; with_timezone : bool }.

Definition from_pg_micros (pg_micros : Z) (p : TimestampPrecision) (tz : bool) : option TimestampComparison :=
  if (pg_micros =? - 2 ^ 63) || (pg_micros =? 2 ^ 63 - 1) then None
  else (λ unix, mkTimestamp unix p tz) <$> pg_epoch_micros_to_unix_micros pg_micros.

Definition nanos_boundary (t : TimestampComparison) (upper : bool) : option IDatum :=
  micros ← (if upper then checked_i64 (unix_micros t + 1) else Some (unix_micros t));
  nanos ← checked_i64 (micros * 1000);
  Some (literal (LTimestamp Nanoseconds (with_timezone t) nanos)).

Definition bind_timestamp (t : TimestampComparison) (r : Reference) (operator : PlannedComparisonOperator)
    : option Predicate :=
  match precision t with
  | Microseconds =>
      Some (binary (predicate_operator operator) r (literal (LTimestamp Microseconds (with_timezone t) (unix_micros t))))
  | Nanoseconds =>
      match operator with
      | PEq | PNotEq =>
          lower ← nanos_boundary t false;
          upper ← nanos_boundary t true;
          Some (match operator with
                | PEq => pred_and (binary PredOp.GreaterThanOrEq r lower) (binary PredOp.LessThan r upper)
                | _ => pred_or (binary PredOp.LessThan r lower) (binary PredOp.GreaterThanOrEq r upper)
                end)
      | PLt => binary PredOp.LessThan r <$> nanos_boundary t false
      | PLe => binary PredOp.LessThan r <$> nanos_boundary t true
      | PGt => binary PredOp.GreaterThanOrEq r <$> nanos_boundary t true
      | PGe => binary PredOp.GreaterThanOrEq r <$> nanos_boundary t false
      end
  end.
End builder.

(** ** Values *)
Inductive BoundComparisonValue (D : Type) :=
| BoundTimestamp (t : TimestampComparison)
| BoundDatum (d : D)
| OutsideFinite (v : Decimal128ComparisonValue)
| OutsideInteger (b : Int32OutOfRange).
Arguments BoundTimestamp {D}.
Arguments BoundDatum {D}.
Arguments OutsideFinite {D}.
Arguments OutsideInteger {D}.

Section binder.
Context {B : PgBackend} {IE : IcebergExpr Float}.
Local Notation R := (result IcebergFilterError).

(** [decode_value]: the datum is read as the value type says; a slot holds a datum
    of its own type. *)
Definition decode_value (t : PlannedValueType) (type_oid : Oid) (d : PgDatum) : R (option (BoundComparisonValue IDatum)) :=
  let exact l := Ok (Some (BoundDatum (literal l))) in
  match t, d with
  | VBoolean, PgBool b => exact (LBool b)
  | VUuid, PgUuid bs => exact (LUuid bs)
  | VFixedBinary w, PgBytea bs => if blen bs =? w then exact (LFixed bs) else Ok None
  | VBinary, PgBytea bs => exact (LBinary bs)
  | VInt2ToLong, PgInt2 z | VInt4ToLong, PgInt4 z | VInt8, PgInt8 z => exact (LLong z)
  | VInt2, PgInt2 z | VInt4, PgInt4 z => exact (LInt z)
  | VInt8ToInt, PgInt8 z =>
      match narrow z with
      | Ok z => exact (LInt z)
      | Err boundary => Ok (Some (OutsideInteger boundary))
      end
  | VDate, PgDate days =>
      if (days =? - 2 ^ 31) || (days =? 2 ^ 31 - 1) then Ok None
      else Ok ((λ d, BoundDatum (literal (LDate d))) <$> pg_epoch_days_to_unix_days days)
  | VTimestamp p, PgTimestamp micros => Ok (BoundTimestamp <$> from_pg_micros micros p false)
  | VTimestamptz p, PgTimestamptz micros => Ok (BoundTimestamp <$> from_pg_micros micros p true)
  | VString, PgText bs => exact (LString bs)
  | VDecimal128 s, PgNumeric n =>
      match encode_comparison_datum numeric_send (semantics_codec s) n with
      | Err fault => Err (DecimalCodec fault)
      | Ok (Finite coefficient) =>
          match decimal_from_unscaled coefficient (sem_precision s) (sem_scale s) with
          | Ok d => Ok (Some (BoundDatum d))
          | Err message => Err (IcebergLibrary message)
          end
      | Ok special => Ok (Some (OutsideFinite special))
      end
  | _, _ => Err (DatumDecode type_oid)
  end.

(** ** The binder *)

(** [RuntimeValueBindings::value]: the slots and their metadata. *)
Context (values : list RuntimeValue).

Definition bound_value (id : RuntimeValueId) : R RuntimeValue := ok_or (values !! id) FilterPanic.

Definition value_oid (v : RuntimeValue) : Oid := type_oid (spec_type (metadata v)).

Definition bind_starts_with (c : PlannedIcebergColumn) (v : RuntimeValue) (negated : bool) : R (option Predicate) :=
  match datum v with
  | None => Ok (Some always_false)
  | Some d =>
      decoded ← decode_value VString (value_oid v) d;
      Ok (match decoded with
          | Some (BoundDatum prefix) =>
              let p := binary PredOp.StartsWith (builder c) prefix in
              Some (if negated then pred_not p else p)
          | _ => None
          end)
  end.

(** [matches_finite_column] of a finite value is a failed [expect]. *)
Definition bind_comparison (operator : PlannedComparisonOperator) (c : PlannedIcebergColumn) (t : PlannedValueType)
    (v : RuntimeValue) (negated : bool) : R (option Predicate) :=
  match datum v with
  | None => Ok (Some always_false)
  | Some d =>
      decoded ← decode_value t (value_oid v) d;
      let operator := if negated then operator_negated operator else operator in
      let matching (b : bool) : Predicate := if b then null_test (builder c) true else always_false in
      match decoded with
      | None => Ok None
      | Some (BoundTimestamp t) => Ok (bind_timestamp t (builder c) operator)
      | Some (BoundDatum d) => Ok (Some (binary (predicate_operator operator) (builder c) d))
      | Some (OutsideFinite v) =>
          b ← ok_or (matches_finite_column v (operator_kind operator)) FilterPanic;
          Ok (Some (matching b))
      | Some (OutsideInteger b) => Ok (Some (matching (comparison_matches_non_null b (operator_kind operator))))
      end
  end.

(** The loop of [bind_in_set]: [None] is its early return. *)
Fixpoint set_literals (t : PlannedValueType) (oid : Oid) (elements : list (option PgDatum)) (literals : list IDatum)
    : R (option (list IDatum)) :=
  match elements with
  | [] => Ok (Some literals)
  | None :: rest => set_literals t oid rest literals
  | Some d :: rest =>
      decoded ← decode_value t oid d;
      match decoded with
      | Some (BoundDatum l) => set_literals t oid rest (literals ++ [l])
      | Some (OutsideInteger _) => set_literals t oid rest literals
      | _ => Ok None
      end
  end.

Definition bind_in_set (c : PlannedIcebergColumn) (t : PlannedValueType) (set : RuntimeValue) : R (option Predicate) :=
  match datum set with
  | None => Ok (Some always_false)
  | Some d =>
      element ← ok_or (array_element (metadata set)) FilterPanic;
      literals ← set_literals t (type_oid (spec_type element)) (elements pg_scalars d) [];
      Ok (Some (match literals with Some ls => is_in (builder c) ls | None => always_true end))
  end.

Definition LogicalKind_start (conjunction : bool) : Predicate := if conjunction then always_true else always_false.
Definition LogicalKind_combine (conjunction : bool) : Predicate → Predicate → Predicate :=
  if conjunction then pred_and else pred_or.

(** [bind_logical]. *)
Section logical.
Context (bind_child : Node.PlannedIcebergNode → R (option Predicate)) (conjunction : bool).

Fixpoint bind_logical (acc : Predicate) (children : list Node.PlannedIcebergNode) : R (option Predicate) :=
  match children with
  | [] => Ok (Some acc)
  | child :: rest =>
      bound ← bind_child child;
      match bound with
      | None => Ok None
      | Some p => bind_logical (LogicalKind_combine conjunction acc p) rest
      end
  end.
End logical.

Fixpoint bind_node (n : Node.PlannedIcebergNode) (negated : bool) : R (option Predicate) :=
  match n with
  | Node.AlwaysTrue => Ok (Some (if negated then always_false else always_true))
  | Node.AlwaysFalse => Ok (Some (if negated then always_true else always_false))
  | Node.Comparison op c id t => v ← bound_value id; bind_comparison op c t v negated
  | Node.BooleanTest k c => Ok (Some (build_boolean_test (builder c) (if negated then kind_negated k else k)))
  | Node.IsNull c => Ok (Some (null_test (builder c) negated))
  | Node.IsNotNull c => Ok (Some (null_test (builder c) (negb negated)))
  | Node.IsNan c => Ok (Some (nan_test (builder c) negated))
  | Node.IsNotNan c => Ok (Some (nan_test (builder c) (negb negated)))
  | Node.StartsWith c id => v ← bound_value id; bind_starts_with c v negated
  | Node.InSet c id t => v ← bound_value id; bind_in_set c t v
  | Node.And children =>
      bind_logical (λ c, bind_node c negated) (negb negated) (LogicalKind_start (negb negated)) children
  | Node.Or children =>
      bind_logical (λ c, bind_node c negated) negated (LogicalKind_start negated) children
  | Node.Not child => bind_node child (negb negated)
  end.

(** [reduce] of no predicate is a failed [expect]; the shared tree rules never
    combine an empty list. *)
Definition combine_predicates (f : Predicate → Predicate → Predicate) (ps : list Predicate) : Predicate :=
  match ps with [] => always_false | p :: ps => foldl f p ps end.

Definition bind_row_filter (n : Node.PlannedIcebergNode) : R (PredicatePlan Predicate) :=
  row_filter (λ leaf, bound ← bind_node leaf false; Ok (match bound with Some p => Exact p | None => Unsupported end))
    (combine_predicates pred_and) (combine_predicates pred_or) n.
End binder.

(** ** Bound predicates *)
Module Row.
Inductive RowFilter (P : Type) := Pruning | Projected (p : P) | Skipped.
Arguments Pruning {P}.
Arguments Projected {P}.
Arguments Skipped {P}.
End Row.

Inductive FilterBindResult (A : Type) := Bound (b : A) | ValueNotRepresentable.
Arguments Bound {A}.
Arguments ValueNotRepresentable {A}.

Section bound.
Context {B : PgBackend} {IE : IcebergExpr Float}.

Record BoundIcebergPredicate := mkBound {
  bound_schema : Z;
  bound_predicate : Predicate;
  bound_row_filter : Row.RowFilter Predicate;
}.

Definition bind (p : PlannedIcebergPredicate) (values : list RuntimeValue)
    : result IcebergFilterError (FilterBindResult BoundIcebergPredicate) :=
  bound ← bind_node values (planned_root p) false;
  match bound with
  | None => Ok ValueNotRepresentable
  | Some predicate =>
      rf ← (if contains_in_set (planned_root p) then
              plan ← bind_row_filter values (planned_root p);
              Ok (match into_predicate plan with Some p => Row.Projected p | None => Row.Skipped end)
            else Ok Row.Pruning);
      Ok (Bound (mkBound (schema_id p) predicate rf))
  end.

Fixpoint validate_schema (bs : list BoundIcebergPredicate) (execution_schema_id : Z) : result IcebergFilterError () :=
  match bs with
  | [] => Ok ()
  | b :: rest =>
      if negb (bound_schema b =? execution_schema_id) then Err (SchemaMismatch (bound_schema b) execution_schema_id)
      else validate_schema rest execution_schema_id
  end.

Definition conjoin_predicates (ps : list Predicate) : option Predicate :=
  match ps with [] => None | p :: ps => Some (foldl pred_and p ps) end.

Definition conjoin (bs : list BoundIcebergPredicate) : option Predicate := conjoin_predicates (bound_predicate <$> bs).

Definition row_predicate (b : BoundIcebergPredicate) : option Predicate :=
  match bound_row_filter b with
  | Row.Pruning => Some (bound_predicate b)
  | Row.Projected p => Some p
  | Row.Skipped => None
  end.

Definition conjoin_row_filter (bs : list BoundIcebergPredicate) : option Predicate :=
  conjoin_predicates (omap row_predicate bs).
End bound.

(** ** What a bound value says *)
Lemma kind_holds_negated o c :
  kind_holds (operator_kind (operator_negated o)) c = negb (kind_holds (operator_kind o) c).
Proof. by destruct o, c. Qed.

Lemma narrow_cases z : match narrow z with
  | Ok z' => z' = z
  | Err b => ∀ y k, - 2 ^ 31 ≤ y < 2 ^ 31 → comparison_matches_non_null b k = kind_holds k (y ?= z)
  end.
Proof.
  unfold narrow. destruct (_ && _) eqn:Hr; [done|]. intros y k Hy.
  destruct (z <? 0) eqn:Hz; [assert ((y ?= z) = Gt) as -> by (apply Z.compare_gt_iff; lia)|
    assert ((y ?= z) = Lt) as -> by (apply Z.compare_lt_iff; lia)]; by destruct k.
Qed.

Lemma numeric_coefficient_range c bytes u : numeric_send_to_i128 c bytes = Ok u → Z.abs u < 10 ^ DecimalNumeric.precision c.
Proof.
  unfold numeric_send_to_i128. intros H.
  repeat match type of H with
  | mbind _ ?m = Ok _ => destruct m; [csimpl in H|discriminate H]
  | (if ?b then _ else _) = Ok _ => destruct b eqn:?; try discriminate H
  end.
  injection H as <-. lia.
Qed.

Section values.
Context {B : PgBackend} {IE : IcebergExpr Float} {IEL : IcebergExprLaws IE scalar_nan}.

(** A decoded value compares with the stored ones as the datum does. *)
Definition bound_as (t : PlannedValueType) (d : PgDatum) (b : BoundComparisonValue IDatum) : Prop :=
  match b with
  | BoundDatum l => ∃ lit, l = literal lit ∧ literal_type lit = storage_type t ∧
      ∀ x, scalar_matches t x → literal_compare x lit = stored_compare t x d
  | OutsideInteger bound => ∀ x, scalar_matches t x → ∃ c, stored_compare t x d = Some c ∧
      ∀ k, comparison_matches_non_null bound k = kind_holds k c
  | OutsideFinite v => ∀ x, scalar_matches t x → ∃ c, stored_compare t x d = Some c ∧
      ∀ k, matches_finite_column v k = Some (kind_holds k c)
  | BoundTimestamp tc => t = (if with_timezone tc then VTimestamptz else VTimestamp) (precision tc) ∧
      d = (if with_timezone tc then PgTimestamptz else PgTimestamp) (unix_micros tc - PG_EPOCH_USECS_DIFF)
  end.

(** Values that need no timestamp interval. *)
Definition plain_value (b : BoundComparisonValue IDatum) : Prop :=
  match b with BoundTimestamp _ => False | OutsideFinite v => ∀ u, v ≠ Finite u | _ => True end.

Lemma decode_decimal s oid n : value_matches (VDecimal128 s) (PgNumeric n) →
  ∃ v, decode_value (VDecimal128 s) oid (PgNumeric n) = Ok (Some v) ∧ bound_as (VDecimal128 s) (PgNumeric n) v ∧ plain_value v.
Proof.
  intros [Hs [v Hv]]. simpl. rewrite Hv. unfold semantics_new in Hs.
  destruct (sem_scale s <? 0) eqn:Hsc; [done|]. destruct (codec_new _ _) as [c|] eqn:Hc; [|done].
  assert (0 ≤ sem_precision s) as Hp0.
  { unfold codec_new in Hc. destruct (_ || _); [done|]. destruct (sem_precision s <? sem_scale s) eqn:Hlt; [done|lia]. }
  destruct (codec_new_Ok _ _ c Hc) as (-> & Hp & Hs'); [done|].
  assert (∀ u, v = Finite u → Z.abs u < 10 ^ sem_precision s) as Hu.
  { intros u ->. unfold encode_comparison_datum, encode_comparison_bytes in Hv.
    destruct (ok_or _ _) as [sgn|]; [|done]. csimpl in Hv. destruct (_ || _); [|repeat case_bool; done].
    destruct (numeric_send_to_i128 _ _) as [u'|] eqn:Hn; [|done]. injection Hv as ->. by apply numeric_coefficient_range in Hn. }
  destruct v as [u| | |].
  1: { rewrite decimal_literal by (try apply Hu; try done; lia). eexists. split; [done|]. split; [|done].
    exists (LDecimal u (sem_precision s) (sem_scale s)). split_and!; [done..|]. intros x Hx. destruct x; try done. simpl. by rewrite Hv. }
  all: eexists; (split; [done|]); (split; [|done]); intros x Hx; destruct x as [| | | | | | | | | | |u]; try done; simpl; rewrite Hv;
    eexists; (split; [done|]); intros k; by destruct k.
Qed.

Lemma decode_value_bound t oid d b : value_matches t d → decode_value t oid d = Ok (Some b) → bound_as t d b.
Proof.
  intros Hd Hb. destruct t as [| | |w| | | | | | |p|p| |s|]; destruct d; try done; simpl in Hb.
  all: try (by injection Hb as <-; eexists; (split; [done|]); (split; [done|]); intros x Hx; destruct x).
  - destruct (blen bytes =? w) eqn:Hw; [|done]. injection Hb as <-. exists (LFixed bytes). split; [done|]. split.
    { simpl. f_equal. lia. } intros x Hx. by destruct x.
  - destruct (_ || _); [done|]. unfold pg_epoch_days_to_unix_days in Hb.
    destruct (checked_i32 _) as [y|] eqn:Hy; [|done]. apply checked_i32_Some in Hy as [-> _]. injection Hb as <-.
    exists (LDate (days + PG_EPOCH_DAYS_DIFF)). split_and!; [done..|]. intros x Hx. by destruct x.
  - unfold from_pg_micros, pg_epoch_micros_to_unix_micros in Hb. destruct (_ || _); [done|].
    destruct (checked_i64 _) as [y|] eqn:Hy; [|done]. apply checked_i64_Some in Hy as [-> _]. injection Hb as <-.
    split; [done|]. simpl. f_equal. lia.
  - unfold from_pg_micros, pg_epoch_micros_to_unix_micros in Hb. destruct (_ || _); [done|].
    destruct (checked_i64 _) as [y|] eqn:Hy; [|done]. apply checked_i64_Some in Hy as [-> _]. injection Hb as <-.
    split; [done|]. simpl. f_equal. lia.
  - destruct (decode_decimal s oid n Hd) as (v & Hv & Hbound & _). simpl in Hv. rewrite Hv in Hb. by injection Hb as <-.
  - pose proof (narrow_cases z) as Hn. destruct (narrow z) as [z'|bd]; injection Hb as <-.
    + subst z'. exists (LInt z). split_and!; [done..|]. intros x Hx. by destruct x.
    + intros x Hx. destruct x; try done. simpl. eexists. split; [done|]. intros k. by apply Hn.
Qed.
End values.

(** ** What a bound predicate accepts *)
Section accepted.
Context {B : PgBackend} {PT : PgTypes} {IE : IcebergExpr Float} {IEL : IcebergExprLaws IE scalar_nan}.
Context (sch : IcebergSchema) (present : Z → bool) (stored : StoredRow).
Local Notation accepted p := (accepts sch present p stored).

(** The stored column fits the value type. *)
Definition column_ready (c : PlannedIcebergColumn) (t : PlannedValueType) : Prop :=
  ∀ x, stored (field_id c) = Some x → scalar_matches t x ∧ field_typed sch (field_id c) (storage_type t).

(** The file has the column, or it reads as NULL. *)
Definition column_read (c : PlannedIcebergColumn) : Prop := present (field_id c) = true ∨ stored (field_id c) = None.

Lemma column_read_present c x : column_read c → stored (field_id c) = Some x → present (field_id c) = true.
Proof. intros [?|?]; [done|congruence]. Qed.

(** Three-valued truth, or falsity for a negated leaf. *)
Definition signed (negated : bool) (v : tri) : tri := if negated then knot v else v.

Lemma accepts_literal op c t l lit x cmp : present (field_id c) = true → column_ready c t →
  l = literal lit → literal_type lit = storage_type t → stored (field_id c) = Some x → literal_compare x lit = Some cmp →
  accepted (binary (predicate_operator op) (builder c) l) = kind_holds (operator_kind op) cmp.
Proof.
  intros Hp Hc -> Ht Hx Hcmp. apply (accepts_compare _ _ _ _ _ _ x); [done..| |done]. rewrite Ht. by apply (Hc x).
Qed.

Lemma nanos_boundary_Some t upper d : nanos_boundary t upper = Some d →
  d = literal (LTimestamp Nanoseconds (with_timezone t) ((unix_micros t + Z.b2z upper) * 1000)).
Proof.
  unfold nanos_boundary. destruct upper; csimpl.
  - destruct (checked_i64 (unix_micros t + 1)) as [m|] eqn:Hm; [|done]. apply checked_i64_Some in Hm as [-> _]. csimpl.
    destruct (checked_i64 _) as [n|] eqn:Hn; [|done]. apply checked_i64_Some in Hn as [-> _]. by intros [= <-].
  - rewrite Z.add_0_r. destruct (checked_i64 _) as [n|] eqn:Hn; [|done]. apply checked_i64_Some in Hn as [-> _]. by intros [= <-].
Qed.

(** A microsecond is an interval of nanoseconds. *)
Lemma nanos_interval z u : let lower := z ?= u * 1000 in let upper := z ?= (u + 1) * 1000 in
  ∀ op, kind_holds (operator_kind op) (z / 1000 ?= u) =
  match op with
  | PEq => kind_holds GreaterEqual lower && kind_holds Less upper
  | PNotEq => kind_holds Less lower || kind_holds GreaterEqual upper
  | PLt => kind_holds Less lower
  | PLe => kind_holds Less upper
  | PGt => kind_holds GreaterEqual upper
  | PGe => kind_holds GreaterEqual lower
  end.
Proof.
  simpl. intros op. assert (z = 1000 * (z / 1000) + z mod 1000 ∧ 0 ≤ z mod 1000 < 1000) as [Hz Hm].
  { split; [apply Z.div_mod; lia|apply Z.mod_pos_bound; lia]. }
  destruct (Z.compare_spec (z / 1000) u), (Z.compare_spec z (u * 1000)), (Z.compare_spec z ((u + 1) * 1000)); try lia; by destruct op.
Qed.

(** The comparisons that a missing column passes: those below a bound, and the
    inequality of a timestamp of nanoseconds, which is below or above an interval. *)
Definition passes_missing (op : PlannedComparisonOperator) (t : PlannedValueType) : bool :=
  match op, t with
  | PLt, _ | PLe, _ | PNotEq, (VTimestamp Nanoseconds | VTimestamptz Nanoseconds) => true
  | _, _ => false
  end.

Lemma compare_null_rejected op t c d : present (field_id c) = true ∨ passes_missing op t = false → stored (field_id c) = None →
  accepted (binary (predicate_operator op) (builder c) d) = false.
Proof. intros Hp Hx. apply accepts_compare_null; [|done]. destruct Hp as [?|Hop]; [by left|right]. by destruct op. Qed.

Lemma bind_timestamp_null tc op t c p : t = (if with_timezone tc then VTimestamptz else VTimestamp) (precision tc) →
  present (field_id c) = true ∨ passes_missing op t = false → stored (field_id c) = None →
  bind_timestamp tc (builder c) op = Some p → accepted p = false.
Proof.
  intros -> Hp Hx Hb. unfold bind_timestamp in Hb. destruct (precision tc) eqn:Hprec.
  { injection Hb as <-. by eapply compare_null_rejected. }
  assert (∀ d, accepted (binary PredOp.GreaterThanOrEq (builder c) d) = false) as Hge
    by (intros d; apply (accepts_compare_null sch present PGe); [by right|done]).
  assert (op = PEq ∨ op = PGt ∨ op = PGe ∨ ∀ d, accepted (binary PredOp.LessThan (builder c) d) = false) as Hlt.
  { destruct Hp as [Hp|Hop]; [|by destruct op, (with_timezone tc); auto].
    do 3 right. intros d. apply (accepts_compare_null sch present PLt); [by left|done]. }
  destruct op; destruct (nanos_boundary tc false) as [l|], (nanos_boundary tc true) as [u|]; csimpl in Hb; try done;
    injection Hb as <-; rewrite ?accepts_and, ?accepts_or, ?Hge; try done;
    destruct Hlt as [?|[?|[?|Hlt]]]; try done; by rewrite Hlt.
Qed.

Lemma bind_timestamp_value tc op c p z : present (field_id c) = true → stored (field_id c) = Some (ATimestamp z) →
  field_typed sch (field_id c) (storage_type ((if with_timezone tc then VTimestamptz else VTimestamp) (precision tc))) →
  bind_timestamp tc (builder c) op = Some p →
  accepted p = kind_holds (operator_kind op) (stored_micros (bool_decide (precision tc = Nanoseconds)) z ?= unix_micros tc).
Proof.
  intros Hp Hx Hf Hb.
  assert (∀ o n, accepted (binary (predicate_operator o) (builder c) (literal (LTimestamp (precision tc) (with_timezone tc) n)))
    = kind_holds (operator_kind o) (z ?= n)) as Hn.
  { intros o n. apply (accepts_compare _ _ _ _ _ _ (ATimestamp z)); [done..| |done]. by destruct (precision tc), (with_timezone tc). }
  unfold bind_timestamp in Hb. destruct (precision tc) eqn:Hprec; [injection Hb as <-; apply Hn|]. simpl. rewrite nanos_interval.
  pose proof (nanos_boundary_Some tc false) as Hl. pose proof (nanos_boundary_Some tc true) as Hu. rewrite Z.add_0_r in Hl.
  destruct op; destruct (nanos_boundary tc false) as [l|], (nanos_boundary tc true) as [u|]; csimpl in Hb; try done;
    try rewrite (Hl _ eq_refl) in Hb; try rewrite (Hu _ eq_refl) in Hb; injection Hb as <-; rewrite ?accepts_and, ?accepts_or;
    by rewrite ?(Hn PLt : ∀ n, accepted (binary PredOp.LessThan _ _) = _),
      ?(Hn PGe : ∀ n, accepted (binary PredOp.GreaterThanOrEq _ _) = _).
Qed.

(** A bound predicate of a leaf is accepted where the leaf is TRUE, and nowhere
    else unless a missing column passes. *)
Definition leaf_accepts (strict : Prop) (p : Predicate) (v : tri) : Prop :=
  (v = Some true → accepted p = true) ∧ (strict → accepted p = true → v = Some true).

Lemma leaf_accepts_iff strict p v : (accepted p = true ↔ v = Some true) → leaf_accepts strict p v.
Proof. by intros [??]. Qed.

Lemma bind_timestamp_accepts tc op c p t d : column_read c → column_ready c t → bound_as t d (BoundTimestamp tc) →
  bind_timestamp tc (builder c) op = Some p →
  leaf_accepts (present (field_id c) = true ∨ passes_missing op t = false) p (compare_node op t (stored (field_id c)) (Some d)).
Proof.
  intros Hp Hc [Ht Hd] Hb. destruct (stored (field_id c)) as [x|] eqn:Hx.
  - apply leaf_accepts_iff. destruct (Hc x Hx) as [Hm Hf]. rewrite Ht in Hm, Hf. assert (∃ z, x = ATimestamp z) as [z ->].
    { destruct (with_timezone tc), x; try done; eauto. }
    pose proof (column_read_present c _ Hp Hx). rewrite (bind_timestamp_value tc op c p z) by done. rewrite Ht, Hd.
    destruct (with_timezone tc), (precision tc); csimpl; rewrite Z.sub_add; split; congruence.
  - split; [done|]. intros Hpass. by rewrite (bind_timestamp_null tc op t c p).
Qed.

Lemma compare_node_signed negated op t x d : compare_node (if negated : bool then operator_negated op else op) t x d
  = signed negated (compare_node op t x d).
Proof.
  destruct negated; [|done]. unfold compare_node. destruct x as [x|], d as [d|]; csimpl; try done.
  destruct (stored_compare t x d); csimpl; [|done]. by rewrite kind_holds_negated.
Qed.

Lemma matching_accepts (b : bool) c : column_read c →
  accepted (if b then null_test (builder c) true else always_false) = b && negb (is_null (stored (field_id c))).
Proof. intros Hp. destruct b; [by apply accepts_not_null|apply accepts_always_false]. Qed.

Lemma bind_comparison_accepts op c t v (negated : bool) p : column_read c → column_ready c t →
  (∀ d, datum v = Some d → value_matches t d) → bind_comparison op c t v negated = Ok (Some p) →
  leaf_accepts (present (field_id c) = true ∨ passes_missing (if negated then operator_negated op else op) t = false) p
    (signed negated (compare_node op t (stored (field_id c)) (datum v))).
Proof.
  intros Hp Hc Hv Hb. rewrite <- compare_node_signed. unfold bind_comparison in Hb. destruct (datum v) as [d|].
  2: { apply leaf_accepts_iff. injection Hb as <-. rewrite accepts_always_false. unfold compare_node. by destruct (stored _). }
  specialize (Hv d eq_refl). destruct (decode_value t _ d) as [[b|]|] eqn:Hdec; csimpl in Hb; [|done..].
  apply decode_value_bound in Hdec; [|done]. set (o := if negated then _ else _) in *. clearbody o.
  assert (∀ k : bool, (∀ x, stored (field_id c) = Some x → compare_node o t (Some x) (Some d) = Some k) →
    accepted (if k then null_test (builder c) true else always_false) = true ↔
    compare_node o t (stored (field_id c)) (Some d) = Some true) as Hmatch.
  { intros k Hk. rewrite matching_accepts by done. destruct (stored (field_id c)) as [x|]; [|by rewrite andb_false_r].
    rewrite (Hk x eq_refl), andb_true_r. split; congruence. }
  destruct b as [tc|l|w|w].
  - injection Hb as Hb. by eapply bind_timestamp_accepts.
  - injection Hb as <-. destruct Hdec as (lit & -> & Hty & Hcmp). destruct (stored (field_id c)) as [x|] eqn:Hx.
    2: { split; [done|]. intros Hpass. by rewrite (compare_null_rejected o t). }
    apply leaf_accepts_iff. pose proof (column_read_present c _ Hp Hx).
    destruct (Hc x Hx) as [Hm _]. destruct (compare_defined t x d Hm Hv) as [cmp Hd]. rewrite <- (Hcmp x Hm) in Hd.
    rewrite (accepts_literal o c t _ lit x cmp) by done. csimpl. rewrite <- (Hcmp x Hm), Hd. csimpl. split; congruence.
  - apply leaf_accepts_iff. destruct (matches_finite_column w _) as [k|] eqn:Hk; [|done]. injection Hb as <-. apply Hmatch. intros x Hx.
    destruct (Hdec x (proj1 (Hc x Hx))) as (cmp & Hcmp & Hw). csimpl. rewrite Hcmp. csimpl. by rewrite <- (Hw (operator_kind o)).
  - apply leaf_accepts_iff. injection Hb as <-. apply Hmatch. intros x Hx. destruct (Hdec x (proj1 (Hc x Hx))) as (cmp & Hcmp & Hw). csimpl.
    rewrite Hcmp. csimpl. by rewrite <- Hw.
Qed.

Lemma bind_starts_with_accepts c v p : column_read c → column_ready c VString →
  (∀ d, datum v = Some d → value_matches VString d) → bind_starts_with c v false = Ok (Some p) →
  accepted p = true ↔ (x ← stored (field_id c); d ← datum v;
    match x, d with AString v, PgText p => Some (is_prefix p v) | _, _ => None end) = Some true.
Proof.
  intros Hp Hc Hv Hb. unfold bind_starts_with in Hb. destruct (datum v) as [d|].
  2: { injection Hb as <-. rewrite accepts_always_false. by destruct (stored _). }
  specialize (Hv d eq_refl). destruct d; try done. injection Hb as <-. destruct (stored (field_id c)) as [x|] eqn:Hx.
  - pose proof (column_read_present c _ Hp Hx). destruct (Hc x Hx) as [Hm Hf]. destruct x as [| | | | | |bs| | | | |]; try done.
    rewrite (accepts_starts_with sch present (builder c) bytes stored bs) by done. csimpl. split; congruence.
  - by rewrite accepts_starts_with_null.
Qed.

Lemma build_boolean_test_accepts c k : column_read c → column_ready c VBoolean →
  accepted (build_boolean_test (builder c) k) = boolean_test k (scalar_truth <$> stored (field_id c)).
Proof.
  intros Hp Hc. destruct (stored (field_id c)) as [x|] eqn:Hx.
  - destruct (Hc x Hx) as [Hm Hf]. destruct x as [b| | | | | | | | | | |]; try done.
    assert (∀ b', accepted (binary PredOp.Eq (builder c) (literal (LBool b'))) = bool_decide (b = b')) as Heq.
    { intros b'. change PredOp.Eq with (predicate_operator PEq).
      rewrite (accepts_compare _ _ _ (builder c) (LBool b') stored (ABool b) _ (column_read_present c _ Hp Hx) Hx Hf eq_refl). by destruct b, b'. }
    destruct k; simpl; unfold null_test; rewrite ?accepts_or, ?accepts_is_null, ?accepts_not_null, ?Heq by done; simpl;
      rewrite ?Hx; by destruct b.
  - assert (∀ d, accepted (binary PredOp.Eq (builder c) d) = false) as Heq.
    { intros d. apply (accepts_compare_null sch present PEq); [by right|done]. }
    destruct k; simpl; unfold null_test; rewrite ?accepts_or, ?accepts_is_null, ?accepts_not_null, ?Heq by done; simpl; by rewrite ?Hx.
Qed.

Lemma null_test_accepts c b : column_read c →
  accepted (null_test (builder c) b) = if b then negb (is_null (stored (field_id c))) else is_null (stored (field_id c)).
Proof. intros Hp. destruct b; [by apply accepts_not_null|by apply accepts_is_null]. Qed.

Lemma nan_test_accepts c b : column_read c →
  accepted (nan_test (builder c) b) = true ↔ signed b (scalar_nan <$> stored (field_id c)) = Some true.
Proof.
  intros Hp. destruct b; simpl.
  - rewrite accepts_and, accepts_not_null by done. simpl. destruct (stored (field_id c)) as [x|] eqn:Hx; [|done].
    rewrite (accepts_not_nan sch present (builder c) stored x) by (done || by eapply column_read_present). simpl. split; congruence.
  - rewrite accepts_is_nan by done. simpl. destruct (stored (field_id c)) as [x|]; simpl; [|done]. split; congruence.
Qed.

(** The literals of a set, and what became of its elements. *)
Lemma set_literals_cover t oid els acc ls : (∀ y, Some y ∈ els → value_matches t y) →
  set_literals t oid els acc = Ok (Some ls) →
  ∃ lits, ls = acc ++ (literal <$> lits) ∧ Forall (λ l, literal_type l = storage_type t) lits ∧
    ∀ y x, Some y ∈ els → scalar_matches t x → stored_compare t x y = Some Eq → ∃ l, l ∈ lits ∧ literal_compare x l = Some Eq.
Proof.
  revert acc. induction els as [|[d|] els IH]; intros acc Hm Hls; simpl in Hls.
  - injection Hls as <-. exists []. rewrite app_nil_r. split_and!; [done..|]. by intros y x ?%not_elem_of_nil.
  - destruct (decode_value t oid d) as [[b|]|] eqn:Hd; csimpl in Hls; [|done..].
    apply decode_value_bound in Hd; [|apply Hm; constructor].
    assert (∀ y, Some y ∈ els → value_matches t y) as Hm' by (intros y Hy; apply Hm; by constructor).
    destruct b as [tc|l|w|w]; try done.
    + destruct Hd as (lit & -> & Hty & Hcmp). destruct (IH _ Hm' Hls) as (lits & -> & Hlits & Hcov).
      exists (lit :: lits). rewrite <- app_assoc. split_and!; [done|by constructor|].
      intros y x Hy Hx Heq. apply elem_of_cons in Hy as [[= ->]|Hy].
      * exists lit. split; [constructor|]. by rewrite Hcmp.
      * destruct (Hcov y x Hy Hx Heq) as (l & Hl & Hc). exists l. split; [by constructor|done].
    + destruct (IH _ Hm' Hls) as (lits & -> & Hlits & Hcov). exists lits. split_and!; [done..|].
      intros y x Hy Hx Heq. apply elem_of_cons in Hy as [[= ->]|Hy]; [|by eauto].
      destruct (Hd x Hx) as (cmp & Hcmp & Hw). rewrite Heq in Hcmp. injection Hcmp as <-. by specialize (Hw Equal); destruct w.
  - destruct (IH acc) as (lits & -> & Hlits & Hcov); [intros y Hy; apply Hm; by constructor|done|].
    exists lits. split_and!; [done..|]. intros y x Hy. apply elem_of_cons in Hy as [?|Hy]; [done|]. by apply Hcov.
Qed.

Lemma bind_in_set_accepts c t v p : column_read c → column_ready c t →
  (∀ d y, datum v = Some d → Some y ∈ elements pg_scalars d → value_matches t y) → bind_in_set c t v = Ok (Some p) →
  (array ← datum v; kany ((λ y, compare_node PEq t (stored (field_id c)) y) <$> elements pg_scalars array)) = Some true →
  accepted p = true.
Proof.
  intros Hp Hc Hv Hb Htrue. unfold bind_in_set in Hb. destruct (datum v) as [d|]; [|done]. csimpl in Htrue.
  destruct (ok_or _ _) as [element|]; [|done]. csimpl in Hb. destruct (set_literals _ _ _ _) as [ls|] eqn:Hls; [|done].
  injection Hb as <-. destruct ls as [ls|]; [|apply accepts_always_true].
  destruct (set_literals_cover _ _ _ _ _ (λ y, Hv d y eq_refl) Hls) as (lits & -> & Hlits & Hcov). rewrite app_nil_l.
  apply kany_true, Exists_exists in Htrue as (r & Hr & ->). apply list_elem_of_fmap in Hr as (y & Hr & Hy).
  destruct (stored (field_id c)) as [x|] eqn:Hx, y as [y|]; try done. csimpl in Hr.
  destruct (stored_compare t x y) as [cmp|] eqn:Hcmp; [|done]. destruct cmp; try done.
  destruct (Hc x Hx) as [Hm Hf]. destruct (Hcov y x Hy Hm Hcmp) as (l & Hl & Heq).
  apply (accepts_in sch present (builder c) lits stored x l); try done; [by eapply column_read_present|].
  eapply Forall_impl; [exact Hlits|]. by intros l' ->.
Qed.
End accepted.

(** ** Bound trees *)
Fixpoint node_leaves (n : Node.PlannedIcebergNode) : list Node.PlannedIcebergNode :=
  match n with
  | Node.And cs | Node.Or cs => concat (node_leaves <$> cs)
  | Node.Not c => node_leaves c
  | leaf => [leaf]
  end.

Definition leaf_field (n : Node.PlannedIcebergNode) : option Z :=
  match n with
  | Node.Comparison _ c _ _ | Node.BooleanTest _ c | Node.IsNull c | Node.IsNotNull c | Node.IsNan c | Node.IsNotNan c
  | Node.StartsWith c _ | Node.InSet c _ _ => Some (field_id c)
  | _ => None
  end.

(** The columns of a planned predicate. *)
Definition node_fields (n : Node.PlannedIcebergNode) : list Z := omap leaf_field (node_leaves n).

(** The columns of the comparisons that a missing column passes once NOT has been
    pushed to the leaves. *)
Fixpoint passing_fields (negated : bool) (n : Node.PlannedIcebergNode) : list Z :=
  match n with
  | Node.And cs | Node.Or cs => concat (passing_fields negated <$> cs)
  | Node.Not c => passing_fields (negb negated) c
  | Node.Comparison op c _ t => if passes_missing (if negated then operator_negated op else op) t then [field_id c] else []
  | _ => []
  end.

(** Sets and prefixes have no complement in Iceberg; the planner keeps them out of
    NOT. *)
Definition leaf_negatable (n : Node.PlannedIcebergNode) : bool :=
  match n with Node.StartsWith _ _ | Node.InSet _ _ _ => false | _ => true end.
Definition negatable (n : Node.PlannedIcebergNode) : bool := forallb leaf_negatable (node_leaves n).

Fixpoint plan_shape (n : Node.PlannedIcebergNode) : bool :=
  match n with
  | Node.And cs | Node.Or cs => forallb plan_shape cs
  | Node.Not c => negatable c
  | _ => true
  end.

(** The leaves whose values always have an Iceberg literal. *)
Definition exact_type (t : PlannedValueType) : bool :=
  match t with VDate | VTimestamp _ | VTimestamptz _ | VFixedBinary _ => false | _ => true end.
Definition leaf_exact (n : Node.PlannedIcebergNode) : bool :=
  match n with Node.Comparison _ _ _ t => exact_type t | Node.InSet _ _ _ => false | _ => true end.

Lemma forallb_concat {A C} (f : A → bool) (g : C → list A) cs :
  forallb f (concat (g <$> cs)) = forallb (λ c, forallb f (g c)) cs.
Proof. induction cs as [|c cs IH]; [done|]. csimpl. by rewrite forallb_app, IH. Qed.

Lemma forallb_Forall_true {A} (f : A → bool) l : forallb f l = true ↔ Forall (λ a, f a = true) l.
Proof. rewrite forallb_forall, List.Forall_forall. done. Qed.

Lemma negatable_shape n : negatable n = true → plan_shape n = true ∧ contains_in_set n = false.
Proof.
  unfold negatable. induction n as [n Hn|cs IH|cs IH|c IH] using Node.node_ind; simpl; [by destruct n| | |done].
  1, 2: rewrite forallb_concat, forallb_Forall_true; intros Hall; split;
    [apply forallb_Forall_true|apply not_true_is_false; rewrite existsb_exists, <- List.Exists_exists; intros He;
      apply Exists_exists in He as (c & Hc & Hset)]; 
    rewrite !Forall_forall in *; [intros c Hc; by apply IH; auto|by destruct (IH c Hc (Hall c Hc)) as [_ H]; rewrite H in Hset].
Qed.

Section trees.
Context {B : PgBackend} {PT : PgTypes} {IE : IcebergExpr Float} {IEL : IcebergExprLaws IE scalar_nan}.
Context (sch : IcebergSchema) (present : Z → bool) (stored : StoredRow) (values : list RuntimeValue).
Local Notation accepted p := (accepts sch present p stored).
Local Notation meaning := (node_eval stored (datum <$> values)).

(** What planning and typing give a leaf: a slot of the right type and a stored
    column of the right type. *)
Definition leaf_ready (n : Node.PlannedIcebergNode) : Prop :=
  match n with
  | Node.Comparison _ c id t => column_ready sch stored c t ∧
      ∃ v, values !! id = Some v ∧ ∀ d, datum v = Some d → value_matches t d
  | Node.BooleanTest _ c => column_ready sch stored c VBoolean
  | Node.StartsWith c id => column_ready sch stored c VString ∧
      ∃ v, values !! id = Some v ∧ ∀ d, datum v = Some d → value_matches VString d
  | Node.InSet c id t => column_ready sch stored c t ∧
      ∃ v, values !! id = Some v ∧ array_element (metadata v) ≠ None ∧
        ∀ d y, datum v = Some d → Some y ∈ elements pg_scalars d → value_matches t y
  | _ => True
  end.

Definition node_ready (n : Node.PlannedIcebergNode) : Prop :=
  Forall leaf_ready (node_leaves n) ∧ Forall (λ id, present id = true ∨ stored id = None) (node_fields n).

Lemma slot_of (id : RuntimeValueId) v : values !! id = Some v → mjoin ((datum <$> values) !! id) = datum v.
Proof.
  revert id. change (∀ id : nat, values !! id = Some v → mjoin ((datum <$> values) !! id) = datum v).
  intros id Hv. by rewrite list_lookup_fmap, Hv.
Qed.

(** A bound tree accepts the rows where the predicate is TRUE, and no others if it
    has no set and the file has the columns that pass when they are missing. *)
Definition bound_accepts (negated : bool) (n : Node.PlannedIcebergNode) (p : Predicate) : Prop :=
  (signed negated (meaning n) = Some true → accepted p = true) ∧
  (contains_in_set n = false → Forall (λ id, present id = true) (passing_fields negated n) →
    accepted p = true → signed negated (meaning n) = Some true).

Lemma bind_leaf_accepts n negated p : match n with Node.And _ | Node.Or _ | Node.Not _ => False | _ => True end →
  leaf_ready n → (∀ id, leaf_field n = Some id → present id = true ∨ stored id = None) → (negated = true → leaf_negatable n = true) →
  bind_node values n negated = Ok (Some p) → bound_accepts negated n p.
Proof.
  intros Hleaf Hr Hp Hneg Hb. unfold bound_accepts.
  assert ((accepted p = true ↔ signed negated (meaning n) = Some true) ∨ bound_accepts negated n p) as [Hiff|Hacc]; [|by rewrite Hiff|done].
  unfold bound_accepts.
  destruct n; try done; simpl in Hb; try (specialize (Hp _ eq_refl : column_read _ _ _)); try (injection Hb as <-).
  - left. destruct negated; by rewrite ?accepts_always_true, ?accepts_always_false.
  - left. destruct negated; by rewrite ?accepts_always_true, ?accepts_always_false.
  - right. destruct Hr as (Hc & v & Hv & Hm). unfold bound_value in Hb. rewrite Hv in Hb. cbn [node_eval]. rewrite (slot_of _ _ Hv).
    destruct (bind_comparison_accepts sch present stored operator column value_type v negated p Hp Hc Hm Hb) as [H1 H2].
    split; [done|]. intros _ Hpass. apply H2. cbn [passing_fields] in Hpass.
    destruct (passes_missing _ _); [left|by right]. by apply Forall_cons in Hpass as [? _].
  - left. rewrite build_boolean_test_accepts by done. destruct negated; simpl; rewrite ?boolean_test_negated; split; congruence.
  - left. rewrite null_test_accepts by done. destruct negated; simpl; split; congruence.
  - left. rewrite null_test_accepts by done. destruct negated; simpl; rewrite ?negb_involutive; split; congruence.
  - left. rewrite nan_test_accepts by done. done.
  - left. rewrite nan_test_accepts by done. destruct negated; simpl; destruct (stored _); csimpl; by rewrite ?negb_involutive.
  - left. destruct Hr as (Hc & v & Hv & Hm). unfold bound_value in Hb. rewrite Hv in Hb. cbn [node_eval]. rewrite (slot_of _ _ Hv).
    destruct negated; [by discriminate Hneg|]. by eapply bind_starts_with_accepts.
  - right. split; [|done]. destruct Hr as (Hc & v & Hv & _ & Hm). unfold bound_value in Hb. rewrite Hv in Hb. cbn [node_eval].
    rewrite (slot_of _ _ Hv). destruct negated; [by discriminate Hneg|]. by eapply bind_in_set_accepts.
Qed.

Lemma bind_logical_Ok bind_child conjunction acc cs p : bind_logical bind_child conjunction acc cs = Ok (Some p) →
  ∃ ps, Forall2 (λ c q, bind_child c = Ok (Some q)) cs ps ∧
    accepted p = if conjunction then accepted acc && forallb (λ q, accepted q) ps
      else accepted acc || existsb (λ q, accepted q) ps.
Proof.
  revert acc. induction cs as [|c cs IH]; intros acc Hb; simpl in Hb.
  - injection Hb as <-. exists []. split; [done|]. destruct conjunction; simpl; by rewrite ?andb_true_r, ?orb_false_r.
  - destruct (bind_child c) as [[q|]|] eqn:Hc; csimpl in Hb; [|done..]. destruct (IH _ Hb) as (ps & Hps & ->).
    exists (q :: ps). split; [by constructor|]. unfold LogicalKind_combine.
    destruct conjunction; simpl; by rewrite ?accepts_and, ?accepts_or, ?andb_assoc, ?orb_assoc.
Qed.

Lemma logical_accepts negated (conjunction : bool) cs ps : Forall2 (bound_accepts negated) cs ps →
  let v := (if conjunction then kall else kany) ((λ c, signed negated (meaning c)) <$> cs) in
  let a := if conjunction then forallb (λ q, accepted q) ps else existsb (λ q, accepted q) ps in
  (v = Some true → a = true) ∧
  (existsb contains_in_set cs = false → Forall (λ id, present id = true) (concat (passing_fields negated <$> cs)) →
    a = true → v = Some true).
Proof.
  induction 1 as [|c p cs ps [H1 H2] _ IH]; [by destruct conjunction|]. destruct conjunction; csimpl in *.
  - rewrite kand_true, andb_true_iff, orb_false_iff, Forall_app. naive_solver.
  - rewrite kor_true, orb_true_iff, orb_false_iff, Forall_app. naive_solver.
Qed.

Lemma signed_kall negated vs : signed negated (kall vs) = (if negb negated then kall else kany) (signed negated <$> vs).
Proof. destruct negated; simpl; [apply knot_kall|]. f_equal. by rewrite list_fmap_id. Qed.

Lemma signed_kany negated vs : signed negated (kany vs) = (if negated then kall else kany) (signed negated <$> vs).
Proof. destruct negated; simpl; [apply knot_kany|]. f_equal. by rewrite list_fmap_id. Qed.

Lemma node_ready_children cs : Forall leaf_ready (concat (node_leaves <$> cs)) →
  Forall (λ id, present id = true ∨ stored id = None) (omap leaf_field (concat (node_leaves <$> cs))) → Forall node_ready cs.
Proof.
  induction cs as [|c cs IH]; csimpl; [done|]. rewrite omap_app, !Forall_app. intros [??] [??]. constructor; [by split|auto].
Qed.

(** The shape that a tree must have to be bound under a sign. *)
Definition bindable (negated : bool) (n : Node.PlannedIcebergNode) : bool := if negated then negatable n else plan_shape n.

Lemma bindable_children negated cs :
  bindable negated (Node.And cs) = true ∨ bindable negated (Node.Or cs) = true → Forall (λ c, bindable negated c = true) cs.
Proof.
  unfold bindable, negatable. destruct negated; simpl; rewrite ?forallb_concat, !forallb_Forall_true; tauto.
Qed.

Lemma bind_children_accept negated bc cs ps :
  Forall (λ c, ∀ negated p, node_ready c → bindable negated c = true → bind_node values c negated = Ok (Some p) →
    bound_accepts negated c p) cs → Forall node_ready cs → Forall (λ c, bindable negated c = true) cs →
  (∀ c, bc c = bind_node values c negated) →
  Forall2 (λ c q, bc c = Ok (Some q)) cs ps → Forall2 (bound_accepts negated) cs ps.
Proof.
  intros IH Hr Hs Hbc. induction 1 as [|c q cs ps Hq _ IHps]; [done|].
  apply Forall_cons in IH as [??], Hr as [??], Hs as [??]. rewrite Hbc in Hq. constructor; auto.
Qed.

Lemma bind_node_accepts n negated p : node_ready n → bindable negated n = true →
  bind_node values n negated = Ok (Some p) → bound_accepts negated n p.
Proof.
  revert negated p. induction n as [n Hn|cs IH|cs IH|c IH] using Node.node_ind; intros negated p [Hr Hf] Hs Hb.
  - apply bind_leaf_accepts; [done| | | |done].
    + destruct n; try done; simpl in Hr; by apply Forall_cons in Hr as [Hr _].
    + intros id Hid. unfold node_fields in Hf. destruct n; try done; csimpl in Hf; csimpl in Hid;
      injection Hid as <-; by apply Forall_cons in Hf as [Hf _].
    + intros ->. unfold bindable, negatable in Hs. destruct n; try done; simpl in Hs; by rewrite andb_true_r in Hs.
  - cbn [bind_node] in Hb. apply bind_logical_Ok in Hb as (ps & Hps & Ha).
    eapply bind_children_accept in Hps; [|exact IH|by apply node_ready_children|by apply bindable_children; left|done].
    pose proof (logical_accepts negated (negb negated) cs ps Hps) as Hl. unfold bound_accepts. cbn [node_eval contains_in_set passing_fields].
    rewrite signed_kall, <- list_fmap_compose. unfold LogicalKind_start in Ha. rewrite Ha.
    destruct negated; simpl in *; by rewrite ?accepts_always_true, ?accepts_always_false.
  - cbn [bind_node] in Hb. apply bind_logical_Ok in Hb as (ps & Hps & Ha).
    eapply bind_children_accept in Hps; [|exact IH|by apply node_ready_children|by apply bindable_children; right|done].
    pose proof (logical_accepts negated negated cs ps Hps) as Hl. unfold bound_accepts. cbn [node_eval contains_in_set passing_fields].
    rewrite signed_kany, <- list_fmap_compose. unfold LogicalKind_start in Ha. rewrite Ha.
    destruct negated; simpl in *; by rewrite ?accepts_always_true, ?accepts_always_false.
  - cbn [bind_node] in Hb. assert (negatable c = true) as Hc by (by destruct negated).
    destruct (IH (negb negated) p) as [H1 H2]; [by split| |done|].
    { destruct negated; simpl; [by apply negatable_shape|done]. }
    destruct (negatable_shape c Hc) as [_ Hset]. unfold bound_accepts. cbn [node_eval passing_fields].
    assert (signed (negb negated) (meaning c) = signed negated (knot (meaning c))) as Heq.
    { destruct negated; simpl; [by rewrite knot_knot|done]. }
    rewrite <- Heq. auto.
Qed.

(** *** Exact trees always bind *)
Lemma decode_exact t oid d : exact_type t = true → value_matches t d → ∃ b, decode_value t oid d = Ok (Some b) ∧ plain_value b.
Proof.
  intros He Hd. destruct t as [| | |w| | | | | | |p|p| |s|]; try done; destruct d; try done; try (by eexists).
  - destruct (decode_decimal s oid n Hd) as (b & Hb & _ & Hp). by exists b.
  - simpl. destruct (narrow z); by eexists.
Qed.

Lemma bind_leaf_exact n negated : match n with Node.And _ | Node.Or _ | Node.Not _ => False | _ => True end →
  leaf_ready n → leaf_exact n = true → ∃ p, bind_node values n negated = Ok (Some p).
Proof.
  intros Hn Hr He. destruct n; try done; simpl in *; eauto.
  - destruct Hr as (_ & v & Hv & Hm). unfold bound_value. rewrite Hv. csimpl. unfold bind_comparison.
    destruct (datum v) as [d|]; [|eauto]. destruct (decode_exact value_type (value_oid v) d He (Hm d eq_refl)) as (b & -> & Hb).
    csimpl. destruct b as [tc|l|w|w]; try done; eauto. rewrite (matches_finite_column_spec 0) by done. csimpl. eauto.
  - destruct Hr as (_ & v & Hv & Hm). unfold bound_value. rewrite Hv. csimpl. unfold bind_starts_with.
    destruct (datum v) as [d|]; [|eauto]. specialize (Hm d eq_refl). destruct d; try done. csimpl. eauto.
Qed.

Lemma bind_logical_exact bc conjunction acc cs : Forall (λ c, ∃ p, bc c = Ok (Some p)) cs →
  ∃ p, bind_logical bc conjunction acc cs = Ok (Some p).
Proof.
  intros Hcs. revert acc. induction Hcs as [|c cs [q Hq] _ IH]; intros acc; simpl; [eauto|]. rewrite Hq. csimpl. apply IH.
Qed.

Lemma bind_node_exact n negated : Forall leaf_ready (node_leaves n) → Forall (λ n, leaf_exact n = true) (node_leaves n) →
  ∃ p, bind_node values n negated = Ok (Some p).
Proof.
  revert negated. induction n as [n Hn|cs IH|cs IH|c IH] using Node.node_ind; intros negated Hr He.
  - apply bind_leaf_exact; [done|..]; destruct n; try done; simpl in *;
      first [by apply Forall_cons in Hr as [? _]|by apply Forall_cons in He as [? _]].
  - cbn [bind_node]. apply bind_logical_exact. cbn [node_leaves] in Hr, He. rewrite Forall_concat in Hr, He.
    rewrite Forall_fmap in Hr, He. rewrite Forall_forall in *. naive_solver.
  - cbn [bind_node]. apply bind_logical_exact. cbn [node_leaves] in Hr, He. rewrite Forall_concat in Hr, He.
    rewrite Forall_fmap in Hr, He. rewrite Forall_forall in *. naive_solver.
  - cbn [bind_node]. by apply IH.
Qed.

(** *** The predicate of the Arrow reader *)
Lemma kall_bools bs : kall (Some <$> bs) = Some (forallb id bs).
Proof. induction bs as [|b bs IH]; [done|]. csimpl. rewrite IH. by destruct b, (forallb id bs). Qed.

Lemma kany_bools bs : kany (Some <$> bs) = Some (existsb id bs).
Proof. induction bs as [|b bs IH]; [done|]. csimpl. rewrite IH. by destruct b, (existsb id bs). Qed.

Lemma combine_predicates_accepts ps : ps ≠ [] →
  Some (accepted (combine_predicates pred_and ps)) = kall ((λ p, Some (accepted p)) <$> ps) ∧
  Some (accepted (combine_predicates pred_or ps)) = kany ((λ p, Some (accepted p)) <$> ps).
Proof.
  destruct ps as [|p ps]; [done|]. intros _. change ((λ p, Some (accepted p)) <$> p :: ps) with ((Some ∘ (λ p, accepted p)) <$> p :: ps).
  rewrite list_fmap_compose, kall_bools, kany_bools. simpl. revert p.
  induction ps as [|q ps IH]; intros p; simpl; [by rewrite andb_true_r, orb_false_r|].
  destruct (IH (pred_and p q)) as [-> _], (IH (pred_or p q)) as [_ ->]. rewrite accepts_and, accepts_or. unfold id.
  by rewrite andb_assoc, orb_assoc.
Qed.

(** What the Arrow reader makes of the leaves of a planned predicate: the value of
    each bound leaf on the row. *)
Fixpoint row_truth (n : Node.PlannedIcebergNode) : bool :=
  match n with
  | Node.And cs => forallb id (row_truth <$> cs)
  | Node.Or cs => existsb id (row_truth <$> cs)
  | n => match bind_node values n false with Ok (Some p) => accepted p | _ => true end
  end.

Lemma row_truth_leaf n : match n with Node.And _ | Node.Or _ => False | _ => True end →
  row_truth n = match bind_node values n false with Ok (Some p) => accepted p | _ => true end.
Proof. by destruct n. Qed.

Lemma row_truth_true n : node_ready n → plan_shape n = true → meaning n = Some true → row_truth n = true.
Proof.
  assert (∀ n, match n with Node.And _ | Node.Or _ => False | _ => True end → node_ready n → plan_shape n = true →
    meaning n = Some true → row_truth n = true) as Hleaf.
  { intros m Hm Hr Hs Ht. rewrite (row_truth_leaf m Hm). destruct (bind_node values m false) as [[p|]|] eqn:Hp; [|done..].
    by apply (bind_node_accepts m false p Hr Hs Hp). }
  induction n as [n Hn|cs IH|cs IH|c IH] using Node.node_ind; intros [Hr Hf] Hs Ht.
  - apply Hleaf; try done. by destruct n.
  - pose proof (node_ready_children cs Hr Hf) as Hcs. pose proof (bindable_children false cs (or_introl Hs)) as Hss.
    cbn [node_eval row_truth] in *. apply kall_true in Ht. rewrite forallb_forall. intros b Hb%list_elem_of_In.
    apply list_elem_of_fmap in Hb as (c & -> & Hc). rewrite Forall_fmap in Ht. rewrite Forall_forall in IH, Hcs, Hss, Ht.
    exact (IH c Hc (Hcs c Hc) (Hss c Hc) (Ht c Hc)).
  - pose proof (node_ready_children cs Hr Hf) as Hcs. pose proof (bindable_children false cs (or_intror Hs)) as Hss.
    cbn [node_eval row_truth] in *. apply kany_true, Exists_exists in Ht as (v & Hv & ->).
    apply list_elem_of_fmap in Hv as (c & Hv & Hc). apply existsb_exists. exists (row_truth c). rewrite Forall_forall in IH, Hcs, Hss.
    split; [by apply list_elem_of_In, list_elem_of_fmap_2|]. exact (IH c Hc (Hcs c Hc) (Hss c Hc) (eq_sym Hv)).
  - by apply Hleaf.
Qed.

Lemma bind_row_filter_keeps n q : node_ready n → plan_shape n = true → bind_row_filter values n = Ok q →
  keeps (λ p, Some (accepted p)) q (Some (row_truth n)).
Proof.
  intros Hr Hs Hq. apply (row_filter_keeps (E := IcebergFilterError) _ _ _ (λ p, Some (accepted p)) (λ n, Some (row_truth n))
    (λ ps Hne, proj1 (combine_predicates_accepts ps Hne)) (λ ps Hne, proj2 (combine_predicates_accepts ps Hne)))
    with (ok := λ _, True) in Hq; [done|..|done].
  - intros cs. cbn [row_truth]. by rewrite <- kall_bools, <- list_fmap_compose.
  - intros cs. cbn [row_truth]. by rewrite <- kany_bools, <- list_fmap_compose.
  - intros cs _. by apply Forall_true.
  - intros m q' _ Hm Hb. destruct (bind_node values m false) as [[p|]|] eqn:Hp; csimpl in Hb; [|by injection Hb as <-|done].
    injection Hb as <-. simpl. f_equal. rewrite row_truth_leaf by (by destruct m). by rewrite Hp.
Qed.

(** ** The bound predicate

    Both predicates are accepted wherever the planned one is TRUE; without a set
    they are one predicate, accepted nowhere else when the file has the columns
    that pass when they are missing. *)
Lemma bind_accepts p b : node_ready (planned_root p) → plan_shape (planned_root p) = true → bind p values = Ok (Bound b) →
  (meaning (planned_root p) = Some true → accepted (bound_predicate b) = true) ∧
  (∀ rf, row_predicate b = Some rf → meaning (planned_root p) = Some true → accepted rf = true) ∧
  (contains_in_set (planned_root p) = false → row_predicate b = Some (bound_predicate b) ∧
    (Forall (λ id, present id = true) (passing_fields false (planned_root p)) →
     accepted (bound_predicate b) = true → meaning (planned_root p) = Some true)).
Proof.
  intros Hr Hs Hb. unfold bind in Hb. destruct (bind_node values _ false) as [[q|]|] eqn:Hq; csimpl in Hb; [|done..].
  destruct (bind_node_accepts _ false q Hr Hs Hq) as [H1 H2]. destruct (contains_in_set (planned_root p)) eqn:Hset.
  - destruct (bind_row_filter values (planned_root p)) as [plan|] eqn:Hplan; [|done]. injection Hb as <-. split_and!; [done| |done].
    pose proof (bind_row_filter_keeps _ _ Hr Hs Hplan) as Hk. intros rf Hrf Htrue. unfold row_predicate in Hrf. simpl in Hrf.
    destruct (into_predicate plan) as [pp|] eqn:Hpp; [|done]. injection Hrf as ->.
    rewrite row_truth_true in Hk by done. by injection (keeps_true _ _ _ _ Hk Hpp eq_refl).
  - injection Hb as <-. split; [exact H1|]. split; [intros rf [= <-]; exact H1|]. intros _. split; [done|]. by apply H2.
Qed.

Lemma bind_exact p : Forall leaf_ready (node_leaves (planned_root p)) →
  Forall (λ n, leaf_exact n = true) (node_leaves (planned_root p)) → contains_in_set (planned_root p) = false →
  ∃ b, bind p values = Ok (Bound b).
Proof.
  intros Hr He Hset. destruct (bind_node_exact (planned_root p) false Hr He) as [q Hq]. unfold bind. rewrite Hq. csimpl.
  rewrite Hset. csimpl. eauto.
Qed.
End trees.
