(* ===== verification/IcebergFilter.v ===== *)
(** * Filters of an Iceberg scan, from the fragment to the rows

    Composes the planner of [PredicatePolicy] with the binder of
    [PredicateBinding]: what a fragment of the WHERE clause promises of the rows
    that the Arrow reader keeps once its plan is bound to the values of an
    execution. *)

From stdpp Require Import base list strings.
From Stdlib Require Import ZArith Lia.
From S2P Require Import Prelude.
From S2P Require Import Bytes.
From S2P Require Import DecimalNumeric.
From S2P Require Import PredicateTree.
From S2P Require Import Expressions.
From S2P Require Import PlanData.
From S2P Require Import IcebergPredicate.
From S2P Require Import PredicatePolicy.
From S2P Require Import ArrowCodec.
From S2P Require Import PredicateMeaning.
From S2P Require Import PredicateBinding.
Local Open Scope Z_scope.

(** ** Exact capabilities *)
Lemma exact_capability {B : PgBackend} c spec op utf8 s v source t :
  policy_plan_comparison c spec op utf8 = Some (s, v) → with_source_type v source = Some t →
  capability s = CapExact → is_fixed_binary t = false → exact_type t = true.
Proof.
  unfold policy_plan_comparison. destruct (planned_value_type c spec utf8) as [v'|] eqn:Hv; [|done]. csimpl.
  destruct (op_class _) as [k|]; [|done]. csimpl. destruct (capability_for_class _ _ _ _) as [cap|] eqn:Hcap; [|done].
  intros [= <- <-] Ht Hexact Hfix. simpl in Hexact. subst cap. apply planned_value_type_cases in Hv. cbn zeta in Hv.
  assert (type_oid (value_type c) ≠ DATEOID ∧ type_oid (value_type c) ≠ TIMESTAMPOID ∧ type_oid (value_type c) ≠ TIMESTAMPTZOID)
    as (H1 & H2 & H3).
  { unfold capability_for_class in Hcap. split_and!; intros Ho; rewrite Ho in Hcap; by destruct k. }
  destruct v' as [| | |w| | | | | | |[]|[]| |sm|]; simpl in Hv; try tauto; try (by injection Ht as <-).
  all: destruct source as [[]|]; try discriminate Ht; by injection Ht as <-.
Qed.

(** ** What planning gives the binder *)
Section planned.
Context {B : PgBackend} {PT : PgTypes} {IA : IcebergArrow} {HL : PgBackendLaws B} {IAL : IcebergArrowLaws IA}.
Context (pl : IcebergFilterPlanner) (f : PredicateFragment) (stored : StoredRow) (r : Z → option PgDatum)
  (values : list RuntimeValue) (Hsch : schema_indexed (planner_schema pl)) (Hmeta : metadata <$> values = runtime_values f)
  (Hrow : row_conforms pl stored r).
Let sch := planner_schema pl.

Definition ready_plan (p : PlannedNode) : Prop :=
  Forall (leaf_ready sch stored values) (node_leaves (node p)) ∧ plan_shape (node p) = true.
Definition exact_plan (p : PlannedNode) : Prop :=
  ready_plan p ∧ Forall (λ n, leaf_exact n = true) (node_leaves (node p)).
Definition negatable_plan (p : PlannedNode) : Prop := exact_plan p ∧ negatable (node p) = true.
Definition plan_ready : PredicatePlan PlannedNode → Prop := shaped ready_plan exact_plan negatable_plan.

Lemma fragment_slot id spec : fragment_value f id = Ok spec →
  ∃ v, values !! id = Some v ∧ metadata v = spec ∧ (datum <$> values) !! id = Some (datum v).
Proof.
  intros Hf%fragment_value_Ok. revert Hf. rewrite <- Hmeta. unfold RuntimeValueId in id.
  change (RuntimeValueLayout) with (list RuntimeValueSpec). intros Hf.
  rewrite list_lookup_fmap in Hf. destruct (values !! id) as [v|] eqn:Hv; [|done]. exists v.
  split; [done|]. rewrite list_lookup_fmap, Hv. by injection Hf.
Qed.

Lemma slot_matches id spec v t : slot_typed f (datum <$> values) id → runtime_values f !! id = Some spec →
  values !! id = Some v → (datum <$> values) !! id = Some (datum v) →
  (∀ y, has_type (spec_type spec) y → value_matches t y) → ∀ d, datum v = Some d → value_matches t d.
Proof. intros Hs Hspec Hv Hd Hm d Hdat. apply Hm, (Hs spec); [done|]. by rewrite <- Hdat. Qed.

(** A leaf of one node is ready when the node is. *)
Lemma leaf_plan_ready n k : match n with Node.And _ | Node.Or _ | Node.Not _ => False | _ => True end →
  leaf_ready sch stored values n →
  ready_plan (mkNode n k) ∧ (leaf_exact n = true → exact_plan (mkNode n k)) ∧
  (leaf_exact n = true → leaf_negatable n = true → negatable_plan (mkNode n k)).
Proof.
  intros Hn Hr. assert (node_leaves n = [n]) as Hl by (by destruct n). assert (plan_shape n = true) as Hs by (by destruct n).
  assert (ready_plan (mkNode n k)) as HI by (split; simpl; [rewrite Hl; by constructor|done]).
  assert (leaf_exact n = true → exact_plan (mkNode n k)) as HK by (intros He; split; [done|]; simpl; rewrite Hl; by constructor).
  split; [done|]. split; [done|]. intros He Hneg. split; [auto|]. unfold negatable. simpl. rewrite Hl. simpl. by rewrite Hneg.
Qed.

Lemma plan_resolved_ready op c id m q : column_typed pl c → slot_typed f (datum <$> values) id →
  plan_resolved pl f op c id m = Ok q → plan_ready q.
Proof.
  intros Hc Hs Hq. unfold plan_resolved in Hq. destruct (fragment_value f id) as [spec|] eqn:Hf; [|done]. csimpl in Hq.
  destruct (resolve_comparison pl c spec op) as [[res|]|] eqn:Hr; csimpl in Hq; [|by injection Hq as <-|done].
  destruct (fragment_slot _ _ Hf) as (v & Hv & Hspec & Hd). apply fragment_value_Ok in Hf.
  destruct (resolve_comparison_matches pl stored c spec op res r Hsch Hc Hrow Hr) as [Hm Hst].
  injection Hq as <-. cbn [capability]. set (n := Node.Comparison _ _ _ _).
  assert (leaf_ready sch stored values n) as Hready.
  { split; [exact Hst|]. exists v. split; [done|]. exact (slot_matches id spec v _ Hs Hf Hv Hd Hm). }
  destruct (is_fixed_binary (resolved_type res)) eqn:Hfix; [exact (proj1 (leaf_plan_ready n _ I Hready))|].
  destruct (capability (supported res)) eqn:Hcap; [|exact (proj1 (leaf_plan_ready n _ I Hready))].
  refine (proj2 (proj2 (leaf_plan_ready n _ I Hready)) _ eq_refl). simpl.
  destruct (resolve_comparison_Ok pl stored c spec op res r Hsch Hc Hrow Hr) as (v' & field & Hpol & _ & Ht & _).
  by eapply exact_capability.
Qed.

Lemma in_set_ready op v s q : scalar_typed pl f (datum <$> values) v → set_typed f (datum <$> values) s →
  plan_in_set_leaf pl f op v s = Ok q → plan_ready q.
Proof.
  intros Hv Hs Hq. destruct v as [c|], s as [|id]; simpl in Hq; try (by injection Hq as <-).
  destruct (fragment_value f id) as [spec|] eqn:Hf; [|done]. csimpl in Hq.
  destruct (is_rescan_stable _); simpl in Hq; [|by injection Hq as <-].
  destruct (array_element spec) as [element|] eqn:He; [|by injection Hq as <-].
  destruct (resolve_comparison pl c element op) as [[res|]|] eqn:Hr; csimpl in Hq; [|by injection Hq as <-|done].
  destruct (_ || _); [by injection Hq as <-|]. injection Hq as <-.
  destruct (fragment_slot _ _ Hf) as (v & Hval & Hspec & Hd). apply fragment_value_Ok in Hf.
  destruct (resolve_comparison_matches pl stored c element op res r Hsch Hv Hrow Hr) as [Hm Hst].
  refine (proj1 (leaf_plan_ready (Node.InSet _ _ _) _ I _)). split; [exact Hst|]. exists v. split; [done|]. rewrite Hspec, He. split; [done|].
  intros d y Hdat Hy. apply Hm. eapply (Hs id spec element d); [done..| |done]. by rewrite <- Hdat.
Qed.

Lemma column_ready_reads c col t : column_reads pl stored c col (r (attno c)) →
  is_scalar_oid (type_oid (declared_type c)) = true →
  (∀ ft x d, reads_to ft (type_oid (declared_type c)) (typmod (declared_type c)) x d → scalar_matches t x ∧ ft = storage_type t) →
  column_ready sch stored col t.
Proof.
  intros Hread Hsc Ht x Hx. unfold column_reads in Hread. rewrite Hx in Hread. destruct (r (attno c)) as [d|]; [|done].
  destruct (Hread Hsc) as (ft & Hft & Hr). destruct (Ht ft x d Hr) as [Hm <-]. done.
Qed.

Lemma boolean_ready k v q : scalar_typed pl f (datum <$> values) v →
  (∀ c, v = Column c → type_oid (declared_type c) = BOOLOID) →
  plan_column pl v (λ _, true) (λ c, Exact (mkNode (Node.BooleanTest k c) (pruning_costing pl c MatchValue))) = Ok q → plan_ready q.
Proof.
  intros Hv Hb Hq. destruct (plan_column_Ok _ _ _ _ _ Hq) as [->|(c & col & -> & _ & Hcol & ->)]; [done|].
  specialize (Hb c eq_refl). refine (proj2 (proj2 (leaf_plan_ready (Node.BooleanTest k col) _ I _)) eq_refl eq_refl). simpl.
  apply (column_ready_reads c); [by apply planned_column_reads|by rewrite Hb|]. rewrite Hb. intros ft x d Hr.
  pose proof (reads_type _ _ _ _ _ Hr) as (-> & _); [|done]. pose proof (reads_declared _ _ _ _ _ Hr) as (Hd & _).
  by destruct (Hd eq_refl) as (b & -> & _).
Qed.

Lemma starts_with_ready v p q : scalar_typed pl f (datum <$> values) v → scalar_typed pl f (datum <$> values) p →
  plan_starts_with_leaf pl f v p = Ok q → plan_ready q.
Proof.
  intros Hv Hp Hq. destruct v as [c|], p as [|id]; simpl in Hq; try (by injection Hq as <-).
  destruct (fragment_value f id) as [spec|] eqn:Hf; [|done]. csimpl in Hq.
  destruct (policy_plan_starts_with _ _ _) as [v|] eqn:Hpol; [|by injection Hq as <-].
  destruct (starts_with_text _ _ _ _ Hpol) as [Hd Ho]. 
  destruct (planner_column pl (attno c)) as [[col|]|] eqn:Hcol; csimpl in Hq; [|by injection Hq as <-|done]. injection Hq as <-.
  destruct (fragment_slot _ _ Hf) as (w & Hval & Hspec & Hdat). apply fragment_value_Ok in Hf.
  refine (proj1 (proj2 (leaf_plan_ready (Node.StartsWith col id) _ I _)) eq_refl). split.
  - apply (column_ready_reads c); [by apply planned_column_reads|by apply text_scalar|]. intros ft x d Hr.
    pose proof (reads_type _ _ _ _ _ Hr) as (_ & _ & _ & _ & Rt & _). rewrite (Rt Hd) in *. 
    pose proof (reads_declared _ _ _ _ _ Hr) as (_ & _ & _ & _ & _ & _ & Rd & _). by destruct (Rd Hd) as (bs & -> & _).
  - exists w. split; [done|]. eapply (slot_matches id spec w VString Hp Hf Hval Hdat). intros y Hy.
    pose proof (has_type_inv _ _ Hy) as (_ & _ & _ & _ & _ & _ & _ & _ & _ & Yt & _). by destruct (Yt Ho) as (bs & -> & _).
Qed.

Lemma column_plan_ready v acc (build : PlannedIcebergColumn → Node.PlannedIcebergNode) cost q (no_complement : bool) :
  (∀ c, match build c with
    | Node.IsNull _ | Node.IsNotNull _ | Node.IsNan _ | Node.IsNotNan _ | Node.AlwaysFalse => True | _ => False end) →
  plan_column pl v acc (λ c, (if no_complement then ExactNoComplement else Exact) (mkNode (build c) (cost c))) = Ok q → plan_ready q.
Proof.
  intros Hbuild Hq. destruct (plan_column_Ok _ _ _ _ _ Hq) as [->|(c & col & -> & _ & _ & ->)]; [done|]. specialize (Hbuild col).
  destruct (leaf_plan_ready (build col) (cost col)) as (_ & HK & HJ); [by destruct (build col)..|].
  destruct no_complement; [apply HK|apply HJ]; by destruct (build col).
Qed.

Lemma leaf_planned_ready e q : is_leaf e → leaf_typed pl f (datum <$> values) e → plan_with (adapter pl f) e = Ok q → plan_ready q.
Proof.
  intros Hleaf He Hq. destruct e; try done; simpl in Hq.
  - injection Hq as <-. exact (proj2 (proj2 (leaf_plan_ready Node.AlwaysTrue _ I I)) eq_refl eq_refl).
  - injection Hq as <-. exact (proj2 (proj2 (leaf_plan_ready Node.AlwaysFalse _ I I)) eq_refl eq_refl).
  - by apply (column_plan_ready value (λ _, true) Node.IsNotNull (λ c, pruning_costing pl c MatchValue) q true).
  - by apply (column_plan_ready value (λ _, true) (λ _, Node.AlwaysFalse) (λ c, pruning_costing pl c MatchValue) q true).
  - destruct He as (Hl & Hr & _). destruct left as [c|id], right as [c'|id']; simpl in Hq; try (by injection Hq as <-);
      by eapply plan_resolved_ready.
  - destruct He as [Hv Hb]. by eapply boolean_ready.
  - by apply (column_plan_ready value _ Node.IsNull (λ c, pruning_costing pl c MatchValue) q false) in Hq.
  - by apply (column_plan_ready value _ Node.IsNotNull (λ c, pruning_costing pl c MatchValue) q false) in Hq.
  - by apply (column_plan_ready value _ Node.IsNan (λ c, pruning_costing pl c MatchValue) q false) in Hq.
  - by apply (column_plan_ready value _ Node.IsNotNan (λ c, pruning_costing pl c MatchValue) q false) in Hq.
  - destruct He as [Hv Hp]. exact (starts_with_ready _ _ q Hv Hp Hq).
  - destruct He as (Hv & Hs & _). exact (in_set_ready _ _ _ q Hv Hs Hq).
Qed.

Lemma logical_closed (build : list Node.PlannedIcebergNode → Node.PlannedIcebergNode) combine :
  build = Node.And ∨ build = Node.Or →
  closed_under ready_plan exact_plan negatable_plan (λ ps, logical ps combine build).
Proof.
  intros Hb ps _.
  assert (∀ P : Node.PlannedIcebergNode → Prop, Forall (λ p, Forall P (node_leaves (node p))) ps →
    Forall P (node_leaves (build (node <$> ps)))) as Hall.
  { intros P HP. assert (node_leaves (build (node <$> ps)) = concat (node_leaves <$> (node <$> ps))) as -> by (by destruct Hb as [-> | ->]).
    rewrite Forall_concat, !Forall_fmap. exact HP. }
  assert (Forall (λ p, plan_shape (node p) = true) ps → plan_shape (build (node <$> ps)) = true) as Hsh.
  { intros H. assert (plan_shape (build (node <$> ps)) = forallb plan_shape (node <$> ps)) as -> by (by destruct Hb as [-> | ->]).
    by rewrite forallb_Forall_true, Forall_fmap. }
  assert (Forall ready_plan ps → ready_plan (logical ps combine build)) as HI.
  { intros H. split; simpl; [apply Hall|apply Hsh]; (eapply Forall_impl; [exact H|]); by intros p []. }
  assert (Forall exact_plan ps → exact_plan (logical ps combine build)) as HK.
  { intros H. split; [apply HI|apply Hall]; (eapply Forall_impl; [exact H|]); by intros p []. }
  split; [done|]. split; [done|]. intros H. split; [apply HK; eapply Forall_impl; [exact H|]; by intros p []|].
  unfold negatable. simpl. apply forallb_Forall_true, Hall. eapply Forall_impl; [exact H|]. intros p [_ Hneg].
  by apply forallb_Forall_true.
Qed.

Lemma planned_ready e q : Forall (leaf_typed pl f (datum <$> values)) (leaves e) → plan_with (adapter pl f) e = Ok q → plan_ready q.
Proof.
  apply (plan_with_shaped _ (leaf_typed pl f (datum <$> values))).
  - by intros p [].
  - by intros p [].
  - apply leaf_planned_ready.
  - done.
  - apply logical_closed. by left.
  - apply logical_closed. by right.
  - intros p [[[Hr Hs] He] Hneg]. by split.
Qed.

Lemma exact_plan_no_set n : Forall (λ n, leaf_exact n = true) (node_leaves n) → contains_in_set n = false.
Proof.
  induction n as [n Hn|cs IH|cs IH|c IH] using Node.node_ind; simpl; intros He; [|..|done].
  - destruct n; try done. by apply Forall_cons in He as [He _].
  - apply not_true_is_false. rewrite existsb_exists. intros (c & Hc & Hset). apply list_elem_of_In in Hc.
    rewrite Forall_concat, Forall_fmap, Forall_forall in He. rewrite Forall_forall in IH. by rewrite (IH c Hc (He c Hc)) in Hset.
  - apply not_true_is_false. rewrite existsb_exists. intros (c & Hc & Hset). apply list_elem_of_In in Hc.
    rewrite Forall_concat, Forall_fmap, Forall_forall in He. rewrite Forall_forall in IH. by rewrite (IH c Hc (He c Hc)) in Hset.
Qed.
End planned.

(** ** Filters of a row *)
Section filters.
Context {B : PgBackend} {PT : PgTypes} {IA : IcebergArrow} {HL : PgBackendLaws B} {IAL : IcebergArrowLaws IA}.
Context {IE : IcebergExpr Float} {IEL : IcebergExprLaws IE scalar_nan}.

(** A stored row, the row that PostgreSQL reads from it, and the values of the
    fragment's slots. *)
Record RowContext (pl : IcebergFilterPlanner) (f : PredicateFragment) (stored : StoredRow) (r : Z → option PgDatum)
    (values : list RuntimeValue) : Prop := {
  ctx_schema : schema_indexed (planner_schema pl);
  ctx_slots : metadata <$> values = runtime_values f;
  ctx_row : row_conforms pl stored r;
  ctx_leaves : Forall (leaf_typed pl f (datum <$> values)) (leaves (root f));
}.

Definition clause_true (f : PredicateFragment) (r : Z → option PgDatum) (values : list RuntimeValue) : Prop :=
  eval pg_scalars (mkEnv r (datum <$> values)) (root f) = Some true.

(** [present] tells which columns the file of the row has.  A column that it does
    not have reads as NULL: tables get no column with a default
    (managed_table/hooks/table_ddl/column_types.rs). *)
Definition fields_read (present : Z → bool) (stored : StoredRow) (p : PlannedIcebergPredicate) : Prop :=
  Forall (λ id, present id = true ∨ stored id = None) (node_fields (planned_root p)).

(** The file has the columns that the predicate bounds from above. *)
Definition bounds_present (present : Z → bool) (p : PlannedIcebergPredicate) : Prop :=
  Forall (λ id, present id = true) (passing_fields false (planned_root p)).

Lemma planned_filter pl f stored r values q : RowContext pl f stored r values → plan_with (adapter pl f) (root f) = Ok q →
  plan_ready pl stored values q ∧
  keeps (λ p, node_eval stored (datum <$> values) (node p)) q (eval pg_scalars (mkEnv r (datum <$> values)) (root f)).
Proof.
  intros [Hsch Hslots Hrow Hleaves] Hq. split; [by eapply planned_ready|].
  refine (plan_with_keeps (adapter pl f) pg_scalars (planned_meaning stored) (env_typed pl f stored)
    (SP := adapter_sound pl f stored Hsch) (mkEnv r (datum <$> values)) (root f) q _ Hq).
  eapply Forall_impl; [exact Hleaves|]. by split.
Qed.

(** An exact filter binds, and its rows are those of the fragment. *)
Lemma exact_filter_binds pl f stored r values present p :
  RowContext pl f stored r values → try_plan_filter pl f = Ok (Filter.Exact p) → fields_read present stored (predicate p) →
  ∃ b rf, bind (predicate p) values = Ok (Bound b) ∧ row_predicate b = Some rf ∧
    (clause_true f r values → accepts (planner_schema pl) present rf stored = true) ∧
    (bounds_present present (predicate p) → accepts (planner_schema pl) present rf stored = true → clause_true f r values).
Proof.
  intros Hctx Hq Hp. unfold try_plan_filter in Hq. destruct (plan_with _ _) as [q|] eqn:Hplan; [|done]. csimpl in Hq.
  destruct (planned_filter _ _ _ _ _ _ Hctx Hplan) as [Hready Hk].
  assert (∃ n, exact_plan pl stored values n ∧ predicate p = mkPlanned (iceberg_schema_id (planner_schema pl)) (node n) ∧
    (node_eval stored (datum <$> values) (node n) = Some true ↔ clause_true f r values)) as (n & [[Hr Hs] He] & Hpn & Hiff).
  { destruct q as [| | |n|n]; try discriminate Hq; injection Hq as <-; exists n; split_and!; try done.
    - by destruct Hready.
    - unfold clause_true. by rewrite <- Hk. }
  assert (contains_in_set (planned_root (predicate p)) = false) as Hset.
  { rewrite Hpn. by apply exact_plan_no_set. }
  destruct (bind_exact (planner_schema pl) stored values (predicate p)) as [b Hb]; [by rewrite Hpn..|done|].
  destruct (bind_accepts (planner_schema pl) present stored values (predicate p) b) as (H1 & _ & H3); [by split; [rewrite Hpn|]|by rewrite Hpn|done|].
  destruct (H3 Hset) as [Hrf H4]. exists b, (bound_predicate b). split; [done|]. split; [done|]. rewrite Hpn in H1, H4. simpl in H1, H4.
  rewrite <- Hiff. unfold bounds_present. rewrite Hpn. split; auto.
Qed.

(** Every filter that binds accepts the rows of its fragment. *)
Lemma filter_accepts pl f stored r values present q p b :
  RowContext pl f stored r values → try_plan_filter pl f = Ok q →
  q = Filter.Exact p ∨ q = Filter.Partial p ∨ q = Filter.Conservative p →
  fields_read present stored (predicate p) → bind (predicate p) values = Ok (Bound b) → clause_true f r values →
  accepts (planner_schema pl) present (bound_predicate b) stored = true ∧
  ∀ rf, row_predicate b = Some rf → accepts (planner_schema pl) present rf stored = true.
Proof.
  intros Hctx Hq Hqp Hp Hb Htrue. unfold try_plan_filter in Hq. destruct (plan_with _ _) as [q'|] eqn:Hplan; [|done].
  csimpl in Hq. destruct (planned_filter _ _ _ _ _ _ Hctx Hplan) as [Hready Hk]. injection Hq as Hq.
  assert (∃ n, ready_plan pl stored values n ∧ predicate p = mkPlanned (iceberg_schema_id (planner_schema pl)) (node n) ∧
    node_eval stored (datum <$> values) (node n) = Some true) as (n & [Hr Hs] & Hpn & Hnode).
  { destruct q' as [|n|n|n|n]; subst q; destruct Hqp as [Hq|[Hq|Hq]]; try discriminate Hq; injection Hq as <-; exists n;
      split_and!; try done; simpl in *; auto; try (by destruct Hready); try (by destruct Hready as [[] _]); try (by rewrite Hk);
      by apply Hk. }
  destruct (bind_accepts (planner_schema pl) present stored values (predicate p) b) as (H1 & H2 & _);
    [by split; [rewrite Hpn|]|by rewrite Hpn|done|]. rewrite Hpn in H1, H2. simpl in H1, H2. split; [auto|eauto].
Qed.

(** C4. A fragment that the Iceberg planner takes as an exact filter binds for all
    values of its slots.  The predicate that the Arrow reader then evaluates keeps
    every row on which the fragment is TRUE (as PostgreSQL would read the row),
    whether the row's file has the columns of the filter or lacks some of them,
    which then read as NULL.  It keeps no other row when the file has the columns
    that the filter bounds from above ([bounds_present]: those that it compares by
    [<] or [<=], once NOT has been pushed to the comparisons): for such a file the
    clause needs no recheck.  A file without such a column, written before ADD
    COLUMN, is the exception that the policy reports. *)
Theorem exact_filter_rows pl f stored r values present p :
  RowContext pl f stored r values → try_plan_filter pl f = Ok (Filter.Exact p) → fields_read present stored (predicate p) →
  ∃ b rf, bind (predicate p) values = Ok (Bound b) ∧ row_predicate b = Some rf ∧
    (clause_true f r values → accepts (planner_schema pl) present rf stored = true) ∧
    (bounds_present present (predicate p) → accepts (planner_schema pl) present rf stored = true → clause_true f r values).
Proof. apply exact_filter_binds. Qed.

(** C16. A fragment that the planner takes as a partial or conservative filter
    never loses a row: once bound, both the predicate that prunes files and the
    one that the Arrow reader evaluates accept every row on which the fragment is
    TRUE, also a row of a file that lacks columns of the filter, which read as
    NULL. *)
Theorem widened_filter_rows pl f stored r values present p b :
  RowContext pl f stored r values →
  try_plan_filter pl f = Ok (Filter.Partial p) ∨ try_plan_filter pl f = Ok (Filter.Conservative p) →
  fields_read present stored (predicate p) → bind (predicate p) values = Ok (Bound b) → clause_true f r values →
  accepts (planner_schema pl) present (bound_predicate b) stored = true ∧
  ∀ rf, row_predicate b = Some rf → accepts (planner_schema pl) present rf stored = true.
Proof. intros Hctx [Hq|Hq]; eapply filter_accepts; eauto. Qed.

(** *** Several filters *)
Lemma conjoin_accepts sch present stored ps :
  match conjoin_predicates ps with
  | Some p => accepts sch present p stored = forallb (λ p, accepts sch present p stored) ps
  | None => ps = []
  end.
Proof.
  destruct ps as [|p ps]; [done|]. simpl. revert p. induction ps as [|q ps IH]; intros p; simpl; [by rewrite andb_true_r|].
  rewrite IH, accepts_and. by rewrite andb_assoc.
Qed.

Lemma validate_schema_Ok bs id : validate_schema bs id = Ok () ↔ Forall (λ b, bound_schema b = id) bs.
Proof.
  induction bs as [|b bs IH]; [done|]. simpl. rewrite Forall_cons, <- IH. destruct (Z.eqb_spec (bound_schema b) id); simpl; naive_solver.
Qed.

(** *** A column that a file does not have

    An ordered comparison below a bound then keeps every row, although the column
    reads as NULL. *)
Lemma missing_column_kept sch present stored p values op c id t v d l b : planned_root p = Node.Comparison op c id t →
  op = PLt ∨ op = PLe → present (field_id c) = false → stored (field_id c) = None → values !! id = Some v →
  datum v = Some d → decode_value t (value_oid v) d = Ok (Some (BoundDatum l)) → bind p values = Ok (Bound b) →
  ∃ rf, row_predicate b = Some rf ∧ accepts sch present rf stored = true ∧
    node_eval stored (datum <$> values) (planned_root p) = None.
Proof.
  intros Hroot Hop Hp Hx Hv Hd Hdec Hb. unfold bind in Hb. rewrite Hroot in *. cbn [bind_node] in Hb. unfold bound_value in Hb.
  rewrite Hv in Hb. csimpl in Hb. unfold bind_comparison in Hb. rewrite Hd, Hdec in Hb. csimpl in Hb. injection Hb as <-.
  eexists. split; [done|]. split; [by apply accepts_compare_missing|]. cbn [node_eval]. by rewrite Hx.
Qed.
End filters.

(** ** A reference library

    Predicates are syntax trees, evaluated as the library documents. *)
Section reference.
Context {F : Type} (nan : Scalar F → bool).

Inductive RefPredicate :=
| RTrue
| RFalse
| RUnary (o : PredOp.PredicateOperator) (r : Reference)
| RBinary (o : PredOp.PredicateOperator) (r : Reference) (l : Literal)
| RIn (r : Reference) (ls : list Literal)
| RAnd (a b : RefPredicate)
| ROr (a b : RefPredicate)
| RNot (a : RefPredicate).

Definition ref_kind (o : PredOp.PredicateOperator) : option PgComparisonKind :=
  match o with
  | PredOp.Eq => Some Equal
  | PredOp.NotEq => Some NotEqual
  | PredOp.LessThan => Some Less
  | PredOp.LessThanOrEq => Some LessEqual
  | PredOp.GreaterThan => Some Greater
  | PredOp.GreaterThanOrEq => Some GreaterEqual
  | _ => None
  end.

Fixpoint ref_accepts (present : Z → bool) (p : RefPredicate) (row : Z → option (Scalar F)) : bool :=
  match p with
  | RTrue => true
  | RFalse => false
  | RUnary o r =>
      match o, row (ref_field r) with
      | PredOp.IsNull, x => is_null x
      | PredOp.NotNull, x => negb (is_null x)
      | PredOp.IsNan, Some x => nan x
      | PredOp.NotNan, Some x => negb (nan x)
      | _, _ => false
      end
  | RBinary o r l =>
      if negb (present (ref_field r)) && match o with PredOp.LessThan | PredOp.LessThanOrEq => true | _ => false end then true
      else
        match row (ref_field r), o, l with
        | Some (AString bs), PredOp.StartsWith, LString p => is_prefix p bs
        | Some x, o, l => match ref_kind o, literal_compare x l with Some k, Some c => kind_holds k c | _, _ => false end
        | None, _, _ => false
        end
  | RIn r ls =>
      match row (ref_field r) with
      | Some x => existsb (λ l, from_option (kind_holds Equal) false (literal_compare x l)) ls
      | None => false
      end
  | RAnd a b => ref_accepts present a row && ref_accepts present b row
  | ROr a b => ref_accepts present a row || ref_accepts present b row
  | RNot a => negb (ref_accepts present a row)
  end.

Definition reference_expr : IcebergExpr F := {|
  Predicate := RefPredicate;
  IDatum := Literal;
  literal := id;
  decimal_from_unscaled u p s := Ok (LDecimal u p s);
  always_true := RTrue;
  always_false := RFalse;
  unary := RUnary;
  binary := RBinary;
  is_in := RIn;
  pred_and := RAnd;
  pred_or := ROr;
  pred_not := RNot;
  accepts _ := ref_accepts;
|}.

#[export] Instance reference_expr_laws : IcebergExprLaws reference_expr nan.
Proof.
  split; simpl; try done.
  - intros sch pr r row x Hp ->. done.
  - intros sch pr o r d row [-> | [? ?]] ->; [by destruct o|]. by destruct o, (pr (ref_field r)).
  - intros sch pr o r l row x c -> Hx _ Hc. rewrite Hx. simpl. unfold id. destruct o, x, l; try discriminate Hc; simpl in *; by simplify_eq.
  - intros sch pr o r d row -> [-> | ->]; done.
  - intros sch pr r d row ->. by destruct (pr (ref_field r)).
  - intros sch pr r p row bs -> -> _. done.
  - intros sch pr r ls row x l Hp Hx _ Hl Hc. rewrite Hx. rewrite list_fmap_id. apply existsb_exists. exists l.
    split; [by apply list_elem_of_In|]. by rewrite Hc.
Qed.
End reference.

(** ** An example

    A table of an [int8] and a [text] column, and the clauses
    [id < $0 AND name LIKE 'ab%'] and [id = ANY ($0)]. *)
Definition documented_arrow : IcebergArrow := {|
  arrow_type t :=
    match t with
    | TBoolean => DBoolean
    | TInt => DInt32
    | TLong => DInt64
    | TFloat => DFloat32
    | TDouble => DFloat64
    | TDecimal p s => DDecimal128 p s
    | TDate => DDate32
    | TTime => DTime64 Microsecond
    | TTimestamp => DTimestamp Microsecond false
    | TTimestamptz => DTimestamp Microsecond true
    | TTimestampNs => DTimestamp Nanosecond false
    | TTimestamptzNs => DTimestamp Nanosecond true
    | TString => DUtf8
    | TUuid => DFixedSizeBinary 16
    | TFixed w => DFixedSizeBinary w
    | TBinary => DLargeBinary
    end;
|}.

#[export] Instance documented_arrow_laws : IcebergArrowLaws documented_arrow.
Proof. by split. Qed.

Definition ascii (s : string) : RString := String.list_byte_of_string s.

Definition sample_field (name : RString) : option NestedField :=
  if decide (name = ascii "id") then Some (mkNested 1 (Some TLong))
  else if decide (name = ascii "name") then Some (mkNested 2 (Some TString)) else None.

Definition sample_schema : IcebergSchema :=
  mkSchema 7 sample_field (λ id, if id =? 1 then Some (mkNested 1 (Some TLong))
    else if id =? 2 then Some (mkNested 2 (Some TString)) else None).

Definition sample_planner : IcebergFilterPlanner :=
  mkPlanner sample_schema
    (layout_new [mkLive 1 (ascii "id") true; mkLive 2 (ascii "name") false] 2 [(INT8OID, -1); (TEXTOID, -1)]) true [].

Definition int8 : ExprType := mkType INT8OID (-1) InvalidOid.
Definition text : ExprType := mkType TEXTOID (-1) 950.

Definition sample_fragment : PredicateFragment :=
  mkFragment (And [Comparison (mkOp 412 412 BOOLOID InvalidOid InvalidOid) (Column (mkColumn 1 1 int8 int8)) (Value 0%nat);
                   StartsWith (Column (mkColumn 1 2 text text)) (Value 1%nat)])
    [mkSpec int8 ExternalParam; mkSpec text Constant].

Definition sample_set_fragment : PredicateFragment :=
  mkFragment (InSet (mkOp 410 410 BOOLOID InvalidOid InvalidOid) (Column (mkColumn 1 1 int8 int8)) (Value 0%nat))
    [mkSpec (mkType INT8ARRAYOID (-1) InvalidOid) ExternalParam].

Definition sample_stored : Z → option (Scalar (option Z)) := λ id,
  if id =? 1 then Some (AI64 5) else if id =? 2 then Some (AString (ascii "abc")) else None.

Definition sample_row : Z → option (PgValue (list byte) (option Z)) := λ attno,
  if attno =? 1 then Some (PgInt8 5) else if attno =? 2 then Some (PgText (ascii "abc")) else None.

Definition sample_values : list (@RuntimeValue reference_backend) :=
  [@mkValue reference_backend (Some (PgInt8 9)) (mkSpec int8 ExternalParam);
   @mkValue reference_backend (Some (PgText (ascii "ab"))) (mkSpec text Constant)].

Definition sample_set : list (@RuntimeValue reference_backend) :=
  [@mkValue reference_backend (Some (PgArray true [Some (PgInt8 5); None]))
     (mkSpec (mkType INT8ARRAYOID (-1) InvalidOid) ExternalParam)].

Lemma sample_schema_indexed : schema_indexed sample_schema.
Proof. intros name field. simpl. unfold sample_field. repeat case_decide; intros [= <-]; done. Qed.

Lemma sample_row_conforms :
  @row_conforms reference_backend reference_types documented_arrow sample_planner sample_stored sample_row.
Proof.
  intros attno column field oid m Hcol Hf Ha.
  assert (attno = 1 ∨ attno = 2) as [-> | ->].
  { unfold layout_column, attribute_offset in Hcol. change (slot_width _) with 2%nat in Hcol.
    destruct (attno <? 1) eqn:H1; [done|]. destruct (Z.of_nat 2 <=? attno - 1) eqn:H2; [done|]. apply Z.ltb_ge in H1. apply Z.leb_gt in H2. clear - H1 H2. lia. }
  - vm_compute in Hcol. injection Hcol as <-. vm_compute in Hf. injection Hf as <-. vm_compute in Ha. injection Ha as <- <-.
    split; [by exists Col.Int8, Rule.I64|simpl; lia|done].
  - vm_compute in Hcol. injection Hcol as <-. vm_compute in Hf. injection Hf as <-. vm_compute in Ha. injection Ha as <- <-.
    split; [by exists Col.Text, Rule.Utf8|done|done].
Qed.

Lemma sample_leaves_typed :
  Forall (@leaf_typed reference_backend sample_planner sample_fragment (datum <$> sample_values)) (leaves (root sample_fragment)).
Proof.
  constructor; [|constructor; [|constructor]].
  - split; [split; [reflexivity|by left]|]. split.
    + intros spec d [= <-] [= <-]. split; [reflexivity|]. split; reflexivity || by vm_compute.
    + intros s [= <-]. simpl. split; intros o [= <-]; reflexivity.
  - split; [split; [reflexivity|by left]|]. intros spec d [= <-] [= <-]. intros _. reflexivity.
Qed.

Lemma sample_set_typed :
  Forall (@leaf_typed reference_backend sample_planner sample_set_fragment (datum <$> sample_set)) (leaves (root sample_set_fragment)).
Proof.
  constructor; [|constructor]. split; [split; [reflexivity|by left]|]. split.
  - intros id spec element d [= <-] [= <-] He [= <-] y Hy. vm_compute in He. injection He as <-. simpl in Hy.
    apply elem_of_cons in Hy as [[= ->]|Hy]; [|by apply list_elem_of_singleton in Hy]. split; [reflexivity|].
    split; reflexivity || by vm_compute.
  - intros s [= <-]. simpl. split; intros o [= <-]; reflexivity.
Qed.

(** The row 5, 'abc' under the exact filter. *)
Lemma exact_filter_rows_witness :
  let B := reference_backend in let IE := reference_expr (F := option Z) (@scalar_nan reference_backend) in
  ∃ p b rf, try_plan_filter sample_planner sample_fragment = Ok (Filter.Exact p) ∧
    bind (predicate p) sample_values = Ok (Bound b) ∧ row_predicate b = Some rf ∧
    (clause_true sample_fragment sample_row sample_values ↔ accepts sample_schema (λ _, true) rf sample_stored = true).
Proof.
  intros B IE. set (plan := try_plan_filter sample_planner sample_fragment).
  assert (∃ p, plan = Ok (Filter.Exact p)) as [p Hp] by (eexists; vm_compute; reflexivity).
  destruct (@exact_filter_rows reference_backend reference_types documented_arrow _ _ IE _ sample_planner
    sample_fragment sample_stored sample_row sample_values (λ _, true) p) as (b & rf & Hb & Hrf & Hkeep & Hback).
  - split; [exact sample_schema_indexed|reflexivity|exact sample_row_conforms|exact sample_leaves_typed].
  - exact Hp.
  - apply Forall_true. left. reflexivity.
  - exists p, b, rf. split; [exact Hp|]. split; [exact Hb|]. split; [exact Hrf|]. split; [exact Hkeep|].
    apply Hback. apply Forall_true. reflexivity.
Defined.

(** The same row under the set [{5, NULL}], which only prunes files. *)
Lemma widened_filter_rows_witness :
  let B := reference_backend in let IE := reference_expr (F := option Z) (@scalar_nan reference_backend) in
  ∃ p b, try_plan_filter sample_planner sample_set_fragment = Ok (Filter.Conservative p) ∧
    bind (predicate p) sample_set = Ok (Bound b) ∧ row_predicate b = None ∧
    accepts sample_schema (λ _, true) (bound_predicate b) sample_stored = true.
Proof.
  intros B IE.
  set (p := mkFilter (mkPlanned 7 (Node.InSet (mkIcebergColumn 1 (ascii "id")) 0%nat VInt8)) UncostedBestEffort PruningOnly).
  set (b := @mkBound reference_backend IE 7 (RIn (mkReference (ascii "id") 1) [LLong 5]) Row.Skipped).
  assert (try_plan_filter sample_planner sample_set_fragment = Ok (Filter.Conservative p)) as Hp by (vm_compute; reflexivity).
  assert (bind (predicate p) sample_set = Ok (Bound b)) as Hb by (vm_compute; reflexivity).
  exists p, b. split; [exact Hp|]. split; [exact Hb|]. split; [reflexivity|].
  destruct (@widened_filter_rows reference_backend reference_types documented_arrow _ _ IE _ sample_planner
    sample_set_fragment sample_stored sample_row sample_set (λ _, true) p b) as [Hacc _].
  - split; [exact sample_schema_indexed|reflexivity|exact sample_row_conforms|exact sample_set_typed].
  - right. exact Hp.
  - apply Forall_true. left. reflexivity.
  - exact Hb.
  - vm_compute. reflexivity.
  - exact Hacc.
Defined.
