(* ===== verification/Normalize.v ===== *)
(** * Normalization of PostgreSQL expressions

    Models lagodb-core/src/expr/pg (view.rs, leaf.rs, literal.rs) and
    expr/pushdown/normalize.rs, normalize/predicate.rs and scope.rs: the reading
    of a planner expression as a predicate tree whose operands are columns of the
    scanned relation and slots for runtime values.

    The expressions are PostgreSQL's; what evaluating one yields is the class
    [PgExecutor] with the laws that PostgreSQL documents. *)

From stdpp Require Import base list strings.
From Stdlib Require Import ZArith Lia.
From S2P Require Import Prelude.
From S2P Require Import Bytes.
From S2P Require Import DecimalNumeric.
From S2P Require Import PredicateTree.
From S2P Require Import Expressions.
From S2P Require Import PredicatePolicy.
From S2P Require Import ArrowCodec.
From S2P Require Import PredicateMeaning.
Local Open Scope Z_scope.

(** ** PostgreSQL expressions *)
Inductive ParamKind := PARAM_EXTERN | PARAM_EXEC | PARAM_SUBLINK | PARAM_MULTIEXPR.
Inductive BoolExprType := AND_EXPR | OR_EXPR | NOT_EXPR.
Inductive PgNullTestKind := NullTestIsNull | NullTestIsNotNull.

#[export] Instance ParamKind_eq_dec : EqDecision ParamKind.
Proof. solve_decision. Defined.

(** The built-in identifiers that the code names. *)
Definition OID_TEXT_LIKE_OP : Oid := 1209.
Definition F_TEXTLIKE : Oid := 850.
Definition TextPrefixOperator : Oid := 3877.
Definition F_STARTS_WITH : Oid := 3696.
Definition F_INT4_INT2 : Oid := 313.
Definition F_INT8_INT2 : Oid := 754.
Definition F_INT8_INT4 : Oid := 481.

(** The fields of a [FuncExpr] other than its arguments. *)
Record PgFunction := mkFunction {
  funcid : Oid;
  funcresulttype : Oid;
  funcretset : bool;
  funcvariadic : bool;
  funccollid : Oid;
  funcinputcollid : Oid;
}.

Record PgVar := mkVar { varno : Z; varattno : Z; var_type : ExprType }.

(** The nodes the code looks at; [EOther] is any other node.  A node's children
    are never null pointers. *)
Inductive PgExpr (D : Type) :=
| EVar (v : PgVar)
| EConst (t : ExprType) (value : option D)
| EParam (kind : ParamKind) (id : Z) (t : ExprType)
| EOp (op : PgComparisonOp) (args : list (PgExpr D))
| EScalarArrayOp (opno opfuncid inputcollid : Oid) (use_or : bool) (scalar array : PgExpr D)
| EBool (boolop : BoolExprType) (args : list (PgExpr D))
| ENullTest (kind : PgNullTestKind) (argisrow : bool) (arg : PgExpr D)
| EBooleanTest (kind : BooleanTestKind) (arg : PgExpr D)
| ERelabel (arg : PgExpr D) (t : ExprType)
| EFunc (f : PgFunction) (args : list (PgExpr D))
| EOther (tag : Z).
Arguments EVar {D}.
Arguments EConst {D}.
Arguments EParam {D}.
Arguments EOp {D}.
Arguments EScalarArrayOp {D}.
Arguments EBool {D}.
Arguments ENullTest {D}.
Arguments EBooleanTest {D}.
Arguments ERelabel {D}.
Arguments EFunc {D}.
Arguments EOther {D}.

(** Induction that reaches the arguments of Boolean nodes. *)
Section ind.
Context {D : Type} (P : PgExpr D → Prop)
  (Hrelabel : ∀ e t, P e → P (ERelabel e t))
  (Hbool : ∀ o args, Forall P args → P (EBool o args))
  (Hleaf : ∀ e, match e with ERelabel _ _ | EBool _ _ => False | _ => True end → P e).

Fixpoint expr_ind' (e : PgExpr D) : P e :=
  let all := fix all (es : list (PgExpr D)) : Forall P es :=
    match es with
    | [] => Forall_nil_2 P
    | e :: es' => Forall_cons_2 P e es' (expr_ind' e) (all es')
    end in
  match e with
  | ERelabel e t => Hrelabel e t (expr_ind' e)
  | EBool o args => Hbool o args (all args)
  | e => Hleaf e I
  end.
End ind.

Fixpoint without_relabels {D} (e : PgExpr D) : PgExpr D :=
  match e with ERelabel arg _ => without_relabels arg | _ => e end.

(** [exprType], [exprTypmod] and [exprCollation]. *)
Class PgNodes (D : Type) := { expr_type : PgExpr D → ExprType }.

Class PgNodesLaws {D} (NB : PgNodes D) : Prop := {
  expr_type_var : ∀ v, expr_type (EVar v) = var_type v;
  expr_type_const : ∀ t d, expr_type (EConst t d) = t;
  expr_type_param : ∀ k id t, expr_type (EParam k id t) = t;
  expr_type_relabel : ∀ e t, expr_type (ERelabel e t) = t;
  expr_type_func : ∀ f args, type_oid (expr_type (EFunc f args)) = funcresulttype f;
}.

(** ** Structural parsing *)
Inductive PgStructuralError :=
| UnsupportedNodeTag
| NonBinaryComparison
| UnsupportedScalar
| UnsupportedScalarFunction
| RowNullTest.

Definition widening_for_function (function source target : Oid) : option PgIntegerWidening :=
  if (function =? F_INT4_INT2) && (source =? INT2OID) && (target =? INT4OID) then Some Int2ToInt4
  else if (function =? F_INT8_INT2) && (source =? INT2OID) && (target =? INT8OID) then Some Int2ToInt8
  else if (function =? F_INT8_INT4) && (source =? INT4OID) && (target =? INT8OID) then Some Int4ToInt8
  else None.

Section parse.
Context {D : Type} {NB : PgNodes D}.
Local Notation Expr := (PgExpr D).

Definition widened_integer_var (f : PgFunction) (args : list Expr) : option PgVar :=
  if funcretset f || funcvariadic f || negb (funccollid f =? InvalidOid) || negb (funcinputcollid f =? InvalidOid)
  then None
  else
    match args with
    | [arg] =>
        match without_relabels arg with
        | EVar v => _ ← widening_for_function (funcid f) (type_oid (var_type v)) (funcresulttype f); Some v
        | _ => None
        end
    | _ => None
    end.

(** [PgScalarExprRef]: the node without its relabels; the whole expression is the
    argument of [parse_scalar]. *)
Inductive PgScalarExprRef :=
| RefVar (v : PgVar)
| RefConst (t : ExprType) (value : option D)
| RefParam (kind : ParamKind) (id : Z) (t : ExprType)
| RefWidenedIntegerVar (v : PgVar).

Definition parse_scalar (e : Expr) : result PgStructuralError PgScalarExprRef :=
  match without_relabels e with
  | EVar v => Ok (RefVar v)
  | EConst t d => Ok (RefConst t d)
  | EParam k id t => Ok (RefParam k id t)
  | EFunc f args => RefWidenedIntegerVar <$> ok_or (widened_integer_var f args) UnsupportedScalar
  | _ => Err UnsupportedScalar
  end.

Definition op_starts_with_operands (op : PgComparisonOp) (args : list Expr) : option (Expr * Expr * Oid) :=
  if negb (opno op =? TextPrefixOperator) || negb (opfuncid op =? F_STARTS_WITH)
     || negb (opresulttype op =? BOOLOID) || negb (opcollid op =? InvalidOid)
  then None
  else
    match args with
    | [value; prefix] =>
        if negb (type_oid (expr_type value) =? TEXTOID) || negb (type_oid (expr_type prefix) =? TEXTOID) then None
        else Some (value, prefix, inputcollid op)
    | _ => None
    end.

Definition func_starts_with_operands (f : PgFunction) (args : list Expr) : option (Expr * Expr * Oid) :=
  if negb (funcid f =? F_STARTS_WITH) || negb (funcresulttype f =? BOOLOID) || funcretset f || funcvariadic f
     || negb (funccollid f =? InvalidOid)
  then None
  else
    match args with
    | [value; prefix] =>
        if negb (type_oid (expr_type value) =? TEXTOID) || negb (type_oid (expr_type prefix) =? TEXTOID) then None
        else Some (value, prefix, funcinputcollid f)
    | _ => None
    end.

Inductive PgPredicateLeafRef :=
| LeafBooleanTest (kind : BooleanTestKind) (value : Expr)
| LeafComparison (op : PgComparisonOp) (left right : Expr)
| LeafNullTest (kind : PgNullTestKind) (value : Expr)
| LeafStartsWith (value prefix : Expr) (input_collation : Oid).

Definition parse_leaf (e : Expr) : result PgStructuralError PgPredicateLeafRef :=
  match without_relabels e with
  | EOp op args =>
      match op_starts_with_operands op args with
      | Some (value, prefix, c) => Ok (LeafStartsWith value prefix c)
      | None => match args with [l; r] => Ok (LeafComparison op l r) | _ => Err NonBinaryComparison end
      end
  | EBooleanTest kind arg => Ok (LeafBooleanTest kind arg)
  | ENullTest kind argisrow arg => if argisrow then Err RowNullTest else Ok (LeafNullTest kind arg)
  | EFunc f args =>
      match func_starts_with_operands f args with
      | Some (value, prefix, c) => Ok (LeafStartsWith value prefix c)
      | None => Err UnsupportedScalarFunction
      end
  | _ => Err UnsupportedNodeTag
  end.
End parse.

(** ** Constants *)

(** The loop of [pure_like_prefix] and whether it saw a final wildcard. *)
Fixpoint like_prefix (pattern prefix : list byte) : option (list byte * bool) :=
  match pattern with
  | [] => Some (prefix, false)
  | Byte.x5c :: rest => match rest with [] => None | b :: rest' => like_prefix rest' (prefix ++ [b]) end
  | Byte.x5f :: _ => None
  | [Byte.x25] => Some (prefix, true)
  | Byte.x25 :: _ => None
  | b :: rest => like_prefix rest (prefix ++ [b])
  end.

Section constants.
Context {B : PgBackend}.

Definition is_float_nan (t : ExprType) (value : option PgDatum) : bool :=
  match value with
  | None => false
  | Some d =>
      match float_value d (type_oid t) with Some f => float_nan f | None => false end
  end.

Definition pure_like_prefix (t : ExprType) (value : option PgDatum) : option (PgExpr PgDatum) :=
  if negb (type_oid t =? TEXTOID) then None
  else
    match value with
    | Some (PgText pattern) =>
        match like_prefix pattern [] with
        | Some (prefix, true) =>
            if Z.of_nat (length prefix) <=? i32_max
            then Some (EConst (mkType TEXTOID (typmod t) (collation t)) (Some (PgText prefix))) else None
        | _ => None
        end
    | _ => None
    end.
End constants.

(** ** Scopes *)
Inductive VarResolution := ResolvedColumn (scan : Z) | ResolvedOuterValue.

(** The scope of a relation, by its range-table index, or of a query fragment, by
    the scan of each range-table entry. *)
Inductive ExpressionScope :=
| RelationScope (scan_relid : Z)
| QueryScope (sources : list (option Z)).

Definition relation_resolve_var (scan_relid varno : Z) : VarResolution :=
  if varno =? scan_relid then ResolvedColumn 0 else ResolvedOuterValue.

Definition relation_resolve_param (kind : ParamKind) : option RuntimeValueSource :=
  match kind with
  | PARAM_EXTERN => Some ExternalParam
  | PARAM_EXEC => Some ExecParam
  | _ => None
  end.

(** [usize::try_from] of a negative index fails. *)
Definition query_resolve_var (sources : list (option Z)) (varno : Z) : option Z :=
  if varno <? 0 then None else mjoin (sources !! Z.to_nat varno).

(** ** The normalizer *)
Section normalize.
Context {B : PgBackend} {NB : PgNodes PgDatum}.
Local Notation Expr := (PgExpr PgDatum).

(** A complete expression aligned with one slot. *)
Record RuntimeValueExpr := mkBinding { binding_expr : Expr; binding_metadata : RuntimeValueSpec }.

Record NormalizedPredicate := mkNormalized {
  fragment : PredicateFragment;
  bindings : list RuntimeValueExpr;
  pushed_expr : Expr;
}.

(** What a step of the normalizer returns: [None] is the [?] that abandons the
    expression, whose bindings are then dropped. *)
Local Notation N A := (list RuntimeValueExpr → option (A * list RuntimeValueExpr)).

Definition push_binding (e : Expr) (metadata : RuntimeValueSpec) : N ScalarExpr := λ bs,
  Some (Value (length bs), bs ++ [mkBinding e metadata]).

(** [combine] of [NormalizedPredicate]. *)
Definition combine_step (acc : list PgPredicate * list RuntimeValueSpec * list RuntimeValueExpr * list Expr)
    (item : NormalizedPredicate) : list PgPredicate * list RuntimeValueSpec * list RuntimeValueExpr * list Expr :=
  let '(nodes, values, bs, args) := acc in
  (nodes ++ [rebase_runtime_values (root (fragment item)) (length values)],
   values ++ runtime_values (fragment item), bs ++ bindings item, args ++ [pushed_expr item]).

Definition combine (items : list NormalizedPredicate) (conjunction : bool) : option NormalizedPredicate :=
  match items with
  | [] => None
  | [item] => Some item
  | _ =>
      let '(nodes, values, bs, args) := foldl combine_step ([], [], [], []) items in
      Some (mkNormalized (mkFragment (if conjunction then And nodes else Or nodes) values) bs
        (EBool (if conjunction then AND_EXPR else OR_EXPR) args))
  end.

Section scoped.
Context (scope : ExpressionScope).

Definition column_of (scan : Z) (v : PgVar) (e : Expr) : ScalarExpr :=
  Column (mkColumn scan (varattno v) (var_type v) (expr_type e)).

Definition normalize_scalar (e : Expr) : N ScalarExpr := λ bs,
  match parse_scalar e with
  | Err _ => None
  | Ok (RefVar v | RefWidenedIntegerVar v) =>
      if 0 <? varattno v then
        match scope with
        | RelationScope relid =>
            match relation_resolve_var relid (varno v) with
            | ResolvedColumn scan => Some (column_of scan v e, bs)
            | ResolvedOuterValue => push_binding e (mkSpec (expr_type e) OuterValue) bs
            end
        | QueryScope sources => scan ← query_resolve_var sources (varno v); Some (column_of scan v e, bs)
        end
      else None
  | Ok (RefConst _ _) => push_binding e (mkSpec (expr_type e) Constant) bs
  | Ok (RefParam kind _ _) =>
      source ← match scope with
        | RelationScope _ => relation_resolve_param kind
        | QueryScope _ => match kind with PARAM_EXTERN => Some ExternalParam | _ => None end
        end;
      push_binding e (mkSpec (expr_type e) source) bs
  end.

(** A NULL or a value that compares totally in the column's shape. *)
Definition comparable_constant (declared : Decimal128Semantics) (t : ExprType) (value : option PgDatum) : bool :=
  (type_oid t =? NUMERICOID) && (collation t =? InvalidOid) &&
  match value with
  | None => true
  | Some (PgNumeric n) => is_ok (encode_comparison_datum numeric_send (semantics_codec declared) n)
  | Some _ => false
  end.

Definition specialize_decimal_constant (column value : ScalarExpr) (bs : list RuntimeValueExpr) : list RuntimeValueExpr :=
  match column, value with
  | Column c, Value id =>
      match bs !! id with
      | None => bs
      | Some binding =>
          let metadata := binding_metadata binding in
          let t := spec_type metadata in
          if negb (bool_decide (source_kind metadata = Constant)) || negb (type_oid t =? NUMERICOID)
             || negb (typmod t =? -1) || negb (collation t =? InvalidOid)
          then bs
          else
            match semantics_for_type (declared_type c) with
            | None => bs
            | Some declared =>
                if negb (bool_decide (semantics_for_type (value_type c) = Some declared)) then bs
                else
                  match parse_scalar (binding_expr binding) with
                  | Ok (RefConst ct d) =>
                      if comparable_constant declared ct d
                      then <[id := mkBinding (binding_expr binding)
                                     (mkSpec (semantics_value_type declared) (source_kind metadata))]> bs
                      else bs
                  | _ => bs
                  end
            end
      end
  | _, _ => bs
  end.

Definition is_column (s : ScalarExpr) : bool := match s with Column _ => true | Value _ => false end.

Definition normalize_in_set (opno opfuncid inputcollid : Oid) (use_or : bool) (scalar array : Expr) : N PgPredicate := λ bs,
  if (match scope with QueryScope _ => true | RelationScope _ => false end) || negb use_or then None
  else
    '(value, bs) ← normalize_scalar scalar bs;
    if negb (is_column value) then None
    else
      '(set, bs) ← normalize_scalar array bs;
      if is_column set then None
      else Some (InSet (mkOp opno opfuncid BOOLOID InvalidOid inputcollid) value set, bs).

(** [makeBoolConst(true, false)]. *)
Definition true_const : Expr := EConst (mkType BOOLOID (-1) InvalidOid) (Some (PgBool true)).

(** The signature is registered, so the [expect] holds. *)
Definition normalize_boolean_column (e : Expr) : N PgPredicate := λ bs,
  '(l, bs) ← normalize_scalar e bs;
  '(r, bs) ← normalize_scalar true_const bs;
  s ← for_types BOOLOID BOOLOID Equal;
  Some (Comparison (mkOp (operator_oid s) (function_oid s) BOOLOID InvalidOid InvalidOid) l r, bs).

Definition normalize_starts_with (value prefix : Expr) (input_collation : Oid) : N PgPredicate := λ bs,
  _ ← for_equality_collation input_collation;
  '(value, bs) ← normalize_scalar value bs;
  if negb (is_column value) then None
  else
    '(prefix, bs) ← normalize_scalar prefix bs;
    if is_column prefix then None else Some (StartsWith value prefix, bs).

Definition normalize_like_prefix (op : PgComparisonOp) (value pattern : Expr) : N PgPredicate := λ bs,
  if negb (opfuncid op =? F_TEXTLIKE) || negb (opresulttype op =? BOOLOID) || negb (opcollid op =? InvalidOid) then None
  else
    match without_relabels pattern with
    | EConst t d => prefix ← pure_like_prefix t d; normalize_starts_with value prefix (inputcollid op) bs
    | _ => None
    end.

Definition is_float_oid (oid : Oid) : bool := (oid =? FLOAT4OID) || (oid =? FLOAT8OID).

Definition is_nan_const (e : Expr) : bool :=
  match without_relabels e with EConst t d => is_float_nan t d | _ => false end.

(** A failure leaves the bindings as they were at the checkpoint, so the caller
    goes on with those it passed. *)
Definition normalize_nan_comparison (op : PgComparisonOp) (left right : Expr) : N PgPredicate := λ bs,
  s ← builtin_signature op;
  if negb (is_float_oid (left_type s) && is_float_oid (right_type s)) then None
  else
    '(operand, nan_on_left) ← match is_nan_const left, is_nan_const right with
      | true, false => Some (right, true)
      | false, true => Some (left, false)
      | _, _ => None
      end;
    '(column, bs) ← normalize_scalar operand bs;
    if negb (is_column column) then None
    else
      Some (match with_nan_on (signature_kind s) nan_on_left with
            | NanIsNan => IsNan column
            | NanIsNotNan => IsNotNan column
            | NanStrictTrue => StrictTrue column
            | NanStrictFalse => StrictFalse column
            end, bs).

Definition normalize_comparison (op : PgComparisonOp) (left right : Expr) : N PgPredicate := λ bs,
  if opno op =? OID_TEXT_LIKE_OP then normalize_like_prefix op left right bs
  else
    match normalize_nan_comparison op left right bs with
    | Some r => Some r
    | None =>
        '(l, bs) ← normalize_scalar left bs;
        '(r, bs) ← normalize_scalar right bs;
        Some (Comparison op l r, specialize_decimal_constant r l (specialize_decimal_constant l r bs))
    end.

(** The part of [normalize_node] below the Boolean connectives. *)
Definition normalize_leaf (e : Expr) : N PgPredicate := λ bs,
  match e with
  | EScalarArrayOp opno opfuncid inputcollid use_or scalar array =>
      normalize_in_set opno opfuncid inputcollid use_or scalar array bs
  | _ =>
      if match e with EVar _ => type_oid (expr_type e) =? BOOLOID | _ => false end
      then normalize_boolean_column e bs
      else
        match parse_leaf e with
        | Err _ => None
        | Ok (LeafBooleanTest kind value) => '(v, bs) ← normalize_scalar value bs; Some (BooleanTest kind v, bs)
        | Ok (LeafComparison op l r) => normalize_comparison op l r bs
        | Ok (LeafNullTest kind value) =>
            '(v, bs) ← normalize_scalar value bs;
            Some (match kind with NullTestIsNull => IsNull v | NullTestIsNotNull => IsNotNull v end, bs)
        | Ok (LeafStartsWith value prefix c) => normalize_starts_with value prefix c bs
        end
  end.

Fixpoint normalize_node (e : Expr) : N PgPredicate :=
  let normalize_children := fix loop (args : list Expr) : N (list PgPredicate) := λ bs,
    match args with
    | [] => Some ([], bs)
    | arg :: rest =>
        '(child, bs) ← normalize_node arg bs;
        '(children, bs) ← loop rest bs;
        Some (child :: children, bs)
    end in
  match e with
  | ERelabel arg _ => normalize_node arg
  | EBool boolop args => λ bs,
      match args with
      | [] => None
      | _ =>
          '(children, bs) ← normalize_children args bs;
          match boolop, children with
          | AND_EXPR, _ => Some (And children, bs)
          | OR_EXPR, _ => Some (Or children, bs)
          | NOT_EXPR, [child] => Some (Not child, bs)
          | NOT_EXPR, _ => None
          end
      end
  | leaf => normalize_leaf leaf
  end.

Definition normalize_predicate (e : Expr) : option NormalizedPredicate :=
  '(root, bs) ← normalize_node e [];
  Some (mkNormalized (mkFragment root (binding_metadata <$> bs)) bs e).

(** [normalize_qual] of an implicit conjunction. *)
Definition normalize_list (es : list Expr) : option NormalizedPredicate :=
  items ← mapM normalize_predicate es;
  combine items true.
End scoped.
End normalize.
