(* ===== verification/NormalizeMeaning.v ===== *)
(** * Meaning of normalized expressions

    What PostgreSQL documents of the evaluation of an expression is the class
    [PgExecutor]; the theorems here say that the predicate tree which the
    normalizer of Normalize.v makes of an expression has the truth value of the
    expression on every row, with the slots filled by evaluating the expressions
    they are bound to, and that its leaves are typed as the provider relies on. *)

From stdpp Require Import base list strings.
From Stdlib Require Import ZArith Lia.
From S2P Require Import Prelude.
From S2P Require Import Bytes.
From S2P Require Import DecimalNumeric.
From S2P Require Import PredicateTree.
From S2P Require Import Expressions.
From S2P Require Import PredicatePolicy.
From S2P Require Import ArrowCodec.
From S2P Require Import PredicateMeaning.
From S2P Require Import Normalize.
Local Open Scope Z_scope.

(** ** LIKE *)

(** A pattern whose last byte is an escape raises an error. *)
Fixpoint escapes_closed (pattern : list byte) : bool :=
  match pattern with
  | [] => true
  | Byte.x5c :: rest => match rest with [] => false | _ :: rest' => escapes_closed rest' end
  | _ :: rest => escapes_closed rest
  end.

(** [LIKE]: a backslash makes the next byte literal, a percent sign matches any
    string, an underscore one character of the server encoding, which is [width]
    bytes long; any other byte matches itself. *)
Fixpoint like_text (width : list byte → nat) (pattern s : list byte) : bool :=
  let any := fix any (p : list byte → bool) (s : list byte) : bool :=
    p s || match s with [] => false | _ :: s' => any p s' end in
  match pattern with
  | [] => match s with [] => true | _ => false end
  | Byte.x25 :: rest => any (like_text width rest) s
  | Byte.x5f :: rest => match s with [] => false | _ => like_text width rest (drop (width s) s) end
  | Byte.x5c :: rest =>
      match rest, s with
      | b :: rest', c :: s' => bool_decide (b = c) && like_text width rest' s'
      | _, _ => false
      end
  | b :: rest => match s with [] => false | c :: s' => bool_decide (b = c) && like_text width rest s' end
  end.

(** ** Evaluation *)

(** The row of each range-table entry, and the parameters. *)
Record EvalContext {D : Type} := mkContext {
  ctx_row : Z → Z → option D;
  ctx_param : ParamKind → Z → option D;
}.
Arguments EvalContext : clear implicits.
Arguments mkContext {D}.

(** [exec] evaluates an expression that raises no error. *)
Class PgExecutor {B : PgBackend} := {
  exec : EvalContext PgDatum → PgExpr PgDatum → option PgDatum;
  server_utf8 : bool;
  char_width : list byte → nat;
}.
Arguments PgExecutor : clear implicits.

(** The truth value of the result of a Boolean expression. *)
Definition truth_of `{PgBackend} (v : option PgDatum) : tri := truth pg_scalars <$> v.

Definition text_of `{PgBackend} (v : option PgDatum) : option (list byte) :=
  match v with Some (PgText s) => Some s | _ => None end.

(** What PostgreSQL documents: variables, constants and parameters have their
    values, a relabelling cast keeps the value, the connectives are those of
    three-valued logic, the null and Boolean tests never yield NULL, the
    registered operators are strict and their [pg_proc] function is the one
    [pg_operator] names, [= ANY] is the disjunction over the array's elements, the
    widening casts between integers keep the number, and the text functions
    compare bytes under a deterministic collation. *)
Class PgExecutorLaws {B : PgBackend} (X : PgExecutor B) : Prop := {
  exec_var : ∀ c v, exec c (EVar v) = ctx_row c (varno v) (varattno v);
  exec_const : ∀ c t d, exec c (EConst t d) = d;
  exec_param : ∀ c k id t, exec c (EParam k id t) = ctx_param c k id;
  exec_relabel : ∀ c e t, exec c (ERelabel e t) = exec c e;
  exec_and : ∀ c args, args ≠ [] → truth_of (exec c (EBool AND_EXPR args)) = kall (truth_of ∘ exec c <$> args);
  exec_or : ∀ c args, args ≠ [] → truth_of (exec c (EBool OR_EXPR args)) = kany (truth_of ∘ exec c <$> args);
  exec_not : ∀ c e, truth_of (exec c (EBool NOT_EXPR [e])) = knot (truth_of (exec c e));
  exec_is_null : ∀ c e, exec c (ENullTest NullTestIsNull false e) = Some (PgBool (bool_decide (exec c e = None)));
  exec_is_not_null : ∀ c e,
    exec c (ENullTest NullTestIsNotNull false e) = Some (PgBool (negb (bool_decide (exec c e = None))));
  exec_boolean_test : ∀ c k e, exec c (EBooleanTest k e) = Some (PgBool (boolean_test k (truth_of (exec c e))));
  exec_operator : ∀ c op s l r, for_operator (opno op) = Some s → opfuncid op = oprcode (opno op) →
    truth_of (exec c (EOp op [l; r])) = strict2 (pg_operator (opno op) (inputcollid op)) (exec c l) (exec c r);
  exec_any : ∀ c opno opfuncid coll s e a, for_operator opno = Some s → opfuncid = oprcode opno →
    truth_of (exec c (EScalarArrayOp opno opfuncid coll true e a)) =
      array ← exec c a; kany (strict2 (pg_operator opno coll) (exec c e) <$> elements pg_scalars array);
  exec_widening : ∀ c f arg w t, widening_for_function (funcid f) t (funcresulttype f) = Some w →
    exec c (EFunc f [arg]) = (λ v, coerce v (funcresulttype f)) <$> exec c arg;
  exec_prefix_operator : ∀ c op l r, opno op = TextPrefixOperator → opfuncid op = F_STARTS_WITH →
    get_collation_isdeterministic (inputcollid op) = true →
    truth_of (exec c (EOp op [l; r])) = strict2 (starts_with pg_scalars) (exec c l) (exec c r);
  exec_starts_with : ∀ c f l r, funcid f = F_STARTS_WITH → get_collation_isdeterministic (funcinputcollid f) = true →
    truth_of (exec c (EFunc f [l; r])) = strict2 (starts_with pg_scalars) (exec c l) (exec c r);
  exec_like : ∀ c op l r pattern, opno op = OID_TEXT_LIKE_OP → opfuncid op = F_TEXTLIKE →
    get_collation_isdeterministic (inputcollid op) = true → server_utf8 = true →
    exec c r = Some (PgText pattern) → escapes_closed pattern = true →
    (∀ d, exec c l = Some d → ∃ s, d = PgText s) →
    truth_of (exec c (EOp op [l; r])) = like_text char_width pattern <$> text_of (exec c l);
}.

(** A pure prefix pattern matches the strings with the prefix. *)
Lemma like_prefix_app pattern acc : like_prefix pattern acc = (λ '(p, w), (acc ++ p, w)) <$> like_prefix pattern [].
Proof.
  assert (∀ n pattern acc, (length pattern ≤ n)%nat →
    like_prefix pattern acc = (λ '(p, w), (acc ++ p, w)) <$> like_prefix pattern []) as H; [|by eapply H].
  clear pattern acc. induction n as [|n IH]; intros [|b pattern] acc Hn; simpl in Hn; try lia; [by csimpl; rewrite app_nil_r..|].
  assert (∀ b, like_prefix pattern (acc ++ [b]) = (λ '(p, w), (acc ++ p, w)) <$> like_prefix pattern ([] ++ [b])) as Hlit.
  { intros c. rewrite (IH pattern (acc ++ [c])), (IH pattern ([] ++ [c])) by lia.
    destruct (like_prefix pattern []) as [[p w]|]; csimpl; [|done]. by rewrite <- app_assoc. }
  destruct b; try exact (Hlit _).
  - destruct pattern; csimpl; [by rewrite app_nil_r|done].
  - destruct pattern as [|c pattern]; [done|]. simpl. simpl in Hn.
    rewrite (IH pattern (acc ++ [c])), (IH pattern [c]) by lia.
    destruct (like_prefix pattern []) as [[p w]|]; csimpl; [|done]. by rewrite <- app_assoc.
  - done.
Qed.

Lemma like_prefix_step pattern b prefix : like_prefix pattern ([] ++ [b]) = Some (prefix, true) →
  ∃ prefix', like_prefix pattern [] = Some (prefix', true) ∧ prefix = b :: prefix'.
Proof.
  rewrite like_prefix_app. destruct (like_prefix pattern []) as [[p w]|]; [|done]. csimpl.
  intros [= <- ->]. by exists p.
Qed.

Lemma is_prefix_cons b p s : is_prefix (b :: p) s = match s with [] => false | c :: s' => bool_decide (b = c) && is_prefix p s' end.
Proof.
  unfold is_prefix. destruct s as [|c s]; simpl; [done|].
  destruct (decide (b = c)) as [->|Hne].
  - rewrite (bool_decide_eq_true_2 (c = c)) by done. simpl. apply bool_decide_ext. split; [by intros [= ?]|by intros ->].
  - rewrite (bool_decide_eq_false_2 (b = c)) by done. apply bool_decide_eq_false_2. by intros [= ??].
Qed.

Lemma like_prefix_matches width pattern prefix : like_prefix pattern [] = Some (prefix, true) →
  escapes_closed pattern = true ∧ ∀ s, like_text width pattern s = is_prefix prefix s.
Proof.
  assert (∀ n pattern prefix, (length pattern ≤ n)%nat → like_prefix pattern [] = Some (prefix, true) →
    escapes_closed pattern = true ∧ ∀ s, like_text width pattern s = is_prefix prefix s) as H; [|by eapply H].
  clear pattern prefix. induction n as [|n IH]; intros [|b pattern] prefix Hn Hp; simpl in Hn; try lia; try done.
  assert (like_prefix pattern ([] ++ [b]) = Some (prefix, true) → escapes_closed pattern = true ∧
    ∀ s, match s with [] => false | c :: s' => bool_decide (b = c) && like_text width pattern s' end = is_prefix prefix s) as Hlit.
  { intros (p' & Hp' & ->)%like_prefix_step. destruct (IH pattern p' ltac:(lia) Hp') as [He Hs].
    split; [done|]. intros [|c s]; rewrite is_prefix_cons; [done|]. by rewrite Hs. }
  destruct b; try exact (Hlit Hp); clear Hlit.
  - destruct pattern; [|done]. injection Hp as <-. split; [done|]. intros s.
    change (is_prefix [] s) with true. induction s as [|c s IHs]; [done|]. exact IHs.
  - destruct pattern as [|c pattern]; [done|]. simpl in Hn. apply (like_prefix_step pattern c) in Hp as (p' & Hp' & ->).
    destruct (IH pattern p' ltac:(lia) Hp') as [He Hs]. split; [done|].
    intros [|d s]; rewrite is_prefix_cons; [done|]. simpl. by rewrite Hs.
  - done.
Qed.

(** A scope whose columns are those of one relation. *)
Definition scope_of (relid : Z) (scope : ExpressionScope) : Prop :=
  match scope with
  | RelationScope scan_relid => scan_relid = relid
  | QueryScope sources => ∀ varno scan, query_resolve_var sources varno = Some scan → varno = relid
  end.

(** ** Well-formed expressions *)
Section sound.
Context {B : PgBackend} {HL : PgBackendLaws B} {NB : PgNodes PgDatum} {NL : PgNodesLaws NB}
  {X : PgExecutor B} {XL : PgExecutorLaws X}.
Context (pl : IcebergFilterPlanner) (relid : Z) (ctx : EvalContext PgDatum) (Hutf8 : planner_utf8 pl = server_utf8).
Local Notation Expr := (PgExpr PgDatum).

(** The variable of a scalar, with or without a widening cast around it. *)
Definition var_of (e : Expr) : option PgVar :=
  match parse_scalar e with Ok (RefVar v | RefWidenedIntegerVar v) => Some v | _ => None end.

(** What the parser and the planner guarantee of an operand: its value has its
    type, its column is an attribute of the relation, and a relabelling cast of an
    integer column to an integer type, or of a widening cast, keeps the type. *)
Record scalar_ok (e : Expr) : Prop := {
  ok_value : ∀ d, exec ctx e = Some d → has_type (expr_type e) d;
  ok_column : ∀ v, var_of e = Some v → varno v = relid →
    attr_types (planner_layout pl) !! Z.to_nat (varattno v - 1) = Some (type_oid (var_type v), typmod (var_type v));
  ok_relabel : ∀ v, var_of e = Some v → let inner := type_oid (expr_type (without_relabels e)) in
    (without_relabels e ≠ EVar v ∨ is_integer_oid inner = true ∧ is_integer_oid (type_oid (expr_type e)) = true) →
    inner = type_oid (expr_type e);
}.

(** The elements of an array have the element type. *)
Definition array_ok (e : Expr) : Prop :=
  ∀ source element d y, array_element (mkSpec (expr_type e) source) = Some element → exec ctx e = Some d →
    Some y ∈ elements pg_scalars d → has_type (spec_type element) y.

Definition leaf_ok (e : Expr) : Prop :=
  match e with
  | EVar _ => scalar_ok e
  | EOp op [l; r] => scalar_ok l ∧ scalar_ok r ∧ opfuncid op = oprcode (opno op) ∧
      (opno op = OID_TEXT_LIKE_OP → type_oid (expr_type l) = TEXTOID) ∧
      operator_typed op (Some (type_oid (expr_type l))) (Some (type_oid (expr_type r)))
  | EScalarArrayOp opno opfuncid coll _ value array => scalar_ok value ∧ scalar_ok array ∧ array_ok array ∧ opfuncid = oprcode opno ∧
      ∀ source, operator_typed (mkOp opno opfuncid BOOLOID InvalidOid coll) (Some (type_oid (expr_type value)))
        ((λ element, type_oid (spec_type element)) <$> array_element (mkSpec (expr_type array) source))
  | ENullTest _ false arg => scalar_ok arg
  | EBooleanTest _ arg => scalar_ok arg ∧ ∀ v, var_of arg = Some v → type_oid (var_type v) = BOOLOID
  | EFunc _ [l; r] => scalar_ok l ∧ scalar_ok r
  | _ => True
  end.

Fixpoint expr_ok (e : Expr) : Prop :=
  let all := fix all (es : list Expr) : Prop := match es with [] => True | e :: es' => expr_ok e ∧ all es' end in
  match e with
  | ERelabel arg _ => expr_ok arg
  | EBool _ args => args ≠ [] ∧ all args
  | leaf => leaf_ok leaf
  end.

Lemma expr_ok_bool o args : expr_ok (EBool o args) ↔ args ≠ [] ∧ Forall expr_ok args.
Proof.
  simpl. apply and_iff_compat_l. induction args as [|e args IH]; [by split|]. by rewrite IH, Forall_cons.
Qed.

(** The operators that PostgreSQL's catalog vouches for. *)
Definition known_leaf (p : PgPredicate) : Prop :=
  match p with
  | Comparison op _ _ | InSet op _ _ => for_operator (opno op) ≠ None
  | StartsWith _ _ => planner_utf8 pl = true
  | _ => True
  end.

(** ** What the normalizer's output denotes

    The environment of a scan: the row of the relation, and the slots filled by
    evaluating the expressions bound to them. *)
Definition env_of (bs : list RuntimeValueExpr) : Environment :=
  mkEnv (ctx_row ctx relid) (exec ctx ∘ binding_expr <$> bs).

Definition fragment_of (p : PgPredicate) (bs : list RuntimeValueExpr) : PredicateFragment :=
  mkFragment p (binding_metadata <$> bs).

(** A slot holds an expression of the slot's type. *)
Definition slot_ok (b : RuntimeValueExpr) : Prop :=
  type_oid (spec_type (binding_metadata b)) = type_oid (expr_type (binding_expr b)) ∧
  ∀ d, exec ctx (binding_expr b) = Some d → has_type (spec_type (binding_metadata b)) d.

(** A scalar stands for an expression. *)
Inductive scalar_denotes (bs : list RuntimeValueExpr) : ScalarExpr → Expr → Prop :=
| denotes_column c e v : var_of e = Some v → declared_type c = var_type v → value_type c = expr_type e →
    scalar_value (env_of []) (Column c) = exec ctx e → column_typed pl c → scalar_denotes bs (Column c) e
| denotes_slot id b : bs !! id = Some b → slot_ok b → scalar_denotes bs (Value id) (binding_expr b).

(** A tree stands for an expression, whatever slots are added. *)
Definition denotes (bs : list RuntimeValueExpr) (p : PgPredicate) (e : Expr) : Prop :=
  ∀ more, Forall (leaf_typed pl (fragment_of p (bs ++ more)) (slots (env_of (bs ++ more)))) (leaves p) ∧
    (Forall known_leaf (leaves p) → eval pg_scalars (env_of (bs ++ more)) p = truth_of (exec ctx e)).
Lemma exec_without_relabels e : exec ctx (without_relabels e) = exec ctx e.
Proof. induction e; try done. simpl. by rewrite exec_relabel. Qed.

Lemma scalar_denotes_app bs more s e : scalar_denotes bs s e → scalar_denotes (bs ++ more) s e.
Proof.
  destruct 1 as [c e v|id b Hb]; [by eapply denotes_column|]. apply denotes_slot; [|done].
  by apply lookup_app_l_Some.
Qed.

Lemma layout_lookup p (bs : list RuntimeValueExpr) (id : RuntimeValueId) b : bs !! id = Some b →
  runtime_values (fragment_of p bs) !! id = Some (binding_metadata b).
Proof. intros Hb. etransitivity; [apply list_lookup_fmap|]. exact (f_equal (fmap binding_metadata) Hb). Qed.

Lemma slot_lookup (bs : list RuntimeValueExpr) (id : RuntimeValueId) b : bs !! id = Some b →
  slots (env_of bs) !! id = Some (exec ctx (binding_expr b)).
Proof. intros Hb. etransitivity; [apply list_lookup_fmap|]. exact (f_equal (fmap (exec ctx ∘ binding_expr)) Hb). Qed.

Lemma scalar_denotes_value bs s e : scalar_denotes bs s e → scalar_value (env_of bs) s = exec ctx e.
Proof. destruct 1 as [c e v|id b Hb]; [done|]. unfold scalar_value. by rewrite (slot_lookup _ _ _ Hb). Qed.

Lemma scalar_denotes_oid bs s e p : scalar_denotes bs s e →
  operand_oid (fragment_of p bs) s = Some (type_oid (expr_type e)).
Proof.
  destruct 1 as [c e v _ _ Hc|id b Hb [Ho _]]; unfold operand_oid; [by rewrite Hc|].
  rewrite (layout_lookup p bs id b Hb). simpl. by rewrite Ho.
Qed.

Lemma scalar_denotes_typed bs s e p : scalar_denotes bs s e →
  scalar_typed pl (fragment_of p bs) (slots (env_of bs)) s.
Proof.
  destruct 1 as [c e v|id b Hb [_ Ht]]; [done|]. intros spec d. 
  rewrite (slot_lookup _ _ _ Hb), (layout_lookup p bs id b Hb). intros [= <-] [= Hd]. by apply Ht.
Qed.

(** A cast that widens an integer, or that relabels a value, under the type that
    the whole scalar has. *)
Lemma coerce_id t (d : PgDatum) : has_type t d → coerce d (type_oid t) = d.
Proof.
  unfold has_type. destruct d; simpl; try done; intros Ht.
  - destruct (Z.eqb_spec (type_oid t) INT4OID) as [Ho|]; [rewrite Ho in Ht; by destruct (Ht eq_refl)|].
    destruct (Z.eqb_spec (type_oid t) INT8OID) as [Ho|]; [rewrite Ho in Ht; by destruct (Ht eq_refl)|done].
  - destruct (Z.eqb_spec (type_oid t) INT8OID) as [Ho|]; [rewrite Ho in Ht; by destruct (Ht eq_refl)|done].
Qed.

Lemma widened_integer_var_Some f (args : list Expr) v : widened_integer_var f args = Some v → ∃ arg w, args = [arg] ∧
  without_relabels arg = EVar v ∧ widening_for_function (funcid f) (type_oid (var_type v)) (funcresulttype f) = Some w.
Proof.
  unfold widened_integer_var. destruct (_ || _); [done|]. destruct args as [|arg [|]]; try done.
  destruct (without_relabels arg) eqn:Harg; try done. destruct (widening_for_function _ _ _) as [w|] eqn:Hw; [|done].
  csimpl. intros [= ->]. by exists arg, w.
Qed.

Lemma var_of_cases e v : var_of e = Some v →
  without_relabels e = EVar v ∨
  ∃ f arg w, without_relabels e = EFunc f [arg] ∧ without_relabels arg = EVar v ∧
    widening_for_function (funcid f) (type_oid (var_type v)) (funcresulttype f) = Some w.
Proof.
  unfold var_of, parse_scalar. destruct (without_relabels e) as [| | | | | | | | |f args|] eqn:He; try done.
  - intros [= ->]. by left.
  - destruct (widened_integer_var f args) as [v'|] eqn:Hv; [|done]. simpl. intros [= ->].
    destruct (widened_integer_var_Some _ _ _ Hv) as (arg & w & -> & Harg & Hw). right. by exists f, arg, w.
Qed.

Lemma widening_for_function_types f s t w : widening_for_function f s t = Some w → widening_for_types s t ≠ None.
Proof.
  unfold widening_for_function, widening_for_types.
  destruct (s =? INT2OID) eqn:H1, (s =? INT4OID) eqn:H2, (t =? INT4OID) eqn:H3, (t =? INT8OID) eqn:H4;
    rewrite ?andb_true_r, ?andb_false_r; repeat case_match; try done; lia.
Qed.

Lemma var_of_value e v : scalar_ok e → var_of e = Some v →
  (λ d, coerce d (type_oid (expr_type e))) <$> ctx_row ctx (varno v) (varattno v) = exec ctx e.
Proof.
  intros [Hty _ Hr] Hv. specialize (Hr v Hv). cbn zeta in Hr. rewrite <- exec_without_relabels in *.
  destruct (var_of_cases e v Hv) as [He|(f & arg & w & He & Harg & Hw)]; rewrite He in *.
  - rewrite exec_var in *. destruct (ctx_row _ _ _) as [d|]; [|done]. csimpl. by rewrite coerce_id by auto.
  - rewrite (exec_widening _ _ _ _ _ Hw), <- (exec_without_relabels arg), Harg, exec_var.
    rewrite expr_type_func in Hr. by rewrite Hr by (by left).
Qed.

Lemma var_of_integer e v : scalar_ok e → var_of e = Some v →
  let declared := type_oid (var_type v) in let effective := type_oid (expr_type e) in
  is_integer_oid declared = true → is_integer_oid effective = true →
  declared = effective ∨ widening_for_types declared effective ≠ None.
Proof.
  intros [_ _ Hr] Hv. specialize (Hr v Hv). simpl in *.
  destruct (var_of_cases e v Hv) as [He|(f & arg & w & He & Harg & Hw)]; rewrite He in Hr.
  - rewrite expr_type_var in Hr. auto.
  - rewrite expr_type_func in Hr. intros _ _. right. rewrite <- Hr by (by left). by eapply widening_for_function_types.
Qed.

(** ** Scalars *)

(** A scalar extends the slots at most by one that holds the whole expression. *)
Definition scalar_result (e : Expr) (bs : list RuntimeValueExpr) (s : ScalarExpr) (bs' : list RuntimeValueExpr) : Prop :=
  scalar_denotes bs' s e ∧
  ((is_column s = true ∧ bs' = bs) ∨
   ∃ b, bs' = bs ++ [b] ∧ s = Value (length bs) ∧ binding_expr b = e ∧ spec_type (binding_metadata b) = expr_type e).

Lemma push_binding_result e source bs s bs' : (∀ d, exec ctx e = Some d → has_type (expr_type e) d) →
  push_binding e (mkSpec (expr_type e) source) bs = Some (s, bs') → scalar_result e bs s bs'.
Proof.
  intros Hty [= <- <-]. set (b := mkBinding _ _). split; [|right; by exists b].
  apply (denotes_slot _ _ b); [by apply list_lookup_middle|]. by split.
Qed.

Lemma column_of_denotes e bs v scan : scalar_ok e → var_of e = Some v → varno v = relid →
  scalar_denotes bs (column_of scan v e) e.
Proof.
  intros Hok Hv Hr. eapply (denotes_column _ _ _ v); [done..| |].
  - unfold column_of. simpl. rewrite <- Hr. by apply var_of_value.
  - split; [exact (ok_column e Hok v Hv Hr)|exact (var_of_integer e v Hok Hv)].
Qed.

Context (scope : ExpressionScope) (Hscope : scope_of relid scope).

Lemma normalize_scalar_result e bs s bs' : scalar_ok e → normalize_scalar scope e bs = Some (s, bs') → scalar_result e bs s bs'.
Proof.
  intros Hok. unfold normalize_scalar. pose proof (λ source, push_binding_result e source bs s bs' (ok_value e Hok)) as Hpush.
  assert (∀ v scan, var_of e = Some v → varno v = relid → Some (column_of scan v e, bs) = Some (s, bs') → scalar_result e bs s bs') as Hcol.
  { intros v scan Hv Hr [= <- <-]. split; [by apply column_of_denotes|by left]. }
  unfold var_of in Hcol. destruct (parse_scalar e) as [[v|t d|k id t|v]|]; [|by apply Hpush| | |done].
  1, 3: destruct (0 <? _); [|done]; destruct scope as [r|sources]; simpl in Hscope;
    [unfold relation_resolve_var; destruct (Z.eqb_spec (varno v) r); [|by apply Hpush]; apply Hcol; congruence
    |destruct (query_resolve_var sources (varno v)) eqn:Hq; [|done]; csimpl; apply Hcol; [done|by eapply Hscope]].
  match goal with |- context [mbind _ ?x] => destruct x; [|done] end. apply Hpush.
Qed.

Lemma normalize_scalar_extends e bs s bs' : scalar_ok e → normalize_scalar scope e bs = Some (s, bs') →
  scalar_denotes bs' s e ∧ ∃ ext, bs' = bs ++ ext.
Proof.
  intros Hok Hs. destruct (normalize_scalar_result _ _ _ _ Hok Hs) as [Hd [[_ ->]|(b & -> & _)]]; split; eauto.
  exists []. by rewrite app_nil_r.
Qed.

(** ** Decimal constants *)
Lemma semantics_value_type_roundtrip t s : semantics_for_type t = Some s →
  semantics_for_type (semantics_value_type s) = Some s.
Proof.
  intros Hs. destruct (semantics_shape t s Hs) as (Hc & Hp & Hsc & Ht & Hn).
  destruct (codec_new_Ok _ _ _ Hc Hp) as (_ & Hp' & Hsc').
  unfold semantics_for_type, semantics_value_type, codec_typmod, semantics_codec. simpl.
  rewrite typmod_roundtrip by lia. csimpl. change u8_max with 255.
  assert ((0 <=? sem_precision s) && (sem_precision s <=? 255) && (- 2 ^ 7 <=? sem_scale s) && (sem_scale s <? 2 ^ 7) = true)
    as -> by lia. done.
Qed.

Lemma specialize_cases col val bs : specialize_decimal_constant col val bs = bs ∨
  ∃ c id b s t d, col = Column c ∧ val = Value id ∧ bs !! id = Some b ∧
    type_oid (spec_type (binding_metadata b)) = NUMERICOID ∧ semantics_for_type (declared_type c) = Some s ∧
    parse_scalar (binding_expr b) = Ok (RefConst t d) ∧ comparable_constant s t d = true ∧
    specialize_decimal_constant col val bs
    = <[id := mkBinding (binding_expr b) (mkSpec (semantics_value_type s) (source_kind (binding_metadata b)))]> bs.
Proof.
  unfold specialize_decimal_constant. destruct col as [c|], val as [|id]; try by left.
  destruct (bs !! id) as [b|] eqn:Hb; [|by left].
  destruct (_ || negb (collation (spec_type (binding_metadata b)) =? InvalidOid)) eqn:Hg; [by left|].
  destruct (semantics_for_type (declared_type c)) as [s|] eqn:Hs; [|by left].
  destruct (negb (bool_decide (semantics_for_type (value_type c) = _))); [by left|]. destruct (parse_scalar _) as [[|t d| |]|] eqn:Hp; try by left.
  destruct (comparable_constant s t d) eqn:Hc; [|by left]. right. exists c, id, b, s, t, d.
  apply orb_false_iff in Hg as [[[_ Ho]%orb_false_iff _]%orb_false_iff _]. split_and!; try done. lia.
Qed.

Lemma parse_const e t d : parse_scalar e = Ok (RefConst t d) → exec ctx e = d.
Proof.
  unfold parse_scalar. rewrite <- exec_without_relabels. destruct (without_relabels e) as [| | | | | | | | |f args|]; try done.
  - intros [= -> ->]. apply exec_const.
  - by destruct (widened_integer_var f args).
Qed.

Lemma specialize_slot col val bs (id : RuntimeValueId) b : bs !! id = Some b → slot_ok b →
  ∃ b', specialize_decimal_constant col val bs !! id = Some b' ∧ slot_ok b' ∧ binding_expr b' = binding_expr b.
Proof.
  intros Hb Hok. destruct (specialize_cases col val bs) as [->|(c & id' & b' & s & t & d & _ & _ & Hb' & Ho & Hs & Hp & Hc & ->)]; [eauto|].
  destruct (decide (id = id')) as [<-|Hne].
  - rewrite Hb in Hb'. injection Hb' as <-.
    exists (mkBinding (binding_expr b) (mkSpec (semantics_value_type s) (source_kind (binding_metadata b)))).
    split; [|split; [|reflexivity]].
    { apply list_lookup_insert_eq. by eapply lookup_lt_Some. }
    destruct Hok as [Ht Hd]. split; simpl; [by rewrite <- Ht|]. intros d' Hd'. specialize (Hd d' Hd').
    rewrite (parse_const _ _ _ Hp) in Hd'. subst d. unfold comparable_constant in Hc.
    apply andb_true_iff in Hc as [_ Hc]. destruct d' as [| | | | | | | | | |n| | | |]; try done. unfold has_type in Hd. rewrite Ho in Hd.
    destruct (Hd eq_refl) as (_ & Hn & _). intros _. split_and!; [done|done|]. intros s'. rewrite (semantics_value_type_roundtrip _ _ Hs). intros [= <-].
    destruct (encode_comparison_datum _ _ _) as [v|]; [by exists v|done].
  - exists b. split; [|done]. by rewrite list_lookup_insert_ne by congruence.
Qed.

Lemma specialize_denotes col val bs s e : scalar_denotes bs s e →
  scalar_denotes (specialize_decimal_constant col val bs) s e.
Proof.
  destruct 1 as [c e v|id b Hb Hok]; [by eapply denotes_column|].
  destruct (specialize_slot col val bs id b Hb Hok) as (b' & Hb' & Hok' & <-). by apply denotes_slot.
Qed.

(** Only a slot of the comparison itself is specialized. *)
Lemma specialize_extends col val bs ext : (∀ id, val = Value id → (length bs ≤ id)%nat) →
  ∃ ext', specialize_decimal_constant col val (bs ++ ext) = bs ++ ext'.
Proof.
  intros Hid. destruct (specialize_cases col val (bs ++ ext)) as [->|(c & id & b & s & t & d & _ & -> & _ & _ & _ & _ & _ & ->)]; [eauto|].
  rewrite insert_app_r_alt by auto. eauto.
Qed.

Lemma scalar_result_fresh e bs s bs' : scalar_result e bs s bs' → ∀ id, s = Value id → (length bs ≤ id)%nat.
Proof. intros [_ [[Hc _]|(b & _ & -> & _)]] id Hid; [by rewrite Hid in Hc|]. injection Hid as <-. lia. Qed.

(** ** Leaves *)

(** A leaf with the value of its operands, whatever slots are added. *)
Lemma comparison_denotes bs op l r el er e : scalar_denotes bs l el → scalar_denotes bs r er →
  operator_typed op (Some (type_oid (expr_type el))) (Some (type_oid (expr_type er))) →
  (for_operator (opno op) ≠ None → strict2 (pg_operator (opno op) (inputcollid op)) (exec ctx el) (exec ctx er) = truth_of (exec ctx e)) →
  denotes bs (Comparison op l r) e.
Proof.
  intros Hl Hr Hop Hv more. apply (scalar_denotes_app _ more) in Hl, Hr. split.
  - apply Forall_cons_2; [|constructor]. split_and!; [by eapply scalar_denotes_typed..|].
    by rewrite (scalar_denotes_oid _ _ _ _ Hl), (scalar_denotes_oid _ _ _ _ Hr).
  - intros [Hk _]%Forall_cons. simpl. rewrite (scalar_denotes_value _ _ _ Hl), (scalar_denotes_value _ _ _ Hr). exact (Hv Hk).
Qed.

Lemma starts_with_denotes bs v p ev ep e : scalar_denotes bs v ev → scalar_denotes bs p ep →
  (planner_utf8 pl = true → strict2 (starts_with pg_scalars) (exec ctx ev) (exec ctx ep) = truth_of (exec ctx e)) →
  denotes bs (StartsWith v p) e.
Proof.
  intros Hl Hr Hv more. apply (scalar_denotes_app _ more) in Hl, Hr. split.
  - apply Forall_cons_2; [|constructor]. split_and!; by eapply scalar_denotes_typed.
  - intros [Hk _]%Forall_cons. simpl. rewrite (scalar_denotes_value _ _ _ Hl), (scalar_denotes_value _ _ _ Hr). exact (Hv Hk).
Qed.

(** The leaves with one operand: the test of its value. *)
Lemma unary_denotes bs v ev p e (test : option PgDatum → tri) : scalar_denotes bs v ev → is_leaf p →
  (∀ f values, scalar_typed pl f values v → leaf_typed pl f values p) →
  (∀ env, eval pg_scalars env p = test (scalar_value env v)) → test (exec ctx ev) = truth_of (exec ctx e) →
  denotes bs p e.
Proof.
  intros Hv Hleaf Hty Hev Htest more. apply (scalar_denotes_app _ more) in Hv.
  assert (leaves p = [p]) as -> by (by destruct p). split.
  - apply Forall_cons_2; [|constructor]. eapply Hty, scalar_denotes_typed, Hv.
  - intros _. by rewrite Hev, (scalar_denotes_value _ _ _ Hv).
Qed.

Definition node_result (e : Expr) (bs : list RuntimeValueExpr) (p : PgPredicate) (bs' : list RuntimeValueExpr) : Prop :=
  (∃ ext, bs' = bs ++ ext) ∧ denotes bs' p e.

(** The two operands of a leaf, normalized in turn. *)
Lemma operands_denote el er bs l bs1 r bs2 : scalar_ok el → scalar_ok er →
  normalize_scalar scope el bs = Some (l, bs1) → normalize_scalar scope er bs1 = Some (r, bs2) →
  (∃ ext, bs2 = bs ++ ext) ∧ scalar_denotes bs2 l el ∧ scalar_denotes bs2 r er.
Proof.
  intros Hl Hr H1 H2. destruct (normalize_scalar_extends _ _ _ _ Hl H1) as [Hd1 [ext1 ->]].
  destruct (normalize_scalar_extends _ _ _ _ Hr H2) as [Hd2 [ext2 ->]]. split_and!; [|by apply scalar_denotes_app|done].
  exists (ext1 ++ ext2). by rewrite app_assoc.
Qed.

Lemma normalize_boolean_column_denotes v bs p bs' : scalar_ok (EVar v) → type_oid (var_type v) = BOOLOID →
  normalize_boolean_column scope (EVar v) bs = Some (p, bs') → node_result (EVar v) bs p bs'.
Proof.
  intros Hok Hb. unfold normalize_boolean_column.
  destruct (normalize_scalar scope (EVar v) bs) as [[l bs1]|] eqn:Hl; [|done]. csimpl.
  intros [= <- <-]. pose proof (eq_refl : normalize_scalar scope true_const bs1 = Some (Value (length bs1), _)) as Hr.
  assert (scalar_ok true_const) as Htrue.
  { split; [|by intros v' [=]|by intros v' [=]]. intros d. unfold true_const. rewrite exec_const, expr_type_const. by intros [= <-]. }
  destruct (operands_denote _ _ _ _ _ _ _ Hok Htrue Hl Hr) as (Hext & Hdl & Hdr). split; [exact Hext|].
  eapply comparison_denotes; [done..| |].
  - intros s [= <-]. unfold true_const. rewrite expr_type_var, expr_type_const, Hb. by split; intros o [= <-].
  - intros _. unfold true_const. simpl. rewrite exec_const. destruct (exec ctx (EVar v)) as [d|] eqn:Hd; [|done]. simpl.
    pose proof (ok_value _ Hok _ Hd) as Ht. rewrite expr_type_var in Ht.
    destruct (has_type_inv _ _ Ht) as [Hbool _]. destruct (Hbool Hb) as (b & -> & _). unfold truth_of. simpl. f_equal.
    erewrite scalar_operator; [|reflexivity..]. by destruct b.
Qed.

Lemma in_set_denotes bs o f c v id b value array : scalar_denotes bs v value → scalar_denotes bs (Value id) array →
  bs !! id = Some b → binding_expr b = array → spec_type (binding_metadata b) = expr_type array →
  leaf_ok (EScalarArrayOp o f c true value array) →
  denotes bs (InSet (mkOp o f BOOLOID InvalidOid c) v (Value id)) (EScalarArrayOp o f c true value array).
Proof.
  intros Hv Hs Hb He Ht (_ & _ & Hel & Hf & Hop) more. apply (scalar_denotes_app _ more) in Hv, Hs.
  apply (lookup_app_l_Some _ more) in Hb. split.
  - assert (binding_metadata b = mkSpec (expr_type array) (source_kind (binding_metadata b))) as Hspec
      by (rewrite <- Ht; by destruct (binding_metadata b)).
    apply Forall_cons_2; [|constructor]. split_and!; [by eapply scalar_denotes_typed| |].
    + intros id' spec element d [= <-]. rewrite (layout_lookup _ _ _ _ Hb), Hspec. intros [= <-] Hael.
      rewrite (slot_lookup _ _ _ Hb), He. intros [= Hd] y. by eapply Hel.
    + rewrite (scalar_denotes_oid _ _ _ _ Hv). unfold element_oid. rewrite (layout_lookup _ _ _ _ Hb), Hspec. apply Hop.
  - intros [Hk _]%Forall_cons. simpl in Hk. destruct (for_operator o) as [sg|] eqn:Hsg; [|done].
    rewrite (exec_any _ _ _ _ _ _ _ Hsg Hf). cbn [eval]. change (scalar pg_scalars) with scalar_value.
    rewrite (scalar_denotes_value _ _ _ Hs), (scalar_denotes_value _ _ _ Hv). done.
Qed.

Lemma normalize_in_set_denotes o f c any value array bs p bs' : leaf_ok (EScalarArrayOp o f c any value array) →
  normalize_in_set scope o f c any value array bs = Some (p, bs') →
  node_result (EScalarArrayOp o f c any value array) bs p bs'.
Proof.
  intros (Hv & Ha & Hel & Hf & Hop). unfold normalize_in_set. destruct (_ || negb any) eqn:Ho; [done|].
  apply orb_false_iff in Ho as [_ ->%negb_false_iff].
  destruct (normalize_scalar scope value bs) as [[v bs1]|] eqn:Hnv; [|done]. csimpl.
  destruct (is_column v) eqn:Hcol; [|done]. simpl.
  destruct (normalize_scalar scope array bs1) as [[s bs2]|] eqn:Hna; [|done]. csimpl.
  destruct (is_column s) eqn:Hset; [done|]. intros [= <- <-].
  destruct (operands_denote _ _ _ _ _ _ _ Hv Ha Hnv Hna) as (Hext & Hdv & Hds). split; [exact Hext|].
  destruct (normalize_scalar_result _ _ _ _ Ha Hna) as [_ [[Hc _]|(b & Hbs & -> & Hbe & Hbt)]]; [by rewrite Hc in Hset|].
  eapply in_set_denotes; [done|done| |done|done|done]. rewrite Hbs. by apply list_lookup_middle.
Qed.

Lemma for_equality_collation_Some c s : for_equality_collation c = Some s → get_collation_isdeterministic c = true.
Proof. unfold for_equality_collation. by destruct (negb _), (get_collation_isdeterministic c). Qed.

Lemma normalize_starts_with_denotes value prefix c e bs p bs' : scalar_ok value → scalar_ok prefix →
  (get_collation_isdeterministic c = true → planner_utf8 pl = true →
   strict2 (starts_with pg_scalars) (exec ctx value) (exec ctx prefix) = truth_of (exec ctx e)) →
  normalize_starts_with scope value prefix c bs = Some (p, bs') → node_result e bs p bs'.
Proof.
  intros Hv Hp He. unfold normalize_starts_with.
  destruct (for_equality_collation c) as [s|] eqn:Hc; [|done]. csimpl. apply for_equality_collation_Some in Hc.
  destruct (normalize_scalar scope value bs) as [[v bs1]|] eqn:Hnv; [|done]. csimpl. destruct (negb _); [done|].
  destruct (normalize_scalar scope prefix bs1) as [[q bs2]|] eqn:Hnp; [|done]. csimpl. destruct (is_column q); [done|].
  intros [= <- <-]. destruct (operands_denote _ _ _ _ _ _ _ Hv Hp Hnv Hnp) as (Hext & Hdv & Hdp). split; [exact Hext|].
  eapply starts_with_denotes; eauto.
Qed.

Lemma text_datum t d : has_type t d → is_text_oid (type_oid t) = true → ∃ bs, d = PgText bs.
Proof.
  intros Ht Ho. destruct (has_type_inv _ _ Ht) as (_ & _ & _ & _ & _ & _ & _ & _ & _ & Htext & _).
  destruct (Htext Ho) as (bs & -> & _). by exists bs.
Qed.

Lemma pure_like_prefix_Some t d e : pure_like_prefix t d = Some e →
  ∃ pattern prefix m k, d = Some (PgText pattern) ∧ like_prefix pattern [] = Some (prefix, true) ∧
    e = EConst (mkType TEXTOID m k) (Some (PgText prefix)).
Proof.
  unfold pure_like_prefix. destruct (negb _); [done|]. destruct d as [[| | | | | | | | | | |pattern| | |]|]; try done.
  destruct (like_prefix pattern []) as [[prefix []]|] eqn:Hp; try done. destruct (_ <=? _); [|done].
  intros [= <-]. by exists pattern, prefix, (typmod t), (collation t).
Qed.

(** The pushed prefix test is the LIKE. *)
Lemma normalize_like_prefix_denotes op value pattern bs p bs' : leaf_ok (EOp op [value; pattern]) →
  opno op = OID_TEXT_LIKE_OP → normalize_like_prefix scope op value pattern bs = Some (p, bs') →
  node_result (EOp op [value; pattern]) bs p bs'.
Proof.
  intros (Hv & Hpat & Hf & Hlike & _) Hno. unfold normalize_like_prefix.
  destruct (_ || negb (opcollid op =? InvalidOid)) eqn:Hg; [done|]. apply orb_false_iff in Hg as [[Hg _]%orb_false_iff _].
  destruct (without_relabels pattern) as [|t d| | | | | | | | |] eqn:Hp; try done.
  destruct (pure_like_prefix t d) as [prefix|] eqn:Hpre; [|done]. csimpl.
  destruct (pure_like_prefix_Some _ _ _ Hpre) as (pat & pre & m & k & -> & Hlp & ->).
  destruct (like_prefix_matches char_width _ _ Hlp) as [Hclosed Hmatch].
  apply normalize_starts_with_denotes; [done| |].
  { split; [|by intros v' [=]|by intros v' [=]]. intros d. rewrite exec_const, expr_type_const. intros [= <-]. by intros _. }
  intros Hdet Hu. rewrite exec_const. rewrite Hutf8 in Hu.
  assert (exec ctx pattern = Some (PgText pat)) as Hex by (by rewrite <- exec_without_relabels, Hp, exec_const).
  assert (∀ d, exec ctx value = Some d → ∃ s, d = PgText s) as Htext.
  { intros d Hd. apply (text_datum _ _ (ok_value value Hv d Hd)). by rewrite Hlike. }
  rewrite (exec_like ctx op value pattern pat Hno ltac:(lia) Hdet Hu Hex Hclosed Htext).
  destruct (exec ctx value) as [d|]; [|done]. destruct (Htext d eq_refl) as [s ->]. simpl. by rewrite Hmatch.
Qed.

Lemma float_datum t d : has_type t d → is_float_oid (type_oid t) = true →
  ∃ f, float_value d (type_oid t) = Some f ∧ is_nan pg_scalars d = float_nan f.
Proof.
  intros Ht Ho. destruct t as [oid m k]. unfold has_type in Ht. simpl in *. unfold is_float_oid in Ho.
  apply orb_true_iff in Ho as [->%Z.eqb_eq| ->%Z.eqb_eq]; specialize (Ht eq_refl);
    destruct d; simpl in *; destruct_and?; try done; eauto.
Qed.

Lemma nan_constant e : scalar_ok e → is_nan_const e = true → is_float_oid (type_oid (expr_type e)) = true →
  ∃ d f, exec ctx e = Some d ∧ float_value d (type_oid (expr_type e)) = Some f ∧ float_nan f = true.
Proof.
  intros Hok. unfold is_nan_const. destruct (without_relabels e) as [|t d| | | | | | | | |] eqn:He; try done.
  destruct d as [d|]; [|done]. simpl. intros Hnan Ho.
  assert (exec ctx e = Some d) as Hd by (by rewrite <- exec_without_relabels, He, exec_const).
  destruct (float_datum _ _ (ok_value e Hok d Hd) Ho) as (f & Hf & Hn). exists d, f. split_and!; try done.
  rewrite <- Hn. clear Hf Hn Hd. destruct d; try done; simpl in *; by destruct (type_oid t =? _).
Qed.

(** A comparison with NaN is a test of the other side. *)
Definition nan_predicate (k : PgNanComparison) (v : ScalarExpr) : PgPredicate :=
  match k with
  | NanIsNan => IsNan v
  | NanIsNotNan => IsNotNan v
  | NanStrictTrue => StrictTrue v
  | NanStrictFalse => StrictFalse v
  end.

Lemma nan_predicate_denotes bs k v ev e : scalar_denotes bs v ev →
  (truth_of (exec ctx e) = (λ d, match k with
    | NanIsNan => is_nan pg_scalars d
    | NanIsNotNan => negb (is_nan pg_scalars d)
    | NanStrictTrue => true
    | NanStrictFalse => false end) <$> exec ctx ev) →
  denotes bs (nan_predicate k v) e.
Proof. intros Hv He. destruct k; (eapply (unary_denotes _ _ _ _ _ (fmap _)); [exact Hv|done|done|done|by rewrite He]). Qed.

Lemma builtin_signature_Some op s : builtin_signature op = Some s → for_operator (opno op) = Some s.
Proof. unfold builtin_signature. destruct (for_operator _) as [s'|]; [|done]. by destruct (signature_matches s' op); [intros [= ->]|]. Qed.

Lemma nan_on_right k x : kind_holds k (if x : bool then Eq else Lt) =
  match with_nan_on k false with NanIsNan => x | NanIsNotNan => negb x | NanStrictTrue => true | NanStrictFalse => false end.
Proof. by destruct k, x. Qed.

Lemma nan_on_left k x : kind_holds k (if x : bool then Eq else Gt) =
  match with_nan_on k true with NanIsNan => x | NanIsNotNan => negb x | NanStrictTrue => true | NanStrictFalse => false end.
Proof. by destruct k, x. Qed.

Lemma normalize_nan_comparison_denotes op l r bs p bs' : leaf_ok (EOp op [l; r]) →
  normalize_nan_comparison scope op l r bs = Some (p, bs') → node_result (EOp op [l; r]) bs p bs'.
Proof.
  intros (Hl & Hr & Hf & _ & Hop). unfold normalize_nan_comparison.
  destruct (builtin_signature op) as [s|] eqn:Hs; [|done]. csimpl. apply builtin_signature_Some in Hs.
  destruct (Hop s Hs) as [Hlt Hrt]. rewrite (Hlt _ eq_refl), (Hrt _ eq_refl). clear Hop.
  destruct (is_float_oid (type_oid (expr_type l))) eqn:Hfl; [|done].
  destruct (is_float_oid (type_oid (expr_type r))) eqn:Hfr; [|done]. simpl.
  destruct (is_nan_const l) eqn:Hnl, (is_nan_const r) eqn:Hnr; try done; csimpl.
  - destruct (normalize_scalar scope r bs) as [[v bs1]|] eqn:Hn; [|done]. csimpl. destruct (negb _); [done|]. intros [= <- <-].
    destruct (normalize_scalar_extends _ _ _ _ Hr Hn) as [Hd Hext]. split; [exact Hext|].
    apply (nan_predicate_denotes _ (with_nan_on (signature_kind s) true) _ r); [done|].
    destruct (nan_constant l Hl Hnl Hfl) as (d & f & Hdl & Hdf & Hnan). rewrite (exec_operator _ _ _ _ _ Hs Hf), Hdl.
    destruct (exec ctx r) as [y|] eqn:Hy; [|done]. simpl. f_equal.
    destruct (float_datum _ _ (ok_value r Hr y Hy) Hfr) as (g & Hg & Hng).
    rewrite (nan_operator_left _ _ s _ _ f g Hs); [|by rewrite (Hlt _ eq_refl)|by rewrite (Hrt _ eq_refl)|done].
    rewrite nan_on_left, <- Hng. done.
  - destruct (normalize_scalar scope l bs) as [[v bs1]|] eqn:Hn; [|done]. csimpl. destruct (negb _); [done|]. intros [= <- <-].
    destruct (normalize_scalar_extends _ _ _ _ Hl Hn) as [Hd Hext]. split; [exact Hext|].
    apply (nan_predicate_denotes _ (with_nan_on (signature_kind s) false) _ l); [done|].
    destruct (nan_constant r Hr Hnr Hfr) as (d & f & Hdl & Hdf & Hnan). rewrite (exec_operator _ _ _ _ _ Hs Hf), Hdl.
    destruct (exec ctx l) as [y|] eqn:Hy; [|done]. simpl. f_equal.
    destruct (float_datum _ _ (ok_value l Hl y Hy) Hfl) as (g & Hg & Hng).
    rewrite (nan_operator _ _ s _ _ g f Hs); [|by rewrite (Hlt _ eq_refl)|by rewrite (Hrt _ eq_refl)|done].
    rewrite nan_on_right, <- Hng. done.
Qed.

Lemma normalize_comparison_denotes op l r bs p bs' : leaf_ok (EOp op [l; r]) →
  normalize_comparison scope op l r bs = Some (p, bs') → node_result (EOp op [l; r]) bs p bs'.
Proof.
  intros Hok. unfold normalize_comparison. destruct (opno op =? OID_TEXT_LIKE_OP) eqn:Hlike.
  { apply Z.eqb_eq in Hlike. by apply normalize_like_prefix_denotes. }
  destruct (normalize_nan_comparison scope op l r bs) as [res|] eqn:Hnan.
  { intros [= ->]. by apply normalize_nan_comparison_denotes. }
  destruct (normalize_scalar scope l bs) as [[vl bs1]|] eqn:Hnl; [|done]. csimpl.
  destruct (normalize_scalar scope r bs1) as [[vr bs2]|] eqn:Hnr; [|done]. csimpl. intros [= <- <-].
  destruct Hok as (Hl & Hr & Hf & _ & Hop).
  destruct (operands_denote _ _ _ _ _ _ _ Hl Hr Hnl Hnr) as ((ext & Hext) & Hdl & Hdr).
  pose proof (scalar_result_fresh _ _ _ _ (normalize_scalar_result _ _ _ _ Hl Hnl)) as Hfl.
  assert (∀ id, vr = Value id → (length bs ≤ id)%nat) as Hfr.
  { destruct (normalize_scalar_extends _ _ _ _ Hl Hnl) as [_ [ext1 ->]]. intros id Hid.
    pose proof (scalar_result_fresh _ _ _ _ (normalize_scalar_result _ _ _ _ Hr Hnr) id Hid) as Hlen.
    rewrite length_app in Hlen. lia. }
  split.
  - rewrite Hext. destruct (specialize_extends vl vr bs ext Hfr) as [ext' ->]. by apply specialize_extends.
  - apply (comparison_denotes _ _ _ _ l r); [by do 2 apply specialize_denotes..|done|].
    intros Hk. destruct (for_operator (opno op)) as [s|] eqn:Hs; [|done]. symmetry. by eapply exec_operator.
Qed.

(** The leaves of the parser, on a node without relabels. *)
Lemma normalize_parsed_denotes e bs p bs' : leaf_ok e → without_relabels e = e →
  match parse_leaf e with
  | Err _ => None
  | Ok (LeafBooleanTest kind value) => '(v, bs) ← normalize_scalar scope value bs; Some (BooleanTest kind v, bs)
  | Ok (LeafComparison op l r) => normalize_comparison scope op l r bs
  | Ok (LeafNullTest kind value) =>
      '(v, bs) ← normalize_scalar scope value bs;
      Some (match kind with NullTestIsNull => IsNull v | NullTestIsNotNull => IsNotNull v end, bs)
  | Ok (LeafStartsWith value prefix c) => normalize_starts_with scope value prefix c bs
  end = Some (p, bs') → node_result e bs p bs'.
Proof.
  intros Hok Hwr. unfold parse_leaf. rewrite Hwr. destruct e as [| | |op args| | |k [] arg|k arg| |f args|]; try done.
  - destruct (op_starts_with_operands op args) as [[[value prefix] c]|] eqn:Hsw.
    + unfold op_starts_with_operands in Hsw. destruct (_ || negb (opcollid op =? _)) eqn:Hg; [done|].
      destruct args as [|a1 [|a2 [|]]]; try done. destruct (_ || _) in Hsw; [done|]. injection Hsw as <- <- <-.
      apply orb_false_iff in Hg as [[[H1 H2]%orb_false_iff _]%orb_false_iff _].
      destruct Hok as (Hv & Hp & _). apply normalize_starts_with_denotes; [done..|].
      intros Hdet _. symmetry. apply exec_prefix_operator; [lia|lia|done].
    + destruct args as [|a1 [|a2 [|]]]; try done. by apply normalize_comparison_denotes.
  - destruct (normalize_scalar scope arg bs) as [[v bs1]|] eqn:Hn; [|done]. csimpl. intros [= <- <-].
    destruct (normalize_scalar_extends _ _ _ _ Hok Hn) as [Hd Hext]. split; [exact Hext|].
    destruct k.
    + eapply (unary_denotes _ _ _ _ _ (λ x, Some (bool_decide (x = None)))); [exact Hd|done|done|done|]. by rewrite exec_is_null.
    + eapply (unary_denotes _ _ _ _ _ (λ x, Some (negb (bool_decide (x = None))))); [exact Hd|done|done|done|].
      by rewrite exec_is_not_null.
  - destruct Hok as [Hok Hb]. destruct (normalize_scalar scope arg bs) as [[v bs1]|] eqn:Hn; [|done]. csimpl. intros [= <- <-].
    destruct (normalize_scalar_extends _ _ _ _ Hok Hn) as [Hd Hext]. split; [exact Hext|].
    eapply (unary_denotes _ _ _ _ _ (λ x, Some (boolean_test k (truth_of x)))); [exact Hd|done| |done|].
    + intros fr values Hty. split; [done|]. intros c ->. inversion Hd as [c' e' w Hw Hdecl|]; subst. rewrite Hdecl. by apply Hb.
    + by rewrite exec_boolean_test.
  - destruct (func_starts_with_operands f args) as [[[value prefix] c]|] eqn:Hsw; [|done].
    unfold func_starts_with_operands in Hsw. destruct (_ || negb (funccollid f =? _)) eqn:Hg; [done|].
    destruct args as [|a1 [|a2 [|]]]; try done. destruct (_ || _) in Hsw; [done|]. injection Hsw as <- <- <-.
    apply orb_false_iff in Hg as [[[[H1 _]%orb_false_iff _]%orb_false_iff _]%orb_false_iff _].
    destruct Hok as (Hv & Hp). apply normalize_starts_with_denotes; [done..|].
    intros Hdet _. symmetry. apply exec_starts_with; [lia|done].
Qed.

Lemma normalize_leaf_denotes e bs p bs' : leaf_ok e →
  match e with ERelabel _ _ | EBool _ _ => False | _ => True end →
  normalize_leaf scope e bs = Some (p, bs') → node_result e bs p bs'.
Proof.
  intros Hok Hleaf. assert (without_relabels e = e) as Hwr by (by destruct e). unfold normalize_leaf.
  destruct e as [v| | | |o f c any value array| | | | | |]; try done; try exact (normalize_parsed_denotes _ _ _ _ Hok Hwr).
  - rewrite expr_type_var. destruct (Z.eqb_spec (type_oid (var_type v)) BOOLOID) as [Hb|]; [|done].
    by apply normalize_boolean_column_denotes.
  - by apply normalize_in_set_denotes.
Qed.

(** ** Trees *)
Fixpoint normalize_children (args : list Expr) (bs : list RuntimeValueExpr) : option (list PgPredicate * list RuntimeValueExpr) :=
  match args with
  | [] => Some ([], bs)
  | arg :: rest =>
      '(child, bs) ← normalize_node scope arg bs;
      '(children, bs) ← normalize_children rest bs;
      Some (child :: children, bs)
  end.

Lemma normalize_node_bool o args bs : normalize_node scope (EBool o args) bs =
  if decide (args = []) then None
  else
    '(children, bs) ← normalize_children args bs;
    match o, children with
    | AND_EXPR, _ => Some (And children, bs)
    | OR_EXPR, _ => Some (Or children, bs)
    | NOT_EXPR, [child] => Some (Not child, bs)
    | NOT_EXPR, _ => None
    end.
Proof.
  destruct args as [|arg args]; [done|]. simpl. destruct (normalize_node scope arg bs) as [[c bs1]|]; [|done]. csimpl.
  assert (∀ bs, (fix loop (args : list Expr) (bs : list RuntimeValueExpr) :=
    match args with
    | [] => Some ([], bs)
    | arg :: rest =>
        '(child, bs) ← normalize_node scope arg bs;
        '(children, bs) ← loop rest bs;
        Some (child :: children, bs)
    end) args bs = normalize_children args bs) as ->; [|done].
  induction args as [|a args IH]; intros bs'; [done|]. simpl. destruct (normalize_node scope a bs') as [[c' bs2]|]; [|done].
  csimpl. by rewrite IH.
Qed.

Lemma denotes_app bs more p e : denotes bs p e → denotes (bs ++ more) p e.
Proof. intros Hd more'. rewrite <- app_assoc. apply Hd. Qed.

Lemma normalize_children_denote args bs children bs' :
  Forall (λ e, ∀ bs p bs', expr_ok e → normalize_node scope e bs = Some (p, bs') → node_result e bs p bs') args →
  Forall expr_ok args → normalize_children args bs = Some (children, bs') →
  (∃ ext, bs' = bs ++ ext) ∧ Forall2 (denotes bs') children args.
Proof.
  revert bs children. induction args as [|arg args IH]; intros bs children HF Hok; simpl.
  { intros [= <- <-]. split; [exists []; by rewrite app_nil_r|constructor]. }
  apply Forall_cons in HF as [Harg HF], Hok as [Hoka Hok].
  destruct (normalize_node scope arg bs) as [[c bs1]|] eqn:Hc; [|done]. csimpl.
  destruct (normalize_children args bs1) as [[cs bs2]|] eqn:Hcs; [|done]. csimpl. intros [= <- <-].
  destruct (Harg _ _ _ Hoka Hc) as [[ext1 ->] Hd]. destruct (IH _ _ HF Hok Hcs) as [[ext2 ->] Hds]. split.
  - exists (ext1 ++ ext2). by rewrite app_assoc.
  - constructor; [by apply denotes_app|done].
Qed.

(** The typing and the meaning of a list of subtrees. *)
Lemma denotes_leaves bs cs args more p : Forall2 (denotes bs) cs args →
  Forall (leaf_typed pl (fragment_of p (bs ++ more)) (slots (env_of (bs ++ more)))) (concat (leaves <$> cs)).
Proof.
  induction 1 as [|c e cs args Hc _ IH]; [constructor|]. csimpl. apply Forall_app. split; [|done].
  exact (proj1 (Hc more)).
Qed.

Lemma denotes_eval bs cs args more : Forall2 (denotes bs) cs args → Forall known_leaf (concat (leaves <$> cs)) →
  eval pg_scalars (env_of (bs ++ more)) <$> cs = truth_of ∘ exec ctx <$> args.
Proof.
  induction 1 as [|c e cs args Hc _ IH]; [done|]. csimpl. intros [Hk Hks]%Forall_app.
  f_equal; [|auto]. exact (proj2 (Hc more) Hk).
Qed.

Lemma normalize_node_denotes e bs p bs' : expr_ok e → normalize_node scope e bs = Some (p, bs') → node_result e bs p bs'.
Proof.
  revert bs p bs'. induction e as [e t IH|o args IH|e Hleaf] using expr_ind'; intros bs p bs' Hok Hn.
  - destruct (IH bs p bs' Hok Hn) as [Hext Hd]. split; [done|]. intros more. rewrite exec_relabel. apply Hd.
  - apply expr_ok_bool in Hok as [_ Hok]. rewrite normalize_node_bool in Hn. case_decide as Hne; [done|].
    destruct (normalize_children args bs) as [[cs bs1]|] eqn:Hcs; [|done]. csimpl in Hn.
    destruct (normalize_children_denote _ _ _ _ IH Hok Hcs) as [Hext Hds].
    assert (bs1 = bs' ∧ match o with
      | AND_EXPR => p = And cs
      | OR_EXPR => p = Or cs
      | NOT_EXPR => ∃ c e, cs = [c] ∧ args = [e] ∧ p = Not c end) as [-> Hp].
    { destruct o; [naive_solver..|]. destruct cs as [|c [|]]; try done. apply Forall2_length in Hds. destruct args as [|e [|]]; try done.
      injection Hn as <- <-. split; [done|]. by exists c, e. }
    split; [done|]. intros more. destruct o.
    + subst p. split; [by eapply denotes_leaves|]. intros Hk. simpl. by rewrite exec_and, (denotes_eval _ _ _ _ Hds Hk).
    + subst p. split; [by eapply denotes_leaves|]. intros Hk. simpl. by rewrite exec_or, (denotes_eval _ _ _ _ Hds Hk).
    + destruct Hp as (c & e & -> & -> & ->). apply Forall2_cons in Hds as [Hd _]. destruct (Hd more) as [Hty Hev].
      split; [exact Hty|]. intros Hk. simpl. by rewrite exec_not, Hev.
  - apply normalize_leaf_denotes; [by destruct e|done|]. by destruct e.
Qed.

(** ** Normalized predicates *)

(** A normalized predicate stands for the expression it pushes down. *)
Definition represents (n : NormalizedPredicate) : Prop :=
  runtime_values (fragment n) = binding_metadata <$> bindings n ∧
  denotes (bindings n) (root (fragment n)) (pushed_expr n).

Lemma normalize_predicate_represents e n : expr_ok e → normalize_predicate scope e = Some n →
  represents n ∧ pushed_expr n = e.
Proof.
  intros Hok. unfold normalize_predicate. destruct (normalize_node scope e []) as [[p bs]|] eqn:Hn; [|done].
  csimpl. intros [= <-]. destruct (normalize_node_denotes _ _ _ _ Hok Hn) as [_ Hd]. done.
Qed.

Lemma leaves_rebase p k : leaves (rebase_runtime_values p k) = (λ l, rebase_runtime_values l k) <$> leaves p.
Proof.
  induction p as [p Hl|cs IH|cs IH|c IH] using predicate_ind; [by destruct p|..].
  1, 2: simpl; induction IH as [|c cs Hc _ IHcs]; [done|]; csimpl; by rewrite fmap_app, <- Hc, <- IHcs.
  done.
Qed.

Lemma known_leaf_rebase p k : known_leaf (rebase_runtime_values p k) ↔ known_leaf p.
Proof. by destruct p. Qed.

Section rebase.
Context (pre bs : list RuntimeValueExpr) (q p : PgPredicate).
Local Notation long := (fragment_of q (pre ++ bs)).
Local Notation short := (fragment_of p bs).

Lemma lookup_rebase {A} (f : RuntimeValueExpr → A) (id : nat) :
  (f <$> pre ++ bs) !! (id + length pre)%nat = (f <$> bs) !! id.
Proof. rewrite fmap_app, lookup_app_r by (rewrite length_fmap; lia). f_equal. rewrite length_fmap. lia. Qed.

Lemma layout_rebase (id : RuntimeValueId) : runtime_values long !! (id + length pre)%nat = runtime_values short !! id.
Proof. exact (lookup_rebase binding_metadata id). Qed.

Lemma slots_rebase (id : RuntimeValueId) : slots (env_of (pre ++ bs)) !! (id + length pre)%nat = slots (env_of bs) !! id.
Proof. exact (lookup_rebase (exec ctx ∘ binding_expr) id). Qed.

Lemma scalar_typed_rebase s : scalar_typed pl short (slots (env_of bs)) s →
  scalar_typed pl long (slots (env_of (pre ++ bs))) (rebase_scalar s (length pre)).
Proof.
  destruct s as [c|id]; [done|]. simpl. intros H spec d. rewrite layout_rebase, slots_rebase. apply H.
Qed.

Lemma operand_oid_rebase s : operand_oid long (rebase_scalar s (length pre)) = operand_oid short s.
Proof. destruct s as [c|id]; [done|]. unfold operand_oid, rebase_scalar. by rewrite layout_rebase. Qed.

Lemma leaf_typed_rebase l : leaf_typed pl short (slots (env_of bs)) l →
  leaf_typed pl long (slots (env_of (pre ++ bs))) (rebase_runtime_values l (length pre)).
Proof.
  destruct l as [| | | |op l r|k v| | | | | |op v s| | |]; simpl; try done; try apply scalar_typed_rebase.
  - intros (Hl & Hr & Hop). split_and!; [by apply scalar_typed_rebase..|]. by rewrite !operand_oid_rebase.
  - intros [Hv Hb]. split; [by apply scalar_typed_rebase|]. intros c. destruct v; [|done]. apply Hb.
  - intros [Hv Hp]. split; by apply scalar_typed_rebase.
  - intros (Hv & Hs & Hop). split_and!; [by apply scalar_typed_rebase| |].
    + intros id spec element d Hid. destruct s as [|id']; [done|]. injection Hid as <-. rewrite layout_rebase, slots_rebase. by apply Hs.
    + rewrite operand_oid_rebase. destruct s as [|id']; [done|]. unfold element_oid, rebase_scalar. by rewrite layout_rebase.
Qed.
End rebase.

Lemma denotes_rebase pre bs p e : denotes bs p e → denotes (pre ++ bs) (rebase_runtime_values p (length pre)) e.
Proof.
  intros Hd more. rewrite <- app_assoc. destruct (Hd more) as [Hty Hev]. rewrite leaves_rebase, !Forall_fmap. split.
  - eapply Forall_impl; [exact Hty|]. intros l Hl. exact (leaf_typed_rebase _ _ _ _ l Hl).
  - intros Hk. unfold env_of. rewrite fmap_app.
    replace (length pre) with (length (exec ctx ∘ binding_expr <$> pre)) by apply length_fmap.
    rewrite eval_rebase. apply Hev. eapply Forall_impl; [exact Hk|]. intros l. apply known_leaf_rebase.
Qed.

(** The loop of [combine]: the nodes gathered so far stand for the pushed
    expressions, over the slots gathered so far. *)
Definition combined (acc : list PgPredicate * list RuntimeValueSpec * list RuntimeValueExpr * list Expr) : Prop :=
  let '(nodes, values, bs, args) := acc in values = binding_metadata <$> bs ∧ Forall2 (denotes bs) nodes args.

Lemma combine_steps items acc : Forall represents items → combined acc →
  combined (foldl combine_step acc items) ∧ (foldl combine_step acc items).2 = acc.2 ++ (pushed_expr <$> items).
Proof.
  revert acc. induction items as [|n items IH]; intros [[[nodes values] bs] args] Hit Hacc.
  { split; [done|]. csimpl. by rewrite app_nil_r. }
  apply Forall_cons in Hit as [[Hl Hd] Hit]. destruct Hacc as [Hv Hns]. cbn [foldl combine_step].
  match goal with |- context [foldl combine_step ?a items] => destruct (IH a Hit) as [Hc Ha] end.
  - split; [by rewrite fmap_app, Hv, Hl|]. apply Forall2_app.
    + eapply Forall2_impl; [exact Hns|]. intros. by apply denotes_app.
    + constructor; [|constructor]. replace (length values) with (length bs) by (by rewrite Hv, length_fmap). by apply denotes_rebase.
  - split; [exact Hc|]. rewrite Ha. csimpl. by rewrite <- app_assoc.
Qed.

(** What the expression that a combination pushes says. *)
Definition connective (conjunction : bool) (l : list tri) : tri := if conjunction then kall l else kany l.

Lemma connective_single conj v : connective conj [v] = v.
Proof. by destruct conj, v as [[]|]. Qed.

Lemma combine_represents items conj n : Forall represents items → combine items conj = Some n →
  represents n ∧ truth_of (exec ctx (pushed_expr n)) = connective conj (truth_of ∘ exec ctx ∘ pushed_expr <$> items).
Proof.
  intros Hit. unfold combine. destruct items as [|i1 [|i2 items]]; [done| |].
  { intros [= ->]. apply Forall_cons in Hit as [Hn _]. split; [done|]. csimpl. by rewrite connective_single. }
  destruct (combine_steps (i1 :: i2 :: items) ([], [], [], []) Hit) as [Hc Ha]; [by split|].
  destruct (foldl combine_step _ _) as [[[nodes values] bs] args]. destruct Hc as [Hv Hns]. simpl in Ha. intros [= <-].
  assert (args ≠ []) as Hne by (by rewrite Ha). split; [split; [done|]|].
  - intros more. destruct conj; (split; [by eapply denotes_leaves|]); intros Hk; simpl.
    + by rewrite exec_and, (denotes_eval _ _ _ _ Hns Hk).
    + by rewrite exec_or, (denotes_eval _ _ _ _ Hns Hk).
  - unfold connective. cbn [pushed_expr]. destruct conj; rewrite ?exec_and, ?exec_or by done; rewrite Ha; csimpl; by rewrite <- list_fmap_compose.
Qed.

(** ** What the provider accepted *)
Lemma resolved_known c spec op r : resolve_comparison pl c spec op = Ok (Some r) → for_operator (opno op) ≠ None.
Proof.
  unfold resolve_comparison. destruct (policy_plan_comparison _ _ _ _) as [[s v]|] eqn:Hp; [|done]. intros _.
  apply plan_comparison_operator in Hp as (_ & (sg & -> & _) & _). done.
Qed.

Lemma plan_resolved_known f op c id m q : plan_resolved pl f op c id m = Ok q → drops_child q = false →
  for_operator (opno op) ≠ None.
Proof.
  unfold plan_resolved. destruct (fragment_value f id) as [slot|]; [|done]. csimpl.
  destruct (resolve_comparison pl c slot op) as [[r|]|] eqn:Hr; [|by intros [= <-]|done]. intros _ _. by eapply resolved_known.
Qed.

Lemma planned_leaf_known f e q : is_leaf e → plan_with (adapter pl f) e = Ok q → drops_child q = false → known_leaf e.
Proof.
  intros Hleaf Hq Hd. destruct e as [| | | |op l r| | | | | |v p|op v s| | |]; simpl; try done; simpl in Hq.
  - unfold plan_comparison_leaf in Hq. destruct l as [c|id], r as [c'|id']; try (by injection Hq as <-); by eapply plan_resolved_known.
  - unfold plan_starts_with_leaf in Hq. destruct v as [c|], p as [|id]; try (by injection Hq as <-).
    destruct (fragment_value f id) as [slot|]; [|done]. csimpl in Hq.
    destruct (policy_plan_starts_with _ _ _) as [v|] eqn:Hp; [|by injection Hq as <-].
    unfold policy_plan_starts_with in Hp. destruct (planned_value_type _ _ _) as [t|] eqn:Ht; [|done]. csimpl in Hp.
    destruct t; try done. destruct (planner_utf8 pl); [done|]. exfalso. revert Ht. unfold planned_value_type.
    destruct (for_storage_comparison _ _ _); repeat case_match; done.
  - unfold plan_in_set_leaf in Hq. destruct v as [c|], s as [|id]; try (by injection Hq as <-).
    destruct (fragment_value f id) as [slot|]; [|done]. csimpl in Hq. destruct (negb _); [by injection Hq as <-|].
    destruct (array_element slot) as [el|]; [|by injection Hq as <-].
    destruct (resolve_comparison pl c el op) as [[r|]|] eqn:Hr; [|by injection Hq as <-|done]. by eapply resolved_known.
Qed.

(** A plan that takes the whole fragment knows all of its operators. *)
Lemma plan_taken_known f q p : try_plan_filter pl f = Ok q → q = Filter.Exact p ∨ q = Filter.Conservative p →
  Forall known_leaf (leaves (root f)).
Proof.
  unfold try_plan_filter. destruct (plan_with _ _) as [q'|] eqn:Hq; [|done]. csimpl. intros [= <-] Hp.
  eapply plan_with_accepted; [by eapply planned_leaf_known|done|exact Hq|]. destruct q'; naive_solver.
Qed.
End sound.

(** ** The slots do not depend on the scanned row *)
Section free.
Context {B : PgBackend} {NB : PgNodes PgDatum} {X : PgExecutor B} {XL : PgExecutorLaws X} (relid : Z)
  (scope : ExpressionScope) (Hscope : scope_of relid scope).
Local Notation Expr := (PgExpr PgDatum).

(** A scalar that is no column of the relation. *)
Definition row_free (e : Expr) : Prop :=
  match parse_scalar e with
  | Ok (RefVar v | RefWidenedIntegerVar v) => varno v ≠ relid
  | Ok _ => True
  | Err _ => False
  end.

Definition slots_free (bs : list RuntimeValueExpr) : Prop := Forall (λ b, row_free (binding_expr b)) bs.

(** Two contexts that differ at most in the row of the relation. *)
Definition same_outside (c c' : EvalContext PgDatum) : Prop :=
  (∀ n attno, n ≠ relid → ctx_row c n attno = ctx_row c' n attno) ∧ ∀ k id, ctx_param c k id = ctx_param c' k id.

Lemma exec_row_free c c' e : same_outside c c' → row_free e → exec c e = exec c' e.
Proof.
  intros [Hrow Hparam]. unfold row_free, parse_scalar.
  rewrite <- (exec_without_relabels c e), <- (exec_without_relabels c' e).
  destruct (without_relabels e) as [v|t d|k id t| | | | | | |f args|]; try done.
  - rewrite !exec_var. intros Hv. by apply Hrow.
  - by rewrite !exec_const.
  - by rewrite !exec_param.
  - destruct (widened_integer_var f args) as [v|] eqn:Hv; [|done]. simpl. intros Hne.
    destruct (widened_integer_var_Some _ _ _ Hv) as (arg & w & -> & Harg & Hw).
    rewrite !(exec_widening _ _ _ _ _ Hw), <- (exec_without_relabels c arg), <- (exec_without_relabels c' arg), Harg, !exec_var.
    f_equal. by apply Hrow.
Qed.

Lemma slots_same c c' bs : same_outside c c' → slots_free bs →
  exec c ∘ binding_expr <$> bs = exec c' ∘ binding_expr <$> bs.
Proof. intros Hs Hf. apply Forall_fmap_ext_1. eapply Forall_impl; [exact Hf|]. intros b Hb. by apply exec_row_free. Qed.

Lemma normalize_scalar_free e bs s bs' : slots_free bs → normalize_scalar scope e bs = Some (s, bs') → slots_free bs'.
Proof.
  intros Hbs. unfold normalize_scalar.
  assert (∀ source, row_free e → push_binding e (mkSpec (expr_type e) source) bs = Some (s, bs') → slots_free bs') as Hpush.
  { intros source Hf [= _ <-]. apply Forall_app. split; [done|]. by constructor. }
  unfold row_free in Hpush. destruct (parse_scalar e) as [[v|t d|k id t|v]|]; [|by apply Hpush| | |done].
  1, 3: destruct (0 <? _); [|done]; destruct scope as [r|sources]; simpl in Hscope;
    [unfold relation_resolve_var; destruct (Z.eqb_spec (varno v) r); [by intros [= _ <-]|apply Hpush; congruence]
    |destruct (query_resolve_var sources (varno v)); [|done]; by intros [= _ <-]].
  match goal with |- context [mbind _ ?x] => destruct x; [|done] end. by apply Hpush.
Qed.

Lemma specialize_free col val bs : slots_free bs → slots_free (specialize_decimal_constant col val bs).
Proof.
  intros Hbs. destruct (specialize_cases col val bs) as [->|(c & id & b & s & t & d & _ & _ & Hb & _ & _ & _ & _ & ->)]; [done|].
  apply Forall_insert; [done|]. simpl. exact (proj1 (Forall_lookup _ _) Hbs _ _ Hb).
Qed.

Lemma normalize_starts_with_free v p c bs q bs' : slots_free bs → normalize_starts_with scope v p c bs = Some (q, bs') → slots_free bs'.
Proof.
  intros Hbs. unfold normalize_starts_with. destruct (for_equality_collation c); [|done]. csimpl.
  destruct (normalize_scalar scope v bs) as [[? bs1]|] eqn:H1; [|done]. csimpl. destruct (negb _); [done|].
  destruct (normalize_scalar scope p bs1) as [[? bs2]|] eqn:H2; [|done]. csimpl. destruct (is_column _); [done|].
  intros [= _ <-]. eauto using normalize_scalar_free.
Qed.

Lemma normalize_comparison_free op l r bs q bs' : slots_free bs → normalize_comparison scope op l r bs = Some (q, bs') → slots_free bs'.
Proof.
  intros Hbs. unfold normalize_comparison, normalize_like_prefix. destruct (_ =? _).
  { destruct (_ || _); [done|]. destruct (without_relabels r); try done. destruct (pure_like_prefix _ _); [|done].
    csimpl. by apply normalize_starts_with_free. }
  destruct (normalize_nan_comparison scope op l r bs) as [[q' bs1]|] eqn:Hnan.
  - intros [= _ <-]. unfold normalize_nan_comparison in Hnan. destruct (builtin_signature op); [|done]. csimpl in Hnan.
    destruct (negb _); [done|]. destruct (match is_nan_const l, is_nan_const r with true, false => _ | _, _ => _ end) as [[e b]|]; [|done].
    csimpl in Hnan. destruct (normalize_scalar scope e bs) as [[? bs2]|] eqn:H1; [|done]. csimpl in Hnan.
    destruct (negb _); [done|]. injection Hnan as _ <-. eauto using normalize_scalar_free.
  - destruct (normalize_scalar scope l bs) as [[? bs1]|] eqn:H1; [|done]. csimpl.
    destruct (normalize_scalar scope r bs1) as [[? bs2]|] eqn:H2; [|done]. csimpl. intros [= _ <-].
    do 2 apply specialize_free. eauto using normalize_scalar_free.
Qed.

Lemma normalize_leaf_free e bs p bs' : slots_free bs → normalize_leaf scope e bs = Some (p, bs') → slots_free bs'.
Proof.
  intros Hbs. unfold normalize_leaf.
  assert (normalize_boolean_column scope e bs = Some (p, bs') → slots_free bs') as Hbool.
  { unfold normalize_boolean_column. destruct (normalize_scalar scope e bs) as [[? bs1]|] eqn:H1; [|done]. csimpl.
    intros [= _ <-]. apply Forall_app. split; [exact (normalize_scalar_free _ _ _ _ Hbs H1)|]. by constructor. }
  assert (match parse_leaf e with
    | Err _ => None
    | Ok (LeafBooleanTest kind value) => '(v, bs) ← normalize_scalar scope value bs; Some (BooleanTest kind v, bs)
    | Ok (LeafComparison op l r) => normalize_comparison scope op l r bs
    | Ok (LeafNullTest kind value) =>
        '(v, bs) ← normalize_scalar scope value bs;
        Some (match kind with NullTestIsNull => IsNull v | NullTestIsNotNull => IsNotNull v end, bs)
    | Ok (LeafStartsWith value prefix c) => normalize_starts_with scope value prefix c bs
    end = Some (p, bs') → slots_free bs') as Hparse.
  { destruct (parse_leaf e) as [[k v|op l r|k v|v q c]|]; [| | | |done].
    1, 3: destruct (normalize_scalar scope v bs) as [[? bs1]|] eqn:H1; [|done]; csimpl; intros [= _ <-]; eauto using normalize_scalar_free.
    - by apply normalize_comparison_free.
    - by apply normalize_starts_with_free. }
  destruct e; try (destruct (_ =? BOOLOID); [exact Hbool|exact Hparse]); try exact Hparse.
  unfold normalize_in_set. destruct (_ || _); [done|].
  destruct (normalize_scalar scope _ bs) as [[? bs1]|] eqn:H1; [|done]. csimpl. destruct (negb _); [done|].
  destruct (normalize_scalar scope _ bs1) as [[? bs2]|] eqn:H2; [|done]. csimpl. destruct (is_column _); [done|].
  intros [= _ <-]. eauto using normalize_scalar_free.
Qed.

Lemma normalize_node_free e bs p bs' : slots_free bs → normalize_node scope e bs = Some (p, bs') → slots_free bs'.
Proof.
  revert bs p bs'. induction e as [e t IH|o args IH|e Hleaf] using expr_ind'; intros bs p bs' Hbs Hn; [by eapply IH|..].
  - rewrite normalize_node_bool in Hn. case_decide as Hne; [done|]. clear Hne.
    assert (∀ bs cs bs', slots_free bs → normalize_children scope args bs = Some (cs, bs') → slots_free bs') as Hchildren.
    { clear Hn Hbs bs bs' p. induction IH as [|a args Ha _ IHargs]; intros bs cs bs' Hbs; simpl; [by intros [= _ <-]|].
      destruct (normalize_node scope a bs) as [[? bs1]|] eqn:H1; [|done]. csimpl.
      destruct (normalize_children scope args bs1) as [[? bs2]|] eqn:H2; [|done]. csimpl. intros [= _ <-]. exact (IHargs _ _ _ (Ha _ _ _ Hbs H1) H2). }
    destruct (normalize_children scope args bs) as [[cs bs1]|] eqn:Hcs; [|done]. csimpl in Hn.
    assert (bs1 = bs') as <- by (destruct o, cs as [|? []]; naive_solver). eauto.
  - apply (normalize_leaf_free e bs p); [done|]. by destruct e.
Qed.

Lemma normalize_predicate_free e n : normalize_predicate scope e = Some n → slots_free (bindings n).
Proof.
  unfold normalize_predicate. destruct (normalize_node scope e []) as [[p bs]|] eqn:Hn; [|done]. csimpl.
  intros [= <-]. eapply normalize_node_free; [|exact Hn]. constructor.
Qed.

Lemma combine_free items conj n : Forall (λ n, slots_free (bindings n)) items → combine items conj = Some n → slots_free (bindings n).
Proof.
  intros Hit. unfold combine. destruct items as [|i1 [|i2 items]]; [done|by intros [= <-]; apply Forall_cons in Hit as [? _]|].
  generalize (i1 :: i2 :: items) Hit. clear Hit. intros l Hl.
  assert (∀ acc, slots_free acc.1.2 → slots_free (foldl combine_step acc l).1.2) as H.
  { induction Hl as [|m l Hm _ IH]; [done|]. intros [[[??] bs] ?] Hacc. apply IH. simpl. by apply Forall_app. }
  specialize (H ([], [], [], [])). destruct (foldl combine_step _ l) as [[[??] bs] ?]. intros [= <-]. apply H. constructor.
Qed.
End free.
