(* ===== verification/ReferenceExecutor.v ===== *)
(** * A reference executor

    An evaluator of expressions that meets the laws of [PgExecutor] over any
    backend: they are satisfiable together, and the theorems that rely on them
    apply to concrete expressions. *)

From stdpp Require Import base list strings.
From Stdlib Require Import ZArith Lia.
From S2P Require Import Prelude.
From S2P Require Import PredicateTree.
From S2P Require Import Expressions.
From S2P Require Import Normalize.
From S2P Require Import NormalizeMeaning.
Local Open Scope Z_scope.

Section reference.
Context {B : PgBackend}.
Local Notation Expr := (PgExpr PgDatum).

Definition of_tri (t : tri) : option PgDatum := PgBool <$> t.

Definition reference_operator (op : PgComparisonOp) (l r : option PgDatum) : tri :=
  match for_operator (opno op) with
  | Some _ => strict2 (pg_operator (opno op) (inputcollid op)) l r
  | None =>
      if opno op =? OID_TEXT_LIKE_OP
      then strict2 (λ l r, match l, r with PgText s, PgText p => like_text (λ _, 1%nat) p s | _, _ => false end) l r
      else strict2 (starts_with pg_scalars) l r
  end.

(** The nodes that the laws do not speak of are NULL. *)
Fixpoint reference_exec (c : EvalContext PgDatum) (e : Expr) : option PgDatum :=
  match e with
  | EVar v => ctx_row c (varno v) (varattno v)
  | EConst _ d => d
  | EParam k id _ => ctx_param c k id
  | ERelabel e _ => reference_exec c e
  | EBool AND_EXPR args => of_tri (kall (map (λ e, truth_of (reference_exec c e)) args))
  | EBool OR_EXPR args => of_tri (kany (map (λ e, truth_of (reference_exec c e)) args))
  | EBool NOT_EXPR [e] => of_tri (knot (truth_of (reference_exec c e)))
  | ENullTest NullTestIsNull _ e => Some (PgBool (bool_decide (reference_exec c e = None)))
  | ENullTest NullTestIsNotNull _ e => Some (PgBool (negb (bool_decide (reference_exec c e = None))))
  | EBooleanTest k e => Some (PgBool (boolean_test k (truth_of (reference_exec c e))))
  | EOp op [l; r] => of_tri (reference_operator op (reference_exec c l) (reference_exec c r))
  | EScalarArrayOp opno _ coll _ e a =>
      array ← reference_exec c a;
      of_tri (kany (strict2 (pg_operator opno coll) (reference_exec c e) <$> elements pg_scalars array))
  | EFunc f [arg] => (λ v, coerce v (funcresulttype f)) <$> reference_exec c arg
  | EFunc f [l; r] => of_tri (strict2 (starts_with pg_scalars) (reference_exec c l) (reference_exec c r))
  | _ => None
  end.

#[export] Instance reference_executor : PgExecutor B :=
  {| exec := reference_exec; server_utf8 := true; char_width _ := 1%nat |}.

Lemma truth_of_tri t : truth_of (of_tri t) = t.
Proof. by destruct t as [[]|]. Qed.

#[export] Instance reference_executor_laws : PgExecutorLaws reference_executor.
Proof.
  split; intros; try done; try (etransitivity; [apply truth_of_tri|]); try done.
  - change (reference_operator op (reference_exec c l) (reference_exec c r) =
      strict2 (pg_operator (opno op) (inputcollid op)) (reference_exec c l) (reference_exec c r)).
    unfold reference_operator. by rewrite H.
  - change (truth_of (reference_exec c (EScalarArrayOp opno opfuncid coll true e a)) = (array ← reference_exec c a;
      kany (strict2 (pg_operator opno coll) (reference_exec c e) <$> elements pg_scalars array))).
    cbn [reference_exec]. destruct (reference_exec c a); [|done]. apply truth_of_tri.
  - change (reference_operator op (reference_exec c l) (reference_exec c r) =
      strict2 (starts_with pg_scalars) (reference_exec c l) (reference_exec c r)).
    unfold reference_operator. by rewrite H.
  - change (reference_operator op (reference_exec c l) (reference_exec c r) =
      like_text (λ _, 1%nat) pattern <$> text_of (reference_exec c l)).
    change (reference_exec c r = Some (PgText pattern)) in H3. change (∀ d, reference_exec c l = Some d → ∃ s, d = PgText s) in H5.
    unfold reference_operator. rewrite H, H3. destruct (reference_exec c l) as [d|] eqn:Hd; [|done].
    by destruct (H5 d eq_refl) as [s ->].
Qed.

(** The type of a node; a call of a function has the type of its result. *)
Definition reference_expr_type (e : Expr) : ExprType :=
  match e with
  | EVar v => var_type v
  | EConst t _ | EParam _ _ t | ERelabel _ t => t
  | EFunc f _ => mkType (funcresulttype f) (-1) (funccollid f)
  | EOp op _ => mkType (opresulttype op) (-1) (opcollid op)
  | _ => mkType BOOLOID (-1) InvalidOid
  end.

#[export] Instance reference_nodes : PgNodes PgDatum := {| expr_type := reference_expr_type |}.

#[export] Instance reference_nodes_laws : PgNodesLaws reference_nodes.
Proof. by split. Qed.
End reference.
