(* ===== verification/FilterNegotiation.v ===== *)
(** * Negotiation of a scan's clauses

    Models lagodb-core/src/expr/pushdown/negotiate.rs, negotiation/candidate.rs,
    plan_set.rs and the contracts of contract.rs: each clause of a scan is offered
    to the provider, accepted as an exact or a conservative filter, or kept for
    PostgreSQL; conjunctions are taken apart and disjunctions widened.

    The provider is the argument [plan], the trait [FilterPushdownPlanner]; what
    PostgreSQL says of a clause is the class [PgClauses]. *)

From stdpp Require Import base list strings.
From Stdlib Require Import ZArith Lia.
From S2P Require Import Prelude.
From S2P Require Import PredicateTree.
From S2P Require Import Expressions.
From S2P Require Import IcebergPredicate.
From S2P Require Import PredicatePolicy.
From S2P Require Import ArrowCodec.
From S2P Require Import PredicateMeaning.
From S2P Require Import IcebergFilter.
From S2P Require Import Normalize.
From S2P Require Import NormalizeMeaning.
From S2P Require Import ReferenceExecutor.
Local Open Scope Z_scope.

(** ** Filter sets *)

(** What of a pushed filter the provider evaluates on each row it reads. *)
Module RowPart.
Inductive RowFilter (E : Type) := Whole | Part (e : E) | Nothing.
Arguments Whole {E}.
Arguments Part {E}.
Arguments Nothing {E}.

Definition expr {E} (r : RowFilter E) (pushed : E) : option E :=
  match r with Whole => Some pushed | Part e => Some e | Nothing => None end.
End RowPart.

Inductive FilterQualLocation := Local (index : nat) | Recheck (index : nat).

Section sets.
Context {B : PgBackend} {P : Type}.
Local Notation Expr := (PgExpr PgDatum).

Record EffectiveFilterContract := mkContract {
  contract : PushdownContract;
  effective_costing : PushdownCosting;
  row_part : RowPart.RowFilter Expr;
}.

Record NegotiatedFilter := mkNegotiated {
  filter_pushed : Expr;
  filter_planned : P;
  effective : EffectiveFilterContract;
  qual_location : FilterQualLocation;
  binding_start : nat;
  binding_count : nat;
}.

Record NegotiatedFilterSet := mkFilterSet {
  residual : list Expr;
  planned : list NegotiatedFilter;
  recheck : list Expr;
  set_bindings : list RuntimeValueExpr;
}.

Definition filter_set_new : NegotiatedFilterSet := mkFilterSet [] [] [] [].

Definition push_residual (out : NegotiatedFilterSet) (e : Expr) : NegotiatedFilterSet :=
  mkFilterSet (residual out ++ [e]) (planned out) (recheck out) (set_bindings out).

Definition set_accept (out : NegotiatedFilterSet) (original : Expr) (normalized : NormalizedPredicate)
    (artifact : P) (c : EffectiveFilterContract) : NegotiatedFilterSet :=
  let start := length (set_bindings out) in
  let count := length (bindings normalized) in
  let bs := set_bindings out ++ bindings normalized in
  if requires_recheck (contract c) then
    mkFilterSet (residual out)
      (planned out ++ [mkNegotiated (pushed_expr normalized) artifact c (Recheck (length (recheck out))) start count])
      (recheck out ++ [original]) bs
  else
    mkFilterSet (residual out ++ [original])
      (planned out ++ [mkNegotiated (pushed_expr normalized) artifact c (Local (length (residual out))) start count])
      (recheck out) bs.

(** The artifact-free copies that path costing works on. *)
Record PathPlannedFilter := mkPathFilter {
  path_pushed : Expr;
  path_row_part : RowPart.RowFilter Expr;
  path_contract : PushdownContract;
  path_costing : PushdownCosting;
}.

Record PathFilterSet := mkPathSet {
  path_residual : list Expr;
  path_planned : list PathPlannedFilter;
  path_recheck : list Expr;
}.

Definition path_filter (f : NegotiatedFilter) : PathPlannedFilter :=
  mkPathFilter (filter_pushed f) (row_part (effective f)) (contract (effective f)) (effective_costing (effective f)).

Definition path_set (out : NegotiatedFilterSet) : PathFilterSet :=
  mkPathSet (residual out) (path_filter <$> planned out) (recheck out).

Definition has_planned_filters (s : PathFilterSet) : bool := negb (bool_decide (length (path_planned s) = O)).

Definition merged (l r : PathFilterSet) : PathFilterSet :=
  mkPathSet (path_residual l ++ path_residual r) (path_planned l ++ path_planned r) (path_recheck l ++ path_recheck r).

Record FilterPlanSummary := mkSummary {
  planned_count : nat;
  exact_count : nat;
  conservative_count : nat;
  costed_count : nat;
}.

Definition from_path_set (s : PathFilterSet) : FilterPlanSummary :=
  let exact := length (filter (λ f, requires_recheck (path_contract f) = true) (path_planned s)) in
  let costed := length (filter (λ f, is_costed (path_costing f) = true) (path_planned s)) in
  mkSummary (length (path_planned s)) exact (length (path_planned s) - exact) costed.

Definition from_negotiated_set (s : NegotiatedFilterSet) : FilterPlanSummary :=
  let exact := length (filter (λ f, requires_recheck (contract (effective f)) = true) (planned s)) in
  let costed := length (filter (λ f, is_costed (effective_costing (effective f)) = true) (planned s)) in
  mkSummary (length (planned s)) exact (length (planned s) - exact) costed.
End sets.
Arguments NegotiatedFilter {B}.
Arguments NegotiatedFilterSet {B}.

(** ** Candidates *)

(** [is_exact_or_conservative]: the plans that take a whole fragment. *)
Definition plan_taken {P} (q : Filter.FilterPlan P) : option (PlannedFilter P) :=
  match q with
  | Filter.Exact p | Filter.Conservative p => Some p
  | Filter.Partial _ | Filter.Unsupported => None
  end.

Definition plan_per_row {P} (q : Filter.FilterPlan P) : bool :=
  match plan_taken q with Some p => bool_decide (filter_evaluation p = PerRow) | None => false end.

(** The second result where the first has none. *)
Definition or_else {E A} (first second : result E (option A)) : result E (option A) :=
  found ← first; match found with Some a => Ok (Some a) | None => second end.

(** The results of a loop that returns none of them as soon as one is missing. *)
Section every.
Context {E A C : Type} (f : A → result E (option C)).

Fixpoint every (l : list A) : result E (option (list C)) :=
  match l with
  | [] => Ok (Some [])
  | a :: rest =>
      found ← f a;
      match found with
      | None => Ok None
      | Some c => more ← every rest; Ok (match more with Some more => Some (c :: more) | None => None end)
      end
  end.

Lemma every_Forall2 l cs : every l = Ok (Some cs) → Forall2 (λ a c, f a = Ok (Some c)) l cs.
Proof.
  revert cs. induction l as [|a l IH]; intros cs; simpl; [by intros [= <-]|].
  destruct (f a) as [[c|]|] eqn:Ha; [|done..]. csimpl. destruct (every l) as [[more|]|]; [|done..]. csimpl.
  intros [= <-]. constructor; auto.
Qed.
End every.

(** A loop over a state. *)
Section try_fold.
Context {E A S : Type} (f : A → S → result E S).

Fixpoint try_fold (l : list A) (s : S) : result E S :=
  match l with
  | [] => Ok s
  | a :: rest => s ← f a s; try_fold rest s
  end.
End try_fold.

Section candidate.
Context {B : PgBackend} {E : Type}.
Local Notation Expr := (PgExpr PgDatum).

Record ConservativeCandidate := mkCandidate { candidate_filter : NormalizedPredicate; is_widened : bool }.

Context (normalize : Expr → option NormalizedPredicate) (accepts : PredicateFragment → result E bool).

(** The first step of [conservative_candidate]: the whole expression. *)
Definition whole_candidate (e : Expr) : result E (option ConservativeCandidate) :=
  match normalize e with
  | None => Ok None
  | Some n => accepted ← accepts (fragment n); Ok (if accepted : bool then Some (mkCandidate n false) else None)
  end.

Definition combine_candidates (children : nat) (cs : list ConservativeCandidate) (conjunction : bool)
    : option ConservativeCandidate :=
  let widened := negb (bool_decide (length cs = children)) || existsb is_widened cs in
  (λ n, mkCandidate n widened) <$> combine (candidate_filter <$> cs) conjunction.

(** [candidate_from_boolean] under the relabels, with the recursive calls of
    [conservative_candidate]. *)
Fixpoint boolean_candidate (e : Expr) : result E (option ConservativeCandidate) :=
  let child c := or_else (whole_candidate c) (boolean_candidate c) in
  match e with
  | ERelabel arg _ => boolean_candidate arg
  | EBool AND_EXPR args => cs ← collect child args; Ok (combine_candidates (length args) (omap id cs) true)
  | EBool OR_EXPR args =>
      cs ← every child args;
      Ok (match cs with Some cs => combine_candidates (length cs) cs false | None => None end)
  | _ => Ok None
  end.

Definition conservative_candidate (e : Expr) : result E (option ConservativeCandidate) :=
  or_else (whole_candidate e) (boolean_candidate e).
End candidate.

(** ** Clauses *)
Inductive ScanClauseSource := BaseRestriction | Movable.

Definition requires_movability_gate (s : ScanClauseSource) : bool :=
  match s with Movable => true | BaseRestriction => false end.

(** A [RestrictInfo]; [restrict_id] tells apart those with equal clauses. *)
Record RestrictInfo {D : Type} := mkRestrict { restrict_id : Z; clause : PgExpr D; pseudoconstant : bool }.
Arguments RestrictInfo : clear implicits.
Arguments mkRestrict {D}.

(** What PostgreSQL says of a clause and the scanned relation. *)
Class PgClauses (D : Type) := {
  restriction_is_securely_promotable : RestrictInfo D → bool;
  join_clause_is_movable_to : RestrictInfo D → bool;
  contain_volatile_functions : PgExpr D → bool;
  contain_subplans : PgExpr D → bool;
}.

Definition subtree_is_unsafe_to_push `{PgClauses D} (e : PgExpr D) : bool :=
  contain_volatile_functions e || contain_subplans e.

(** ** The negotiator *)
Section negotiate.
Context {B : PgBackend} {NB : PgNodes PgDatum} {P E : Type}.
Local Notation Expr := (PgExpr PgDatum).
Local Notation Out := (NegotiatedFilterSet P).
Context (plan : PredicateFragment → result E (Filter.FilterPlan P)) (relid : Z).

Definition normalize_relation : Expr → option NormalizedPredicate := normalize_predicate (RelationScope relid).

Definition candidate_where (accepts_plan : Filter.FilterPlan P → bool) (e : Expr)
    : result E (option ConservativeCandidate) :=
  conservative_candidate normalize_relation (λ f, q ← plan f; Ok (accepts_plan q)) e.

Definition candidate_for : Expr → result E (option ConservativeCandidate) :=
  candidate_where (λ q, match plan_taken q with Some _ => true | None => false end).

Definition negotiated_row_filter (pushed : Expr) (evaluation : FilterEvaluation) : result E (RowPart.RowFilter Expr) :=
  match evaluation with
  | PerRow => Ok RowPart.Whole
  | PruningOnly => Ok RowPart.Nothing
  | Projected =>
      found ← candidate_where plan_per_row pushed;
      Ok (match found with Some c => RowPart.Part (pushed_expr (candidate_filter c)) | None => RowPart.Nothing end)
  end.

Definition negotiator_accept (original : Expr) (n : NormalizedPredicate) (p : PlannedFilter P) (c : PushdownContract)
    (out : Out) : result E Out :=
  part ← negotiated_row_filter (pushed_expr n) (filter_evaluation p);
  Ok (set_accept out original n (predicate p) (mkContract c (filter_costing p) part)).

(** The first step of [negotiate_expr]: the whole expression. *)
Definition negotiate_whole (original : Expr) (out : Out) : result E (option Out) :=
  match normalize_relation original with
  | None => Ok None
  | Some n =>
      q ← plan (fragment n);
      match q with
      | Filter.Exact p => out ← negotiator_accept original n p ExactRowFilter out; Ok (Some out)
      | Filter.Conservative p => out ← negotiator_accept original n p ConservativePruning out; Ok (Some out)
      | Filter.Partial _ | Filter.Unsupported => Ok None
      end
  end.

Definition negotiate_disjunction (original : Expr) (args : list Expr) (out : Out) : result E Out :=
  cs ← every candidate_for args;
  match cs with
  | None => Ok (push_residual out original)
  | Some cs =>
      match combine (candidate_filter <$> cs) false with
      | None => Ok (push_residual out original)
      | Some n =>
          if negb (existsb is_widened cs) then Ok (push_residual out original)
          else
            q ← plan (fragment n);
            match plan_taken q with
            | Some p => negotiator_accept original n p ConservativePruning out
            | None => Ok (push_residual out original)
            end
      end
  end.

(** The rest of [negotiate_expr]: [e] is [original] without some relabels. *)
Fixpoint negotiate_parts (original e : Expr) (out : Out) : result E Out :=
  let child c out :=
    whole ← negotiate_whole c out;
    match whole with Some out => Ok out | None => negotiate_parts c c out end in
  match e with
  | ERelabel arg _ => negotiate_parts original arg out
  | EBool AND_EXPR args => try_fold child args out
  | EBool OR_EXPR args => negotiate_disjunction original args out
  | _ => Ok (push_residual out original)
  end.

Definition negotiate_expr (original : Expr) (out : Out) : result E Out :=
  whole ← negotiate_whole original out;
  match whole with Some out => Ok out | None => negotiate_parts original original out end.

Context {PC : PgClauses PgDatum} (source_for : RestrictInfo PgDatum → ScanClauseSource).

(** One turn of the loop of [negotiate_with_source]. *)
Definition negotiate_clause (r : RestrictInfo PgDatum) (out : Out) : result E Out :=
  if pseudoconstant r then Ok out
  else if negb (restriction_is_securely_promotable r)
          || (requires_movability_gate (source_for r) && negb (join_clause_is_movable_to r))
          || subtree_is_unsafe_to_push (clause r)
  then Ok (push_residual out (clause r))
  else negotiate_expr (clause r) out.

Definition negotiate_with_source (rs : list (RestrictInfo PgDatum)) : result E Out :=
  try_fold negotiate_clause rs filter_set_new.
End negotiate.

(** [negotiate]: one source for every clause. *)
Definition negotiate {B : PgBackend} {NB : PgNodes PgDatum} {P E} (plan : PredicateFragment → result E (Filter.FilterPlan P))
    (relid : Z) {PC : PgClauses PgDatum} (rs : list (RestrictInfo PgDatum)) (source : ScanClauseSource)
    : result E (NegotiatedFilterSet P) :=
  negotiate_with_source plan relid (λ _, source) rs.

(** ** Soundness

    On one row: which clauses are TRUE, and what each planned filter stands for. *)
Section sound.
Context {B : PgBackend} {HL : PgBackendLaws B} {NB : PgNodes PgDatum} {NL : PgNodesLaws NB}
  {X : PgExecutor B} {XL : PgExecutorLaws X} {P E : Type}.
Context (plan : PredicateFragment → result E (Filter.FilterPlan P)) (pl : IcebergFilterPlanner) (relid : Z)
  (ctx : EvalContext PgDatum) (Hutf8 : planner_utf8 pl = server_utf8).
Local Notation Expr := (PgExpr PgDatum).
Local Notation Out := (NegotiatedFilterSet P).

Definition holds (e : Expr) : Prop := truth_of (exec ctx e) = Some true.

Lemma holds_relabel e t : holds (ERelabel e t) ↔ holds e.
Proof. unfold holds. by rewrite exec_relabel. Qed.

Lemma holds_and args : args ≠ [] → holds (EBool AND_EXPR args) ↔ Forall holds args.
Proof. intros Hne. unfold holds. by rewrite exec_and, kall_true, Forall_fmap by done. Qed.

Lemma holds_or args : args ≠ [] → holds (EBool OR_EXPR args) ↔ Exists holds args.
Proof. intros Hne. unfold holds. by rewrite exec_or, kany_true, Exists_fmap by done. Qed.

(** A normalized predicate of a well-formed expression, whose slots can be filled
    before the scan. *)
Record pushable (n : NormalizedPredicate) : Prop := {
  pushable_represents : represents pl relid ctx n;
  pushable_free : slots_free relid (bindings n);
  pushable_ok : expr_ok pl relid ctx (pushed_expr n);
}.

Lemma normalize_pushable scope e n : scope_of relid scope → expr_ok pl relid ctx e → normalize_predicate scope e = Some n →
  pushable n ∧ pushed_expr n = e.
Proof.
  intros Hs Hok Hn. destruct (normalize_predicate_represents pl relid ctx Hutf8 scope Hs e n Hok Hn) as [Hr He]. split; [|done].
  split; [done|by eapply normalize_predicate_free|by rewrite He].
Qed.

Lemma combine_expr_ok items conj n : Forall (represents pl relid ctx) items → Forall (λ n, expr_ok pl relid ctx (pushed_expr n)) items →
  combine items conj = Some n → expr_ok pl relid ctx (pushed_expr n).
Proof.
  intros Hr Hok. unfold combine. destruct items as [|i1 [|i2 items]]; [done|by intros [= ->]; apply Forall_cons in Hok as [? _]|].
  destruct (combine_steps pl relid ctx (i1 :: i2 :: items) ([], [], [], []) Hr) as [_ Ha]; [by split|].
  destruct (foldl combine_step _ _) as [[[nodes values] bs] args]. simpl in Ha. intros [= <-]. apply expr_ok_bool.
  rewrite Ha. split; [done|]. exact (proj2 (Forall_fmap pushed_expr (expr_ok pl relid ctx) (i1 :: i2 :: items)) Hok).
Qed.

Lemma combine_pushable items conj n : Forall pushable items → combine items conj = Some n →
  pushable n ∧ truth_of (exec ctx (pushed_expr n)) = connective conj (truth_of ∘ exec ctx ∘ pushed_expr <$> items).
Proof.
  intros Hit Hn. assert (Forall (represents pl relid ctx) items ∧ Forall (λ n, slots_free relid (bindings n)) items ∧
    Forall (λ n, expr_ok pl relid ctx (pushed_expr n)) items) as (Hr & Hf & Hok)
    by (split_and!; (eapply Forall_impl; [exact Hit|]); by intros m []).
  destruct (combine_represents pl relid ctx items conj n Hr Hn) as [Hrep Hev]. split; [|done].
  split; [done|by eapply combine_free|by eapply combine_expr_ok].
Qed.

(** ** Candidates are implied *)
Definition implied_by (e : Expr) (c : ConservativeCandidate) : Prop :=
  pushable (candidate_filter c) ∧ (holds e → holds (pushed_expr (candidate_filter c))).

Section candidates.
Context (scope : ExpressionScope) (Hscope : scope_of relid scope) (accepts : PredicateFragment → result E bool).
Local Notation normalize := (normalize_predicate scope).

Lemma whole_candidate_implied e c : expr_ok pl relid ctx e → whole_candidate normalize accepts e = Ok (Some c) → implied_by e c.
Proof.
  intros Hok. unfold whole_candidate. destruct (normalize e) as [n|] eqn:Hn; [|done].
  destruct (accepts _) as [[]|]; [|done..]. csimpl. intros [= <-].
  destruct (normalize_pushable scope e n Hscope Hok Hn) as [Hp He]. split; [done|]. simpl. by rewrite He.
Qed.

Lemma combine_candidates_pushable k cs conj c : Forall (λ c, pushable (candidate_filter c)) cs →
  combine_candidates k cs conj = Some c →
  pushable (candidate_filter c) ∧ truth_of (exec ctx (pushed_expr (candidate_filter c)))
    = connective conj (truth_of ∘ exec ctx ∘ pushed_expr ∘ candidate_filter <$> cs).
Proof.
  intros Hcs. unfold combine_candidates. destruct (combine _ _) as [n|] eqn:Hn; [|done]. intros [= <-]. simpl.
  destruct (combine_pushable _ _ _ (proj2 (Forall_fmap _ _ _) Hcs) Hn) as [Hp Hev]. split; [done|].
  rewrite Hev. by rewrite <- list_fmap_compose.
Qed.

Lemma and_candidate_implied args founds k c : args ≠ [] → Forall2 (λ e f, ∀ w, f = Some w → implied_by e w) args founds →
  combine_candidates k (omap id founds) true = Some c → implied_by (EBool AND_EXPR args) c.
Proof.
  intros Hne Hf Hc. destruct (combine_candidates_pushable k (omap id founds) true c) as [Hp Hev]; [|done|].
  { clear Hc Hne. induction Hf as [|e [w|] args founds Hw _ IH]; csimpl; try done. constructor; [|done]. by apply (Hw w). }
  split; [done|]. rewrite holds_and by done. intros Hargs. unfold holds. rewrite Hev. apply kall_true, Forall_fmap.
  clear Hc Hev Hne Hp. induction Hf as [|e [w|] args founds Hw _ IH]; csimpl; [done| |]; apply Forall_cons in Hargs as [He Hargs]; auto.
  constructor; [|auto]. by apply (Hw w).
Qed.

Lemma or_candidate_implied args cs k c : args ≠ [] → Forall2 implied_by args cs →
  combine_candidates k cs false = Some c → implied_by (EBool OR_EXPR args) c.
Proof.
  intros Hne Hf Hc. destruct (combine_candidates_pushable k cs false c) as [Hp Hev]; [|done|].
  { clear Hc Hne. induction Hf as [|e w args cs [Hw _] _ IH]; by constructor. }
  split; [done|]. rewrite holds_or by done. intros Hargs. unfold holds. rewrite Hev. apply kany_true, Exists_fmap.
  clear Hc Hev Hne Hp. induction Hf as [|e w args cs [_ Hw] _ IH]; [by apply Exists_nil in Hargs|].
  apply Exists_cons in Hargs as [He|Hargs]; apply Exists_cons; [left; by apply Hw|right; auto].
Qed.

Lemma boolean_candidate_implied e c : expr_ok pl relid ctx e → boolean_candidate normalize accepts e = Ok (Some c) → implied_by e c.
Proof.
  revert c. induction e as [e t IH|o args IH|e Hleaf] using expr_ind'; intros c Hok.
  - intros Hc. destruct (IH c Hok Hc) as [Hp Hi]. split; [done|]. by rewrite holds_relabel.
  - apply expr_ok_bool in Hok as [Hne Hok].
    assert (Forall (λ e, ∀ w, or_else (whole_candidate normalize accepts e) (boolean_candidate normalize accepts e) = Ok (Some w) →
      implied_by e w) args) as Hchild.
    { rewrite Forall_forall in *. intros e He w. unfold or_else.
      destruct (whole_candidate normalize accepts e) as [[w'|]|] eqn:Hw; [| |done]; csimpl.
      - intros [= <-]. apply whole_candidate_implied; auto.
      - intros Hb. apply IH; auto. }
    destruct o; simpl; [| |done].
    + destruct (collect _ args) as [founds|] eqn:Hf; [|done]. csimpl. intros [= Hc]. apply collect_Forall2 in Hf.
      eapply and_candidate_implied; [done| |exact Hc]. clear Hc Hok Hne IH.
      induction Hf as [|e f args fs Hef _ IHf]; [constructor|]. apply Forall_cons in Hchild as [Hc Hcs].
      constructor; [|auto]. intros w ->. by apply Hc.
    + destruct (every _ args) as [[cs|]|] eqn:Hf; csimpl; [|done..]. intros [= Hc]. apply every_Forall2 in Hf.
      eapply or_candidate_implied; [done| |exact Hc]. clear Hc Hok Hne IH.
      induction Hf as [|e f args fs Hef _ IHf]; [constructor|]. apply Forall_cons in Hchild as [Hc Hcs]. constructor; auto.
  - by destruct e.
Qed.

Lemma conservative_candidate_implied e c : expr_ok pl relid ctx e →
  conservative_candidate normalize accepts e = Ok (Some c) → implied_by e c.
Proof.
  intros Hok. unfold conservative_candidate, or_else.
  destruct (whole_candidate normalize accepts e) as [[w|]|] eqn:Hw; [| |done]; csimpl.
  - intros [= <-]. by apply whole_candidate_implied.
  - by apply boolean_candidate_implied.
Qed.
End candidates.
(** ** What a filter set stands for *)

(** The slots of an entry. *)
Definition entry_bindings (out : Out) (f : NegotiatedFilter P) : list RuntimeValueExpr :=
  take (binding_count f) (drop (binding_start f) (set_bindings out)).

(** An entry stands for a predicate that the provider planned.  An exact one is
    the clause that is rechecked; a conservative one is implied by the clause that
    stays with PostgreSQL.  What is evaluated on each row is implied by it. *)
Record entry_ok (out : Out) (f : NegotiatedFilter P) (n : NormalizedPredicate) (q : Filter.FilterPlan P)
    (p : PlannedFilter P) : Prop := {
  entry_pushable : pushable n;
  entry_pushed : filter_pushed f = pushed_expr n;
  entry_slots : entry_bindings out f = bindings n ∧ (binding_start f + binding_count f ≤ length (set_bindings out))%nat;
  entry_plan : plan (fragment n) = Ok q ∧ plan_taken q = Some p ∧ filter_planned f = predicate p;
  entry_contract :
    match contract (effective f) with
    | ExactRowFilter => q = Filter.Exact p ∧ ∃ i, qual_location f = Recheck i ∧ recheck out !! i = Some (pushed_expr n)
    | ConservativePruning =>
        ∃ i original, qual_location f = Local i ∧ residual out !! i = Some original ∧ (holds original → holds (pushed_expr n))
    end;
  entry_part : ∀ e, row_part (effective f) = RowPart.Part e → holds (pushed_expr n) → holds e;
}.

(** A clause that is only rechecked has an exact entry. *)
Definition covered (out : Out) (e : Expr) : Prop :=
  ∃ f, f ∈ planned out ∧ contract (effective f) = ExactRowFilter ∧ filter_pushed f = e.

Definition set_ok (out : Out) : Prop :=
  Forall (λ f, ∃ n q p, entry_ok out f n q p) (planned out) ∧ Forall (covered out) (recheck out).

(** The clauses that PostgreSQL evaluates or rechecks. *)
Definition kept (out : Out) : Prop := Forall holds (residual out) ∧ Forall holds (recheck out).

Definition extends (out out' : Out) : Prop :=
  (∃ l, residual out' = residual out ++ l) ∧ (∃ l, recheck out' = recheck out ++ l) ∧
  ∃ l, set_bindings out' = set_bindings out ++ l.

Lemma entry_ok_extends out out' f n q p : extends out out' → entry_ok out f n q p → entry_ok out' f n q p.
Proof.
  intros ([lr Hr] & [lc Hc] & [lb Hb]) [Hp Hpe [Hs Hlen] Hplan Hcontract Hpart]. split; try done.
  - unfold entry_bindings in *. rewrite Hb, length_app. split; [|lia].
    rewrite drop_app_le, take_app_le by (rewrite ?length_drop; lia). done.
  - destruct (contract _).
    + destruct Hcontract as (Hq & i & Hi & Hl). split; [done|]. exists i. split; [done|]. rewrite Hc. by apply lookup_app_l_Some.
    + destruct Hcontract as (i & o & Hi & Hl & Himp). exists i, o. split_and!; [done| |done]. rewrite Hr. by apply lookup_app_l_Some.
Qed.

Lemma set_ok_extends out out' : extends out out' → set_ok out → Forall (λ f, ∃ n q p, entry_ok out' f n q p) (planned out).
Proof. intros He [Hs _]. eapply Forall_impl; [exact Hs|]. intros f (n & q & p & Hf). exists n, q, p. by eapply entry_ok_extends. Qed.

Lemma push_residual_ok out e : set_ok out → set_ok (push_residual out e) ∧ (kept (push_residual out e) ↔ kept out ∧ holds e).
Proof.
  intros Hs. split.
  - split; [|exact (proj2 Hs)].
    apply (set_ok_extends out); [|done]. split_and!; simpl; [by exists [e]|by exists []; rewrite app_nil_r..].
  - unfold kept. simpl. rewrite Forall_app, Forall_singleton. tauto.
Qed.

(** Accepting a filter for a clause it is equal to, or that implies it. *)
Lemma set_accept_ok out original n q p c : set_ok out → pushable n → plan (fragment n) = Ok q → plan_taken q = Some p →
  (∀ e, row_part c = RowPart.Part e → holds (pushed_expr n) → holds e) →
  match contract c with
  | ExactRowFilter => q = Filter.Exact p ∧ pushed_expr n = original
  | ConservativePruning => holds original → holds (pushed_expr n)
  end →
  set_ok (set_accept out original n (predicate p) c) ∧
  (kept (set_accept out original n (predicate p) c) ↔ kept out ∧ holds original).
Proof.
  intros Hs Hn Hq Hp Hpart Hc.
  assert (∀ f o, planned o = planned out ++ [f] → Forall (covered o) (recheck out)) as Hcov.
  { intros f o Hf. eapply Forall_impl; [exact (proj2 Hs)|]. intros e (g & Hg & He). exists g. split; [|done].
    rewrite Hf. apply elem_of_app. by left. }
  unfold set_accept. destruct c as [[] costing part]; simpl in *.
  - destruct Hc as [Hex <-]. split; [|unfold kept; simpl; rewrite Forall_app, Forall_singleton; tauto].
    split; simpl; [|apply Forall_app; split; [by eapply Hcov|]; apply Forall_singleton; eexists; simpl;
      split; [apply elem_of_app; right; by apply list_elem_of_singleton|done]].
    apply Forall_app. split.
    { apply (set_ok_extends out); [|done]. split_and!; simpl; [by exists []; rewrite app_nil_r|eauto..]. }
    apply Forall_singleton. exists n, q, p. split; simpl; try done.
    + unfold entry_bindings. simpl. rewrite drop_app_length, take_ge, length_app by lia. split; [done|lia].
    + split; [done|]. exists (length (recheck out)). split; [done|]. by apply list_lookup_middle.
  - split; [|unfold kept; simpl; rewrite Forall_app, Forall_singleton; tauto]. split; [|by eapply Hcov]. simpl.
    apply Forall_app. split.
    { apply (set_ok_extends out); [|done]. split_and!; simpl; [eauto|by exists []; rewrite app_nil_r|eauto]. }
    apply Forall_singleton. exists n, q, p. split; simpl; try done.
    + unfold entry_bindings. simpl. rewrite drop_app_length, take_ge, length_app by lia. split; [done|lia].
    + exists (length (residual out)), original. split_and!; [done|by apply list_lookup_middle|done].
Qed.

Lemma candidate_where_implied accepts e c : expr_ok pl relid ctx e → candidate_where plan relid accepts e = Ok (Some c) → implied_by e c.
Proof. by apply conservative_candidate_implied. Qed.

Lemma negotiator_accept_ok out out' original n q p c : set_ok out → pushable n →
  plan (fragment n) = Ok q → plan_taken q = Some p →
  match c with
  | ExactRowFilter => q = Filter.Exact p ∧ pushed_expr n = original
  | ConservativePruning => holds original → holds (pushed_expr n)
  end →
  negotiator_accept plan relid original n p c out = Ok out' → set_ok out' ∧ (kept out' ↔ kept out ∧ holds original).
Proof.
  intros Hs Hn Hq Hp Hc. unfold negotiator_accept.
  destruct (negotiated_row_filter _ _ _ _) as [part|] eqn:Hr; [|done]. csimpl. intros [= <-].
  eapply set_accept_ok; [done..| |exact Hc]. simpl. intros e ->. unfold negotiated_row_filter in Hr.
  destruct (filter_evaluation p); [done| |done]. destruct (candidate_where _ _ _ _) as [[w|]|] eqn:Hw; [|done..]. csimpl in Hr.
  injection Hr as <-. by apply (candidate_where_implied _ _ _ (pushable_ok n Hn) Hw).
Qed.

(** ** The negotiator *)
Lemma negotiate_whole_ok e out out' : expr_ok pl relid ctx e → set_ok out → negotiate_whole plan relid e out = Ok (Some out') →
  set_ok out' ∧ (kept out' ↔ kept out ∧ holds e).
Proof.
  intros Hok Hs. unfold negotiate_whole. destruct (normalize_relation relid e) as [n|] eqn:Hn; [|done].
  destruct (normalize_pushable (RelationScope relid) e n eq_refl Hok Hn) as [Hp He]. destruct (plan (fragment n)) as [q|] eqn:Hq; [|done]. csimpl.
  destruct q as [|p|p|p]; [done..| |].
  - destruct (negotiator_accept _ _ _ _ _ _ _) as [o|] eqn:Ho; [|done]. csimpl. intros [= <-].
    by eapply (negotiator_accept_ok out o e n _ p ExactRowFilter).
  - destruct (negotiator_accept _ _ _ _ _ _ _) as [o|] eqn:Ho; [|done]. csimpl. intros [= <-].
    eapply (negotiator_accept_ok out o e n _ p ConservativePruning); [done..| |done]. by rewrite He.
Qed.

Lemma negotiate_disjunction_ok original args out out' : Forall (expr_ok pl relid ctx) args → args ≠ [] →
  (holds original → Exists holds args) → set_ok out →
  negotiate_disjunction plan relid original args out = Ok out' → set_ok out' ∧ (kept out' ↔ kept out ∧ holds original).
Proof.
  intros Hok Hne Hor Hs. pose proof (push_residual_ok out original Hs) as Hres. unfold negotiate_disjunction.
  destruct (every _ args) as [[cs|]|] eqn:Hcs; csimpl; [|by intros [= <-]|done]. apply every_Forall2 in Hcs.
  destruct (combine _ _) as [n|] eqn:Hn; [|by intros [= <-]]. destruct (negb _); [by intros [= <-]|].
  destruct (plan (fragment n)) as [q|] eqn:Hq; [|done]. csimpl. destruct (plan_taken q) as [p|] eqn:Hp; [|by intros [= <-]].
  assert (Forall2 implied_by args cs) as Himp.
  { clear Hne Hor Hn. induction Hcs as [|e c args cs Hc _ IH]; [constructor|]. apply Forall_cons in Hok as [??].
    constructor; [by eapply candidate_where_implied|auto]. }
  destruct (or_candidate_implied args cs 0 (mkCandidate n (negb (bool_decide (length cs = 0%nat)) || existsb is_widened cs)) Hne Himp)
    as [Hpush Hi]; [unfold combine_candidates; by rewrite Hn|].
  intros Ha. eapply (negotiator_accept_ok out out' original n q p ConservativePruning); try done.
  intros Ho. apply Hi. rewrite holds_or by done. auto.
Qed.

(** The children of a conjunction, one after the other. *)
Lemma try_fold_ok (f : Expr → Out → result E Out) args out out' :
  Forall (λ e, ∀ out out', set_ok out → f e out = Ok out' → set_ok out' ∧ (kept out' ↔ kept out ∧ holds e)) args →
  set_ok out → try_fold f args out = Ok out' → set_ok out' ∧ (kept out' ↔ kept out ∧ Forall holds args).
Proof.
  intros HF. revert out. induction HF as [|e args He _ IH]; intros out Hs; simpl.
  { intros [= <-]. split; [done|]. rewrite Forall_nil. tauto. }
  destruct (f e out) as [o|] eqn:Ho; [|done]. csimpl. intros Hf. destruct (He _ _ Hs Ho) as [Hs1 Hk1].
  destruct (IH _ Hs1 Hf) as [Hs2 Hk2]. split; [done|]. rewrite Hk2, Hk1, Forall_cons. tauto.
Qed.

Lemma negotiate_parts_ok original e out out' : expr_ok pl relid ctx e → (holds original ↔ holds e) → set_ok out →
  negotiate_parts plan relid original e out = Ok out' → set_ok out' ∧ (kept out' ↔ kept out ∧ holds original).
Proof.
  revert original out out'. induction e as [e t IH|o args IH|e Hleaf] using expr_ind'; intros original out out' Hok Heq Hs.
  - apply IH; [done| |done]. by rewrite Heq, holds_relabel.
  - apply expr_ok_bool in Hok as [Hne Hok]. destruct o; simpl.
    + rewrite Heq, holds_and by done. apply try_fold_ok; [|done].
      rewrite Forall_forall in *. intros e He o o' Hso. simpl.
      destruct (negotiate_whole plan relid e o) as [[o1|]|] eqn:Hw; [| |done]; csimpl.
      * intros [= <-]. eapply negotiate_whole_ok; eauto.
      * apply IH; auto.
    + apply negotiate_disjunction_ok; [done..| |done]. by rewrite Heq, holds_or.
    + intros [= <-]. by apply push_residual_ok.
  - destruct e; try done; intros [= <-]; by apply push_residual_ok.
Qed.

Lemma negotiate_expr_ok e out out' : expr_ok pl relid ctx e → set_ok out → negotiate_expr plan relid e out = Ok out' →
  set_ok out' ∧ (kept out' ↔ kept out ∧ holds e).
Proof.
  intros Hok Hs. unfold negotiate_expr. destruct (negotiate_whole plan relid e out) as [[o|]|] eqn:Hw; [| |done]; csimpl.
  - intros [= <-]. by eapply negotiate_whole_ok.
  - by apply negotiate_parts_ok.
Qed.

Context {PC : PgClauses PgDatum} (source_for : RestrictInfo PgDatum → ScanClauseSource).

(** The clauses that a scan evaluates. *)
Definition scan_clauses (rs : list (RestrictInfo PgDatum)) : list Expr :=
  clause <$> filter (λ r, pseudoconstant r = false) rs.

(** Every filter of the set stands for a predicate the provider planned, and the
    clauses left to PostgreSQL together with those it rechecks are the clauses of
    the scan. *)
Lemma negotiate_sound rs out : Forall (expr_ok pl relid ctx) (scan_clauses rs) →
  negotiate_with_source plan relid source_for rs = Ok out →
  set_ok out ∧ (Forall holds (scan_clauses rs) ↔ Forall holds (residual out) ∧ Forall holds (recheck out)).
Proof.
  unfold negotiate_with_source. intros Hok.
  assert (∀ o, set_ok o → try_fold (negotiate_clause plan relid source_for) rs o = Ok out →
    set_ok out ∧ (kept out ↔ kept o ∧ Forall holds (scan_clauses rs))) as H.
  { unfold scan_clauses in *. induction rs as [|r rs IH]; intros o Ho; simpl.
    { intros [= <-]. split; [done|]. rewrite Forall_nil. tauto. }
    destruct (negotiate_clause _ _ _ _ _) as [o1|] eqn:Hc; [|done]. csimpl. unfold negotiate_clause in Hc.
    destruct (pseudoconstant r) eqn:Hps.
    { injection Hc as <-. rewrite filter_cons_False in * by congruence. by apply IH. }
    rewrite filter_cons_True in * by done. csimpl in *. apply Forall_cons in Hok as [Hr Hrs].
    assert (set_ok o1 ∧ (kept o1 ↔ kept o ∧ holds (clause r))) as [Ho1 Hk1].
    { destruct (_ || subtree_is_unsafe_to_push _); [injection Hc as <-; by apply push_residual_ok|]. by eapply negotiate_expr_ok. }
    intros Hf. destruct (IH Hrs _ Ho1 Hf) as [Hout Hk]. split; [done|]. rewrite Hk, Hk1, Forall_cons. tauto. }
  intros Hf. destruct (H filter_set_new) as [Hs Hk]; [by split; constructor|done|]. split; [done|]. fold (kept out).
  rewrite Hk. unfold kept. simpl. rewrite !Forall_nil. tauto.
Qed.

(** C10. Negotiation splits the clauses of a scan without changing them: whatever
    provider plans the fragments, on every row the clauses that stay with
    PostgreSQL and the clauses only rechecked are all TRUE if and only if every
    clause of the scan is; every filter of the set stands for a predicate that
    the provider took, is exact only for the clause it replaces, is implied by
    the clause it is planned for otherwise, and has slots of its own that do not
    depend on the scanned row; and a clause that is only rechecked has an exact
    filter. *)
Theorem negotiation_splits_clauses rs out : Forall (expr_ok pl relid ctx) (scan_clauses rs) →
  negotiate_with_source plan relid source_for rs = Ok out →
  Forall (λ f, ∃ n q p, entry_ok out f n q p) (planned out) ∧ Forall (covered out) (recheck out) ∧
  (Forall holds (scan_clauses rs) ↔ Forall holds (residual out) ∧ Forall holds (recheck out)).
Proof. intros Hok Hn. destruct (negotiate_sound rs out Hok Hn) as [[He Hc] Hk]. done. Qed.
End sound.

(** ** An example

    The scan of [id < o.x AND name LIKE 'ab%' AND id = ANY ('{5, NULL}')] below a
    nested loop over [o]: the first clause becomes a filter on an executor
    parameter, and the last one only prunes. *)
#[local] Existing Instance reference_backend.

Definition reference_clauses : PgClauses PgDatum := {|
  restriction_is_securely_promotable _ := true;
  join_clause_is_movable_to _ := true;
  contain_volatile_functions _ := false;
  contain_subplans _ := false;
|}.
#[local] Existing Instance reference_clauses.

Definition int8_array : ExprType := mkType INT8ARRAYOID (-1) InvalidOid.
Definition sample_id : PgExpr PgDatum := EVar (mkVar 1 1 int8).
Definition sample_elements : PgExpr PgDatum := EConst int8_array (Some (PgArray true [Some (PgInt8 5); None])).

Definition sample_clauses : list (RestrictInfo PgDatum) :=
  [mkRestrict 0 (EOp (mkOp 412 412 BOOLOID InvalidOid InvalidOid) [sample_id; EVar (mkVar 2 1 int8)]) false;
   mkRestrict 1 (EOp (mkOp OID_TEXT_LIKE_OP F_TEXTLIKE BOOLOID InvalidOid 950)
     [EVar (mkVar 1 2 text); EConst text (Some (PgText (ascii "ab%")))]) false;
   mkRestrict 2 (EScalarArrayOp 410 410 InvalidOid true sample_id sample_elements) false].

Definition sample_exprs : list (PgExpr PgDatum) :=
  [EParam PARAM_EXEC 3 int8; EConst text (Some (PgText (ascii "ab"))); sample_elements].

(** The sample row, below an outer row that parameter 3 holds. *)
Definition sample_context (x : option Z) : EvalContext PgDatum := mkContext
  (λ rel attno, if rel =? 1 then sample_row attno else if rel =? 2 then PgInt8 <$> x else None)
  (λ k id, match k with PARAM_EXEC => if id =? 3 then PgInt8 <$> x else None | _ => None end).

Lemma scalar_ok_var pl relid ctx v :
  (∀ d, NormalizeMeaning.ctx_row ctx (varno v) (varattno v) = Some d → has_type (var_type v) d) →
  (varno v = relid → attr_types (planner_layout pl) !! Z.to_nat (varattno v - 1) = Some (type_oid (var_type v), typmod (var_type v))) →
  scalar_ok pl relid ctx (EVar v).
Proof. intros Hd Ha. split; [exact Hd| |done]. by intros w [= <-]. Qed.

Lemma scalar_ok_const pl relid ctx t d : (∀ x, d = Some x → has_type t x) → scalar_ok pl relid ctx (EConst t d).
Proof. by intros Hd. Qed.

Lemma sample_id_ok x : scalar_ok sample_planner 1 (sample_context x) sample_id.
Proof. apply scalar_ok_var; [|reflexivity]. intros d [= <-] _. simpl. lia. Qed.

Lemma sample_clauses_ok x : - 2 ^ 63 ≤ x < 2 ^ 63 →
  Forall (expr_ok sample_planner 1 (sample_context (Some x))) (scan_clauses sample_clauses).
Proof.
  intros Hx. apply Forall_cons_2; [|apply Forall_cons_2; [|apply Forall_cons_2; [|constructor]]].
  - split; [apply sample_id_ok|]. split; [apply scalar_ok_var; [|done]; by intros d [= <-] _|]. split; [done|]. split; [done|].
    intros s [= <-]. split; by intros o [= <-].
  - split; [apply scalar_ok_var; [|reflexivity]; by intros d [= <-] _|]. split; [apply scalar_ok_const; by intros d [= <-] _|].
    split; [done|]. split; [done|]. by intros s Hs.
  - split; [apply sample_id_ok|]. split; [apply scalar_ok_const; by intros d [= <-] Hsc|]. split.
    { intros source element d y He [= <-] Hy. vm_compute in He. injection He as <-. simpl in Hy.
      apply elem_of_cons in Hy as [[= ->]|Hy]; [|by apply list_elem_of_singleton in Hy]. intros _. by vm_compute. }
    split; [done|]. intros source s [= <-]. split; [by intros o [= <-]|]. intros o Ho. vm_compute in Ho. by injection Ho as <-.
Qed.

Definition sample_out : NegotiatedFilterSet PlannedIcebergPredicate :=
  match negotiate_with_source (try_plan_filter sample_planner) 1 (λ _, Movable) sample_clauses with
  | Ok out => out
  | Err _ => filter_set_new
  end.

(** The example's first two clauses are exact and the last one stays. *)
Lemma negotiation_splits_clauses_witness : length (residual sample_out) = 1%nat ∧ length (recheck sample_out) = 2%nat ∧
  (Forall (holds (sample_context (Some 9))) (scan_clauses sample_clauses) ↔
   Forall (holds (sample_context (Some 9))) (residual sample_out) ∧ Forall (holds (sample_context (Some 9))) (recheck sample_out)).
Proof.
  split; [vm_compute; reflexivity|]. split; [vm_compute; reflexivity|].
  refine (proj2 (proj2 (negotiation_splits_clauses (try_plan_filter sample_planner) sample_planner 1 (sample_context (Some 9)) eq_refl
    (λ _, Movable) sample_clauses sample_out _ _))).
  - apply sample_clauses_ok. lia.
  - apply is_ok_Ok. vm_compute. reflexivity.
Defined.
