(* ===== verification/FilterCodec.v ===== *)
(** * Filters in a plan

    Models lagodb-core/src/expr/pushdown/codec.rs: the negotiated filters of a scan
    as lists of plan data, and their decoding when execution starts.  The provider
    is the class [FilterPushdown], after the trait of this name in contract.rs. *)

From stdpp Require Import base list strings.
From Stdlib Require Import ZArith Lia.
From S2P Require Import Prelude.
From S2P Require Import PredicateTree.
From S2P Require Import Expressions.
From S2P Require Import PlanData.
From S2P Require Import IcebergPredicate.
From S2P Require Import PredicatePolicy.
From S2P Require Import PredicateMeaning.
From S2P Require Import PredicateBinding.
From S2P Require Import IcebergFilter.
From S2P Require Import Normalize.
From S2P Require Import FilterNegotiation.
Local Open Scope Z_scope.

(** ** Providers *)
Class FilterPushdown {B : PgBackend} (P T PE : Type) := {
  provider_encode : P → PlanDataWriter → result PE PlanDataWriter;
  provider_decode : nat → Decoder PE P;
  provider_bind : P → list RuntimeValue → result PE (FilterBindResult T);
}.

(** What a provider writes it reads back, where the slots are those of the
    predicate. *)
Class FilterPushdownLaws {B : PgBackend} {P T PE} (F : FilterPushdown P T PE) (fits : nat → P → Prop) : Prop := {
  provider_codec : ∀ p w w', provider_encode p w = Ok w' → error w = None → error w' = None →
    ∃ cells, written w' = written w ++ cells ∧ ∀ count, fits count p → reads (provider_decode count) cells p;
}.

(** ** Errors *)
Inductive FilterRecordError :=
| RecordCount (found expected : nat)
| BindingRecordCount (found expected : nat)
| UnknownContract (record : nat) (value : Z)
| UnknownCosting (record : nat) (value : Z)
| BindingRangeOutOfBounds (record start end_ binding_count : nat).

Inductive FilterDataError (PE : Type) :=
| FilterPlanData (e : PlanDataError)
| FilterProvider (e : PE)
| FilterExpression (e : ExpressionCodecError)
| FilterInvalid (e : FilterRecordError).
Arguments FilterPlanData {PE}.
Arguments FilterProvider {PE}.
Arguments FilterExpression {PE}.
Arguments FilterInvalid {PE}.

#[export] Instance filter_from_plan_data {PE} : FromPlanDataError (FilterDataError PE) := FilterPlanData.

(** ** Records *)
Definition check_planned_count (found expected : nat) : result FilterRecordError nat :=
  if decide (found = expected) then Ok found else Err (RecordCount found expected).

Definition check_binding_count (found expected : nat) : result FilterRecordError nat :=
  if decide (found = expected) then Ok found else Err (BindingRecordCount found expected).

(** A range is its start and its end; the sum fits [usize]. *)
Definition binding_range (record start count binding_count : nat) : result FilterRecordError (nat * nat) :=
  let end_ := (start + count)%nat in
  if decide (end_ ≤ binding_count)%nat then Ok (start, end_)
  else Err (BindingRangeOutOfBounds record start end_ binding_count).

Definition contract_tag (c : PushdownContract) : Z :=
  match c with ExactRowFilter => 0 | ConservativePruning => 1 end.

Definition contract_from_tag (record : nat) (value : Z) : result FilterRecordError PushdownContract :=
  if value =? 0 then Ok ExactRowFilter else if value =? 1 then Ok ConservativePruning else Err (UnknownContract record value).

Definition costing_tag (c : PushdownCosting) : Z :=
  match c with LayoutPruning => 0 | UncostedBestEffort => 1 | StatisticsPruning => 2 end.

Definition costing_from_tag (record : nat) (value : Z) : result FilterRecordError PushdownCosting :=
  if value =? 0 then Ok LayoutPruning else if value =? 2 then Ok StatisticsPruning
  else if value =? 1 then Ok UncostedBestEffort else Err (UnknownCosting record value).

Record PlannedFilterRecord (P : Type) := mkRecord {
  record_planned : P;
  record_contract : PushdownContract;
  record_range : nat * nat;
}.
Arguments mkRecord {P}.
Arguments record_planned {P}.
Arguments record_contract {P}.
Arguments record_range {P}.

(** The two lists of a plan; an empty list is NIL. *)
Record EncodedFilterData := mkEncoded { encoded_planned : list Cell; encoded_bindings : list Cell }.

Section codec.
Context {B : PgBackend} {P T PE : Type} {F : FilterPushdown P T PE}.
Local Notation E := (FilterDataError PE).

(** [PlanDataWriter::encode_list] with an encoder that may fail itself. *)
Definition encode_list_with (encode : PlanDataWriter → result E PlanDataWriter) : result E (list Cell) :=
  w ← encode writer_new;
  map_err of_plan_data (into_list w).

Definition encode_record (f : NegotiatedFilter P) : result E (list Cell) :=
  payload ← encode_list_with (λ w, map_err FilterProvider (provider_encode (filter_planned f) w));
  encode_list_with (λ w, Ok
    (append_list payload
      (append_count (binding_count f)
        (append_count (binding_start f)
          (append_i32 (costing_tag (effective_costing (effective f)))
            (append_i32 (contract_tag (contract (effective f))) w)))))).

Definition encode_filters (s : NegotiatedFilterSet P) : result E EncodedFilterData :=
  records ← collect encode_record (planned s);
  bs ← encode_list_with (λ w, Ok (encode_layout (binding_metadata <$> set_bindings s) w));
  Ok (mkEncoded (list_cell <$> records) bs).

(** The errors of the provider and of the shared codec in those of this one. *)
Definition lift_errors {E1 A} (f : E1 → E) (d : Decoder E1 A) : Decoder E A := λ r, map_err f (d r).

Definition decode_record (binding_count record_index : nat) : Decoder E (PlannedFilterRecord P) :=
  contract_value ← read_i32;
  c ← lift_result (map_err FilterInvalid (contract_from_tag record_index contract_value));
  costing_value ← read_i32;
  _ ← lift_result (map_err FilterInvalid (costing_from_tag record_index costing_value));
  start ← read_count;
  count ← read_count;
  range ← lift_result (map_err FilterInvalid (binding_range record_index start count binding_count));
  p ← read_nested (lift_errors FilterProvider (provider_decode count));
  mret (mkRecord p c range).

(** [for record_index in index..index + count]. *)
Fixpoint decode_records (binding_count index count : nat) : Decoder E (list (PlannedFilterRecord P)) :=
  match count with
  | O => mret []
  | S count' =>
      r ← read_nested (decode_record binding_count index);
      rs ← decode_records binding_count (S index) count';
      mret (r :: rs)
  end.

Definition decode_planned_filters (raw : Cell) (expected_count binding_count : nat) : result E (list (PlannedFilterRecord P)) :=
  match raw with
  | CNull => _ ← map_err FilterInvalid (check_planned_count 0 expected_count); Ok []
  | _ =>
      decode_checked_list raw 0
        (n ← remaining;
         found ← lift_result (map_err FilterInvalid (check_planned_count n expected_count));
         decode_records binding_count 0 found)
  end.

Definition decode_bindings (raw : Cell) (expected_count : nat) : result E RuntimeValueLayout :=
  layout ← decode_checked_list raw 0 (lift_errors FilterExpression decode_layout);
  _ ← map_err FilterInvalid (check_binding_count (length layout) expected_count);
  Ok layout.

Definition decode_filters (planned_raw : Cell) (expected_count : nat) (bindings_raw : Cell) (expected_binding_count : nat)
    : result E (list (PlannedFilterRecord P) * RuntimeValueLayout) :=
  bs ← decode_bindings bindings_raw expected_binding_count;
  ps ← decode_planned_filters planned_raw expected_count (length bs);
  Ok (ps, bs).
End codec.

(** ** Round trip *)
Section roundtrip.
Context {B : PgBackend} {P T PE : Type} {F : FilterPushdown P T PE} (fits : nat → P → Prop) {FL : FilterPushdownLaws F fits}.
Local Notation E := (FilterDataError PE).

Lemma contract_tag_roundtrip i c : contract_from_tag i (contract_tag c) = Ok c.
Proof. by destruct c. Qed.

Lemma costing_tag_roundtrip i c : costing_from_tag i (costing_tag c) = Ok c.
Proof. by destruct c. Qed.

Lemma encode_list_with_Ok enc ok cells l : encodes enc ok cells →
  encode_list_with (PE := PE) (λ w, Ok (enc w)) = Ok l → ok ∧ l = cells.
Proof.
  intros He. pose proof (encode_list_Ok enc ok cells l He) as Hl. unfold encode_list in Hl. unfold encode_list_with. csimpl.
  destruct (into_list (enc writer_new)) as [l'|]; [|done]. simpl. intros [= ->]. by apply Hl.
Qed.

Lemma payload_reads p l : encode_list_with (λ w, map_err FilterProvider (provider_encode p w)) = Ok l →
  ∀ count, fits count p → reads (lift_errors FilterProvider (provider_decode count)) l p.
Proof.
  unfold encode_list_with. destruct (provider_encode p writer_new) as [w|] eqn:Hw; [|done]. csimpl. unfold into_list.
  destruct (error w) eqn:He; [done|]. simpl. intros [= <-] count Hf.
  destruct (provider_codec p writer_new w Hw eq_refl He) as (cells & Hc & Hr). simpl in Hc. rewrite Hc.
  intros pre post. unfold lift_errors. by rewrite (Hr count Hf).
Qed.

(** The record that decoding an entry gives. *)
Definition filter_record (f : NegotiatedFilter P) : PlannedFilterRecord P :=
  mkRecord (filter_planned f) (contract (effective f)) (binding_start f, (binding_start f + binding_count f)%nat).

Lemma reads_lift {A} (x : result E A) a : x = Ok a → reads (lift_result x) [] a.
Proof. intros -> pre post. simpl. by rewrite Nat.add_0_r. Qed.

Lemma reads_skip {A C} (m : Decoder E A) (k : A → Decoder E C) cells a c : reads m [] a → reads (k a) cells c → reads (m ≫= k) cells c.
Proof. intros Hm Hk. exact (reads_bind m k [] cells a c Hm Hk). Qed.

Lemma record_reads f l n index : encode_record f = Ok l → fits (binding_count f) (filter_planned f) →
  (binding_start f + binding_count f ≤ n)%nat → reads (decode_record n index) l (filter_record f) ∧ l ≠ [].
Proof.
  unfold encode_record. destruct (encode_list_with _) as [payload|] eqn:Hp; [|done]. csimpl. intros Hl Hf Hn.
  pose proof (payload_reads _ _ Hp _ Hf) as Hpay.
  destruct (encode_list_with_Ok _ _ _ _ (encodes_then _ _ _ _ _ _ (encodes_then _ _ _ _ _ _ (encodes_then _ _ _ _ _ _
    (encodes_then _ _ _ _ _ _ (encodes_i32 (contract_tag (contract (effective f))))
      (encodes_i32 (costing_tag (effective_costing (effective f))))) (encodes_count (binding_start f)))
    (encodes_count (binding_count f))) (encodes_list payload)) Hl) as [_ ->].
  split; [|done]. unfold decode_record. rewrite <- !app_assoc. simpl app.
  eapply reads_cons; [apply reads_i32|]. eapply reads_skip; [apply reads_lift; by rewrite contract_tag_roundtrip|].
  eapply reads_cons; [apply reads_i32|]. eapply reads_skip; [apply reads_lift; by rewrite costing_tag_roundtrip|].
  eapply reads_cons; [apply reads_count|]. eapply reads_cons; [apply reads_count|].
  eapply reads_skip; [apply reads_lift; unfold binding_range; by rewrite decide_True|].
  eapply reads_cons; [apply reads_nested, Hpay|]. apply reads_ret.
Qed.

Lemma records_read fs ls n index : Forall2 (λ f l, encode_record f = Ok l) fs ls →
  Forall (λ f, fits (binding_count f) (filter_planned f) ∧ (binding_start f + binding_count f ≤ n)%nat) fs →
  reads (decode_records n index (length fs)) (list_cell <$> ls) (filter_record <$> fs).
Proof.
  intros Hfs. revert index. induction Hfs as [|f l fs ls Hl _ IH]; intros index Hok; [apply reads_ret|].
  apply Forall_cons in Hok as [[Hf Hn] Hok]. destruct (record_reads f l n index Hl Hf Hn) as [Hr _]. csimpl.
  eapply reads_cons; [by apply reads_nested|]. eapply reads_last; [by apply IH|apply reads_ret].
Qed.

Lemma decode_remaining {A} (k : nat → Decoder E A) l : decode_list l (remaining ≫= k) = decode_list l (k (length l)).
Proof.
  unfold decode_list. assert ((remaining ≫= k) (mkReader l 0) = k (length l) (mkReader l 0)) as ->; [|done].
  unfold mbind, decoder_bind, remaining. simpl. by rewrite Nat.sub_0_r.
Qed.

Lemma decode_planned_filters_roundtrip fs ls n expected : Forall2 (λ f l, encode_record f = Ok l) fs ls →
  Forall (λ f, fits (binding_count f) (filter_planned f) ∧ (binding_start f + binding_count f ≤ n)%nat) fs →
  decode_planned_filters (list_cell (list_cell <$> ls)) expected n =
    if decide (length fs = expected) then Ok (filter_record <$> fs) else Err (FilterInvalid (RecordCount (length fs) expected)).
Proof.
  intros Hfs Hok. pose proof (Forall2_length _ _ _ Hfs) as Hlen. pose proof (records_read fs ls n 0 Hfs Hok) as Hr.
  destruct ls as [|l ls].
  { destruct fs; [|done]. simpl. unfold check_planned_count. by destruct (decide _). }
  remember (list_cell <$> l :: ls) as cells eqn:Hcells. destruct cells as [|c cells]; [done|]. simpl list_cell.
  assert (length (c :: cells) = length fs) as Hc by (by rewrite Hcells, length_fmap).
  unfold decode_planned_filters, decode_checked_list. rewrite decode_remaining, Hc. unfold check_planned_count.
  destruct (decide (length fs = expected)) as [<-|]; [|done]. apply decode_list_reads.
  eapply reads_skip; [by apply reads_lift|exact Hr].
Qed.

(** Decoding what was encoded: the envelope's counts must be those of the lists. *)
Lemma decode_encoded s d expected expected_bindings : encode_filters s = Ok d →
  layout_ok (binding_metadata <$> set_bindings s) →
  Forall (λ f, fits (binding_count f) (filter_planned f) ∧ (binding_start f + binding_count f ≤ length (set_bindings s))%nat) (planned s) →
  decode_filters (list_cell (encoded_planned d)) expected (list_cell (encoded_bindings d)) expected_bindings =
    if decide (length (set_bindings s) = expected_bindings) then
      if decide (length (planned s) = expected) then Ok (filter_record <$> planned s, binding_metadata <$> set_bindings s)
      else Err (FilterInvalid (RecordCount (length (planned s)) expected))
    else Err (FilterInvalid (BindingRecordCount (length (set_bindings s)) expected_bindings)).
Proof.
  unfold encode_filters. destruct (collect encode_record (planned s)) as [records|] eqn:Hrec; [|done]. csimpl.
  destruct (encode_list_with _) as [bs|] eqn:Hbs; [|done]. csimpl. intros [= <-] Hlayout Hok. simpl.
  destruct (encode_list_with_Ok _ _ _ _ (encodes_layout _) Hbs) as [_ ->]. apply collect_Forall2 in Hrec.
  unfold decode_filters, decode_bindings.
  assert (decode_checked_list (list_cell (layout_cells (binding_metadata <$> set_bindings s))) 0
    (lift_errors (PE := PE) FilterExpression decode_layout) = Ok (binding_metadata <$> set_bindings s)) as ->.
  { simpl. apply decode_list_reads. intros pre post. unfold lift_errors. by rewrite (reads_layout _ Hlayout). }
  csimpl. unfold check_binding_count. rewrite !length_fmap. destruct (decide _); [|done]. csimpl.
  rewrite length_fmap, (decode_planned_filters_roundtrip _ _ _ _ Hrec Hok). by destruct (decide _).
Qed.

(** C38. Decoding the filters that a plan was encoded from gives their planned
    predicates, contracts and slot ranges, and the metadata of the slots, when
    the counts in the plan's envelope are those of the lists; any other count is
    the error that names both. *)
Theorem filters_decode s d expected expected_bindings : encode_filters s = Ok d →
  layout_ok (binding_metadata <$> set_bindings s) →
  Forall (λ f, fits (binding_count f) (filter_planned f) ∧ (binding_start f + binding_count f ≤ length (set_bindings s))%nat) (planned s) →
  decode_filters (list_cell (encoded_planned d)) expected (list_cell (encoded_bindings d)) expected_bindings =
    if decide (length (set_bindings s) = expected_bindings) then
      if decide (length (planned s) = expected) then Ok (filter_record <$> planned s, binding_metadata <$> set_bindings s)
      else Err (FilterInvalid (RecordCount (length (planned s)) expected))
    else Err (FilterInvalid (BindingRecordCount (length (set_bindings s)) expected_bindings)).
Proof. apply decode_encoded. Qed.
End roundtrip.

(** ** Decoding any plan *)
Section safe.
Context {B : PgBackend} {P T PE : Type} {F : FilterPushdown P T PE}.
Local Notation E := (FilterDataError PE).

(** What holds of every value that a decoder yields. *)
Definition yields {A} (d : Decoder E A) (Q : A → Prop) : Prop := ∀ r a r', d r = Ok (a, r') → Q a.

Lemma yields_ret {A} (a : A) (Q : A → Prop) : Q a → yields (mret a) Q.
Proof. by intros HQ r x r' [= <- _]. Qed.

Lemma yields_bind {A C} (m : Decoder E A) (k : A → Decoder E C) Q R : yields m R → (∀ a, R a → yields (k a) Q) → yields (m ≫= k) Q.
Proof.
  intros Hm Hk r c r' H. unfold mbind, decoder_bind in H. destruct (m r) as [[a r1]|] eqn:Ha; [|done]. exact (Hk a (Hm _ _ _ Ha) _ _ _ H).
Qed.

Lemma yields_then {A C} (m : Decoder E A) (k : A → Decoder E C) Q : (∀ a, yields (k a) Q) → yields (m ≫= k) Q.
Proof. intros Hk. apply (yields_bind _ _ _ (λ _, True)); [done|auto]. Qed.

Lemma yields_lift {A} (x : result E A) (Q : A → Prop) : (∀ a, x = Ok a → Q a) → yields (lift_result x) Q.
Proof. intros Hx r a r'. unfold lift_result. destruct x; [|done]. intros [= <- _]. auto. Qed.

Lemma decode_list_yields {A} (d : Decoder E A) Q l a : yields d Q → decode_list l d = Ok a → Q a.
Proof.
  intros Hd. unfold decode_list. destruct (d _) as [[v r]|] eqn:Hv; [|done]. csimpl. destruct (ensure_consumed r); [|done].
  csimpl. intros [= <-]. by eapply Hd.
Qed.

Lemma yields_nested {A} (d : Decoder E A) Q : yields d Q → yields (read_nested d) Q.
Proof. intros Hd. apply yields_then. intros l. apply yields_lift. intros a. by apply decode_list_yields. Qed.

Definition in_bounds (n : nat) (r : PlannedFilterRecord P) : Prop :=
  ((record_range r).1 ≤ (record_range r).2)%nat ∧ ((record_range r).2 ≤ n)%nat.

Lemma decode_record_in_bounds n index : yields (decode_record n index) (in_bounds n).
Proof.
  unfold decode_record. do 6 (apply yields_then; intros ?).
  apply (yields_bind _ _ _ (λ range, (range.1 ≤ range.2)%nat ∧ (range.2 ≤ n)%nat)).
  - apply yields_lift. intros range. unfold binding_range. destruct (decide _); [|done]. intros [= <-]. simpl. lia.
  - intros range Hr. apply yields_then. intros p. by apply yields_ret.
Qed.

Lemma decode_records_in_bounds n count : ∀ index,
  yields (decode_records n index count) (λ rs, length rs = count ∧ Forall (in_bounds n) rs).
Proof.
  induction count as [|count IH]; intros index; [by apply yields_ret|]. cbn [decode_records].
  apply (yields_bind _ _ _ (in_bounds n)); [apply yields_nested, decode_record_in_bounds|]. intros r Hr.
  eapply yields_bind; [apply IH|]. intros rs [Hn Hrs]. apply yields_ret. split; [simpl; congruence|by constructor].
Qed.

(** C39. Whatever cells a plan holds, the filters decoded from it are as many as the
    envelope says, so are the slots, and the slots of every filter are a range of
    them: taking a filter's slots when it is bound is never out of bounds. *)
Theorem decoded_ranges_in_bounds planned_raw expected bindings_raw expected_bindings ps bs :
  decode_filters planned_raw expected bindings_raw expected_bindings = Ok (ps, bs) →
  length ps = expected ∧ length bs = expected_bindings ∧ Forall (in_bounds (length bs)) ps.
Proof.
  unfold decode_filters. destruct (decode_bindings _ _) as [l|] eqn:Hb; [|done]. csimpl.
  destruct (decode_planned_filters _ _ _) as [rs|] eqn:Hp; [|done]. csimpl. intros [= <- <-].
  assert (length l = expected_bindings) as Hl.
  { unfold decode_bindings in Hb. destruct (decode_checked_list _ _ _) as [l'|]; [|done]. csimpl in Hb.
    unfold check_binding_count in Hb. destruct (decide _); [|done]. csimpl in Hb. by injection Hb as <-. }
  assert (length rs = expected ∧ Forall (in_bounds (length l)) rs) as [Hn Hrs]; [|done].
  unfold decode_planned_filters in Hp. assert (∀ cells, decode_list cells
    (n ← remaining; found ← lift_result (map_err FilterInvalid (check_planned_count n expected)); decode_records (length l) 0 found) = Ok rs →
    length rs = expected ∧ Forall (in_bounds (length l)) rs) as Hlist.
  { intros cells. apply (decode_list_yields _ (λ rs, length rs = expected ∧ Forall (in_bounds (length l)) rs)). apply yields_then. intros n. apply (yields_bind _ _ _ (eq expected)).
    - apply yields_lift. unfold check_planned_count. intros a. destruct (decide _); [|done]. by intros [= <-].
    - intros a <-. apply decode_records_in_bounds. }
  destruct planned_raw; simpl in Hp; try done; [|by eapply Hlist]. unfold check_planned_count in Hp.
  destruct (decide _) as [<-|]; [|done]. csimpl in Hp. injection Hp as <-. by split.
Qed.
End safe.

(** ** The Iceberg provider *)
#[export] Instance iceberg_pushdown {B : PgBackend} {IE : IcebergExpr Float}
    : FilterPushdown PlannedIcebergPredicate BoundIcebergPredicate IcebergFilterError := {|
  provider_encode p w := Ok (encode_planned p w);
  provider_decode := decode_planned;
  provider_bind := bind;
|}.

#[export] Instance iceberg_pushdown_laws {B : PgBackend} {IE : IcebergExpr Float}
    : FilterPushdownLaws iceberg_pushdown (λ count p, node_valid count (planned_root p)).
Proof.
  split. simpl. intros p w w' [= <-] Hw He. destruct (encodes_planned p w) as [Hok Hcond]. destruct (Hcond He) as [_ Hfit].
  exists (planned_cells p). rewrite (Hok Hw Hfit). split; [done|]. intros count. apply reads_planned.
Qed.

(** ** The example of FilterNegotiation.v, encoded *)
#[local] Existing Instance reference_backend.
Definition sample_library : IcebergExpr Float := reference_expr (F := option Z) (@scalar_nan reference_backend).
#[local] Existing Instance sample_library.

Definition sample_data : EncodedFilterData :=
  match encode_filters (PE := IcebergFilterError) sample_out with Ok d => d | Err _ => mkEncoded [] [] end.

Definition sample_records : list (PlannedFilterRecord PlannedIcebergPredicate) := filter_record <$> planned sample_out.
Definition sample_layout : list RuntimeValueSpec := binding_metadata <$> set_bindings sample_out.

Lemma sample_layout_eq : sample_layout = [mkSpec int8 OuterValue; mkSpec text Constant; mkSpec int8_array Constant].
Proof. vm_compute. reflexivity. Qed.

Lemma sample_encodes : encode_filters (PE := IcebergFilterError) sample_out = Ok sample_data.
Proof. apply is_ok_Ok. vm_compute. reflexivity. Qed.

Lemma sample_layout_ok : layout_ok sample_layout.
Proof. rewrite sample_layout_eq. repeat constructor; discriminate. Qed.

(** With the counts of the lists, and with one record too many announced. *)
Lemma filters_decode_witness :
  decode_filters (PE := IcebergFilterError) (list_cell (encoded_planned sample_data)) 3 (list_cell (encoded_bindings sample_data)) 3
    = Ok (sample_records, sample_layout) ∧
  decode_filters (PE := IcebergFilterError) (P := PlannedIcebergPredicate) (list_cell (encoded_planned sample_data)) 4
    (list_cell (encoded_bindings sample_data)) 3 = Err (FilterInvalid (RecordCount 3 4)).
Proof.
  assert (Forall (λ f, node_valid (binding_count f) (planned_root (filter_planned f)) ∧
    (binding_start f + binding_count f ≤ length (set_bindings sample_out))%nat) (planned sample_out)) as Hfits.
  { repeat apply Forall_cons_2; [by vm_compute; repeat constructor; discriminate..|constructor]. }
  split.
  - exact (filters_decode (λ count p, node_valid count (planned_root p)) sample_out sample_data 3 3 sample_encodes sample_layout_ok Hfits).
  - exact (filters_decode (λ count p, node_valid count (planned_root p)) sample_out sample_data 4 3 sample_encodes sample_layout_ok Hfits).
Defined.

Lemma decoded_ranges_in_bounds_witness : Forall (in_bounds 3) sample_records.
Proof.
  refine (proj2 (proj2 (decoded_ranges_in_bounds (F := iceberg_pushdown) (list_cell (encoded_planned sample_data)) 3
    (list_cell (encoded_bindings sample_data)) 3 sample_records sample_layout _))).
  vm_compute. reflexivity.
Defined.
