(* ===== verification/FilterRuntime.v ===== *)
(** * Binding filters when a scan runs

    Models lagodb-core/src/expr/runtime_values.rs, expr/execution/param_refs.rs and
    expr/pushdown/runtime.rs, and the order in which fdw/scan/state.rs and
    fdw/scan/callbacks.rs call them: the values of a plan are evaluated when the
    scan begins, starts and is scanned again, and the planned filters are bound to
    them. *)

From stdpp Require Import base list strings.
From Stdlib Require Import ZArith Lia.
From S2P Require Import Prelude.
From S2P Require Import PredicateTree.
From S2P Require Import Expressions.
From S2P Require Import IcebergPredicate.
From S2P Require Import PredicateMeaning.
From S2P Require Import PredicateBinding.
From S2P Require Import IcebergFilter.
From S2P Require Import Normalize.
From S2P Require Import NormalizeMeaning.
From S2P Require Import ReferenceExecutor.
From S2P Require Import FilterNegotiation.
From S2P Require Import FilterCodec.
Local Open Scope Z_scope.

(** ** Values *)
Section values.
Context {B : PgBackend} {X : PgExecutor B}.
Local Notation Expr := (PgExpr PgDatum).

(** The [PARAM_EXEC] parameters of an expression.  The expressions bound to slots
    have no other nodes than those of [PgExpr]. *)
Fixpoint exec_param_refs (e : Expr) : list Z :=
  match e with
  | EParam PARAM_EXEC id _ => [id]
  | EOp _ args | EBool _ args | EFunc _ args => concat (map exec_param_refs args)
  | EScalarArrayOp _ _ _ _ scalar array => exec_param_refs scalar ++ exec_param_refs array
  | ENullTest _ _ arg | EBooleanTest _ arg | ERelabel arg _ => exec_param_refs arg
  | EVar _ | EConst _ _ | EParam _ _ _ | EOther _ => []
  end.

(** [bms_overlap]. *)
Definition overlap (a b : list Z) : bool := existsb (λ x, existsb (Z.eqb x) b) a.

Record RuntimeValueState := mkValues {
  values_layout : list RuntimeValueSpec;
  expr_states : list Expr;
  current_values : list RuntimeValue;
  pending_values : list RuntimeValue;
  dynamic_slots : list nat;
  param_refs : list Z;
}.

Definition is_dynamic (s : RuntimeValueSpec) : bool := negb (is_rescan_stable (source_kind s)).

(** [None] is [ExpressionCountMismatch]. *)
Definition values_initialize (layout : RuntimeValueLayout) (exprs : list Expr) : option RuntimeValueState :=
  if decide (length exprs = length layout)
  then Some (mkValues layout exprs [] []
         (fst <$> filter (λ p, is_dynamic p.2 = true) (imap pair layout)) (concat (map exec_param_refs exprs)))
  else None.

Definition has_dynamic_values (st : RuntimeValueState) : bool := negb (bool_decide (length (dynamic_slots st) = O)).

Definition evaluate (st : RuntimeValueState) (c : EvalContext PgDatum) (index : nat) (m : RuntimeValueSpec) : RuntimeValue :=
  mkValue (e ← expr_states st !! index; exec c e) m.

(** The value of every slot. *)
Definition evaluate_all (st : RuntimeValueState) (c : EvalContext PgDatum) : list RuntimeValue :=
  imap (evaluate st c) (values_layout st).

(** The slice [l[start..end]]. *)
Definition slice_of {A} (range : nat * nat) (l : list A) : list A := take (range.2 - range.1) (drop range.1 l).

Definition evaluate_range (st : RuntimeValueState) (range : nat * nat) (c : EvalContext PgDatum) : list RuntimeValue :=
  imap (λ i m, evaluate st c (range.1 + i) m) (slice_of range (values_layout st)).

Definition install_values (st : RuntimeValueState) (current pending : list RuntimeValue) : RuntimeValueState :=
  mkValues (values_layout st) (expr_states st) current pending (dynamic_slots st) (param_refs st).

Definition bind_initial (st : RuntimeValueState) (c : EvalContext PgDatum) : RuntimeValueState :=
  install_values st (evaluate_all st c) (evaluate_all st c).

(** Typed NULLs stand for the dynamic values. *)
Definition bind_initial_template (st : RuntimeValueState) (c : EvalContext PgDatum) : RuntimeValueState :=
  let vs := imap (λ i m, if is_rescan_stable (source_kind m) then evaluate st c i m else mkValue None m) (values_layout st) in
  install_values st vs vs.

(** The loop over some slots, and the swap of the two buffers. *)
Definition refresh_slot (st : RuntimeValueState) (c : EvalContext PgDatum) (pending : list RuntimeValue) (index : nat)
    : list RuntimeValue :=
  match values_layout st !! index with
  | Some m => <[index := evaluate st c index m]> pending
  | None => pending
  end.

Definition rebind_dynamic_values (st : RuntimeValueState) (c : EvalContext PgDatum) : RuntimeValueState :=
  install_values st (foldl (refresh_slot st c) (pending_values st) (dynamic_slots st)) (current_values st).

Definition rebind_complete (st : RuntimeValueState) (c : EvalContext PgDatum) : RuntimeValueState :=
  install_values st (foldl (refresh_slot st c) (pending_values st) (seq 0 (length (values_layout st)))) (current_values st).

Definition values_changed (st : RuntimeValueState) (chg : list Z) : bool := overlap chg (param_refs st).
End values.

(** ** Filters *)
Inductive RelationFilterBindingError (PE : Type) :=
| BindingCountMismatch
| BindingProvider (e : PE)
| ExactValueNotRepresentable (filter_index : nat).
Arguments BindingCountMismatch {PE}.
Arguments BindingProvider {PE}.
Arguments ExactValueNotRepresentable {PE}.

Section filters.
Context {B : PgBackend} {X : PgExecutor B} {P T PE : Type} {F : FilterPushdown P T PE}.
Local Notation Error := (RelationFilterBindingError PE).
Local Notation Planned := (PlannedFilterRecord P).

Record BoundFilter := mkBoundFilter { filter_predicate : T; rescan_stable : bool; static_values : bool }.

Record RelationFilterBinding := mkRuntime {
  rt_planned : list Planned;
  rt_values : RuntimeValueState;
  stable_records : list bool;
  bound_filters : list (option BoundFilter);
  pending_bound : list (nat * option BoundFilter);
}.

Definition all_stable (metadata : list RuntimeValueSpec) : bool := forallb (λ m, is_rescan_stable (source_kind m)) metadata.
Definition all_static (metadata : list RuntimeValueSpec) : bool := forallb (λ m, is_static (source_kind m)) metadata.

Definition runtime_initialize (planned : list Planned) (layout : RuntimeValueLayout) (exprs : list (PgExpr PgDatum))
    : result Error RelationFilterBinding :=
  match values_initialize layout exprs with
  | None => Err BindingCountMismatch
  | Some values =>
      Ok (mkRuntime planned values ((λ f, all_stable (slice_of (record_range f) layout)) <$> planned) [] [])
  end.

Definition bind_record (filter_index : nat) (f : Planned) (metadata : list RuntimeValueSpec) (values : list RuntimeValue)
    : result Error (option BoundFilter) :=
  bound ← map_err BindingProvider (provider_bind (record_planned f) values);
  match bound with
  | Bound p => Ok (Some (mkBoundFilter p (all_stable metadata) (all_static metadata)))
  | ValueNotRepresentable =>
      if requires_residual (record_contract f) then Ok None else Err (ExactValueNotRepresentable filter_index)
  end.

Definition set_bound (st : RelationFilterBinding) (b : list (option BoundFilter)) : RelationFilterBinding :=
  mkRuntime (rt_planned st) (rt_values st) (stable_records st) b (pending_bound st).

Definition set_values (st : RelationFilterBinding) (v : RuntimeValueState) : RelationFilterBinding :=
  mkRuntime (rt_planned st) v (stable_records st) (bound_filters st) (pending_bound st).

Definition is_stable_record (st : RelationFilterBinding) (index : nat) : bool := default false (stable_records st !! index).

(** The state that a failed call leaves comes with its error. *)
Fixpoint bind_stable_loop (c : EvalContext PgDatum) (index : nat) (fs : list Planned) (st : RelationFilterBinding)
    : RelationFilterBinding * result Error () :=
  match fs with
  | [] => (st, Ok ())
  | f :: rest =>
      if negb (is_stable_record st index) then bind_stable_loop c (S index) rest st
      else
        let metadata := slice_of (record_range f) (values_layout (rt_values st)) in
        let values := evaluate_range (rt_values st) (record_range f) c in
        match bind_record index f metadata values with
        | Ok b => bind_stable_loop c (S index) rest (set_bound st (<[index := b]> (bound_filters st)))
        | Err e => (st, Err e)
        end
  end.

Definition bind_stable (c : EvalContext PgDatum) (st : RelationFilterBinding) : RelationFilterBinding * result Error () :=
  bind_stable_loop c 0 (rt_planned st) (set_bound st (replicate (length (rt_planned st)) None)).

(** [bind_dynamic_records]: what it leaves in [pending] and its result. *)
Fixpoint bind_dynamic_records (st : RelationFilterBinding) (index : nat) (fs : list Planned)
    (pending : list (nat * option BoundFilter)) : list (nat * option BoundFilter) * result Error () :=
  match fs with
  | [] => (pending, Ok ())
  | f :: rest =>
      if is_stable_record st index then bind_dynamic_records st (S index) rest pending
      else
        match bind_record index f (slice_of (record_range f) (values_layout (rt_values st)))
                (slice_of (record_range f) (current_values (rt_values st))) with
        | Ok b => bind_dynamic_records st (S index) rest (pending ++ [(index, b)])
        | Err e => ([], Err e)
        end
  end.

(** The records bound to the current values replace the dynamic ones together. *)
Definition replace_dynamic (st : RelationFilterBinding) : RelationFilterBinding * result Error () :=
  let '(pending, res) := bind_dynamic_records st 0 (rt_planned st) [] in
  match res with
  | Err e => (mkRuntime (rt_planned st) (rt_values st) (stable_records st) (bound_filters st) pending, Err e)
  | Ok _ =>
      (mkRuntime (rt_planned st) (rt_values st) (stable_records st)
         (foldl (λ bound p, <[p.1 := p.2]> bound) (bound_filters st) pending) [], Ok ())
  end.

Definition bind_dynamic_initial (c : EvalContext PgDatum) (st : RelationFilterBinding) : RelationFilterBinding * result Error () :=
  if negb (has_dynamic_values (rt_values st)) then (st, Ok ())
  else replace_dynamic (set_values st (bind_initial (rt_values st) c)).

Definition rebind_dynamic (c : EvalContext PgDatum) (st : RelationFilterBinding) : RelationFilterBinding * result Error () :=
  if negb (has_dynamic_values (rt_values st)) then (st, Ok ())
  else replace_dynamic (set_values st (rebind_dynamic_values (rt_values st) c)).

Definition filters_changed (st : RelationFilterBinding) (chg : list Z) : bool := values_changed (rt_values st) chg.

Definition recheck_count (st : RelationFilterBinding) : nat :=
  length (filter (λ f, requires_recheck (record_contract f) = true) (rt_planned st)).

(** ** The calls of a foreign scan

    [provider_started] is set by a start that succeeds; a rescan before the first
    row starts the scan.  What the provider itself does afterwards in these calls
    is not part of the model: its errors end the scan. *)
Record ScanFilters := mkScanFilters { scan_runtime : RelationFilterBinding; provider_started : bool }.

Definition begin_scan (c : EvalContext PgDatum) (st : RelationFilterBinding) : ScanFilters * result Error () :=
  let '(st, res) := bind_stable c st in (mkScanFilters st false, res).

Definition start_scan (c : EvalContext PgDatum) (s : ScanFilters) : ScanFilters * result Error () :=
  if provider_started s then (s, Ok ())
  else
    let '(st, res) := bind_dynamic_initial c (scan_runtime s) in
    (mkScanFilters st (is_ok res), res).

Definition rescan (chg : list Z) (c : EvalContext PgDatum) (s : ScanFilters) : ScanFilters * result Error () :=
  if negb (provider_started s) then start_scan c s
  else if filters_changed (scan_runtime s) chg then
    let '(st, res) := rebind_dynamic c (scan_runtime s) in (mkScanFilters st true, res)
  else (s, Ok ()).
End filters.
Arguments BoundFilter : clear implicits.

(** ** The values stay current *)

(** The expressions of the slots, by what their source is: an outer value reaches
    a scan as an executor parameter. *)
Inductive slot_expr {D : Type} : RuntimeValueSource → PgExpr D → Prop :=
| slot_constant t d : slot_expr Constant (EConst t d)
| slot_external id t : slot_expr ExternalParam (EParam PARAM_EXTERN id t)
| slot_exec s id t : is_rescan_stable s = false → slot_expr s (EParam PARAM_EXEC id t)
| slot_widened s f w t e : widening_for_function (funcid f) t (funcresulttype f) = Some w →
    slot_expr s e → slot_expr s (EFunc f [e])
| slot_relabel s e t : slot_expr s e → slot_expr s (ERelabel e t).

Lemma slice_of_imap {A C} (f : nat → A → C) range l :
  slice_of range (imap f l) = imap (λ i, f (range.1 + i)%nat) (slice_of range l).
Proof.
  destruct range as [k e]. unfold slice_of. simpl. generalize (e - k)%nat as n. intros n. revert f l.
  induction k as [|k IH]; intros f l.
  - simpl. rewrite !drop_0. revert f l. induction n as [|n IH]; intros f [|x l]; simpl; [done..|]. f_equal. exact (IH (f ∘ S) l).
  - destruct l as [|x l]; simpl; [by rewrite !take_nil|]. exact (IH (f ∘ S) l).
Qed.

Lemma slice_of_lookup {A} range (l : list A) i x : slice_of range l !! i = Some x → l !! (range.1 + i)%nat = Some x.
Proof. unfold slice_of. intros [H _]%lookup_take_Some. by rewrite lookup_drop in H. Qed.

Lemma imap_ext_slots {A C} (f g : nat → A → C) l : (∀ i x, l !! i = Some x → f i x = g i x) → imap f l = imap g l.
Proof. intros H. apply list_eq. intros i. rewrite !list_lookup_imap. destruct (l !! i) as [x|] eqn:Hx; [|done]. csimpl. by rewrite (H i x). Qed.

Lemma filter_index_elem {A} (p : A → bool) (l : list A) i :
  i ∈ fst <$> filter (λ q, p q.2 = true) (imap pair l) ↔ ∃ x, l !! i = Some x ∧ p x = true.
Proof.
  rewrite list_elem_of_fmap. split.
  - intros ([j x] & -> & [Hp Hin]%list_elem_of_filter). apply elem_of_lookup_imap_1 in Hin as (k & y & [= -> ->] & Hy). by exists y.
  - intros (x & Hx & Hp). exists (i, x). split; [done|]. apply list_elem_of_filter. split; [done|].
    apply elem_of_lookup_imap_2 with (f := pair) in Hx. done.
Qed.

Section same.
Context {B : PgBackend} {X : PgExecutor B} {XL : PgExecutorLaws X}.

(** The contexts of two calls of one statement, where the executor parameters
    outside of [chg] did not change. *)
Record same_statement (c c' : EvalContext PgDatum) : Prop := {
  same_external : ∀ id, ctx_param c PARAM_EXTERN id = ctx_param c' PARAM_EXTERN id }.

Definition unchanged (chg : list Z) (c c' : EvalContext PgDatum) : Prop :=
  ∀ id, id ∉ chg → ctx_param c PARAM_EXEC id = ctx_param c' PARAM_EXEC id.

Lemma slot_same c c' s e : same_statement c c' → slot_expr s e →
  is_rescan_stable s = true ∨ (∀ id, id ∈ exec_param_refs e → ctx_param c PARAM_EXEC id = ctx_param c' PARAM_EXEC id) →
  exec c e = exec c' e.
Proof.
  intros [Hx]. induction 1 as [t d|id t|s id t Hs|s f w t e Hw _ IH|s e t _ IH]; intros Hor.
  - by rewrite !exec_const.
  - by rewrite !exec_param.
  - rewrite !exec_param. destruct Hor as [Hc|Hc]; [congruence|]. apply Hc. by left.
  - rewrite !(exec_widening _ _ _ _ _ Hw), IH; [done|]. destruct Hor as [Hc|Hc]; [by left|right].
    intros id Hid. apply Hc. simpl. by rewrite app_nil_r.
  - rewrite !exec_relabel. by apply IH.
Qed.

Lemma overlap_false a b : overlap a b = false → ∀ x, x ∈ b → x ∉ a.
Proof.
  intros H x Hb Ha. assert (overlap a b = true); [|congruence]. apply existsb_exists. exists x.
  split; [by apply list_elem_of_In|]. apply existsb_exists. exists x. split; [by apply list_elem_of_In|apply Z.eqb_refl].
Qed.
End same.

Section current.
Context {B : PgBackend} {X : PgExecutor B} {XL : PgExecutorLaws X} {P T PE : Type} {F : FilterPushdown P T PE}.
Context (planned : list (PlannedFilterRecord P)) (layout : list RuntimeValueSpec) (exprs : list (PgExpr PgDatum)).
Context (Hexprs : Forall2 (λ m e, slot_expr (source_kind m) e) layout exprs).

(** The value of every slot in a context, and the filters bound to them. *)
Definition fresh (c : EvalContext PgDatum) : list RuntimeValue :=
  imap (λ i m, mkValue (e ← exprs !! i; exec c e) m) layout.

Definition bound_at (c : EvalContext PgDatum) (i : nat) (f : PlannedFilterRecord P) : result (RelationFilterBindingError PE) (option (BoundFilter T)) :=
  bind_record i f (slice_of (record_range f) layout) (slice_of (record_range f) (fresh c)).

(** A state of the scan of this plan. *)
Definition slots_of : list nat := fst <$> filter (λ p, is_dynamic p.2 = true) (imap pair layout).
Definition refs_of : list Z := concat (map exec_param_refs exprs).
Definition stable_of : list bool := (λ f, all_stable (slice_of (record_range f) layout)) <$> planned.
Definition state_of (current pending : list RuntimeValue) (bound : list (option (BoundFilter T)))
    (pb : list (nat * option (BoundFilter T))) : RelationFilterBinding (P := P) (T := T) :=
  mkRuntime planned (mkValues layout exprs current pending slots_of refs_of) stable_of bound pb.

Lemma runtime_initialize_Ok st : runtime_initialize (PE := PE) planned layout exprs = Ok st → st = state_of [] [] [] [].
Proof. unfold runtime_initialize, values_initialize. by case_decide; intros [= <-]. Qed.

Lemma slot_of_layout i m : layout !! i = Some m → ∃ e, exprs !! i = Some e ∧ slot_expr (source_kind m) e.
Proof. intros Hm. exact (Forall2_lookup_l _ _ _ _ _ Hexprs Hm). Qed.

(** A slice of stable slots keeps its values through the statement. *)
Lemma fresh_slice_same c c' range : same_statement c c' → all_stable (slice_of range layout) = true →
  slice_of range (fresh c) = slice_of range (fresh c').
Proof.
  intros Hs Hst. unfold fresh. rewrite !slice_of_imap. apply imap_ext_slots. intros i m Hm. f_equal.
  assert (is_rescan_stable (source_kind m) = true) as Hm'.
  { apply (proj1 (forallb_forall _ _) Hst m). apply list_elem_of_In. by eapply list_elem_of_lookup_2. }
  destruct (slot_of_layout _ _ (slice_of_lookup _ _ _ _ Hm)) as (e & -> & He). csimpl. apply (slot_same c c' _ _ Hs He). by left.
Qed.

Lemma fresh_unchanged c c' chg : same_statement c c' → unchanged chg c c' → overlap chg refs_of = false → fresh c = fresh c'.
Proof.
  intros Hs Hu Ho. apply imap_ext_slots. intros i m Hm. f_equal.
  destruct (slot_of_layout _ _ Hm) as (e & Hi & He). rewrite Hi. csimpl. apply (slot_same c c' _ _ Hs He). right.
  intros id Hid. apply Hu. apply (overlap_false _ _ Ho). unfold refs_of. apply list_elem_of_In, in_concat.
  exists (exec_param_refs e). split; [apply in_map, list_elem_of_In; by eapply list_elem_of_lookup_2|by apply list_elem_of_In].
Qed.

(** ** The buffers *)
Definition buffers (c : EvalContext PgDatum) (current pending : list RuntimeValue) : Prop :=
  current = fresh c ∧ length pending = length layout ∧
  ∀ i m, layout !! i = Some m → is_dynamic m = false → pending !! i = fresh c !! i.

Lemma fresh_lookup c i m : layout !! i = Some m → fresh c !! i = Some (mkValue (e ← exprs !! i; exec c e) m).
Proof. intros Hm. unfold fresh. by rewrite list_lookup_imap, Hm. Qed.

Lemma fresh_length c : length (fresh c) = length layout.
Proof. apply length_imap. Qed.

Lemma fresh_stable_slot c c' i m : same_statement c c' → layout !! i = Some m → is_dynamic m = false → fresh c !! i = fresh c' !! i.
Proof.
  intros Hs Hm Hd. rewrite !(fresh_lookup _ _ _ Hm). do 2 f_equal. destruct (slot_of_layout _ _ Hm) as (e & -> & He). csimpl.
  apply (slot_same c c' _ _ Hs He). left. by apply negb_false_iff.
Qed.

Lemma refresh_lookup st c slots pending i : values_layout st = layout → expr_states st = exprs →
  length pending = length layout →
  foldl (refresh_slot st c) pending slots !! i = if decide (i ∈ slots) then fresh c !! i else pending !! i.
Proof.
  intros Hl He. revert pending. induction slots as [|s slots IH]; intros pending Hn; [done|]. simpl.
  assert (length (refresh_slot st c pending s) = length layout) as Hn'.
  { unfold refresh_slot. destruct (_ !! s); [by rewrite length_insert|done]. }
  rewrite (IH _ Hn'). destruct (decide (i ∈ slots)); [by rewrite decide_True by (by right)|].
  unfold refresh_slot, evaluate. rewrite Hl, He. destruct (decide (i = s)) as [->|Hne].
  - rewrite decide_True by (by left). destruct (layout !! s) as [m|] eqn:Hm.
    + rewrite (fresh_lookup c s m Hm), list_lookup_insert_eq; [done|]. rewrite Hn. by eapply lookup_lt_Some.
    + rewrite !lookup_ge_None_2; [done|..]; rewrite ?fresh_length, ?Hn; by apply lookup_ge_None.
  - rewrite decide_False by (intros [?|?]%elem_of_cons; done).
    destruct (layout !! s); [|done]. by apply list_lookup_insert_ne.
Qed.

Lemma rebind_buffers st c c' current pending : values_layout st = layout → expr_states st = exprs →
  same_statement c c' → buffers c current pending →
  buffers c' (foldl (refresh_slot st c') pending slots_of) current.
Proof.
  intros Hl He Hs (-> & Hn & Hp). split_and!; [|apply fresh_length|].
  - apply list_eq. intros i. rewrite (refresh_lookup _ _ _ _ _ Hl He Hn). case_decide as Hi; [done|].
    destruct (layout !! i) as [m|] eqn:Hm.
    + destruct (is_dynamic m) eqn:Hd; [destruct Hi; apply filter_index_elem; eauto|].
      rewrite (Hp i m Hm Hd). by eapply fresh_stable_slot.
    + rewrite !lookup_ge_None_2; [done|..]; rewrite ?fresh_length, ?Hn; by apply lookup_ge_None.
  - intros i m Hm Hd. by eapply fresh_stable_slot.
Qed.

(** ** The records *)
Definition is_stable (f : PlannedFilterRecord P) : bool := all_stable (slice_of (record_range f) layout).

Lemma is_stable_record_eq cur pen bound pb i f : planned !! i = Some f → is_stable_record (state_of cur pen bound pb) i = is_stable f.
Proof. intros Hf. unfold is_stable_record. simpl. unfold stable_of. by rewrite list_lookup_fmap, Hf. Qed.

Lemma bound_at_stable c c' i f : same_statement c c' → is_stable f = true → bound_at c i f = bound_at c' i f.
Proof. intros Hs Hf. unfold bound_at. by rewrite (fresh_slice_same c c' _ Hs Hf). Qed.

(** The records from [index] on, of those that [which] selects, are bound in [c]. *)
Definition bound_from (c : EvalContext PgDatum) (which : PlannedFilterRecord P → bool) (index : nat)
    (bound bound' : list (option (BoundFilter T))) : Prop :=
  length bound' = length bound ∧ (∀ i, (i < index)%nat → bound' !! i = bound !! i) ∧
  ∀ i f, (index ≤ i)%nat → planned !! i = Some f →
    if which f then ∃ b, bound' !! i = Some b ∧ bound_at c i f = Ok b else bound' !! i = bound !! i.

Definition fails (c : EvalContext PgDatum) (e : RelationFilterBindingError PE) : Prop :=
  ∃ i f, planned !! i = Some f ∧ bound_at c i f = Err e.

Lemma bound_from_nil c which index bound : (length planned ≤ index)%nat → bound_from c which index bound bound.
Proof. intros Hn. split_and!; [done..|]. intros i f Hi Hf. apply lookup_lt_Some in Hf. lia. Qed.

Lemma bound_from_skip c which index bound bound' f : planned !! index = Some f → which f = false →
  bound_from c which (S index) bound bound' → bound_from c which index bound bound'.
Proof.
  intros Hf Hw (Hlen & Hlt & Hge). split_and!; [done|intros; apply Hlt; lia|]. intros i g Hi Hg.
  destruct (decide (i = index)) as [->|]; [|apply Hge; [lia|done]].
  replace g with f by congruence. rewrite Hw. apply Hlt. lia.
Qed.

Lemma bound_from_take c which index bound bound' f b : planned !! index = Some f → which f = true → (index < length bound)%nat →
  bound_at c index f = Ok b → bound_from c which (S index) (<[index := b]> bound) bound' → bound_from c which index bound bound'.
Proof.
  intros Hf Hw Hn Hb (Hlen & Hlt & Hge). rewrite length_insert in Hlen.
  split_and!; [done|intros i Hi; rewrite Hlt by lia; apply list_lookup_insert_ne; lia|]. intros i g Hi Hg.
  destruct (decide (i = index)) as [->|].
  - replace g with f by congruence. rewrite Hw. exists b. split; [|done]. rewrite Hlt by lia. by apply list_lookup_insert_eq.
  - specialize (Hge i g ltac:(lia) Hg). destruct (which g); [done|]. rewrite Hge. apply list_lookup_insert_ne. lia.
Qed.

Lemma evaluate_range_fresh cur pen bound pb range c :
  evaluate_range (rt_values (state_of cur pen bound pb)) range c = slice_of range (fresh c).
Proof. unfold evaluate_range, fresh. rewrite slice_of_imap. done. Qed.

Lemma bind_stable_loop_spec c pen pb cur fs pre bound : planned = pre ++ fs → length bound = length planned →
  match bind_stable_loop (PE := PE) c (length pre) fs (state_of cur pen bound pb) with
  | (st, Ok _) => ∃ bound', st = state_of cur pen bound' pb ∧ bound_from c is_stable (length pre) bound bound'
  | (_, Err e) => fails c e
  end.
Proof.
  revert pre bound. induction fs as [|f fs IH]; intros pre bound Hpre Hn; cbn [bind_stable_loop].
  { exists bound. split; [done|]. apply bound_from_nil. by rewrite Hpre, app_nil_r. }
  assert (planned !! length pre = Some f) as Hf by (rewrite Hpre; by apply list_lookup_middle).
  rewrite (is_stable_record_eq _ _ _ _ _ _ Hf). specialize (IH (pre ++ [f])). rewrite length_app, Nat.add_comm in IH.
  destruct (is_stable f) eqn:Hs; simpl negb; cbn iota.
  - rewrite evaluate_range_fresh. change (bind_record _ _ _ _) with (bound_at c (length pre) f).
    destruct (bound_at c (length pre) f) as [b|e] eqn:Hb; [|by exists (length pre), f].
    specialize (IH (<[length pre := b]> bound)). change (set_bound _ _) with (state_of cur pen (<[length pre := b]> bound) pb).
    destruct (bind_stable_loop _ _ _ _) as [st [[]|e]]; [|apply IH; [by rewrite <- app_assoc|by rewrite length_insert]].
    destruct IH as (bound' & -> & Hb'); [by rewrite <- app_assoc|by rewrite length_insert|]. exists bound'. split; [done|].
    apply (bound_from_take c is_stable _ _ _ f b); auto. rewrite Hn. by eapply lookup_lt_Some.
  - specialize (IH bound). destruct (bind_stable_loop _ _ _ _) as [st [[]|e]]; [|apply IH; [by rewrite <- app_assoc|done]].
    destruct IH as (bound' & -> & Hb'); [by rewrite <- app_assoc|done|]. exists bound'. split; [done|]. by eapply bound_from_skip.
Qed.

Lemma bind_dynamic_records_spec c pen pb bound0 fs pre pending : planned = pre ++ fs →
  match bind_dynamic_records (PE := PE) (state_of (fresh c) pen bound0 pb) (length pre) fs pending with
  | (pending', Ok _) => ∃ new, pending' = pending ++ new ∧ ∀ bound, length bound = length planned →
      bound_from c (negb ∘ is_stable) (length pre) bound (foldl (λ b p, <[p.1 := p.2]> b) bound new)
  | (pending', Err e) => pending' = [] ∧ fails c e
  end.
Proof.
  revert pre pending. induction fs as [|f fs IH]; intros pre pending Hpre; cbn [bind_dynamic_records].
  { exists []. split; [by rewrite app_nil_r|]. intros bound Hn. apply bound_from_nil. by rewrite Hpre, app_nil_r. }
  assert (planned !! length pre = Some f) as Hf by (rewrite Hpre; by apply list_lookup_middle).
  rewrite (is_stable_record_eq _ _ _ _ _ _ Hf). specialize (IH (pre ++ [f])). rewrite length_app, Nat.add_comm in IH.
  destruct (is_stable f) eqn:Hs.
  - specialize (IH pending). destruct (bind_dynamic_records _ _ _ _) as [p' [[]|e]]; [|apply IH; by rewrite <- app_assoc].
    destruct IH as (new & -> & Hb); [by rewrite <- app_assoc|]. exists new. split; [done|]. intros bound Hn.
    apply (bound_from_skip _ _ _ _ _ f); [done|simpl; by rewrite Hs|by apply Hb].
  - change (bind_record _ _ _ _) with (bound_at c (length pre) f).
    destruct (bound_at c (length pre) f) as [b|e] eqn:Hb; [|split; [done|]; by exists (length pre), f].
    specialize (IH (pending ++ [(length pre, b)])).
    destruct (bind_dynamic_records _ _ _ _) as [p' [[]|e]]; [|apply IH; by rewrite <- app_assoc].
    destruct IH as (new & -> & Hnew); [by rewrite <- app_assoc|]. exists ((length pre, b) :: new).
    split; [by rewrite <- app_assoc|]. intros bound Hn. simpl foldl.
    apply (bound_from_take _ _ _ _ _ f b); [done|simpl; by rewrite Hs| |done|apply Hnew; by rewrite length_insert].
    rewrite Hn. by eapply lookup_lt_Some.
Qed.

Lemma replace_dynamic_spec c pen bound pb : length bound = length planned →
  match replace_dynamic (PE := PE) (state_of (fresh c) pen bound pb) with
  | (st, Ok _) => ∃ bound', st = state_of (fresh c) pen bound' [] ∧ bound_from c (negb ∘ is_stable) 0 bound bound'
  | (st, Err e) => st = state_of (fresh c) pen bound [] ∧ fails c e
  end.
Proof.
  intros Hn. unfold replace_dynamic.
  pose proof (bind_dynamic_records_spec c pen pb bound (rt_planned (state_of (fresh c) pen bound pb)) [] [] eq_refl) as H.
  cbn [length] in H. destruct (bind_dynamic_records _ _ _ _) as [pending [[]|e]].
  - destruct H as (new & -> & Hb). eexists. split; [done|]. by apply Hb.
  - destruct H as [-> Hf]. done.
Qed.

(** ** The states between the calls *)
Definition all_bound (c : EvalContext PgDatum) (which : PlannedFilterRecord P → bool) (bound : list (option (BoundFilter T))) : Prop :=
  length bound = length planned ∧
  ∀ i f, planned !! i = Some f → which f = true → ∃ b, bound !! i = Some b ∧ bound_at c i f = Ok b.

Definition begun (c : EvalContext PgDatum) (s : ScanFilters) : Prop :=
  ∃ bound, s = mkScanFilters (state_of [] [] bound []) false ∧ all_bound c is_stable bound.

Definition started (c : EvalContext PgDatum) (s : ScanFilters) : Prop :=
  ∃ current pending bound, s = mkScanFilters (state_of current pending bound []) true ∧
    all_bound c (λ _, true) bound ∧ (slots_of ≠ [] → buffers c current pending).

Lemma all_bound_stable c c' bound : same_statement c c' → all_bound c is_stable bound → all_bound c' is_stable bound.
Proof.
  intros Hs [Hn Hb]. split; [done|]. intros i f Hf Hst. destruct (Hb i f Hf Hst) as (b & Hi & Hr).
  exists b. split; [done|]. by rewrite <- (bound_at_stable c c' _ _ Hs Hst).
Qed.

Lemma all_bound_weaken c which which' bound : (∀ f, which' f = true → which f = true) →
  all_bound c which bound → all_bound c which' bound.
Proof. intros Hw [Hn Hb]. split; [done|]. eauto. Qed.

Lemma all_bound_fresh c c' which bound : fresh c = fresh c' → all_bound c which bound → all_bound c' which bound.
Proof. intros Hf [Hn Hb]. split; [done|]. intros i f Hi Hw. unfold bound_at. rewrite <- Hf. by apply Hb. Qed.

Lemma all_bound_replace c bound bound' : all_bound c is_stable bound → bound_from c (negb ∘ is_stable) 0 bound bound' →
  all_bound c (λ _, true) bound'.
Proof.
  intros [Hn Hb] (Hn' & _ & Hd). split; [congruence|]. intros i f Hf _. specialize (Hd i f ltac:(lia) Hf). simpl in Hd.
  destruct (is_stable f) eqn:Hs; simpl in Hd; [|done]. rewrite Hd. eauto.
Qed.

(** Without dynamic slots every record is stable. *)
Lemma no_slots_stable f : slots_of = [] → is_stable f = true.
Proof.
  intros H. apply forallb_forall. intros m [i Hi]%list_elem_of_In%list_elem_of_lookup_1. apply slice_of_lookup in Hi.
  destruct (is_rescan_stable (source_kind m)) eqn:Hs; [done|]. exfalso.
  apply (not_elem_of_nil ((record_range f).1 + i)%nat).
  rewrite <- H. apply filter_index_elem. exists m. split; [done|]. unfold is_dynamic. by rewrite Hs.
Qed.

Lemma has_dynamic_slots cur pen bound pb : has_dynamic_values (rt_values (state_of cur pen bound pb)) = negb (bool_decide (slots_of = [])).
Proof. unfold has_dynamic_values. simpl. f_equal. apply bool_decide_ext. split; [by intros ?%nil_length_inv|by intros ->]. Qed.

Lemma begin_scan_spec c : match begin_scan (PE := PE) c (state_of [] [] [] []) with
  | (s, Ok _) => begun c s
  | (_, Err e) => fails c e
  end.
Proof.
  unfold begin_scan, bind_stable.
  pose proof (bind_stable_loop_spec c [] [] [] planned [] (replicate (length planned) None) eq_refl ltac:(apply length_replicate)) as H.
  change (set_bound _ _) with (state_of [] [] (replicate (length planned) None) []). simpl rt_planned.
  destruct (bind_stable_loop _ _ _ _) as [st [[]|e]]; [|done]. destruct H as (bound & -> & Hn & _ & Hb).
  exists bound. split; [done|]. split; [by rewrite Hn, length_replicate|]. intros i f Hf Hs.
  specialize (Hb i f (Nat.le_0_l _) Hf). by rewrite Hs in Hb.
Qed.

Lemma start_scan_spec c c' s : same_statement c c' → begun c s →
  match start_scan (PE := PE) c' s with (s', Ok _) => started c' s' | (_, Err e) => fails c' e end.
Proof.
  intros Hs (bound & -> & Hb). apply (all_bound_stable c c' _ Hs) in Hb. unfold start_scan, bind_dynamic_initial. cbn [provider_started scan_runtime].
  rewrite has_dynamic_slots. case_bool_decide as Hd; cbn [negb].
  - exists [], [], bound. split; [done|]. split; [|done]. apply (all_bound_weaken _ is_stable); [|done].
    intros f _. by apply no_slots_stable.
  - change (set_values _ _) with (state_of (fresh c') (fresh c') bound []).
    pose proof (replace_dynamic_spec c' (fresh c') bound [] (proj1 Hb)) as H.
    destruct (replace_dynamic _) as [st [[]|e]]; [|apply H]. destruct H as (bound' & -> & Hr).
    exists (fresh c'), (fresh c'), bound'. split; [done|]. split; [by eapply all_bound_replace|]. intros _.
    split; [done|]. split; [apply fresh_length|done].
Qed.

Lemma rescan_spec chg c c' s : same_statement c c' → unchanged chg c c' → started c s →
  match rescan (PE := PE) chg c' s with
  | (s', Ok _) => started c' s'
  | (s', Err e) => fails c' e ∧ bound_filters (scan_runtime s') = bound_filters (scan_runtime s)
  end.
Proof.
  intros Hs Hu (cur & pen & bound & -> & Hb & Hbuf). unfold rescan. cbn [provider_started scan_runtime negb].
  unfold filters_changed, values_changed. change (param_refs _) with refs_of.
  destruct (overlap chg refs_of) eqn:Ho.
  - unfold rebind_dynamic. rewrite has_dynamic_slots. case_bool_decide as Hd; cbn [negb].
    + exists cur, pen, bound. split; [done|]. split; [|done]. apply (all_bound_weaken _ is_stable); [intros f _; by apply no_slots_stable|].
      apply (all_bound_stable c c' _ Hs). by apply (all_bound_weaken _ (λ _, true)).
    + destruct (rebind_buffers (rt_values (state_of cur pen bound [])) c c' cur pen eq_refl eq_refl Hs (Hbuf Hd)) as (Hcur & Hpen).
      unfold rebind_dynamic_values. change (set_values _ _) with
        (state_of (foldl (refresh_slot (rt_values (state_of cur pen bound [])) c') pen slots_of) cur bound []).
      rewrite Hcur. pose proof (replace_dynamic_spec c' cur bound [] (proj1 Hb)) as H.
      destruct (replace_dynamic _) as [st [[]|e]]; [|by destruct H as [-> ?]]. destruct H as (bound' & -> & Hr).
      exists (fresh c'), cur, bound'. split; [done|]. split; [|done]. apply (all_bound_replace _ bound); [|done].
      apply (all_bound_stable c c' _ Hs). by apply (all_bound_weaken _ (λ _, true)).
  - pose proof (fresh_unchanged c c' chg Hs Hu Ho) as Hf. exists cur, pen, bound. split; [done|].
    split; [by apply (all_bound_fresh c c')|]. intros Hd. unfold buffers. rewrite <- Hf. by apply Hbuf.
Qed.

(** ** Sequences of calls *)
Inductive ScanCall := StartScan (c : EvalContext PgDatum) | ReScan (chg : list Z) (c : EvalContext PgDatum).

Definition call_context (call : ScanCall) : EvalContext PgDatum := match call with StartScan c | ReScan _ c => c end.
Definition call_changed (call : ScanCall) : list Z := match call with StartScan _ => [] | ReScan chg _ => chg end.

Definition scan_call (call : ScanCall) (s : ScanFilters) : ScanFilters * result (RelationFilterBindingError PE) () :=
  match call with StartScan c => start_scan c s | ReScan chg c => rescan chg c s end.

(** An error ends the scan. *)
Fixpoint scan_calls (calls : list ScanCall) (s : ScanFilters) : ScanFilters * result (RelationFilterBindingError PE) () :=
  match calls with
  | [] => (s, Ok ())
  | call :: rest =>
      match scan_call call s with
      | (s', Ok _) => scan_calls rest s'
      | (s', Err e) => (s', Err e)
      end
  end.

(** One statement runs the calls; once the scan runs, an executor parameter
    changes only as [chgParam] of the next rescan tells. *)
Fixpoint linked (running : bool) (c : EvalContext PgDatum) (calls : list ScanCall) : Prop :=
  match calls with
  | [] => True
  | call :: rest => same_statement c (call_context call) ∧
      (running = true → unchanged (call_changed call) c (call_context call)) ∧ linked true (call_context call) rest
  end.

Lemma scan_call_started c s call : same_statement c (call_context call) → unchanged (call_changed call) c (call_context call) →
  started c s →
  match scan_call call s with (s', Ok _) => started (call_context call) s' | (_, Err e) => fails (call_context call) e end.
Proof.
  intros Hs Hu Hst. destruct call as [c'|chg c']; simpl in *.
  - destruct Hst as (cur & pen & bound & -> & Hb & Hbuf). cbn.
    assert (fresh c = fresh c') as Hf.
    { apply (fresh_unchanged c c' [] Hs Hu). done. }
    exists cur, pen, bound. split; [done|]. split; [by apply (all_bound_fresh c c')|]. intros Hd. unfold buffers. rewrite <- Hf. by apply Hbuf.
  - pose proof (rescan_spec chg c c' s Hs Hu Hst) as H. destruct (rescan _ _ _) as [s' [[]|e]]; [done|apply H].
Qed.

Lemma scan_calls_started calls : ∀ c s, linked true c calls → started c s →
  match scan_calls calls s with
  | (s', Ok _) => started (default c (call_context <$> last calls)) s'
  | (_, Err e) => ∃ call, call ∈ calls ∧ fails (call_context call) e
  end.
Proof.
  induction calls as [|call calls IH]; intros c s Hl Hst; [done|]. destruct Hl as (Hs & Hu & Hl). cbn [scan_calls].
  pose proof (scan_call_started c s call Hs (Hu eq_refl) Hst) as H. destruct (scan_call call s) as [s' [[]|e]].
  - specialize (IH _ _ Hl H). rewrite last_cons. destruct (scan_calls calls s') as [s'' [[]|e]].
    + by destruct (last calls).
    + destruct IH as (x & Hx & Hf). exists x. split; [by right|done].
  - exists call. split; [by left|done].
Qed.

Lemma scan_calls_begun c s call calls : begun c s → linked false c (call :: calls) →
  match scan_calls (call :: calls) s with
  | (s', Ok _) => started (call_context (default call (last calls))) s'
  | (_, Err e) => ∃ x, x ∈ call :: calls ∧ fails (call_context x) e
  end.
Proof.
  intros Hb (Hs & _ & Hl). cbn [scan_calls].
  assert (scan_call call s = start_scan (call_context call) s) as ->.
  { destruct call; [done|]. by destruct Hb as (? & -> & _). }
  pose proof (start_scan_spec c _ s Hs Hb) as H. destruct (start_scan _ _) as [s' [[]|e]].
  - pose proof (scan_calls_started calls _ _ Hl H) as IH. destruct (scan_calls calls s') as [s'' [[]|e]].
    + by destruct (last calls).
    + destruct IH as (x & Hx & Hf). exists x. split; [by right|done].
  - exists call. split; [by left|done].
Qed.

(** C13. However often a scan is started and scanned again, each of its filters is
    bound to the values that its slots have in the context of the last call; a
    call fails only when a filter cannot be bound to the values of that call. *)
Theorem scan_bindings_current c st call calls : runtime_initialize (PE := PE) planned layout exprs = Ok st →
  linked false c (call :: calls) →
  match begin_scan c st with
  | (s, Ok _) =>
      match scan_calls (call :: calls) s with
      | (s', Ok _) => ∀ i f, planned !! i = Some f → ∃ b, bound_filters (scan_runtime s') !! i = Some b ∧
          bound_at (call_context (default call (last calls))) i f = Ok b
      | (_, Err e) => ∃ x, x ∈ call :: calls ∧ fails (call_context x) e
      end
  | (_, Err e) => fails c e
  end.
Proof.
  intros ->%runtime_initialize_Ok Hl. pose proof (begin_scan_spec c) as Hb. destruct (begin_scan c _) as [s [[]|e]]; [|done].
  pose proof (scan_calls_begun c s call calls Hb Hl) as Hs. destruct (scan_calls _ s) as [s' [[]|e]]; [|done].
  destruct Hs as (cur & pen & bound & -> & [_ Hbound] & _). intros i f Hf. by apply Hbound.
Qed.
End current.

(** ** The example of FilterNegotiation.v, run

    Its scan is begun without an outer row, then run for the outer rows 4 and 9. *)
#[local] Existing Instance reference_backend.
#[local] Existing Instance sample_library.

Definition sample_calls : list ScanCall := [ReScan [3] (sample_context (Some 4)); ReScan [3] (sample_context (Some 9))].

(** The filters after the calls. *)
Definition sample_bound : option (list (option (BoundFilter BoundIcebergPredicate))) :=
  match runtime_initialize (PE := IcebergFilterError) sample_records sample_layout sample_exprs with
  | Ok st =>
      match begin_scan (sample_context None) st with
      | (s, Ok _) => match scan_calls sample_calls s with (s', Ok _) => Some (bound_filters (scan_runtime s')) | _ => None end
      | _ => None
      end
  | Err _ => None
  end.

Lemma sample_slots : Forall2 (λ m e, slot_expr (source_kind m) e) sample_layout sample_exprs.
Proof. rewrite sample_layout_eq. repeat constructor. Qed.

Lemma sample_linked : linked false (sample_context None) sample_calls.
Proof.
  split; [by constructor; reflexivity|]. split; [discriminate|]. split; [by constructor; reflexivity|]. split; [|exact I].
  intros _ id Hid. simpl. destruct (Z.eqb_spec id 3) as [->|]; [|reflexivity]. destruct Hid. by left.
Qed.

Definition sample_state : RelationFilterBinding (P := PlannedIcebergPredicate) (T := BoundIcebergPredicate) :=
  state_of sample_records sample_layout sample_exprs [] [] [] [].

(** Each filter is the one that binding it anew for the outer row 9 gives. *)
Lemma scan_bindings_current_witness : ∃ bound, sample_bound = Some bound ∧
  ∀ i f, sample_records !! i = Some f → ∃ b, bound !! i = Some b ∧
    bound_at (PE := IcebergFilterError) sample_layout sample_exprs (sample_context (Some 9)) i f = Ok b.
Proof.
  assert (runtime_initialize (PE := IcebergFilterError) sample_records sample_layout sample_exprs = Ok sample_state) as Hinit.
  { unfold runtime_initialize, values_initialize. by rewrite decide_True by (rewrite sample_layout_eq; reflexivity). }
  pose proof (scan_bindings_current (F := iceberg_pushdown) sample_records sample_layout sample_exprs sample_slots (sample_context None)
    sample_state (ReScan [3] (sample_context (Some 4))) [ReScan [3] (sample_context (Some 9))] Hinit sample_linked) as Hrun.
  assert (match sample_bound with Some _ => true | None => false end = true) as Hbound by (vm_compute; reflexivity).
  unfold sample_bound in *. rewrite Hinit in *. destruct (begin_scan _ _) as [s [[]|e]]; [|discriminate Hbound].
  fold sample_calls in Hrun. destruct (scan_calls _ _) as [s' [[]|e]]; [|discriminate Hbound].
  exists (bound_filters (scan_runtime s')). split; [reflexivity|exact Hrun].
Defined.
