(* ===== verification/PushdownScan.v ===== *)
(** * A pushed-down scan, from the clauses to the rows

    Composes the negotiation of the clauses (FilterNegotiation.v), the codec of
    the plan (FilterCodec.v), the binding of its filters (FilterRuntime.v) and the
    Iceberg provider (IcebergFilter.v): the rows that a scan returns are those on
    which every clause is TRUE. *)

From stdpp Require Import base list strings.
From Stdlib Require Import ZArith Lia.
From S2P Require Import Prelude.
From S2P Require Import Bytes.
From S2P Require Import DecimalNumeric.
From S2P Require Import PredicateTree.
From S2P Require Import Expressions.
From S2P Require Import PlanData.
From S2P Require Import IcebergPredicate.
From S2P Require Import PredicatePolicy.
From S2P Require Import ArrowCodec.
From S2P Require Import PredicateMeaning.
From S2P Require Import PredicateBinding.
From S2P Require Import IcebergFilter.
From S2P Require Import Normalize.
From S2P Require Import NormalizeMeaning.
From S2P Require Import ReferenceExecutor.
From S2P Require Import FilterNegotiation.
From S2P Require Import FilterCodec.
From S2P Require Import FilterRuntime.
Local Open Scope Z_scope.

(** ** Plans that the decoder takes *)
Section valid.
Context {B : PgBackend} (pl : IcebergFilterPlanner).

(** Names are Rust strings and widths are unsigned. *)
Record planner_typed : Prop := {
  typed_names : ∀ attno column, layout_column (planner_layout pl) attno = Ok column → utf8_valid (live_name column) = true;
  typed_widths : ∀ id field w, field_by_id (planner_schema pl) id = Some field → nested_type field = Some (TFixed w) → 0 ≤ w;
}.

Context (Htyped : planner_typed) (f : PredicateFragment).

Definition valid_plan (p : PlannedNode) : Prop := node_valid (length (runtime_values f)) (node p).

Lemma planner_column_valid attno col : planner_column pl attno = Ok (Some col) → column_valid col.
Proof.
  unfold planner_column. destruct (layout_column _ _) as [column|] eqn:Hc; [|done]. csimpl.
  pose proof (typed_names Htyped _ _ Hc) as Hn. destruct (field_by_name _ _) as [field|]; [|done]. csimpl.
  destruct (nested_type field) as [[]|]; try (by intros [= <-]).
  destruct (attr_types _ !! _); [|done]. csimpl. destruct (negb _); [done|]. by intros [= <-].
Qed.

Lemma semantics_for_type_shape t s : semantics_for_type t = Some s → decimal_of_shape (sem_precision s) (sem_scale s) = Some s.
Proof.
  intros Hs. destruct (semantics_shape t s Hs) as (_ & _ & _ & Hm & Hnew). unfold semantics_for_type in Hs.
  destruct (_ || _); [done|]. rewrite Hm in Hs. csimpl in Hs. unfold decimal_of_shape. by destruct (_ && _).
Qed.

Lemma resolve_comparison_valid c spec op res : resolve_comparison pl c spec op = Ok (Some res) →
  column_valid (resolved_column res) ∧ value_type_valid (resolved_type res).
Proof.
  unfold resolve_comparison, policy_plan_comparison. destruct (planned_value_type c spec _) as [v|] eqn:Hv; [|done]. csimpl.
  destruct (op_class _); [|done]. csimpl. destruct (capability_for_class _ _ _ _); [|done]. csimpl.
  destruct (planner_column _ _) as [[col|]|] eqn:Hcol; csimpl; [|done..]. apply planner_column_valid in Hcol.
  destruct (field_by_id _ _) as [field|] eqn:Hf; [|done]. csimpl.
  destruct (with_source_type v _) as [t|] eqn:Ht; [|done]. csimpl. intros [= <-]. split; [done|]. simpl.
  apply planned_value_type_cases in Hv. cbn zeta in Hv.
  destruct v as [| | |w| | | | | | |[]|[]| |sm|]; simpl in Hv, Ht; try done; try (by injection Ht as <-).
  all: try (destruct (nested_type field) as [[]|] eqn:Hn; try discriminate Ht; injection Ht as <-; try done; simpl; by eapply typed_widths).
  injection Ht as <-. destruct Hv as [_ [_ Hs]%for_storage_comparison_Some]. by apply (semantics_for_type_shape (spec_type spec)).
Qed.

Lemma fragment_value_lt id spec : fragment_value f id = Ok spec → (id < length (runtime_values f))%nat.
Proof. intros H%fragment_value_Ok. by apply lookup_lt_Some in H. Qed.

Lemma plan_column_valid v acc build q : (∀ c, column_valid c → shaped valid_plan valid_plan valid_plan (build c)) →
  plan_column pl v acc build = Ok q → shaped valid_plan valid_plan valid_plan q.
Proof.
  intros Hb Hq. destruct (plan_column_Ok _ _ _ _ _ Hq) as [->|(c & col & _ & _ & Hcol & ->)]; [done|].
  apply Hb. by eapply planner_column_valid.
Qed.

Lemma plan_resolved_valid op c id m q : plan_resolved pl f op c id m = Ok q → shaped valid_plan valid_plan valid_plan q.
Proof.
  unfold plan_resolved. destruct (fragment_value f id) as [spec|] eqn:Hf; [|done]. csimpl. apply fragment_value_lt in Hf.
  destruct (resolve_comparison _ _ _ _) as [[res|]|] eqn:Hr; csimpl; [|by intros [= <-]|done].
  apply resolve_comparison_valid in Hr as [Hc Ht]. intros [= <-]. by destruct (if is_fixed_binary _ then _ else _).
Qed.

Lemma leaf_plan_valid e q : is_leaf e → plan_with (adapter pl f) e = Ok q → shaped valid_plan valid_plan valid_plan q.
Proof.
  intros Hleaf Hq. destruct e; try done; simpl in Hq.
  - by injection Hq as <-.
  - by injection Hq as <-.
  - by eapply plan_column_valid; [|exact Hq].
  - by eapply plan_column_valid; [|exact Hq].
  - destruct left as [c|id], right as [c'|id']; simpl in Hq; try (by injection Hq as <-); by eapply plan_resolved_valid.
  - by eapply plan_column_valid; [|exact Hq].
  - by eapply plan_column_valid; [|exact Hq].
  - by eapply plan_column_valid; [|exact Hq].
  - by eapply plan_column_valid; [|exact Hq].
  - by eapply plan_column_valid; [|exact Hq].
  - destruct value as [c|], prefix0 as [|id]; simpl in Hq; try (by injection Hq as <-).
    destruct (fragment_value f id) as [spec|] eqn:Hf; [|done]. csimpl in Hq. apply fragment_value_lt in Hf.
    destruct (policy_plan_starts_with _ _ _); [|by injection Hq as <-].
    destruct (planner_column pl (attno c)) as [[col|]|] eqn:Hcol; csimpl in Hq; [|by injection Hq as <-|done].
    apply planner_column_valid in Hcol. by injection Hq as <-.
  - destruct value as [c|], set as [|id]; simpl in Hq; try (by injection Hq as <-).
    destruct (fragment_value f id) as [spec|] eqn:Hf; [|done]. csimpl in Hq. apply fragment_value_lt in Hf.
    destruct (negb (is_rescan_stable _)); [by injection Hq as <-|]. destruct (array_element spec); [|by injection Hq as <-].
    destruct (resolve_comparison _ _ _ _) as [[res|]|] eqn:Hr; csimpl in Hq; [|by injection Hq as <-|done].
    apply resolve_comparison_valid in Hr as [Hc Ht]. destruct (_ || _); [by injection Hq as <-|]. by injection Hq as <-.
Qed.

Lemma logical_valid (build : list Node.PlannedIcebergNode → Node.PlannedIcebergNode) combine :
  build = Node.And ∨ build = Node.Or → closed_under valid_plan valid_plan valid_plan (λ ps, logical ps combine build).
Proof.
  intros Hb ps Hne. assert (Forall valid_plan ps → valid_plan (logical ps combine build)) as H; [|done].
  intros Hps. unfold valid_plan. simpl. assert (node <$> ps ≠ []) by (by destruct ps).
  assert (Forall (node_valid (length (runtime_values f))) (node <$> ps)) by (by apply Forall_fmap).
  destruct Hb as [-> | ->]; (split; [done|]); by apply node_valid_all.
Qed.

(** What the planner makes of a fragment can be decoded with its slots. *)
Lemma planned_valid q p : try_plan_filter pl f = Ok q → plan_taken q = Some p →
  node_valid (length (runtime_values f)) (planned_root (predicate p)).
Proof.
  unfold try_plan_filter. destruct (plan_with _ _) as [q'|] eqn:Hq; [|done]. csimpl. intros [= <-].
  assert (shaped valid_plan valid_plan valid_plan q') as Hs.
  { eapply (plan_with_shaped (adapter pl f) (λ _, True)); try done.
    - intros e q0 Hl _. by apply leaf_plan_valid.
    - apply logical_valid. by left.
    - apply logical_valid. by right.
    - by apply Forall_true. }
  destruct q'; simpl; try done; by intros [= <-].
Qed.
End valid.

(** ** Rows *)
Section scan.
Context {B : PgBackend} {PT : PgTypes} {IA : IcebergArrow} {HL : PgBackendLaws B} {IAL : IcebergArrowLaws IA}.
Context {IE : IcebergExpr Float} {IEL : IcebergExprLaws IE scalar_nan}.
Context {NB : PgNodes PgDatum} {NL : PgNodesLaws NB} {X : PgExecutor B} {XL : PgExecutorLaws X} {PC : PgClauses PgDatum}.
Context (pl : IcebergFilterPlanner) (relid : Z) (Hsch : schema_indexed (planner_schema pl)) (Htyped : planner_typed pl)
  (Hutf8 : planner_utf8 pl = server_utf8).
Local Notation Out := (NegotiatedFilterSet PlannedIcebergPredicate).

(** What a scan evaluates of a bound filter on a row: files are pruned by one
    predicate, and the reader evaluates the other. *)
Definition keeps_row (present : Z → bool) (stored : StoredRow) (b : BoundFilter BoundIcebergPredicate) : Prop :=
  accepts (planner_schema pl) present (bound_predicate (filter_predicate b)) stored = true ∧
  ∀ rf, row_predicate (filter_predicate b) = Some rf → accepts (planner_schema pl) present rf stored = true.

(** The scan returns a row that the filters keep and on which the clauses left to
    PostgreSQL are TRUE. *)
Definition returns_row (out : Out) (bound : list (option (BoundFilter BoundIcebergPredicate)))
    (present : Z → bool) (stored : StoredRow) (ctx : EvalContext PgDatum) : Prop :=
  Forall (keeps_row present stored) (omap id bound) ∧ Forall (holds ctx) (residual out).

(** The slots of a representation, filled, are a context of its fragment. *)
Lemma represents_context n ctx stored values : represents pl relid ctx n → row_conforms pl stored (NormalizeMeaning.ctx_row ctx relid) →
  metadata <$> values = binding_metadata <$> bindings n → datum <$> values = exec ctx ∘ binding_expr <$> bindings n →
  RowContext pl (fragment n) stored (NormalizeMeaning.ctx_row ctx relid) values ∧
  (Forall (known_leaf pl) (leaves (root (fragment n))) →
   clause_true (fragment n) (NormalizeMeaning.ctx_row ctx relid) values ↔ holds ctx (pushed_expr n)).
Proof.
  intros [Hrv Hd] Hrow Hmeta Hdatum. destruct (Hd []) as [Htl Hev]. rewrite !app_nil_r in Htl, Hev.
  destruct (fragment n) as [p layout] eqn:Hf. simpl in *. subst layout. split.
  - split; simpl; [done|done|done|]. rewrite Hdatum. exact Htl.
  - intros Hk. unfold clause_true, holds. simpl. rewrite Hdatum. unfold env_of in Hev. by rewrite (Hev Hk).
Qed.

(** The expressions of a plan: an outer value is replaced by a parameter. *)
Definition plan_exprs (c c0 : EvalContext PgDatum) (out : Out) (exprs : list (PgExpr PgDatum)) : Prop :=
  Forall2 (λ b e, exec c e = exec c0 (binding_expr b)) (set_bindings out) exprs.

Lemma fresh_values c c0 out exprs : plan_exprs c c0 out exprs →
  let vs := fresh (binding_metadata <$> set_bindings out) exprs c in
  metadata <$> vs = binding_metadata <$> set_bindings out ∧ datum <$> vs = exec c0 ∘ binding_expr <$> set_bindings out.
Proof.
  intros He. simpl. split; apply list_eq; intros i; rewrite !list_lookup_fmap; unfold fresh; rewrite list_lookup_imap, list_lookup_fmap;
    destruct (set_bindings out !! i) as [b|] eqn:Hb; try done. csimpl.
  destruct (Forall2_lookup_l _ _ _ _ _ He Hb) as (e & Hi & Hex). rewrite Hi. csimpl. by rewrite Hex.
Qed.

Lemma slice_of_fmap {A C} (g : A → C) range l : g <$> slice_of range l = slice_of range (g <$> l).
Proof. unfold slice_of. by rewrite fmap_take, fmap_drop. Qed.

(** The values of an entry's slots are those of its predicate. *)
Lemma entry_values c c0 ctx out exprs f n q p : plan_exprs c c0 out exprs → same_outside relid c0 ctx →
  entry_ok (try_plan_filter pl) pl relid ctx out f n q p →
  let values := slice_of (record_range (filter_record f)) (fresh (binding_metadata <$> set_bindings out) exprs c) in
  metadata <$> values = binding_metadata <$> bindings n ∧ datum <$> values = exec ctx ∘ binding_expr <$> bindings n.
Proof.
  intros He Hs Hf. destruct (fresh_values c c0 out exprs He) as [Hm Hd]. destruct (entry_slots _ _ _ _ _ _ _ _ _ Hf) as [Hb _].
  cbn zeta. rewrite !slice_of_fmap, Hm, Hd, <- !slice_of_fmap.
  assert (slice_of (record_range (filter_record f)) (set_bindings out) = bindings n) as ->.
  { rewrite <- Hb. unfold slice_of, entry_bindings. simpl. by replace (binding_start f + binding_count f - binding_start f)%nat with (binding_count f) by lia. }
  split; [done|]. apply (slots_same relid); [done|]. by apply (pushable_free pl relid ctx), (entry_pushable _ _ _ _ _ _ _ _ _ Hf).
Qed.

(** An entry that is bound keeps the rows of its predicate; an exact one is bound
    and keeps no other row of a file that has the columns it bounds from above. *)
Lemma entry_rows c c0 ctx out exprs f n q p i b present stored :
  plan_exprs c c0 out exprs → same_outside relid c0 ctx → row_conforms pl stored (NormalizeMeaning.ctx_row ctx relid) →
  entry_ok (try_plan_filter pl) pl relid ctx out f n q p → fields_read present stored (filter_planned f) →
  bound_at (binding_metadata <$> set_bindings out) exprs c i (filter_record f) = Ok b →
  (holds ctx (filter_pushed f) → ∀ bf, b = Some bf → keeps_row present stored bf) ∧
  (contract (effective f) = ExactRowFilter → ∃ bf, b = Some bf ∧
    (bounds_present present (filter_planned f) → keeps_row present stored bf → holds ctx (filter_pushed f))).
Proof.
  intros He Hs Hrow Hf Hpres Hb. destruct (entry_values c c0 ctx out exprs f n q p He Hs Hf) as [Hm Hd]. unfold bound_at in Hb.
  set (values := slice_of _ (fresh _ exprs c)) in *.
  destruct (entry_plan _ _ _ _ _ _ _ _ _ Hf) as (Hq & Hp & Hfp). rewrite (entry_pushed _ _ _ _ _ _ _ _ _ Hf), Hfp in *.
  destruct (represents_context n ctx stored values) as [Hctx Hiff]; [|done..|].
  { by apply (pushable_represents pl relid ctx), (entry_pushable _ _ _ _ _ _ _ _ _ Hf). }
  assert (q = Filter.Exact p ∨ q = Filter.Conservative p) as Hqp by (destruct q; simpl in Hp; simplify_eq; auto).
  specialize (Hiff ltac:(by eapply plan_taken_known)). unfold bind_record in Hb.
  change (provider_bind _ values) with (bind (filter_planned f) values) in Hb. rewrite Hfp in Hb.
  destruct (bind (predicate p) values) as [r|] eqn:Hbind; [|done]. csimpl in Hb. split.
  - intros Htrue%Hiff bf ->. destruct r as [bp|]; [|by destruct (requires_residual _)]. injection Hb as <-.
    eapply (filter_accepts pl (fragment n) stored _ values present q p); try done; naive_solver.
  - intros Hex. pose proof (entry_contract _ _ _ _ _ _ _ _ _ Hf) as Hcon. rewrite Hex in Hcon. destruct Hcon as [-> _].
    destruct (exact_filter_binds pl (fragment n) stored _ values present p Hctx Hq Hpres) as (bp & rf & Hbp & Hrf & _ & Hacc).
    rewrite Hbind in Hbp. injection Hbp as ->. injection Hb as <-. eexists. split; [done|]. intros Hbounds [_ Hk].
    apply Hiff, Hacc; [done|]. by apply Hk.
Qed.

(** The file has the columns that the exact filters bound from above. *)
Definition exact_bounds_present (present : Z → bool) (out : Out) : Prop :=
  Forall (λ f, contract (effective f) = ExactRowFilter → bounds_present present (filter_planned f)) (planned out).

(** The clauses of a set, and the rows that its bound filters return. *)
Lemma set_rows c c0 ctx out exprs bound present stored :
  plan_exprs c c0 out exprs → same_outside relid c0 ctx → row_conforms pl stored (NormalizeMeaning.ctx_row ctx relid) →
  set_ok (try_plan_filter pl) pl relid ctx out → Forall (λ f, fields_read present stored (filter_planned f)) (planned out) →
  all_bound (filter_record <$> planned out) (binding_metadata <$> set_bindings out) exprs c (λ _, true) bound →
  (Forall (holds ctx) (residual out) ∧ Forall (holds ctx) (recheck out) → returns_row out bound present stored ctx) ∧
  (exact_bounds_present present out → returns_row out bound present stored ctx →
    Forall (holds ctx) (residual out) ∧ Forall (holds ctx) (recheck out)).
Proof.
  intros He Hs Hrow [Hent Hcov] Hpres [Hlen Hb].
  assert (∀ i f, planned out !! i = Some f → ∃ n q p b, entry_ok (try_plan_filter pl) pl relid ctx out f n q p ∧ bound !! i = Some b ∧
    (holds ctx (filter_pushed f) → ∀ bf, b = Some bf → keeps_row present stored bf) ∧
    (contract (effective f) = ExactRowFilter → ∃ bf, b = Some bf ∧
      (bounds_present present (filter_planned f) → keeps_row present stored bf → holds ctx (filter_pushed f)))) as Hrows.
  { intros i f Hf. destruct (proj1 (Forall_lookup _ _) Hent i f Hf) as (n & q & p & Hn).
    destruct (Hb i (filter_record f)) as (b & Hi & Hat); [by rewrite list_lookup_fmap, Hf|done|].
    exists n, q, p, b. split; [done|]. split; [done|].
    eapply entry_rows; [exact He|exact Hs|exact Hrow|exact Hn| |exact Hat]. exact (proj1 (Forall_lookup _ _) Hpres i f Hf). }
  unfold returns_row. split; [intros [H1 H2]|intros Hbounds [H1 H2]]; split; try done.
  - apply Forall_forall. intros bf (ob & [i Hi]%list_elem_of_lookup_1 & Hid)%list_elem_of_omap. simpl in Hid. subst ob.
    assert (is_Some (planned out !! i)) as [f Hf].
    { apply lookup_lt_is_Some. rewrite length_fmap in Hlen. rewrite <- Hlen. by eapply lookup_lt_Some. }
    destruct (Hrows i f Hf) as (n & q & p & b & Hn & Hbi & Hkeep & _). rewrite Hi in Hbi. injection Hbi as <-.
    apply Hkeep; [|done]. rewrite (entry_pushed _ _ _ _ _ _ _ _ _ Hn). pose proof (entry_contract _ _ _ _ _ _ _ _ _ Hn) as Hc.
    rewrite Forall_lookup in H1, H2. destruct (contract _).
    + destruct Hc as (_ & j & _ & Hj). by apply (H2 j).
    + destruct Hc as (j & o & _ & Hj & Himp). by apply Himp, (H1 j).
  - apply Forall_forall. intros e Hin. destruct (proj1 (Forall_forall _ _) Hcov e Hin) as (f & [i Hf]%list_elem_of_lookup_1 & Hex & <-).
    destruct (Hrows i f Hf) as (n & q & p & b & Hn & Hbi & _ & Hback). destruct (Hback Hex) as (bf & -> & Hh). apply Hh.
    { exact (proj1 (Forall_lookup _ _) Hbounds i f Hf Hex). }
    apply (proj1 (Forall_forall _ _) H1). apply list_elem_of_omap. exists (Some bf). split; [by eapply list_elem_of_lookup_2|done].
Qed.

(** The set is encoded in a plan that decodes to its records. *)
Lemma set_decodes ctx out d : set_ok (try_plan_filter pl) pl relid ctx out → encode_filters out = Ok d →
  layout_ok (binding_metadata <$> set_bindings out) →
  decode_filters (list_cell (encoded_planned d)) (length (planned out)) (list_cell (encoded_bindings d)) (length (set_bindings out)) =
    Ok (filter_record <$> planned out, binding_metadata <$> set_bindings out).
Proof.
  intros [Hent _] Hd Hl.
  rewrite (decode_encoded (λ count p, node_valid count (planned_root p)) out d (length (planned out)) (length (set_bindings out)) Hd Hl).
  { by rewrite !decide_True. }
  eapply Forall_impl; [exact Hent|]. intros f (n & q & p & Hn). destruct (entry_slots _ _ _ _ _ _ _ _ _ Hn) as [Hb Hlen]. split; [|done].
  destruct (entry_plan _ _ _ _ _ _ _ _ _ Hn) as (Hq & Hp & ->).
  pose proof (planned_valid pl Htyped (fragment n) q p Hq Hp) as Hv.
  destruct (pushable_represents pl relid ctx n (entry_pushable _ _ _ _ _ _ _ _ _ Hn)) as [Hrv _].
  assert (length (runtime_values (fragment n)) = binding_count f) as <-; [|done].
  rewrite Hrv, length_fmap, <- Hb. unfold entry_bindings. rewrite length_take, length_drop. lia.
Qed.

(** C1. The clauses of a scan, negotiated with the Iceberg provider, encoded in the
    plan and decoded from it, give filters that are bound when the scan begins, is
    started and is scanned again; whatever sequence of such calls led to the
    current parameters, the scan then returns a stored row (one that the bound
    filters keep and on which the clauses left to PostgreSQL are TRUE) whenever
    every clause is TRUE on the row, also when the row's file lacks columns, which
    read as NULL.  Every row that it returns has all clauses TRUE if the file has
    the columns that the exact filters compare by [<] or [<=]
    ([exact_bounds_present]); the rows of a file without them, written before ADD
    COLUMN, are the exception that the policy reports.  A call fails only when a
    filter cannot be bound to the values of that call. *)
Theorem pushdown_scan_returns source_for rs out d exprs cb c0 call calls :
  negotiate_with_source (try_plan_filter pl) relid source_for rs = Ok out →
  Forall (expr_ok pl relid c0) (scan_clauses rs) →
  encode_filters out = Ok d → layout_ok (binding_metadata <$> set_bindings out) →
  Forall2 (λ m e, slot_expr (source_kind m) e) (binding_metadata <$> set_bindings out) exprs →
  linked false cb (call :: calls) →
  let c := call_context (default call (last calls)) in
  plan_exprs c c0 out exprs →
  ∃ records layout st,
    decode_filters (list_cell (encoded_planned d)) (length (planned out)) (list_cell (encoded_bindings d)) (length (set_bindings out))
      = Ok (records, layout) ∧
    runtime_initialize (PE := IcebergFilterError) records layout exprs = Ok st ∧
    match begin_scan cb st with
    | (s, Ok _) =>
        match scan_calls (call :: calls) s with
        | (s', Ok _) => ∀ ctx stored present, same_outside relid c0 ctx →
            row_conforms pl stored (NormalizeMeaning.ctx_row ctx relid) → Forall (expr_ok pl relid ctx) (scan_clauses rs) →
            Forall (λ f, fields_read present stored (filter_planned f)) (planned out) →
            (Forall (holds ctx) (scan_clauses rs) → returns_row out (bound_filters (scan_runtime s')) present stored ctx) ∧
            (exact_bounds_present present out →
             returns_row out (bound_filters (scan_runtime s')) present stored ctx → Forall (holds ctx) (scan_clauses rs))
        | (_, Err e) => ∃ x, x ∈ call :: calls ∧ fails records layout exprs (call_context x) e
        end
    | (_, Err e) => fails records layout exprs cb e
    end.
Proof.
  intros Hneg Hok Hd Hl Hslots Hlink c He.
  destruct (negotiate_sound (try_plan_filter pl) pl relid c0 Hutf8 source_for rs out Hok Hneg) as [Hset _].
  exists (filter_record <$> planned out), (binding_metadata <$> set_bindings out). eexists.
  split; [exact (set_decodes c0 out d Hset Hd Hl)|]. split.
  { unfold runtime_initialize, values_initialize. rewrite decide_True; [reflexivity|]. symmetry. by eapply Forall2_length. }
  pose proof (begin_scan_spec (filter_record <$> planned out) (binding_metadata <$> set_bindings out) exprs cb) as Hb.
  unfold state_of, slots_of, refs_of, stable_of in Hb.
  destruct (begin_scan cb _) as [s [[]|e]]; [|exact Hb].
  pose proof (scan_calls_begun _ _ exprs Hslots cb s call calls Hb Hlink) as Hs.
  destruct (scan_calls _ s) as [s' [[]|e]]; [|exact Hs]. destruct Hs as (cur & pen & bound & -> & Hbound & _).
  intros ctx stored present Hsame Hrow Hokc Hpres.
  destruct (negotiate_sound (try_plan_filter pl) pl relid ctx Hutf8 source_for rs out Hokc Hneg) as [Hsetc ->].
  by apply (set_rows c c0 ctx out exprs bound present stored).
Qed.
End scan.

(** ** An example *)
#[local] Existing Instance reference_backend.
#[local] Existing Instance reference_clauses.

Lemma sample_planner_typed : planner_typed sample_planner.
Proof.
  split.
  - intros attno column Hc. unfold layout_column in Hc. destruct (attribute_offset _ _) as [[|[|i]]|]; try discriminate Hc;
      vm_compute in Hc; by injection Hc as <-.
  - intros id field w. simpl. destruct (id =? 1); [by intros [= <-]|]. by destruct (id =? 2); [intros [= <-]|].
Qed.

#[local] Existing Instance sample_library.
#[local] Instance sample_library_laws : IcebergExprLaws sample_library (@scalar_nan reference_backend) := reference_expr_laws _.

(** The row 5, 'abc' below the outer row 9, after the scan for the outer row 4. *)
Lemma pushdown_scan_returns_witness : ∃ bound,
  negotiate_with_source (try_plan_filter sample_planner) 1 (λ _, Movable) sample_clauses = Ok sample_out ∧
  encode_filters (PE := IcebergFilterError) sample_out = Ok sample_data ∧
  decode_filters (PE := IcebergFilterError) (list_cell (encoded_planned sample_data)) 3 (list_cell (encoded_bindings sample_data)) 3
    = Ok (sample_records, sample_layout) ∧
  sample_bound = Some bound ∧ returns_row sample_planner sample_out bound (λ _, true) sample_stored (sample_context (Some 9)).
Proof.
  assert (negotiate_with_source (try_plan_filter sample_planner) 1 (λ _, Movable) sample_clauses = Ok sample_out) as Hout
    by (apply is_ok_Ok; vm_compute; reflexivity).
  pose proof sample_encodes as Hdata.
  assert (decode_filters (PE := IcebergFilterError) (list_cell (encoded_planned sample_data)) 3
    (list_cell (encoded_bindings sample_data)) 3 = Ok (sample_records, sample_layout)) as Hd by (vm_compute; reflexivity).
  assert (match sample_bound with Some _ => true | None => false end = true) as Hbound by (vm_compute; reflexivity).
  destruct (@pushdown_scan_returns reference_backend reference_types documented_arrow _ _ sample_library _ reference_nodes _ reference_executor _
    reference_clauses sample_planner 1 sample_schema_indexed sample_planner_typed eq_refl (λ _, Movable) sample_clauses sample_out sample_data sample_exprs
    (sample_context None) (sample_context (Some 9)) (ReScan [3] (sample_context (Some 4))) [ReScan [3] (sample_context (Some 9))])
    as (records & layout & st & Hdec & Hinit & Hrun).
  - exact Hout.
  - apply sample_clauses_ok. lia.
  - exact Hdata.
  - exact sample_layout_ok.
  - exact sample_slots.
  - exact sample_linked.
  - repeat apply Forall2_cons_2; [reflexivity..|constructor].
  - change (length (planned sample_out)) with 3%nat in Hdec. change (length (set_bindings sample_out)) with 3%nat in Hdec.
    rewrite Hd in Hdec. injection Hdec as <- <-. unfold sample_bound in *. rewrite Hinit in *.
    destruct (begin_scan _ _) as [s [[]|e]]; [|done]. fold sample_calls in Hrun.
    destruct (scan_calls _ _) as [s' [[]|e]]; [|done]. exists (bound_filters (scan_runtime s')).
    split; [exact Hout|]. split; [exact Hdata|]. split; [exact Hd|]. split; [reflexivity|].
    refine (proj1 (Hrun (sample_context (Some 9)) sample_stored (λ _, true) _ _ _ _) _).
    + split; intros; reflexivity.
    + exact sample_row_conforms.
    + apply sample_clauses_ok. lia.
    + apply Forall_true. intros f. apply Forall_true. left. reflexivity.
    + repeat apply Forall_cons_2; [vm_compute; reflexivity..|constructor].
Defined.
