(* ===== verification/QueryPruning.v ===== *)
(** * Pruning of a query scan

    Models [QueryPruningPlanner] of
    lagodb-core/src/expr/pushdown/negotiation/candidate.rs: what a scan of a query
    fragment, which keeps its exact predicate, may skip.  The theorem says that
    the pruning expression, and each conjunct that is priced alone, is implied by
    the qual. *)

From stdpp Require Import base list strings.
From Stdlib Require Import ZArith Lia.
From S2P Require Import Prelude.
From S2P Require Import PredicateTree.
From S2P Require Import Expressions.
From S2P Require Import PredicatePolicy.
From S2P Require Import PredicateBinding.
From S2P Require Import IcebergFilter.
From S2P Require Import Normalize.
From S2P Require Import NormalizeMeaning.
From S2P Require Import ReferenceExecutor.
From S2P Require Import FilterNegotiation.
Local Open Scope Z_scope.

(** ** Scopes *)
Definition for_relation (rti : nat) (scan : Z) : ExpressionScope := QueryScope (replicate rti None ++ [Some scan]).

Lemma for_relation_scope rti scan : scope_of (Z.of_nat rti) (for_relation rti scan).
Proof.
  intros varno s. unfold query_resolve_var. destruct (varno <? 0) eqn:Hn; [done|]. apply Z.ltb_ge in Hn.
  destruct ((replicate rti None ++ [Some scan]) !! Z.to_nat varno) as [o|] eqn:Ho; [|done]. simpl. intros ->.
  apply lookup_app_Some in Ho as [[Ho _]%lookup_replicate|[Hle Ho]]; [done|]. rewrite length_replicate in *.
  apply list_lookup_singleton_Some in Ho as [Hz _]. lia.
Qed.

(** ** The planner *)

(** A qual is one expression or an implicit conjunction. *)
Inductive Qual (D : Type) := QualExpr (e : PgExpr D) | QualList (es : list (PgExpr D)).
Arguments QualExpr {D}.
Arguments QualList {D}.

Section planner.
Context {B : PgBackend} {NB : PgNodes PgDatum} {PC : PgClauses PgDatum} {P E : Type}.
Local Notation Expr := (PgExpr PgDatum).
Context (plan : PredicateFragment → result E (Filter.FilterPlan P)) (scope : ExpressionScope).

Record QueryPruningPlan := mkPruning {
  pruning_normalized : NormalizedPredicate;
  pruning_planned : P;
  costed_conjuncts : list (Expr * PushdownCosting);
}.

Definition normalize_qual (q : Qual PgDatum) : option NormalizedPredicate :=
  match q with QualExpr e => normalize_predicate scope e | QualList es => normalize_list scope es end.

Definition fragment_is_rescan_stable (f : PredicateFragment) : bool :=
  forallb (λ s, is_rescan_stable (source_kind s)) (runtime_values f).

Definition costed_conjunct (n : NormalizedPredicate) : result E (option (Expr * PushdownCosting)) :=
  q ← plan (fragment n);
  Ok (match plan_taken q with Some p => Some (pushed_expr n, filter_costing p) | None => None end).

(** [e] is [original] without the outer relabels that are passed. *)
Fixpoint append_source_conjuncts (original e : Expr) : list Expr :=
  match e with
  | ERelabel arg _ => append_source_conjuncts original arg
  | EBool AND_EXPR args => concat (map (λ a, append_source_conjuncts a a) args)
  | _ => [original]
  end.

Definition source_conjuncts (q : Qual PgDatum) : list Expr :=
  match q with
  | QualExpr e => append_source_conjuncts e e
  | QualList es => concat (map (λ e, append_source_conjuncts e e) es)
  end.

(** The conjuncts of a qual that is planned as a whole. *)
Definition whole_costs (q : Qual PgDatum) (n : NormalizedPredicate) (p : PlannedFilter P)
    : result E (list (Expr * PushdownCosting)) :=
  let children := source_conjuncts q in
  if decide (length children = 1%nat) then Ok [(pushed_expr n, filter_costing p)]
  else
    costs ← collect (λ child,
      match normalize_predicate scope child with Some c => costed_conjunct c | None => Ok None end) children;
    Ok (omap id (costs : list (option (Expr * PushdownCosting)))).

Definition negotiate_whole_qual (q : Qual PgDatum) : result E (option QueryPruningPlan) :=
  match normalize_qual q with
  | None => Ok None
  | Some n =>
      if negb (fragment_is_rescan_stable (fragment n)) then Ok None
      else
        planned ← plan (fragment n);
        match plan_taken planned with
        | None => Ok None
        | Some p => costs ← whole_costs q n p; Ok (Some (mkPruning n (predicate p) costs))
        end
  end.

Definition accepts_stable (f : PredicateFragment) : result E bool :=
  if negb (fragment_is_rescan_stable f) then Ok false
  else planned ← plan f; Ok (match plan_taken planned with Some _ => true | None => false end).

(** The candidates of the conjuncts, together. *)
Definition negotiate_conjuncts (q : Qual PgDatum) : result E (option QueryPruningPlan) :=
  found ← collect (λ child,
    if subtree_is_unsafe_to_push child then Ok None
    else conservative_candidate (normalize_predicate scope) accepts_stable child) (source_conjuncts q);
  let candidates := omap id found in
  costs ← collect (λ c, costed_conjunct (candidate_filter c)) candidates;
  match combine (candidate_filter <$> candidates) true with
  | None => Ok None
  | Some n =>
      planned ← plan (fragment n);
      Ok (match plan_taken planned with Some p => Some (mkPruning n (predicate p) (omap id costs)) | None => None end)
  end.

Definition query_negotiate (q : Qual PgDatum) : result E (option QueryPruningPlan) :=
  if match q with QualExpr e => subtree_is_unsafe_to_push e | QualList _ => false end then Ok None
  else or_else (negotiate_whole_qual q) (negotiate_conjuncts q).
End planner.
Arguments QueryPruningPlan {B} P.

(** ** Soundness *)
Lemma combine_values {B : PgBackend} items conj n : combine items conj = Some n →
  runtime_values (fragment n) = concat (runtime_values ∘ fragment <$> items).
Proof.
  unfold combine. destruct items as [|i1 [|i2 items]]; [done|intros [= <-]; by csimpl; rewrite app_nil_r|].
  generalize (i1 :: i2 :: items). intros l.
  assert (∀ acc, (foldl combine_step acc l).1.1.2 = acc.1.1.2 ++ concat (runtime_values ∘ fragment <$> l)) as H.
  { induction l as [|m l IH]; intros [[[??] ?] ?]; csimpl; [by rewrite app_nil_r|]. rewrite IH. simpl. by rewrite <- app_assoc. }
  specialize (H ([], [], [], [])). destruct (foldl combine_step _ l) as [[[??] ?] ?]. intros [= <-]. exact H.
Qed.

Section sound.
Context {B : PgBackend} {HL : PgBackendLaws B} {NB : PgNodes PgDatum} {NL : PgNodesLaws NB}
  {X : PgExecutor B} {XL : PgExecutorLaws X} {PC : PgClauses PgDatum} {P E : Type}.
Context (plan : PredicateFragment → result E (Filter.FilterPlan P)) (pl : IcebergFilterPlanner) (relid : Z)
  (ctx : EvalContext PgDatum) (Hutf8 : planner_utf8 pl = server_utf8) (scope : ExpressionScope) (Hscope : scope_of relid scope).
Local Notation Expr := (PgExpr PgDatum).
Local Notation holds := (holds ctx).
Local Notation expr_ok := (expr_ok pl relid ctx).

Definition stable (n : NormalizedPredicate) : Prop := fragment_is_rescan_stable (fragment n) = true.

Lemma combine_stable items conj n : Forall stable items → combine items conj = Some n → stable n.
Proof.
  intros Hs Hn. unfold stable, fragment_is_rescan_stable. rewrite (combine_values items conj n Hn).
  apply forallb_Forall_true, Forall_concat, Forall_fmap. eapply Forall_impl; [exact Hs|]. intros m Hm. by apply forallb_Forall_true.
Qed.

(** Every candidate is made of fragments that the provider was asked about. *)
Lemma whole_candidate_stable e c :
  whole_candidate (normalize_predicate scope) (accepts_stable plan) e = Ok (Some c) → stable (candidate_filter c).
Proof.
  unfold whole_candidate. destruct (normalize_predicate scope e) as [n|]; [|done]. unfold accepts_stable.
  destruct (fragment_is_rescan_stable (fragment n)) eqn:Hs; [|done]. simpl. destruct (plan _) as [q|]; [|done]. csimpl.
  destruct (plan_taken q); [|done]. by intros [= <-].
Qed.

Lemma boolean_candidate_stable e c :
  boolean_candidate (normalize_predicate scope) (accepts_stable plan) e = Ok (Some c) → stable (candidate_filter c).
Proof.
  assert (∀ k cs conj c, Forall (stable ∘ candidate_filter) cs → combine_candidates k cs conj = Some c → stable (candidate_filter c)) as Hcomb.
  { intros k cs conj c0 Hcs. unfold combine_candidates. destruct (combine _ _) as [n|] eqn:Hn; [|done]. intros [= <-].
    eapply combine_stable; [|exact Hn]. by apply Forall_fmap. }
  revert c. induction e as [e t IH|o args IH|e Hleaf] using expr_ind'; intros c; [exact (IH c)| |by destruct e].
  assert (Forall (λ e, ∀ w, or_else (whole_candidate (normalize_predicate scope) (accepts_stable plan) e)
    (boolean_candidate (normalize_predicate scope) (accepts_stable plan) e) = Ok (Some w) → stable (candidate_filter w)) args) as Hchild.
  { eapply Forall_impl; [exact IH|]. intros e He w. unfold or_else.
    destruct (whole_candidate _ _ e) as [[w'|]|] eqn:Hw; csimpl; [|by apply He|done]. intros [= <-]. by eapply whole_candidate_stable. }
  clear IH. destruct o; simpl; [| |done].
  - destruct (collect _ args) as [founds|] eqn:Hf; [|done]. csimpl. intros [= Hc]. eapply Hcomb; [|exact Hc].
    apply collect_Forall2 in Hf. clear Hc. induction Hf as [|e [w|] args fs Hef _ IHf]; [constructor|..];
      apply Forall_cons in Hchild as [He Hes]; csimpl; [|auto]. constructor; [by apply He|auto].
  - destruct (every _ args) as [[cs|]|] eqn:Hf; csimpl; [|done..]. intros [= Hc]. eapply Hcomb; [|exact Hc].
    apply every_Forall2 in Hf. clear Hc. induction Hf as [|e w args fs Hef _ IHf]; [constructor|].
    apply Forall_cons in Hchild as [He Hes]. constructor; [by apply He|auto].
Qed.

Lemma conservative_candidate_stable e c :
  conservative_candidate (normalize_predicate scope) (accepts_stable plan) e = Ok (Some c) → stable (candidate_filter c).
Proof.
  unfold conservative_candidate, or_else. destruct (whole_candidate _ _ e) as [[w|]|] eqn:Hw; csimpl; [| |done].
  - intros [= <-]. by eapply whole_candidate_stable.
  - apply boolean_candidate_stable.
Qed.

(** The conjuncts of an expression. *)
Lemma append_source_conjuncts_spec original e : expr_ok original → expr_ok e → (holds original ↔ holds e) →
  Forall expr_ok (append_source_conjuncts original e) ∧ (holds original → Forall holds (append_source_conjuncts original e)).
Proof.
  revert original. induction e as [e t IH|o args IH|e Hleaf] using expr_ind'; intros original Ho He Heq.
  - apply IH; [done|exact He|]. rewrite Heq. by apply holds_relabel.
  - destruct o; simpl; try (split; [by constructor|intros ?; by constructor]).
    apply expr_ok_bool in He as [Hne Hargs]. rewrite !Forall_concat. rewrite Heq, holds_and by done.
    clear Heq Hne. induction IH as [|a args Ha _ IHargs]; [split; [constructor|intros; constructor]|].
    apply Forall_cons in Hargs as [Hoa Hargs]. destruct (Ha a Hoa Hoa (iff_refl _)) as [H1 H2]. destruct (IHargs Hargs) as [H3 H4].
    split; [by constructor|]. intros [Hh Hhs]%Forall_cons. constructor; auto.
  - destruct e; try done; (split; [by constructor|intros ?; by constructor]).
Qed.

Definition qual_exprs (q : Qual PgDatum) : list Expr := match q with QualExpr e => [e] | QualList es => es end.

Lemma source_conjuncts_spec q : Forall expr_ok (qual_exprs q) →
  Forall expr_ok (source_conjuncts q) ∧ (Forall holds (qual_exprs q) → Forall holds (source_conjuncts q)).
Proof.
  assert (∀ es, Forall expr_ok es → let cs := concat (map (λ e, append_source_conjuncts e e) es) in
    Forall expr_ok cs ∧ (Forall holds es → Forall holds cs)) as H.
  { induction 1 as [|e es He _ [IH1 IH2]]; [done|]. simpl. destruct (append_source_conjuncts_spec e e He He (iff_refl _)) as [H1 H2].
    rewrite !Forall_app, Forall_cons. split; [done|]. intros [??]. auto. }
  destruct q as [e|es]; simpl; [|apply H]. intros He. destruct (H [e] He) as [H1 H2]. simpl in *. by rewrite app_nil_r in *.
Qed.

(** A price that the provider gave for the fragment of the conjunct alone. *)
Definition priced (c : Expr * PushdownCosting) : Prop :=
  ∃ n planned p, c.1 = pushed_expr n ∧ pushable pl relid ctx n ∧
    plan (fragment n) = Ok planned ∧ plan_taken planned = Some p ∧ c.2 = filter_costing p.

Lemma costed_conjunct_Some n c : pushable pl relid ctx n → costed_conjunct plan n = Ok (Some c) →
  c.1 = pushed_expr n ∧ priced c.
Proof.
  unfold costed_conjunct. intros Hn. destruct (plan (fragment n)) as [q|] eqn:Hq; [|done]. csimpl.
  destruct (plan_taken q) as [p|] eqn:Hp; [|done]. intros [= <-]. split; [done|]. by exists n, q, p.
Qed.

(** What the results of a loop that skips some have, if each has it. *)
Lemma collect_found {A C} (f : A → result E (option C)) (Q : C → Prop) l founds :
  collect f l = Ok founds → (∀ a c, a ∈ l → f a = Ok (Some c) → Q c) → Forall Q (omap id founds).
Proof.
  intros Hf%collect_Forall2 HQ. induction Hf as [|a [c|] l founds Ha _ IH]; csimpl; [constructor| |].
  - constructor; [apply (HQ a); [by left|done]|]. apply IH. intros; eapply HQ; [by right|done].
  - apply IH. intros; eapply HQ; [by right|done].
Qed.

Record pruning_ok (q : Qual PgDatum) (r : QueryPruningPlan P) : Prop := {
  pruning_pushable : pushable pl relid ctx (pruning_normalized r);
  pruning_stable : stable (pruning_normalized r);
  pruning_plan : ∃ planned p, plan (fragment (pruning_normalized r)) = Ok planned ∧ plan_taken planned = Some p ∧
    pruning_planned r = predicate p;
  pruning_implied : Forall holds (qual_exprs q) → holds (pushed_expr (pruning_normalized r));
  pruning_costs : Forall (λ c, priced c ∧ (Forall holds (qual_exprs q) → holds c.1)) (costed_conjuncts r);
}.

Lemma normalize_qual_implied q n : Forall expr_ok (qual_exprs q) → normalize_qual scope q = Some n →
  pushable pl relid ctx n ∧ (Forall holds (qual_exprs q) → holds (pushed_expr n)).
Proof.
  destruct q as [e|es]; simpl; intros Hok.
  - apply Forall_cons in Hok as [Hok _]. intros Hn. destruct (normalize_pushable pl relid ctx Hutf8 scope e n Hscope Hok Hn) as [Hp ->].
    split; [done|]. by intros [? _]%Forall_cons.
  - unfold normalize_list. destruct (mapM _ es) as [items|] eqn:Hm; [|done]. csimpl. intros Hn. apply mapM_Some in Hm.
    assert (Forall (pushable pl relid ctx) items ∧ (Forall holds es → Forall (λ i, holds (pushed_expr i)) items)) as [Hp Hi].
    { clear Hn. induction Hm as [|e i es items Hi _ IH]; [done|]. apply Forall_cons in Hok as [He Hok]. destruct (IH Hok) as [H1 H2].
      destruct (normalize_pushable pl relid ctx Hutf8 scope e i Hscope He Hi) as [Hp Hpe]. split; [by constructor|].
      intros [Hh Hhs]%Forall_cons. constructor; [by rewrite Hpe|auto]. }
    destruct (combine_pushable pl relid ctx items true n Hp Hn) as [Hpn Hev]. split; [done|]. intros Hh.
    unfold FilterNegotiation.holds. rewrite Hev. apply kall_true, Forall_fmap. by apply Hi.
Qed.

Lemma whole_costs_implied q n p planned costs : Forall expr_ok (qual_exprs q) →
  pushable pl relid ctx n → plan (fragment n) = Ok planned → plan_taken planned = Some p →
  (Forall holds (qual_exprs q) → holds (pushed_expr n)) → whole_costs plan scope q n p = Ok costs →
  Forall (λ c, priced c ∧ (Forall holds (qual_exprs q) → holds c.1)) costs.
Proof.
  intros Hok Hpush Hplan Ht Hn. unfold whole_costs.
  destruct (decide _); [intros [= <-]; constructor; [split; [by exists n, planned, p|done]|done]|].
  destruct (collect _ _) as [found|] eqn:Hf; [|done]. csimpl. intros [= <-]. eapply collect_found; [exact Hf|].
  intros child c Hin Hc. destruct (source_conjuncts_spec q Hok) as [Hoks Hh]. rewrite Forall_forall in Hoks.
  cbv beta in Hc. destruct (normalize_predicate scope child) as [m|] eqn:Hm; [|discriminate Hc].
  destruct (normalize_pushable pl relid ctx Hutf8 scope child m Hscope (Hoks _ Hin) Hm) as [Hpm Hme].
  destruct (costed_conjunct_Some m c Hpm Hc) as [-> Hpr]. split; [done|]. intros Hq.
  specialize (Hh Hq). rewrite Forall_forall in Hh. rewrite Hme. auto.
Qed.

Lemma negotiate_whole_qual_ok q r : Forall expr_ok (qual_exprs q) → negotiate_whole_qual plan scope q = Ok (Some r) → pruning_ok q r.
Proof.
  intros Hok. unfold negotiate_whole_qual. destruct (normalize_qual scope q) as [n|] eqn:Hn; [|done].
  destruct (fragment_is_rescan_stable (fragment n)) eqn:Hs; [|done]. simpl. destruct (plan (fragment n)) as [planned|] eqn:Hp; [|done].
  csimpl. destruct (plan_taken planned) as [p|] eqn:Ht; [|done]. destruct (whole_costs _ _ _ _ _) as [costs|] eqn:Hc; [|done].
  csimpl. intros [= <-]. destruct (normalize_qual_implied q n Hok Hn) as [Hpush Himp].
  split; simpl; [done|done|by exists planned, p|done|by eapply whole_costs_implied].
Qed.

Lemma negotiate_conjuncts_ok q r : Forall expr_ok (qual_exprs q) → negotiate_conjuncts plan scope q = Ok (Some r) → pruning_ok q r.
Proof.
  intros Hok. unfold negotiate_conjuncts. destruct (collect _ _) as [found|] eqn:Hf; [|done]. csimpl.
  destruct (collect _ (omap id found)) as [costs|] eqn:Hcost; [|done]. csimpl.
  destruct (source_conjuncts_spec q Hok) as [Hoks Hh]. rewrite Forall_forall in Hoks.
  assert (Forall (λ c, pushable pl relid ctx (candidate_filter c) ∧ stable (candidate_filter c) ∧
    (Forall holds (qual_exprs q) → holds (pushed_expr (candidate_filter c)))) (omap id found)) as Hcs.
  { eapply collect_found; [exact Hf|]. intros child c Hin Hc. cbv beta in Hc. destruct (subtree_is_unsafe_to_push child); [done|].
    destruct (conservative_candidate_implied pl relid ctx Hutf8 scope Hscope _ child c (Hoks _ Hin) Hc) as [Hp Hi].
    split; [done|]. split; [by eapply conservative_candidate_stable|]. intros Hq. apply Hi.
    specialize (Hh Hq). rewrite Forall_forall in Hh. auto. }
  destruct (combine _ _) as [n|] eqn:Hn; [|done]. destruct (plan (fragment n)) as [planned|] eqn:Hp; [|done]. csimpl.
  destruct (plan_taken planned) as [p|] eqn:Ht; [|done]. intros [= <-].
  destruct (combine_pushable pl relid ctx (candidate_filter <$> omap id found) true n) as [Hpush Hev]; [|done|].
  { apply Forall_fmap. eapply Forall_impl; [exact Hcs|]. by intros c (? & _). }
  split; simpl; [done| |by exists planned, p| |].
  - eapply combine_stable; [|exact Hn]. apply Forall_fmap. eapply Forall_impl; [exact Hcs|]. by intros c (_ & ? & _).
  - intros Hq. unfold FilterNegotiation.holds. rewrite Hev. apply kall_true, Forall_fmap, Forall_fmap.
    eapply Forall_impl; [exact Hcs|]. intros c (_ & _ & Hc). by apply Hc.
  - eapply collect_found; [exact Hcost|]. intros c k Hin Hk. rewrite Forall_forall in Hcs.
    destruct (Hcs c Hin) as (Hpc & _ & Himp). by destruct (costed_conjunct_Some _ _ Hpc Hk) as [-> ?].
Qed.

(** C37. A query scan prunes by less than its qual: whatever provider plans the
    fragments, the pruning expression and every conjunct that is priced alone
    are implied by the qual on every row; the provider took the fragment of the
    pruning expression and that of every priced conjunct, which has the price the
    provider gave it; and the slots of the pruning expression hold no value that a
    rescan changes. *)
Theorem query_pruning_implied q r : Forall expr_ok (qual_exprs q) → query_negotiate plan scope q = Ok (Some r) → pruning_ok q r.
Proof.
  intros Hok. unfold query_negotiate, or_else. destruct (match q with QualExpr e => _ | QualList _ => _ end); [done|].
  destruct (negotiate_whole_qual plan scope q) as [[w|]|] eqn:Hw; csimpl; [| |done].
  - intros [= <-]. by apply negotiate_whole_qual_ok.
  - by apply negotiate_conjuncts_ok.
Qed.
End sound.

(** ** An example

    Of [id < 9] and a condition that is not understood, the first one prunes. *)
#[local] Existing Instance reference_backend.
#[local] Existing Instance reference_clauses.

Definition sample_qual : Qual PgDatum :=
  QualList [EOp (mkOp 412 412 BOOLOID InvalidOid InvalidOid) [sample_id; EConst int8 (Some (PgInt8 9))]; EOther 1].

Lemma query_pruning_implied_witness : ∃ r,
  query_negotiate (try_plan_filter sample_planner) (for_relation 1 0) sample_qual = Ok (Some r) ∧ length (costed_conjuncts r) = 1%nat ∧
  (Forall (holds (sample_context None)) (qual_exprs sample_qual) → holds (sample_context None) (pushed_expr (pruning_normalized r))).
Proof.
  assert (match query_negotiate (try_plan_filter sample_planner) (for_relation 1 0) sample_qual with
    | Ok (Some r) => length (costed_conjuncts r) | _ => 0%nat end = 1%nat) as Hlen by (vm_compute; reflexivity).
  destruct (query_negotiate _ _ _) as [[r|]|] eqn:Hr; [|discriminate Hlen..]. exists r. split; [reflexivity|]. split; [exact Hlen|].
  apply (pruning_implied (try_plan_filter sample_planner) sample_planner 1 (sample_context None)).
  apply (query_pruning_implied (X := reference_executor) (try_plan_filter sample_planner) sample_planner 1 (sample_context None) eq_refl
    (for_relation 1 0) (for_relation_scope 1 0) sample_qual r); [|exact Hr].
  apply Forall_cons_2; [|constructor; [exact I|constructor]]. split; [apply sample_id_ok|].
  split; [apply scalar_ok_const; by intros d [= <-] _|]. split; [reflexivity|]. split; [discriminate|].
  intros s [= <-]. split; by intros o [= <-].
Defined.
