(* ===== verification/WalRecord.v ===== *)
(** * Local file WAL records

    lagodb-iceberg/src/storage/local_file_wal/record.rs and the record parsers
    of rmgr.rs, with the parts of lagodb-core/src/wal/record.rs they use: the
    operations, the headers, the logging functions with their batching, and the
    [extract_*] functions that recovery runs on the same bytes.

    A WAL record is its resource manager, its info byte and its main data.  The
    log of a backend is the list of its records in insertion order; the LSN that
    [XLogInsert] returns for a log is a parameter, required to grow with the
    log where a theorem needs it.  Byte order is a parameter as well. *)
From stdpp Require Import base list gmap strings.
From Stdlib Require Import ZArith Lia.
From S2P Require Import Prelude Bytes.
Open Scope Z_scope.

(** ** Operations *)

Inductive IcebergWalOp := DeleteDirectory | WriteFile | DeleteFiles | TruncateDirectory.

#[export] Instance IcebergWalOp_eq_dec : EqDecision IcebergWalOp.
Proof. solve_decision. Defined.

Definition op_u8 (op : IcebergWalOp) : Z :=
  match op with
  | DeleteDirectory => 0x00
  | WriteFile => 0x10
  | DeleteFiles => 0x20
  | TruncateDirectory => 0x30
  end.

Definition from_info (info : Z) : option IcebergWalOp :=
  let op := Z.land info 0xF0 in
  if op =? 0x00 then Some DeleteDirectory
  else if op =? 0x10 then Some WriteFile
  else if op =? 0x20 then Some DeleteFiles
  else if op =? 0x30 then Some TruncateDirectory
  else None.

Definition ICEBERG_RMGR_ID : Z := 128.

(** ** The log *)

Record WalRecord := mkRecord {
  rmgr_id : Z;
  info : Z;
  data : list byte;
}.

(** [WalRecord::main_data]: no data is no main data. *)
Definition main_data (r : WalRecord) : option (list byte) :=
  match data r with [] => None | d => Some d end.

Record Wal := mkWal {
  records : list WalRecord;
  flushed : Z;
}.

Definition flush_wal (lsn : Z) (wal : Wal) : Wal := mkWal (records wal) (Z.max (flushed wal) lsn).

(** ** Sizes *)

Definition SIZE_OF_DIRECTORY : Z := 4.
Definition SIZE_OF_DELETE_FILES : Z := 8.
Definition SIZE_OF_WRITE_FILE : Z := 16.
Definition SIZE_OF_U32 : Z := 4.
Definition MAX_DELETE_FILES_PER_RECORD : Z := 256.
Definition MAX_DELETE_FILES_PAYLOAD_BYTES : Z := 64 * 1024.

Definition delete_file_fits_wal (path : RString) : bool :=
  negb (bool_decide (path = [])) && negb (contains_nul path) && (blen path <=? u32_max)
  && (SIZE_OF_U32 + blen path <=? MAX_DELETE_FILES_PAYLOAD_BYTES).

Section wal.
Context (big_endian : bool) (xlog_lsn : list WalRecord → Z).

(** [WalRecordBuilder]: the registered chunks are concatenated by [insert]. *)
Definition builder_insert (chunks : list (list byte)) (rmgr op : Z) (wal : Wal) : Z * Wal :=
  let l := records wal ++ [mkRecord rmgr op (concat chunks)] in
  (xlog_lsn l, mkWal l (flushed wal)).

Definition u32_bytes (z : Z) : list byte := ne_bytes big_endian 4 z.
Definition u32_value (bs : list byte) : Z := ne_value big_endian bs.

(** ** Directory records *)

(** The header image of a directory record: [path.len() as u32]. *)
Definition DirectoryHeader_bytes (path : RString) : list byte :=
  u32_bytes (blen path mod 2 ^ 32).

Definition DirectoryHeader_insert (path : RString) (op : IcebergWalOp) (wal : Wal) : Z * Wal :=
  builder_insert [DirectoryHeader_bytes path; path] ICEBERG_RMGR_ID (op_u8 op) wal.

Definition log_delete_directory (path : RString) (wal : Wal) : Z * Wal :=
  DirectoryHeader_insert path DeleteDirectory wal.

Definition log_truncate (path : RString) (wal : Wal) : Z * Wal :=
  DirectoryHeader_insert path TruncateDirectory wal.

Definition extract_directory_path (d : list byte) : option RString :=
  if blen d <? SIZE_OF_DIRECTORY then None
  else
    header ← slice d 0 SIZE_OF_DIRECTORY;
    path_end ← checked_add usize_max SIZE_OF_DIRECTORY (u32_value header);
    if blen d <? path_end then None
    else path_bytes ← slice d SIZE_OF_DIRECTORY path_end; from_utf8 path_bytes.

(** ** File deletion records *)

Definition insert_delete_files_record (path_count : Z) (payload : list byte) (wal : Wal) : Z * Wal :=
  builder_insert [u32_bytes path_count ++ u32_bytes (blen payload); payload]
    ICEBERG_RMGR_ID (op_u8 DeleteFiles) wal.

(** The loop of [log_delete_files]: payload and count of the open batch, the last
    LSN and the log. *)
Fixpoint log_delete_files_loop (paths : list RString) (payload : list byte) (path_count : Z)
    (last_lsn : option Z) (wal : Wal) : list byte * Z * option Z * Wal :=
  match paths with
  | [] => (payload, path_count, last_lsn, wal)
  | path :: paths' =>
      if bool_decide (path = []) || contains_nul path
      then log_delete_files_loop paths' payload path_count last_lsn wal
      else if u32_max <? blen path
      then log_delete_files_loop paths' payload path_count last_lsn wal
      else
        let encoded_len := SIZE_OF_U32 + blen path in
        if MAX_DELETE_FILES_PAYLOAD_BYTES <? encoded_len
        then log_delete_files_loop paths' payload path_count last_lsn wal
        else
          let '(payload, path_count, last_lsn, wal) :=
            if (0 <? path_count)
               && ((MAX_DELETE_FILES_PER_RECORD <=? path_count)
                   || (MAX_DELETE_FILES_PAYLOAD_BYTES <? blen payload + encoded_len))
            then
              let '(lsn, wal) := insert_delete_files_record path_count payload wal in
              ([], 0, Some lsn, wal)
            else (payload, path_count, last_lsn, wal) in
          log_delete_files_loop paths' (payload ++ u32_bytes (blen path) ++ path) (path_count + 1)
            last_lsn wal
  end.

Definition log_delete_files (paths : list RString) (wal : Wal) : option Z * Wal :=
  let '(payload, path_count, last_lsn, wal) := log_delete_files_loop paths [] 0 None wal in
  if 0 <? path_count
  then let '(lsn, wal) := insert_delete_files_record path_count payload wal in (Some lsn, wal)
  else (last_lsn, wal).

(** The loop of [extract_delete_file_paths]: [n] paths are still expected at
    [cursor]. *)
Fixpoint extract_paths_loop (d : list byte) (n : nat) (cursor : Z) (paths : list RString)
    : option (Z * list RString) :=
  match n with
  | O => Some (cursor, paths)
  | S n' =>
      length_end ← checked_add usize_max cursor SIZE_OF_U32;
      length_bytes ← slice d cursor length_end;
      path_end ← checked_add usize_max length_end (u32_value length_bytes);
      path_bytes ← slice d length_end path_end;
      if bool_decide (path_bytes = []) || contains_nul path_bytes then None
      else path ← from_utf8 path_bytes; extract_paths_loop d n' path_end (paths ++ [path])
  end.

Definition extract_delete_file_paths (d : list byte) : option (list RString) :=
  if blen d <? SIZE_OF_DELETE_FILES then None
  else
    count_bytes ← slice d 0 4;
    len_bytes ← slice d 4 8;
    let path_count := u32_value count_bytes in
    let payload_len := u32_value len_bytes in
    if (path_count =? 0) || (MAX_DELETE_FILES_PER_RECORD <? path_count)
       || (MAX_DELETE_FILES_PAYLOAD_BYTES <? payload_len)
    then None
    else
      payload_end ← checked_add usize_max SIZE_OF_DELETE_FILES payload_len;
      if negb (blen d =? payload_end) then None
      else
        '(cursor, paths) ← extract_paths_loop d (Z.to_nat path_count) SIZE_OF_DELETE_FILES [];
        if cursor =? payload_end then Some paths else None.

(** ** File write records *)

Definition WriteFileHeader_bytes (path : RString) (offset : Z) : list byte :=
  u32_bytes (blen path mod 2 ^ 32) ++ u32_bytes 0 ++ ne_bytes big_endian 8 offset.

Definition log_write_file (path : RString) (offset : Z) (file_data : list byte) (wal : Wal) : Z * Wal :=
  builder_insert
    (WriteFileHeader_bytes path offset :: path ::
     if bool_decide (file_data = []) then [] else [file_data])
    ICEBERG_RMGR_ID (op_u8 WriteFile) wal.

Definition extract_write_file_info (d : list byte) : option (RString * Z * Z) :=
  if blen d <? SIZE_OF_WRITE_FILE then None
  else
    len_bytes ← slice d 0 4;
    offset_bytes ← slice d 8 16;
    path_end ← checked_add usize_max SIZE_OF_WRITE_FILE (u32_value len_bytes);
    if blen d <? path_end then None
    else
      path_bytes ← slice d SIZE_OF_WRITE_FILE path_end;
      path ← from_utf8 path_bytes;
      Some (path, ne_signed big_endian offset_bytes, blen d - path_end).

(** ** The encodings *)

Lemma u32_value_bytes z : 0 ≤ z ≤ u32_max → u32_value (u32_bytes z) = z.
Proof.
  intros. unfold u32_value, u32_bytes. rewrite ne_value_bytes. apply Z.mod_small. width_lia.
Qed.

Lemma u32_bytes_value bs : blen bs = 4 → u32_bytes (u32_value bs) = bs.
Proof.
  intros Hl. unfold u32_value, u32_bytes. rewrite <- (ne_bytes_value big_endian bs) at 2.
  f_equal. unfold blen in Hl. lia.
Qed.

Lemma u32_value_bounds bs : blen bs = 4 → 0 ≤ u32_value bs ≤ u32_max.
Proof.
  intros Hl. pose proof (ne_value_bounds big_endian bs). unfold u32_value. rewrite Hl in *. width_lia.
Qed.

Lemma blen_u32_bytes z : blen (u32_bytes z) = 4.
Proof. apply blen_ne_bytes. Qed.

Lemma checked_add_usize a b : 0 ≤ a → a + b ≤ usize_max → checked_add usize_max a b = Some (a + b).
Proof. intros. unfold checked_add. by rewrite (proj2 (Z.leb_le _ _)). Qed.

Lemma checked_add_Some max a b c : checked_add max a b = Some c → c = a + b.
Proof. unfold checked_add. case_bool; congruence. Qed.

Definition encode_path (path : RString) : list byte := u32_bytes (blen path) ++ path.
Definition encode_payload (paths : list RString) : list byte := concat (map encode_path paths).
Definition encode_delete_files (paths : list RString) : list byte :=
  (u32_bytes (blen paths) ++ u32_bytes (blen (encode_payload paths))) ++ encode_payload paths.

Record path_ok (path : RString) : Prop := {
  path_nonempty : path ≠ [];
  path_no_nul : contains_nul path = false;
  path_utf8 : utf8_valid path = true;
}.

Record batch_ok (paths : list RString) : Prop := {
  batch_count : 0 < blen paths ≤ MAX_DELETE_FILES_PER_RECORD;
  batch_payload : blen (encode_payload paths) ≤ MAX_DELETE_FILES_PAYLOAD_BYTES;
  batch_paths : Forall path_ok paths;
}.

Lemma blen_encode_path path : blen (encode_path path) = 4 + blen path.
Proof. unfold encode_path. by rewrite blen_app, blen_u32_bytes. Qed.

Lemma encode_payload_cons path paths :
  encode_payload (path :: paths) = encode_path path ++ encode_payload paths.
Proof. done. Qed.

Lemma encode_payload_snoc path paths :
  encode_payload (paths ++ [path]) = encode_payload paths ++ encode_path path.
Proof. unfold encode_payload. rewrite map_app, concat_app. simpl. by rewrite app_nil_r. Qed.

Lemma from_utf8_Some bs s : from_utf8 bs = Some s ↔ bs = s ∧ utf8_valid s = true.
Proof. unfold from_utf8. case_bool; naive_solver congruence. Qed.

(** One path of the loop: it succeeds exactly on an encoded well-formed path. *)
Lemma extract_path_decodes n pre rest acc r :
  blen (pre ++ rest) ≤ u32_max →
  extract_paths_loop (pre ++ rest) (S n) (blen pre) acc = Some r →
  ∃ s rest', rest = encode_path s ++ rest' ∧ path_ok s ∧
    extract_paths_loop ((pre ++ encode_path s) ++ rest') n (blen (pre ++ encode_path s)) (acc ++ [s])
    = Some r.
Proof.
  intros Hlen. rewrite blen_app in Hlen. pose proof (blen_nonneg pre). pose proof (blen_nonneg rest).
  simpl. rewrite checked_add_usize by (unfold SIZE_OF_U32; width_lia). simpl.
  intros (lb & (p1 & q1 & Heq & Hp1 & Hl1)%slice_Some & Hx)%bind_Some.
  apply app_inj_1 in Heq as [<- ->]; [|unfold blen in Hp1; lia].
  assert (blen lb = 4) as Hlb by (unfold SIZE_OF_U32 in *; lia).
  pose proof (u32_value_bounds _ Hlb) as Hv.
  apply bind_Some in Hx as (pe & Hpe%checked_add_Some & Hx). subst pe.
  apply bind_Some in Hx as (path & (p2 & q2 & Heq & Hp2 & Hl2)%slice_Some & Hx).
  rewrite app_assoc in Heq. apply app_inj_1 in Heq as [<- ->].
  2: { unfold blen in *. rewrite length_app. unfold SIZE_OF_U32 in *. lia. }
  destruct (_ || _) eqn:Hbad; [done|]. apply orb_false_iff in Hbad as [Hne Hnul].
  apply bool_decide_eq_false in Hne.
  apply bind_Some in Hx as (s & [-> Hutf]%from_utf8_Some & Hx).
  assert (lb = u32_bytes (blen s)) as -> by (rewrite <- (u32_bytes_value lb Hlb); f_equal; lia).
  exists s, q2. unfold encode_path. rewrite <- !app_assoc. split_and!; [done|by constructor|].
  rewrite !blen_app, blen_u32_bytes.
  by replace (blen pre + (4 + blen s)) with (blen pre + SIZE_OF_U32 + u32_value (u32_bytes (blen s)))
    by (unfold SIZE_OF_U32 in *; lia).
Qed.

Lemma extract_path_encoded n pre s rest acc :
  blen (pre ++ encode_path s ++ rest) ≤ u32_max → path_ok s →
  extract_paths_loop (pre ++ encode_path s ++ rest) (S n) (blen pre) acc =
  extract_paths_loop ((pre ++ encode_path s) ++ rest) n (blen (pre ++ encode_path s)) (acc ++ [s]).
Proof.
  intros Hlen [Hne Hnul Hutf]. rewrite !blen_app, blen_encode_path in Hlen.
  pose proof (blen_nonneg pre). pose proof (blen_nonneg s). pose proof (blen_nonneg rest).
  unfold encode_path. simpl. rewrite checked_add_usize by (unfold SIZE_OF_U32; width_lia). simpl.
  rewrite <- !app_assoc.
  rewrite (slice_app pre (u32_bytes (blen s))) by (rewrite ?blen_u32_bytes; unfold SIZE_OF_U32; lia).
  simpl. rewrite u32_value_bytes by lia.
  rewrite checked_add_usize by (unfold SIZE_OF_U32; width_lia). simpl.
  replace (slice _ (blen pre + SIZE_OF_U32) _) with (Some s).
  2: { symmetry. rewrite (app_assoc pre). apply slice_app;
       rewrite ?blen_app, ?blen_u32_bytes; unfold SIZE_OF_U32; lia. }
  simpl. rewrite bool_decide_false by done. rewrite Hnul. simpl.
  rewrite (proj2 (from_utf8_Some s s)) by done. simpl.
  f_equal. rewrite !blen_app, blen_u32_bytes. unfold SIZE_OF_U32. lia.
Qed.

(** The whole loop, in both directions. *)
Lemma extract_paths_loop_spec n : ∀ pre rest acc c out,
  blen (pre ++ rest) ≤ u32_max →
  extract_paths_loop (pre ++ rest) n (blen pre) acc = Some (c, out) ↔
  ∃ paths post, rest = encode_payload paths ++ post ∧ length paths = n ∧ Forall path_ok paths ∧
    out = acc ++ paths ∧ c = blen pre + blen (encode_payload paths).
Proof.
  induction n as [|n IH]; intros pre rest acc c out Hlen.
  - simpl. split.
    + intros [= <- <-]. exists [], rest. rewrite app_nil_r. split_and!; try done.
      unfold blen. simpl. lia.
    + intros (paths & post & -> & Hn & _ & -> & ->). apply length_zero_iff_nil in Hn as ->.
      rewrite app_nil_r. f_equal. f_equal. unfold blen. simpl. lia.
  - split.
    + intros (s & rest' & -> & Hok & Hx)%extract_path_decodes; [|done]. rewrite app_assoc in Hlen.
      apply IH in Hx as (paths & post & -> & Hn & Hoks & -> & ->); [|done].
      exists (s :: paths), post. rewrite encode_payload_cons, !blen_app, <- !app_assoc. simpl.
      split_and!; [done|lia|by constructor|done|lia].
    + intros ([|s paths] & post & -> & Hn & Hoks & -> & ->); [done|].
      apply Forall_cons in Hoks as [Hok Hoks].
      rewrite encode_payload_cons, <- app_assoc in *. rewrite extract_path_encoded by done.
      rewrite app_assoc in Hlen. apply IH; [done|]. exists paths, post. simpl in Hn.
      rewrite !blen_app, <- !app_assoc. split_and!; [done|lia|done|done|lia].
Qed.

Lemma delete_files_decodes d paths :
  extract_delete_file_paths d = Some paths → d = encode_delete_files paths ∧ batch_ok paths.
Proof.
  unfold extract_delete_file_paths.
  destruct (Z.ltb_spec (blen d) SIZE_OF_DELETE_FILES) as [|Hd]; [done|].
  intros (cb & (p0 & r0 & -> & Hp0 & Hcb)%slice_Some & Hx)%bind_Some.
  apply blen_nil_inv in Hp0 as ->. simpl in *.
  apply bind_Some in Hx as (lb & (p1 & rest & Heq & Hp1 & Hlb)%slice_Some & Hx).
  apply app_inj_1 in Heq as [<- ->]; [|unfold blen in *; lia].
  destruct (_ || _) eqn:Hbad; [done|]. rewrite !orb_false_iff in Hbad.
  destruct Hbad as [[Hzero Hcount] Hpay].
  apply bind_Some in Hx as (pe & Hpe%checked_add_Some & Hx). subst pe.
  destruct (Z.eqb_spec (blen (cb ++ lb ++ rest)) (SIZE_OF_DELETE_FILES + u32_value lb))
    as [Hlen|]; [|done]. simpl in Hx.
  apply bind_Some in Hx as ([c out] & Hx & Hfin). rewrite app_assoc in Hx.
  pose proof (u32_value_bounds cb ltac:(lia)). pose proof (u32_value_bounds lb ltac:(lia)).
  rewrite !blen_app in Hlen. unfold SIZE_OF_DELETE_FILES in *.
  replace 8 with (blen (cb ++ lb)) in Hx by (rewrite blen_app; lia).
  apply extract_paths_loop_spec in Hx as (ps & post & -> & Hn & Hok & -> & ->).
  2: { rewrite !blen_app. unfold MAX_DELETE_FILES_PAYLOAD_BYTES in *. width_lia. }
  destruct (Z.eqb_spec (blen (cb ++ lb) + blen (encode_payload ps)) (8 + u32_value lb))
    as [Hc|]; [|done]. injection Hfin as <-. simpl in *. rewrite blen_app in *.
  assert (post = []) as -> by (apply blen_nil_inv; lia).
  assert (blen ps = u32_value cb) as Hps by (unfold blen; lia).
  unfold encode_delete_files. rewrite Hps, app_nil_r.
  replace (blen (encode_payload ps)) with (u32_value lb) by lia.
  rewrite !u32_bytes_value, <- app_assoc by lia. split; [done|]. constructor; [lia| |done].
  lia.
Qed.

Lemma delete_files_encoded paths :
  batch_ok paths → extract_delete_file_paths (encode_delete_files paths) = Some paths.
Proof.
  intros [Hc Hp Hok]. unfold extract_delete_file_paths, encode_delete_files.
  pose proof (blen_nonneg (encode_payload paths)).
  rewrite !blen_app, !blen_u32_bytes. destruct (Z.ltb_spec (4 + 4 + blen (encode_payload paths))
    SIZE_OF_DELETE_FILES); [unfold SIZE_OF_DELETE_FILES in *; lia|].
  unfold MAX_DELETE_FILES_PER_RECORD, MAX_DELETE_FILES_PAYLOAD_BYTES in *.
  rewrite <- app_assoc at 1.
  rewrite slice_prefix by apply blen_u32_bytes. simpl. rewrite <- app_assoc at 1.
  rewrite (slice_app (u32_bytes (blen paths)) (u32_bytes (blen (encode_payload paths))))
    by (rewrite blen_u32_bytes; lia).
  simpl. rewrite !u32_value_bytes by width_lia.
  destruct (Z.eqb_spec (blen paths) 0); [lia|]. destruct (Z.ltb_spec 256 (blen paths)); [lia|].
  destruct (Z.ltb_spec (64 * 1024) (blen (encode_payload paths))); [lia|]. simpl.
  rewrite checked_add_usize by (unfold SIZE_OF_DELETE_FILES; width_lia). simpl.
  rewrite (proj2 (Z.eqb_eq _ _)) by (unfold SIZE_OF_DELETE_FILES; lia). simpl.
  set (hdr := u32_bytes (blen paths) ++ u32_bytes (blen (encode_payload paths))).
  assert (blen hdr = SIZE_OF_DELETE_FILES) as Hh
    by (unfold hdr; rewrite blen_app, !blen_u32_bytes; done).
  assert (blen (hdr ++ encode_payload paths) ≤ u32_max) as Hall
    by (rewrite blen_app, Hh; unfold SIZE_OF_DELETE_FILES; width_lia).
  rewrite <- Hh, (proj2 (extract_paths_loop_spec _ hdr (encode_payload paths) []
    (blen hdr + blen (encode_payload paths)) paths Hall)).
  + simpl. by rewrite Z.eqb_refl.
  + exists paths, []. rewrite app_nil_r. split_and!; try done. unfold blen. lia.
Qed.

(** C28. The file deletion codec is exact: recovery accepts a record as a list of
    paths exactly when the record is the encoding of that list and the list obeys
    the limits of the format (1 to 256 paths, at most 64 KiB of payload, every path
    nonempty, free of NUL and valid UTF-8).  In particular no two lists share a
    record and no trailing or missing byte is tolerated. *)
Theorem delete_files_codec d paths :
  extract_delete_file_paths d = Some paths ↔ d = encode_delete_files paths ∧ batch_ok paths.
Proof.
  split; [apply delete_files_decodes|]. intros [-> Hok]. by apply delete_files_encoded.
Qed.

(** ** Batching *)

(** The batch has no room for [path]. *)
Definition batch_full (batch : list RString) (path : RString) : bool :=
  (0 <? blen batch)
  && ((MAX_DELETE_FILES_PER_RECORD <=? blen batch)
      || (MAX_DELETE_FILES_PAYLOAD_BYTES <? blen (encode_payload batch) + (SIZE_OF_U32 + blen path))).

(** Greedy batching: the closed batches and the open one. *)
Fixpoint greedy (paths : list RString) (batch : list RString) : list (list RString) * list RString :=
  match paths with
  | [] => ([], batch)
  | path :: paths' =>
      if delete_file_fits_wal path
      then if batch_full batch path
           then let '(closed, open) := greedy paths' [path] in (batch :: closed, open)
           else greedy paths' (batch ++ [path])
      else greedy paths' batch
  end.

Definition delete_batches (paths : list RString) : list (list RString) :=
  let '(closed, open) := greedy paths [] in closed ++ if bool_decide (open = []) then [] else [open].

Definition delete_record (paths : list RString) : WalRecord :=
  mkRecord ICEBERG_RMGR_ID (op_u8 DeleteFiles) (encode_delete_files paths).

Lemma fits_spec path :
  delete_file_fits_wal path = true ↔
  path ≠ [] ∧ contains_nul path = false ∧ SIZE_OF_U32 + blen path ≤ MAX_DELETE_FILES_PAYLOAD_BYTES.
Proof.
  unfold delete_file_fits_wal. rewrite !andb_true_iff, !negb_true_iff, bool_decide_eq_false, !Z.leb_le.
  unfold SIZE_OF_U32, MAX_DELETE_FILES_PAYLOAD_BYTES. widths. intuition lia.
Qed.

(** Batches never overflow the record and lose or reorder nothing. *)
Lemma greedy_spec paths : ∀ batch,
  Forall (λ p, utf8_valid p = true) paths → batch = [] ∨ batch_ok batch →
  let '(closed, open) := greedy paths batch in
  Forall batch_ok closed ∧ (open = [] ∨ batch_ok open) ∧
  concat closed ++ open = batch ++ filter (λ p, delete_file_fits_wal p = true) paths.
Proof.
  induction paths as [|p paths IH]; intros batch Hutf Hb; simpl.
  { by rewrite app_nil_r. }
  apply Forall_cons in Hutf as [Hp Hutf]. rewrite filter_cons.
  destruct (delete_file_fits_wal p) eqn:Hfit; [|rewrite decide_False by done; by apply IH].
  rewrite decide_True by done. apply fits_spec in Hfit as (Hne & Hnul & Hlen).
  assert (path_ok p) as Hok by by constructor.
  assert (batch_ok [p]) as H1.
  { constructor; [unfold blen; simpl; unfold MAX_DELETE_FILES_PER_RECORD; lia| |by constructor].
    unfold encode_payload. simpl. rewrite app_nil_r, blen_encode_path. done. }
  destruct (batch_full batch p) eqn:Hfull.
  - specialize (IH [p] Hutf (or_intror H1)). destruct (greedy paths [p]) as [closed open].
    destruct IH as (Hc & Ho & Heq). destruct Hb as [->|Hb]; [done|]. split_and!; [by constructor|done|].
    simpl. by rewrite <- app_assoc, Heq.
  - assert (batch_ok (batch ++ [p])) as H2.
    2: { specialize (IH (batch ++ [p]) Hutf (or_intror H2)). destruct (greedy paths (batch ++ [p])).
         by rewrite <- app_assoc in IH. }
    destruct Hb as [->|[Hcnt Hpay Hall]]; [done|].
    unfold batch_full in Hfull. rewrite (proj2 (Z.ltb_lt _ _)) in Hfull by lia. simpl in Hfull.
    apply orb_false_iff in Hfull as [Hf1%Z.leb_gt Hf2%Z.ltb_ge].
    constructor; [rewrite blen_app; change (blen [p]) with 1; lia| |].
    2: { apply Forall_app. split; [done|]. by constructor. }
    rewrite encode_payload_snoc, blen_app, blen_encode_path. unfold SIZE_OF_U32 in *. lia.
Qed.

Lemma insert_delete_files_batch batch wal :
  insert_delete_files_record (blen batch) (encode_payload batch) wal =
  (xlog_lsn (records wal ++ [delete_record batch]),
   mkWal (records wal ++ [delete_record batch]) (flushed wal)).
Proof. unfold insert_delete_files_record, builder_insert. simpl. by rewrite app_nil_r. Qed.

(** The loop logs the closed batches and keeps the open one as its payload. *)
Lemma log_delete_files_loop_greedy paths : ∀ batch lsn wal,
  let '(closed, open) := greedy paths batch in
  let l := records wal ++ map delete_record closed in
  log_delete_files_loop paths (encode_payload batch) (blen batch) lsn wal =
  (encode_payload open, blen open, match closed with [] => lsn | _ => Some (xlog_lsn l) end,
   mkWal l (flushed wal)).
Proof.
  induction paths as [|p paths IH]; intros batch lsn wal;
    cbn [log_delete_files_loop greedy].
  { simpl. rewrite app_nil_r. by destruct wal. }
  unfold delete_file_fits_wal.
  destruct (bool_decide (p = [])), (contains_nul p); cbn [negb andb orb]; try apply IH.
  rewrite (Z.ltb_antisym (blen p) u32_max). destruct (blen p <=? u32_max); cbn [negb andb]; [|apply IH].
  rewrite (Z.ltb_antisym (SIZE_OF_U32 + blen p) MAX_DELETE_FILES_PAYLOAD_BYTES).
  destruct (SIZE_OF_U32 + blen p <=? MAX_DELETE_FILES_PAYLOAD_BYTES); cbn [negb]; [|apply IH].
  fold (batch_full batch p). destruct (batch_full batch p).
  - rewrite insert_delete_files_batch. simpl.
    specialize (IH [p] (Some (xlog_lsn (records wal ++ [delete_record batch])))
      (mkWal (records wal ++ [delete_record batch]) (flushed wal))).
    destruct (greedy paths [p]) as [closed open]. unfold encode_payload, encode_path in IH. simpl in IH.
    rewrite app_nil_r, <- app_assoc in IH. simpl in *. change (blen [p]) with 1 in IH.
    etrans; [exact IH|].
    by destruct closed.
  - specialize (IH (batch ++ [p]) lsn wal). destruct (greedy paths (batch ++ [p])) as [closed open].
    rewrite encode_payload_snoc, blen_app in IH. exact IH.
Qed.

Lemma log_delete_files_batches paths wal :
  let l := records wal ++ map delete_record (delete_batches paths) in
  log_delete_files paths wal =
  (match delete_batches paths with [] => None | _ => Some (xlog_lsn l) end, mkWal l (flushed wal)).
Proof.
  unfold log_delete_files, delete_batches. cbv zeta.
  pose proof (log_delete_files_loop_greedy paths [] None wal) as Hl.
  destruct (greedy paths []) as [closed open]. change (encode_payload []) with (@nil byte) in Hl.
  change (blen []) with 0 in Hl. rewrite Hl. rewrite map_app, app_assoc.
  case_bool_decide as Ho.
  - subst open. simpl. by rewrite !app_nil_r.
  - assert (0 < blen open) as Hpos.
    { pose proof (blen_nonneg open). destruct (Z.eq_dec (blen open) 0) as [E|]; [|lia].
      by apply blen_nil_inv in E. }
    rewrite (proj2 (Z.ltb_lt _ _)) by done. rewrite insert_delete_files_batch. simpl.
    by destruct closed.
Qed.

(** What recovery makes of the batches. *)
Lemma delete_batches_decode paths :
  Forall (λ p, utf8_valid p = true) paths →
  mapM (λ r, main_data r ≫= extract_delete_file_paths) (map delete_record (delete_batches paths)) =
    Some (delete_batches paths) ∧
  concat (delete_batches paths) = filter (λ p, delete_file_fits_wal p = true) paths.
Proof.
  intros Hutf. pose proof (greedy_spec paths [] Hutf (or_introl eq_refl)) as Hg. unfold delete_batches.
  destruct (greedy paths []) as [closed open]. destruct Hg as (Hc & Ho & Heq). simpl in Heq.
  set (bs := closed ++ if bool_decide (open = []) then [] else [open]).
  assert (Forall batch_ok bs) as Hbs.
  { apply Forall_app. split; [done|]. case_bool_decide; [done|]. constructor; [naive_solver|done]. }
  split.
  - clear -Hbs. induction Hbs as [|b bs Hb Hbs IH]; [done|]. simpl.
    assert (main_data (delete_record b) = Some (encode_delete_files b)) as ->.
    { unfold main_data, delete_record. simpl. destruct (encode_delete_files b) eqn:He; [|done].
      apply (f_equal blen) in He. unfold encode_delete_files in He.
      rewrite !blen_app, !blen_u32_bytes in He. pose proof (blen_nonneg (encode_payload b)).
      change (blen []) with 0 in He. lia. }
    simpl. rewrite delete_files_encoded by done. simpl. by rewrite IH.
  - rewrite <- Heq. unfold bs. rewrite concat_app. f_equal.
    case_bool_decide; [by subst|]. simpl. by rewrite app_nil_r.
Qed.

(** C21. Logging file deletions: the records appended to the log are deletion records
    that recovery decodes, in order and within the limits of the format, to exactly
    the representable paths of the input, each once, whatever their number and
    lengths; the LSN returned is that of the last of them, and none is returned
    when nothing was logged. *)
Theorem log_delete_files_decodes paths wal :
  Forall (λ p, utf8_valid p = true) paths →
  let '(lsn, wal') := log_delete_files paths wal in
  ∃ rs batches, records wal' = records wal ++ rs ∧ flushed wal' = flushed wal ∧
    mapM (λ r, main_data r ≫= extract_delete_file_paths) rs = Some batches ∧
    Forall (λ r, rmgr_id r = ICEBERG_RMGR_ID ∧ from_info (info r) = Some DeleteFiles) rs ∧
    concat batches = filter (λ p, delete_file_fits_wal p = true) paths ∧
    lsn = (if bool_decide (rs = []) then None else Some (xlog_lsn (records wal'))).
Proof.
  intros Hutf. rewrite log_delete_files_batches.
  destruct (delete_batches_decode paths Hutf) as [Hd Hc].
  exists (map delete_record (delete_batches paths)), (delete_batches paths).
  split_and!; try done; [|by destruct (delete_batches paths)]. apply Forall_map, Forall_true. done.
Qed.

(** ** Directory and write records *)

(** The flag bits that PostgreSQL keeps in the low half of the info byte do not
    change the operation. *)
Lemma from_info_flags op flags :
  0 ≤ flags < 16 → from_info (Z.lor (op_u8 op) flags) = Some op.
Proof.
  intros Hf. unfold from_info. rewrite Z.land_lor_distr_l.
  replace (Z.land flags 0xF0) with 0.
  - rewrite Z.lor_0_r. by destruct op.
  - symmetry. apply Z.bits_inj'. intros i Hi. rewrite Z.land_spec, Z.bits_0.
    destruct (Z.lt_ge_cases i 4) as [Hlt|Hge].
    + assert (i = 0 ∨ i = 1 ∨ i = 2 ∨ i = 3) as [-> | [-> | [-> | ->]]] by lia;
        apply andb_false_r.
    + rewrite (Z.bits_above_log2 flags); [done|lia|].
      destruct (Z.eq_dec flags 0) as [->|]; [simpl; lia|].
      apply Z.log2_lt_pow2; [lia|].
      apply Z.lt_le_trans with (2 ^ 4); [lia|]. apply Z.pow_le_mono_r; lia.
Qed.

Definition directory_data (path : RString) : list byte := DirectoryHeader_bytes path ++ path.
Definition write_file_data (path : RString) (offset : Z) (file_data : list byte) : list byte :=
  WriteFileHeader_bytes path offset ++ path ++ file_data.

Lemma path_len_mod (path : RString) : blen path ≤ u32_max → blen path mod 2 ^ 32 = blen path.
Proof. intros. pose proof (blen_nonneg path). apply Z.mod_small. width_lia. Qed.

Lemma extract_directory_data path :
  utf8_valid path = true → blen path ≤ u32_max →
  extract_directory_path (directory_data path) = Some path.
Proof.
  intros Hutf Hlen. pose proof (blen_nonneg path).
  unfold extract_directory_path, directory_data, DirectoryHeader_bytes, SIZE_OF_DIRECTORY.
  rewrite path_len_mod, blen_app, blen_u32_bytes by done.
  destruct (Z.ltb_spec (4 + blen path) 4); [lia|].
  rewrite slice_prefix by apply blen_u32_bytes. simpl. rewrite u32_value_bytes by lia.
  rewrite checked_add_usize by width_lia. simpl. rewrite Z.ltb_irrefl.
  rewrite <- (app_nil_r path) at 2.
  rewrite (slice_app (u32_bytes (blen path)) path) by (rewrite ?blen_u32_bytes; lia).
  simpl. by apply from_utf8_Some.
Qed.

Lemma blen_write_header path offset : blen (WriteFileHeader_bytes path offset) = 16.
Proof. unfold WriteFileHeader_bytes. by rewrite !blen_app, !blen_u32_bytes, blen_ne_bytes. Qed.

Lemma extract_write_file_data path offset file_data :
  utf8_valid path = true → blen path ≤ u32_max → i64_min ≤ offset ≤ i64_max →
  extract_write_file_info (write_file_data path offset file_data) =
  Some (path, offset, blen file_data).
Proof.
  intros Hutf Hlen Hoff. pose proof (blen_nonneg path). pose proof (blen_nonneg file_data).
  unfold extract_write_file_info, write_file_data, SIZE_OF_WRITE_FILE.
  rewrite !blen_app, blen_write_header.
  destruct (Z.ltb_spec (16 + (blen path + blen file_data)) 16); [lia|].
  assert (slice (WriteFileHeader_bytes path offset ++ path ++ file_data) 0 4 =
    Some (u32_bytes (blen path))) as ->.
  { unfold WriteFileHeader_bytes. rewrite path_len_mod, <- !app_assoc by done.
    apply slice_prefix, blen_u32_bytes. }
  assert (slice (WriteFileHeader_bytes path offset ++ path ++ file_data) 8 16 =
    Some (ne_bytes big_endian 8 offset)) as ->.
  { unfold WriteFileHeader_bytes. rewrite <- !app_assoc.
    rewrite (app_assoc (u32_bytes _)). apply slice_app; [|by rewrite blen_ne_bytes].
    by rewrite blen_app, !blen_u32_bytes. }
  simpl. rewrite u32_value_bytes by lia. rewrite checked_add_usize by width_lia. simpl.
  destruct (Z.ltb_spec (16 + (blen path + blen file_data)) (16 + blen path)); [lia|].
  rewrite slice_app by (rewrite ?blen_write_header; lia). simpl.
  rewrite (proj2 (from_utf8_Some path path)) by done. simpl.
  rewrite ne_signed_bytes by (simpl; width_lia). do 2 f_equal. lia.
Qed.

Lemma builder_insert_data chunks rmgr op wal d :
  concat chunks = d →
  builder_insert chunks rmgr op wal =
  (xlog_lsn (records wal ++ [mkRecord rmgr op d]), mkWal (records wal ++ [mkRecord rmgr op d]) (flushed wal)).
Proof. by intros <-. Qed.

Lemma log_write_file_record path offset file_data wal :
  log_write_file path offset file_data wal =
  let l := records wal ++ [mkRecord ICEBERG_RMGR_ID (op_u8 WriteFile)
                             (write_file_data path offset file_data)] in
  (xlog_lsn l, mkWal l (flushed wal)).
Proof.
  apply builder_insert_data. unfold write_file_data. simpl.
  case_bool_decide as Hd; simpl; [by subst|by rewrite app_nil_r].
Qed.

Lemma main_data_write_file rmgr op path offset file_data :
  main_data (mkRecord rmgr op (write_file_data path offset file_data)) =
  Some (write_file_data path offset file_data).
Proof.
  unfold main_data. simpl. destruct (write_file_data path offset file_data) eqn:He; [|done].
  apply (f_equal blen) in He. unfold write_file_data in He.
  rewrite !blen_app, blen_write_header in He. pose proof (blen_nonneg path).
  pose proof (blen_nonneg file_data). change (blen []) with 0 in He. lia.
Qed.

Lemma write_file_data_drop path offset file_data :
  let d := write_file_data path offset file_data in
  drop (Z.to_nat (blen d - blen file_data)) d = file_data.
Proof.
  simpl. unfold write_file_data. rewrite app_assoc. rewrite blen_app.
  apply drop_app_length'. unfold blen. lia.
Qed.

(** File write records round trip: whatever path, offset and data a backend logs,
    recovery reads back the same path and offset, finds the operation under any
    flag bits PostgreSQL adds, and its data slice is the logged data. *)
Theorem write_file_roundtrip path offset file_data flags wal :
  utf8_valid path = true → blen path ≤ u32_max → i64_min ≤ offset ≤ i64_max → 0 ≤ flags < 16 →
  let '(lsn, wal') := log_write_file path offset file_data wal in
  ∃ r d, records wal' = records wal ++ [r] ∧ lsn = xlog_lsn (records wal') ∧
    main_data r = Some d ∧ from_info (Z.lor (info r) flags) = Some WriteFile ∧
    extract_write_file_info d = Some (path, offset, blen file_data) ∧
    slice d (blen d - blen file_data) (blen d) = Some file_data.
Proof.
  intros Hutf Hlen Hoff Hflags. rewrite log_write_file_record. simpl.
  eexists _, (write_file_data path offset file_data).
  split_and!; [reflexivity|done|apply main_data_write_file|by apply (from_info_flags WriteFile)
    |by apply extract_write_file_data|].
  apply slice_Some. exists (WriteFileHeader_bytes path offset ++ path), [].
  rewrite app_nil_r. unfold write_file_data. rewrite <- app_assoc, !blen_app.
  split_and!; [done|lia|lia].
Qed.
End wal.

(** ** Witnesses *)

(** LSNs that grow with the log. *)
Definition count_lsn (l : list WalRecord) : Z := blen l.

Definition example_paths : list RString :=
  [lit "base/1/data-a.parquet"; []; lit "base/1/delete-a.parquet"].

(** The empty path is skipped; the other two share a record. *)
Lemma log_delete_files_decodes_witness :
  ∃ r, records (snd (log_delete_files false count_lsn example_paths (mkWal [] 0))) = [r] ∧
    (main_data r ≫= extract_delete_file_paths false) =
    Some [lit "base/1/data-a.parquet"; lit "base/1/delete-a.parquet"].
Proof.
  pose proof (log_delete_files_decodes false count_lsn example_paths (mkWal [] 0)) as H.
  destruct (log_delete_files false count_lsn example_paths (mkWal [] 0)) as [lsn wal'] eqn:E.
  destruct H as (rs & batches & Hr & _ & Hm & _ & Hc & _).
  { repeat constructor. }
  simpl in Hr. assert (∃ r, rs = [r]) as [r ->].
  { rewrite <- Hr. eexists. transitivity (records (snd (lsn, wal'))); [done|].
    rewrite <- E. vm_compute. reflexivity. }
  exists r. split; [done|]. simpl in Hm. destruct (main_data r ≫= _) as [b|]; [|done].
  injection Hm as <-. simpl in Hc. rewrite app_nil_r in Hc. by rewrite Hc.
Defined.

