(* ===== verification/WalReplay.v ===== *)
(** * Recovery of local files

    The redo functions of lagodb-iceberg/src/storage/local_file_wal/rmgr.rs and
    the file writer of lagodb-iceberg/src/storage/local.rs that produces the
    records they replay.

    The operating system and PostgreSQL's virtual file descriptors are the class
    [FileSystem]; [FileSystemLaws] states what POSIX documents of the calls for
    paths that name distinct files.  Every call may fail. *)
From stdpp Require Import base list gmap strings.
From Stdlib Require Import ZArith Lia.
From S2P Require Import Prelude Bytes WalRecord.
Open Scope Z_scope.

Inductive IoErrorKind := IoNotFound | IoOther.

Inductive WalRmgrError := RedoFailed (path : RString) | InvalidRecord (reason : string).

(** [contents] observes a file system; the other fields are its calls.
    [fs_write] returns the number of bytes written, negative on error. *)
Class FileSystem := {
  FS : Type;
  contents : FS → RString → option (list byte);
  fs_is_dir : FS → RString → result IoErrorKind bool;
  fs_remove_dir_all : FS → RString → result IoErrorKind unit * FS;
  fs_remove_file : FS → RString → result IoErrorKind unit * FS;
  fs_ensure_parent : FS → RString → result IoErrorKind unit * FS;
  fs_open : FS → RString → bool → result IoErrorKind unit * FS;
  fs_write : FS → RString → Z → list byte → Z * FS;
  fs_sync : FS → RString → result IoErrorKind unit * FS;
  inside : RString → RString → Prop;
}.

(** The bytes of a file after writing [d] at [offset]: a hole reads as zeros. *)
Definition overwrite (c : list byte) (offset : Z) (d : list byte) : list byte :=
  take (Z.to_nat offset) (c ++ replicate (Z.to_nat offset - length c) (byte_of 0)) ++ d
  ++ drop (Z.to_nat offset + length d) c.

Class FileSystemLaws (F : FileSystem) : Prop := {
  ensure_parent_contents fs p r fs' q :
    fs_ensure_parent fs p = (r, fs') → contents fs' q = contents fs q;
  open_create fs p fs' :
    fs_open fs p true = (Ok tt, fs') →
    contents fs' p = Some [] ∧ ∀ q, q ≠ p → contents fs' q = contents fs q;
  open_existing fs p fs' :
    fs_open fs p false = (Ok tt, fs') →
    is_Some (contents fs p) ∧ ∀ q, contents fs' q = contents fs q;
  open_failed fs p create e fs' :
    fs_open fs p create = (Err e, fs') → ∀ q, contents fs' q = contents fs q;
  open_not_found fs p fs' : fs_open fs p false = (Err IoNotFound, fs') → contents fs p = None;
  write_done fs p offset d n fs' c :
    fs_write fs p offset d = (n, fs') → 0 ≤ n → 0 ≤ offset → contents fs p = Some c →
    n ≤ blen d ∧ contents fs' p = Some (overwrite c offset (take (Z.to_nat n) d)) ∧
    ∀ q, q ≠ p → contents fs' q = contents fs q;
  sync_contents fs p r fs' q : fs_sync fs p = (r, fs') → contents fs' q = contents fs q;
  remove_file_done fs p r fs' :
    fs_remove_file fs p = (r, fs') →
    (r = Ok tt ∨ r = Err IoNotFound → contents fs' p = None) ∧
    (∀ q, q ≠ p → contents fs' q = contents fs q);
  remove_dir_done fs p r fs' q :
    fs_remove_dir_all fs p = (r, fs') →
    (¬ inside p q → contents fs' q = contents fs q) ∧
    (r = Ok tt → inside p q → contents fs' q = None);
}.

Section replay.
Context (big_endian : bool) (xlog_lsn : list WalRecord → Z).
Context {F : FileSystem}.

Abbreviation extract_directory := (extract_directory_path big_endian).
Abbreviation extract_deletes := (extract_delete_file_paths big_endian).
Abbreviation extract_write := (extract_write_file_info big_endian).

(** The recovering process: its files and [LOSSY_SKIPPED_WRITE_PATHS]. *)
Record ReplayState := mkReplay {
  files : FS;
  lossy : gset RString;
}.

Abbreviation redo_result := (result WalRmgrError unit * ReplayState)%type.

Definition require_data {A} (r : WalRecord) (extract : list byte → option A) (what : string)
    : result WalRmgrError A :=
  match main_data r with
  | None => Err (InvalidRecord "Missing main data")
  | Some d => ok_or (extract d) (InvalidRecord what)
  end.

Definition redo_remove_directory (r : WalRecord) (st : ReplayState) : redo_result :=
  match require_data r extract_directory "Failed to extract directory path" with
  | Err e => (Err e, st)
  | Ok path =>
      match fs_is_dir (files st) path with
      | Ok true => (Ok tt, mkReplay (snd (fs_remove_dir_all (files st) path)) (lossy st))
      | Ok false => (Ok tt, mkReplay (snd (fs_remove_file (files st) path)) (lossy st))
      | Err _ => (Ok tt, st)
      end
  end.

Definition redo_delete_file (st : ReplayState) (path : RString) : ReplayState :=
  mkReplay (snd (fs_remove_file (files st) path)) (lossy st ∖ {[ path ]}).

Definition redo_delete_files (r : WalRecord) (st : ReplayState) : redo_result :=
  match require_data r extract_deletes "Invalid DELETE_FILES record" with
  | Err e => (Err e, st)
  | Ok paths => (Ok tt, foldl redo_delete_file st paths)
  end.

(** From the opened file on. *)
Definition redo_write_data (path : RString) (offset : Z) (file_data : list byte) (st : ReplayState)
    : redo_result :=
  let lossy' := if offset =? 0 then lossy st ∖ {[ path ]} else lossy st in
  if bool_decide (file_data = []) then (Ok tt, mkReplay (files st) lossy')
  else
    let '(n, fs) := fs_write (files st) path offset file_data in
    if (n <? 0) || negb (n =? blen file_data)
    then (Err (RedoFailed path), mkReplay fs lossy')
    else (Ok tt, mkReplay fs lossy').

Definition redo_write_file (crash_recovery_only : bool) (r : WalRecord) (st : ReplayState) : redo_result :=
  if crash_recovery_only then (Ok tt, st)
  else
  match main_data r with
  | None => (Err (InvalidRecord "Missing main data"), st)
  | Some d =>
      match extract_write d with
      | None => (Err (InvalidRecord "Invalid WRITE_FILE record"), st)
      | Some (path, offset, data_len) =>
          let file_data := drop (Z.to_nat (blen d - data_len)) d in
          if (0 <? offset) && bool_decide (path ∈ lossy st) then (Ok tt, st)
          else
            let '(parent, fs) := fs_ensure_parent (files st) path in
            let st := mkReplay fs (lossy st) in
            match parent with
            | Err _ => (Err (RedoFailed path), st)
            | Ok _ =>
                if contains_nul path then (Err (InvalidRecord "Invalid path string"), st)
                else
                  let '(file, fs) := fs_open (files st) path (offset =? 0) in
                  let st := mkReplay fs (lossy st) in
                  match file with
                  | Err IoNotFound =>
                      if 0 <? offset then (Ok tt, mkReplay fs (lossy st ∪ {[ path ]}))
                      else (Err (RedoFailed path), st)
                  | Err IoOther => (Err (RedoFailed path), st)
                  | Ok _ => redo_write_data path offset file_data st
                  end
            end
      end
  end.

Definition redo (crash_recovery_only : bool) (r : WalRecord) (st : ReplayState) : redo_result :=
  match from_info (info r) with
  | None => (Err (InvalidRecord "Unknown Iceberg WAL op"), st)
  | Some DeleteDirectory => redo_remove_directory r st
  | Some WriteFile => redo_write_file crash_recovery_only r st
  | Some DeleteFiles => redo_delete_files r st
  | Some TruncateDirectory =>
      if crash_recovery_only then (Ok tt, st) else redo_remove_directory r st
  end.

(** Recovery replays records in order; an error ends the recovering process. *)
Fixpoint replay (crash_recovery_only : bool) (rs : list WalRecord) (st : ReplayState) : redo_result :=
  match rs with
  | [] => (Ok tt, st)
  | r :: rs' =>
      let '(o, st) := redo crash_recovery_only r st in
      match o with
      | Ok _ => replay crash_recovery_only rs' st
      | Err e => (Err e, st)
      end
  end.

(** [IcebergRmgr::cleanup]. *)
Definition rmgr_cleanup (st : ReplayState) : ReplayState := mkReplay (files st) ∅.

(** ** The writer *)

Record PgFileWrite := mkWriter {
  writer_path : RString;
  position : Z;
  needs_wal : bool;
}.

Record WriteState := mkWriteState { disk : FS; wal : Wal }.

(** [PgFileWrite::open_with_wal]. *)
Definition open_with_wal (path : RString) (needs_wal : bool) (st : WriteState)
    : result IoErrorKind PgFileWrite * WriteState :=
  if contains_nul path then (Err IoOther, st)
  else
    let '(file, fs) := fs_open (disk st) path true in
    match file with
    | Err e => (Err e, mkWriteState fs (wal st))
    | Ok _ => (Ok (mkWriter path 0 needs_wal), mkWriteState fs (wal st))
    end.

Definition writer_write (w : PgFileWrite) (buf : list byte) (st : WriteState)
    : result IoErrorKind Z * PgFileWrite * WriteState :=
  if bool_decide (buf = []) then (Ok 0, w, st)
  else
    let write_position := position w in
    let '(n, fs) := fs_write (disk st) (writer_path w) write_position buf in
    if n <? 0 then (Err IoOther, w, mkWriteState fs (wal st))
    else
      let w := mkWriter (writer_path w) (position w + n) (needs_wal w) in
      let log :=
        if needs_wal w && (0 <? n)
        then snd (log_write_file big_endian xlog_lsn (writer_path w) write_position
                    (take (Z.to_nat n) buf) (wal st))
        else wal st in
      (Ok n, w, mkWriteState fs log).

Definition writer_close (w : PgFileWrite) (st : WriteState) : result IoErrorKind Z * WriteState :=
  let '(r, fs) := fs_sync (disk st) (writer_path w) in
  (match r with Ok _ => Ok (position w) | Err e => Err e end, mkWriteState fs (wal st)).

(** A file written by a sequence of [write] calls. *)
Fixpoint write_all (w : PgFileWrite) (bufs : list (list byte)) (st : WriteState)
    : result IoErrorKind unit * PgFileWrite * WriteState :=
  match bufs with
  | [] => (Ok tt, w, st)
  | buf :: bufs' =>
      let '(r, w, st) := writer_write w buf st in
      match r with
      | Err e => (Err e, w, st)
      | Ok _ => write_all w bufs' st
      end
  end.

(** ** Replaying a written file *)

Context {FL : FileSystemLaws F}.

(** No call fails for want of space, permission or hardware. *)
Record fs_healthy : Prop := {
  healthy_parent fs p : ∃ fs', fs_ensure_parent fs p = (Ok tt, fs');
  healthy_create fs p : ∃ fs', fs_open fs p true = (Ok tt, fs');
  healthy_open fs p : is_Some (contents fs p) → ∃ fs', fs_open fs p false = (Ok tt, fs');
  healthy_write fs p offset d : ∃ fs', fs_write fs p offset d = (blen d, fs');
}.

Lemma overwrite_end c d : overwrite c (blen c) d = c ++ d.
Proof.
  unfold overwrite, blen. rewrite Nat2Z.id, Nat.sub_diag. simpl. rewrite app_nil_r.
  by rewrite firstn_all, drop_ge, app_nil_r by lia.
Qed.

(** The record of one chunk. *)
Definition write_record (path : RString) (offset : Z) (d : list byte) : WalRecord :=
  mkRecord ICEBERG_RMGR_ID (op_u8 WriteFile) (write_file_data big_endian path offset d).

(** The chunks of a file, as the records that write them from [offset] on. *)
Fixpoint chunk_records (path : RString) (offset : Z) (chunks : list (list byte)) : list WalRecord :=
  match chunks with
  | [] => []
  | d :: chunks' => write_record path offset d :: chunk_records path (offset + blen d) chunks'
  end.

(** Opening at the offset the file ends at. *)
Lemma open_at fs path offset c o fs' :
  fs_open fs path (offset =? 0) = (o, fs') → 0 ≤ offset →
  (0 < offset → contents fs path = Some c ∧ blen c = offset) → (offset = 0 → c = []) →
  match o with
  | Ok _ => contents fs' path = Some c ∧ offset = blen c ∧
            ∀ q, q ≠ path → contents fs' q = contents fs q
  | Err e => ¬ fs_healthy ∧ (0 < offset → e ≠ IoNotFound)
  end.
Proof.
  intros Hopen H0 Hmid Hstart. destruct (Z.eqb_spec offset 0) as [->|Hne].
  - rewrite (Hstart eq_refl). destruct o as [[]|e]; [by apply open_create in Hopen as [? ?]|].
    split; [|lia]. intros [_ Hh _ _]. destruct (Hh fs path). congruence.
  - destruct Hmid as [Hc Hb]; [lia|]. destruct o as [[]|e].
    + apply open_existing in Hopen as [_ Hsame]. split_and!; [by rewrite Hsame|done|by intros; apply Hsame].
    + split.
      * intros [_ _ Hh _]. destruct (Hh fs path) as [? Hf]; [by rewrite Hc|congruence].
      * intros _ ->. apply open_not_found in Hopen. congruence.
Qed.

(** A logged chunk that does not fail is in the file afterwards. *)
Lemma redo_write_chunk path offset d st c o st' :
  utf8_valid path = true → contains_nul path = false → blen path ≤ u32_max →
  0 ≤ offset ≤ i64_max → d ≠ [] →
  (0 < offset → (path ∉ lossy st) ∧ contents (files st) path = Some c ∧ blen c = offset) →
  (offset = 0 → c = []) →
  redo false (write_record path offset d) st = (o, st') →
  (¬ fs_healthy ∧ ∃ e, o = Err e) ∨
  o = Ok tt ∧ contents (files st') path = Some (c ++ d) ∧ (path ∉ lossy st') ∧
  (∀ q, q ≠ path → contents (files st') q = contents (files st) q).
Proof.
  intros Hutf Hnul Hlen Hoff Hd Hmid Hstart.
  unfold redo. change (from_info (info (write_record path offset d))) with (Some WriteFile). cbv iota.
  unfold redo_write_file, write_record.
  rewrite main_data_write_file, extract_write_file_data by (done || width_lia).
  rewrite write_file_data_drop. replace ((0 <? offset) && bool_decide (path ∈ lossy st)) with false.
  2: { destruct (Z.ltb_spec 0 offset); [|done]. by rewrite bool_decide_false by naive_solver. }
  destruct (fs_ensure_parent (files st) path) as [[[]|e] fs1] eqn:Hpar.
  2: { intros [= <- <-]. left. split; [|eauto]. intros [Hh _ _ _].
       destruct (Hh (files st) path). congruence. }
  pose proof (ensure_parent_contents _ _ _ _ path Hpar) as Hc1.
  rewrite Hnul. simpl.
  destruct (fs_open fs1 path (offset =? 0)) as [[[]|e] fs2] eqn:Hopen.
  2: { destruct (open_at fs1 path offset c _ _ Hopen ltac:(lia)) as (Hsick & Hfound).
       { intros Hpos. rewrite Hc1. by apply Hmid. }
       { done. }
       destruct e; [|intros [= <- <-]; eauto].
       destruct (Z.ltb_spec 0 offset) as [Hpos|]; intros [= <- <-]; [by apply Hfound in Hpos|eauto]. }
  destruct (open_at fs1 path offset c _ _ Hopen ltac:(lia)) as (Hc2 & Hoc & Hq2).
  { intros Hpos. rewrite Hc1. by apply Hmid. }
  { done. }
  unfold redo_write_data. rewrite bool_decide_false by done. simpl.
  destruct (fs_write fs2 path offset d) as [n fs3] eqn:Hw.
  destruct (Z.eqb_spec n (blen d)) as [->|Hn].
  2: { assert (¬ fs_healthy).
       { intros [_ _ _ Hh]. destruct (Hh fs2 path offset d). congruence. }
       rewrite orb_true_r. intros [= <- <-]. eauto. }
  pose proof (blen_nonneg d). rewrite (proj2 (Z.ltb_ge _ _)) by done. simpl.
  intros [= <- <-]. right.
  destruct (write_done _ _ _ _ _ _ c Hw) as (_ & Hc3 & Hq3); [done|lia|done|]. simpl.
  split_and!; [done|..].
  - rewrite Hc3. unfold blen at 1. rewrite Nat2Z.id, firstn_all, Hoc. by rewrite overwrite_end.
  - destruct (Z.eqb_spec offset 0); [set_solver|]. by destruct (Hmid ltac:(lia)).
  - intros q Hq. rewrite Hq3, Hq2 by done. by rewrite (ensure_parent_contents _ _ _ _ q Hpar).
Qed.

(** The chunks of a file, replayed from its first byte. *)
Lemma replay_chunks path chunks : ∀ c st o st',
  utf8_valid path = true → contains_nul path = false → blen path ≤ u32_max →
  Forall (λ d, d ≠ []) chunks →
  blen c + blen (concat chunks) ≤ i64_max →
  (c ≠ [] → (path ∉ lossy st) ∧ contents (files st) path = Some c) →
  replay false (chunk_records path (blen c) chunks) st = (o, st') →
  (¬ fs_healthy ∧ ∃ e, o = Err e) ∨
  o = Ok tt ∧
  contents (files st') path =
    match chunks with [] => contents (files st) path | _ => Some (c ++ concat chunks) end ∧
  (∀ q, q ≠ path → contents (files st') q = contents (files st) q).
Proof.
  induction chunks as [|d chunks IH]; intros c st o st' Hutf Hnul Hlen Hne Hmax Hc; simpl.
  { intros [= <- <-]. by right. }
  apply Forall_cons in Hne as [Hd Hne]. simpl in Hmax. rewrite blen_app in Hmax.
  pose proof (blen_nonneg c). pose proof (blen_nonneg d). pose proof (blen_nonneg (concat chunks)).
  destruct (redo false (write_record path (blen c) d) st) as [o1 st1] eqn:Hr.
  eapply redo_write_chunk with (c := c) in Hr as [(? & e & ->)|(Hok & Hc1 & Hl1 & Hq1)]; try done;
    [intros [= <- <-]; eauto| |lia| |by apply blen_nil_inv].
  2: { intros Hpos. destruct Hc as [? ?]; [|done]. by intros ->. }
  subst o1.
  rewrite <- blen_app. intros Hrep. eapply IH in Hrep as [?|(-> & Hall & Hq)]; try done.
  - by left.
  - right. split_and!; [done| |intros q Hqp; by rewrite Hq, Hq1].
    rewrite Hall. destruct chunks; [simpl; by rewrite app_nil_r|by rewrite <- app_assoc].
  - rewrite blen_app. lia.
Qed.

(** Crash recovery replays no write. *)
Lemma replay_crash_chunks path chunks : ∀ offset st,
  replay true (chunk_records path offset chunks) st = (Ok tt, st).
Proof. induction chunks as [|d chunks IH]; intros offset st; simpl; [done|apply IH]. Qed.

(** Every successful write appends to the file and logs what it appended. *)
Lemma write_all_spec bufs : ∀ w st c w' st',
  needs_wal w = true → contents (disk st) (writer_path w) = Some c → position w = blen c →
  write_all w bufs st = (Ok tt, w', st') →
  ∃ chunks, Forall (λ d, d ≠ []) chunks ∧
    records (wal st') = records (wal st) ++ chunk_records (writer_path w) (blen c) chunks ∧
    contents (disk st') (writer_path w) = Some (c ++ concat chunks) ∧
    position w' = blen c + blen (concat chunks) ∧ writer_path w' = writer_path w.
Proof.
  induction bufs as [|buf bufs IH]; intros w st c w' st' Hwal Hc Hpos; simpl.
  { intros [= <- <-]. exists []. simpl. rewrite !app_nil_r. change (blen []) with 0.
    split_and!; try done. lia. }
  destruct (writer_write w buf st) as [[[n|e] w1] st1] eqn:Hw; [|done].
  unfold writer_write in Hw. case_bool_decide.
  { injection Hw as <- <- <-. by apply IH. }
  destruct (fs_write (disk st) (writer_path w) (position w) buf) as [k fs1] eqn:Hfs.
  destruct (Z.ltb_spec k 0) as [|Hk]; [done|]. rewrite Hwal in Hw.
  cbn [andb needs_wal writer_path] in Hw. rewrite log_write_file_record in Hw.
  rewrite Hpos in Hfs. pose proof (blen_nonneg c).
  destruct (write_done _ _ _ _ _ _ c Hfs) as (Hle & Hc1 & _); [done..|].
  rewrite overwrite_end in Hc1. set (d := take (Z.to_nat k) buf) in *.
  assert (blen d = k) as Hd by (unfold d, blen in *; rewrite length_take; lia).
  injection Hw as <- <- <-. intros Hall.
  eapply (IH _ _ (c ++ d)) in Hall as (chunks & Hne & Hr & Hcc & Hp & Hpath); simpl in *; try done.
  2: { by rewrite blen_app, Hpos, Hd. }
  rewrite <- app_assoc in Hcc.
  destruct (Z.ltb_spec 0 k) as [Hk0|]; simpl in Hr.
  - exists (d :: chunks). rewrite Hr, Hp, Hpos, <- app_assoc, !blen_app. simpl. rewrite blen_app.
    split_and!; try done; [|lia]. constructor; [|done]. intros E. rewrite E in Hd.
    change (blen []) with 0 in Hd. lia.
  - assert (d = []) as E by (apply blen_nil_inv; lia). rewrite E, !app_nil_r in *. simpl in *.
    exists chunks. rewrite Hp. done.
Qed.

(** C15. A standby rebuilds the files of the primary: when a WAL-logged writer has
    opened a file and completed any sequence of writes, short writes included,
    replaying the records it logged, on whatever files and lossy-path set the
    recovering process starts with, either stops with an error, which a healthy
    file system never causes, or leaves the file with exactly the primary's bytes
    and every other file untouched.  An empty file logs nothing, and crash-only
    recovery of the same records changes nothing. *)
Theorem standby_rebuilds_file path bufs ps w ps1 w' ps2 :
  utf8_valid path = true → blen path ≤ u32_max →
  open_with_wal path true ps = (Ok w, ps1) → write_all w bufs ps1 = (Ok tt, w', ps2) →
  position w' ≤ i64_max →
  ∃ rs c, records (wal ps2) = records (wal ps) ++ rs ∧ contents (disk ps2) path = Some c ∧
    (rs = [] ↔ c = []) ∧
    (∀ st, replay true rs st = (Ok tt, st)) ∧
    ∀ st, let '(o, st') := replay false rs st in
      (¬ fs_healthy ∧ ∃ e, o = Err e) ∨
      o = Ok tt ∧ contents (files st') path = (if bool_decide (c = []) then contents (files st) path else Some c) ∧
      (∀ q, q ≠ path → contents (files st') q = contents (files st) q).
Proof.
  intros Hutf Hlen Hopen Hall Hmax. unfold open_with_wal in Hopen.
  destruct (contains_nul path) eqn:Hnul; [done|].
  destruct (fs_open (disk ps) path true) as [[[]|e] fs] eqn:Hfs; [|done]. injection Hopen as <- <-.
  apply open_create in Hfs as [Hc _].
  destruct (write_all_spec bufs (mkWriter path 0 true) (mkWriteState fs (wal ps)) [] w' ps2
    eq_refl Hc eq_refl Hall) as (chunks & Hne & Hr & Hcc & Hp & _). simpl in Hcc. change (blen []) with 0 in *.
  exists (chunk_records path 0 chunks), (concat chunks). split_and!; [done|done| | |].
  - destruct chunks as [|d chunks]; [done|]. apply Forall_cons in Hne as [Hd _]. simpl.
    split; [done|]. by intros [? _]%app_eq_nil.
  - apply replay_crash_chunks.
  - intros st. destruct (replay false _ st) as [o st'] eqn:Hrep.
    eapply (replay_chunks path chunks []) in Hrep; try done; [|change (blen []) with 0; lia].
    destruct Hrep as [?|(-> & Hcon & Hq)]; [by left|right]. split_and!; try done. rewrite Hcon.
    destruct chunks as [|d chunks]; [done|]. apply Forall_cons in Hne as [Hd _].
    rewrite bool_decide_false; [done|]. simpl. by intros [? _]%app_eq_nil.
Qed.
End replay.

(** ** A reference file system

    Files are a map; directories are implicit. *)

Definition map_write (fs : gmap RString (list byte)) (p : RString) (offset : Z) (d : list byte)
    : Z * gmap RString (list byte) :=
  match fs !! p with
  | Some c => (blen d, <[p := overwrite c offset d]> fs)
  | None => (blen d, fs)
  end.

#[export] Instance map_fs : FileSystem := {|
  FS := gmap RString (list byte);
  contents fs p := fs !! p;
  fs_is_dir fs p := match fs !! p with Some _ => Ok false | None => Err IoNotFound end;
  fs_remove_dir_all fs p := (Err IoNotFound, fs);
  fs_remove_file fs p :=
    match fs !! p with Some _ => (Ok tt, delete p fs) | None => (Err IoNotFound, fs) end;
  fs_ensure_parent fs p := (Ok tt, fs);
  fs_open fs p create :=
    if create then (Ok tt, <[p := []]> fs)
    else match fs !! p with Some _ => (Ok tt, fs) | None => (Err IoNotFound, fs) end;
  fs_write := map_write;
  fs_sync fs p := (Ok tt, fs);
  inside p q := False;
|}.

#[export] Instance map_fs_laws : FileSystemLaws map_fs.
Proof.
  constructor; simpl.
  - intros fs p r fs' q H. by injection H as <- <-.
  - intros fs p fs' H. injection H as <-. split; [by rewrite lookup_insert_eq|]. intros. by rewrite lookup_insert_ne.
  - intros fs p fs'. destruct (fs !! p) eqn:E; [|done]. intros [= <-]. split; [by eexists|done].
  - intros fs p [] e fs'; [done|]. destruct (fs !! p); by intros [= <- <-].
  - intros fs p fs'. destruct (fs !! p) eqn:E; [done|]. done.
  - intros fs p offset d n fs' c. unfold map_write. intros Hw Hn Ho Hc. rewrite Hc in Hw.
    injection Hw as <- <-. split_and!; [done| |intros; by rewrite lookup_insert_ne].
    rewrite lookup_insert_eq. unfold blen. by rewrite Nat2Z.id, firstn_all.
  - intros fs p r fs' q H. by injection H as <- <-.
  - intros fs p r fs'. destruct (fs !! p) eqn:E; intros [= <- <-]; split; try done.
    + intros _. apply lookup_delete_eq.
    + intros. by rewrite lookup_delete_ne.
  - intros fs p r fs' q H. by injection H as <- <-.
Qed.

Lemma map_fs_healthy : fs_healthy (F := map_fs).
Proof.
  constructor; simpl; [eauto|eauto| |].
  - intros fs p [c ->]. eauto.
  - intros fs p offset d. unfold map_write. destruct (fs !! p); eauto.
Qed.

Definition example_primary : WriteState (F := map_fs) :=
  mkWriteState (F := map_fs) (∅ : gmap RString (list byte)) (mkWal [] 0).

(** Two writes, replayed on a standby that holds a stale copy marked lossy. *)
Lemma standby_rebuilds_file_witness :
  ∃ rs st, replay (F := map_fs) false false rs
      (mkReplay (F := map_fs) {[ lit "t/x" := lit "stale" ]} {[ lit "t/x" ]}) = (Ok tt, st) ∧
    contents (FileSystem := map_fs) (files st) (lit "t/x") = Some (lit "abcde") ∧
    (lit "abcde" : list byte) ≠ [].
Proof.
  destruct (standby_rebuilds_file (F := map_fs) false count_lsn (lit "t/x") [lit "abc"; []; lit "de"]
    example_primary _ _ _ _ eq_refl ltac:(by vm_compute) eq_refl eq_refl ltac:(by vm_compute))
    as (rs & c & Hr & Hc & _ & _ & Hrep).
  specialize (Hrep (mkReplay (F := map_fs) {[ lit "t/x" := lit "stale" ]} {[ lit "t/x" ]})).
  destruct (replay false false rs _) as [o st] eqn:E.
  assert (c = lit "abcde") as -> by (symmetry; apply (inj Some); rewrite <- Hc; vm_compute; reflexivity).
  destruct Hrep as [[[] _]|(-> & Hst & _)]; [apply map_fs_healthy|]. exists rs, st. split_and!; done.
Defined.
