(* ===== verification/PostCommitDelete.v ===== *)
(** * File deletion after commit

    lagodb-iceberg/src/storage/post_commit_delete.rs: a batch of files that is
    deleted once the transaction has committed and released its locks, and the
    batch estimate of lagodb-iceberg/src/managed_table/maintenance/cleanup.rs.

    [file_io.delete] is an operation on an abstract storage that may fail; the
    log is that of [WalRecord].  Warnings are collected in the order in which
    they are reported, and every call of [file_io.delete] is recorded together
    with the log as it was at that call. *)
From stdpp Require Import base list gmap strings.
From Stdlib Require Import ZArith Lia.
From S2P Require Import Prelude Errors Bytes WalRecord.
Open Scope Z_scope.

Definition MAX_DELETE_FAILURE_WARNINGS : Z := 8.

Inductive PostCommitDeletePurpose := PurposeVacuum | PurposeCanceledCreatedFiles.

(** [CleanupTiming] of the transaction framework. *)
Inductive CleanupTiming := OnCommit | OnAbort.

#[export] Instance CleanupTiming_eq_dec : EqDecision CleanupTiming.
Proof. solve_decision. Defined.

Inductive DeleteWarning :=
| Unrepresentable (purpose : PostCommitDeletePurpose) (count : Z)
| DeleteFailedNul (purpose : PostCommitDeletePurpose) (path_bytes : Z)
| DeleteFailed (purpose : PostCommitDeletePurpose) (path : RString) (path_bytes : Z)
| DeleteSummary (purpose : PostCommitDeletePurpose) (total succeeded failed suppressed : Z).

Section delete.
Context (big_endian : bool) (xlog_lsn : list WalRecord → Z).
(** Storage behind a [FileIO], its delete call, and whether it is local storage
    that logs ([LocalStorage::needs_wal]). *)
Context {FileIO Store : Type} (file_io_delete : FileIO → RString → Store → result string unit * Store).
Context (local_needs_wal : FileIO → bool).

Record PostCommitFileDeleteBatch := mkBatch {
  file_io : FileIO;
  paths : list RString;
  batch_needs_wal : bool;
  purpose : PostCommitDeletePurpose;
}.

Definition batch_timing (b : PostCommitFileDeleteBatch) : CleanupTiming := OnCommit.

(** [register]: an empty list registers nothing. *)
Definition PostCommitFileDeleteBatch_register (io : FileIO) (paths : list RString)
    (purpose : PostCommitDeletePurpose) : option PostCommitFileDeleteBatch :=
  if bool_decide (paths = []) then None else Some (mkBatch io paths (local_needs_wal io) purpose).

Record DeleteState := mkDelete {
  store : Store;
  wal : Wal;
  warnings : list DeleteWarning;
  (** The calls of [file_io.delete]: the path, and the log when it was called. *)
  deletions : list (RString * Wal);
}.

Definition warn (w : DeleteWarning) (st : DeleteState) : DeleteState :=
  mkDelete (store st) (wal st) (warnings st ++ [w]) (deletions st).

Definition log_local_delete_wal (b : PostCommitFileDeleteBatch) (st : DeleteState) : DeleteState :=
  if negb (batch_needs_wal b) then st
  else
    let fitting := filter (λ p, delete_file_fits_wal p = true) (paths b) in
    let unrepresentable := blen (paths b) - blen fitting in
    let '(last_lsn, log) := log_delete_files big_endian xlog_lsn fitting (wal st) in
    let log := match last_lsn with Some lsn => flush_wal lsn log | None => log end in
    let st := mkDelete (store st) log (warnings st) (deletions st) in
    if 0 <? unrepresentable then warn (Unrepresentable (purpose b) unrepresentable) st else st.

(** The loop of [delete_all]: [failed] deletions have failed. *)
Fixpoint delete_loop (b : PostCommitFileDeleteBatch) (todo : list RString) (failed : Z)
    (st : DeleteState) : Z * DeleteState :=
  match todo with
  | [] => (failed, st)
  | path :: todo' =>
      let '(r, s) := file_io_delete (file_io b) path (store st) in
      let st := mkDelete s (wal st) (warnings st) (deletions st ++ [(path, wal st)]) in
      match r with
      | Ok _ => delete_loop b todo' failed st
      | Err _ =>
          let failed := failed + 1 in
          let st :=
            if failed <=? MAX_DELETE_FAILURE_WARNINGS
            then if contains_nul path
                 then warn (DeleteFailedNul (purpose b) (blen path)) st
                 else warn (DeleteFailed (purpose b) path (blen path)) st
            else st in
          delete_loop b todo' failed st
      end
  end.

Definition delete_all (b : PostCommitFileDeleteBatch) (st : DeleteState) : DeleteState :=
  let '(failed, st) := delete_loop b (paths b) 0 st in
  if 0 <? failed
  then warn (DeleteSummary (purpose b) (blen (paths b)) (blen (paths b) - failed) failed
               (saturating_sub failed MAX_DELETE_FAILURE_WARNINGS)) st
  else st.

Definition batch_execute (b : PostCommitFileDeleteBatch) (st : DeleteState) : DeleteState :=
  delete_all b (log_local_delete_wal b st).

(** ** The batch estimate of VACUUM *)

Definition resource_limit {A} (reason : string) : result IcebergVacuumError A :=
  Err (ResourceLimit reason).

(** The loop of [local_wal_batch_count]. *)
Fixpoint batch_count_loop (todo : list RString) (batches batch_paths payload_bytes : Z)
    : result IcebergVacuumError (Z * Z) :=
  match todo with
  | [] => Ok (batches, batch_paths)
  | path :: todo' =>
      if negb (delete_file_fits_wal path)
      then batch_count_loop todo' batches batch_paths payload_bytes
      else
        encoded ← ok_or (checked_add usize_max SIZE_OF_U32 (blen path))
                    (ResourceLimit "DELETE_FILES WAL payload size overflow");
        '(batches, batch_paths, payload_bytes) ←
          (if (0 <? batch_paths)
              && ((MAX_DELETE_FILES_PER_RECORD <=? batch_paths)
                  || match checked_add usize_max payload_bytes encoded with
                     | None => true
                     | Some value => MAX_DELETE_FILES_PAYLOAD_BYTES <? value
                     end)
           then batches ← ok_or (checked_add u64_max batches 1)
                            (ResourceLimit "DELETE_FILES WAL batch count overflow");
                Ok (batches, 0, 0)
           else Ok (batches, batch_paths, payload_bytes));
        payload_bytes ← ok_or (checked_add usize_max payload_bytes encoded)
                          (ResourceLimit "DELETE_FILES WAL payload size overflow");
        batch_count_loop todo' batches (batch_paths + 1) payload_bytes
  end.

Definition local_wal_batch_count (paths : list RString) : result IcebergVacuumError Z :=
  '(batches, batch_paths) ← batch_count_loop paths 0 0 0;
  if 0 <? batch_paths
  then ok_or (checked_add u64_max batches 1) (ResourceLimit "DELETE_FILES WAL batch count overflow")
  else Ok batches.

(** ** The log is durable before the first deletion *)

Definition is_failure (w : DeleteWarning) : bool :=
  match w with DeleteFailedNul _ _ | DeleteFailed _ _ _ => true | _ => false end.

Lemma delete_loop_keeps b todo : ∀ failed st,
  let '(failed', st') := delete_loop b todo failed st in
  wal st' = wal st ∧ failed ≤ failed' ≤ failed + blen todo ∧
  store st' = foldl (λ s p, snd (file_io_delete (file_io b) p s)) (store st) todo ∧
  deletions st' = deletions st ++ map (λ p, (p, wal st)) todo ∧
  ∃ ws, warnings st' = warnings st ++ ws ∧ Forall (λ w, is_failure w = true) ws ∧
    blen ws ≤ Z.max 0 (MAX_DELETE_FAILURE_WARNINGS - failed) ∧ blen ws ≤ failed' - failed.
Proof.
  induction todo as [|p todo IH]; intros failed st; simpl.
  { change (blen []) with 0. rewrite !app_nil_r. split_and!; try lia; try done.
    exists []. rewrite app_nil_r. change (blen []) with 0. split_and!; [done|done|lia|lia]. }
  destruct (file_io_delete (file_io b) p (store st)) as [[[]|e] s] eqn:Hd; rewrite blen_cons; simpl.
  - specialize (IH failed (mkDelete s (wal st) (warnings st) (deletions st ++ [(p, wal st)]))).
    destruct (delete_loop b todo failed _) as [failed' st'].
    destruct IH as (-> & Hf & -> & -> & ws & Hw). simpl. rewrite <- app_assoc.
    split_and!; try done; try lia. eauto.
  - set (st1 := if failed + 1 <=? MAX_DELETE_FAILURE_WARNINGS then _ else _).
    assert (wal st1 = wal st ∧ store st1 = s ∧ deletions st1 = deletions st ++ [(p, wal st)] ∧ ∃ ws, warnings st1 = warnings st ++ ws ∧
      Forall (λ w, is_failure w = true) ws ∧
      blen ws = if failed + 1 <=? MAX_DELETE_FAILURE_WARNINGS then 1 else 0)
      as (Hw1 & Hs1 & Hd1 & ws1 & Hws1 & Hk1 & Hl1).
    { unfold st1. destruct (failed + 1 <=? _); [|split_and!; try done; exists []; by rewrite app_nil_r].
      destruct (contains_nul p); split_and!; try done; eexists; split_and!; try done;
        by repeat constructor. }
    specialize (IH (failed + 1) st1). destruct (delete_loop b todo (failed + 1) st1) as [failed' st'].
    destruct IH as (-> & Hf & -> & -> & ws & Hw & Hk & Hb1 & Hb2).
    rewrite Hs1, Hd1, Hw1, <- app_assoc.
    split_and!; try done; try lia. exists (ws1 ++ ws). rewrite Hw, Hws1, app_assoc, blen_app, Hl1.
    destruct (Z.leb_spec (failed + 1) MAX_DELETE_FAILURE_WARNINGS); split_and!; try done;
      try lia; by apply Forall_app.
Qed.

(** LSNs grow with the log. *)
Hypothesis lsn_grows : ∀ l r, xlog_lsn l < xlog_lsn (l ++ [r]).

Lemma lsn_prefix l k : xlog_lsn l ≤ xlog_lsn (l ++ k).
Proof.
  induction k as [|r k IH] using rev_ind; [by rewrite app_nil_r|].
  rewrite app_assoc. pose proof (lsn_grows (l ++ k) r). lia.
Qed.

Lemma log_local_delete_store b st :
  store (log_local_delete_wal b st) = store st ∧
  deletions (log_local_delete_wal b st) = deletions st.
Proof.
  unfold log_local_delete_wal. destruct (negb _); [done|].
  destruct (log_delete_files _ _ _ _) as [[lsn|] log]; by case_bool.
Qed.

Lemma log_local_delete_logs b st :
  batch_needs_wal b = true → Forall (λ p, utf8_valid p = true) (paths b) →
  let fitting := filter (λ p, delete_file_fits_wal p = true) (paths b) in
  let rs := map (delete_record big_endian) (delete_batches big_endian fitting) in
  let log := wal (log_local_delete_wal b st) in
  records log = records (wal st) ++ rs ∧ (rs = [] ∨ xlog_lsn (records (wal st) ++ rs) ≤ flushed log).
Proof.
  intros Hw Hutf. simpl. unfold log_local_delete_wal. rewrite Hw. simpl.
  rewrite log_delete_files_batches. case_bool; simpl; (destruct (delete_batches _ _); simpl;
    [by auto|split; [done|right; lia]]).
Qed.

Lemma delete_all_keeps b st :
  wal (delete_all b st) = wal st ∧
  deletions (delete_all b st) = deletions st ++ map (λ p, (p, wal st)) (paths b) ∧
  store (delete_all b st) = foldl (λ s p, snd (file_io_delete (file_io b) p s)) (store st) (paths b).
Proof.
  unfold delete_all. pose proof (delete_loop_keeps b (paths b) 0 st) as Hk.
  destruct (delete_loop b (paths b) 0 _) as [failed st']. destruct Hk as (Hw & _ & Hs & Hd & _).
  by case_bool.
Qed.

(** C23. Write-ahead logging of deletions: executing a batch calls [file_io.delete] once
    for every path of the batch, in order and whatever earlier calls returned, and
    at each of these calls the log is already the final one, so that nothing is
    logged after the first deletion.  When the storage logs, that log extends the
    old one by deletion records that hold the representable paths of the batch,
    once each and in order, and all of them are flushed to disk; when it does not,
    the log is untouched. *)
Theorem batch_execute_write_ahead b st :
  Forall (λ p, utf8_valid p = true) (paths b) →
  let st' := batch_execute b st in
  deletions st' = deletions st ++ map (λ p, (p, wal st')) (paths b) ∧
  store st' = foldl (λ s p, snd (file_io_delete (file_io b) p s)) (store st) (paths b) ∧
  (batch_needs_wal b = true →
   ∃ rs batches, records (wal st') = records (wal st) ++ rs ∧
     mapM (λ r, main_data r ≫= extract_delete_file_paths big_endian) rs = Some batches ∧
     concat batches = filter (λ p, delete_file_fits_wal p = true) (paths b) ∧
     ∀ l k, records (wal st) ++ rs = l ++ k → blen (records (wal st)) < blen l →
       xlog_lsn l ≤ flushed (wal st')) ∧
  (batch_needs_wal b = false → wal st' = wal st).
Proof.
  intros Hutf. unfold batch_execute. simpl.
  destruct (delete_all_keeps b (log_local_delete_wal b st)) as (Hwal & Hdel & Hstore).
  destruct (log_local_delete_store b st) as [Hs0 Hd0]. rewrite Hs0 in Hstore. rewrite Hd0 in Hdel.
  rewrite Hwal. split_and!; try done.
  2: { intros Hw. unfold log_local_delete_wal. by rewrite Hw. }
  intros Hw. destruct (log_local_delete_logs b st Hw Hutf) as [Hr Hl].
  set (fitting := filter (λ p, delete_file_fits_wal p = true) (paths b)) in *.
  destruct (delete_batches_decode big_endian fitting) as [Hd Hc]; [by apply filter_keeps|].
  eexists _, (delete_batches big_endian fitting). split_and!; [exact Hr|done| |].
  { rewrite Hc. apply filter_id, filter_sound. }
  intros l k Hlk Hlen. destruct Hl as [Hnil|Hl].
  - rewrite Hnil, app_nil_r in Hlk. rewrite Hlk, blen_app in Hlen. pose proof (blen_nonneg k). lia.
  - pose proof (lsn_prefix l k). rewrite <- Hlk in *. lia.
Qed.

(** Warnings are bounded: however many deletions fail, executing a batch reports at
    most ten warnings (one for paths that cannot be logged, eight failures and a
    summary), and the summary counts every path as deleted or failed. *)
Theorem batch_execute_warnings b st :
  ∃ ws, warnings (batch_execute b st) = warnings st ++ ws ∧ blen ws ≤ 10 ∧
    ∀ p total succeeded failed suppressed, DeleteSummary p total succeeded failed suppressed ∈ ws →
      total = blen (paths b) ∧ 0 ≤ succeeded ∧ 0 < failed ∧ succeeded + failed = total ∧
      suppressed = Z.max 0 (failed - MAX_DELETE_FAILURE_WARNINGS).
Proof.
  assert (∃ ws0, warnings (log_local_delete_wal b st) = warnings st ++ ws0 ∧ blen ws0 ≤ 1 ∧
    Forall (λ w, ∃ p n, w = Unrepresentable p n) ws0) as (ws0 & Hw0 & Hl0 & Hk0).
  { unfold log_local_delete_wal. destruct (negb _); [exists []; by rewrite app_nil_r|].
    destruct (log_delete_files _ _ _ _) as [lsn log].
    case_bool; simpl; [eexists; split_and!; [done|done|by repeat econstructor]|].
    exists []. by rewrite app_nil_r. }
  unfold batch_execute, delete_all.
  pose proof (delete_loop_keeps b (paths b) 0 (log_local_delete_wal b st)) as Hk.
  destruct (delete_loop b (paths b) 0 _) as [failed st'].
  destruct Hk as (_ & Hf & _ & _ & ws & Hw & Hfail & Hb & _). unfold MAX_DELETE_FAILURE_WARNINGS in *.
  assert (∀ p t s f u, DeleteSummary p t s f u ∉ ws0 ++ ws) as Hno.
  { rewrite Forall_forall in Hk0, Hfail. intros p t s f u [Hin|Hin]%elem_of_app.
    - by destruct (Hk0 _ Hin) as (? & ? & ?).
    - by apply Hfail in Hin. }
  destruct (Z.ltb_spec 0 failed) as [Hpos|]; simpl.
  - exists (ws0 ++ ws ++ [DeleteSummary (purpose b) (blen (paths b)) (blen (paths b) - failed) failed
      (saturating_sub failed 8)]).
    rewrite Hw, Hw0, !blen_app, <- !app_assoc. change (blen [_]) with 1. split_and!; [done|lia|].
    intros p t s f u. rewrite app_assoc, elem_of_app, list_elem_of_singleton.
    intros [Hin|[= -> -> -> -> ->]]; [by apply Hno in Hin|]. unfold saturating_sub. lia.
  - exists (ws0 ++ ws). rewrite Hw, Hw0, blen_app, <- app_assoc. split_and!; [done|lia|].
    intros p t s f u Hin. by apply Hno in Hin.
Qed.

(** ** The estimate is exact *)

Lemma batch_count_loop_greedy todo : ∀ batches batch,
  blen (encode_payload big_endian batch) ≤ MAX_DELETE_FILES_PAYLOAD_BYTES →
  0 ≤ batches → batches + blen batch + blen todo ≤ u64_max →
  let '(closed, open) := greedy big_endian todo batch in
  batch_count_loop todo batches (blen batch) (blen (encode_payload big_endian batch)) =
    Ok (batches + blen closed, blen open) ∧
  batches + blen closed + blen open ≤ u64_max.
Proof.
  induction todo as [|p todo IH]; intros batches batch Hb H0 Hmax; cbn [greedy batch_count_loop].
  { change (blen []) with 0 in *. rewrite Z.add_0_r. split; [done|lia]. }
  rewrite blen_cons in Hmax. pose proof (blen_nonneg todo). pose proof (blen_nonneg batch).
  destruct (delete_file_fits_wal p) eqn:Hfit; cbn [negb]; [|apply IH; try done; lia].
  apply fits_spec in Hfit as (_ & _ & Hp). pose proof (blen_nonneg p).
  pose proof (blen_nonneg (encode_payload big_endian batch)).
  unfold SIZE_OF_U32, MAX_DELETE_FILES_PAYLOAD_BYTES in *.
  rewrite !checked_add_usize by width_lia. cbn [ok_or mbind result_bind].
  rewrite checked_add_usize by width_lia.
  change ((0 <? blen batch) && _) with (batch_full big_endian batch p).
  destruct (batch_full big_endian batch p) eqn:Hfull.
  - apply andb_true_iff in Hfull as [Hpos%Z.ltb_lt _].
    rewrite ?checked_add_usize by width_lia. cbn [ok_or mbind result_bind].
    rewrite ?checked_add_usize by width_lia. cbn [ok_or mbind result_bind].
    specialize (IH (batches + 1) [p]). change (blen [p]) with 1 in IH.
    replace (blen (encode_payload big_endian [p])) with (0 + (4 + blen p)) in IH
      by (unfold encode_payload; simpl; by rewrite app_nil_r, blen_encode_path).
    destruct (greedy big_endian todo [p]) as [closed open].
    destruct IH as [IH ?]; [lia..|]. rewrite blen_cons.
    split; [etrans; [exact IH|]; do 2 f_equal; lia|lia].
  - cbn [mbind result_bind]. rewrite checked_add_usize by width_lia. cbn [ok_or mbind result_bind].
    specialize (IH batches (batch ++ [p])).
    rewrite encode_payload_snoc, !blen_app, blen_encode_path in IH. change (blen [p]) with 1 in IH.
    apply IH; [|lia|lia]. unfold batch_full in Hfull. apply andb_false_iff in Hfull as [Hz|Hfull].
    + apply Z.ltb_ge in Hz. assert (batch = []) as -> by (apply blen_nil_inv; lia).
      unfold encode_payload. simpl. change (blen []) with 0. lia.
    + apply orb_false_iff in Hfull as [_ Hf%Z.ltb_ge].
      unfold SIZE_OF_U32, MAX_DELETE_FILES_PAYLOAD_BYTES in Hf. lia.
Qed.

(** C36. The VACUUM estimate is exact: the number of WAL batches reported for a list of
    paths is the number of deletion records that deleting them will log, and the
    estimate cannot fail on any list that fits in memory. *)
Theorem local_wal_batch_count_exact todo w :
  blen todo ≤ u64_max →
  let '(_, w') := log_delete_files big_endian xlog_lsn todo w in
  local_wal_batch_count todo = Ok (blen (records w') - blen (records w)).
Proof.
  intros Hlen. rewrite log_delete_files_batches. simpl. unfold local_wal_batch_count, delete_batches.
  pose proof (batch_count_loop_greedy todo 0 []) as Hg. change (blen []) with 0 in Hg.
  change (blen (encode_payload big_endian [])) with 0 in Hg.
  destruct (greedy big_endian todo []) as [closed open]. destruct Hg as [-> Hmax]; [done|done|lia|].
  cbn [mbind result_bind]. rewrite map_app, !blen_app, blen_map. pose proof (blen_nonneg open).
  destruct (Z.ltb_spec 0 (blen open)) as [Hpos|].
  - unfold checked_add. rewrite (proj2 (Z.leb_le _ _)) by lia. rewrite bool_decide_false.
    + simpl. change (blen [_]) with 1. f_equal. lia.
    + by intros ->.
  - rewrite bool_decide_true by (apply blen_nil_inv; lia). simpl. change (blen []) with 0. f_equal. lia.
Qed.
End delete.

(** ** Witnesses *)

(** A store of files in which deleting [locked] fails. *)
Definition set_delete (_ : unit) (p : RString) (s : gset RString) : result string unit * gset RString :=
  if bool_decide (p = lit "locked") then (Err "permission denied", s) else (Ok tt, s ∖ {[ p ]}).

Definition example_batch : PostCommitFileDeleteBatch (FileIO := unit) :=
  mkBatch tt [lit "a"; lit "locked"; lit "b"] true PurposeVacuum.

Definition example_delete_state : DeleteState (Store := gset RString) :=
  mkDelete {[ lit "a"; lit "locked"; lit "b"; lit "c" ]} (mkWal [] 0) [] [].

Lemma batch_execute_write_ahead_witness :
  let st' := batch_execute false count_lsn set_delete example_batch example_delete_state in
  store st' = {[ lit "locked"; lit "c" ]} ∧
  deletions st' = [(lit "a", wal st'); (lit "locked", wal st'); (lit "b", wal st')] ∧
  flushed (wal st') = count_lsn (records (wal st')).
Proof.
  destruct (batch_execute_write_ahead false count_lsn set_delete
    ltac:(intros; unfold count_lsn; rewrite blen_app; change (blen [r]) with 1; lia)
    example_batch example_delete_state) as (Hd & Hs & _ & _).
  { repeat constructor. }
  cbv zeta. rewrite Hd, Hs. split_and!; [vm_compute; reflexivity|reflexivity|vm_compute; reflexivity].
Defined.

Lemma local_wal_batch_count_exact_witness :
  local_wal_batch_count [lit "a"; []; lit "b"] = Ok 1.
Proof.
  pose proof (local_wal_batch_count_exact false count_lsn [lit "a"; []; lit "b"] (mkWal [] 0)) as H.
  destruct (log_delete_files false count_lsn _ _) as [lsn w'] eqn:E. rewrite H by by vm_compute.
  assert (blen (records (snd (lsn, w'))) = 1) as Hr by (rewrite <- E; by vm_compute).
  simpl in Hr. by rewrite Hr.
Defined.
