(* ===== verification/VacuumCleanup.v ===== *)
(** * Deletions registered by VACUUM

    lagodb-core/src/table_maintenance/types.rs: the report of a maintenance run;
    lagodb-iceberg/src/managed_table/maintenance/commit_attempt.rs
    ([VacuumAttemptResult]) and cleanup.rs ([VacuumCleanup]): the files a VACUUM no
    longer needs are registered for deletion while the transaction is still open.

    Local files become a batch that runs after commit ([PostCommitDelete]); objects
    become rows of the object-cleanup queue, inserted in the same transaction.  The
    queue is reached through the interface [ObjectCleanupQueue].  A [FileIO] is
    opaque; [storage_of] is the result of downcasting its storage. *)
From stdpp Require Import base list gmap strings sorting.
From Stdlib Require Import ZArith Lia.
From S2P Require Import Prelude Errors Bytes WalRecord PostCommitDelete.
Local Open Scope Z_scope.

(** ** The report *)

Record TableMaintenanceMetric := mkMetric { metric_name : string; metric_value : Z }.

Record TableMaintenanceReport := mkReport {
  groups_rewritten : Z;
  input_objects : Z;
  input_bytes : Z;
  output_objects : Z;
  output_bytes : Z;
  snapshots_expired : Z;
  manifests_rewritten : Z;
  objects_scheduled_for_deletion : Z;
  cas_retries : Z;
  provider_metrics : list TableMaintenanceMetric;
}.

Definition MAX_PROVIDER_METRICS : Z := 32.

Definition with_scheduled (report : TableMaintenanceReport) (count : Z) : TableMaintenanceReport :=
  mkReport (groups_rewritten report) (input_objects report) (input_bytes report)
    (output_objects report) (output_bytes report) (snapshots_expired report)
    (manifests_rewritten report) count (cas_retries report) (provider_metrics report).
Definition with_metrics (report : TableMaintenanceReport) (ms : list TableMaintenanceMetric)
    : TableMaintenanceReport :=
  mkReport (groups_rewritten report) (input_objects report) (input_bytes report)
    (output_objects report) (output_bytes report) (snapshots_expired report)
    (manifests_rewritten report) (objects_scheduled_for_deletion report) (cas_retries report) ms.

(** The first metric of the same name is overwritten; [None] when there is none. *)
Fixpoint overwrite_metric (m : TableMaintenanceMetric) (ms : list TableMaintenanceMetric)
    : option (list TableMaintenanceMetric) :=
  match ms with
  | [] => None
  | existing :: ms' =>
      if bool_decide (metric_name existing = metric_name m)
      then Some (mkMetric (metric_name existing) (metric_value m) :: ms')
      else cons existing <$> overwrite_metric m ms'
  end.

Definition record_provider_metric (report : TableMaintenanceReport) (m : TableMaintenanceMetric)
    : result string TableMaintenanceReport :=
  match overwrite_metric m (provider_metrics report) with
  | Some ms => Ok (with_metrics report ms)
  | None =>
      if blen (provider_metrics report) =? MAX_PROVIDER_METRICS
      then Err "table-maintenance provider report exceeded 32 metrics"
      else Ok (with_metrics report (provider_metrics report ++ [m]))
  end.

Definition record_metric {L} (report : TableMaintenanceReport) (name : string) (value : Z)
    : IcebergResult L TableMaintenanceReport :=
  map_err (λ _, InvariantViolated "Iceberg VACUUM exceeded its statically bounded provider metrics")
    (record_provider_metric report (mkMetric name value)).

(** ** Registration *)

(** The durable queue of objects to delete, as producers see it: the limit of a
    batch, and the insertion of the rows of a relation, which may fail midway. *)
Class ObjectCleanupQueue := {
  QueuedTarget : Type;
  QueueState : Type;
  object_cleanup_batch_items : Z;
  enqueue_batch : Z → list QueuedTarget → QueueState → result ForeignError Z * QueueState;
}.

(** Insertion appends rows for the given targets, all of them on success. *)
Class ObjectCleanupQueueLaws (CQ : ObjectCleanupQueue) := {
  queue_rows : QueueState → list (Z * QueuedTarget);
  enqueue_appends : ∀ r ts q, let '(res, q') := enqueue_batch r ts q in
    ∃ inserted, queue_rows q' = queue_rows q ++ map (pair r) inserted ∧
      (is_ok res = true → inserted = ts);
}.

Record VacuumCleanupRegistration := mkRegistration {
  registered_objects : Z;
  local_pending_paths : Z;
  local_wal_batches : Z;
  remote_queue_rows : Z;
}.

Definition VacuumCleanupRegistration_record {L} (reg : VacuumCleanupRegistration)
    (report : TableMaintenanceReport) : IcebergResult L TableMaintenanceReport :=
  report ← record_metric report "local_pending_paths" (local_pending_paths reg);
  report ← record_metric report "local_wal_batches" (local_wal_batches reg);
  record_metric report "remote_queue_rows" (remote_queue_rows reg).

(** [sort_unstable] orders strings by their bytes. *)
Definition string_le (a b : string) : Prop := String.leb a b = true.
#[export] Instance string_le_dec : RelDecision string_le.
Proof. intros a b. unfold string_le. apply _. Defined.

Section Register.
Context {FileIO L : Type} `{CQ : ObjectCleanupQueue}.

(** What the storage of a [FileIO] downcasts to. *)
Inductive IoStorage :=
| LocalStorage (needs_wal : bool)
| ObjectStorage (maintenance_target_owned : string → result L QueuedTarget)
| OtherStorage.

Context (storage_of : FileIO → IoStorage).
(** The order in which a [HashSet] is iterated. *)
Context (set_iter : gset string → list string).

Local Abbreviation IResult := (IcebergResult L).
Local Abbreviation Batch := (PostCommitFileDeleteBatch (FileIO := FileIO)).

Definition local_needs_wal (io : FileIO) : bool :=
  match storage_of io with LocalStorage needs_wal => needs_wal | _ => false end.

(** The deletions a transaction has registered: batches that run at its end, and
    the state of the queue. *)
Record Registrations := mkRegistrations {
  pending : list Batch;
  queue : QueueState;
}.

(** [PostCommitFileDeleteBatch::register]. *)
Definition register_batch (io : FileIO) (paths : list string) (purpose : PostCommitDeletePurpose)
    (s : Registrations) : Registrations :=
  match PostCommitFileDeleteBatch_register local_needs_wal io (map lit paths) purpose with
  | None => s
  | Some batch => mkRegistrations (pending s ++ [batch]) (queue s)
  end.

Definition register_canceled_files_for_commit (io : FileIO) (paths : list string)
    (s : Registrations) : Registrations :=
  register_batch io paths PurposeCanceledCreatedFiles s.

Definition enqueue (r : Z) (targets : list QueuedTarget) (s : Registrations)
    : IResult unit * Registrations :=
  let '(res, q) := enqueue_batch r targets (queue s) in
  (match res with Ok _ => Ok tt | Err e => Err (ObjectCleanupError L e) end,
   mkRegistrations (pending s) q).

(** The loop over the candidates of object storage, and the last partial batch. *)
Fixpoint register_objects (r : Z) (target : string → result L QueuedTarget) (todo : list string)
    (targets : list QueuedTarget) (s : Registrations) : IResult unit * Registrations :=
  match todo with
  | [] => if bool_decide (length targets = 0%nat) then (Ok tt, s) else enqueue r targets s
  | path :: todo' =>
      match target path with
      | Err e => (Err (IcebergLiteError e), s)
      | Ok t =>
          let targets := targets ++ [t] in
          if blen targets <? object_cleanup_batch_items
          then register_objects r target todo' targets s
          else
            let '(res, s) := enqueue r targets s in
            match res with
            | Err e => (Err e, s)
            | Ok _ => register_objects r target todo' [] s
            end
      end
  end.

Definition candidate_count (candidates : gset string) : IResult Z :=
  let count := Z.of_nat (size candidates) in
  if count <=? u64_max then Ok count
  else Err (Vacuum (ResourceLimit "cleanup candidate count does not fit u64")).

Definition sort_paths (paths : list string) : list string := merge_sort string_le paths.

(** [VacuumCleanup::register]. *)
Definition VacuumCleanup_register (r : Z) (io : FileIO) (candidates : gset string)
    (s : Registrations) : IResult VacuumCleanupRegistration * Registrations :=
  if bool_decide (candidates = ∅) then (Ok (mkRegistration 0 0 0 0), s)
  else
    match candidate_count candidates with
    | Err e => (Err e, s)
    | Ok count =>
        match storage_of io with
        | LocalStorage needs_wal =>
            let paths := sort_paths (set_iter candidates) in
            match (if needs_wal then local_wal_batch_count (map lit paths) else Ok 0) with
            | Err e => (Err (Vacuum e), s)
            | Ok batches =>
                (Ok (mkRegistration count count batches 0), register_batch io paths PurposeVacuum s)
            end
        | ObjectStorage target =>
            let '(res, s) := register_objects r target (set_iter candidates) [] s in
            match res with
            | Err e => (Err e, s)
            | Ok _ => (Ok (mkRegistration count 0 0 count), s)
            end
        | OtherStorage =>
            (Err (InvariantViolated "VACUUM FileIO uses an unknown storage implementation"), s)
        end
    end.

(** ** The result of an attempt *)

Record VacuumAttemptResult := mkVacuumResult {
  report : TableMaintenanceReport;
  cleanup_candidates : gset string;
}.

Definition has_cleanup (result : VacuumAttemptResult) : bool :=
  negb (bool_decide (cleanup_candidates result = ∅)).

Definition register_cleanup (result : VacuumAttemptResult) (r : Z) (io : FileIO) (s : Registrations)
    : IResult VacuumAttemptResult * Registrations :=
  match candidate_count (cleanup_candidates result) with
  | Err e => (Err e, s)
  | Ok count =>
      let '(registration, s) := VacuumCleanup_register r io (cleanup_candidates result) s in
      (registration ← registration;
       report ← VacuumCleanupRegistration_record registration (with_scheduled (report result) count);
       Ok (mkVacuumResult report ∅), s)
  end.

(** [report_success], given the milliseconds since the commit started. *)
Definition report_success (result : VacuumAttemptResult) (elapsed_ms : Z)
    : IResult TableMaintenanceReport :=
  commit_ms ← (if elapsed_ms <=? u64_max then Ok elapsed_ms
               else Err (Vacuum (ResourceLimit
                           "VACUUM commit duration does not fit u64 milliseconds")));
  record_metric (report result) "commit_ms" commit_ms.

(** ** What registration leaves behind *)

Context `{CL : !ObjectCleanupQueueLaws CQ}.
Hypothesis set_iter_elements : ∀ X, set_iter X ≡ₚ elements X.

(** The deletions of [s'] are those of [s] and the given batches and rows. *)
Definition registers (s s' : Registrations) (bs : list Batch) (rows : list (Z * QueuedTarget)) : Prop :=
  pending s' = pending s ++ bs ∧ queue_rows (queue s') = queue_rows (queue s) ++ rows.

Lemma registers_none s : registers s s [] [].
Proof. unfold registers. by rewrite !app_nil_r. Qed.

Lemma registers_trans s1 s2 s3 bs1 bs2 rows1 rows2 :
  registers s1 s2 bs1 rows1 → registers s2 s3 bs2 rows2 →
  registers s1 s3 (bs1 ++ bs2) (rows1 ++ rows2).
Proof. unfold registers. intros [-> ->] [-> ->]. by rewrite !app_assoc. Qed.

(** The batch that a list of paths becomes. *)
Definition batch_of (io : FileIO) (paths : list string) (purpose : PostCommitDeletePurpose) : list Batch :=
  match paths with [] => [] | _ => [mkBatch io (map lit paths) (local_needs_wal io) purpose] end.

Lemma register_batch_spec io paths purpose s :
  registers s (register_batch io paths purpose s) (batch_of io paths purpose) [].
Proof.
  unfold registers, register_batch, PostCommitFileDeleteBatch_register, batch_of.
  destruct paths; simpl; by rewrite !app_nil_r.
Qed.

Lemma enqueue_spec r ts s :
  let '(res, s') := enqueue r ts s in
  ∃ inserted, registers s s' [] (map (pair r) inserted) ∧ (is_ok res = true → inserted = ts).
Proof.
  unfold enqueue, registers. pose proof (enqueue_appends r ts (queue s)) as He.
  destruct (enqueue_batch r ts (queue s)) as [res q]. destruct He as (d & Hq & Hok).
  exists d. split; [by rewrite app_nil_r|]. by destruct res.
Qed.

Definition target_opt (target : string → result L QueuedTarget) (p : string) : option QueuedTarget :=
  match target p with Ok t => Some t | Err _ => None end.

Lemma mapM_target_cons target p todo t ts :
  target p = Ok t → mapM (target_opt target) todo = Some ts →
  mapM (target_opt target) (p :: todo) = Some (t :: ts).
Proof. 
  intros Ht Hm. simpl. rewrite Hm. assert (target_opt target p = Some t) as -> by (unfold target_opt; by rewrite Ht).
  done.
Qed.

Lemma register_objects_spec r target todo : ∀ targets s,
  let '(res, s') := register_objects r target todo targets s in
  ∃ rows, registers s s' [] (map (pair r) rows) ∧
    (is_ok res = true → ∃ ts, mapM (target_opt target) todo = Some ts ∧ rows = targets ++ ts).
Proof.
  induction todo as [|p todo IH]; intros targets s; cbn [register_objects].
  - case_bool_decide as Hl.
    + exists []. split; [apply registers_none|]. intros _. exists []. by apply nil_length_inv in Hl as ->.
    + pose proof (enqueue_spec r targets s) as He. destruct (enqueue r targets s) as [res s'].
      destruct He as (d & Hr & Hok). exists d. split; [done|].
      intros ->%Hok. exists []. by rewrite app_nil_r.
  - destruct (target p) as [t|e] eqn:Ht.
    2: { exists []. split; [apply registers_none|done]. }
    case_bool.
    + specialize (IH (targets ++ [t]) s). destruct (register_objects r target todo _ s) as [res s'].
      destruct IH as (rows & Hr & Hok). exists rows. split; [done|].
      intros (ts & Hm & ->)%Hok. exists (t :: ts).
        split; [by apply mapM_target_cons|by rewrite <- app_assoc].
    + pose proof (enqueue_spec r (targets ++ [t]) s) as He.
      destruct (enqueue r (targets ++ [t]) s) as [res s1]. destruct He as (d & Hr & Hok).
      destruct res as [[]|e]; [|by exists d].
      specialize (IH [] s1). destruct (register_objects r target todo [] s1) as [res s'].
      destruct IH as (rows & Hr2 & Hok2). rewrite (Hok eq_refl) in Hr.
      exists ((targets ++ [t]) ++ rows). rewrite map_app. split.
      * apply (registers_trans _ _ _ [] [] _ _ Hr Hr2).
      * intros (ts & Hm & ->)%Hok2. exists (t :: ts).
        split; [by apply mapM_target_cons|by rewrite <- app_assoc].
Qed.

(** The deletions that the candidates of a VACUUM stand for: one batch of all the
    local files, or one row for every object. *)
Definition vacuum_deletions (io : FileIO) (r : Z) (candidates : gset string) (bs : list Batch)
    (rows : list (Z * QueuedTarget)) : Prop :=
  match storage_of io with
  | LocalStorage _ =>
      rows = [] ∧ ∃ paths, paths ≡ₚ elements candidates ∧ bs = batch_of io paths PurposeVacuum
  | ObjectStorage target =>
      bs = [] ∧ ∃ paths ts, paths ≡ₚ elements candidates ∧
        mapM (target_opt target) paths = Some ts ∧ rows = map (pair r) ts
  | OtherStorage => candidates = ∅ ∧ bs = [] ∧ rows = []
  end.

(** Deletions of a VACUUM of relation [r], perhaps not all of them. *)
Definition vacuum_only (r : Z) (bs : list Batch) (rows : list (Z * QueuedTarget)) : Prop :=
  Forall (λ b, purpose b = PurposeVacuum) bs ∧ Forall (λ row, fst row = r) rows.

Lemma vacuum_only_none r : vacuum_only r [] [].
Proof. by split. Qed.

Lemma vacuum_deletions_none io r : vacuum_deletions io r ∅ [] [].
Proof.
  unfold vacuum_deletions. destruct (storage_of io); [|split; [done|]|done].
  - split; [done|]. exists []. by rewrite elements_empty.
  - exists [], []. by rewrite elements_empty.
Qed.

Lemma VacuumCleanup_register_spec r io candidates s :
  let '(res, s') := VacuumCleanup_register r io candidates s in
  ∃ bs rows, registers s s' bs rows ∧ vacuum_only r bs rows ∧
    (is_ok res = true → vacuum_deletions io r candidates bs rows).
Proof.
  assert (∃ bs rows, registers s s bs rows ∧ vacuum_only r bs rows ∧
    (false = true → vacuum_deletions io r candidates bs rows)) as Hnone.
  { exists [], []. split; [apply registers_none|]. split; [apply vacuum_only_none|done]. }
  unfold VacuumCleanup_register. case_bool_decide as He.
  { subst. exists [], []. split; [apply registers_none|]. split; [apply vacuum_only_none|].
    intros _. apply vacuum_deletions_none. }
  destruct (candidate_count candidates) as [count|e]; [|exact Hnone].
  unfold vacuum_deletions in *. destruct (storage_of io) as [needs_wal|target|] eqn:Hs; [| |exact Hnone].
  - set (paths := sort_paths (set_iter candidates)).
    destruct (if needs_wal then _ else _) as [batches|e]; [|exact Hnone].
    exists (batch_of io paths PurposeVacuum), []. split; [apply register_batch_spec|]. split.
    + split; [|done]. unfold batch_of. destruct paths; by repeat constructor.
    + intros _. split; [done|]. exists paths. split; [|done].
      unfold paths, sort_paths. by rewrite merge_sort_Permutation, set_iter_elements.
  - pose proof (register_objects_spec r target (set_iter candidates) [] s) as Hr.
    destruct (register_objects r target (set_iter candidates) [] s) as [res s'].
    destruct Hr as (rows & Hreg & Hok).
    assert (vacuum_only r [] (map (pair r) rows)) as Hv.
    { split; [done|]. by apply Forall_map, Forall_true. }
    destruct res as [[]|e]; exists [], (map (pair r) rows); (split; [done|]; split; [done|]); [|done].
    intros _. split; [done|]. destruct (Hok eq_refl) as (ts & Hm & ->).
    exists (set_iter candidates), ts. by rewrite set_iter_elements at 1.
Qed.

(** Registering the cleanup of an attempt registers its candidates, once each; when it
    fails, a part of them may be registered. *)
Lemma register_cleanup_spec result r io s :
  let '(res, s') := register_cleanup result r io s in
  ∃ bs rows, registers s s' bs rows ∧ vacuum_only r bs rows ∧
    (is_ok res = true → vacuum_deletions io r (cleanup_candidates result) bs rows).
Proof.
  unfold register_cleanup. destruct (candidate_count _) as [count|e].
  2: { exists [], []. split; [apply registers_none|]. split; [apply vacuum_only_none|done]. }
  pose proof (VacuumCleanup_register_spec r io (cleanup_candidates result) s) as Hr.
  destruct (VacuumCleanup_register r io (cleanup_candidates result) s) as [res s'].
  destruct Hr as (bs & rows & Hreg & Hv & Hok). exists bs, rows. split; [done|]. split; [done|].
  destruct res as [reg|e]; [by intros _; apply Hok|done].
Qed.
End Register.
