(* ===== verification/Transaction.v ===== *)
(** * Transaction callbacks

    lagodb-core/src/transaction/mod.rs: the list of transaction resources and the
    callbacks PostgreSQL invokes on transaction and subtransaction events;
    lagodb-core/src/transaction/cleanup.rs: pending deletes, the resource kind
    that ties a deletion to the outcome of its (sub)transaction;
    lagodb-core/src/resource/committed_cleanup.rs: work that runs after the locks
    of a committed transaction are released.

    A resource is shared ([Rc]) and mutates itself, so a callback returns the new
    state of the resource, the resources it registered, and the world.  Callbacks
    that keep the list iterate over the resources present when they start;
    registrations land behind them.  [error.report()] does not return: it is the
    error result of the callback. *)
From stdpp Require Import base list gmap strings.
From Stdlib Require Import ZArith Lia.
From S2P Require Import Prelude PostCommitDelete.
Open Scope Z_scope.

(** ** The interface of a resource *)

Class TransactionResource (R W : Type) := {
  nest_level : R → Z;
  set_nest_level : R → Z → R;
  on_commit : R → W → R * list R * W;
  on_abort : R → W → R * list R * W;
  on_pre_commit : R → W → result string unit * R * list R * W;
  on_pre_prepare : R → result string unit;
  on_prepare : R → W → W;
  on_commit_sub : Z → R → W → R * list R * W;
  on_abort_sub : Z → R → W → R * list R * W;
}.

Inductive XactEvent :=
| XACT_COMMIT | XACT_PARALLEL_COMMIT | XACT_ABORT | XACT_PARALLEL_ABORT
| XACT_PRE_COMMIT | XACT_PARALLEL_PRE_COMMIT | XACT_PRE_PREPARE | XACT_PREPARE.

Inductive SubXactEvent :=
| SUBXACT_START_SUB | SUBXACT_PRE_COMMIT_SUB | SUBXACT_COMMIT_SUB | SUBXACT_ABORT_SUB.

Section framework.
Context {R W : Type} `{TransactionResource R W}.

(** [RESOURCES] and the world the callbacks act on. *)
Record TxState := mkTx { resources : list R; world : W }.

Definition register_resource (r : R) (st : TxState) : TxState :=
  mkTx (resources st ++ [r]) (world st).

Definition resource_count (st : TxState) : nat := length (resources st).

(** The loop over the resources taken out of the list. *)
Fixpoint drain (f : R → W → R * list R * W) (level : Z) (taken : list R) (st : TxState) : TxState :=
  match taken with
  | [] => st
  | r :: taken' =>
      let st :=
        if level <=? nest_level r
        then let '(_, new, w) := f r (world st) in mkTx (resources st ++ new) w
        else st in
      drain f level taken' st
  end.

(** The loop over a snapshot: the [n] resources from index [i] on. *)
Fixpoint visit {E} (f : R → W → result E unit * R * list R * W) (i n : nat) (st : TxState)
    : result E unit * TxState :=
  match n with
  | O => (Ok tt, st)
  | S n' =>
      match resources st !! i with
      | None => (Ok tt, st)
      | Some r =>
          let '(o, r', new, w) := f r (world st) in
          let st := mkTx (<[i := r']> (resources st) ++ new) w in
          match o with
          | Ok _ => visit f (S i) n' st
          | Err e => (Err e, st)
          end
      end
  end.

Definition at_level {E} (level : Z) (f : R → W → result E unit * R * list R * W) (r : R) (w : W)
    : result E unit * R * list R * W :=
  if level <=? nest_level r then f r w else (Ok tt, r, [], w).

Definition infallible {E} (f : R → W → R * list R * W) (r : R) (w : W) : result E unit * R * list R * W :=
  let '(r, new, w) := f r w in (Ok tt, r, new, w).

Definition xact_callback (event : XactEvent) (level : Z) (st : TxState) : result string unit * TxState :=
  let taken := mkTx [] (world st) in
  let snapshot := length (resources st) in
  match event with
  | XACT_COMMIT | XACT_PARALLEL_COMMIT => (Ok tt, drain on_commit level (resources st) taken)
  | XACT_ABORT | XACT_PARALLEL_ABORT => (Ok tt, drain on_abort level (resources st) taken)
  | XACT_PRE_COMMIT | XACT_PARALLEL_PRE_COMMIT => visit (at_level level on_pre_commit) 0 snapshot st
  | XACT_PRE_PREPARE =>
      visit (at_level level (λ r w, (on_pre_prepare r, r, [], w))) 0 snapshot st
  | XACT_PREPARE => (Ok tt, drain (λ r w, (r, [], on_prepare r w)) level (resources st) taken)
  end.

Definition subxact_callback (event : SubXactEvent) (level : Z) (st : TxState) : TxState :=
  let snapshot := length (resources st) in
  match event with
  | SUBXACT_COMMIT_SUB =>
      snd (visit (E := string) (infallible (λ r w,
        let '(r, new, w) := on_commit_sub level r w in
        (if level <=? nest_level r then set_nest_level r (level - 1) else r, new, w))) 0 snapshot st)
  | SUBXACT_ABORT_SUB =>
      let st := snd (visit (E := string) (infallible (on_abort_sub level)) 0 snapshot st) in
      mkTx (filter (λ r, nest_level r < level) (resources st)) (world st)
  | _ => st
  end.
End framework.
Arguments TxState : clear implicits.

(** ** Committed cleanup and pending deletes

    [D] is the type of pending deletes, [execute] their effect.  What a delete does
    may depend on whether the transaction still holds its locks, which is the first
    argument of [execute]: a delete that ran at another time is another delete. *)
Section pending.
Context {D St : Type} (execute : bool → D → St → St) (timing_of : D → CleanupTiming).

(** The world of the callbacks: the storage, [COMMITTED] (the deferred work), and
    whether PostgreSQL holds the locks of the transaction. *)
Record CleanupWorld := mkCleanup { storage : St; committed : list D; locks_held : bool }.

Definition defer (d : D) (w : CleanupWorld) : CleanupWorld :=
  mkCleanup (storage w) (committed w ++ [d]) (locks_held w).

(** [CommittedCleanup::release]; errors of one action are caught and reported, and
    do not stop the next. *)
Definition release (is_commit : bool) (w : CleanupWorld) : CleanupWorld :=
  let pending := committed w in
  if is_commit then mkCleanup (foldl (λ s d, execute (locks_held w) d s) (storage w) pending) [] (locks_held w)
  else mkCleanup (storage w) [] (locks_held w).

Inductive ReleasePhase := BEFORE_LOCKS | LOCKS | AFTER_LOCKS.

(** [release_committed_cleanup_callback]; [is_top_owner] is the comparison of
    [CurrentResourceOwner] with [TopTransactionResourceOwner]. *)
Definition release_callback (phase : ReleasePhase) (is_commit is_top_level is_top_owner : bool)
    (w : CleanupWorld) : CleanupWorld :=
  match phase with
  | AFTER_LOCKS => if is_top_level && is_top_owner then release is_commit w else w
  | _ => w
  end.

Record PendingDeleteResource := mkPending {
  inner : option D;
  timing : CleanupTiming;
  pending_level : Z;
}.

Definition register_pending_delete (d : D) (level : Z) : PendingDeleteResource :=
  mkPending (Some d) (timing_of d) level.

(** [expect] on an absent delete is a panic; here the callback does nothing.
    [pending_inner] shows that it does not occur. *)
Definition pending_on_commit (r : PendingDeleteResource) (w : CleanupWorld)
    : PendingDeleteResource * list PendingDeleteResource * CleanupWorld :=
  if bool_decide (timing r = OnCommit)
  then match inner r with
       | Some d => (mkPending None (timing r) (pending_level r), [], defer d w)
       | None => (r, [], w)
       end
  else (r, [], w).

Definition execute_abort (r : PendingDeleteResource) (w : CleanupWorld) : CleanupWorld :=
  match inner r with
  | Some d => mkCleanup (execute (locks_held w) d (storage w)) (committed w) (locks_held w)
  | None => w
  end.

Definition pending_on_abort (r : PendingDeleteResource) (w : CleanupWorld)
    : PendingDeleteResource * list PendingDeleteResource * CleanupWorld :=
  if bool_decide (timing r = OnAbort) then (r, [], execute_abort r w) else (r, [], w).

Definition pending_on_abort_sub (level : Z) (r : PendingDeleteResource) (w : CleanupWorld)
    : PendingDeleteResource * list PendingDeleteResource * CleanupWorld :=
  if (level <=? pending_level r) && bool_decide (timing r = OnAbort)
  then (r, [], execute_abort r w) else (r, [], w).

#[export] Instance pending_resource : TransactionResource PendingDeleteResource CleanupWorld := {|
  nest_level := pending_level;
  set_nest_level r level := mkPending (inner r) (timing r) level;
  on_commit := pending_on_commit;
  on_abort := pending_on_abort;
  on_pre_commit r w := (Ok tt, r, [], w);
  on_pre_prepare r := Err "cannot prepare a transaction with pending external-object cleanup";
  on_prepare r w := w;
  on_commit_sub level r w := (r, [], w);
  on_abort_sub := pending_on_abort_sub;
|}.

(** ** A transaction as PostgreSQL drives it *)

Inductive tx_event :=
| Register (d : D)
| BeginSub
| CommitSub
| AbortSub.

Abbreviation Tx := (TxState PendingDeleteResource CleanupWorld).

(** State: current nesting level (1 at the top) and the framework. *)
Definition tx_step (s : Z * Tx) (ev : tx_event) : Z * Tx :=
  let '(level, st) := s in
  match ev with
  | Register d => (level, register_resource (register_pending_delete d level) st)
  | BeginSub => (level + 1, subxact_callback SUBXACT_START_SUB (level + 1) st)
  | CommitSub =>
      if 1 <? level then (level - 1, subxact_callback SUBXACT_COMMIT_SUB level st) else s
  | AbortSub =>
      if 1 <? level then (level - 1, subxact_callback SUBXACT_ABORT_SUB level st) else s
  end.

(** What PostgreSQL does itself at the second phase, before the callbacks of it. *)
Definition release_locks (w : CleanupWorld) : CleanupWorld := mkCleanup (storage w) (committed w) false.

(** Top-level commit: callbacks, then resource release of the top owner. *)
Definition commit_transaction (st : Tx) : Tx :=
  let st := snd (xact_callback XACT_PRE_COMMIT 1 st) in
  let st := snd (xact_callback XACT_COMMIT 1 st) in
  let w := release_callback BEFORE_LOCKS true true true (world st) in
  let w := release_callback LOCKS true true true (release_locks w) in
  mkTx (resources st) (release_callback AFTER_LOCKS true true true w).

(** Top-level abort: PostgreSQL aborts the open subtransactions first, innermost
    first. *)
Fixpoint abort_subs (n : nat) (level : Z) (st : Tx) : Tx :=
  match n with
  | O => st
  | S n' => abort_subs n' (level - 1) (subxact_callback SUBXACT_ABORT_SUB level st)
  end.

Definition abort_transaction (level : Z) (st : Tx) : Tx :=
  let st := abort_subs (Z.to_nat (level - 1)) level st in
  let st := snd (xact_callback XACT_ABORT 1 st) in
  let w := release_callback BEFORE_LOCKS false true true (world st) in
  let w := release_callback LOCKS false true true (release_locks w) in
  mkTx (resources st) (release_callback AFTER_LOCKS false true true w).

(** ** The contract: deletes belong to scopes *)

(** Pending deletes of each open (sub)transaction, innermost first, and the
    storage. *)
Record ScopeState := mkScopes { scopes : list (list D); spec_storage : St }.

(** The deletes of a timing, in registration order, with the locks held or not. *)
Definition run_timing (locked : bool) (t : CleanupTiming) (ds : list D) (s : St) : St :=
  foldl (λ s d, execute locked d s) s (filter (λ d, timing_of d = t) ds).

Definition scope_step (s : ScopeState) (ev : tx_event) : ScopeState :=
  match ev, scopes s with
  | Register d, top :: rest => mkScopes ((top ++ [d]) :: rest) (spec_storage s)
  | BeginSub, l => mkScopes ([] :: l) (spec_storage s)
  | CommitSub, top :: next :: rest => mkScopes ((next ++ top) :: rest) (spec_storage s)
  | AbortSub, top :: next :: rest => mkScopes (next :: rest) (run_timing true OnAbort top (spec_storage s))
  | _, _ => s
  end.

(** On commit the surviving deletes run in registration order and without locks; on
    abort every open scope runs its own, innermost first and under the locks. *)
Definition scope_commit (s : ScopeState) : St :=
  run_timing false OnCommit (concat (reverse (scopes s))) (spec_storage s).
Definition scope_abort (s : ScopeState) : St :=
  foldl (λ st scope, run_timing true OnAbort scope st) (spec_storage s) (scopes s).

(** The resources that represent scopes. *)
Fixpoint flat (l : list (list D)) : list PendingDeleteResource :=
  match l with
  | [] => []
  | top :: rest =>
      flat rest ++ map (λ d, register_pending_delete d (Z.of_nat (length l))) top
  end.

(** ** Proof *)

Lemma visit_pure (f : PendingDeleteResource → CleanupWorld →
    PendingDeleteResource * list PendingDeleteResource * CleanupWorld) g h :
  (∀ r w, f r w = (g r, [], h r w)) → ∀ l pre w,
  visit (E := string) (infallible f) (length pre) (length l) (mkTx (pre ++ l) w) =
  (Ok tt, mkTx (pre ++ map g l) (foldl (λ w r, h r w) w l)).
Proof.
  intros Hf. induction l as [|r l IH]; intros pre w; simpl; [done|].
  rewrite list_lookup_middle by done. simpl. unfold infallible at 1. rewrite Hf.
  rewrite insert_app_r_alt, Nat.sub_diag, app_nil_r by lia. simpl.
  specialize (IH (pre ++ [g r]) (h r w)). rewrite length_app, <- !app_assoc in IH. simpl in IH.
  by rewrite Nat.add_1_r in IH.
Qed.

Lemma flat_levels l : Forall (λ r, pending_level r ≤ Z.of_nat (length l)) (flat l).
Proof.
  induction l as [|top rest IH]; simpl; [done|]. apply Forall_app. split.
  - eapply Forall_impl; [exact IH|]. intros r. simpl. lia.
  - apply Forall_map, Forall_true. simpl. intros. lia.
Qed.

Lemma flat_positive l : Forall (λ r, 1 ≤ pending_level r) (flat l).
Proof.
  induction l as [|top rest IH]; simpl; [done|]. apply Forall_app. split; [done|].
  apply Forall_map, Forall_true. simpl. intros. lia.
Qed.

Lemma flat_entries l : map inner (flat l) = map Some (concat (reverse l)).
Proof.
  induction l as [|top rest IH]; [done|]. rewrite reverse_cons, concat_app. simpl.
  rewrite !map_app, IH, map_map, app_nil_r. done.
Qed.

(** Releasing a subtransaction moves its resources one level up. *)
Lemma flat_release top next rest level :
  level = Z.of_nat (length (top :: next :: rest)) →
  map (λ r, if level <=? pending_level r then mkPending (inner r) (timing r) (level - 1) else r)
    (flat (top :: next :: rest)) = flat ((next ++ top) :: rest).
Proof.
  intros ->. cbn [flat]. rewrite !map_app, !map_map, <- app_assoc. f_equal; [|f_equal].
  - pose proof (flat_levels rest) as Hl. simpl. induction Hl as [|r l Hr Hl IH]; [done|]. simpl.
    rewrite IH. destruct (Z.leb_spec (Z.of_nat (S (S (length rest)))) (pending_level r)); [lia|done].
  - apply map_ext. intros d. simpl.
    by rewrite (proj2 (Z.leb_gt _ _)) by lia.
  - apply map_ext. intros d. simpl. rewrite Z.leb_refl. unfold register_pending_delete. f_equal. lia.
Qed.

Lemma abort_fold_low level l w :
  Forall (λ r, pending_level r < level) l →
  foldl (λ w r, snd (pending_on_abort_sub level r w)) w l = w.
Proof.
  induction 1 as [|r l Hr Hl IH]; simpl; [done|]. unfold pending_on_abort_sub at 2.
  by rewrite (proj2 (Z.leb_gt _ _)) by lia.
Qed.

Lemma abort_fold_scope level lv ds w :
  level ≤ lv →
  foldl (λ w r, snd (pending_on_abort_sub level r w)) w
    (map (λ d, register_pending_delete d lv) ds) =
  mkCleanup (run_timing (locks_held w) OnAbort ds (storage w)) (committed w) (locks_held w).
Proof.
  intros Hl. revert w. induction ds as [|d ds IH]; intros w; simpl; [by destruct w|].
  unfold pending_on_abort_sub at 2. simpl. rewrite (proj2 (Z.leb_le _ _)) by done. simpl.
  unfold run_timing. rewrite filter_cons.
  destruct (decide (timing_of d = OnAbort)) as [Ht|Ht].
  - rewrite bool_decide_true by done. by rewrite IH.
  - rewrite bool_decide_false by done. by rewrite IH.
Qed.

Lemma filter_low level l : Forall (λ r, pending_level r < level) l →
  filter (λ r : PendingDeleteResource, nest_level r < level) l = l.
Proof. apply filter_id. Qed.

Lemma filter_high level ds :
  filter (λ r : PendingDeleteResource, nest_level r < level)
    (map (λ d, register_pending_delete d level) ds) = [].
Proof.
  induction ds as [|d ds IH]; [done|]. simpl. rewrite filter_cons_False; [done|].
  cbn. lia.
Qed.

(** Aborting a subtransaction runs exactly its own abort deletes and drops its
    scope. *)
Lemma abort_sub_flat top rest w :
  subxact_callback SUBXACT_ABORT_SUB (Z.of_nat (length (top :: rest))) (mkTx (flat (top :: rest)) w) =
  mkTx (flat rest) (mkCleanup (run_timing (locks_held w) OnAbort top (storage w)) (committed w) (locks_held w)).
Proof.
  unfold subxact_callback. set (level := Z.of_nat (length (top :: rest))).
  assert (Forall (λ r, pending_level r < level) (flat rest)) as Hlow.
  { eapply Forall_impl; [apply flat_levels|]. intros r. unfold level. simpl. lia. }
  rewrite (visit_pure _ (λ r, r) (λ r w, snd (pending_on_abort_sub level r w)) ) with (pre := []).
  2: { intros r w'. simpl. unfold pending_on_abort_sub. by case_bool. }
  rewrite map_id. simpl resources. simpl world. cbn [flat snd]. rewrite foldl_app, (abort_fold_low level _ _ Hlow).
  rewrite (abort_fold_scope level _ _ _ (Z.le_refl level)). simpl. f_equal. rewrite filter_app, filter_low by done.
  rewrite <- (app_nil_r (flat rest)) at 2. f_equal. apply filter_high.
Qed.

Lemma commit_sub_flat top next rest w :
  subxact_callback SUBXACT_COMMIT_SUB (Z.of_nat (length (top :: next :: rest)))
    (mkTx (flat (top :: next :: rest)) w) = mkTx (flat ((next ++ top) :: rest)) w.
Proof.
  unfold subxact_callback. set (level := Z.of_nat (length (top :: next :: rest))).
  rewrite (visit_pure _ (λ r, if level <=? pending_level r
      then mkPending (inner r) (timing r) (level - 1) else r) (λ _ w, w)) with (pre := []) by done.
  cbn [snd app resources world]. rewrite (flat_release top next rest level) by done. f_equal.
  generalize (flat (top :: next :: rest)). intros l. by induction l.
Qed.

(** The implementation represents the scopes. *)
Record represents (s : Z * Tx) (sp : ScopeState) : Prop := {
  rep_nonempty : scopes sp ≠ [];
  rep_level : s.1 = Z.of_nat (length (scopes sp));
  rep_state : s.2 = mkTx (flat (scopes sp)) (mkCleanup (spec_storage sp) [] true);
}.

Lemma represents_step s sp ev : represents s sp → represents (tx_step s ev) (scope_step sp ev).
Proof.
  destruct s as [level st], sp as [[|top rest] sto]; intros [Hne Hl Hs]; [done|]. simpl in *. subst level st.
  destruct ev as [d| | |]; simpl.
  - split; [done|done|]. unfold register_resource. simpl. by rewrite map_app, app_assoc.
  - split; [done|simpl; lia|]. simpl. by rewrite app_nil_r.
  - destruct rest as [|next rest]; simpl; [by split|].
    rewrite (proj2 (Z.ltb_lt _ _)) by lia. split; [done|simpl; lia|].
    apply (commit_sub_flat top next rest).
  - destruct rest as [|next rest]; simpl; [by split|].
    rewrite (proj2 (Z.ltb_lt _ _)) by lia. split; [done|simpl; lia|].
    apply (abort_sub_flat top (next :: rest)).
Qed.

Lemma represents_run evs : ∀ s sp, represents s sp →
  represents (foldl tx_step s evs) (foldl scope_step sp evs).
Proof. induction evs as [|ev evs IH]; intros; simpl; [done|]. by apply IH, represents_step. Qed.

(** Draining at the top level reaches every resource. *)
Lemma drain_pure f h l : (∀ r w, 1 ≤ pending_level r → ∃ r', f r w = (r', [], h r w)) →
  Forall (λ r, 1 ≤ pending_level r) l → ∀ w,
  drain f 1 l (mkTx [] w) = mkTx [] (foldl (λ w r, h r w) w l).
Proof.
  intros Hf. induction 1 as [|r l Hr Hl IH]; intros w; simpl; [done|].
  rewrite (proj2 (Z.leb_le _ _)) by done. destruct (Hf r w Hr) as [r' ->]. apply IH.
Qed.

Lemma commit_fold l : ∀ w,
  foldl (λ w r, snd (pending_on_commit r w)) w (flat l) =
  mkCleanup (storage w) (committed w ++ filter (λ d, timing_of d = OnCommit) (concat (reverse l)))
    (locks_held w).
Proof.
  induction l as [|top rest IH]; intros w; simpl; [rewrite app_nil_r; by destruct w|].
  rewrite foldl_app, IH, reverse_cons, concat_app, filter_app. simpl. rewrite app_nil_r, app_assoc.
  generalize (committed w ++ filter (λ d, timing_of d = OnCommit) (concat (reverse rest))). clear IH.
  induction top as [|d top IH]; intros c; simpl; [by rewrite app_nil_r|].
  rewrite filter_cons. unfold pending_on_commit at 2. simpl.
  destruct (decide (timing_of d = OnCommit)) as [Ht|Ht].
  - rewrite bool_decide_true by done. unfold defer. simpl. rewrite IH. by rewrite <- app_assoc.
  - rewrite bool_decide_false by done. simpl. by rewrite IH.
Qed.

Lemma pre_commit_visit (l : list PendingDeleteResource) : ∀ pre w,
  visit (at_level 1 on_pre_commit) (length pre) (length l) (mkTx (pre ++ l) w) = (Ok tt, mkTx (pre ++ l) w).
Proof.
  induction l as [|r l IH]; intros pre w; simpl; [done|]. rewrite list_lookup_middle by done. simpl.
  unfold at_level at 1. simpl.
  specialize (IH (pre ++ [r]) w). rewrite length_app, <- app_assoc in IH. simpl in IH.
  rewrite Nat.add_1_r in IH. case_bool; rewrite insert_app_r_alt, Nat.sub_diag, app_nil_r by lia; done.
Qed.

Lemma commit_represents level st sp : represents (level, st) sp →
  commit_transaction st = mkTx [] (mkCleanup (scope_commit sp) [] false).
Proof.
  intros [_ _ Hs]. simpl in Hs. subst st. unfold commit_transaction. simpl.
  rewrite (pre_commit_visit (flat (scopes sp)) []). simpl.
  rewrite (drain_pure _ (λ r w, snd (pending_on_commit r w))); [|..|apply flat_positive].
  - simpl. rewrite commit_fold. done.
  - intros r w _. simpl. unfold pending_on_commit. case_bool; [|eauto]. destruct (inner r); eauto.
Qed.

Lemma abort_subs_flat rest : ∀ top w,
  abort_subs (length rest) (Z.of_nat (length (top :: rest))) (mkTx (flat (top :: rest)) w) =
  mkTx (flat [List.last (top :: rest) []])
    (mkCleanup (foldl (λ st scope, run_timing (locks_held w) OnAbort scope st) (storage w)
       (removelast (top :: rest))) (committed w) (locks_held w)).
Proof.
  induction rest as [|next rest IH]; intros top w; [by destruct w|]. cbn [length abort_subs].
  rewrite (abort_sub_flat top (next :: rest)).
  replace (Z.of_nat (S (S (length rest))) - 1) with (Z.of_nat (length (next :: rest))) by (simpl; lia).
  rewrite IH. done.
Qed.

Lemma abort_represents level st sp : represents (level, st) sp →
  abort_transaction level st = mkTx [] (mkCleanup (scope_abort sp) [] false).
Proof.
  intros [Hne Hl Hs]. destruct sp as [l sto]. simpl in *. subst level st.
  destruct l as [|top rest]; [done|]. unfold abort_transaction.
  replace (Z.to_nat (Z.of_nat (length (top :: rest)) - 1)) with (length rest) by (simpl; lia).
  rewrite abort_subs_flat. simpl xact_callback. cbn [snd resources world].
  rewrite (drain_pure _ (λ r w, snd (pending_on_abort_sub 1 r w))).
  - rewrite (abort_fold_scope 1 1) by done. cbn [storage committed locks_held release_locks release_callback andb]. unfold release, scope_abort.
    cbn [storage committed locks_held spec_storage scopes]. do 2 f_equal.
    transitivity (foldl (λ st scope, run_timing true OnAbort scope st) sto
      (removelast (top :: rest) ++ [List.last (top :: rest) []])); [by rewrite foldl_app|].
    by rewrite <- app_removelast_last.
  - intros r w Hr. simpl. unfold pending_on_abort, pending_on_abort_sub.
    rewrite (proj2 (Z.leb_le _ _)) by done. simpl. case_bool; eauto.
  - apply (flat_positive [_]).
Qed.

(** Deletes that wait for the commit are dropped by an abort. *)
Lemma abort_drops_commit_deletes ds s :
  Forall (λ d, timing_of d = OnCommit) ds →
  abort_transaction 1 (mkTx (map (λ d, register_pending_delete d 1) ds) (mkCleanup s [] true)) =
  mkTx [] (mkCleanup s [] false).
Proof.
  intros Hds. rewrite (abort_represents 1 _ (mkScopes [ds] s)); [|by split].
  unfold scope_abort, run_timing. simpl. replace (filter _ ds) with (@nil D); [done|].
  induction Hds as [|d ds Hd _ IH]; [done|]. rewrite filter_cons_False; [done|]. by rewrite Hd.
Qed.

Lemma prepare_represents level st sp : represents (level, st) sp →
  is_ok (fst (xact_callback XACT_PRE_PREPARE 1 st)) = bool_decide (concat (scopes sp) = []).
Proof.
  intros [_ _ Hs]. simpl in Hs. subst st. simpl.
  destruct (flat (scopes sp)) as [|r l] eqn:Hf; simpl.
  - rewrite bool_decide_true; [done|].
    pose proof (flat_entries (scopes sp)) as He. rewrite Hf in He. symmetry in He.
    apply map_eq_nil in He. rewrite concat_nil_Forall in He |- *. by rewrite Forall_reverse in He.
  - pose proof (flat_positive (scopes sp)) as Hp. rewrite Hf in Hp. apply Forall_cons in Hp as [Hp _].
    unfold at_level. simpl. rewrite (proj2 (Z.leb_le _ _)) by done. simpl.
    rewrite bool_decide_false; [done|]. rewrite concat_nil_Forall, <- Forall_reverse, <- concat_nil_Forall.
    intros He. pose proof (flat_entries (scopes sp)) as Hx. by rewrite Hf, He in Hx.
Qed.

(** C7. Deletes follow the outcome of their transaction: through any sequence of
    registrations, savepoints, releases and rollbacks, the framework behaves as if
    every open (sub)transaction owned its list of pending deletes.  Rolling a
    savepoint back runs exactly the abort deletes registered in it or in released
    subtransactions of it; at commit the surviving commit deletes run once, in
    registration order, each when the locks are released; at abort every open
    scope runs its abort deletes, innermost first and while the locks are still
    held; afterwards nothing is left registered or deferred.  PREPARE is refused
    exactly when a delete is pending. *)
Theorem pending_deletes_follow_outcome evs s0 :
  let '(level, st) := foldl tx_step (1, mkTx [] (mkCleanup s0 [] true)) evs in
  let sp := foldl scope_step (mkScopes [[]] s0) evs in
  storage (world st) = spec_storage sp ∧
  commit_transaction st = mkTx [] (mkCleanup (scope_commit sp) [] false) ∧
  abort_transaction level st = mkTx [] (mkCleanup (scope_abort sp) [] false) ∧
  is_ok (fst (xact_callback XACT_PRE_PREPARE 1 st)) = bool_decide (concat (scopes sp) = []).
Proof.
  assert (represents (1, mkTx [] (mkCleanup s0 [] true)) (mkScopes [[]] s0)) as Hr by by split.
  apply (represents_run evs) in Hr. destruct (foldl tx_step _ evs) as [level st].
  split_and!; [destruct Hr as [_ _ Hs]; simpl in Hs; by rewrite Hs|by eapply commit_represents|by apply abort_represents
    |by eapply prepare_represents].
Qed.
End pending.

(** A nested example: the delete of the rolled back savepoint runs at once, that of
    the released one survives to commit and runs without locks. *)
Definition log_execute (locked : bool) (d : nat * CleanupTiming) (s : list (nat * bool)) : list (nat * bool) :=
  s ++ [(fst d, locked)].

Example pending_example :
  let evs := [Register (1%nat, OnCommit); BeginSub; Register (2%nat, OnAbort); AbortSub;
              BeginSub; Register (3%nat, OnCommit); Register (4%nat, OnAbort); CommitSub] in
  let st := snd (foldl (tx_step log_execute snd) (1, mkTx [] (mkCleanup [] [] true)) evs) in
  storage (world st) = [(2%nat, true)] ∧
  storage (world (commit_transaction log_execute st)) = [(2%nat, true); (1%nat, false); (3%nat, false)] ∧
  storage (world (abort_transaction log_execute 1 st)) = [(2%nat, true); (4%nat, true)].
Proof. by vm_compute. Qed.
