(* ===== verification/WorkerSlot.v ===== *)
(** * Worker and coordinator slots

    lagodb-base/src/worker/state: the entries of the shared-memory tables that
    describe one extension worker ([Slot], slot.rs) and one database coordinator
    ([CoordinatorSlot], coordinator.rs), their transitions, and the crash restart
    policy (policy.rs); with the worker schedule of
    lagodb-core/src/extension_worker/schedule.rs and its decoding in
    lagodb-base/src/worker/extension.rs.

    Flag bytes are booleans, [Duration] is a number of nanoseconds, and the clock
    ([timestamp_ms], milliseconds) is an argument. *)
From stdpp Require Import base list gmap strings.
From Stdlib Require Import ZArith Lia.
From S2P Require Import Prelude Bytes.
Open Scope Z_scope.
Open Scope lago_scope.

(** ** Durations and schedules *)

Definition duration_max : Z := u64_max * 10 ^ 9 + 999999999.
Definition as_millis (d : Z) : Z := d / 10 ^ 6.
Definition from_millis (ms : Z) : Z := ms * 10 ^ 6.

(** [i64::try_from(d.as_millis()).unwrap_or(i64::MAX)]. *)
Definition millis_i64 (d : Z) : Z := if as_millis d <=? i64_max then as_millis d else i64_max.

Inductive WorkerSchedule := Idle | RunImmediately | RunAfter (delay : Z).

Definition into_raw (s : WorkerSchedule) : Z :=
  match s with
  | Idle => 0
  | RunImmediately => -1
  | RunAfter delay => if delay =? 0 then -1 else millis_i64 delay
  end.

(** The decoding of a worker's result. *)
Definition schedule_of_raw (code : Z) : WorkerSchedule :=
  if code =? -1 then RunImmediately
  else if 0 <? code then RunAfter (from_millis code)
  else Idle.

(** ** Restart policy *)

Record RestartPolicy := mkPolicy {
  policy_initial : Z;
  policy_maximum : Z;
  policy_healthy : Z;
}.

Definition i32_saturate (z : Z) : Z := Z.max (- 2 ^ 31) (Z.min i32_max z).

Definition failure_count_after_crash (p : RestartPolicy) (failure_count start_time_ms now_ms : Z) : Z :=
  let previous :=
    if negb (start_time_ms =? 0)
       && (millis_i64 (policy_healthy p) <=? now_ms -ₛ start_time_ms)
    then 0 else failure_count in
  i32_saturate (previous + 1).

(** [1_u32.checked_shl(exponent)]. *)
Definition checked_shl_u32 (exponent : Z) : option Z :=
  if exponent <? 32 then Some (Z.shiftl 1 exponent mod 2 ^ 32) else None.

Definition crash_backoff (p : RestartPolicy) (failure_count : Z) : Z :=
  let pred := i32_saturate (failure_count - 1) in
  let exponent := if 0 <=? pred then pred else u32_max in
  let multiplier := default u32_max (checked_shl_u32 exponent) in
  Z.min (Z.min duration_max (policy_initial p * multiplier)) (policy_maximum p).

(** ** States *)

Inductive RegistrationState := Empty | Registered | Removing.
Inductive ProcessState := Stopped | Starting | Running | Restarting | NotStarted.

#[export] Instance RegistrationState_eq_dec : EqDecision RegistrationState.
Proof. solve_decision. Defined.
#[export] Instance ProcessState_eq_dec : EqDecision ProcessState.
Proof. solve_decision. Defined.

Definition is_active (p : ProcessState) : bool :=
  match p with Stopped | NotStarted => false | _ => true end.

Definition INVALID_OID : Z := 0.
Definition INVALID_PROC_NUMBER : Z := -1.
Definition MAX_WORKER_NAME_BYTES : Z := 255.

Abbreviation WorkerKey := (Z * Z)%type.

(** ** Worker slots *)

Module Slot.
Record t := mk {
  database_oid : Z;
  worker_id : Z;
  extension_oid : Z;
  pid : Z;
  restart_after_ms : Z;
  start_time_ms : Z;
  failure_count : Z;
  registration_state : RegistrationState;
  process_state : ProcessState;
  wake_requested : bool;
  stop_requested : bool;
  needs_restart : bool;
  worker_name : RString;
}.

Definition EMPTY : t :=
  mk INVALID_OID 0 INVALID_OID 0 0 0 0 Empty Stopped false false false [].

Definition new (key : WorkerKey) : t :=
  mk (fst key) (snd key) INVALID_OID 0 0 0 0 Empty Stopped false false false [].

Definition key (s : t) : WorkerKey := (database_oid s, worker_id s).

(** Field updates. *)
Definition with_process (s : t) (p : ProcessState) : t :=
  mk (database_oid s) (worker_id s) (extension_oid s) (pid s) (restart_after_ms s) (start_time_ms s)
    (failure_count s) (registration_state s) p (wake_requested s) (stop_requested s) (needs_restart s)
    (worker_name s).
Definition with_registration (s : t) (r : RegistrationState) : t :=
  mk (database_oid s) (worker_id s) (extension_oid s) (pid s) (restart_after_ms s) (start_time_ms s)
    (failure_count s) r (process_state s) (wake_requested s) (stop_requested s) (needs_restart s)
    (worker_name s).
Definition with_flags (s : t) (wake stop restart : bool) : t :=
  mk (database_oid s) (worker_id s) (extension_oid s) (pid s) (restart_after_ms s) (start_time_ms s)
    (failure_count s) (registration_state s) (process_state s) wake stop restart (worker_name s).
Definition with_times (s : t) (pid restart_after start_time : Z) : t :=
  mk (database_oid s) (worker_id s) (extension_oid s) pid restart_after start_time
    (failure_count s) (registration_state s) (process_state s) (wake_requested s) (stop_requested s)
    (needs_restart s) (worker_name s).
Definition with_failures (s : t) (n : Z) : t :=
  mk (database_oid s) (worker_id s) (extension_oid s) (pid s) (restart_after_ms s) (start_time_ms s)
    n (registration_state s) (process_state s) (wake_requested s) (stop_requested s) (needs_restart s)
    (worker_name s).

Definition has_active_process (s : t) : bool :=
  bool_decide (process_state s = Starting) || (0 <? pid s).

(** [saturating_sub] of two timestamps, clamped at zero, in milliseconds. *)
Definition restart_delay (s : t) (now_ms : Z) : option Z :=
  if negb (bool_decide (registration_state s = Registered))
     || bool_decide (process_state s = Starting) || (0 <? pid s)
     || stop_requested s || negb (needs_restart s)
  then None
  else Some (from_millis (Z.max (restart_after_ms s -ₛ now_ms) 0)).

(** [None] where the conversion of the length or the slice of the fixed name buffer panics. *)
Definition initialize_registration (s : t) (extension_oid : Z) (name : RString) : option t :=
  if (blen name <=? u16_max) && (blen name <=? MAX_WORKER_NAME_BYTES)
  then Some (mk (database_oid s) (worker_id s) extension_oid 0 0 0 0 Registered NotStarted
               false false true name)
  else None.

Definition request_wakeup (s : t) : t :=
  let s := with_flags s true (stop_requested s) (needs_restart s) in
  if negb (bool_decide (process_state s = Starting)) && (pid s =? 0)
     && bool_decide (registration_state s = Registered) && negb (stop_requested s)
     && negb ((0 <? failure_count s) && (0 <? restart_after_ms s))
  then with_flags (with_times s (pid s) 0 (start_time_ms s)) false (stop_requested s) true
  else s.

Definition schedule_existing_restart (s : t) : t :=
  with_flags (with_process s Restarting) (wake_requested s) (stop_requested s) true.

Definition reconcile_present (s : t) : t :=
  let s := with_registration s Registered in
  if stop_requested s
  then
    if has_active_process s then s
    else
      let s := with_flags s (wake_requested s) false (needs_restart s) in
      if wake_requested s then request_wakeup s
      else if needs_restart s then schedule_existing_restart s
      else with_process s Stopped
  else if wake_requested s then request_wakeup s
  else s.

Definition request_stop (s : t) : t :=
  let s := with_flags s (wake_requested s) true (needs_restart s) in
  if bool_decide (process_state s = Running) then with_process s Restarting else s.

Definition mark_removing (s : t) : t := request_stop (with_registration s Removing).

Definition prepare_start (s : t) : t :=
  with_times (with_flags (with_process s Starting) false (stop_requested s) false) (pid s) 0 0.

Definition mark_running (s : t) (pid' start_time : Z) : bool * t :=
  if negb (bool_decide (process_state s = Starting)) || stop_requested s || wake_requested s
  then (false, s)
  else
    (true, with_times (with_flags (with_process s Running) (wake_requested s) (stop_requested s) false)
             pid' (restart_after_ms s) start_time).

Definition complete_run (s : t) (schedule : WorkerSchedule) (now_ms : Z) : t :=
  match schedule with
  | Idle => s
  | RunImmediately =>
      with_process (with_times (with_flags s (wake_requested s) (stop_requested s) true)
                      (pid s) 0 (start_time_ms s)) Restarting
  | RunAfter delay =>
      with_process (with_times (with_flags s (wake_requested s) (stop_requested s) true)
                      (pid s) (now_ms +ₛ millis_i64 delay) (start_time_ms s)) Restarting
  end.

Definition prepare_transactional_stop (s : t) : bool * t :=
  if negb (bool_decide (process_state s = Starting)) && (pid s =? 0) then (false, s)
  else (true, request_stop (with_flags s (wake_requested s) (stop_requested s) true)).

Inductive WorkerStopDisposition := Settled | Reconcile.

Definition confirm_stopped (s : t) (now_ms : Z) (policy : RestartPolicy) (exit_code : Z)
    : option WorkerStopDisposition * t :=
  if negb (bool_decide (process_state s = Starting)) && (pid s =? 0) then (None, s)
  else
    let explicit_stop := stop_requested s in
    let restart_requested := needs_restart s in
    let stopped_normally := exit_code =? 0 in
    let start_time := start_time_ms s in
    let needs_reconcile :=
      explicit_stop || negb (bool_decide (registration_state s = Registered))
      || restart_requested || wake_requested s || negb stopped_normally in
    let s := with_times s 0 (restart_after_ms s) 0 in
    let s := if stopped_normally then with_failures s 0 else s in
    let s :=
      if negb (bool_decide (registration_state s = Registered))
      then with_flags (with_times (with_process s Stopped) (pid s) 0 (start_time_ms s)) false false false
      else if explicit_stop then schedule_existing_restart s
      else if stopped_normally
      then
        if wake_requested s
        then with_flags (with_times (with_process s Restarting) (pid s) 0 (start_time_ms s))
               false (stop_requested s) true
        else if restart_requested then schedule_existing_restart s
        else with_flags (with_times (with_process s Stopped) (pid s) 0 (start_time_ms s))
               (wake_requested s) (stop_requested s) false
      else if restart_requested then schedule_existing_restart s
      else
        let s := with_process s Restarting in
        let s := with_failures s (failure_count_after_crash policy (failure_count s) start_time now_ms) in
        let backoff := crash_backoff policy (failure_count s) in
        with_times (with_flags s (wake_requested s) (stop_requested s) true) (pid s)
          (now_ms +ₛ millis_i64 backoff) (start_time_ms s) in
    (Some (if needs_reconcile then Reconcile else Settled), s).

Definition registration_failed (s : t) (now_ms retry_delay : Z) : bool * t :=
  let pending := bool_decide (restart_delay s now_ms = Some 0) in
  if negb (has_active_process s) && negb pending then (false, s)
  else
    let s := with_times s 0 (restart_after_ms s) (start_time_ms s) in
    let s :=
      if stop_requested s then schedule_existing_restart s
      else
        with_flags (with_times (with_process s NotStarted) (pid s)
                      (now_ms +ₛ millis_i64 retry_delay) (start_time_ms s))
          (wake_requested s) (stop_requested s) true in
    (true, with_times s (pid s) (restart_after_ms s) 0).
End Slot.

(** ** Coordinator slots *)

Module Coord.
Record t := mk {
  database_oid : Z;
  pid : Z;
  proc_number : Z;
  process_state : ProcessState;
  stop_requested : bool;
  needs_restart : bool;
}.

Definition new (database_oid : Z) : t := mk database_oid 0 INVALID_PROC_NUMBER Stopped false false.

Definition has_reconciliation_authority (c : t) : bool :=
  is_active (process_state c) && negb (stop_requested c).

Definition reserve (c : t) : t := mk (database_oid c) 0 INVALID_PROC_NUMBER Starting false false.

Definition mark_running (c : t) (pid' proc_number' : Z) : bool * t :=
  if negb (bool_decide (process_state c = Starting)) || stop_requested c || needs_restart c
  then (false, c)
  else (true, mk (database_oid c) pid' proc_number' Running (stop_requested c) (needs_restart c)).

Definition request_restart (c : t) : t :=
  mk (database_oid c) (pid c) (proc_number c) (process_state c) (stop_requested c) true.

Definition request_stop (c : t) : t :=
  mk (database_oid c) (pid c) (proc_number c)
    (match process_state c with Starting | Running => Restarting | p => p end) true false.

Definition request_handoff (c : t) : t := request_restart (request_stop c).
Definition prepare_for_drop (c : t) : t := request_handoff c.

Inductive CoordinatorStopDisposition := Settled | HandoffNow | Failed.

Definition confirm_stopped (c : t) (exit_code : Z) : option CoordinatorStopDisposition * t :=
  if negb (is_active (process_state c)) then (None, c)
  else
    let '(disposition, restart) :=
      if negb (stop_requested c) && negb (exit_code =? 0) then (Failed, true)
      else if needs_restart c then (HandoffNow, needs_restart c)
      else (Settled, needs_restart c) in
    (Some disposition, mk (database_oid c) 0 INVALID_PROC_NUMBER Stopped (stop_requested c) restart).

Definition reset_after_registration_failure (c : t) : t :=
  mk (database_oid c) 0 INVALID_PROC_NUMBER Stopped false true.
End Coord.

(** ** The worker schedule crosses the SQL interface as a 64-bit result *)

(** A delay is a [Duration], so it is not negative. *)
Definition schedule_wf (s : WorkerSchedule) : Prop :=
  match s with RunAfter delay => 0 ≤ delay | _ => True end.

Definition schedule_received (s : WorkerSchedule) : WorkerSchedule :=
  match s with
  | RunAfter delay =>
      if decide (delay = 0) then RunImmediately
      else if decide (delay < 10 ^ 6) then Idle
      else RunAfter (from_millis (Z.min (as_millis delay) i64_max))
  | _ => s
  end.

(** C40. The raw result of a worker decodes to the schedule it was made from, its
    delay cut to whole milliseconds and capped at [i64::MAX] of them, in every case
    but one: a positive delay below one millisecond is encoded as 0 and decoded as
    [Idle], so such a worker is not run again. *)
Theorem schedule_raw_roundtrip s :
  schedule_wf s → schedule_of_raw (into_raw s) = schedule_received s.
Proof.
  destruct s as [| |d]; [done..|]. cbn [schedule_wf into_raw schedule_received]. intros Hd.
  destruct (decide (d = 0)) as [->|Hz]; [done|].
  destruct (Z.eqb_spec d 0); [done|]. unfold millis_i64, as_millis, schedule_of_raw.
  assert (Hq : 0 ≤ d / 10 ^ 6) by (apply Z.div_pos; lia).
  destruct (decide (d < 10 ^ 6)).
  { rewrite Z.div_small by lia. done. }
  assert (1 ≤ d / 10 ^ 6) by (apply Z.div_le_lower_bound; lia).
  destruct (Z.leb_spec (d / 10 ^ 6) i64_max).
  - rewrite Z.min_l by lia.
    destruct (Z.eqb_spec (d / 10 ^ 6) (-1)); [lia|]. destruct (Z.ltb_spec 0 (d / 10 ^ 6)); [done|lia].
  - rewrite Z.min_r by lia. done.
Qed.

Lemma schedule_raw_roundtrip_witness :
  schedule_of_raw (into_raw (RunAfter 500000)) = Idle
  ∧ schedule_of_raw (into_raw (RunAfter (from_millis 60000))) = RunAfter (from_millis 60000).
Proof.
  split; [rewrite (schedule_raw_roundtrip (RunAfter 500000)); [reflexivity | vm_compute; discriminate]|].
  rewrite (schedule_raw_roundtrip (RunAfter (from_millis 60000))); [reflexivity | vm_compute; discriminate].
Defined.

(** ** Crash backoff *)

Definition policy_wf (p : RestartPolicy) : Prop :=
  0 ≤ policy_initial p ≤ duration_max ∧ 0 ≤ policy_maximum p ≤ duration_max
  ∧ 0 ≤ policy_healthy p ≤ duration_max.

(** The doubling the backoff follows: [2^(n-1)] up to the width of the multiplier. *)
Definition backoff_factor (n : Z) : Z := if decide (n ≤ 32) then 2 ^ (n - 1) else u32_max.

Lemma backoff_factor_mono m n : 1 ≤ m ≤ n → 1 ≤ backoff_factor m ≤ backoff_factor n.
Proof.
  intros Hmn. unfold backoff_factor.
  assert (H1 : 0 < 2 ^ (m - 1)) by (apply Z.pow_pos_nonneg; lia).
  destruct (decide (m ≤ 32)), (decide (n ≤ 32)); try (unfold u32_max; lia).
  - split; [lia|]. apply Z.pow_le_mono_r; lia.
  - split; [lia|]. trans (2 ^ 31); [apply Z.pow_le_mono_r; lia|]. unfold u32_max. lia.
Qed.

Lemma crash_backoff_factor p n :
  1 ≤ n ≤ i32_max →
  crash_backoff p n = Z.min (Z.min duration_max (policy_initial p * backoff_factor n)) (policy_maximum p).
Proof.
  intros Hn. unfold crash_backoff, i32_saturate. unfold i32_max in *.
  rewrite (Z.min_r (2 ^ 31 - 1)), Z.max_r by lia.
  destruct (Z.leb_spec 0 (n - 1)); [|lia].
  unfold checked_shl_u32, backoff_factor.
  destruct (Z.ltb_spec (n - 1) 32), (decide (n ≤ 32)); try lia; [|done].
  cbn [default]. rewrite Z.shiftl_1_l, Z.mod_small; [done|].
  split; [apply Z.pow_nonneg; lia|]. apply Z.pow_lt_mono_r; lia.
Qed.

Lemma failure_count_after_crash_range p n start now :
  0 ≤ n ≤ i32_max → 1 ≤ failure_count_after_crash p n start now ≤ i32_max.
Proof.
  intros Hn. unfold failure_count_after_crash, i32_saturate. unfold i32_max in *.
  case_match; lia.
Qed.

(** The failure counts of a run of crashes, each given by its start and crash times. *)
Fixpoint crash_run (p : RestartPolicy) (n : Z) (crashes : list (Z * Z)) : Z :=
  match crashes with
  | [] => n
  | (start, now) :: rest => crash_run p (failure_count_after_crash p n start now) rest
  end.

Definition unhealthy (p : RestartPolicy) (c : Z * Z) : bool :=
  (fst c =? 0) || (i64_saturate (snd c - fst c) <? millis_i64 (policy_healthy p)).

Lemma failure_count_unhealthy p n c :
  unhealthy p c = true → 0 ≤ n < i32_max →
  failure_count_after_crash p n (fst c) (snd c) = n + 1.
Proof.
  unfold unhealthy, failure_count_after_crash. intros Hc Hn.
  destruct (Z.eqb_spec (fst c) 0); cbn [negb andb orb] in *.
  - unfold i32_saturate, i32_max in *. lia.
  - apply Z.ltb_lt in Hc. destruct (Z.leb_spec (millis_i64 (policy_healthy p)) (i64_saturate (snd c - fst c))); [lia|].
    unfold i32_saturate, i32_max in *. lia.
Qed.

Lemma crash_run_count p crashes n :
  forallb (unhealthy p) crashes = true → 0 ≤ n → n + Z.of_nat (length crashes) ≤ i32_max →
  crash_run p n crashes = n + Z.of_nat (length crashes).
Proof.
  revert n. induction crashes as [|[start now] rest IH]; intros n; cbn [forallb crash_run length].
  { intros. lia. }
  intros [Hc Hr]%andb_true_iff H0 Hn.
  pose proof (failure_count_unhealthy p n (start, now) Hc ltac:(lia)) as E. cbn [fst snd] in E.
  rewrite E, IH by (done || lia). lia.
Qed.

(** A worker that crashes [n] times in a row, never staying up for the healthy
    interval, waits [initial * 2^(n-1)] before its next start (the factor saturating
    at [u32::MAX] from the 33rd crash on, the product at [Duration::MAX]), never less
    than after the previous crash and never more than the configured maximum: no
    count or duration overflows or wraps on the way. *)
Theorem crash_loop_backoff p crashes c :
  policy_wf p → forallb (unhealthy p) (crashes ++ [c]) = true →
  Z.of_nat (length (crashes ++ [c])) ≤ i32_max → crashes ≠ [] →
  let previous := crash_backoff p (crash_run p 0 crashes) in
  let next := crash_backoff p (crash_run p 0 (crashes ++ [c])) in
  next = Z.min (policy_maximum p)
           (Z.min duration_max (policy_initial p * backoff_factor (Z.of_nat (length (crashes ++ [c])))))
  ∧ 0 ≤ previous ≤ next ≤ policy_maximum p.
Proof.
  intros (Hi & Hm & _) Hall Hlen Hne. cbv zeta.
  assert (Hall' : forallb (unhealthy p) crashes = true).
  { rewrite forallb_app in Hall. by apply andb_true_iff in Hall as [? _]. }
  assert (Hpos : 1 ≤ Z.of_nat (length crashes)) by (destruct crashes; [done | cbn [length]; lia]).
  assert (Hl : Z.of_nat (length (crashes ++ [c])) = Z.of_nat (length crashes) + 1)
    by (rewrite length_app; cbn [length]; lia).
  rewrite !crash_run_count by (done || lia). rewrite !Z.add_0_l.
  rewrite !crash_backoff_factor by lia. rewrite Hl in *.
  destruct (backoff_factor_mono (Z.of_nat (length crashes)) (Z.of_nat (length crashes) + 1)) as [Hf1 Hf2];
    [lia|].
  assert (policy_initial p * backoff_factor (Z.of_nat (length crashes))
          ≤ policy_initial p * backoff_factor (Z.of_nat (length crashes) + 1)) by nia.
  assert (0 ≤ policy_initial p * backoff_factor (Z.of_nat (length crashes))) by nia.
  lia.
Qed.


(** ** Slot invariant *)

(** The process fields of a slot agree: a running invocation has published its
    pid, one that is starting has not, and only those two and an invocation that was
    told to stop (or that completed and is to be restarted) can hold a pid. *)
Definition process_wf (s : Slot.t) : Prop :=
  match Slot.process_state s with
  | Running => 0 < Slot.pid s
  | Restarting => 0 ≤ Slot.pid s
  | Stopped | Starting | NotStarted => Slot.pid s = 0
  end.

Record slot_wf (s : Slot.t) : Prop := {
  wf_process : process_wf s;
  wf_failures : 0 ≤ Slot.failure_count s ≤ i32_max;
  wf_restart_after : i64_min ≤ Slot.restart_after_ms s ≤ i64_max;
}.

(** Every operation on a slot, with the arguments the runtime passes. *)
Inductive slot_op :=
  | OpWakeup
  | OpReconcile
  | OpRemove
  | OpPrepareStart
  | OpMarkRunning (pid start_time : Z)
  | OpComplete (schedule : WorkerSchedule) (now : Z)
  | OpTransactionalStop
  | OpConfirmStopped (policy : RestartPolicy) (now exit_code : Z)
  | OpRegistrationFailed (now retry : Z).

Definition slot_apply (s : Slot.t) (op : slot_op) : Slot.t :=
  match op with
  | OpWakeup => Slot.request_wakeup s
  | OpReconcile => Slot.reconcile_present s
  | OpRemove => Slot.mark_removing s
  | OpPrepareStart => Slot.prepare_start s
  | OpMarkRunning pid start_time => snd (Slot.mark_running s pid start_time)
  | OpComplete schedule now => Slot.complete_run s schedule now
  | OpTransactionalStop => snd (Slot.prepare_transactional_stop s)
  | OpConfirmStopped policy now exit_code => snd (Slot.confirm_stopped s now policy exit_code)
  | OpRegistrationFailed now retry => snd (Slot.registration_failed s now retry)
  end.

(** A worker is started only when it has no process, and a process publishes a
    positive pid. *)
Definition op_ok (s : Slot.t) (op : slot_op) : Prop :=
  match op with
  | OpPrepareStart => Slot.has_active_process s = false
  | OpMarkRunning pid _ => 0 < pid
  | _ => True
  end.

Lemma i64_saturate_range z : i64_min ≤ i64_saturate z ≤ i64_max.
Proof. unfold i64_saturate, i64_min, i64_max. lia. Qed.

(** Unfolds the slot operations. *)
Ltac slot_eval :=
  cbv [Slot.request_wakeup Slot.reconcile_present Slot.mark_removing Slot.request_stop Slot.prepare_start
       Slot.mark_running Slot.complete_run Slot.prepare_transactional_stop Slot.registration_failed
       Slot.schedule_existing_restart Slot.has_active_process Slot.restart_delay
       Slot.with_process Slot.with_registration Slot.with_flags Slot.with_times Slot.with_failures
       Slot.key] in *;
  cbn in *.

Lemma has_active_false s :
  slot_wf s → Slot.has_active_process s = false →
  Slot.process_state s ≠ Starting ∧ Slot.pid s = 0.
Proof.
  intros [Hp _ _] H. unfold Slot.has_active_process in H. apply orb_false_iff in H as [H1 H2].
  apply bool_decide_eq_false in H1. apply Z.ltb_ge in H2. split; [done|].
  unfold process_wf in Hp. destruct (Slot.process_state s); lia || done.
Qed.

Lemma has_active_true s :
  Slot.has_active_process s = true ↔ Slot.process_state s = Starting ∨ 0 < Slot.pid s.
Proof.
  unfold Slot.has_active_process. rewrite orb_true_iff, bool_decide_eq_true, Z.ltb_lt. done.
Qed.

(** Splits on every test of an operation and decides the fields of the invariant. *)
Ltac slot_wf_solve s :=
  slot_eval; repeat (case_match; cbn in *);
  rewrite ?andb_true_iff, ?orb_true_iff, ?orb_false_iff, ?negb_true_iff, ?bool_decide_eq_true,
    ?bool_decide_eq_false, ?Z.ltb_lt, ?Z.ltb_ge, ?Z.eqb_eq in *;
  constructor; unfold process_wf in *; cbn;
  try apply i64_saturate_range; try (unfold i64_min, i64_max; lia); try lia;
  destruct s as [? ? ? ? ? ? ? ? [] ? ? ? ?]; cbn in *; try done; lia.

Lemma confirm_stopped_wf s now policy code :
  slot_wf s → slot_wf (snd (Slot.confirm_stopped s now policy code)).
Proof.
  intros [Hp Hf Hr].
  pose proof (failure_count_after_crash_range policy (Slot.failure_count s) (Slot.start_time_ms s) now Hf).
  unfold Slot.confirm_stopped. slot_wf_solve s.
Qed.

Lemma slot_apply_wf s op : slot_wf s → op_ok s op → slot_wf (slot_apply s op).
Proof.
  intros Hwf Hop. destruct op; cbn [slot_apply op_ok] in *; [..|by apply confirm_stopped_wf|];
    try (apply has_active_false in Hop as [? ?]; [|done]); destruct Hwf as [Hp Hf Hr];
    slot_wf_solve s.
Qed.

(** A sequence of operations whose preconditions hold when each is reached. *)
Fixpoint ops_ok (s : Slot.t) (ops : list slot_op) : Prop :=
  match ops with
  | [] => True
  | op :: rest => op_ok s op ∧ ops_ok (slot_apply s op) rest
  end.

Definition slot_run (s : Slot.t) (ops : list slot_op) : Slot.t := fold_left slot_apply ops s.

Lemma slot_run_wf ops s : slot_wf s → ops_ok s ops → slot_wf (slot_run s ops).
Proof.
  revert s. induction ops as [|op ops IH]; [done|]. intros s Hwf [Hop Hrest].
  apply (IH (slot_apply s op)); [by apply slot_apply_wf | done].
Qed.

Lemma initialize_wf s oid name s' : Slot.initialize_registration s oid name = Some s' → slot_wf s'.
Proof.
  unfold Slot.initialize_registration. case_match; intros E; [|done]. injection E as <-.
  constructor; cbn; unfold i32_max, i64_min, i64_max; lia || done.
Qed.

Lemma restart_delay_inactive s now d :
  Slot.restart_delay s now = Some d → Slot.has_active_process s = false.
Proof.
  unfold Slot.restart_delay, Slot.has_active_process. intros H.
  destruct (negb _); [done|]. destruct (bool_decide (Slot.process_state s = Starting)); [done|].
  destruct (0 <? Slot.pid s); [done|]. done.
Qed.

(** C29. Whatever sequence of wake-ups, reconciliations, starts, completions, stops,
    exits and registration failures a freshly registered slot goes through, its
    process state and pid agree, its counters stay in their machine width, and the
    delay before its next start is a number of milliseconds that fits the [u64] it is
    converted to and is given only while no process of the worker is active. *)
Theorem slot_lifecycle_typed key oid name s ops now :
  Slot.initialize_registration (Slot.new key) oid name = Some s → ops_ok s ops →
  let s' := slot_run s ops in
  slot_wf s'
  ∧ ∀ d, Slot.restart_delay s' now = Some d →
      Slot.has_active_process s' = false
      ∧ ∃ ms, d = from_millis ms ∧ 0 ≤ ms ≤ u64_max.
Proof.
  intros Hinit Hops. cbv zeta. apply initialize_wf in Hinit.
  split; [by apply slot_run_wf|]. intros d Hd. split; [by eapply restart_delay_inactive|].
  unfold Slot.restart_delay in Hd. case_match; [done|]. injection Hd as <-. eexists. split; [done|].
  pose proof (i64_saturate_range (Slot.restart_after_ms (slot_run s ops) - now)) as Hr.
  unfold i64_min, i64_max, u64_max in *. lia.
Qed.

Definition example_slot : Slot.t :=
  Slot.mk 5 7 42 0 0 0 0 Registered NotStarted false false true [].

Lemma slot_lifecycle_typed_witness :
  Slot.restart_delay
    (slot_run example_slot
       [OpPrepareStart; OpMarkRunning 101 1000; OpComplete (RunAfter (from_millis 250)) 2000;
        OpConfirmStopped (mkPolicy 0 0 0) 2001 0]) 2100 = Some (from_millis 150).
Proof.
  destruct (slot_lifecycle_typed (5, 7) 42 [] example_slot
              [OpPrepareStart; OpMarkRunning 101 1000; OpComplete (RunAfter (from_millis 250)) 2000;
               OpConfirmStopped (mkPolicy 0 0 0) 2001 0] 2100) as [_ _].
  - reflexivity.
  - cbn. repeat split.
  - reflexivity.
Defined.

(** ** Transactional stops

    DROP and deregistration stop a worker before the transaction's outcome is
    known. The slot keeps its stop gate and its schedule until a catalog
    reconciliation confirms that the registration survived; until then wake-ups,
    further stops, reconciliations and the exit of the old invocation arrive in any
    order. *)

(** What can reach the slot around the exit of the stopped invocation. *)
Definition stop_interleaved (op : slot_op) : bool :=
  match op with OpWakeup | OpReconcile | OpTransactionalStop => true | _ => false end.

Definition is_wakeup (op : slot_op) : bool := match op with OpWakeup => true | _ => false end.

Definition woken (s : Slot.t) (ops : list slot_op) : bool :=
  Slot.wake_requested s || existsb is_wakeup ops.

(** Before the exit: the gate is closed and the schedule is untouched. *)
Definition stopping (due failures : Z) (wake : bool) (s : Slot.t) : Prop :=
  Slot.registration_state s = Registered ∧ Slot.has_active_process s = true
  ∧ Slot.stop_requested s = true ∧ Slot.needs_restart s = true
  ∧ Slot.restart_after_ms s = due ∧ Slot.failure_count s = failures ∧ Slot.wake_requested s = wake.

(** A crash backoff is pending: a wake-up does not shorten it. *)
Definition backing_off (due failures : Z) : bool := (0 <? failures) && (0 <? due).

(** After it: nothing runs; the restart is due as scheduled, and a wake-up is
    remembered, or the wake-up has made it due at once. *)
Definition stopped (due failures : Z) (wake : bool) (s : Slot.t) : Prop :=
  Slot.registration_state s = Registered ∧ Slot.process_state s ≠ Starting ∧ Slot.pid s = 0
  ∧ Slot.needs_restart s = true ∧ Slot.failure_count s = failures
  ∧ (Slot.restart_after_ms s = due ∧ Slot.wake_requested s = wake
     ∨ wake = true ∧ backing_off due failures = false ∧ Slot.restart_after_ms s = 0).

Lemma request_wakeup_gated s :
  Slot.stop_requested s = true →
  Slot.request_wakeup s = Slot.with_flags s true (Slot.stop_requested s) (Slot.needs_restart s).
Proof.
  intros H. unfold Slot.request_wakeup. cbv zeta. cbn. rewrite H. cbn. by rewrite !andb_false_r.
Qed.

Lemma reconcile_present_gated s :
  Slot.stop_requested s = true → Slot.has_active_process s = true →
  Slot.reconcile_present s = Slot.with_registration s Registered.
Proof.
  intros H Ha. unfold Slot.reconcile_present. cbv zeta. cbn. rewrite H.
  unfold Slot.has_active_process in *. cbn. by rewrite Ha.
Qed.

Lemma prepare_stop_active s :
  Slot.has_active_process s = true →
  Slot.prepare_transactional_stop s =
    (true, Slot.request_stop (Slot.with_flags s (Slot.wake_requested s) (Slot.stop_requested s) true)).
Proof.
  intros H%has_active_true. unfold Slot.prepare_transactional_stop. case_match eqn:E; [|done].
  apply andb_true_iff in E as [E1 E2]. apply negb_true_iff, bool_decide_eq_false in E1.
  apply Z.eqb_eq in E2. destruct H; [done | lia].
Qed.

Lemma request_stop_fields s :
  Slot.has_active_process (Slot.request_stop s) = Slot.has_active_process s
  ∧ Slot.registration_state (Slot.request_stop s) = Slot.registration_state s
  ∧ Slot.stop_requested (Slot.request_stop s) = true
  ∧ Slot.needs_restart (Slot.request_stop s) = Slot.needs_restart s
  ∧ Slot.restart_after_ms (Slot.request_stop s) = Slot.restart_after_ms s
  ∧ Slot.failure_count (Slot.request_stop s) = Slot.failure_count s
  ∧ Slot.wake_requested (Slot.request_stop s) = Slot.wake_requested s.
Proof. destruct s as [? ? ? ? ? ? ? ? [] ? ? ? ?]; done. Qed.

Lemma prepare_stop_stopping s :
  Slot.registration_state s = Registered → Slot.has_active_process s = true →
  stopping (Slot.restart_after_ms s) (Slot.failure_count s) (Slot.wake_requested s)
    (slot_apply s OpTransactionalStop).
Proof.
  intros Hreg Hact. cbn [slot_apply]. rewrite prepare_stop_active by done. cbn [snd].
  destruct (request_stop_fields (Slot.with_flags s (Slot.wake_requested s) (Slot.stop_requested s) true))
    as (E1 & E2 & E3 & E4 & E5 & E6 & E7).
  unfold stopping. rewrite E1, E2, E3, E4, E5, E6, E7. done.
Qed.

Lemma stopping_step due f wake s op :
  stop_interleaved op = true → stopping due f wake s →
  stopping due f (wake || is_wakeup op) (slot_apply s op).
Proof.
  intros Hop Hs. pose proof Hs as (Hreg & Hact & Hstop & Hnr & Hdue & Hf & Hw).
  destruct op; try done; cbn [is_wakeup].
  - rewrite orb_true_r. cbn [slot_apply]. rewrite request_wakeup_gated by done. done.
  - rewrite orb_false_r. cbn [slot_apply]. rewrite reconcile_present_gated by done. done.
  - rewrite orb_false_r, <- Hdue, <- Hf, <- Hw. by apply prepare_stop_stopping.
Qed.

Lemma stopping_run due f wake ops s :
  forallb stop_interleaved ops = true → stopping due f wake s →
  stopping due f (wake || existsb is_wakeup ops) (slot_run s ops).
Proof.
  revert wake s. induction ops as [|op ops IH]; intros wake s; cbn [forallb existsb].
  { by rewrite orb_false_r. }
  intros [Hop Hops]%andb_true_iff Hs. rewrite orb_assoc. apply (IH _ (slot_apply s op)); [done|].
  by apply stopping_step.
Qed.

(** The failures that count after the exit. *)
Definition failures_after (failures code : Z) : Z := if code =? 0 then 0 else failures.

Lemma stopping_exit due f wake s policy now code :
  stopping due f wake s →
  stopped due (failures_after f code) wake (slot_apply s (OpConfirmStopped policy now code)).
Proof.
  intros (Hreg & Hact & Hstop & Hnr & Hdue & Hf & Hw). apply has_active_true in Hact.
  cbn [slot_apply]. unfold Slot.confirm_stopped. case_match eqn:E.
  { apply andb_true_iff in E as [E1 E2]. apply negb_true_iff, bool_decide_eq_false in E1.
    apply Z.eqb_eq in E2. destruct Hact; [done | lia]. }
  clear E Hact. destruct s. cbn in Hreg, Hstop, Hnr, Hdue, Hf, Hw. subst. unfold failures_after.
  cbv zeta. destruct (code =? 0); cbn; unfold stopped; cbn; split_and!; auto; done.
Qed.

(** A wake-up of a stopped slot, gate closed or open. *)
Lemma stopped_wakeup due f wake s :
  stopped due f wake s → stopped due f true (Slot.request_wakeup s).
Proof.
  intros (Hreg & Hproc & Hpid & Hnr & Hf & Hs). unfold Slot.request_wakeup. cbv zeta. cbn.
  rewrite Hreg, Hpid, Hf, (bool_decide_eq_false_2 (_ = Starting)) by done. cbn.
  destruct (Slot.stop_requested s); cbn.
  { unfold stopped. cbn. split_and!; try done. destruct Hs as [[? _]|(_ & ? & ?)]; auto. }
  destruct Hs as [[Hdue _]|(_ & Hb & Hz)].
  - rewrite Hdue. fold (backing_off due f). destruct (backing_off due f) eqn:Hb; unfold stopped; cbn; split_and!; auto.
  - rewrite Hz, andb_false_r. unfold stopped. cbn. split_and!; auto.
Qed.

Lemma stopped_not_active due f wake s : stopped due f wake s → Slot.has_active_process s = false.
Proof.
  intros (_ & Hproc & Hpid & _). unfold Slot.has_active_process.
  by rewrite bool_decide_eq_false_2, Hpid by done.
Qed.

Lemma stopped_registered due f wake s :
  stopped due f wake s → Slot.with_registration s Registered = s.
Proof. intros (Hreg & _). destruct s; cbn in *. by subst. Qed.

(** Reconciling opens the gate, and serves a remembered wake-up. *)
Lemma stopped_reconcile due f wake s :
  stopped due f wake s → stopped due f wake (Slot.reconcile_present s).
Proof.
  intros Hs. unfold Slot.reconcile_present. cbv zeta. rewrite (stopped_registered due f wake) by done.
  assert (Hw : Slot.wake_requested s = true → wake = true)
    by (destruct Hs as (_ & _ & _ & _ & _ & [[_ <-]|[-> _]]); auto).
  assert (Ho : ∀ stop, stopped due f wake (Slot.with_flags s (Slot.wake_requested s) stop (Slot.needs_restart s)))
    by (intros stop; exact Hs).
  destruct (Slot.stop_requested s).
  - rewrite (stopped_not_active due f wake) by done. cbn [Slot.wake_requested Slot.needs_restart Slot.with_flags].
    destruct (Slot.wake_requested s) eqn:E.
    + rewrite Hw by done. by eapply stopped_wakeup.
    + destruct Hs as (? & ? & ? & -> & ? & Hs). rewrite E in Hs. unfold stopped. cbn. split_and!; done.
  - destruct (Slot.wake_requested s); [|done]. rewrite Hw by done. by eapply stopped_wakeup.
Qed.

Lemma stopped_step due f wake s op :
  stop_interleaved op = true → stopped due f wake s →
  stopped due f (wake || is_wakeup op) (slot_apply s op).
Proof.
  intros Hop Hs. destruct op; try done; cbn [is_wakeup slot_apply]; rewrite ?orb_true_r, ?orb_false_r.
  - by eapply stopped_wakeup.
  - by apply stopped_reconcile.
  - destruct Hs as (Hreg & Hproc & Hpid & Hrest). unfold Slot.prepare_transactional_stop.
    rewrite bool_decide_eq_false_2, Hpid by done. done.
Qed.

Lemma stopped_run due f wake ops s :
  forallb stop_interleaved ops = true → stopped due f wake s →
  stopped due f (wake || existsb is_wakeup ops) (slot_run s ops).
Proof.
  revert wake s. induction ops as [|op ops IH]; intros wake s; cbn [forallb existsb].
  { by rewrite orb_false_r. }
  intros [Hop Hops]%andb_true_iff Hs. rewrite orb_assoc. apply (IH _ (slot_apply s op)); [done|].
  by apply stopped_step.
Qed.

Lemma request_wakeup_stop s : Slot.stop_requested (Slot.request_wakeup s) = Slot.stop_requested s.
Proof. unfold Slot.request_wakeup. cbv zeta. by case_match. Qed.

Lemma reconcile_present_opens due f wake s :
  stopped due f wake s → Slot.stop_requested (Slot.reconcile_present s) = false.
Proof.
  intros Hs. unfold Slot.reconcile_present. cbv zeta. rewrite (stopped_registered due f wake) by done.
  destruct (Slot.stop_requested s) eqn:E.
  - rewrite (stopped_not_active due f wake) by done. cbn [Slot.wake_requested Slot.needs_restart Slot.with_flags].
    destruct (Slot.wake_requested s); [by rewrite request_wakeup_stop|]. by destruct (Slot.needs_restart s).
  - destruct (Slot.wake_requested s); [by rewrite request_wakeup_stop|done].
Qed.

(** An open slot serves a wake-up at once unless a backoff is pending. *)
Lemma request_wakeup_open due f wake s :
  stopped due f wake s → Slot.stop_requested s = false → backing_off due f = false →
  Slot.restart_after_ms (Slot.request_wakeup s) = 0.
Proof.
  intros (Hreg & Hproc & Hpid & Hnr & Hf & Hs) Hstop Hb. unfold Slot.request_wakeup. cbv zeta. cbn.
  rewrite Hreg, Hpid, Hf, Hstop, (bool_decide_eq_false_2 (_ = Starting)) by done. cbn.
  destruct Hs as [[-> _]|(_ & _ & ->)]; [fold (backing_off due f); by rewrite Hb|by rewrite andb_false_r].
Qed.

Lemma stopped_served due f s :
  stopped due f true s → backing_off due f = false →
  Slot.restart_after_ms (Slot.reconcile_present s) = 0.
Proof.
  intros Hs Hb. unfold Slot.reconcile_present. cbv zeta. rewrite (stopped_registered due f true) by done.
  assert (Ho : stopped due f true (Slot.with_flags s (Slot.wake_requested s) false (Slot.needs_restart s)))
    by exact Hs.
  destruct (Slot.stop_requested s) eqn:E.
  - rewrite (stopped_not_active due f true) by done. cbn [Slot.wake_requested Slot.needs_restart Slot.with_flags].
    destruct (Slot.wake_requested s) eqn:Hw; [by eapply request_wakeup_open|].
    destruct Hs as (_ & _ & _ & Hnr & _ & [[_ ?]|(_ & _ & Hz)]); [congruence|]. by rewrite Hnr.
  - destruct (Slot.wake_requested s) eqn:Hw; [by eapply request_wakeup_open|].
    by destruct Hs as (_ & _ & _ & _ & _ & [[_ ?]|(_ & _ & ?)]); [congruence|].
Qed.

(** After a reconciliation the gate is open and a wake-up has been served unless a
    backoff is pending. *)
Lemma stopped_reconciled due f wake s now :
  stopped due f wake s →
  Slot.restart_delay (Slot.reconcile_present s) now =
    Some (from_millis (Z.max ((if wake && negb (backing_off due f) then 0 else due) -ₛ now) 0)).
Proof.
  intros Hs. pose proof (reconcile_present_opens _ _ _ _ Hs) as Hopen.
  pose proof (stopped_reconcile due f wake s Hs) as (Hreg & Hproc & Hpid & Hnr & _ & Hdue).
  unfold Slot.restart_delay. rewrite Hreg, Hopen, Hnr, Hpid.
  rewrite (bool_decide_eq_false_2 (_ = Starting)) by done. cbn. do 4 f_equal.
  destruct wake, (backing_off due f) eqn:Hb; cbn.
  - destruct Hdue as [[? _]|(_ & ? & _)]; congruence.
  - by rewrite (stopped_served due f).
  - destruct Hdue as [[? _]|(? & _)]; congruence.
  - destruct Hdue as [[? _]|(? & _)]; congruence.
Qed.

(** C25. A worker stopped by a transaction whose registration survives is started
    again: stop it, let any wake-ups, further stops and reconciliations arrive before
    and after the exit of the old invocation (with any exit code), and once a
    reconciliation has seen the exit the slot asks for a start: at once if the
    worker has been woken and is not backing off after crashes, and otherwise at the
    time the interrupted invocation had scheduled.  The worker is backing off when
    it has failed before, the old invocation did not exit normally and a restart
    time is set. *)
Theorem transactional_stop_recovers s before after policy now code later :
  Slot.registration_state s = Registered → Slot.has_active_process s = true →
  forallb stop_interleaved before = true → forallb stop_interleaved after = true →
  let s' := slot_run s (OpTransactionalStop :: before ++ OpConfirmStopped policy now code
                          :: after ++ [OpReconcile]) in
  let due := Slot.restart_after_ms s in
  let at_once := woken s (before ++ after)
                 && negb (backing_off due (failures_after (Slot.failure_count s) code)) in
  Slot.restart_delay s' later = Some (from_millis (Z.max ((if at_once then 0 else due) -ₛ later) 0)).
Proof.
  intros Hreg Hact Hb Ha. cbv zeta. unfold slot_run. cbn [fold_left].
  rewrite fold_left_app. cbn [fold_left]. rewrite fold_left_app. cbn [fold_left].
  pose proof (stopping_run _ _ _ _ _ Hb (prepare_stop_stopping s Hreg Hact)) as H1.
  pose proof (stopped_run _ _ _ _ _ Ha (stopping_exit _ _ _ _ policy now code H1)) as H2.
  unfold woken. rewrite existsb_app, orb_assoc. by apply stopped_reconciled.
Qed.

Definition example_running : Slot.t :=
  Slot.mk 5 7 42 101 60000 900 3 Registered Restarting false false true [].

(** Woken while it stops: with a normal exit it is due at once, after a crash it waits
    for the end of the backoff. *)
Lemma transactional_stop_recovers_witness :
  let ops code := [OpTransactionalStop; OpWakeup; OpReconcile; OpConfirmStopped (mkPolicy 0 0 0) 1000 code;
                   OpTransactionalStop; OpReconcile] in
  Slot.restart_delay (slot_run example_running (ops 0)) 2000 = Some 0
  ∧ Slot.restart_delay (slot_run example_running (ops 1)) 2000 = Some (from_millis 58000).
Proof.
  pose proof (λ code, transactional_stop_recovers example_running [OpWakeup; OpReconcile] [OpTransactionalStop]
                (mkPolicy 0 0 0) 1000 code 2000 eq_refl eq_refl eq_refl eq_refl) as H.
  split; [exact (H 0)|exact (H 1)].
Defined.
