(* ===== verification/WorkerStore.v ===== *)
(** * The shared worker store

    lagodb-base/src/worker/store: the shared-memory tables of the worker runtime
    (one slot per extension worker, one per database coordinator, and the
    supervisor's entry) and every operation on them. Each operation runs inside one
    critical section of the [SHARED_STATE] lock, except [worker_exit], which takes
    the lock twice; the operations are therefore functions from store to store, and
    [worker_exit] is two of them.

    The shared dynahashes are finite maps without a capacity. The latch wake-ups and
    SIGTERMs an operation sends are part of its result. The clock, the pid and the
    process number of the calling process are arguments, as is the order in which
    the hash scan of [register_ready_worker] meets the entries. *)
From stdpp Require Import base list gmap.
From Stdlib Require Import ZArith Lia.
From S2P Require Import Prelude Bytes WorkerSlot.
Open Scope Z_scope.

(** ** State *)

Record SharedState := mkShared {
  supervisor_pid : Z;
  supervisor_proc_number : Z;
  rescan_all : bool;
}.

Definition shared_default : SharedState := mkShared 0 INVALID_PROC_NUMBER true.

Record Store := mkStore {
  shared : SharedState;
  coordinators : gmap Z Coord.t;
  workers : gmap WorkerKey Slot.t;
}.

Definition store_init : Store := mkStore shared_default ∅ ∅.

Definition set_rescan (st : Store) (b : bool) : Store :=
  mkStore (mkShared (supervisor_pid (shared st)) (supervisor_proc_number (shared st)) b)
    (coordinators st) (workers st).
Definition set_coordinators (st : Store) (cs : gmap Z Coord.t) : Store :=
  mkStore (shared st) cs (workers st).
Definition set_workers (st : Store) (ws : gmap WorkerKey Slot.t) : Store :=
  mkStore (shared st) (coordinators st) ws.

(** What an operation sends to other processes. *)
Inductive Signal := Latch (proc_number : Z) | Sigterm (pid : Z).

Definition signal_pid (pid : Z) : list Signal := if 0 <? pid then [Sigterm pid] else [].

(** A table entry's [with_mut]: its result and the table with the updated entry. *)
Definition with_mut {K E R} `{Countable K} (k : K) (f : E → R * E) (table : gmap K E)
    : option R * gmap K E :=
  match table !! k with
  | Some e => let '(r, e') := f e in (Some r, <[k := e']> table)
  | None => (None, table)
  end.

(** ** Supervisor *)

Definition claim_supervisor (st : Store) (pid proc : Z) : Store :=
  mkStore (mkShared pid proc true) (coordinators st) (workers st).

Definition clear_supervisor (st : Store) : Store :=
  mkStore (mkShared 0 INVALID_PROC_NUMBER (rescan_all (shared st))) (coordinators st) (workers st).

Definition signal_supervisor (st : Store) : list Signal :=
  let proc := supervisor_proc_number (shared st) in
  if proc =? INVALID_PROC_NUMBER then [] else [Latch proc].

Definition take_full_scan_request (st : Store) : bool * Store :=
  (rescan_all (shared st), set_rescan st false).

Definition request_full_rescan (st : Store) : bool * Store := (true, set_rescan st true).

(** An entry the scan meets: one of [gone] without a process is collected for
    removal, one with a process is told to stop. *)
Definition reap_worker (gone : Slot.t → bool) (s : Slot.t) : option Slot.t :=
  if gone s
  then if Slot.has_active_process s then Some (Slot.mark_removing s) else None
  else Some s.

Definition reap_coordinator (live : gset Z) (c : Coord.t) : option Coord.t :=
  if negb (bool_decide (Coord.database_oid c ∈ live))
  then if is_active (Coord.process_state c) then Some (Coord.request_stop c) else None
  else Some c.

Definition remove_dropped_databases (st : Store) (live : gset Z) : Store :=
  mkStore (shared st) (omap (reap_coordinator live) (coordinators st))
    (omap (reap_worker (λ s, negb (bool_decide (Slot.database_oid s ∈ live)))) (workers st)).

(** ** Requests *)

Definition request_coordination_locked (st : Store) (database_oid : Z) : bool * list Signal * Store :=
  if database_oid =? INVALID_OID then (false, [], st)
  else
    match coordinators st !! database_oid with
    | None => (true, [], set_rescan st true)
    | Some coordinator =>
        let coordinator := Coord.request_restart coordinator in
        let st := set_coordinators st (<[database_oid := coordinator]> (coordinators st)) in
        let proc := Coord.proc_number coordinator in
        if proc =? INVALID_PROC_NUMBER then (true, [], set_rescan st true)
        else (false, [Latch proc], st)
    end.

Definition wake_worker (st : Store) (key : WorkerKey) : bool * list Signal * Store :=
  request_coordination_locked (set_workers st (alter Slot.request_wakeup key (workers st))) (fst key).

Definition wake_database_workers (st : Store) (database_oid : Z) : bool * list Signal * Store :=
  request_coordination_locked
    (set_workers st ((λ s, if Slot.database_oid s =? database_oid then Slot.request_wakeup s else s)
                       <$> workers st)) database_oid.

Definition request_database_reconcile (st : Store) (database_oid : Z) : bool * list Signal * Store :=
  request_coordination_locked st database_oid.

(** ** Stops requested by transactions *)

(** The scan over snapshots of the coordinator table: the coordinator of the
    database is told to stop and terminated. *)
Definition drop_coordinators (st : Store) (database_oid : Z) : list Signal * Store :=
  match coordinators st !! database_oid with
  | Some c =>
      (signal_pid (Coord.pid c),
       set_coordinators st (<[database_oid := Coord.prepare_for_drop c]> (coordinators st)))
  | None => ([], st)
  end.

(** The scan over snapshots of the worker table: every selected worker with a
    process is stopped and terminated. *)
Definition stop_selected (sel : Slot.t → bool) (s : Slot.t) : Slot.t :=
  if sel s then snd (Slot.prepare_transactional_stop s) else s.

Definition stop_signals (sel : Slot.t → bool) (ws : gmap WorkerKey Slot.t) : list Signal :=
  flat_map (λ '(_, s), if sel s && fst (Slot.prepare_transactional_stop s)
                       then signal_pid (Slot.pid s) else []) (map_to_list ws).

Definition prepare_drop_database (st : Store) (database_oid : Z) : list Signal * Store :=
  let '(sent, st) := drop_coordinators st database_oid in
  let sel s := Slot.database_oid s =? database_oid in
  (sent ++ stop_signals sel (workers st), set_workers st (stop_selected sel <$> workers st)).

Definition prepare_drop_extension (st : Store) (database_oid extension_oid : Z) : list Signal * Store :=
  let '(sent, st) := drop_coordinators st database_oid in
  let sel s := (Slot.database_oid s =? database_oid) && (Slot.extension_oid s =? extension_oid) in
  (sent ++ stop_signals sel (workers st), set_workers st (stop_selected sel <$> workers st)).

Definition stop_worker_slot (st : Store) (key : WorkerKey) : list Signal * Store :=
  match workers st !! key with
  | Some s =>
      let '(stopped, s') := Slot.prepare_transactional_stop s in
      if stopped then (signal_pid (Slot.pid s'), set_workers st (<[key := s']> (workers st)))
      else ([], st)
  | None => ([], st)
  end.

Definition request_stop_worker (st : Store) (database_oid worker_id : Z) : bool * list Signal * Store :=
  let '(sent, st) := stop_worker_slot st (database_oid, worker_id) in
  match coordinators st !! database_oid with
  | None => (false, sent, st)
  | Some coordinator =>
      let coordinator := Coord.request_handoff coordinator in
      let st := set_coordinators st (<[database_oid := coordinator]> (coordinators st)) in
      let proc := Coord.proc_number coordinator in
      if proc =? INVALID_PROC_NUMBER then (true, sent, st) else (false, sent ++ [Latch proc], st)
  end.

(** ** Coordinators *)

Inductive CoordinatorRegistration := CRegistered | CAlreadyActive | CNoWork | CFailed.

(** [registered] is whether PostgreSQL accepted the dynamic background worker. *)
Definition register_coordinator (st : Store) (database_oid : Z) (registered : bool)
    : CoordinatorRegistration * Store :=
  let launch :=
    let slot := Coord.request_restart (default (Coord.new database_oid) (coordinators st !! database_oid)) in
    if registered
    then (CRegistered, set_coordinators st (<[database_oid := Coord.reserve slot]> (coordinators st)))
    else (CFailed, set_coordinators st (<[database_oid := slot]> (coordinators st))) in
  match coordinators st !! database_oid with
  | Some slot =>
      if is_active (Coord.process_state slot) then (CAlreadyActive, st)
      else if negb (Coord.needs_restart slot) then (CNoWork, st)
      else launch
  | None => launch
  end.

Definition coordinator_registration_failed (st : Store) (database_oid : Z) : Store :=
  set_coordinators st
    (alter (λ c, if is_active (Coord.process_state c) then Coord.reset_after_registration_failure c else c)
       database_oid (coordinators st)).

Definition begin_coordinator (st : Store) (database_oid pid proc : Z) : bool * Store :=
  let '(result, cs) := with_mut database_oid (λ c, Coord.mark_running c pid proc) (coordinators st) in
  (default false result, set_coordinators st cs).

Definition validate_coordinator (st : Store) (database_oid : Z) : bool :=
  match coordinators st !! database_oid with
  | Some c => Coord.has_reconciliation_authority c
  | None => false
  end.

Definition coordinator_exit (st : Store) (database_oid code : Z)
    : option Coord.CoordinatorStopDisposition * Store :=
  let '(result, cs) := with_mut database_oid (λ c, Coord.confirm_stopped c code) (coordinators st) in
  (mjoin result, set_coordinators st cs).

(** ** Workers *)

Record WorkerRegistration := mkRegistration {
  reg_worker_id : Z;
  registration_owner_oid : Z;
  reg_worker_name : RString;
}.

(** One registration of the catalog snapshot; [None] is the panic of
    [initialize_registration]. *)
Definition reconcile_one (database_oid : Z) (ws : gmap WorkerKey Slot.t) (r : WorkerRegistration)
    : option (gmap WorkerKey Slot.t) :=
  let key := (database_oid, reg_worker_id r) in
  match ws !! key with
  | Some s => Some (<[key := Slot.reconcile_present s]> ws)
  | None =>
      s ← Slot.initialize_registration (Slot.new key) (registration_owner_oid r) (reg_worker_name r);
      Some (<[key := Slot.request_wakeup s]> ws)
  end.

Fixpoint reconcile_all (database_oid : Z) (ws : gmap WorkerKey Slot.t) (rs : list WorkerRegistration)
    : option (gmap WorkerKey Slot.t) :=
  match rs with
  | [] => Some ws
  | r :: rest => ws' ← reconcile_one database_oid ws r; reconcile_all database_oid ws' rest
  end.

(** A worker of the database that the snapshot does not list. *)
Definition unlisted (database_oid : Z) (rs : list WorkerRegistration) (s : Slot.t) : bool :=
  (Slot.database_oid s =? database_oid)
  && negb (bool_decide (Slot.worker_id s ∈ reg_worker_id <$> rs)).

Definition reconcile_registrations (st : Store) (database_oid : Z) (rs : list WorkerRegistration)
    : option (bool * Store) :=
  if negb (validate_coordinator st database_oid) then Some (false, st)
  else
    ws ← reconcile_all database_oid (workers st) rs;
    Some (true, set_workers st (omap (reap_worker (unlisted database_oid rs)) ws)).

Definition clear_database_workers (st : Store) (database_oid : Z) : Store :=
  set_workers st (omap (reap_worker (λ s, Slot.database_oid s =? database_oid)) (workers st)).

(** Whether the scan may launch an entry. *)
Definition launchable (database_oid now : Z) (s : Slot.t) : bool :=
  (Slot.database_oid s =? database_oid) && bool_decide (Slot.restart_delay s now = Some 0).

Definition find_launch (ws : gmap WorkerKey Slot.t) (database_oid now : Z) (scan : list WorkerKey)
    : option WorkerKey :=
  head (filter (λ k, match ws !! k with Some s => launchable database_oid now s | None => false end = true) scan).

Definition CAPACITY_RETRY : Z := from_millis 100.

Inductive WorkerLaunchRegistration :=
  | WRegistered (key : WorkerKey)
  | WFailed (key : WorkerKey).

(** [now] is the time the scan reads, [now'] the later one a failed registration
    is stamped with. The [expect] and [assert!] of the code are the [None] results. *)
Definition register_ready_worker (st : Store) (database_oid now now' : Z) (scan : list WorkerKey)
    (registered : bool) : option (option WorkerLaunchRegistration * Store) :=
  if negb (validate_coordinator st database_oid) then Some (None, st)
  else
    match find_launch (workers st) database_oid now scan with
    | None => Some (None, st)
    | Some key =>
        if registered
        then
          let '(found, ws) := with_mut key (λ s, (tt, Slot.prepare_start s)) (workers st) in
          _ ← found;
          Some (Some (WRegistered key), set_workers st ws)
        else
          let '(delayed, ws) :=
            with_mut key (λ s, Slot.registration_failed s now' CAPACITY_RETRY) (workers st) in
          if decide (delayed = Some true) then Some (Some (WFailed key), set_workers st ws) else None
    end.

Definition worker_registration_failed (st : Store) (key : WorkerKey) (now : Z) : Store :=
  set_workers st (alter (λ s, snd (Slot.registration_failed s now CAPACITY_RETRY)) key (workers st)).

Definition begin_worker (st : Store) (key : WorkerKey) (pid now : Z) : bool * Store :=
  let '(published, ws) := with_mut key (λ s, Slot.mark_running s pid now) (workers st) in
  (default false published, set_workers st ws).

Definition worker_registration_missing (st : Store) (key : WorkerKey) : Store :=
  set_workers st
    (alter (λ s, if Slot.has_active_process s then Slot.mark_removing s else s) key (workers st)).

Definition validate_worker (st : Store) (key : WorkerKey) : bool :=
  match workers st !! key with
  | Some s => Slot.has_active_process s && negb (Slot.stop_requested s)
  | None => false
  end.

Definition complete_worker (st : Store) (key : WorkerKey) (schedule : WorkerSchedule) (now : Z)
    : bool * list Signal * Store :=
  match workers st !! key with
  | None => (false, [], st)
  | Some s =>
      let st := set_workers st (<[key := Slot.complete_run s schedule now]> (workers st)) in
      match schedule with
      | Idle => (false, [], st)
      | RunImmediately | RunAfter _ => request_coordination_locked st (fst key)
      end
  end.

(** The first critical section of [worker_exit]: whether the database must be
    reconciled, and the store. *)
Definition worker_stopped (st : Store) (key : WorkerKey) (policy : RestartPolicy) (now code : Z)
    : bool * Store :=
  match workers st !! key with
  | None => (false, st)
  | Some s =>
      let '(disposition, s') := Slot.confirm_stopped s now policy code in
      let ws :=
        if decide (is_Some disposition ∧ Slot.registration_state s' = Removing)
        then delete key (workers st) else <[key := s']> (workers st) in
      (match disposition with Some Slot.Reconcile => true | _ => false end, set_workers st ws)
  end.

(** [worker_exit] when nothing runs between its two critical sections. *)
Definition worker_exit (st : Store) (key : WorkerKey) (policy : RestartPolicy) (now code : Z)
    : bool * list Signal * Store :=
  let '(reconcile, st) := worker_stopped st key policy now code in
  if reconcile then request_database_reconcile st (fst key) else (false, [], st).

(** ** Queries *)

Definition min_delay (a b : option Z) : option Z :=
  match a, b with
  | Some x, Some y => Some (Z.min x y)
  | Some x, None => Some x
  | None, b => b
  end.

Definition next_database_worker_start_delay (st : Store) (database_oid now : Z) : option Z :=
  foldr (λ '(_, s) acc,
    if Slot.database_oid s =? database_oid then min_delay acc (Slot.restart_delay s now) else acc)
    None (map_to_list (workers st)).

Definition requested_databases (st : Store) : list Z :=
  (Coord.database_oid ∘ snd) <$>
    filter (λ '(_, c), Coord.needs_restart c = true ∧ Coord.process_state c = Stopped)
      (map_to_list (coordinators st)).

Definition all_worker_databases (st : Store) : gset Z :=
  list_to_set ((Slot.database_oid ∘ snd) <$>
    filter (λ '(_, s), Slot.registration_state s = Registered ∨ Slot.registration_state s = Removing)
      (map_to_list (workers st))).

(** ** The launch of a ready worker *)

(** The slot a coordinator launches. *)
Lemma find_launch_slot ws db now scan k :
  find_launch ws db now scan = Some k →
  ∃ s, ws !! k = Some s ∧ Slot.database_oid s = db ∧ Slot.restart_delay s now = Some 0.
Proof.
  unfold find_launch. intros H. apply head_Some_elem_of, list_elem_of_filter in H as [H _].
  destruct (ws !! k) as [s|]; [|done]. exists s. unfold launchable in H.
  apply andb_true_iff in H as [H1%Z.eqb_eq H2%bool_decide_eq_true]. done.
Qed.

Lemma restart_delay_later s now now' :
  now ≤ now' → Slot.restart_delay s now = Some 0 → Slot.restart_delay s now' = Some 0.
Proof.
  unfold Slot.restart_delay. intros Hle H. case_match; [done|]. injection H as H. f_equal.
  unfold from_millis in *. unfold i64_saturate, i64_min, i64_max in *. lia.
Qed.

Lemma registration_failed_pending s now retry :
  Slot.restart_delay s now = Some 0 → fst (Slot.registration_failed s now retry) = true.
Proof.
  intros H. unfold Slot.registration_failed. cbv zeta. rewrite bool_decide_eq_true_2 by done.
  by rewrite andb_false_r.
Qed.

(** The launch of a ready worker never trips its assertions: with a clock that
    does not run backwards between its two readings, [register_ready_worker] returns,
    and it returns a launch exactly when the coordinator has authority and the scan
    meets a worker of the database that is due. *)
Theorem register_ready_returns st db now now' scan registered :
  now ≤ now' →
  ∃ r st', register_ready_worker st db now now' scan registered = Some (r, st')
    ∧ (is_Some r ↔ validate_coordinator st db = true
         ∧ ∃ k s, k ∈ scan ∧ workers st !! k = Some s ∧ Slot.database_oid s = db
             ∧ Slot.restart_delay s now = Some 0).
Proof.
  intros Hle. unfold register_ready_worker. destruct (validate_coordinator st db); cbn; cycle 1.
  { exists None, st. split; [done|]. split; [by intros [? ?]|]. by intros [? _]. }
  destruct (find_launch (workers st) db now scan) as [k|] eqn:E.
  - assert (Hin : k ∈ scan) by (by apply head_Some_elem_of, list_elem_of_filter in E as [_ ?]).
    apply find_launch_slot in E as (s & Hs & Hd & Hr). unfold with_mut. rewrite Hs.
    assert (Hlaunch : true = true ∧ ∃ k s, k ∈ scan ∧ workers st !! k = Some s ∧ Slot.database_oid s = db
             ∧ Slot.restart_delay s now = Some 0) by eauto 8.
    destruct registered; [by do 2 eexists|].
    pose proof (registration_failed_pending s now' CAPACITY_RETRY (restart_delay_later _ _ _ Hle Hr)) as Hf.
    destruct (Slot.registration_failed s now' CAPACITY_RETRY) as [d s']. cbn in Hf. subst d. cbn.
    by do 2 eexists.
  - exists None, st. split; [done|]. split; [by intros [? ?]|]. intros (_ & k & s & Hin & Hs & Hd & Hr).
    unfold find_launch in E. apply head_None in E.
    assert (Hk : k ∈ filter (λ k, match workers st !! k with Some s => launchable db now s | None => false end = true) scan).
    { apply list_elem_of_filter. split; [|done]. rewrite Hs. unfold launchable. by rewrite Hd, Z.eqb_refl, bool_decide_eq_true_2. }
    rewrite E in Hk. by apply elem_of_nil in Hk.
Qed.

