(* ===== verification/WorkerProtocol.v ===== *)
(** * The worker runtime as a system of processes

    lagodb-base/src/worker: the supervisor (supervisor.rs), the database
    coordinators (coordinator.rs), the extension workers (extension.rs) and the
    backends that wake and stop them, interleaved at the granularity of the critical
    sections of the shared store. A process is a program counter; a step runs one
    critical section of one process and moves its program counter as the code does.

    PostgreSQL's side is the environment: a registered dynamic background worker
    becomes a process that may start, fail to start, or exit with any code; its exit
    callback runs before it is gone; [wait_for_startup] reports [Stopped] only for a
    process that is gone; the catalog holds worker names of 1 to 255 bytes (the CHECK
    constraint of the worker table). *)
From stdpp Require Import base list gmap strings.
From Stdlib Require Import ZArith Lia.
From S2P Require Import Prelude Bytes WorkerSlot WorkerStore.
Open Scope Z_scope.

(** ** Processes *)

(** An extension worker: registered but not yet run; past [begin_worker], which
    did or did not publish it; past the first critical section of its exit, with the
    reconciliation request still to make. *)
Inductive wphase := WLaunched | WStarted (published : bool) | WExiting.

(** A coordinator: registered; at the head of its loop; past [reconcile_registrations];
    waiting for the startup of the worker process it registered; returning. *)
Inductive cphase :=
  | CLaunched
  | CTop
  | CServing
  | CWaiting (key : WorkerKey) (process : nat)
  | CReturning.

Record system := mkSystem {
  store : Store;
  wprocs : gmap nat (WorkerKey * wphase);
  cprocs : gmap nat (Z * cphase);
  supervisor_wait : option (Z * nat);
  spawned : nat;
}.

Definition initial_system : system := mkSystem store_init ∅ ∅ None 0.

Definition set_store (y : system) (st : Store) : system :=
  mkSystem st (wprocs y) (cprocs y) (supervisor_wait y) (spawned y).
Definition set_wproc (y : system) (n : nat) (p : option (WorkerKey * wphase)) : system :=
  mkSystem (store y) (partial_alter (λ _, p) n (wprocs y)) (cprocs y) (supervisor_wait y) (spawned y).
Definition set_cproc (y : system) (n : nat) (p : option (Z * cphase)) : system :=
  mkSystem (store y) (wprocs y) (partial_alter (λ _, p) n (cprocs y)) (supervisor_wait y) (spawned y).
Definition set_wait (y : system) (w : option (Z * nat)) : system :=
  mkSystem (store y) (wprocs y) (cprocs y) w (spawned y).
Definition spawn (y : system) : system :=
  mkSystem (store y) (wprocs y) (cprocs y) (supervisor_wait y) (S (spawned y)).

(** ** Steps *)

(** Critical sections any backend may run. *)
Inductive client_op :=
  | WakeWorker (key : WorkerKey)
  | WakeDatabase (database_oid : Z)
  | RequestReconcile (database_oid : Z)
  | RequestRescan
  | DropDatabase (database_oid : Z)
  | DropExtension (database_oid extension_oid : Z)
  | StopWorker (database_oid worker_id : Z).

Definition client_apply (st : Store) (op : client_op) : Store :=
  match op with
  | WakeWorker key => snd (wake_worker st key)
  | WakeDatabase db => snd (wake_database_workers st db)
  | RequestReconcile db => snd (request_database_reconcile st db)
  | RequestRescan => snd (request_full_rescan st)
  | DropDatabase db => snd (prepare_drop_database st db)
  | DropExtension db ext => snd (prepare_drop_extension st db ext)
  | StopWorker db w => snd (request_stop_worker st db w)
  end.

Definition catalog_ok (rs : list WorkerRegistration) : Prop :=
  Forall (λ r, 1 ≤ blen (reg_worker_name r) ≤ 255) rs.

(** [Supervisor::run] and [start_coordinator]: the critical sections the supervisor
    runs, the registration of a coordinator and the wait for its startup. *)
Inductive supervisor_step : system → system → Prop :=
  | s_supervisor_start y pid proc :
      supervisor_step y (set_wait (set_store y (claim_supervisor (store y) pid proc)) None)
  | s_supervisor_exit y :
      supervisor_step y (set_wait (set_store y (clear_supervisor (store y))) None)
  | s_take_scan y :
      supervisor_wait y = None →
      supervisor_step y (set_store y (snd (take_full_scan_request (store y))))
  | s_remove_dropped y live :
      supervisor_wait y = None →
      supervisor_step y (set_store y (remove_dropped_databases (store y) live))
  | s_register_coordinator y db st' :
      supervisor_wait y = None → db ≠ INVALID_OID →
      register_coordinator (store y) db true = (CRegistered, st') →
      supervisor_step y (spawn (set_wait (set_cproc (set_store y st') (spawned y) (Some (db, CLaunched)))
                       (Some (db, spawned y))))
  | s_register_coordinator_failed y db st' :
      supervisor_wait y = None → db ≠ INVALID_OID →
      register_coordinator (store y) db false = (CFailed, st') →
      supervisor_step y (set_store y st')
  | s_coordinator_started y db n :
      supervisor_wait y = Some (db, n) → is_Some (cprocs y !! n) →
      supervisor_step y (set_wait y None)
  | s_coordinator_start_failed y db n :
      supervisor_wait y = Some (db, n) → cprocs y !! n = None →
      supervisor_step y (set_wait (set_store y (coordinator_registration_failed (store y) db)) None).

(** [Coordinator::run], [start_ready_worker] and the exit callback. *)
Inductive coordinator_step : system → system → Prop :=
  | c_begin_coordinator y n db pid proc ok st' :
      cprocs y !! n = Some (db, CLaunched) →
      begin_coordinator (store y) db pid proc = (ok, st') →
      coordinator_step y (set_cproc (set_store y st') n (Some (db, if ok then CTop else CReturning)))
  | c_validate_fails y n db phase :
      cprocs y !! n = Some (db, phase) → phase = CTop ∨ phase = CServing →
      validate_coordinator (store y) db = false →
      coordinator_step y (set_cproc y n (Some (db, CReturning)))
  | c_no_runtime y n db :
      cprocs y !! n = Some (db, CTop) →
      coordinator_step y (set_cproc (set_store y (clear_database_workers (store y) db)) n (Some (db, CReturning)))
  | c_reconcile y n db rs ok st' :
      cprocs y !! n = Some (db, CTop) → catalog_ok rs →
      reconcile_registrations (store y) db rs = Some (ok, st') →
      coordinator_step y (set_cproc (set_store y st') n (Some (db, if ok then CServing else CReturning)))
  | c_launch_worker y n db now now' scan key st' :
      cprocs y !! n = Some (db, CServing) →
      register_ready_worker (store y) db now now' scan true = Some (Some (WRegistered key), st') →
      coordinator_step y (spawn (set_cproc (set_wproc (set_store y st') (spawned y) (Some (key, WLaunched)))
                       n (Some (db, CWaiting key (spawned y)))))
  | c_launch_failed y n db now now' scan key st' :
      cprocs y !! n = Some (db, CServing) →
      register_ready_worker (store y) db now now' scan false = Some (Some (WFailed key), st') →
      coordinator_step y (set_store y st')
  | c_worker_started y n db key m :
      cprocs y !! n = Some (db, CWaiting key m) → is_Some (wprocs y !! m) →
      coordinator_step y (set_cproc y n (Some (db, CServing)))
  | c_worker_start_failed y n db key m now :
      cprocs y !! n = Some (db, CWaiting key m) → wprocs y !! m = None →
      coordinator_step y (set_cproc (set_store y (worker_registration_failed (store y) key now)) n (Some (db, CServing)))
  | c_wait_latch y n db :
      cprocs y !! n = Some (db, CServing) →
      coordinator_step y (set_cproc y n (Some (db, CTop)))
  | c_nothing_due y n db now :
      cprocs y !! n = Some (db, CServing) →
      next_database_worker_start_delay (store y) db now = None →
      coordinator_step y (set_cproc y n (Some (db, CReturning)))
  | c_coordinator_exit y n db phase code :
      cprocs y !! n = Some (db, phase) → code ≠ 0 ∨ phase = CReturning →
      coordinator_step y (set_cproc (set_store y (snd (coordinator_exit (store y) db code))) n None)
  | c_coordinator_never_ran y n db :
      cprocs y !! n = Some (db, CLaunched) →
      coordinator_step y (set_cproc y n None).

(** [Worker::run], [run_worker_entrypoint] and the exit callback. *)
Inductive worker_step : system → system → Prop :=
  | w_begin_worker y n key pid now ok st' :
      wprocs y !! n = Some (key, WLaunched) → 0 < pid →
      begin_worker (store y) key pid now = (ok, st') →
      worker_step y (set_wproc (set_store y st') n (Some (key, WStarted ok)))
  | w_registration_missing y n key :
      wprocs y !! n = Some (key, WStarted true) →
      worker_step y (set_store y (worker_registration_missing (store y) key))
  | w_complete_worker y n key schedule now :
      wprocs y !! n = Some (key, WStarted true) →
      worker_step y (set_store y (snd (complete_worker (store y) key schedule now)))
  | w_worker_stopped y n key phase policy now code reconcile st' :
      wprocs y !! n = Some (key, phase) → phase ≠ WExiting →
      worker_stopped (store y) key policy now code = (reconcile, st') →
      worker_step y (set_wproc (set_store y st') n (if reconcile then Some (key, WExiting) else None))
  | w_worker_exit_request y n key :
      wprocs y !! n = Some (key, WExiting) →
      worker_step y (set_wproc (set_store y (snd (request_database_reconcile (store y) (fst key)))) n None)
  | w_worker_never_ran y n key :
      wprocs y !! n = Some (key, WLaunched) →
      worker_step y (set_wproc y n None).

Inductive step : system → system → Prop :=
  | step_client y op :
      step y (set_store y (client_apply (store y) op))
  | step_supervisor y y' : supervisor_step y y' → step y y'
  | step_coordinator y y' : coordinator_step y y' → step y y'
  | step_worker y y' : worker_step y y' → step y y'
  (** Crash of a backend: the postmaster ends every process and reinitialises
      shared memory. *)
  | step_reinitialize y :
      step y (mkSystem store_init ∅ ∅ None (spawned y)).

Definition reachable (y : system) : Prop := rtc step initial_system y.

(** ** What the slots say about the processes *)

Definition occupying (phase : wphase) : bool := match phase with WExiting => false | _ => true end.

(** The slot a process that has not finished occupies. *)
Definition occupied (phase : wphase) (s : Slot.t) : Prop :=
  match phase with
  | WLaunched | WStarted false => Slot.process_state s = Starting
  | WStarted true => 0 < Slot.pid s
  | WExiting => True
  end.

(** A worker that is registered, has no process and is to be started. *)
Definition wants_start (s : Slot.t) : bool :=
  bool_decide (Slot.registration_state s = Registered) && negb (Slot.has_active_process s)
  && Slot.needs_restart s.

(** A coordinator that will serve a waiting worker before it returns: the gate of a
    stopped worker is opened only by a reconciliation, which the coordinator must
    still have ahead of it. *)
Definition will_serve (gated : bool) (phase : cphase) : bool :=
  match phase with
  | CReturning => false
  | CLaunched | CTop => true
  | CServing | CWaiting _ _ => negb gated
  end.

(** The request for the worker of database [db] is held somewhere. *)
Definition serviced (y : system) (db : Z) (gated : bool) : Prop :=
  ∃ c, coordinators (store y) !! db = Some c
    ∧ (Coord.needs_restart c = true
       ∨ (Coord.stop_requested c = false
          ∧ ∃ n phase, cprocs y !! n = Some (db, phase) ∧ will_serve gated phase = true)
       ∨ (∃ n w, wprocs y !! n = Some ((db, w), WExiting))
       ∨ (is_active (Coord.process_state c) = true ∧ ∀ n phase, cprocs y !! n ≠ Some (db, phase))).

(** The invariant, one database at a time. *)
Record db_inv (y : system) (db : Z) : Prop := {
  i_slot : ∀ w s, workers (store y) !! (db, w) = Some s → slot_wf s ∧ Slot.key s = (db, w);
  i_coord : ∀ c, coordinators (store y) !! db = Some c →
    Coord.database_oid c = db ∧ db ≠ INVALID_OID ∧ Coord.process_state c ≠ NotStarted;
  i_wproc : ∀ n w phase, wprocs y !! n = Some ((db, w), phase) → occupying phase = true →
    ∃ s, workers (store y) !! (db, w) = Some s ∧ occupied phase s;
  i_wuniq : ∀ n n' w phase phase',
    wprocs y !! n = Some ((db, w), phase) → occupying phase = true →
    wprocs y !! n' = Some ((db, w), phase') → occupying phase' = true → n = n';
  i_cproc : ∀ n phase, cprocs y !! n = Some (db, phase) →
    ∃ c, coordinators (store y) !! db = Some c ∧ is_active (Coord.process_state c) = true
      ∧ (phase = CLaunched → Coord.stop_requested c = false → Coord.process_state c = Starting);
  i_cuniq : ∀ n n' phase phase',
    cprocs y !! n = Some (db, phase) → cprocs y !! n' = Some (db, phase') → n = n';
  i_wait : ∀ n k m, cprocs y !! n = Some (db, CWaiting k m) →
    fst k = db
    ∧ (∀ m' phase, wprocs y !! m' = Some (k, phase) → occupying phase = true → m' = m)
    ∧ ∀ s, workers (store y) !! k = Some s → Slot.registration_state s = Registered →
        Slot.stop_requested s = true →
        ∃ c, coordinators (store y) !! db = Some c ∧ Coord.needs_restart c = true;
  i_reg : ∀ w s, workers (store y) !! (db, w) = Some s → Slot.registration_state s = Registered →
    is_Some (coordinators (store y) !! db);
  i_stop : ∀ c w s, coordinators (store y) !! db = Some c → Coord.stop_requested c = true →
    workers (store y) !! (db, w) = Some s → Slot.registration_state s = Registered →
    Coord.needs_restart c = true;
  i_supervisor : ∀ n n' phase, supervisor_wait y = Some (db, n) → cprocs y !! n' = Some (db, phase) → n' = n;
  i_serviced : ∀ w s, workers (store y) !! (db, w) = Some s → wants_start s = true →
    serviced y db (Slot.stop_requested s);
}.

(** Nothing that concerns [db] changed, but that the supervisor may have ended a wait. *)
Record frame (db : Z) (y y' : system) : Prop := {
  f_worker : ∀ w, workers (store y') !! (db, w) = workers (store y) !! (db, w);
  f_coord : coordinators (store y') !! db = coordinators (store y) !! db;
  f_wproc : ∀ n w phase, wprocs y' !! n = Some ((db, w), phase) ↔ wprocs y !! n = Some ((db, w), phase);
  f_cproc : ∀ n phase, cprocs y' !! n = Some (db, phase) ↔ cprocs y !! n = Some (db, phase);
  f_wait : ∀ n, supervisor_wait y' = Some (db, n) → supervisor_wait y = Some (db, n);
}.

Lemma db_inv_frame db y y' : frame db y y' → db_inv y db → db_inv y' db.
Proof.
  intros [Fw Fc Fp Fq Fs] [I1 I2 I3 I4 I5 I6 I7 I8 I9 I10 I11]. constructor.
  - intros w s. rewrite Fw. apply I1.
  - rewrite Fc. apply I2.
  - intros n w phase. rewrite Fp, Fw. apply I3.
  - intros n n' w phase phase'. rewrite !Fp. apply I4.
  - intros n phase. rewrite Fq, Fc. apply I5.
  - intros n n' phase phase'. rewrite !Fq. apply I6.
  - intros n [db' w] m. rewrite Fq, Fc. intros H. destruct (I7 _ _ _ H) as (Hk & Hm & Hs).
    cbn in Hk. subst db'. split_and!; [done| |].
    + intros m' phase. rewrite Fp. apply Hm.
    + intros s. rewrite Fw. apply Hs.
  - intros w s. rewrite Fw, Fc. apply I8.
  - intros c w s. rewrite Fw, Fc. apply I9.
  - intros n n' phase H. rewrite Fq. eauto.
  - intros w s. rewrite Fw. intros H1 H2. destruct (I11 _ _ H1 H2) as (c & Hc & Hcov).
    exists c. rewrite Fc. split; [done|]. setoid_rewrite Fp. setoid_rewrite Fq. done.
Qed.

(** ** Slot operations as seen by the processes *)

(** A change of a slot that neither frees it nor breaks its invariant. *)
Record slot_keeps (s s' : Slot.t) : Prop := {
  k_wf : slot_wf s → slot_wf s';
  k_key : Slot.key s' = Slot.key s;
  k_starting : Slot.process_state s = Starting → Slot.process_state s' = Starting;
  k_pid : 0 < Slot.pid s → 0 < Slot.pid s';
}.

Lemma slot_keeps_occupied s s' phase : slot_keeps s s' → occupied phase s → occupied phase s'.
Proof. intros [_ _ K1 K2]. destruct phase as [|[]|]; cbn; auto. Qed.

Lemma slot_keeps_refl s : slot_keeps s s.
Proof. constructor; auto. Qed.

Lemma request_wakeup_keeps s :
  slot_keeps s (Slot.request_wakeup s)
  ∧ Slot.registration_state (Slot.request_wakeup s) = Slot.registration_state s.
Proof.
  split; [constructor|].
  - intros. by apply (slot_apply_wf s OpWakeup).
  - unfold Slot.request_wakeup. cbv zeta. by case_match.
  - unfold Slot.request_wakeup. cbv zeta. by case_match.
  - unfold Slot.request_wakeup. cbv zeta. by case_match.
  - unfold Slot.request_wakeup. cbv zeta. by case_match.
Qed.

Lemma prepare_stop_keeps s :
  slot_keeps s (snd (Slot.prepare_transactional_stop s))
  ∧ Slot.registration_state (snd (Slot.prepare_transactional_stop s)) = Slot.registration_state s.
Proof.
  split; [constructor|].
  - intros. by apply (slot_apply_wf s OpTransactionalStop).
  - unfold Slot.prepare_transactional_stop, Slot.request_stop. cbv zeta. repeat case_match; done.
  - unfold Slot.prepare_transactional_stop, Slot.request_stop. cbv zeta. intros H.
    case_match; [done|]. cbn. by rewrite H.
  - unfold Slot.prepare_transactional_stop, Slot.request_stop. cbv zeta. repeat case_match; done.
  - unfold Slot.prepare_transactional_stop, Slot.request_stop. cbv zeta. repeat case_match; done.
Qed.

Lemma mark_removing_keeps s :
  slot_keeps s (Slot.mark_removing s) ∧ Slot.registration_state (Slot.mark_removing s) = Removing.
Proof.
  split; [constructor|].
  - intros. by apply (slot_apply_wf s OpRemove).
  - unfold Slot.mark_removing, Slot.request_stop. cbv zeta. by case_match.
  - unfold Slot.mark_removing, Slot.request_stop. cbv zeta. cbn. intros H. by rewrite H.
  - unfold Slot.mark_removing, Slot.request_stop. cbv zeta. by case_match.
  - unfold Slot.mark_removing, Slot.request_stop. cbv zeta. by case_match.
Qed.

(** A change of a coordinator slot that leaves its process its place. *)
Record coord_keeps (c c' : Coord.t) : Prop := {
  ck_active : is_active (Coord.process_state c) = true → is_active (Coord.process_state c') = true;
  ck_gate : Coord.stop_requested c' = false →
    Coord.stop_requested c = false ∧ Coord.process_state c' = Coord.process_state c;
  ck_started : Coord.process_state c ≠ NotStarted → Coord.process_state c' ≠ NotStarted;
}.

Lemma request_restart_keeps c : coord_keeps c (Coord.request_restart c).
Proof. by constructor. Qed.

Lemma request_stop_keeps c : coord_keeps c (Coord.request_stop c).
Proof. constructor; [|done|]; destruct c as [? ? ? []]; done. Qed.

Lemma request_handoff_keeps c : coord_keeps c (Coord.request_handoff c).
Proof. constructor; [|done|]; destruct c as [? ? ? []]; done. Qed.

(** ** Steps that start no process *)

(** A slot after a step: the old one with its process, or a new one. *)
Definition slot_after (key : WorkerKey) (old : option Slot.t) (s' : Slot.t) : Prop :=
  match old with
  | Some s => slot_keeps s s'
  | None => slot_wf s' ∧ Slot.key s' = key
  end.

(** The slots of [db] keep their processes, and no process of [db] is added. *)
Record keeps (db : Z) (y y' : system) : Prop := {
  e_slot : ∀ w s', workers (store y') !! (db, w) = Some s' →
    slot_after (db, w) (workers (store y) !! (db, w)) s';
  e_live : ∀ w s, workers (store y) !! (db, w) = Some s → Slot.has_active_process s = true →
    is_Some (workers (store y') !! (db, w));
  e_coord : ∀ c', coordinators (store y') !! db = Some c' →
    Coord.database_oid c' = db ∧ db ≠ INVALID_OID ∧ Coord.process_state c' ≠ NotStarted;
  e_active : ∀ n phase c, cprocs y' !! n = Some (db, phase) → coordinators (store y) !! db = Some c →
    ∃ c', coordinators (store y') !! db = Some c'
      ∧ (is_active (Coord.process_state c) = true → is_active (Coord.process_state c') = true)
      ∧ (phase = CLaunched → coord_keeps c c');
  e_wproc : ∀ n w phase, wprocs y' !! n = Some ((db, w), phase) → occupying phase = true →
    wprocs y !! n = Some ((db, w), phase);
  e_cproc : ∀ n phase', cprocs y' !! n = Some (db, phase') →
    ∃ phase, cprocs y !! n = Some (db, phase)
      ∧ (phase' = CLaunched → phase = CLaunched)
      ∧ (∀ k m, phase' = CWaiting k m → phase = CWaiting k m);
  e_wait : ∀ n, supervisor_wait y' = Some (db, n) → supervisor_wait y = Some (db, n);
}.

Lemma occupied_active s phase :
  occupying phase = true → occupied phase s → Slot.has_active_process s = true.
Proof. intros Hp Ho. apply has_active_true. destruct phase as [|[]|]; cbn in *; auto; done. Qed.

(** The part of the invariant that [keeps] alone gives; what the slots request is
    left to each step. *)
Lemma db_inv_keeps db y y' :
  db_inv y db → keeps db y y' →
  (∀ n w m s, cprocs y' !! n = Some (db, CWaiting (db, w) m) → workers (store y') !! (db, w) = Some s →
     Slot.registration_state s = Registered → Slot.stop_requested s = true →
     ∃ c, coordinators (store y') !! db = Some c ∧ Coord.needs_restart c = true) →
  (∀ w s, workers (store y') !! (db, w) = Some s → Slot.registration_state s = Registered →
     is_Some (coordinators (store y') !! db)) →
  (∀ c w s, coordinators (store y') !! db = Some c → Coord.stop_requested c = true →
     workers (store y') !! (db, w) = Some s → Slot.registration_state s = Registered →
     Coord.needs_restart c = true) →
  (∀ w s, workers (store y') !! (db, w) = Some s → wants_start s = true →
     serviced y' db (Slot.stop_requested s)) →
  db_inv y' db.
Proof.
  intros I [E1 E2 E3 E4 E5 E6 E7] H7 H8 H9 H11. constructor; try done.
  - intros w s' Hs'. pose proof (E1 _ _ Hs') as K.
    destruct (workers (store y) !! (db, w)) as [s|] eqn:Hs; [|exact K]. cbn in K.
    destruct (i_slot _ _ I _ _ Hs) as [Hwf Hkey].
    split; [by apply (k_wf _ _ K) | by rewrite (k_key _ _ K)].
  - intros n w phase Hn Ho. pose proof (E5 _ _ _ Hn Ho) as Hn0.
    destruct (i_wproc _ _ I _ _ _ Hn0 Ho) as (s & Hs & Hocc).
    destruct (E2 w s Hs) as [s' Hs']; [by eapply occupied_active|].
    pose proof (E1 _ _ Hs') as K. rewrite Hs in K.
    exists s'. split; [done|]. by eapply slot_keeps_occupied.
  - intros n n' w phase phase' Hn Ho Hn' Ho'. eapply (i_wuniq _ _ I); eauto.
  - intros n phase' Hn. destruct (E6 _ _ Hn) as (phase & Hn0 & HL & _).
    destruct (i_cproc _ _ I _ _ Hn0) as (c & Hc & Hact & Hst).
    destruct (E4 _ _ _ Hn Hc) as (c' & Hc' & Ha & K).
    exists c'. split_and!; [done | auto|].
    intros Hph Hstop. destruct (ck_gate _ _ (K Hph) Hstop) as [Hstop0 ->]. auto.
  - intros n n' phase phase' Hn Hn'. destruct (E6 _ _ Hn) as (p & Hp & _), (E6 _ _ Hn') as (p' & Hp' & _).
    by eapply (i_cuniq _ _ I).
  - intros n [db' w] m Hn. destruct (E6 _ _ Hn) as (phase & Hn0 & _ & HW).
    rewrite (HW _ _ eq_refl) in Hn0. destruct (i_wait _ _ I _ _ _ Hn0) as (Hk & Hm & _).
    cbn in Hk. subst db'. split_and!; [done| |].
    + intros m' phase' Hm' Ho. by eapply Hm, Ho; eauto.
    + intros s. by apply (H7 n w m).
  - intros n n' phase Hn Hn'. destruct (E6 _ _ Hn') as (p & Hp & _). by eapply (i_supervisor _ _ I); eauto.
Qed.

(** A step that leaves a request with the coordinator of [db], if it has one. *)
Lemma db_inv_requested db y y' :
  db_inv y db → keeps db y y' →
  (∀ w s', workers (store y') !! (db, w) = Some s' → Slot.registration_state s' = Registered →
     ∃ s, workers (store y) !! (db, w) = Some s ∧ Slot.registration_state s = Registered) →
  (∀ c, coordinators (store y) !! db = Some c →
     ∃ c', coordinators (store y') !! db = Some c' ∧ Coord.needs_restart c' = true) →
  db_inv y' db.
Proof.
  intros I K Hreg Hreq.
  assert (Hc : ∀ w s', workers (store y') !! (db, w) = Some s' → Slot.registration_state s' = Registered →
     ∃ c', coordinators (store y') !! db = Some c' ∧ Coord.needs_restart c' = true).
  { intros w s' Hs' Hr. destruct (Hreg _ _ Hs' Hr) as (s & Hs & Hr0).
    destruct (i_reg _ _ I w s Hs Hr0) as [c Hc]. by eapply Hreq. }
  apply (db_inv_keeps db y y' I K).
  - intros n w m s _ Hs Hr _. by eapply Hc.
  - intros w s Hs Hr. destruct (Hc w s Hs Hr) as (c & Hc' & _). eauto.
  - intros c w s Hcc _ Hs Hr. destruct (Hc w s Hs Hr) as (c' & Hc' & Hn). by simplify_eq.
  - intros w s Hs Hwant. unfold wants_start in Hwant. apply andb_true_iff in Hwant as [[Hr _]%andb_true_iff _].
    apply bool_decide_eq_true in Hr. destruct (Hc w s Hs Hr) as (c & Hc' & Hn). exists c. auto.
Qed.

(** A step after which no worker of [db] is registered. *)
Lemma db_inv_cleared db y y' :
  db_inv y db → keeps db y y' →
  (∀ w s, workers (store y') !! (db, w) = Some s → Slot.registration_state s ≠ Registered) →
  db_inv y' db.
Proof.
  intros I K Hreg. apply (db_inv_keeps db y y' I K).
  - intros n w m s _ Hs Hr. by destruct (Hreg w s Hs).
  - intros w s Hs Hr. by destruct (Hreg w s Hs).
  - intros c w s _ _ Hs Hr. by destruct (Hreg w s Hs).
  - intros w s Hs Hwant. unfold wants_start in Hwant. apply andb_true_iff in Hwant as [[Hr _]%andb_true_iff _].
    apply bool_decide_eq_true in Hr. by destruct (Hreg w s Hs).
Qed.

(** ** Client steps *)

(** A change of a coordinator slot that leaves it with a request. *)
Definition coord_requests (c c' : Coord.t) : Prop :=
  coord_keeps c c' ∧ Coord.needs_restart c' = true ∧ Coord.database_oid c' = Coord.database_oid c.

Lemma request_restart_requests c : coord_requests c (Coord.request_restart c).
Proof. split_and!; [apply request_restart_keeps | done..]. Qed.

Lemma request_handoff_requests c : coord_requests c (Coord.request_handoff c).
Proof. split_and!; [apply request_handoff_keeps | done..]. Qed.

(** A change of a worker slot that leaves its process and its registration. *)
Definition slot_same (s s' : Slot.t) : Prop :=
  slot_keeps s s' ∧ Slot.registration_state s' = Slot.registration_state s.

Lemma slot_same_refl s : slot_same s s.
Proof. split; [apply slot_keeps_refl | done]. Qed.

#[export] Hint Resolve slot_keeps_refl slot_same_refl request_restart_requests request_handoff_requests : lago.

Lemma db_inv_map db y st' (f : WorkerKey → Slot.t → Slot.t) (g : Coord.t → Coord.t) :
  db_inv y db →
  (∀ w, workers st' !! (db, w) = f (db, w) <$> workers (store y) !! (db, w)) →
  (∀ k s, slot_same s (f k s)) →
  coordinators st' !! db = g <$> coordinators (store y) !! db →
  (∀ c, coord_requests c (g c)) →
  db_inv (set_store y st') db.
Proof.
  intros I Hw Hf Hc Hg. apply (db_inv_requested db y); [done|constructor|..]; cbn [store set_store wprocs cprocs supervisor_wait].
  - intros w s'. rewrite Hw. destruct (workers (store y) !! (db, w)) as [s|]; [|done].
    cbn. intros [= <-]. apply Hf.
  - intros w s Hs _. rewrite Hw, Hs. by eexists.
  - intros c'. rewrite Hc. destruct (coordinators (store y) !! db) as [c|] eqn:E; [|done].
    cbn. intros [= <-]. destruct (i_coord _ _ I _ E) as (? & ? & ?), (Hg c) as (K & _ & ->).
    split_and!; [done|done|by apply (ck_started _ _ K)].
  - intros n phase c _ E. rewrite Hc, E. cbn. destruct (Hg c) as [K _]. eexists. split; [done|].
    split; [apply (ck_active _ _ K) | done].
  - done.
  - eauto.
  - done.
  - intros w s'. rewrite Hw. destruct (workers (store y) !! (db, w)) as [s|]; [|done].
    cbn. intros [= <-] Hr. exists s. by rewrite (proj2 (Hf _ _)) in Hr.
  - intros c E. rewrite Hc, E. cbn. eexists. split; [done|]. apply Hg.
Qed.

Lemma frame_store db y st' :
  (∀ w, workers st' !! (db, w) = workers (store y) !! (db, w)) →
  coordinators st' !! db = coordinators (store y) !! db → frame db y (set_store y st').
Proof. by constructor. Qed.

Lemma request_coordination_workers st db : workers (snd (request_coordination_locked st db)) = workers st.
Proof. unfold request_coordination_locked. repeat case_match; done. Qed.

Lemma request_coordination_same st db :
  db ≠ INVALID_OID →
  coordinators (snd (request_coordination_locked st db)) !! db
  = Coord.request_restart <$> coordinators st !! db.
Proof.
  intros Hdb. unfold request_coordination_locked. destruct (Z.eqb_spec db INVALID_OID); [done|].
  destruct (coordinators st !! db) eqn:E; cbn; [|by rewrite E].
  case_match; cbn; by rewrite lookup_insert_eq.
Qed.

Lemma request_coordination_other st db db' :
  db' ≠ db → coordinators (snd (request_coordination_locked st db)) !! db' = coordinators st !! db'.
Proof.
  intros Hdb. unfold request_coordination_locked. case_match; [done|].
  destruct (coordinators st !! db) eqn:E; cbn; [|done].
  case_match; cbn; by rewrite lookup_insert_ne by done.
Qed.

(** A change of workers followed by a coordination request for their database. *)
Lemma db_inv_coordination db db' y ws (f : WorkerKey → Slot.t → Slot.t) :
  db_inv y db →
  (∀ w, ws !! (db, w) = (if decide (db = db') then f (db, w) <$> workers (store y) !! (db, w)
                         else workers (store y) !! (db, w))) →
  (∀ k s, slot_same s (f k s)) →
  db_inv (set_store y (snd (request_coordination_locked (set_workers (store y) ws) db'))) db.
Proof.
  intros I Hw Hf. destruct (decide (db = db')) as [<-|Hne].
  - destruct (decide (db = INVALID_OID)) as [->|Hdb].
    + unfold request_coordination_locked. cbn.
      destruct (coordinators (store y) !! INVALID_OID) eqn:E.
      { by destruct (i_coord _ _ I _ E) as (_ & ? & _). }
      apply (db_inv_map _ _ _ f Coord.request_restart); [done|done|done|cbn; by rewrite E|].
      auto with lago.
    + apply (db_inv_map _ _ _ f Coord.request_restart); [done| |done| |apply request_restart_requests].
      * intros w. rewrite request_coordination_workers. apply Hw.
      * by rewrite request_coordination_same.
  - eapply db_inv_frame, I. apply frame_store.
    + intros w. rewrite request_coordination_workers. apply Hw.
    + by rewrite request_coordination_other.
Qed.

Lemma drop_coordinators_workers st db : workers (snd (drop_coordinators st db)) = workers st.
Proof. unfold drop_coordinators. by case_match. Qed.

Lemma drop_coordinators_same st db :
  coordinators (snd (drop_coordinators st db)) !! db = Coord.request_handoff <$> coordinators st !! db.
Proof.
  unfold drop_coordinators. destruct (coordinators st !! db) eqn:E; cbn; [|by rewrite E].
  by rewrite lookup_insert_eq.
Qed.

Lemma drop_coordinators_other st db db' :
  db' ≠ db → coordinators (snd (drop_coordinators st db)) !! db' = coordinators st !! db'.
Proof. intros H. unfold drop_coordinators. case_match; cbn; [|done]. by rewrite lookup_insert_ne. Qed.

Lemma slot_database y db w s :
  db_inv y db → workers (store y) !! (db, w) = Some s → Slot.database_oid s = db ∧ Slot.worker_id s = w.
Proof. intros I Hs. destruct (i_slot _ _ I _ _ Hs) as [_ [= <- <-]]. done. Qed.

(** [prepare_drop_database] and [prepare_drop_extension]. *)
Lemma db_inv_drop db db' y (sel : Slot.t → bool) :
  db_inv y db → (∀ s, sel s = true → Slot.database_oid s = db') →
  db_inv (set_store y (let st' := snd (drop_coordinators (store y) db') in
                       set_workers st' (stop_selected sel <$> workers st'))) db.
Proof.
  intros I Hsel. cbv zeta. destruct (decide (db = db')) as [<-|Hne].
  - apply (db_inv_map _ _ _ (λ _, stop_selected sel) Coord.request_handoff); [done|..].
    + intros w. cbn. by rewrite drop_coordinators_workers, lookup_fmap.
    + intros _ s. unfold stop_selected. case_match; [apply prepare_stop_keeps | auto with lago].
    + apply drop_coordinators_same.
    + auto with lago.
  - eapply db_inv_frame, I. apply frame_store.
    + intros w. cbn. rewrite drop_coordinators_workers, lookup_fmap.
      destruct (workers (store y) !! (db, w)) as [s|] eqn:E; [|done]. cbn. f_equal.
      unfold stop_selected. destruct (sel s) eqn:Hs; [|done].
      destruct (slot_database _ _ _ _ I E) as [Hdb _]. apply Hsel in Hs. congruence.
    + by rewrite <- (drop_coordinators_other (store y) db' db Hne).
Qed.

(** What [stop_worker_slot] does to each worker slot. *)
Definition stop_slot (key k : WorkerKey) (s : Slot.t) : Slot.t :=
  if decide (k = key) then snd (Slot.prepare_transactional_stop s) else s.

Lemma stop_slot_same key k s : slot_same s (stop_slot key k s).
Proof. unfold stop_slot. case_match; [apply prepare_stop_keeps | auto with lago]. Qed.

Lemma stop_worker_slot_coordinators st key :
  coordinators (snd (stop_worker_slot st key)) = coordinators st.
Proof. unfold stop_worker_slot. repeat case_match; done. Qed.

Lemma stop_worker_slot_workers st key k :
  workers (snd (stop_worker_slot st key)) !! k = stop_slot key k <$> workers st !! k.
Proof.
  unfold stop_worker_slot, stop_slot. destruct (decide (k = key)) as [->|Hne].
  - destruct (workers st !! key) as [s|] eqn:E; cbn; [|by rewrite E].
    destruct (Slot.prepare_transactional_stop s) as [[] s'] eqn:Ep; cbn; [by rewrite lookup_insert_eq|].
    rewrite E. unfold Slot.prepare_transactional_stop in Ep. by case_match; simplify_eq.
  - rewrite option_fmap_id. destruct (workers st !! key) as [s|]; [|done].
    destruct (Slot.prepare_transactional_stop s) as [[] s']; cbn; [by rewrite lookup_insert_ne | done].
Qed.

Lemma db_inv_stop_worker db db' w y :
  db_inv y db → db_inv (set_store y (snd (request_stop_worker (store y) db' w))) db.
Proof.
  intros I. pose proof (stop_worker_slot_coordinators (store y) (db', w)) as Hc.
  pose proof (stop_worker_slot_workers (store y) (db', w)) as Hw.
  unfold request_stop_worker. destruct (stop_worker_slot (store y) (db', w)) as [sent st]. cbn in Hc, Hw.
  assert (Hst : ∀ st1 : Store, workers st1 = workers st →
    coordinators st1 !! db = (if decide (db = db') then Coord.request_handoff <$> coordinators st !! db
                              else coordinators st !! db) → db_inv (set_store y st1) db).
  { intros st1 Hw1 Hc1. destruct (decide (db = db')) as [<-|Hne].
    - apply (db_inv_map _ _ _ (stop_slot (db, w)) Coord.request_handoff); [done| | | |].
      + intros w'. by rewrite Hw1.
      + apply stop_slot_same.
      + by rewrite Hc1, Hc.
      + auto with lago.
    - eapply db_inv_frame, I. apply frame_store; [|by rewrite Hc1, Hc].
      intros w'. rewrite Hw1, Hw. unfold stop_slot. case_decide; [congruence|]. by rewrite option_fmap_id. }
  destruct (coordinators st !! db') as [c|] eqn:E; cbn [snd];
    [destruct (Coord.proc_number _ =? INVALID_PROC_NUMBER)|]; apply Hst; cbn; try done.
  1-2: case_decide; subst; [by rewrite E, lookup_insert_eq | by rewrite lookup_insert_ne].
  case_decide; [by subst; rewrite E | done].
Qed.

Lemma client_inv y op db : db_inv y db → db_inv (set_store y (client_apply (store y) op)) db.
Proof.
  intros I. destruct op as [[db' w]|db'|db'| |db'|db' ext|db' w]; cbn [client_apply].
  - apply (db_inv_coordination _ _ _ _ (λ k s, if decide (k = (db', w)) then Slot.request_wakeup s else s)); [done|..].
    + intros w'. cbn [fst]. rewrite lookup_alter. repeat case_decide; simplify_eq; try done.
      by destruct (workers (store y) !! _).
    + intros k s. case_decide; [apply request_wakeup_keeps | auto with lago].
  - apply (db_inv_coordination _ _ _ _ (λ _ s, Slot.request_wakeup s)); [done| |intros; apply request_wakeup_keeps].
    intros w. rewrite lookup_fmap. destruct (workers (store y) !! (db, w)) as [s|] eqn:E; [|by case_decide].
    destruct (slot_database _ _ _ _ I E) as [Hdb _]. cbn. rewrite Hdb.
    case_decide as Hd; [subst; by rewrite Z.eqb_refl|]. by destruct (Z.eqb_spec db db').
  - pose proof (db_inv_coordination db db' y (workers (store y)) (λ _ s, s) I) as H. cbn in H.
    unfold request_database_reconcile. replace (store y) with (set_workers (store y) (workers (store y))) at 1
      by (by destruct (store y)).
    apply H; [|intros; apply slot_same_refl]. intros w. case_decide; [|done]. by destruct (workers (store y) !! _).
  - eapply db_inv_frame, I. by apply frame_store.
  - pose proof (db_inv_drop db db' y (λ s, Slot.database_oid s =? db') I ltac:(intros s; apply Z.eqb_eq)) as H.
    cbv zeta in H. unfold prepare_drop_database. by destruct (drop_coordinators (store y) db').
  - pose proof (db_inv_drop db db' y
      (λ s, (Slot.database_oid s =? db') && (Slot.extension_oid s =? ext)) I
      ltac:(intros s [Hs _]%andb_true_iff; by apply Z.eqb_eq)) as H.
    cbv zeta in H. unfold prepare_drop_extension. by destruct (drop_coordinators (store y) db').
  - by apply db_inv_stop_worker.
Qed.

(** ** Supervisor steps *)

Lemma reap_worker_gone gone s s' :
  gone s = true → reap_worker gone s = Some s' →
  Slot.has_active_process s = true ∧ s' = Slot.mark_removing s.
Proof. unfold reap_worker. intros ->. case_match; [|done]. intros [= <-]. done. Qed.

(** What reaping every worker of [db] leaves. *)
Lemma reaped_workers y db gone :
  db_inv y db → (∀ s, Slot.database_oid s = db → gone s = true) →
  (∀ w s', omap (reap_worker gone) (workers (store y)) !! (db, w) = Some s' →
     ∃ s, workers (store y) !! (db, w) = Some s ∧ slot_keeps s s' ∧ Slot.registration_state s' = Removing)
  ∧ (∀ w s, workers (store y) !! (db, w) = Some s → Slot.has_active_process s = true →
       is_Some (omap (reap_worker gone) (workers (store y)) !! (db, w))).
Proof.
  intros I Hg. split; intros w s.
  - rewrite lookup_omap. destruct (workers (store y) !! (db, w)) as [s0|] eqn:E; [|done]. cbn.
    destruct (slot_database _ _ _ _ I E) as [Hdb _]. intros H.
    apply reap_worker_gone in H as [_ ->]; [|auto]. exists s0. split; [done|]. apply mark_removing_keeps.
  - intros E Ha. rewrite lookup_omap, E. cbn. destruct (slot_database _ _ _ _ I E) as [Hdb _].
    unfold reap_worker. rewrite Hg, Ha by done. eauto.
Qed.

Lemma unreaped_workers y db gone w :
  db_inv y db → (∀ s, Slot.database_oid s = db → gone s = false) →
  omap (reap_worker gone) (workers (store y)) !! (db, w) = workers (store y) !! (db, w).
Proof.
  intros I Hg. rewrite lookup_omap. destruct (workers (store y) !! (db, w)) as [s|] eqn:E; [|done].
  cbn. destruct (slot_database _ _ _ _ I E) as [Hdb _]. unfold reap_worker. by rewrite Hg.
Qed.

Lemma remove_dropped_inv y live db :
  db_inv y db → db_inv (set_store y (remove_dropped_databases (store y) live)) db.
Proof.
  intros I. destruct (decide (db ∈ live)) as [Hin|Hout].
  - eapply db_inv_frame, I. apply frame_store; cbn.
    + intros w. apply unreaped_workers; [done|]. intros s ->. by rewrite bool_decide_eq_true_2.
    + rewrite lookup_omap. destruct (coordinators (store y) !! db) as [c|] eqn:E; [|done]. cbn.
      unfold reap_coordinator. destruct (i_coord _ _ I _ E) as [-> _]. by rewrite bool_decide_eq_true_2.
  - destruct (reaped_workers y db (λ s, negb (bool_decide (Slot.database_oid s ∈ live)))) as [H1 H2]; [done| |].
    { intros s ->. by rewrite bool_decide_eq_false_2. }
    assert (Hr : ∀ c, Coord.database_oid c = db → reap_coordinator live c
      = if is_active (Coord.process_state c) then Some (Coord.request_stop c) else None).
    { intros c Hc. unfold reap_coordinator. by rewrite Hc, bool_decide_eq_false_2. }
    apply (db_inv_cleared db y); [done|constructor|]; cbn [store set_store wprocs cprocs supervisor_wait
      workers coordinators remove_dropped_databases]; try done.
    + intros w s' Hs'. by destruct (H1 _ _ Hs') as (s & -> & ? & _).
    + intros c'. rewrite lookup_omap. destruct (coordinators (store y) !! db) as [c|] eqn:E; [|done]. cbn.
      destruct (i_coord _ _ I _ E) as (Hdb & ? & Hs). rewrite Hr by done. case_match; [|done].
      intros [= <-]. split_and!; [done|done|by apply (ck_started _ _ (request_stop_keeps c))].
    + intros n phase c Hn E. rewrite lookup_omap, E. cbn. destruct (i_coord _ _ I _ E) as [Hdb _].
      destruct (i_cproc _ _ I _ _ Hn) as (c0 & E0 & Hact & _). rewrite E in E0. injection E0 as <-.
      rewrite Hr, Hact by done. eexists. split; [done|].
      split; [intros _; by apply (ck_active _ _ (request_stop_keeps c)) | intros _; apply request_stop_keeps].
    + eauto.
    + intros w s' Hs'. destruct (H1 _ _ Hs') as (s & ? & ? & ->). done.
Qed.

Lemma register_coordinator_launches st db registered r st' :
  register_coordinator st db registered = (r, st') → r = CRegistered ∨ r = CFailed →
  let slot := Coord.request_restart (default (Coord.new db) (coordinators st !! db)) in
  (∀ c, coordinators st !! db = Some c → is_active (Coord.process_state c) = false)
  ∧ st' = set_coordinators st (<[db := if registered then Coord.reserve slot else slot]> (coordinators st)).
Proof.
  unfold register_coordinator. intros H Hr. cbv zeta.
  destruct (coordinators st !! db) as [c|] eqn:E.
  - destruct (is_active (Coord.process_state c)) eqn:Ha; [by simplify_eq; destruct Hr|].
    destruct (negb (Coord.needs_restart c)); [by simplify_eq; destruct Hr|].
    split; [by intros c0 [= <-]|]. by destruct registered; simplify_eq.
  - split; [done|]. by destruct registered; simplify_eq.
Qed.

(** No coordinator process of a database whose slot is inactive. *)
Lemma no_coordinator y db :
  db_inv y db → (∀ c, coordinators (store y) !! db = Some c → is_active (Coord.process_state c) = false) →
  ∀ n phase, cprocs y !! n ≠ Some (db, phase).
Proof.
  intros I H n phase Hn. destruct (i_cproc _ _ I _ _ Hn) as (c & Hc & Ha & _).
  by rewrite (H c Hc) in Ha.
Qed.

Lemma register_coordinator_inv y db st' db' :
  db_inv y db' → db ≠ INVALID_OID →
  register_coordinator (store y) db true = (CRegistered, st') → supervisor_wait y = None →
  cprocs y !! spawned y = None →
  db_inv (spawn (set_wait (set_cproc (set_store y st') (spawned y) (Some (db, CLaunched)))
                   (Some (db, spawned y)))) db'.
Proof.
  intros I Hdb Hreg Hwait Hfresh. apply register_coordinator_launches in Hreg as [Hina ->]; [|by left].
  set (y' := spawn _). destruct (decide (db' = db)) as [->|Hne]; cycle 1.
  { eapply db_inv_frame, I. constructor; cbn; try done.
    - by rewrite lookup_insert_ne.
    - intros n phase. rewrite lookup_partial_alter. case_decide; [subst|done].
      rewrite Hfresh. split; congruence.
    - congruence. }
  pose proof (no_coordinator y db I Hina) as Hno.
  assert (Hq : ∀ n phase, cprocs y' !! n = Some (db, phase) → n = spawned y ∧ phase = CLaunched).
  { intros n phase. cbn. rewrite lookup_partial_alter. case_decide; [by intros [= <-]|].
    intros Hn. by destruct (Hno n phase). }
  assert (Hc : coordinators (store y') !! db
    = Some (Coord.reserve (Coord.request_restart (default (Coord.new db) (coordinators (store y) !! db))))).
  { cbn. by rewrite lookup_insert_eq. }
  constructor.
  - apply I.
  - intros c. rewrite Hc. intros [= <-]. split; [|done]. cbn.
    destruct (coordinators (store y) !! db) eqn:E; cbn; [by apply (i_coord _ _ I) | done].
  - apply I.
  - apply I.
  - intros n phase Hn. rewrite Hc. by eexists.
  - intros n n' phase phase' [-> _]%Hq [-> _]%Hq. done.
  - intros n k m [_ Hm]%Hq. done.
  - intros w s _ _. rewrite Hc. by eexists.
  - intros c w s. rewrite Hc. by intros [= <-].
  - intros n n' phase. cbn. intros [= <-]. by intros [-> _]%Hq.
  - intros w s _ _. eexists. split; [exact Hc|]. right. left. split; [done|].
    exists (spawned y), CLaunched. split; [|done]. cbn. rewrite lookup_partial_alter. by case_decide.
Qed.

Lemma register_coordinator_failed_inv y db st' db' :
  db_inv y db' → db ≠ INVALID_OID →
  register_coordinator (store y) db false = (CFailed, st') → db_inv (set_store y st') db'.
Proof.
  intros I Hdb Hreg. apply register_coordinator_launches in Hreg as [Hina ->]; [|by right].
  destruct (decide (db' = db)) as [->|Hne]; cycle 1.
  { eapply db_inv_frame, I. apply frame_store; [done|]. cbn. by rewrite lookup_insert_ne. }
  pose proof (no_coordinator y db I Hina) as Hno.
  apply (db_inv_requested db y); [done|constructor|..];
    cbn [store set_store wprocs cprocs supervisor_wait workers coordinators set_coordinators]; try done.
  - intros w s Hs. rewrite Hs. cbn. auto with lago.
  - intros c. rewrite lookup_insert_eq. intros [= <-]. cbn.
    destruct (coordinators (store y) !! db) eqn:E; cbn; [by apply (i_coord _ _ I) | by split_and!].
  - intros n phase c Hn. by destruct (Hno n phase).
  - intros n phase Hn. by destruct (Hno n phase).
  - eauto.
  - intros c _. rewrite lookup_insert_eq. by eexists.
Qed.

Lemma coordinator_start_failed_inv y db n db' :
  db_inv y db' → supervisor_wait y = Some (db, n) → cprocs y !! n = None →
  db_inv (set_wait (set_store y (coordinator_registration_failed (store y) db)) None) db'.
Proof.
  intros I Hwait Hgone. destruct (decide (db' = db)) as [->|Hne]; cycle 1.
  { eapply db_inv_frame, I. constructor; cbn; try done. by rewrite lookup_alter_ne. }
  assert (Hno : ∀ n' phase, cprocs y !! n' ≠ Some (db, phase)).
  { intros n' phase Hn'. pose proof (i_supervisor _ _ I _ _ _ Hwait Hn') as ->. congruence. }
  destruct (coordinators (store y) !! db) as [c|] eqn:E; [destruct (is_active (Coord.process_state c)) eqn:Ha|].
  2-3: eapply db_inv_frame, I; constructor; cbn; try done; rewrite lookup_alter_eq, E; cbn; by rewrite ?Ha.
  assert (Hc : coordinators (coordinator_registration_failed (store y) db) !! db
    = Some (Coord.reset_after_registration_failure c)).
  { cbn. rewrite lookup_alter_eq, E. cbn. by rewrite Ha. }
  apply (db_inv_requested db y); [done|constructor|..];
    cbn [store set_store set_wait wprocs cprocs supervisor_wait]; try done.
  - intros w s Hs. cbn in Hs. rewrite Hs. cbn. auto with lago.
  - intros c'. rewrite Hc. intros [= <-]. destruct (i_coord _ _ I c E) as (? & ? & _). done.
  - intros n' phase c' Hn'. by destruct (Hno n' phase).
  - intros n' phase Hn'. by destruct (Hno n' phase).
  - eauto.
  - intros c' _. rewrite Hc. by eexists.
Qed.

(** ** Coordinator steps *)

Lemma frame_cproc db db' y n phase p :
  cprocs y !! n = Some (db, phase) → db' ≠ db → (∀ d ph, p = Some (d, ph) → d = db) →
  frame db' y (set_cproc y n p).
Proof.
  intros Hn Hne Hp. constructor; cbn; try done. intros m ph. rewrite lookup_partial_alter.
  case_decide; [subst|done]. split; [|congruence]. intros ->. by destruct (Hp _ _ eq_refl).
Qed.

Lemma frame_trans db y y' y'' : frame db y y' → frame db y' y'' → frame db y y''.
Proof.
  intros [A1 A2 A3 A4 A5] [B1 B2 B3 B4 B5]. constructor.
  - intros w. by rewrite B1.
  - by rewrite B2.
  - intros n w ph. by rewrite B3.
  - intros n ph. by rewrite B4.
  - eauto.
Qed.

(** The only coordinator process of [db], in its new phase. *)
Lemma cproc_phase y n db phase phase' m ph :
  db_inv y db → cprocs y !! n = Some (db, phase) →
  cprocs (set_cproc y n (Some (db, phase'))) !! m = Some (db, ph) ↔ m = n ∧ ph = phase'.
Proof.
  intros I Hn. cbn. rewrite lookup_partial_alter. case_decide as Hd.
  - subst. split; [by intros [= ->] | by intros [_ ->]].
  - split; [|by intros [-> _]]. intros Hm. by destruct Hd; eapply (i_cuniq _ _ I).
Qed.

(** A coordinator moves on to a phase that keeps its promises, with the store as it is. *)
Lemma db_inv_phase y n db phase phase' :
  db_inv y db → cprocs y !! n = Some (db, phase) →
  phase' = CTop ∨ phase' = CServing ∨ phase' = CReturning →
  (∀ c w s, coordinators (store y) !! db = Some c → Coord.stop_requested c = false →
     Coord.needs_restart c = false → workers (store y) !! (db, w) = Some s → wants_start s = true →
     will_serve (Slot.stop_requested s) phase = true → will_serve (Slot.stop_requested s) phase' = true) →
  db_inv (set_cproc y n (Some (db, phase'))) db.
Proof.
  intros I Hn Hph Hserve. set (y' := set_cproc y n (Some (db, phase'))).
  pose proof (λ m ph, cproc_phase y n db phase phase' m ph I Hn) as Hq.
  apply (db_inv_keeps db y y'); [done|constructor|..]; cbn [store y' set_cproc wprocs supervisor_wait]; try done.
  - intros w s Hs. rewrite Hs. cbn. auto with lago.
  - apply (i_coord _ _ I).
  - intros m ph c _ Hc. exists c. by split_and!; [| |constructor].
  - intros m ph [-> ->]%Hq. exists phase. by split_and!; [|destruct Hph as [E|[E|E]]; rewrite E..].
  - intros m w m' s [_ Eq]%Hq. by destruct Hph as [E|[E|E]]; rewrite E in Eq.
  - apply (i_reg _ _ I).
  - apply (i_stop _ _ I).
  - intros w s Hs Hwant. destruct (i_serviced _ _ I _ _ Hs Hwant) as (c & Hc & Hcov). exists c.
    split; [done|]. destruct (Coord.needs_restart c) eqn:Hnr; [by left|].
    destruct Hcov as [?|[(Hstop & m & ph & Hm & Hwill)|[Hx|[_ Hno]]]]; [done| |by right; right; left|].
    + pose proof (i_cuniq _ _ I _ _ _ _ Hm Hn) as ->. rewrite Hn in Hm. injection Hm as <-.
      right; left. split; [done|]. exists n, phase'. split; [by apply Hq|]. by eapply Hserve.
    + by destruct (Hno n phase).
Qed.

Lemma begin_coordinator_inv y n db pid proc ok st' db' :
  db_inv y db → db_inv y db' → cprocs y !! n = Some (db, CLaunched) →
  begin_coordinator (store y) db pid proc = (ok, st') →
  db_inv (set_cproc (set_store y st') n (Some (db, if ok then CTop else CReturning))) db'.
Proof.
  intros I I' Hn Hb. destruct (i_cproc _ _ I _ _ Hn) as (c & Hc & Hact & Hst).
  unfold begin_coordinator, with_mut in Hb. rewrite Hc in Hb.
  destruct (Coord.mark_running c pid proc) as [r c'] eqn:Hm. cbn in Hb. injection Hb as <- <-.
  destruct (decide (db' = db)) as [->|Hne]; cycle 1.
  { eapply db_inv_frame, I'. eapply frame_trans; [apply frame_store | by eapply frame_cproc; [..|intros ? ? [= <- <-] ] ].
    - done.
    - cbn. by rewrite lookup_insert_ne. }
  unfold Coord.mark_running in Hm. destruct (_ || _ || _) eqn:Hcond; injection Hm as <- <-.
  - replace (set_store y _) with y; cycle 1.
    { destruct y as [[] ? ? ? ?]. cbn in *. by rewrite insert_id. }
    apply (db_inv_phase y n db CLaunched); [done|done|auto|].
    intros c0 w s Hc0 Hs0 Hnr. rewrite Hc in Hc0. injection Hc0 as <-.
    rewrite Hst, Hs0, Hnr in Hcond by done. done.
  - apply orb_false_iff in Hcond as [[_ Hs0]%orb_false_iff Hnr].
    set (c' := Coord.mk _ _ _ _ _ _). set (y' := set_cproc _ _ _).
    assert (Hc' : coordinators (store y') !! db = Some c') by (cbn; by rewrite lookup_insert_eq).
    assert (Hq : ∀ m ph, cprocs y' !! m = Some (db, ph) ↔ m = n ∧ ph = CTop).
    { intros m ph. apply (cproc_phase y n db CLaunched CTop m ph I Hn). }
    apply (db_inv_keeps db y y'); [done|constructor|..]; try done.
    + intros w s Hs. cbn in Hs. rewrite Hs. cbn. auto with lago.
    + intros c0. rewrite Hc'. intros [= <-]. destruct (i_coord _ _ I c Hc) as (? & ? & _). done.
    + intros m ph c0 [_ ->]%Hq _. exists c'. by split_and!.
    + intros m ph [-> ->]%Hq. by eexists.
    + intros m w m' s [_ ?]%Hq. done.
    + intros c0 w s. rewrite Hc'. intros [= <-] Hs1. cbn in Hs1. congruence.
    + intros w s Hs Hwant. exists c'. split; [done|]. right; left. split; [done|].
      exists n, CTop. split; [by apply Hq | done].
Qed.

Lemma validate_coordinator_stopped y n db phase :
  db_inv y db → cprocs y !! n = Some (db, phase) → validate_coordinator (store y) db = false →
  ∃ c, coordinators (store y) !! db = Some c ∧ Coord.stop_requested c = true.
Proof.
  intros I Hn Hv. destruct (i_cproc _ _ I _ _ Hn) as (c & Hc & Ha & _). exists c. split; [done|].
  unfold validate_coordinator, Coord.has_reconciliation_authority in Hv. rewrite Hc, Ha in Hv.
  by destruct (Coord.stop_requested c).
Qed.

Lemma validate_fails_inv y n db phase db' :
  db_inv y db → db_inv y db' → cprocs y !! n = Some (db, phase) →
  validate_coordinator (store y) db = false → db_inv (set_cproc y n (Some (db, CReturning))) db'.
Proof.
  intros I I' Hn Hv. destruct (decide (db' = db)) as [->|Hne]; cycle 1.
  { eapply db_inv_frame, I'. by eapply frame_cproc; [..|intros ? ? [= <- <-] ]. }
  apply (db_inv_phase y n db phase); [done|done|auto|].
  destruct (validate_coordinator_stopped y n db phase I Hn Hv) as (c & Hc & Hstop).
  intros c0 w s Hc0 Hs0. congruence.
Qed.

Lemma slot_keeps_trans s1 s2 s3 : slot_keeps s1 s2 → slot_keeps s2 s3 → slot_keeps s1 s3.
Proof. intros [A1 A2 A3 A4] [B1 B2 B3 B4]. constructor; [auto|congruence|auto|auto]. Qed.

Lemma slot_after_trans k o s s' : slot_after k o s → slot_keeps s s' → slot_after k o s'.
Proof.
  destruct o; cbn; [apply slot_keeps_trans|]. intros [Hwf Hk] [K1 K2 _ _]. split; [auto|congruence].
Qed.

(** What a reconciliation leaves of a listed worker: registered, and its gate open
    unless a process still runs behind it. *)
Definition opened (s : Slot.t) : Prop :=
  Slot.registration_state s = Registered
  ∧ (Slot.has_active_process s = false → Slot.stop_requested s = false).

Lemma request_wakeup_fields s :
  Slot.process_state (Slot.request_wakeup s) = Slot.process_state s
  ∧ Slot.pid (Slot.request_wakeup s) = Slot.pid s
  ∧ Slot.stop_requested (Slot.request_wakeup s) = Slot.stop_requested s
  ∧ Slot.registration_state (Slot.request_wakeup s) = Slot.registration_state s.
Proof. unfold Slot.request_wakeup. cbv zeta. by case_match. Qed.

Lemma reconcile_present_opened s : opened (Slot.reconcile_present s).
Proof.
  unfold opened, Slot.reconcile_present. cbv zeta. set (s1 := Slot.with_registration s Registered).
  destruct (Slot.stop_requested s1) eqn:Hstop.
  - destruct (Slot.has_active_process s1) eqn:Ha; [by rewrite Ha|].
    set (s2 := Slot.with_flags s1 _ _ _). destruct (request_wakeup_fields s2) as (_ & _ & E & E').
    repeat case_match; cbn; rewrite ?E, ?E'; done.
  - destruct (request_wakeup_fields s1) as (_ & _ & E & E'). case_match; rewrite ?E, ?E'; done.
Qed.

Lemma reconcile_present_keeps s : slot_keeps s (Slot.reconcile_present s).
Proof.
  set (s1 := Slot.with_registration s Registered).
  assert (Hcases : Slot.reconcile_present s = s1 ∨ Slot.reconcile_present s = Slot.request_wakeup s1
    ∨ Slot.has_active_process s = false).
  { unfold Slot.reconcile_present. cbv zeta. fold s1.
    destruct (Slot.stop_requested s1); [|by destruct (Slot.wake_requested s1); auto].
    change (Slot.has_active_process s1) with (Slot.has_active_process s).
    destruct (Slot.has_active_process s); auto. }
  destruct (request_wakeup_fields s1) as (E1 & E2 & _).
  assert (Hoff : ∀ P : Prop, Slot.has_active_process s = false →
    Slot.process_state s = Starting ∨ 0 < Slot.pid s → P).
  { intros P Hoff Hon. apply has_active_true in Hon. congruence. }
  constructor.
  - intros Hwf. by apply (slot_apply_wf s OpReconcile).
  - unfold Slot.reconcile_present, Slot.request_wakeup. cbv zeta. repeat case_match; done.
  - intros Hst. destruct Hcases as [->|[->|Hf]]; [done|by rewrite E1|]. by apply (Hoff _ Hf); left.
  - intros Hp. destruct Hcases as [->|[->|Hf]]; [done|by rewrite E2|]. by apply (Hoff _ Hf); right.
Qed.

Lemma reconcile_one_spec db ws r ws' k :
  reconcile_one db ws r = Some ws' →
  if decide (k = (db, reg_worker_id r))
  then ∃ s', ws' !! k = Some s' ∧ opened s' ∧ slot_after k (ws !! k) s'
  else ws' !! k = ws !! k.
Proof.
  unfold reconcile_one. intros H. case_decide as Hk.
  - subst k. destruct (ws !! (db, reg_worker_id r)) as [s|] eqn:E.
    + injection H as <-. rewrite lookup_insert_eq. eexists. split_and!; [done|apply reconcile_present_opened|].
      apply reconcile_present_keeps.
    + apply bind_Some in H as (s & Hi & [= <-]). rewrite lookup_insert_eq. eexists. split; [done|].
      pose proof (initialize_wf _ _ _ _ Hi) as Hwf. destruct (request_wakeup_fields s) as (_ & _ & E3 & E4).
      destruct (proj1 (request_wakeup_keeps s)) as [K1 K2 _ _].
      unfold Slot.initialize_registration in Hi. case_match; [|done]. injection Hi as <-.
      split; [split; [by rewrite E4|by rewrite E3]|]. cbn. split; [auto|by rewrite K2].
  - destruct (ws !! (db, reg_worker_id r)) as [s|] eqn:E.
    + injection H as <-. by rewrite lookup_insert_ne.
    + apply bind_Some in H as (s & Hi & [= <-]). by rewrite lookup_insert_ne.
Qed.

Lemma reconcile_all_spec db rs ws ws' k :
  reconcile_all db ws rs = Some ws' →
  if decide (fst k = db ∧ snd k ∈ reg_worker_id <$> rs)
  then ∃ s', ws' !! k = Some s' ∧ opened s' ∧ slot_after k (ws !! k) s'
  else ws' !! k = ws !! k.
Proof.
  revert ws. induction rs as [|r rs IH]; intros ws; cbn [reconcile_all].
  { intros [= <-]. case_decide as H; [|done]. destruct H as [_ H]. by apply elem_of_nil in H. }
  intros (ws1 & H1 & H2)%bind_Some. pose proof (reconcile_one_spec _ _ _ _ k H1) as S1.
  specialize (IH ws1 H2). destruct (decide (k = (db, reg_worker_id r))) as [->|Hne].
  - destruct S1 as (s1 & E1 & O1 & A1). cbn [fst snd] in *. rewrite decide_True; [|cbn; set_solver].
    case_decide as Hin.
    + destruct IH as (s' & E' & O' & A'). rewrite E1 in A'. exists s'. split_and!; [done|done|].
      by eapply slot_after_trans.
    + exists s1. by rewrite IH.
  - rewrite <- S1. destruct (decide (fst k = db ∧ snd k ∈ reg_worker_id <$> rs)) as [[? ?]|Hout].
    + rewrite decide_True; [done|]. cbn. set_solver.
    + rewrite decide_False; [done|]. cbn. intros [Hd [Heq|Hin]%elem_of_cons].
      * destruct Hne. destruct k; cbn in *. by subst.
      * by destruct Hout.
Qed.

(** The workers of [db] after an authorised reconciliation. *)
Lemma reconciled_workers y db rs ws :
  db_inv y db → reconcile_all db (workers (store y)) rs = Some ws →
  let ws' := omap (reap_worker (unlisted db rs)) ws in
  (∀ w s', ws' !! (db, w) = Some s' →
     slot_after (db, w) (workers (store y) !! (db, w)) s'
     ∧ (Slot.registration_state s' = Registered → opened s'))
  ∧ (∀ w s, workers (store y) !! (db, w) = Some s → Slot.has_active_process s = true →
       is_Some (ws' !! (db, w)))
  ∧ (∀ db' w, db_inv y db' → db' ≠ db → ws' !! (db', w) = workers (store y) !! (db', w)).
Proof.
  intros I Hws. cbv zeta. pose proof (λ k, reconcile_all_spec db rs _ ws k Hws) as Hspec. split_and!.
  - intros w s'. rewrite lookup_omap. destruct (ws !! (db, w)) as [s|] eqn:E; [|done]. cbn.
    specialize (Hspec (db, w)). cbn [fst snd] in Hspec. unfold reap_worker. case_decide as Hin.
    + destruct Hspec as (s0 & E0 & O0 & A0). rewrite E in E0. injection E0 as <-.
      unfold unlisted. destruct (bool_decide (Slot.worker_id s ∈ _)) eqn:Hb.
      * rewrite andb_false_r. intros [= <-]. done.
      * apply bool_decide_eq_false in Hb. destruct Hb.
        replace (Slot.worker_id s) with w; [by destruct Hin|].
        destruct (workers (store y) !! (db, w)) as [s1|] eqn:E1; cbn in A0.
        -- destruct (i_slot _ _ I _ _ E1) as [_ Hk1]. rewrite <- (k_key _ _ A0) in Hk1. by injection Hk1.
        -- by destruct A0 as [_ [= _ ->]].
    + rewrite E in Hspec. destruct (slot_database y db w s I (eq_sym Hspec)) as [Hd Hw].
      unfold unlisted. rewrite Hd, Hw, Z.eqb_refl. rewrite bool_decide_eq_false_2 by tauto. cbn.
      rewrite <- Hspec. case_match; [|done]. intros [= <-].
      destruct (mark_removing_keeps s) as [K ->]. split; [exact K | done].
  - intros w s Hs Ha. rewrite lookup_omap. specialize (Hspec (db, w)). cbn [fst snd] in Hspec.
    unfold reap_worker. case_decide.
    + destruct Hspec as (s' & -> & _ & A). rewrite Hs in A. cbn in A |- *.
      assert (Ha' : Slot.has_active_process s' = true).
      { apply has_active_true in Ha. apply has_active_true. destruct Ha; [left|right]; by apply A. }
      rewrite Ha'. case_match; eauto.
    + rewrite Hspec, Hs. cbn. rewrite Ha. case_match; eauto.
  - intros db' w I' Hne. rewrite lookup_omap. specialize (Hspec (db', w)). rewrite decide_False in Hspec by (by intros [? _]).
    rewrite Hspec. destruct (workers (store y) !! (db', w)) as [s|] eqn:E; [|done]. cbn.
    destruct (slot_database _ _ _ _ I' E) as [Hd _]. unfold reap_worker, unlisted. rewrite Hd.
    by destruct (Z.eqb_spec db' db).
Qed.

Lemma reconcile_inv y n db rs ok st' db' :
  db_inv y db → db_inv y db' → cprocs y !! n = Some (db, CTop) →
  reconcile_registrations (store y) db rs = Some (ok, st') →
  db_inv (set_cproc (set_store y st') n (Some (db, if ok then CServing else CReturning))) db'.
Proof.
  intros I I' Hn Hrec. unfold reconcile_registrations in Hrec.
  destruct (validate_coordinator (store y) db) eqn:Hv; cbn in Hrec; cycle 1.
  { injection Hrec as <- <-. replace (set_store y (store y)) with y by (by destruct y).
    by eapply validate_fails_inv. }
  apply bind_Some in Hrec as (ws & Hws & [= <- <-]).
  destruct (reconciled_workers y db rs ws I Hws) as (H1 & H2 & H3). cbv zeta in H1, H2, H3.
  destruct (decide (db' = db)) as [->|Hne]; cycle 1.
  { eapply db_inv_frame, I'. eapply frame_trans; [apply frame_store | by eapply frame_cproc; [..|intros ? ? [= <- <-] ] ].
    - intros w. by apply H3.
    - done. }
  unfold validate_coordinator in Hv. destruct (coordinators (store y) !! db) as [c|] eqn:Hc; [|done].
  unfold Coord.has_reconciliation_authority in Hv. apply andb_true_iff in Hv as [_ Hstop%negb_true_iff].
  pose proof (λ m ph, cproc_phase y n db CTop CServing m ph I Hn) as Hq.
  set (y' := set_cproc _ _ _). assert (Hc' : coordinators (store y') !! db = Some c) by done.
  apply (db_inv_keeps db y y'); [done|constructor|..]; try done.
  - intros w s' Hs'. by apply H1.
  - rewrite Hc'. intros c' [= <-]. by apply (i_coord _ _ I).
  - intros m ph c0 _ Hc0. exists c0. by split_and!; [| |constructor].
  - intros m ph [-> ->]%Hq. by eexists.
  - intros m w m' s [_ ?]%Hq. done.
  - intros c' w s. rewrite Hc'. intros [= <-]. congruence.
  - intros w s Hs Hwant. unfold wants_start in Hwant.
    apply andb_true_iff in Hwant as [[Hr%bool_decide_eq_true Ha%negb_true_iff]%andb_true_iff _].
    destruct (H1 _ _ Hs) as [_ Ho]. destruct (Ho Hr) as [_ ->]; [|done].
    exists c. split; [done|]. right; left. split; [done|]. exists n, CServing. split; [by apply Hq | done].
Qed.

Lemma no_runtime_inv y n db db' :
  db_inv y db → db_inv y db' → cprocs y !! n = Some (db, CTop) →
  db_inv (set_cproc (set_store y (clear_database_workers (store y) db)) n (Some (db, CReturning))) db'.
Proof.
  intros I I' Hn. destruct (decide (db' = db)) as [->|Hne]; cycle 1.
  { eapply db_inv_frame, I'. eapply frame_trans; [apply frame_store | by eapply frame_cproc; [..|intros ? ? [= <- <-] ] ].
    - intros w. apply unreaped_workers; [done|]. intros s ->. by apply Z.eqb_neq.
    - done. }
  destruct (reaped_workers y db (λ s, Slot.database_oid s =? db)) as [H1 H2]; [done|by intros s ->; apply Z.eqb_refl|].
  pose proof (λ m ph, cproc_phase y n db CTop CReturning m ph I Hn) as Hq. set (y' := set_cproc _ _ _).
  apply (db_inv_cleared db y y'); [done|constructor|]; try done.
  - intros w s' Hs'. by destruct (H1 _ _ Hs') as (s & -> & ? & _).
  - apply (i_coord _ _ I).
  - intros m ph c0 _ Hc0. exists c0. by split_and!; [| |constructor].
  - intros m ph [-> ->]%Hq. by eexists.
  - intros w s' Hs'. destruct (H1 _ _ Hs') as (s & ? & ? & ->). done.
Qed.

(** ** Steps on one worker slot *)

(** [y'] differs from [y], as far as [db] goes, in the slot and the processes of
    worker [w], and gives up no exit that is still to be announced. *)
Record one_worker (db w : Z) (y y' : system) : Prop := {
  o_coord : coordinators (store y') !! db = coordinators (store y) !! db;
  o_cprocs : cprocs y' = cprocs y;
  o_wait : supervisor_wait y' = supervisor_wait y;
  o_workers : ∀ w', w' ≠ w → workers (store y') !! (db, w') = workers (store y) !! (db, w');
  o_wprocs : ∀ m w' phase, w' ≠ w →
    wprocs y' !! m = Some ((db, w'), phase) ↔ wprocs y !! m = Some ((db, w'), phase);
  o_exiting : ∀ m w', wprocs y !! m = Some ((db, w'), WExiting) → wprocs y' !! m = Some ((db, w'), WExiting);
  o_occupying : ∀ m phase, wprocs y' !! m = Some ((db, w), phase) → occupying phase = true →
    (∃ phase0, wprocs y !! m = Some ((db, w), phase0) ∧ occupying phase0 = true)
    ∧ ∃ s', workers (store y') !! (db, w) = Some s' ∧ occupied phase s';
}.

Lemma one_worker_serviced db w y y' gated :
  one_worker db w y y' → serviced y db gated → serviced y' db gated.
Proof.
  intros O (c & Hc & Hcov). exists c. rewrite (o_coord _ _ _ _ O), (o_cprocs _ _ _ _ O). split; [done|].
  destruct Hcov as [?|[?|[(n & w' & Hn)|?]]]; [by left|by right; left| |by right; right; right].
  right; right; left. exists n, w'. by apply (o_exiting _ _ _ _ O).
Qed.

Lemma db_inv_one_worker db w y y' :
  db_inv y db → one_worker db w y y' →
  (∀ s', workers (store y') !! (db, w) = Some s' → slot_wf s' ∧ Slot.key s' = (db, w)) →
  (∀ s', workers (store y') !! (db, w) = Some s' → Slot.registration_state s' = Registered →
     ∃ s, workers (store y) !! (db, w) = Some s ∧ Slot.registration_state s = Registered
       ∧ (Slot.stop_requested s' = true → Slot.stop_requested s = true)) →
  (∀ s', workers (store y') !! (db, w) = Some s' → wants_start s' = true →
     serviced y' db (Slot.stop_requested s')) →
  db_inv y' db.
Proof.
  intros I O Hwf Hreg Hserv. pose proof O as [O1 O2 O3 O4 O5 O6 O7]. constructor; rewrite ?O1, ?O2, ?O3.
  - intros w' s'. destruct (decide (w' = w)) as [->|Hne]; [apply Hwf|]. rewrite O4 by done. apply (i_slot _ _ I).
  - apply (i_coord _ _ I).
  - intros m w' phase. destruct (decide (w' = w)) as [->|Hne]; [intros; by eapply O7|].
    rewrite O5, O4 by done. apply (i_wproc _ _ I).
  - intros m m' w' phase phase'. destruct (decide (w' = w)) as [->|Hne].
    + intros Hm Ho Hm' Ho'. destruct (O7 _ _ Hm Ho) as [(p & ? & ?) _], (O7 _ _ Hm' Ho') as [(p' & ? & ?) _].
      by eapply (i_wuniq _ _ I).
    + rewrite !O5 by done. apply (i_wuniq _ _ I).
  - apply (i_cproc _ _ I).
  - apply (i_cuniq _ _ I).
  - intros n [db' w'] m Hn. destruct (i_wait _ _ I _ _ _ Hn) as (Hk & Hm & Hs). cbn in Hk. subst db'.
    split; [done|]. destruct (decide (w' = w)) as [->|Hne].
    + split; [intros m' phase Hm' Ho; destruct (O7 _ _ Hm' Ho) as [(p & ? & ?) _]; by eapply Hm|].
      intros s' Hs' Hr Hst. destruct (Hreg _ Hs' Hr) as (s & ? & ? & ?). eauto.
    + split; [intros m' phase; rewrite O5 by done; apply Hm|]. rewrite O4 by done. apply Hs.
  - intros w' s'. destruct (decide (w' = w)) as [->|Hne]; [|rewrite O4 by done; apply (i_reg _ _ I)].
    intros Hs' Hr. destruct (Hreg _ Hs' Hr) as (s & ? & ? & _). by eapply (i_reg _ _ I).
  - intros c w' s' Hc Hst. destruct (decide (w' = w)) as [->|Hne]; [|rewrite O4 by done; by eapply (i_stop _ _ I)].
    intros Hs' Hr. destruct (Hreg _ Hs' Hr) as (s & ? & ? & _). by eapply (i_stop _ _ I).
  - apply (i_supervisor _ _ I).
  - intros w' s'. destruct (decide (w' = w)) as [->|Hne]; [apply Hserv|]. rewrite O4 by done.
    intros Hs Hw. eapply one_worker_serviced; [done|]. by eapply (i_serviced _ _ I).
Qed.

(** Other databases do not see a change of one worker. *)
Lemma frame_worker db w db' y st' ws n p :
  db' ≠ db → coordinators st' = coordinators (store y) → workers st' = ws →
  (∀ k, k ≠ (db, w) → ws !! k = workers (store y) !! k) →
  (∀ k ph, wprocs y !! n = Some (k, ph) → k = (db, w)) → (∀ k ph, p = Some (k, ph) → k = (db, w)) →
  frame db' y (set_wproc (set_store y st') n p).
Proof.
  intros Hne Hc Hw Hws Hn Hp. constructor; cbn; try done.
  - intros w'. rewrite Hw. apply Hws. congruence.
  - by rewrite Hc.
  - intros m w' phase. rewrite lookup_partial_alter. case_decide; [subst m|done].
    split; [intros E; specialize (Hp _ _ E) | intros E; specialize (Hn _ _ E)]; congruence.
Qed.

Lemma set_wproc_id y n : set_wproc y n (wprocs y !! n) = y.
Proof. destruct y as [st wp cp sw sp]. unfold set_wproc. cbn. f_equal. by rewrite partial_alter_self. Qed.

Lemma wants_start_true s :
  wants_start s = true →
  Slot.registration_state s = Registered ∧ Slot.has_active_process s = false ∧ Slot.needs_restart s = true.
Proof.
  unfold wants_start. intros [[Hr%bool_decide_eq_true Ha%negb_true_iff]%andb_true_iff Hn]%andb_true_iff. done.
Qed.

Lemma restart_delay_wants s now d :
  Slot.restart_delay s now = Some d → wants_start s = true ∧ Slot.stop_requested s = false.
Proof.
  intros H. pose proof (restart_delay_inactive _ _ _ H) as Ha. unfold Slot.restart_delay, wants_start in *.
  rewrite Ha. destruct (bool_decide (Slot.registration_state s = Registered)); [|done]. cbn in *.
  destruct (bool_decide (Slot.process_state s = Starting)); [done|].
  destruct (0 <? Slot.pid s); [done|]. destruct (Slot.stop_requested s); [done|].
  by destruct (Slot.needs_restart s).
Qed.

Lemma wants_restart_delay s now :
  wants_start s = true → Slot.stop_requested s = false → is_Some (Slot.restart_delay s now).
Proof.
  intros (Hr & Ha & Hn)%wants_start_true Hs. unfold Slot.restart_delay, Slot.has_active_process in *.
  apply orb_false_iff in Ha as [-> ->]. rewrite Hr, Hn, Hs. cbn. eauto.
Qed.

Lemma register_ready_launched st db now now' scan k st' :
  register_ready_worker st db now now' scan true = Some (Some (WRegistered k), st') →
  validate_coordinator st db = true
  ∧ ∃ s, workers st !! k = Some s ∧ Slot.database_oid s = db ∧ Slot.restart_delay s now = Some 0
    ∧ st' = set_workers st (<[k := Slot.prepare_start s]> (workers st)).
Proof.
  unfold register_ready_worker. destruct (validate_coordinator st db); cbn; [|done].
  destruct (find_launch _ _ _ _) as [k'|] eqn:E; [|done]. apply find_launch_slot in E as (s & Hs & Hd & Hr).
  unfold with_mut. rewrite Hs. cbn. intros H. injection H as -> <-. eauto 8.
Qed.

Lemma register_ready_failed st db now now' scan k st' :
  register_ready_worker st db now now' scan false = Some (Some (WFailed k), st') →
  validate_coordinator st db = true
  ∧ ∃ s, workers st !! k = Some s ∧ Slot.database_oid s = db ∧ Slot.restart_delay s now = Some 0
    ∧ st' = set_workers st (<[k := snd (Slot.registration_failed s now' CAPACITY_RETRY)]> (workers st)).
Proof.
  unfold register_ready_worker. destruct (validate_coordinator st db); cbn; [|done].
  destruct (find_launch _ _ _ _) as [k'|] eqn:E; [|done]. apply find_launch_slot in E as (s & Hs & Hd & Hr).
  unfold with_mut. rewrite Hs. destruct (Slot.registration_failed s now' CAPACITY_RETRY) as [d s'] eqn:Ef.
  cbn. case_decide; [|done]. intros H'. injection H' as -> <-. split; [done|].
  exists s. by rewrite Ef.
Qed.

(** A worker of [db] without an active process has no occupying process. *)
Lemma inactive_unoccupied y db w s m phase :
  db_inv y db → workers (store y) !! (db, w) = Some s → Slot.has_active_process s = false →
  wprocs y !! m = Some ((db, w), phase) → occupying phase = true → False.
Proof.
  intros I Hs Ha Hm Ho. destruct (i_wproc _ _ I _ _ _ Hm Ho) as (s' & Hs' & Hocc). simplify_eq.
  by rewrite (occupied_active _ _ Ho Hocc) in Ha.
Qed.

(** The database whose coordinator [n] registered process [m] for worker [w]. *)
Lemma db_inv_launched y y' n db w s m :
  db_inv y db → cprocs y !! n = Some (db, CServing) → wprocs y !! m = None →
  workers (store y) !! (db, w) = Some s → Slot.has_active_process s = false → Slot.stop_requested s = false →
  coordinators (store y') !! db = coordinators (store y) !! db → supervisor_wait y' = supervisor_wait y →
  (∀ w', workers (store y') !! (db, w')
     = if decide (w' = w) then Some (Slot.prepare_start s) else workers (store y) !! (db, w')) →
  (∀ m' w' phase, wprocs y' !! m' = Some ((db, w'), phase) ↔
     (m' = m ∧ w' = w ∧ phase = WLaunched) ∨ (m' ≠ m ∧ wprocs y !! m' = Some ((db, w'), phase))) →
  (∀ n' phase, cprocs y' !! n' = Some (db, phase) ↔ n' = n ∧ phase = CWaiting (db, w) m) →
  db_inv y' db.
Proof.
  intros I Hn Hfresh Hs Hina Hstop Hc Hsw Hws Hwp Hq.
  assert (Hfree : ∀ m phase, wprocs y !! m = Some ((db, w), phase) → occupying phase = true → False).
  { intros m' phase. by eapply inactive_unoccupied. }
  constructor; rewrite ?Hc, ?Hsw.
  - intros w' s'. rewrite Hws. case_decide; [subst|apply (i_slot _ _ I)]. intros [= <-].
    destruct (i_slot _ _ I _ _ Hs). split; [by apply (slot_apply_wf s OpPrepareStart)|done].
  - apply (i_coord _ _ I).
  - intros m' w' phase [(-> & -> & ->)|[Hm' Hp]]%Hwp Ho; rewrite Hws.
    + rewrite decide_True by done. by eexists.
    + case_decide; [subst; by destruct (Hfree m' phase)|]. by apply (i_wproc _ _ I m').
  - intros m1 m2 w' p1 p2 [(-> & -> & ->)|[Hm1 Hp1]]%Hwp Ho1 [(-> & Hw & ->)|[Hm2 Hp2]]%Hwp Ho2; try done.
    + by destruct (Hfree m2 p2).
    + subst w'. by destruct (Hfree m1 p1).
    + by eapply (i_wuniq _ _ I).
  - intros n' phase [-> ->]%Hq. destruct (i_cproc _ _ I _ _ Hn) as (c & Hcc & Ha & _). by exists c.
  - intros n1 n2 p1 p2 [-> _]%Hq [-> _]%Hq. done.
  - intros n' k m' [-> [= -> ->]]%Hq. split_and!; [done| |].
    + intros m1 phase [(-> & _)|[_ Hp]]%Hwp Ho; [done|]. by destruct (Hfree m1 phase).
    + intros s'. rewrite Hws, decide_True by done. intros [= <-] _ Hst. cbn in Hst. congruence.
  - intros w' s'. rewrite Hws. case_decide; [subst|apply (i_reg _ _ I)]. intros [= <-]. by apply (i_reg _ _ I w s).
  - intros c w' s' Hcc Hst. rewrite Hws. case_decide; [subst|by apply (i_stop _ _ I)].
    intros [= <-]. by apply (i_stop _ _ I c w s).
  - intros n1 n2 phase Hw [-> _]%Hq. by eapply (i_supervisor _ _ I).
  - intros w' s'. rewrite Hws. case_decide; [subst; intros [= <-]; by intros (_ & Ha & _)%wants_start_true|].
    intros Hs' Hw'. destruct (i_serviced _ _ I _ _ Hs' Hw') as (c & Hcc & Hcov). exists c. rewrite Hc.
    split; [done|]. destruct Hcov as [?|[(Hst & n' & ph & Hn' & Hwill)|[(m' & w2 & Hm')|[_ Hno]]]]; [by left| | |].
    + pose proof (i_cuniq _ _ I _ _ _ _ Hn' Hn) as ->. rewrite Hn in Hn'. injection Hn' as <-.
      right; left. split; [done|]. exists n, (CWaiting (db, w) m). split; [by apply Hq | done].
    + right; right; left. exists m', w2. apply Hwp. right. split; [congruence | done].
    + by destruct (Hno n CServing).
Qed.

Lemma launch_inv y n db now now' scan key st' db' :
  (∀ d, db_inv y d) → cprocs y !! n = Some (db, CServing) → wprocs y !! spawned y = None →
  register_ready_worker (store y) db now now' scan true = Some (Some (WRegistered key), st') →
  db_inv (spawn (set_cproc (set_wproc (set_store y st') (spawned y) (Some (key, WLaunched)))
                   n (Some (db, CWaiting key (spawned y))))) db'.
Proof.
  intros Hall Hn Hfresh Hreg. apply register_ready_launched in Hreg as (_ & s & Hs & Hd & Hr & ->).
  destruct key as [d w]. destruct (slot_database _ _ _ _ (Hall d) Hs) as [Hd' Hw].
  assert (d = db) as -> by congruence.
  destruct (restart_delay_wants _ _ _ Hr) as [Hwant Hstop].
  pose proof (restart_delay_inactive _ _ _ Hr) as Hina.
  set (y1 := set_wproc _ _ _). destruct (decide (db' = db)) as [->|Hne]; cycle 1.
  { eapply db_inv_frame, (Hall db'). apply (frame_trans _ _ y1).
    - eapply (frame_worker db w); try done; [|congruence|congruence].
      intros k Hk. cbn. by rewrite lookup_insert_ne.
    - constructor; try done. apply (frame_cproc db db' y1 n CServing); [done|done|]. congruence. }
  apply (db_inv_launched y _ n db w s (spawned y)); try done.
  - intros w'. cbn. case_decide; [subst; by rewrite lookup_insert_eq|]. rewrite lookup_insert_ne; congruence.
  - intros m w' phase. cbn. rewrite lookup_partial_alter. case_decide; naive_solver.
  - intros m ph. by apply (cproc_phase y n db CServing).
Qed.

Lemma registration_failed_fields s now retry :
  let s' := snd (Slot.registration_failed s now retry) in
  Slot.key s' = Slot.key s ∧ Slot.registration_state s' = Slot.registration_state s
  ∧ Slot.stop_requested s' = Slot.stop_requested s
  ∧ (wants_start s' = true → wants_start s = true ∨ Slot.has_active_process s = true).
Proof.
  cbv zeta. unfold Slot.registration_failed. cbv zeta.
  destruct (negb (Slot.has_active_process s) && _) eqn:E; [by auto|].
  split_and!; [by destruct (Slot.stop_requested s) eqn:Es; cbn; rewrite ?Es..|].
  intros (Hr & _)%wants_start_true. destruct (Slot.has_active_process s) eqn:Ha; [by right|left]. cbn in E.
  apply negb_false_iff, bool_decide_eq_true in E. by apply restart_delay_wants in E as [? _].
Qed.

(** A change of one worker slot alone. *)
Lemma one_worker_slot db w y s s' :
  db_inv y db → workers (store y) !! (db, w) = Some s →
  (∀ m phase, wprocs y !! m = Some ((db, w), phase) → occupying phase = true → occupied phase s') →
  one_worker db w y (set_store y (set_workers (store y) (<[(db, w) := s']> (workers (store y))))).
Proof.
  intros I Hs Hocc. constructor; cbn; try done.
  - intros w' Hne. rewrite lookup_insert_ne; congruence.
  - intros m phase Hm Ho. split; [by eexists|]. exists s'. rewrite lookup_insert_eq. eauto.
Qed.

(** The slot of a worker none of whose processes is left, after a failed start. *)
Lemma registration_failed_inv y db w s now :
  db_inv y db → workers (store y) !! (db, w) = Some s →
  (∀ m phase, wprocs y !! m = Some ((db, w), phase) → occupying phase = true → False) →
  (Slot.registration_state s = Registered → serviced y db (Slot.stop_requested s)) →
  db_inv (set_store y (set_workers (store y)
    (<[(db, w) := snd (Slot.registration_failed s now CAPACITY_RETRY)]> (workers (store y))))) db.
Proof.
  intros I Hs Hfree Hserv. destruct (registration_failed_fields s now CAPACITY_RETRY) as (E1 & E2 & E3 & E4).
  destruct (i_slot _ _ I _ _ Hs) as [Hwf Hk]. set (s' := snd _) in *.
  assert (O : one_worker db w y (set_store y (set_workers (store y) (<[(db, w) := s']> (workers (store y)))))).
  { apply (one_worker_slot db w y s s' I Hs). intros m phase Hm Ho. by destruct (Hfree m phase). }
  apply (db_inv_one_worker db w y); [done|exact O|..]; cbn; rewrite lookup_insert_eq; intros ? [= <-].
  - split; [by apply (slot_apply_wf s (OpRegistrationFailed now CAPACITY_RETRY))|congruence].
  - intros Hr. exists s. split_and!; congruence.
  - intros Hwant. rewrite E3. eapply one_worker_serviced; [exact O|]. apply Hserv.
    destruct (wants_start_true _ Hwant) as [Hr _]. congruence.
Qed.

Lemma launch_failed_inv y n db now now' scan key st' db' :
  (∀ d, db_inv y d) → cprocs y !! n = Some (db, CServing) →
  register_ready_worker (store y) db now now' scan false = Some (Some (WFailed key), st') →
  db_inv (set_store y st') db'.
Proof.
  intros Hall Hn Hreg. apply register_ready_failed in Hreg as (_ & s & Hs & Hd & Hr & ->).
  destruct key as [d w]. destruct (slot_database _ _ _ _ (Hall d) Hs) as [Hd' Hw].
  assert (d = db) as -> by congruence. destruct (decide (db' = db)) as [->|Hne]; cycle 1.
  { eapply db_inv_frame, (Hall db'). apply frame_store; [|done]. intros w'. cbn. rewrite lookup_insert_ne; congruence. }
  destruct (restart_delay_wants _ _ _ Hr) as [Hwant Hstop].
  apply registration_failed_inv; [done|done| |].
  - intros m phase. eapply inactive_unoccupied; [done|done|]. by eapply restart_delay_inactive.
  - intros _. by eapply (i_serviced _ _ (Hall db)).
Qed.

Lemma worker_start_failed_inv y n db key m now db' :
  (∀ d, db_inv y d) → cprocs y !! n = Some (db, CWaiting key m) → wprocs y !! m = None →
  db_inv (set_cproc (set_store y (worker_registration_failed (store y) key now)) n (Some (db, CServing))) db'.
Proof.
  intros Hall Hn Hgone. pose proof (Hall db) as I. destruct (i_wait _ _ I _ _ _ Hn) as (Hk & Hm & Hgate).
  destruct key as [d w]. cbn in Hk. subst d. unfold worker_registration_failed.
  destruct (decide (db' = db)) as [->|Hne]; cycle 1.
  { eapply db_inv_frame, (Hall db').
    eapply frame_trans; [apply frame_store | by eapply frame_cproc; [..|intros ? ? [= <- <-] ] ]; [|done].
    intros w'. cbn. rewrite lookup_alter_ne; congruence. }
  apply (db_inv_phase (set_store y _) n db (CWaiting (db, w) m)); [|done|auto|done].
  destruct (workers (store y) !! (db, w)) as [s|] eqn:Hs; cycle 1.
  { eapply db_inv_frame, I. apply frame_store; [|done]. intros w'. cbn. rewrite lookup_alter.
    case_decide as E; [|done]. by rewrite <- E, Hs. }
  replace (alter _ (db, w) (workers (store y)))
    with (<[(db, w) := snd (Slot.registration_failed s now CAPACITY_RETRY)]> (workers (store y))).
  2: { apply map_eq. intros k. rewrite lookup_insert, lookup_alter. case_decide; [|done]. subst. by rewrite Hs. }
  apply registration_failed_inv; [done|done| |].
  - intros m' phase Hm' Ho. pose proof (Hm _ _ Hm' Ho) as ->. congruence.
  - intros Hr. destruct (i_cproc _ _ I _ _ Hn) as (c & Hc & Ha & _). exists c. split; [done|].
    destruct (Coord.stop_requested c) eqn:Hst.
    + left. by eapply (i_stop _ _ I).
    + destruct (Slot.stop_requested s) eqn:Hgs.
      * left. destruct (Hgate s eq_refl Hr Hgs) as (c' & Hc' & Hn'). congruence.
      * right; left. split; [done|]. by exists n, (CWaiting (db, w) m).
Qed.

Lemma next_delay_none st db now k s :
  next_database_worker_start_delay st db now = None → workers st !! k = Some s →
  Slot.database_oid s = db → Slot.restart_delay s now = None.
Proof.
  unfold next_database_worker_start_delay. intros H Hs%elem_of_map_to_list Hd. revert H Hs.
  induction (map_to_list (workers st)) as [|[k' s'] l IH]; cbn [foldr]; [by intros _ ?%elem_of_nil|].
  intros H [E|Hin]%elem_of_cons.
  - injection E as <- <-. rewrite Hd, Z.eqb_refl in H.
    destruct (foldr _ _ l), (Slot.restart_delay s now); done.
  - apply IH; [|done]. case_match; [|done]. by destruct (foldr _ _ l), (Slot.restart_delay s' now).
Qed.

(** A coordinator process moves on and the store stays as it is. *)
Lemma phase_inv y n db phase phase' db' :
  (∀ d, db_inv y d) → cprocs y !! n = Some (db, phase) →
  phase' = CTop ∨ phase' = CServing ∨ phase' = CReturning →
  (∀ w s, workers (store y) !! (db, w) = Some s → wants_start s = true →
     will_serve (Slot.stop_requested s) phase = true → will_serve (Slot.stop_requested s) phase' = true) →
  db_inv (set_cproc y n (Some (db, phase'))) db'.
Proof.
  intros Hall Hn Hph Hserve. destruct (decide (db' = db)) as [->|Hne].
  - apply (db_inv_phase y n db phase); [done..|]. intros c w s _ _ _. apply Hserve.
  - eapply db_inv_frame, (Hall db'). by eapply frame_cproc; [..|intros ? ? [= <- <-] ].
Qed.

Lemma nothing_due_inv y n db now db' :
  (∀ d, db_inv y d) → cprocs y !! n = Some (db, CServing) →
  next_database_worker_start_delay (store y) db now = None →
  db_inv (set_cproc y n (Some (db, CReturning))) db'.
Proof.
  intros Hall Hn Hdue. apply (phase_inv y n db CServing); [done|done|auto|]. intros w s Hs Hw.
  destruct (Slot.stop_requested s) eqn:Hstop; [done|]. destruct (wants_restart_delay s now Hw Hstop) as [d Hd].
  destruct (slot_database _ _ _ _ (Hall db) Hs) as [Hdb _].
  by rewrite (next_delay_none _ _ _ _ _ Hdue Hs Hdb) in Hd.
Qed.

(** The last process of [db]'s coordinator is gone. *)
Lemma cproc_gone y n db phase m ph :
  db_inv y db → cprocs y !! n = Some (db, phase) → cprocs (set_cproc y n None) !! m ≠ Some (db, ph).
Proof.
  intros I Hn. cbn. rewrite lookup_partial_alter. case_decide as Hd; [done|].
  intros Hm. by destruct Hd; eapply (i_cuniq _ _ I).
Qed.

Lemma coordinator_exit_inv y n db phase code db' :
  (∀ d, db_inv y d) → cprocs y !! n = Some (db, phase) → code ≠ 0 ∨ phase = CReturning →
  db_inv (set_cproc (set_store y (snd (coordinator_exit (store y) db code))) n None) db'.
Proof.
  intros Hall Hn Hcode. pose proof (Hall db) as I. destruct (i_cproc _ _ I _ _ Hn) as (c & Hc & Ha & _).
  unfold coordinator_exit, with_mut. rewrite Hc. destruct (Coord.confirm_stopped c code) as [r c'] eqn:Hcs.
  cbn [snd]. destruct (decide (db' = db)) as [->|Hne]; cycle 1.
  { eapply db_inv_frame, (Hall db'). eapply frame_trans; [apply frame_store | by eapply frame_cproc]; [done|].
    cbn. by rewrite lookup_insert_ne. }
  assert (Hdb : Coord.database_oid c' = db ∧ (db ≠ INVALID_OID ∧ Coord.process_state c' ≠ NotStarted) ∧ Coord.stop_requested c' = Coord.stop_requested c
    ∧ (Coord.needs_restart c = true → Coord.needs_restart c' = true)
    ∧ (Coord.stop_requested c = false → code ≠ 0 → Coord.needs_restart c' = true)).
  { destruct (i_coord _ _ I _ Hc) as (? & ? & _). unfold Coord.confirm_stopped in Hcs. rewrite Ha in Hcs. cbn in Hcs.
    destruct (Coord.stop_requested c) eqn:Es, (Z.eqb_spec code 0), (Coord.needs_restart c) eqn:En;
      cbn in Hcs; injection Hcs as <- <-; cbn; split_and!; done. }
  destruct Hdb as (D1 & D2 & D3 & D4 & D5). set (y' := set_cproc _ _ _).
  assert (Hno : ∀ m ph, cprocs y' !! m ≠ Some (db, ph)) by (intros m ph; exact (cproc_gone y n db phase m ph I Hn)).
  assert (Hc' : coordinators (store y') !! db = Some c') by (cbn; by rewrite lookup_insert_eq).
  apply (db_inv_keeps db y y'); [done|constructor|..]; try done.
  - intros w s Hs. cbn in Hs. rewrite Hs. cbn. auto with lago.
  - intros c0. rewrite Hc'. by intros [= <-].
  - intros m ph c0 Hm. by destruct (Hno m ph).
  - intros m ph Hm. by destruct (Hno m ph).
  - intros m w m' s Hm. by destruct (Hno m (CWaiting (db, w) m')).
  - intros c0 w s. rewrite Hc'. intros [= <-] Hst Hs Hr. rewrite D3 in Hst. apply D4. by eapply (i_stop _ _ I).
  - intros w s Hs Hw. exists c'. split; [done|].
    destruct (i_serviced _ _ I _ _ Hs Hw) as (c0 & Hc0 & Hcov). rewrite Hc in Hc0. injection Hc0 as <-.
    destruct Hcov as [?|[(Hst & n' & ph & Hn' & Hwill)|[?|[_ Hno0]]]]; [left; auto| |by right; right; left|].
    + pose proof (i_cuniq _ _ I _ _ _ _ Hn' Hn) as ->. rewrite Hn in Hn'. injection Hn' as <-.
      left. apply D5; [done|]. by destruct Hcode as [?| ->].
    + by destruct (Hno0 n phase).
Qed.

Lemma coordinator_never_ran_inv y n db db' :
  (∀ d, db_inv y d) → cprocs y !! n = Some (db, CLaunched) → db_inv (set_cproc y n None) db'.
Proof.
  intros Hall Hn. pose proof (Hall db) as I. destruct (decide (db' = db)) as [->|Hne]; cycle 1.
  { eapply db_inv_frame, (Hall db'). by eapply frame_cproc. }
  destruct (i_cproc _ _ I _ _ Hn) as (c & Hc & Ha & _). set (y' := set_cproc _ _ _).
  assert (Hno : ∀ m ph, cprocs y' !! m ≠ Some (db, ph)) by (intros m ph; by eapply cproc_gone).
  apply (db_inv_keeps db y y'); [done|constructor|..]; try done.
  - intros w s Hs. cbn in Hs. rewrite Hs. cbn. auto with lago.
  - apply (i_coord _ _ I).
  - intros m ph c0 Hm. by destruct (Hno m ph).
  - intros m ph Hm. by destruct (Hno m ph).
  - intros m w m' s Hm. by destruct (Hno m (CWaiting (db, w) m')).
  - apply (i_stop _ _ I).
  - intros w s Hs Hw. exists c. split; [done|]. right; right; right. done.
Qed.

(** ** Worker steps *)

(** Process [n] of worker [w] moves on, with the slot of the worker. *)
Lemma one_worker_proc db w y n phase st' p :
  db_inv y db → wprocs y !! n = Some ((db, w), phase) → occupying phase = true →
  coordinators st' = coordinators (store y) →
  (∀ k, k ≠ (db, w) → workers st' !! k = workers (store y) !! k) →
  (∀ k ph, p = Some (k, ph) → k = (db, w)
     ∧ (occupying ph = true → ∃ s', workers st' !! (db, w) = Some s' ∧ occupied ph s')) →
  one_worker db w y (set_wproc (set_store y st') n p).
Proof.
  intros I Hn Ho Hc Hw Hp. constructor; cbn; try done.
  - by rewrite Hc.
  - intros w' Hne. apply Hw. congruence.
  - intros m w' ph Hne. rewrite lookup_partial_alter. case_decide; [subst m|done].
    split; [|congruence]. intros E. destruct (Hp _ _ E). congruence.
  - intros m w' Hm. rewrite lookup_partial_alter. case_decide; [subst m|done].
    rewrite Hn in Hm. by injection Hm as <- ->.
  - intros m ph. rewrite lookup_partial_alter. case_decide as Hd; [subst m|].
    + intros E Hoc. destruct (Hp _ _ E) as [_ Hs]. eauto.
    + intros Hm Hoc. by destruct Hd; eapply (i_wuniq _ _ I).
Qed.

Lemma begin_worker_inv y n key pid now ok st' db' :
  (∀ d, db_inv y d) → wprocs y !! n = Some (key, WLaunched) → 0 < pid →
  begin_worker (store y) key pid now = (ok, st') →
  db_inv (set_wproc (set_store y st') n (Some (key, WStarted ok))) db'.
Proof.
  intros Hall Hn Hpid Hb. destruct key as [db w]. pose proof (Hall db) as I.
  destruct (i_wproc _ _ I _ _ _ Hn eq_refl) as (s & Hs & Hst). cbn in Hst.
  unfold begin_worker, with_mut in Hb. rewrite Hs in Hb.
  destruct (Slot.mark_running s pid now) as [r s'] eqn:Hm. cbn in Hb. injection Hb as -> <-.
  destruct (decide (db' = db)) as [->|Hne]; cycle 1.
  { eapply db_inv_frame, (Hall db'). eapply (frame_worker db w); try done; [|congruence|congruence].
    intros k Hk. cbn. by rewrite lookup_insert_ne. }
  assert (Hs' : occupied (WStarted ok) s' ∧ slot_wf s' ∧ Slot.key s' = Slot.key s
    ∧ Slot.registration_state s' = Slot.registration_state s ∧ Slot.stop_requested s' = Slot.stop_requested s).
  { split_and!; [|replace s' with (slot_apply s (OpMarkRunning pid now)) by (cbn; by rewrite Hm);
                  apply slot_apply_wf; [by eapply (i_slot _ _ I)|done]|..].
    all: unfold Slot.mark_running in Hm; case_match; simplify_eq; done. }
  destruct Hs' as (Hocc & Hwf & Hk & Hreg & Hstop).
  apply (db_inv_one_worker db w y); [done|eapply one_worker_proc; try done|..]; cbn; rewrite ?lookup_insert_eq.
  - intros k Hk'. cbn. by rewrite lookup_insert_ne.
  - intros k ph [= <- <-]. split; [done|]. intros _. by exists s'.
  - intros ? [= <-]. split; [done|]. rewrite Hk. by eapply (i_slot _ _ I).
  - intros ? [= <-] Hr. exists s. split_and!; congruence.
  - intros ? [= <-] (_ & Ha & _)%wants_start_true. by rewrite (occupied_active s' (WStarted ok)) in Ha.
Qed.

Lemma worker_never_ran_inv y n key db' :
  (∀ d, db_inv y d) → wprocs y !! n = Some (key, WLaunched) → db_inv (set_wproc y n None) db'.
Proof.
  intros Hall Hn. destruct key as [db w]. replace y with (set_store y (store y)) by (by destruct y).
  destruct (decide (db' = db)) as [->|Hne]; cycle 1.
  { eapply db_inv_frame, (Hall db'). eapply (frame_worker db w); try done. congruence. }
  assert (O : one_worker db w y (set_wproc (set_store y (store y)) n None)).
  { by eapply (one_worker_proc db w y n WLaunched). }
  apply (db_inv_one_worker db w y); [done|done|..]; cbn.
  - apply (i_slot _ _ (Hall db)).
  - intros s' Hs Hr. by exists s'.
  - intros s' Hs Hw. eapply one_worker_serviced; [done|]. by eapply (i_serviced _ _ (Hall db)).
Qed.

Lemma registration_missing_inv y n key db' :
  (∀ d, db_inv y d) → wprocs y !! n = Some (key, WStarted true) →
  db_inv (set_store y (worker_registration_missing (store y) key)) db'.
Proof.
  intros Hall Hn. destruct key as [db w]. pose proof (Hall db) as I.
  destruct (i_wproc _ _ I _ _ _ Hn eq_refl) as (s & Hs & Hocc).
  assert (Ha : Slot.has_active_process s = true) by (by apply (occupied_active s (WStarted true))).
  unfold worker_registration_missing.
  replace (alter _ (db, w) (workers (store y))) with (<[(db, w) := Slot.mark_removing s]> (workers (store y))).
  2: { apply map_eq. intros k. rewrite lookup_insert, lookup_alter. case_decide; [|done]. subst. rewrite Hs. cbn. by rewrite Ha. }
  destruct (decide (db' = db)) as [->|Hne]; cycle 1.
  { eapply db_inv_frame, (Hall db'). apply frame_store; [|done]. intros w'. cbn. rewrite lookup_insert_ne; congruence. }
  destruct (mark_removing_keeps s) as [K Hr]. destruct (i_slot _ _ I _ _ Hs) as [Hwf Hk].
  apply (db_inv_one_worker db w y); [done|apply (one_worker_slot db w y s); try done|..]; cbn; rewrite ?lookup_insert_eq.
  - intros m phase Hm Ho. eapply slot_keeps_occupied; [done|].
    destruct (i_wproc _ _ I _ _ _ Hm Ho) as (s0 & Hs0 & ?). congruence.
  - intros ? [= <-]. split; [by apply K | by rewrite (k_key _ _ K)].
  - intros ? [= <-] Hr'. congruence.
  - intros ? [= <-] (Hr' & _)%wants_start_true. congruence.
Qed.

(** A completed run, on a slot whose process has published itself. *)
Definition completed (key : WorkerKey) (schedule : WorkerSchedule) (now : Z) (k : WorkerKey) (s : Slot.t) : Slot.t :=
  if decide (k = key ∧ Slot.process_state s ≠ Starting) then Slot.complete_run s schedule now else s.

Lemma completed_same key schedule now k s : slot_same s (completed key schedule now k s).
Proof.
  unfold completed. case_decide as H; [|apply slot_same_refl]. destruct H as [_ Hst].
  split; [constructor|]; try (by destruct schedule).
  intros Hwf. by apply (slot_apply_wf s (OpComplete schedule now)).
Qed.

Lemma complete_worker_inv y n key schedule now db' :
  (∀ d, db_inv y d) → wprocs y !! n = Some (key, WStarted true) →
  db_inv (set_store y (snd (complete_worker (store y) key schedule now))) db'.
Proof.
  intros Hall Hn. destruct key as [db w]. destruct (i_wproc _ _ (Hall db) _ _ _ Hn eq_refl) as (s & Hs & Hocc).
  assert (Hst : Slot.process_state s ≠ Starting).
  { intros E. destruct (i_slot _ _ (Hall db) _ _ Hs) as [[Hp _ _] _]. unfold process_wf in Hp.
    rewrite E in Hp. cbn in Hocc. lia. }
  unfold complete_worker. rewrite Hs. set (ws := <[(db, w) := _]> _).
  assert (Hws : ∀ k, ws !! k = completed (db, w) schedule now k <$> workers (store y) !! k).
  { intros k. unfold ws, completed. rewrite lookup_insert. case_decide as E.
    - subst k. rewrite Hs. cbn. by rewrite decide_True.
    - destruct (workers (store y) !! k); [|done]. cbn. rewrite decide_False; [done|]. by intros [? _]. }
  assert (Hreq : db_inv (set_store y (snd (request_coordination_locked (set_workers (store y) ws) db))) db').
  { apply (db_inv_coordination _ _ _ _ (completed (db, w) schedule now)); [done| |apply completed_same].
    intros w'. rewrite Hws. case_decide; [done|]. unfold completed.
    destruct (workers (store y) !! (db', w')); [|done]. cbn. rewrite decide_False; [done|]. by intros [[= ? ?] _]. }
  destruct schedule; [|exact Hreq..]. cbn. eapply db_inv_frame, (Hall db'). apply frame_store; [|done].
  intros w'. cbn. rewrite Hws. destruct (workers (store y) !! (db', w')); [|done]. cbn. unfold completed. by case_decide.
Qed.

Lemma confirm_stopped_active s now policy code d s' :
  Slot.confirm_stopped s now policy code = (d, s') → Slot.has_active_process s = true →
  is_Some d ∧ Slot.key s' = Slot.key s ∧ Slot.registration_state s' = Slot.registration_state s
  ∧ (Slot.registration_state s = Registered → Slot.stop_requested s' = Slot.stop_requested s)
  ∧ (wants_start s' = true → d = Some Slot.Reconcile).
Proof.
  intros H Ha%has_active_true. unfold Slot.confirm_stopped in H.
  destruct (negb _ && _) eqn:E.
  { apply andb_true_iff in E as [E1%negb_true_iff%bool_decide_eq_false E2%Z.eqb_eq]. destruct Ha; [done|lia]. }
  clear E Ha. destruct s as [d0 w0 e0 pid0 after start fails reg proc wake stop restart name].
  injection H as <- <-.
  destruct (code =? 0), reg, wake, stop, restart; cbn; split_and!; eauto; done.
Qed.

Lemma worker_stopped_inv y n key phase policy now code reconcile st' db' :
  (∀ d, db_inv y d) → wprocs y !! n = Some (key, phase) → phase ≠ WExiting →
  worker_stopped (store y) key policy now code = (reconcile, st') →
  db_inv (set_wproc (set_store y st') n (if reconcile then Some (key, WExiting) else None)) db'.
Proof.
  intros Hall Hn Hph Hstop. assert (Ho : occupying phase = true) by (by destruct phase).
  destruct key as [db w]. pose proof (Hall db) as I. destruct (i_wproc _ _ I _ _ _ Hn Ho) as (s & Hs & Hocc).
  unfold worker_stopped in Hstop. rewrite Hs in Hstop.
  destruct (Slot.confirm_stopped s now policy code) as [d s'] eqn:Hcs.
  destruct (confirm_stopped_active _ _ _ _ _ _ Hcs (occupied_active _ _ Ho Hocc)) as (Hd & Hk & Hr & Hst & Hw).
  set (ws := if decide _ then _ else _) in Hstop. injection Hstop as <- <-.
  assert (Hws : ∀ k, k ≠ (db, w) → ws !! k = workers (store y) !! k).
  { intros k Hk'. unfold ws. case_decide; [by rewrite lookup_delete_ne | by rewrite lookup_insert_ne]. }
  assert (Hs' : ∀ s0, ws !! (db, w) = Some s0 → s0 = s').
  { intros s0. unfold ws. case_decide; [by rewrite lookup_delete_eq | rewrite lookup_insert_eq; by intros [= <-] ]. }
  destruct (decide (db' = db)) as [->|Hne]; cycle 1.
  { eapply db_inv_frame, (Hall db'). eapply (frame_worker db w); try done; [congruence|].
    intros k ph. by destruct d as [[]|]; intros [= <- <-]. }
  destruct (i_slot _ _ I _ _ Hs) as [Hwf Hkey].
  apply (db_inv_one_worker db w y); [done|apply (one_worker_proc db w y n phase); try done|..]; cbn.
  - intros k ph. by destruct d as [[]|]; intros [= <- <-].
  - intros s0 ->%Hs'. split; [|congruence].
    replace s' with (slot_apply s (OpConfirmStopped policy now code)) by (cbn; by rewrite Hcs).
    by apply slot_apply_wf.
  - intros s0 ->%Hs' Hreg. exists s. rewrite Hr in Hreg. rewrite Hst by done. done.
  - intros s0 ->%Hs' Hwant. destruct (wants_start_true _ Hwant) as (Hreg & _). rewrite Hr in Hreg.
    destruct (i_reg _ _ I _ _ Hs Hreg) as [c Hc]. exists c. split; [done|]. right; right; left.
    exists n, w. cbn. rewrite lookup_partial_alter, decide_True by done. by rewrite Hw.
Qed.

Lemma worker_exit_request_inv y n key db' :
  (∀ d, db_inv y d) → wprocs y !! n = Some (key, WExiting) →
  db_inv (set_wproc (set_store y (snd (request_database_reconcile (store y) (fst key)))) n None) db'.
Proof.
  intros Hall Hn. destruct key as [db w]. cbn [fst]. set (st1 := snd _).
  assert (I1 : db_inv (set_store y st1) db') by exact (client_inv y (RequestReconcile db) db' (Hall db')).
  destruct (decide (db' = db)) as [->|Hne]; cycle 1.
  { eapply db_inv_frame, I1. constructor; cbn; try done. intros m w' phase. rewrite lookup_partial_alter.
    case_decide; [subst m|done]. rewrite Hn. split; congruence. }
  apply (db_inv_requested db (set_store y st1)); [done|constructor|..]; cbn; try done.
  - intros w' s Hs. rewrite Hs. cbn. auto with lago.
  - apply (i_coord _ _ I1).
  - intros m ph c _ Hc. exists c. by split_and!; [| |constructor].
  - intros m w' phase. rewrite lookup_partial_alter. by case_decide.
  - eauto.
  - eauto.
  - intros c Hc. exists c. split; [done|]. destruct (i_coord _ _ I1 _ Hc) as (_ & Hdb & _).
    unfold st1, request_database_reconcile in Hc. rewrite request_coordination_same in Hc by done.
    destruct (coordinators (store y) !! db); [|done]. by injection Hc as <-.
Qed.

(** ** Reachable systems *)

(** Process identities are not reused. *)
Definition ids_fresh (y : system) : Prop :=
  ∀ n, (spawned y ≤ n)%nat → wprocs y !! n = None ∧ cprocs y !! n = None.

Lemma step_ids y y' : step y y' → ids_fresh y → ids_fresh y'.
Proof.
  unfold ids_fresh. intros Hstep F.
  assert (Fc : ∀ n p m, cprocs y !! n = Some p → (spawned y ≤ m)%nat → n ≠ m).
  { intros n p m Hn Hm ->. destruct (F m Hm). congruence. }
  assert (Fw : ∀ n p m, wprocs y !! n = Some p → (spawned y ≤ m)%nat → n ≠ m).
  { intros n p m Hn Hm ->. destruct (F m Hm). congruence. }
  destruct Hstep as [| ? ? Hstep | ? ? Hstep | ? ? Hstep |]; try destruct Hstep; cbn; intros m' Hm'; rewrite ?lookup_partial_alter;
    rewrite ?decide_False by (eauto || lia); try (apply F; lia).
  2: by rewrite !lookup_empty.
  rewrite decide_False by (eapply Fc; [done|lia]). apply F. lia.
Qed.

Definition system_inv (y : system) : Prop := ids_fresh y ∧ ∀ db, db_inv y db.

Lemma empty_inv y db :
  store y = store_init → wprocs y = ∅ → cprocs y = ∅ → db_inv y db.
Proof.
  intros H1 H2 H3. constructor; rewrite ?H1, ?H2, ?H3; cbn; intros *; rewrite ?lookup_empty; try done.
Qed.

Lemma step_inv y y' : step y y' → system_inv y → system_inv y'.
Proof.
  intros Hstep [F Hall]. split; [by eapply step_ids|]. intros db'.
  destruct (F (spawned y) ltac:(lia)) as [Fw Fc]. destruct Hstep as [| ? ? Hstep | ? ? Hstep | ? ? Hstep |];
    [|destruct Hstep..|].
  - by apply client_inv.
  - eapply db_inv_frame, (Hall db'). by constructor.
  - eapply db_inv_frame, (Hall db'). by constructor.
  - eapply db_inv_frame, (Hall db'). by constructor.
  - by apply remove_dropped_inv.
  - by apply register_coordinator_inv.
  - by eapply register_coordinator_failed_inv.
  - eapply db_inv_frame, (Hall db'). by constructor.
  - by eapply coordinator_start_failed_inv.
  - by eapply begin_coordinator_inv.
  - by eapply validate_fails_inv.
  - by apply no_runtime_inv.
  - by eapply reconcile_inv.
  - by eapply launch_inv.
  - by eapply launch_failed_inv.
  - by eapply phase_inv; [..|auto|].
  - by eapply worker_start_failed_inv.
  - eapply phase_inv; [done|done|auto|done].
  - by eapply nothing_due_inv.
  - by eapply coordinator_exit_inv.
  - by eapply coordinator_never_ran_inv.
  - by eapply begin_worker_inv.
  - by eapply registration_missing_inv.
  - by eapply complete_worker_inv.
  - by eapply worker_stopped_inv.
  - by eapply worker_exit_request_inv.
  - by eapply worker_never_ran_inv.
  - by apply empty_inv.
Qed.

Lemma reachable_inv y : reachable y → system_inv y.
Proof.
  intros H. unfold reachable in H. remember initial_system as y0 eqn:E.
  assert (I0 : system_inv y0) by (subst; split; [by intros n _; cbn; rewrite !lookup_empty | intros db; by apply empty_inv]).
  clear E. induction H; [done|]. eauto using step_inv.
Qed.

(** C9. At most one process runs a given worker and at most one process coordinates
    a given database, however wake-ups, stops, drops, failed starts, crashes and exits
    of the processes interleave; and while such a process has not exited, the shared
    slot of its worker or database shows an active process, which is what keeps the
    next one from being launched. *)
Theorem single_process y :
  reachable y →
  (∀ n n' key phase phase', wprocs y !! n = Some (key, phase) → occupying phase = true →
     wprocs y !! n' = Some (key, phase') → occupying phase' = true → n = n')
  ∧ (∀ n n' db phase phase', cprocs y !! n = Some (db, phase) → cprocs y !! n' = Some (db, phase') → n = n')
  ∧ (∀ n key phase, wprocs y !! n = Some (key, phase) → occupying phase = true →
       ∃ s, workers (store y) !! key = Some s ∧ Slot.has_active_process s = true)
  ∧ (∀ n db phase, cprocs y !! n = Some (db, phase) →
       ∃ c, coordinators (store y) !! db = Some c ∧ is_active (Coord.process_state c) = true).
Proof.
  intros [_ Hall]%reachable_inv. split_and!.
  - intros n n' [db w]. apply (i_wuniq _ _ (Hall db)).
  - intros n n' db. apply (i_cuniq _ _ (Hall db)).
  - intros n [db w] phase Hn Ho. destruct (i_wproc _ _ (Hall db) _ _ _ Hn Ho) as (s & Hs & Hocc).
    exists s. split; [done|]. by eapply occupied_active.
  - intros n db phase Hn. destruct (i_cproc _ _ (Hall db) _ _ Hn) as (c & Hc & Ha & _). eauto.
Qed.

(** ** Reservations whose process never ran *)

(** The request for a worker of database [db] is held: by the coordinator slot, by a
    coordinator that will serve it before it returns, or by an exiting worker that
    has yet to ask for a reconciliation. *)
Definition held (y : system) (db : Z) (gated : bool) : Prop :=
  ∃ c, coordinators (store y) !! db = Some c
    ∧ (Coord.needs_restart c = true
       ∨ (Coord.stop_requested c = false
          ∧ ∃ n phase, cprocs y !! n = Some (db, phase) ∧ will_serve gated phase = true)
       ∨ (∃ n w, wprocs y !! n = Some ((db, w), WExiting))).

(** The coordinator slot is reserved for a process that is gone. *)
Definition unowned (y : system) (db : Z) : Prop :=
  (∃ c, coordinators (store y) !! db = Some c ∧ is_active (Coord.process_state c) = true)
  ∧ ∀ n phase, cprocs y !! n ≠ Some (db, phase).

(** A coordinator process that ends before [Coordinator::run] has installed its exit
    callback; the executions in which this never happens. *)
Definition abandons (y y' : system) : Prop :=
  ∃ n db, cprocs y !! n = Some (db, CLaunched) ∧ y' = set_cproc y n None.
Definition ran_step (y y' : system) : Prop := step y y' ∧ ¬ abandons y y'.
Definition ran_reachable (y : system) : Prop := rtc ran_step initial_system y.

Definition owned (y : system) : Prop :=
  ∀ db c, coordinators (store y) !! db = Some c → is_active (Coord.process_state c) = true →
    ∃ n phase, cprocs y !! n = Some (db, phase).

(** No coordinator slot becomes active. *)
Definition no_new_active (st st' : Store) : Prop :=
  ∀ db c', coordinators st' !! db = Some c' → is_active (Coord.process_state c') = true →
    ∃ c, coordinators st !! db = Some c ∧ is_active (Coord.process_state c) = true.

Lemma no_new_active_same st st' : coordinators st' = coordinators st → no_new_active st st'.
Proof. intros E db c' Hc'. rewrite E in Hc'. eauto. Qed.

Lemma no_new_active_trans st1 st2 st3 :
  no_new_active st1 st2 → no_new_active st2 st3 → no_new_active st1 st3.
Proof. intros H1 H2 db c' Hc' Ha. destruct (H2 _ _ Hc' Ha) as (c & Hc & Hca). eauto. Qed.

Lemma no_new_active_insert st st' db c c' :
  coordinators st !! db = Some c → coordinators st' = <[db := c']> (coordinators st) →
  (is_active (Coord.process_state c') = true → is_active (Coord.process_state c) = true) →
  no_new_active st st'.
Proof.
  intros Hc E Ha db' d Hd. rewrite E in Hd. destruct (decide (db' = db)) as [->|Hne].
  - rewrite lookup_insert_eq in Hd. injection Hd as <-. eauto.
  - rewrite lookup_insert_ne in Hd by done. eauto.
Qed.

Lemma request_stop_active c :
  is_active (Coord.process_state (Coord.request_stop c)) = true →
  is_active (Coord.process_state c) = true.
Proof. by destruct c as [? ? ? []]. Qed.

Lemma request_coordination_no_new_active st db :
  no_new_active st (snd (request_coordination_locked st db)).
Proof.
  unfold request_coordination_locked. case_match; [by apply no_new_active_same|].
  destruct (coordinators st !! db) as [c|] eqn:Hc; [|by apply no_new_active_same].
  case_match; eapply (no_new_active_insert st _ db c); done.
Qed.

Lemma drop_coordinators_no_new_active st db : no_new_active st (snd (drop_coordinators st db)).
Proof.
  unfold drop_coordinators. destruct (coordinators st !! db) as [c|] eqn:Hc; [|by apply no_new_active_same].
  eapply (no_new_active_insert st _ db c); [done|done|apply request_stop_active].
Qed.

Lemma client_no_new_active st op : no_new_active st (client_apply st op).
Proof.
  destruct op as [key|db|db| |db|db ext|db w]; cbn [client_apply].
  - eapply no_new_active_trans; [|apply request_coordination_no_new_active]. by apply no_new_active_same.
  - eapply no_new_active_trans; [|apply request_coordination_no_new_active]. by apply no_new_active_same.
  - apply request_coordination_no_new_active.
  - by apply no_new_active_same.
  - unfold prepare_drop_database. pose proof (drop_coordinators_no_new_active st db) as H.
    destruct (drop_coordinators st db). eapply no_new_active_trans; [exact H|]. by apply no_new_active_same.
  - unfold prepare_drop_extension. pose proof (drop_coordinators_no_new_active st db) as H.
    destruct (drop_coordinators st db). eapply no_new_active_trans; [exact H|]. by apply no_new_active_same.
  - unfold request_stop_worker. pose proof (stop_worker_slot_coordinators st (db, w)) as E.
    destruct (stop_worker_slot st (db, w)) as [sent st1]. cbn in E. apply no_new_active_same in E as H.
    eapply no_new_active_trans; [exact H|]. destruct (coordinators st1 !! db) as [c|] eqn:Hc.
    + case_match; (eapply (no_new_active_insert st1 _ db c); [done|done|apply request_stop_active]).
    + by apply no_new_active_same.
Qed.

(** A step keeps the coordinator processes of every slot it does not deactivate. *)
Lemma owned_step_keeps y y' :
  owned y → no_new_active (store y) (store y') →
  (∀ n db phase, cprocs y !! n = Some (db, phase) → ∃ n' phase', cprocs y' !! n' = Some (db, phase')) →
  owned y'.
Proof.
  intros Ho Hn Hp db c' Hc' Ha. destruct (Hn _ _ Hc' Ha) as (c & Hc & Hca).
  destruct (Ho _ _ Hc Hca) as (n & phase & Hn'). eauto.
Qed.

Lemma set_cproc_keeps y y' n db phase phase' :
  cprocs y !! n = Some (db, phase) → cprocs y' = cprocs (set_cproc y n (Some (db, phase'))) →
  ∀ m db' ph, cprocs y !! m = Some (db', ph) → ∃ n' ph', cprocs y' !! n' = Some (db', ph').
Proof.
  intros Hn E m db' ph Hm. rewrite E. exists m. cbn. rewrite lookup_partial_alter.
  case_decide as Hd; [|by eauto]. subst m. rewrite Hn in Hm. injection Hm as <- <-. eauto.
Qed.

Lemma remove_dropped_no_new_active st live : no_new_active st (remove_dropped_databases st live).
Proof.
  intros db c'. cbn. rewrite lookup_omap. intros (c & Hc & Hr)%bind_Some Ha. exists c. split; [done|].
  unfold reap_coordinator in Hr. by repeat case_match; simplify_eq.
Qed.

Lemma supervisor_step_owned y y' : supervisor_step y y' → ids_fresh y → owned y → owned y'.
Proof.
  intros Hstep F Ho. destruct Hstep as [| | | |y db st' Hw Hdb Hr|y db st' Hw Hdb Hr| |y db n Hw Hn];
    try (apply (owned_step_keeps y); [done|by apply no_new_active_same|by eauto]).
  - apply (owned_step_keeps y); [done|apply remove_dropped_no_new_active|by eauto].
  - destruct (register_coordinator_launches _ _ _ _ _ Hr (or_introl eq_refl)) as [_ ->].
    intros db' c' Hc' Ha. cbn in *. rewrite lookup_insert in Hc'. case_decide as Hd.
    + subst db'. exists (spawned y), CLaunched. by rewrite lookup_partial_alter, decide_True.
    + destruct (Ho _ _ Hc' Ha) as (m & ph & Hm). exists m, ph. rewrite lookup_partial_alter, decide_False; [done|].
      intros <-. destruct (F (spawned y)) as [_ HF]; [lia|]. congruence.
  - destruct (register_coordinator_launches _ _ _ _ _ Hr (or_intror eq_refl)) as [Hina ->].
    intros db' c' Hc' Ha. cbn in *. rewrite lookup_insert in Hc'. case_decide as Hd; [|by eauto].
    subst db'. injection Hc' as <-. cbn in Ha.
    destruct (coordinators (store y) !! db) as [c|]; [|done]. cbn in Ha. by rewrite (Hina c eq_refl) in Ha.
  - apply (owned_step_keeps y); [done| |by eauto]. intros db' c'. cbn.
    rewrite lookup_alter. case_decide as Hd; [|by eauto].
    intros (c & Hc & ->)%fmap_Some. subst db'. destruct (is_active (Coord.process_state c)) eqn:E; eauto.
Qed.

Lemma confirm_stopped_inactive c code :
  is_active (Coord.process_state (snd (Coord.confirm_stopped c code))) = false.
Proof.
  unfold Coord.confirm_stopped. destruct (is_active (Coord.process_state c)) eqn:E; [|done]. cbn.
  destruct (negb (Coord.stop_requested c) && _); [done|]. by destruct (Coord.needs_restart c).
Qed.

Lemma coordinator_exit_slot st db code db' :
  coordinators (snd (coordinator_exit st db code)) !! db' =
  if decide (db' = db) then (λ c, snd (Coord.confirm_stopped c code)) <$> coordinators st !! db'
  else coordinators st !! db'.
Proof.
  unfold coordinator_exit, with_mut. destruct (coordinators st !! db) as [c|] eqn:Hc.
  - destruct (Coord.confirm_stopped c code) as [d c'] eqn:E. cbn. case_decide as Hd.
    + subst. by rewrite lookup_insert_eq, Hc; cbn; rewrite E.
    + by rewrite lookup_insert_ne.
  - cbn. case_decide as Hd; [|done]. subst. by rewrite Hc.
Qed.

Lemma coordinator_step_owned y y' :
  coordinator_step y y' → ¬ abandons y y' → owned y → owned y'.
Proof.
  intros Hstep Hran Ho. destruct Hstep as [y n db pid proc ok st' Hn Hb| | | y n db rs ok st' Hn Hcat Hr
      | y n db now now' scan key st' Hn Hr | y n db now now' scan key st' Hn Hr | | | | | y n db phase code Hn Hcode
      | y n db Hn];
    try (apply (owned_step_keeps y); [done|by apply no_new_active_same|by eapply set_cproc_keeps]).
  - apply (owned_step_keeps y); [done| |by eapply set_cproc_keeps].
    unfold begin_coordinator, with_mut in Hb. destruct (coordinators (store y) !! db) as [c|] eqn:Hc.
    + destruct (Coord.mark_running c pid proc) as [b c'] eqn:Hm. simplify_eq/=.
      eapply (no_new_active_insert _ _ db c); [done|done|]. unfold Coord.mark_running in Hm.
      destruct (_ || Coord.needs_restart c) eqn:Hg; simplify_eq/=; [done|]. intros _.
      apply orb_false_iff in Hg as [[Hg _]%orb_false_iff _]. apply negb_false_iff, bool_decide_eq_true in Hg.
      by rewrite Hg.
    + simplify_eq/=. by apply no_new_active_same.
  - apply (owned_step_keeps y); [done| |by eapply set_cproc_keeps]. apply no_new_active_same. cbn.
    unfold reconcile_registrations in Hr. destruct (negb _); [by simplify_eq|].
    apply bind_Some in Hr as (ws & _ & Hr). by simplify_eq.
  - apply (owned_step_keeps y); [done| |by eapply set_cproc_keeps]. apply no_new_active_same. cbn.
    destruct (register_ready_launched _ _ _ _ _ _ _ Hr) as (_ & s0 & _ & _ & _ & ->). done.
  - apply (owned_step_keeps y); [done| |by eauto]. apply no_new_active_same. cbn.
    destruct (register_ready_failed _ _ _ _ _ _ _ Hr) as (_ & s0 & _ & _ & _ & ->). done.
  - intros db' c' Hc' Ha. cbn in Hc'. rewrite coordinator_exit_slot in Hc'. case_decide as Hd.
    + apply fmap_Some in Hc' as (c & _ & ->). by rewrite confirm_stopped_inactive in Ha.
    + destruct (Ho _ _ Hc' Ha) as (m & ph & Hm). exists m, ph. cbn. rewrite lookup_partial_alter, decide_False; [done|].
      intros <-. congruence.
  - destruct Hran. by exists n, db.
Qed.

Lemma worker_step_owned y y' : worker_step y y' → owned y → owned y'.
Proof.
  intros Hstep Ho. apply (owned_step_keeps y); [done| |by destruct Hstep; eauto].
  destruct Hstep as [y n key pid now ok st' Hn Hp Hb| |y n key schedule now Hn
      |y n key phase policy now code rec st' Hn Hne Hw| |];
    try (by apply no_new_active_same).
  - apply no_new_active_same. unfold begin_worker in Hb. destruct (with_mut _ _ _). by simplify_eq/=.
  - cbn. unfold complete_worker. destruct (workers (store y) !! key) as [s|]; [|by apply no_new_active_same].
    destruct schedule; [by apply no_new_active_same|..];
      (eapply no_new_active_trans; [|apply request_coordination_no_new_active]; by apply no_new_active_same).
  - apply no_new_active_same. unfold worker_stopped in Hw. destruct (workers (store y) !! key); [|by simplify_eq/=].
    destruct (Slot.confirm_stopped _ _ _ _). by simplify_eq/=.
  - apply request_coordination_no_new_active.
Qed.

Lemma ran_owned y : ran_reachable y → owned y.
Proof.
  intros H. unfold ran_reachable in H. remember initial_system as y0 eqn:E.
  assert (reachable y0 ∧ owned y0) as H0.
  { subst. split; [apply rtc_refl|]. intros db c. cbn. by rewrite lookup_empty. }
  clear E. induction H as [|y0 y1 y2 [Hs Hran] _ IH]; [by destruct H0|]. apply IH. destruct H0 as [Hr Ho].
  split; [by eapply rtc_r|]. destruct (reachable_inv _ Hr) as [F _].
  destruct Hs as [y op|y y' Hs|y y' Hs|y y' Hs|y].
  - apply (owned_step_keeps y); [done|apply client_no_new_active|by eauto].
  - by eapply supervisor_step_owned.
  - by eapply coordinator_step_owned.
  - by eapply worker_step_owned.
  - intros db c. cbn. by rewrite lookup_empty.
Qed.

(** Neither a coordinator nor an exiting worker of the database is left. *)
Definition no_process (y : system) (db : Z) : Prop :=
  (∀ n phase, cprocs y !! n ≠ Some (db, phase)) ∧ (∀ n w, wprocs y !! n ≠ Some ((db, w), WExiting)).

Lemma requested_databases_elem st db c :
  coordinators st !! db = Some c → Coord.database_oid c = db → Coord.needs_restart c = true →
  Coord.process_state c = Stopped → db ∈ requested_databases st.
Proof.
  intros Hc Hd Hn Hp. unfold requested_databases. apply list_elem_of_fmap. exists (db, c). split; [done|].
  apply list_elem_of_filter. split; [done|]. by apply elem_of_map_to_list.
Qed.

Lemma idle_requested y db w s :
  db_inv y db → workers (store y) !! (db, w) = Some s → wants_start s = true →
  no_process y db → ¬ unowned y db →
  ∃ c, coordinators (store y) !! db = Some c ∧ Coord.needs_restart c = true ∧ Coord.process_state c = Stopped
    ∧ Coord.database_oid c = db.
Proof.
  intros I Hs Hw (Q1 & Q2) Hun. destruct (i_serviced _ _ I _ _ Hs Hw) as (c & Hc & Hcov).
  destruct (i_coord _ _ I _ Hc) as (Hd & _ & Hns).
  assert (is_active (Coord.process_state c) = false) as Hina.
  { apply not_true_is_false. intros Ha. destruct Hun. split; [eauto|done]. }
  exists c. split; [done|]. split; [|by destruct (Coord.process_state c)].
  destruct Hcov as [?|[(_ & n & ph & Hn & _)|[(n & w' & Hn)|[Ha _]]]]; [done| | |congruence].
  - by destruct (Q1 n ph).
  - by destruct (Q2 n w').
Qed.

(** C11. No request to run a worker is lost, unless a coordinator process is.  Whenever a
    registered worker without a process is to be started (because of a wake-up, a
    schedule, a crash, a failed start or a rolled-back stop), the request is held by
    its database's coordinator slot, by a coordinator that will still serve it
    before it returns, or by an exiting process that has yet to announce it, and
    once none of these processes is left the supervisor finds the database among
    those to start.  The only exception is a coordinator slot reserved for a process
    that is gone, and it arises only if some coordinator process ended before it
    installed its exit callback. *)
Theorem no_request_lost y db w s :
  reachable y → workers (store y) !! (db, w) = Some s → wants_start s = true →
  (unowned y db ∨ held y db (Slot.stop_requested s)
     ∧ (no_process y db → db ∈ requested_databases (store y)))
  ∧ (ran_reachable y → ¬ unowned y db).
Proof.
  intros [_ Hall]%reachable_inv Hs Hw. split.
  2: { intros Hran [(c & Hc & Ha) Hno]. destruct (ran_owned y Hran _ _ Hc Ha) as (n & ph & Hn).
       by destruct (Hno n ph). }
  destruct (i_serviced _ _ (Hall db) _ _ Hs Hw) as (c & Hc & Hcov).
  destruct (decide (map_Exists (λ _ p, fst p = db) (cprocs y))) as [Hp|Hp].
  { destruct Hp as (n & [db' ph] & Hn & ?). cbn in *. subst db'. right. split.
    - exists c. split; [done|]. destruct Hcov as [?|[?|[?|[_ Hno]]]]; [by auto..|by destruct (Hno n ph)].
    - intros [Hno _]. by destruct (Hno n ph). }
  assert (∀ n ph, cprocs y !! n ≠ Some (db, ph)) as Hno.
  { intros n ph Hn. apply Hp. by exists n, (db, ph). }
  destruct (is_active (Coord.process_state c)) eqn:Ha; [left; split; eauto|].
  right. split; [exists c; split; [done|]; destruct Hcov as [?|[?|[?|[? _]]]]; [by auto..|done]|].
  intros Hnp. destruct (idle_requested y db w s (Hall db) Hs Hw Hnp) as (c' & Hc' & Hn & Hs' & Hd).
  { intros [(c' & Hc' & Ha') _]. congruence. }
  by eapply requested_databases_elem.
Qed.

(** ** An execution *)

(** The coordinator of database 5 reconciles a catalog with worker 7, launches it,
    and the worker publishes itself; it is then woken while it runs, and exits. *)
Definition example_catalog : list WorkerRegistration := [mkRegistration 7 42 (lit "gc"%string)].

Definition example_running_store : Store :=
  mkStore shared_default {[5 := Coord.mk 5 200 3 Running false false]}
    {[(5, 7) := Slot.mk 5 7 42 300 0 1000 0 Registered Running false false false (lit "gc"%string)]}.

Definition example_running_system : system :=
  mkSystem example_running_store {[1%nat := ((5, 7), WStarted true)]}
    {[0%nat := (5, CWaiting (5, 7) 1)]} (Some (5, 0%nat)) 2.

Definition example_exited_store : Store :=
  mkStore shared_default {[5 := Coord.mk 5 0 (-1) Stopped false true]}
    {[(5, 7) := Slot.mk 5 7 42 0 0 0 0 Registered Restarting false false true (lit "gc"%string)]}.

Definition example_exited_system : system :=
  mkSystem example_exited_store ∅ ∅ (Some (5, 0%nat)) 2.

(** A step that writes the store is not the end of a coordinator that never ran. *)
Lemma ran_step_write y y' : step y y' → store y' ≠ store y → ran_step y y'.
Proof. intros Hs Hne. split; [done|]. intros (n & db & _ & ->). by destruct Hne. Qed.

Lemma ran_step_worker y y' : worker_step y y' → ran_step y y'.
Proof.
  intros Hs. split; [by apply step_worker|]. intros (n & db & Hn & ->).
  assert (cprocs (set_cproc y n None) = cprocs y) as E by (by inversion Hs).
  rewrite <- E in Hn. cbn in Hn. by rewrite lookup_partial_alter, decide_True in Hn.
Qed.

Lemma ran_reachable_reachable y : ran_reachable y → reachable y.
Proof. apply rtc_subrel. by intros x z [? _]. Qed.

Lemma example_running_reachable : ran_reachable example_running_system.
Proof.
  eapply rtc_l; [apply ran_step_write; [eapply step_supervisor, (s_register_coordinator _ 5);
    [reflexivity | discriminate | vm_compute; reflexivity] | vm_compute; discriminate]|].
  eapply rtc_l; [apply ran_step_write; [eapply step_coordinator, (c_begin_coordinator _ 0 5 200 3);
    vm_compute; reflexivity | vm_compute; discriminate]|].
  eapply rtc_l; [apply ran_step_write; [eapply step_coordinator, (c_reconcile _ 0 5 example_catalog);
    [vm_compute; reflexivity | repeat constructor; vm_compute; discriminate | vm_compute; reflexivity]
    | vm_compute; discriminate]|].
  eapply rtc_l; [apply ran_step_write; [eapply step_coordinator, (c_launch_worker _ 0 5 900 900 [(5, 7)]);
    vm_compute; reflexivity | vm_compute; discriminate]|].
  eapply rtc_l; [apply ran_step_write; [eapply step_worker, (w_begin_worker _ 1 (5, 7) 300 1000);
    [vm_compute; reflexivity | reflexivity | vm_compute; reflexivity] | vm_compute; discriminate]|].
  vm_compute. apply rtc_refl.
Qed.

Lemma example_exited_reachable : ran_reachable example_exited_system.
Proof.
  unfold ran_reachable. etrans; [apply example_running_reachable|].
  eapply rtc_l; [apply ran_step_write; [apply (step_client _ (WakeWorker (5, 7))) | vm_compute; discriminate]|].
  eapply rtc_l; [eapply ran_step_worker, (w_worker_stopped _ 1 (5, 7) (WStarted true) (mkPolicy 0 0 0) 2000 0);
    [vm_compute; reflexivity | discriminate | vm_compute; reflexivity]|].
  eapply rtc_l; [eapply ran_step_worker, (w_worker_exit_request _ 1 (5, 7)); vm_compute; reflexivity|].
  eapply rtc_l; [apply ran_step_write; [eapply step_coordinator, (c_coordinator_exit _ 0 5 _ 1);
    [vm_compute; reflexivity | left; discriminate] | vm_compute; discriminate]|].
  vm_compute. apply rtc_refl.
Qed.

Lemma single_process_witness :
  ∃ s, workers (store example_running_system) !! (5, 7) = Some s ∧ Slot.has_active_process s = true.
Proof.
  destruct (single_process example_running_system (ran_reachable_reachable _ example_running_reachable)) as (_ & _ & H & _).
  apply (H 1%nat (5, 7) (WStarted true)); reflexivity.
Defined.

Lemma example_no_process : no_process example_exited_system 5.
Proof. by split; intros n ?; cbn; rewrite lookup_empty. Qed.

Lemma no_request_lost_witness :
  ¬ unowned example_exited_system 5 ∧ 5 ∈ requested_databases (store example_exited_system).
Proof.
  destruct (no_request_lost example_exited_system 5 7
              (Slot.mk 5 7 42 0 0 0 0 Registered Restarting false false true (lit "gc"%string))
              (ran_reachable_reachable _ example_exited_reachable)) as [H Hran]; [reflexivity | reflexivity |].
  specialize (Hran example_exited_reachable). split; [exact Hran|].
  destruct H as [H|[_ H]]; [by destruct Hran|]. apply H, example_no_process.
Defined.

(** ** Progress *)

(** A worker to be started by [now], gate open or closed. *)
Definition due (now : Z) (s : Slot.t) : Prop :=
  wants_start s = true ∧ Slot.restart_after_ms s ≤ now.

Lemma request_wakeup_due now s : 0 ≤ now → due now s → due now (Slot.request_wakeup s).
Proof.
  intros Hnow [(Hr & Ha & Hn)%wants_start_true Hd]. unfold due, wants_start.
  destruct (request_wakeup_fields s) as (E1 & E2 & E3 & E4). unfold Slot.has_active_process in *.
  rewrite E1, E2, E4, Hr, Ha. unfold Slot.request_wakeup. cbv zeta. case_match; cbn; rewrite ?Hn; split; (done || lia).
Qed.

Lemma reconcile_present_due now s : 0 ≤ now → due now s → due now (Slot.reconcile_present s).
Proof.
  intros Hnow Hd. pose proof Hd as [(Hr & Ha & Hn)%wants_start_true Hle].
  unfold Slot.reconcile_present. cbv zeta.
  replace (Slot.with_registration s Registered) with s by (destruct s; cbn in *; by subst).
  destruct (Slot.stop_requested s).
  - rewrite Ha. set (s1 := Slot.with_flags s _ _ _). assert (Hd1 : due now s1) by done.
    destruct (Slot.wake_requested s1); [by apply request_wakeup_due|]. cbn. rewrite Hn.
    unfold due, wants_start, Slot.has_active_process in *. cbn. rewrite Hr.
    apply orb_false_iff in Ha as [_ ->]. done.
  - destruct (Slot.wake_requested s); [by apply request_wakeup_due | done].
Qed.

Lemma reconcile_all_due db now rs ws ws' k s :
  0 ≤ now → reconcile_all db ws rs = Some ws' → ws !! k = Some s → due now s →
  ∃ s', ws' !! k = Some s' ∧ due now s'.
Proof.
  intros Hnow. revert ws s. induction rs as [|r rs IH]; intros ws s; cbn [reconcile_all].
  { intros [= <-] Hs Hd. eauto. }
  intros (ws1 & H1 & H2)%bind_Some Hs Hd. destruct (decide (k = (db, reg_worker_id r))) as [Hk|Hne].
  - unfold reconcile_one in H1. rewrite <- Hk, Hs in H1. injection H1 as <-.
    eapply (IH _ _ H2); [by rewrite lookup_insert_eq|]. by apply reconcile_present_due.
  - pose proof (reconcile_one_spec _ _ _ _ k H1) as S1. rewrite decide_False in S1 by done.
    eapply (IH _ _ H2); [by rewrite S1 | done].
Qed.

Lemma reconcile_all_total db rs ws : catalog_ok rs → is_Some (reconcile_all db ws rs).
Proof.
  unfold catalog_ok. intros H. revert ws. induction H as [|r rs Hr _ IH]; intros ws; cbn [reconcile_all]; [by eexists|].
  assert (H1 : is_Some (reconcile_one db ws r)).
  { unfold reconcile_one. case_match; [by eexists|]. unfold Slot.initialize_registration.
    unfold u16_max, MAX_WORKER_NAME_BYTES. destruct (Z.leb_spec (blen (reg_worker_name r)) (2 ^ 16 - 1)); [|lia].
    destruct (Z.leb_spec (blen (reg_worker_name r)) 255); [|lia]. by eexists. }
  destruct H1 as [ws1 ->]. apply IH.
Qed.

Lemma due_open_delay now s : due now s → Slot.stop_requested s = false → Slot.restart_delay s now = Some 0.
Proof.
  intros [Hw Hle] Hopen. destruct (wants_restart_delay s now Hw Hopen) as [d Hd]. rewrite Hd.
  unfold Slot.restart_delay in Hd. case_match; [done|]. injection Hd as <-. f_equal.
  unfold from_millis, i64_saturate, i64_min, i64_max. lia.
Qed.

(** After a reconciliation that lists it, a due worker can be launched. *)
Lemma reconciled_launchable y db w s rs now ws :
  db_inv y db → workers (store y) !! (db, w) = Some s → due now s → 0 ≤ now → w ∈ reg_worker_id <$> rs →
  reconcile_all db (workers (store y)) rs = Some ws →
  find_launch (omap (reap_worker (unlisted db rs)) ws) db now [(db, w)] = Some (db, w).
Proof.
  intros I Hs Hdue Hnow Hw Hws.
  destruct (reconcile_all_due db now rs _ _ _ _ Hnow Hws Hs Hdue) as (s1 & Hs1 & Hdue1).
  pose proof (reconcile_all_spec db rs _ ws (db, w) Hws) as Hspec. rewrite decide_True in Hspec by done.
  destruct Hspec as (s2 & Hs2 & Hop & Haft). rewrite Hs1 in Hs2. injection Hs2 as <-.
  rewrite Hs in Haft. cbn in Haft. pose proof (k_key _ _ Haft) as Hkey.
  destruct (i_slot _ _ I _ _ Hs) as [_ Hk]. rewrite Hk in Hkey. injection Hkey as Hk1 Hk2.
  destruct (wants_start_true _ (proj1 Hdue1)) as (_ & Hina & _).
  assert (Hl : omap (reap_worker (unlisted db rs)) ws !! (db, w) = Some s1).
  { rewrite lookup_omap, Hs1. cbn. unfold reap_worker, unlisted.
    rewrite Hk2, (bool_decide_eq_true_2 (w ∈ _)) by done. by rewrite andb_false_r. }
  unfold find_launch. rewrite filter_cons_True; [done|]. rewrite Hl. unfold launchable.
  rewrite Hk1, Z.eqb_refl, (due_open_delay now s1 Hdue1 (proj2 Hop Hina)). by rewrite bool_decide_eq_true_2.
Qed.

Lemma rtc_step_exec {A} (R : relation A) x y z : rtc R x y → R y z → rtc R x z.
Proof. intros H1 H2. etrans; [done|]. by apply rtc_once. Qed.

(** C24. A worker that is due can always be started again: from any reachable state in
    which its database has no coordinator and no exiting worker, its coordinator
    slot is not reserved and the supervisor is idle, the supervisor alone can
    register a coordinator for the database, and that coordinator alone, finding the
    worker in the catalog, opens its gate if a rolled-back stop left it closed,
    reserves its slot and launches a new process for it.  No other process has to
    act, and no crash is needed. *)
Theorem due_worker_starts y db w s rs now :
  reachable y → no_process y db → ¬ unowned y db → supervisor_wait y = None →
  workers (store y) !! (db, w) = Some s → due now s → 0 ≤ now →
  catalog_ok rs → w ∈ reg_worker_id <$> rs →
  ∃ y1 y' m n s', supervisor_step y y1
    ∧ cprocs y !! m = None ∧ cprocs y1 !! m = Some (db, CLaunched)
    ∧ rtc coordinator_step y1 y'
    ∧ cprocs y' !! m = Some (db, CWaiting (db, w) n)
    ∧ wprocs y !! n = None ∧ wprocs y' !! n = Some ((db, w), WLaunched)
    ∧ workers (store y') !! (db, w) = Some s' ∧ Slot.process_state s' = Starting.
Proof.
  intros [F Hall]%reachable_inv Hq Hun Hidle Hs Hdue Hnow Hcat Hw. pose proof (Hall db) as I.
  destruct (idle_requested y db w s I Hs (proj1 Hdue) Hq Hun) as (c & Hc & Hnr & Hp & Hd).
  destruct (i_coord _ _ I _ Hc) as (_ & Hdb & _).
  destruct (reconcile_all_total db rs (workers (store y)) Hcat) as [ws Hws].
  pose proof (reconciled_launchable y db w s rs now ws I Hs Hdue Hnow Hw Hws) as Hfind.
  pose proof (find_launch_slot _ _ _ _ _ Hfind) as (s' & Hs' & _).
  set (m := spawned y). destruct (F m) as [_ Fm]; [done|]. destruct (F (S m)) as [Fn _]; [lia|].
  eexists _, _, m, (S m), _. split.
  { eapply (s_register_coordinator y db); [exact Hidle | exact Hdb |];
      unfold register_coordinator; rewrite Hc, Hp, Hnr; reflexivity. }
  split; [exact Fm|]. split; [cbn; by rewrite lookup_partial_alter, decide_True|]. split.
  { eapply rtc_l; [eapply (c_begin_coordinator _ m db 1 0 true)|].
    { cbn. by rewrite lookup_partial_alter, decide_True. }
    { unfold begin_coordinator, with_mut. cbn. rewrite lookup_insert_eq. reflexivity. }
    eapply rtc_l; [eapply (c_reconcile _ m db rs true)|].
    { cbn. by rewrite lookup_partial_alter, decide_True. }
    { done. }
    { unfold reconcile_registrations, validate_coordinator. cbn. rewrite lookup_insert_eq. cbn. by rewrite Hws. }
    eapply rtc_once, (c_launch_worker _ m db now now [(db, w)] (db, w)).
    { cbn. by rewrite lookup_partial_alter, decide_True. }
    { unfold register_ready_worker, validate_coordinator. cbn. rewrite lookup_insert_eq. cbn.
      rewrite Hfind. unfold with_mut. rewrite Hs'. reflexivity. } }
  cbn. rewrite !lookup_partial_alter, !decide_True, lookup_insert_eq by done. split_and!; try done.
Qed.

Lemma due_worker_starts_witness :
  ∃ y1 y' n, supervisor_step (set_wait example_exited_system None) y1 ∧ rtc coordinator_step y1 y'
    ∧ wprocs y' !! n = Some ((5, 7), WLaunched).
Proof.
  destruct (due_worker_starts (set_wait example_exited_system None) 5 7
           (Slot.mk 5 7 42 0 0 0 0 Registered Restarting false false true (lit "gc"%string))
           example_catalog 3000) as (y1 & y' & m & n & s' & H1 & _ & _ & H2 & _ & _ & H3 & _).
  - apply (rtc_step_exec _ _ _ _ (ran_reachable_reachable _ example_exited_reachable)).
    change (set_wait example_exited_system None)
      with (set_wait (set_store example_exited_system (clear_supervisor (store example_exited_system))) None).
    apply step_supervisor, s_supervisor_exit.
  - apply example_no_process.
  - intros [(c & Hc & Ha) _]. vm_compute in Hc. injection Hc as <-. done.
  - reflexivity.
  - reflexivity.
  - split; [reflexivity | vm_compute; discriminate].
  - discriminate.
  - repeat constructor; vm_compute; discriminate.
  - constructor.
  - by exists y1, y', n.
Defined.

(** The exception is reachable: the coordinator of database 5 finds worker 7 and
    crashes; its successor is forked, which is all the supervisor waits for, and ends
    before it runs.  The slot stays reserved and no request is left. *)
Definition abandoned_system : system :=
  mkSystem
    (mkStore (mkShared 0 INVALID_PROC_NUMBER false) {[5 := Coord.mk 5 0 INVALID_PROC_NUMBER Starting false false]}
       {[(5, 7) := Slot.mk 5 7 42 0 0 0 0 Registered NotStarted false false true (lit "gc"%string)]})
    ∅ ∅ None 2.

Example abandoned_request :
  reachable abandoned_system ∧ unowned abandoned_system 5
  ∧ requested_databases (store abandoned_system) = []
  ∧ register_coordinator (store abandoned_system) 5 true = (CAlreadyActive, store abandoned_system).
Proof.
  split_and!; [|split; [|by intros n ph; cbn; rewrite lookup_empty]|done|done].
  2: by eexists.
  eapply rtc_l; [eapply step_supervisor, s_take_scan; reflexivity|].
  eapply rtc_l; [eapply step_supervisor, (s_register_coordinator _ 5); [reflexivity|discriminate|vm_compute; reflexivity]|].
  eapply rtc_l; [eapply step_supervisor, (s_coordinator_started _ 5 0); [reflexivity|by eexists]|].
  eapply rtc_l; [eapply step_coordinator, (c_begin_coordinator _ 0 5 200 3); vm_compute; reflexivity|].
  eapply rtc_l; [eapply step_coordinator, (c_reconcile _ 0 5 example_catalog);
    [vm_compute; reflexivity|repeat constructor; vm_compute; discriminate|vm_compute; reflexivity]|].
  eapply rtc_l; [eapply step_coordinator, (c_coordinator_exit _ 0 5 _ 1); [vm_compute; reflexivity|left; discriminate]|].
  eapply rtc_l; [eapply step_supervisor, (s_register_coordinator _ 5); [reflexivity|discriminate|vm_compute; reflexivity]|].
  eapply rtc_l; [eapply step_supervisor, (s_coordinator_started _ 5 1); [reflexivity|by eexists]|].
  eapply rtc_l; [eapply step_coordinator, (c_coordinator_never_ran _ 1 5); vm_compute; reflexivity|].
  vm_compute. apply rtc_refl.
Qed.
