(* ===== verification/WorkerScheduler.v ===== *)
(** * Supervisor scheduling

    The supervisor's queue of databases to start coordinators for
    (lagodb-base/src/worker/scheduler.rs) and the parts of the supervisor loop that
    drive it (supervisor.rs).

    Instants are nanoseconds. The iteration order of a [HashMap] or [HashSet] is a
    parameter, known only to visit every element once. *)
From stdpp Require Import base list gmap.
From Stdlib Require Import ZArith Lia.
From S2P Require Import Prelude Bytes WorkerSlot WorkerStore.
Open Scope Z_scope.

Inductive DatabaseSchedule := SIdle | SPending | SRetryAt (not_before : Z).

#[export] Instance DatabaseSchedule_eq_dec : EqDecision DatabaseSchedule.
Proof. solve_decision. Defined.

Record Scheduler := mkScheduler {
  pending : list Z;
  databases : gmap Z DatabaseSchedule;
}.

Definition scheduler_new : Scheduler := mkScheduler [] ∅.

Definition enqueue (sch : Scheduler) (database_oid : Z) : Scheduler :=
  if database_oid =? INVALID_OID then sch
  else
    match databases sch !! database_oid with
    | Some SIdle =>
        mkScheduler (pending sch ++ [database_oid]) (<[database_oid := SPending]> (databases sch))
    | _ => sch
    end.

Definition defer_retry (sch : Scheduler) (database_oid now delay : Z) : Scheduler :=
  mkScheduler (filter (λ queued, queued ≠ database_oid) (pending sch))
    (alter (λ _, SRetryAt (now + delay)) database_oid (databases sch)).

Definition scheduler_len (sch : Scheduler) : nat := length (pending sch).

(** [None] is the panic of the [expect]. *)
Definition pop_front (sch : Scheduler) : option (option Z * Scheduler) :=
  match pending sch with
  | [] => Some (None, sch)
  | database_oid :: rest =>
      match databases sch !! database_oid with
      | Some _ => Some (Some database_oid, mkScheduler rest (<[database_oid := SIdle]> (databases sch)))
      | None => None
      end
  end.

Definition next_deadline_delay (sch : Scheduler) (now : Z) : option Z :=
  foldr (λ '(_, schedule) acc,
    match schedule with
    | SRetryAt deadline => min_delay (Some (Z.max (deadline - now) 0)) acc
    | _ => acc
    end) None (map_to_list (databases sch)).

(** What the supervisor does with an attempt to start a coordinator. *)
Inductive CoordinatorStart := Started | AlreadyActive | NoWork | Deferred | RetrySoon | Failed.

#[export] Instance CoordinatorStart_eq_dec : EqDecision CoordinatorStart.
Proof. solve_decision. Defined.

Definition capacity_retry : Z := from_millis 100.
Definition SUPERVISOR_ERROR_RETRY : Z := from_millis 5000.

(** The loop of [start_pending_coordinators]: [attempts] rounds of a pop and an
    attempt, with the databases attempted. *)
Fixpoint start_pending (try_start : Z → CoordinatorStart) (now : Z) (attempts : nat) (sch : Scheduler)
    : option (list Z * Scheduler) :=
  match attempts with
  | O => Some ([], sch)
  | S attempts' =>
      popped ← pop_front sch;
      match popped with
      | (None, sch) => Some ([], sch)
      | (Some database_oid, sch) =>
          let continue sch :=
            rest ← start_pending try_start now attempts' sch;
            Some (database_oid :: fst rest, snd rest) in
          match try_start database_oid with
          | Started | AlreadyActive | NoWork => continue sch
          | Deferred => continue (enqueue sch database_oid)
          | RetrySoon => Some ([database_oid], defer_retry sch database_oid now capacity_retry)
          | Failed => Some ([database_oid], defer_retry sch database_oid now SUPERVISOR_ERROR_RETRY)
          end
      end
  end.

Definition start_pending_coordinators (try_start : Z → CoordinatorStart) (now : Z) (sch : Scheduler)
    : option (list Z * Scheduler) :=
  start_pending try_start now (scheduler_len sch) sch.

Definition next_wait_timeout (sch : Scheduler) (now naptime reconcile_interval elapsed : Z) : Z :=
  let timeout := match next_deadline_delay sch now with Some d => Z.min naptime d | None => naptime end in
  Z.min timeout (Z.max (reconcile_interval - elapsed) 0).

Section hash_order.
Context (hash_order : list Z → list Z).

Definition due_retries (sch : Scheduler) (now : Z) : list Z :=
  hash_order (fst <$> filter (λ '(_, schedule),
    match schedule with SRetryAt not_before => not_before <=? now | _ => false end = true)
    (map_to_list (databases sch))).

Definition promote_due_retries (sch : Scheduler) (now : Z) : Scheduler :=
  foldl (λ sch database_oid,
    mkScheduler (pending sch ++ [database_oid]) (<[database_oid := SPending]> (databases sch)))
    sch (due_retries sch now).

Definition reconcile_live (sch : Scheduler) (live : gset Z) : list Z * Scheduler :=
  let kept := filter (λ '(database_oid, _), database_oid ∈ live) (databases sch) in
  let discovered := filter (λ database_oid, kept !! database_oid = None) (hash_order (elements live)) in
  (discovered,
   mkScheduler (filter (λ database_oid, database_oid ∈ live) (pending sch))
     (foldl (λ m database_oid, <[database_oid := SIdle]> m) kept discovered)).

(** [scan] is the catalog snapshot, the live databases and the candidates, or the
    failure to read it. *)
Definition reconcile_database_list (st : Store) (sch : Scheduler) (probe_all : bool)
    (scan : option (gset Z * gset Z)) : Store * Scheduler :=
  match scan with
  | None =>
      (snd (request_full_rescan st),
       foldl enqueue sch (hash_order (elements (all_worker_databases st))))
  | Some (live, candidates) =>
      let '(discovered, sch) := reconcile_live sch candidates in
      let scheduled :=
        if probe_all then hash_order (elements candidates)
        else filter (λ database_oid, database_oid ∈ candidates)
               (hash_order (elements (all_worker_databases st))) ++ discovered in
      (remove_dropped_databases st live, foldl enqueue sch scheduled)
  end.
End hash_order.

(** ** The queue *)

(** The queue holds exactly the databases marked pending, each once, and never the
    invalid database. *)
Record scheduler_wf (sch : Scheduler) : Prop := {
  wf_nodup : NoDup (pending sch);
  wf_pending : ∀ db, db ∈ pending sch ↔ databases sch !! db = Some SPending;
  wf_invalid : databases sch !! INVALID_OID = None ∨ databases sch !! INVALID_OID = Some SIdle;
}.

Lemma scheduler_new_wf : scheduler_wf scheduler_new.
Proof.
  constructor; cbn; [constructor| |by left]. intros db. rewrite lookup_empty. split; [by intros ?%elem_of_nil | done].
Qed.

Lemma wf_pending_valid sch db : scheduler_wf sch → db ∈ pending sch → db ≠ INVALID_OID.
Proof. intros [_ Hp Hi] Hin%Hp ->. destruct Hi; congruence. Qed.

(** Marks an unqueued database pending and queues it. *)
Lemma push_wf sch db :
  scheduler_wf sch → db ≠ INVALID_OID → db ∉ pending sch →
  scheduler_wf (mkScheduler (pending sch ++ [db]) (<[db := SPending]> (databases sch))).
Proof.
  intros [Hn Hp Hi] Hdb Hnot. constructor; cbn.
  - apply NoDup_app. split_and!; [done| |apply NoDup_singleton]. intros x Hx ->%list_elem_of_singleton. done.
  - intros x. rewrite elem_of_app, list_elem_of_singleton, lookup_insert, Hp. case_decide; [subst|]; naive_solver.
  - rewrite lookup_insert_ne by done. done.
Qed.

Lemma enqueue_wf sch db : scheduler_wf sch → scheduler_wf (enqueue sch db).
Proof.
  intros Hwf. unfold enqueue. destruct (Z.eqb_spec db INVALID_OID); [done|].
  destruct (databases sch !! db) as [[]|] eqn:E; try done. apply push_wf; [done|done|].
  intros Hin%(wf_pending _ Hwf). congruence.
Qed.

Lemma enqueue_all_wf dbs sch : scheduler_wf sch → scheduler_wf (foldl enqueue sch dbs).
Proof. revert sch. induction dbs; cbn; [done|]. intros sch Hwf. auto using enqueue_wf. Qed.

Lemma pop_front_wf sch db rest :
  scheduler_wf sch → pending sch = db :: rest →
  let sch' := mkScheduler rest (<[db := SIdle]> (databases sch)) in
  pop_front sch = Some (Some db, sch') ∧ scheduler_wf sch'.
Proof.
  intros Hwf Hl. pose proof Hwf as [Hn Hp Hi]. cbv zeta. unfold pop_front. rewrite Hl.
  assert (Hin : databases sch !! db = Some SPending) by (apply Hp; rewrite Hl; set_solver).
  rewrite Hin. split; [done|]. rewrite Hl in Hn. apply NoDup_cons in Hn as [Hnot Hn]. constructor; cbn; [done| |].
  - intros x. rewrite lookup_insert. case_decide as E.
    + subst x. split; [done|]. intros [=].
    + rewrite <- Hp, Hl, elem_of_cons. naive_solver.
  - rewrite lookup_insert_ne; [done|]. eapply wf_pending_valid; [done|]. rewrite Hl. set_solver.
Qed.

Lemma defer_retry_wf sch db now delay :
  scheduler_wf sch → db ≠ INVALID_OID → scheduler_wf (defer_retry sch db now delay).
Proof.
  intros [Hn Hp Hi] Hdb. constructor; cbn.
  - by apply NoDup_filter.
  - intros x. rewrite list_elem_of_filter, lookup_alter, Hp. case_decide; [subst|naive_solver].
    split; [naive_solver|]. by destruct (databases sch !! x).
  - rewrite lookup_alter_ne by done. done.
Qed.

(** ** One round of coordinator starts *)

Definition gives_up (r : CoordinatorStart) : bool := match r with RetrySoon | Failed => true | _ => false end.

(** The databases a round attempts, up to the first failure, and those it leaves. *)
Fixpoint attempted (try_start : Z → CoordinatorStart) (l : list Z) : list Z :=
  match l with
  | [] => []
  | db :: rest => if gives_up (try_start db) then [db] else db :: attempted try_start rest
  end.

Fixpoint untried (try_start : Z → CoordinatorStart) (l : list Z) : list Z :=
  match l with
  | [] => []
  | db :: rest => if gives_up (try_start db) then rest else untried try_start rest
  end.

Definition deferred (try_start : Z → CoordinatorStart) (l : list Z) : list Z :=
  filter (λ db, try_start db = Deferred) l.

Lemma start_pending_defer now db l acc sch delay :
  scheduler_wf sch → pending sch = db :: l ++ acc →
  let sch' := defer_retry (mkScheduler (l ++ acc) (<[db := SIdle]> (databases sch))) db now delay in
  scheduler_wf sch' ∧ pending sch' = l ++ acc.
Proof.
  intros Hwf Hl. destruct (pop_front_wf sch db (l ++ acc) Hwf Hl) as [_ Hwf']. cbv zeta.
  split; [apply defer_retry_wf; [done|]; apply (wf_pending_valid sch db); [done|]; rewrite Hl; set_solver|].
  cbn. apply filter_id. pose proof (wf_nodup _ Hwf) as Hn. rewrite Hl in Hn. apply NoDup_cons in Hn as [Hnot _].
  apply Forall_forall. by intros x Hx ->.
Qed.

Lemma enqueue_popped sch db l :
  scheduler_wf sch → pending sch = db :: l →
  let sch' := enqueue (mkScheduler l (<[db := SIdle]> (databases sch))) db in
  scheduler_wf sch' ∧ pending sch' = l ++ [db].
Proof.
  intros Hwf Hl. destruct (pop_front_wf sch db l Hwf Hl) as [_ Hwf']. cbv zeta.
  split; [by apply enqueue_wf|]. unfold enqueue.
  assert (Hdb : db ≠ INVALID_OID) by (apply (wf_pending_valid sch db); [done|]; rewrite Hl; set_solver).
  destruct (Z.eqb_spec db INVALID_OID); [done|]. cbn. by rewrite lookup_insert_eq.
Qed.

Lemma start_pending_spec try_start now l acc sch :
  scheduler_wf sch → pending sch = l ++ acc →
  ∃ sch', start_pending try_start now (length l) sch = Some (attempted try_start l, sch')
    ∧ scheduler_wf sch'
    ∧ pending sch' = untried try_start l ++ acc ++ deferred try_start (attempted try_start l).
Proof.
  revert acc sch. induction l as [|db l IH]; intros acc sch Hwf Hl.
  { exists sch. cbn. by rewrite app_nil_r. }
  destruct (pop_front_wf sch db (l ++ acc) Hwf Hl) as [Hpop Hwf']. cbn [length start_pending]. rewrite Hpop.
  cbn [mbind option_bind].
  assert (Hgo : ∀ sch1 acc1, scheduler_wf sch1 → pending sch1 = l ++ acc1 → gives_up (try_start db) = false →
    acc1 ++ deferred try_start (attempted try_start l) = acc ++ deferred try_start (db :: attempted try_start l) →
    ∃ sch', (rest ← start_pending try_start now (length l) sch1; Some (db :: fst rest, snd rest))
      = Some (attempted try_start (db :: l), sch') ∧ scheduler_wf sch'
      ∧ pending sch' = untried try_start (db :: l) ++ acc ++ deferred try_start (attempted try_start (db :: l))).
  { intros sch1 acc1 Hwf1 Hl1 Hg Hacc. destruct (IH acc1 sch1 Hwf1 Hl1) as (sch' & E & Hwf2 & Hp).
    exists sch'. rewrite E. cbn [attempted untried]. rewrite Hg. split_and!; [done|done|].
    by rewrite <- Hacc, Hp. }
  assert (Hnd : try_start db ≠ Deferred → deferred try_start (db :: attempted try_start l)
    = deferred try_start (attempted try_start l)) by (intros; by apply filter_cons_False).
  destruct (try_start db) eqn:E; cbn [gives_up] in *.
  1-3: by apply (Hgo _ acc); [done|done|done|rewrite Hnd by congruence].
  - destruct (enqueue_popped sch db (l ++ acc) Hwf Hl) as [Hwf1 Hl1].
    apply (Hgo _ (acc ++ [db])); [done|by rewrite Hl1, app_assoc|done|].
    unfold deferred at 2. rewrite filter_cons_True by done. by rewrite <- app_assoc.
  - destruct (start_pending_defer now db l acc sch capacity_retry Hwf Hl) as [Hwf1 Hl1].
    unfold deferred. cbn [attempted untried]. rewrite E. cbn [gives_up]. eexists. split_and!; [done|done|].
    rewrite filter_cons_False by congruence. by rewrite Hl1, app_nil_r.
  - destruct (start_pending_defer now db l acc sch SUPERVISOR_ERROR_RETRY Hwf Hl) as [Hwf1 Hl1].
    unfold deferred. cbn [attempted untried]. rewrite E. cbn [gives_up]. eexists. split_and!; [done|done|].
    rewrite filter_cons_False by congruence. by rewrite Hl1, app_nil_r.
Qed.

(** ** Candidate snapshots and retries *)

Section scheduler.
Context (hash_order : list Z → list Z) (Hperm : ∀ l, hash_order l ≡ₚ l).

Lemma due_retries_spec sch now :
  NoDup (due_retries hash_order sch now)
  ∧ ∀ db, db ∈ due_retries hash_order sch now →
      ∃ t, databases sch !! db = Some (SRetryAt t) ∧ t ≤ now.
Proof.
  unfold due_retries. rewrite Hperm. split.
  - apply NoDup_fmap_fst; [|apply NoDup_filter, NoDup_map_to_list].
    intros db s s' [_ H1%elem_of_map_to_list]%list_elem_of_filter [_ H2%elem_of_map_to_list]%list_elem_of_filter.
    congruence.
  - intros db. rewrite Hperm, list_elem_of_fmap.
    intros ([db' s] & -> & [Hs Hin%elem_of_map_to_list]%list_elem_of_filter). cbn.
    destruct s as [| |t]; [done..|]. exists t. split; [done|]. by apply Z.leb_le.
Qed.

Lemma push_all_wf dbs sch :
  scheduler_wf sch → NoDup dbs → (∀ db, db ∈ dbs → ∃ t, databases sch !! db = Some (SRetryAt t)) →
  scheduler_wf (foldl (λ sch db, mkScheduler (pending sch ++ [db]) (<[db := SPending]> (databases sch))) sch dbs).
Proof.
  revert sch. induction dbs as [|db dbs IH]; intros sch Hwf Hnd Hdue; [done|].
  apply NoDup_cons in Hnd as [Hnot Hnd]. destruct (Hdue db) as [t Ht]; [set_solver|].
  cbn [foldl]. apply IH; [|done|].
  - apply push_wf; [done| |].
    + intros ->. destruct (wf_invalid _ Hwf); congruence.
    + intros Hin%(wf_pending _ Hwf). congruence.
  - intros x Hx. cbn. rewrite lookup_insert_ne; [apply Hdue; set_solver|]. by intros ->.
Qed.

Lemma promote_wf sch now : scheduler_wf sch → scheduler_wf (promote_due_retries hash_order sch now).
Proof.
  intros Hwf. destruct (due_retries_spec sch now) as [Hnd Hdue]. apply push_all_wf; [done|done|].
  intros db Hdb. destruct (Hdue db Hdb) as (t & Ht & _). eauto.
Qed.

Lemma insert_idle_lookup dbs (m : gmap Z DatabaseSchedule) db :
  foldl (λ m db, <[db := SIdle]> m) m dbs !! db = if decide (db ∈ dbs) then Some SIdle else m !! db.
Proof.
  revert m. induction dbs as [|x dbs IH]; intros m; cbn [foldl].
  { rewrite decide_False; [done|]. apply not_elem_of_nil. }
  rewrite IH, lookup_insert. destruct (decide (db ∈ dbs)), (decide (x = db)), (decide (db ∈ x :: dbs)); set_solver.
Qed.

(** The candidates of a snapshot: the known ones keep their schedule, new ones are idle. *)
Lemma reconcile_live_databases sch live db :
  databases (snd (reconcile_live hash_order sch live)) !! db =
    if decide (db ∈ live) then Some (default SIdle (databases sch !! db)) else None.
Proof.
  unfold reconcile_live. cbn. rewrite insert_idle_lookup, map_lookup_filter.
  assert (Hin : db ∈ hash_order (elements live) ↔ db ∈ live) by (rewrite Hperm; apply elem_of_elements).
  case_decide as H; rewrite list_elem_of_filter, map_lookup_filter, Hin in H.
  - destruct H as [H1 H2]. rewrite decide_True by done. destruct (databases sch !! db); cbn in *; [|done].
    case_guard; [done|by destruct H1]. 
  - destruct (decide (db ∈ live)) as [Hl|Hl]; destruct (databases sch !! db) as [s|]; cbn in *; try done.
    + by rewrite option_guard_True.
    + naive_solver.
    + by rewrite option_guard_False.
Qed.

Lemma reconcile_live_wf sch live : scheduler_wf sch → scheduler_wf (snd (reconcile_live hash_order sch live)).
Proof.
  intros [Hn Hp Hi]. constructor.
  - by apply NoDup_filter.
  - intros db. rewrite reconcile_live_databases. cbn. rewrite list_elem_of_filter, Hp.
    case_decide; [|naive_solver]. destruct (databases sch !! db) as [[]|]; cbn; naive_solver.
  - rewrite reconcile_live_databases. case_decide; [|by left]. right. by destruct Hi as [->| ->].
Qed.

Lemma reconcile_database_list_wf st sch probe_all scan :
  scheduler_wf sch → scheduler_wf (snd (reconcile_database_list hash_order st sch probe_all scan)).
Proof.
  intros Hwf. destruct scan as [[live candidates]|]; cbn [reconcile_database_list snd].
  - pose proof (reconcile_live_wf sch candidates Hwf) as Hwf'.
    destruct (reconcile_live hash_order sch candidates) as [discovered sch']. by apply enqueue_all_wf.
  - by apply enqueue_all_wf.
Qed.

(** The turns of the supervisor loop that touch the scheduler. *)
Inductive turn :=
  | TPromote (now : Z)
  | TScan (st : Store) (probe_all : bool) (scan : option (gset Z * gset Z))
  | TEnqueue (database_oid : Z)
  | TStart (try_start : Z → CoordinatorStart) (now : Z).

Definition take_turn (sch : Scheduler) (t : turn) : option Scheduler :=
  match t with
  | TPromote now => Some (promote_due_retries hash_order sch now)
  | TScan st probe_all scan => Some (snd (reconcile_database_list hash_order st sch probe_all scan))
  | TEnqueue db => Some (enqueue sch db)
  | TStart try_start now => r ← start_pending_coordinators try_start now sch; Some (snd r)
  end.

Definition take_turns (sch : Scheduler) (ts : list turn) : option Scheduler :=
  foldl (λ o t, sch ← o; take_turn sch t) (Some sch) ts.

Lemma start_round sch try_start now :
  scheduler_wf sch →
  ∃ sch', start_pending_coordinators try_start now sch = Some (attempted try_start (pending sch), sch')
    ∧ scheduler_wf sch'
    ∧ pending sch' = untried try_start (pending sch) ++ deferred try_start (attempted try_start (pending sch)).
Proof.
  intros Hwf. apply (start_pending_spec try_start now (pending sch) [] sch Hwf). by rewrite app_nil_r.
Qed.

Lemma take_turns_wf ts sch : scheduler_wf sch → ∃ sch', take_turns sch ts = Some sch' ∧ scheduler_wf sch'.
Proof.
  unfold take_turns. revert sch. induction ts as [|t ts IH]; intros sch Hwf; [by exists sch|].
  cbn [foldl mbind option_bind].
  assert (Ht : ∃ sch1, take_turn sch t = Some sch1 ∧ scheduler_wf sch1).
  { destruct t as [now|st probe scan|db|try_start now]; cbn.
    - eauto using promote_wf.
    - eauto using reconcile_database_list_wf.
    - eauto using enqueue_wf.
    - destruct (start_round sch try_start now Hwf) as (sch' & -> & Hwf' & _). by exists sch'. }
  destruct Ht as (sch1 & -> & Hwf1). by apply IH.
Qed.

(** C32. However the supervisor's turns follow one another, and in whatever order its
    hash maps are iterated, its queue holds exactly the databases marked pending, each
    once; taking a database from it never meets one outside the candidate snapshot;
    and a round of starts ends after attempting each queued database at most once, in
    order, up to the first failure: the databases it did not reach and those that
    deferred stay queued, and the failed one is out of the queue until its retry. *)
Theorem scheduler_turns ts try_start now :
  ∃ sch, take_turns scheduler_new ts = Some sch ∧ scheduler_wf sch
    ∧ ∃ sch', start_pending_coordinators try_start now sch = Some (attempted try_start (pending sch), sch')
      ∧ scheduler_wf sch' ∧ NoDup (attempted try_start (pending sch))
      ∧ pending sch' = untried try_start (pending sch) ++ deferred try_start (attempted try_start (pending sch)).
Proof.
  destruct (take_turns_wf ts scheduler_new scheduler_new_wf) as (sch & E & Hwf). exists sch.
  split_and!; [done|done|]. destruct (start_round sch try_start now Hwf) as (sch' & E' & Hwf' & Hp).
  exists sch'. split_and!; [done|done| |done]. pose proof (wf_nodup _ Hwf) as Hn. revert Hn. clear.
  induction (pending sch) as [|db l IH]; cbn [attempted]; [done|]. intros [Hnot Hn]%NoDup_cons.
  case_match; [apply NoDup_singleton|]. apply NoDup_cons. split; [|auto]. revert Hnot. clear.
  induction l as [|x l IH]; cbn [attempted]; [done|]. case_match; set_solver.
Qed.

Lemma enqueue_databases sch db x :
  databases (enqueue sch db) !! x =
    if decide (x = db ∧ db ≠ INVALID_OID ∧ databases sch !! db = Some SIdle) then Some SPending
    else databases sch !! x.
Proof.
  unfold enqueue. destruct (Z.eqb_spec db INVALID_OID) as [->|Hdb]; [rewrite decide_False; naive_solver|].
  destruct (databases sch !! db) as [[]|] eqn:E; try (rewrite decide_False; naive_solver). cbn.
  rewrite lookup_insert. repeat case_decide; naive_solver.
Qed.

(** Enqueueing a list leaves no listed database idle. *)
Lemma enqueue_all_scheduled dbs sch db s :
  db ≠ INVALID_OID → databases sch !! db = Some s → db ∈ dbs ∨ s ≠ SIdle →
  ∃ s', databases (foldl enqueue sch dbs) !! db = Some s' ∧ s' ≠ SIdle.
Proof.
  intros Hdb. revert sch s. induction dbs as [|x dbs IH]; intros sch s Hs Hin; cbn [foldl].
  { exists s. split; [done|]. destruct Hin as [Hin|?]; [by apply elem_of_nil in Hin|done]. }
  pose proof (enqueue_databases sch x db) as E. case_decide as H.
  - destruct H as (-> & _ & _). apply (IH _ _ E). by right.
  - rewrite Hs in E. apply (IH _ _ E). destruct Hin as [[->|?]%elem_of_cons|?]; [|by left|by right].
    right. intros ->. by destruct H.
Qed.

Lemma enqueue_all_unknown dbs sch db :
  databases sch !! db = None → databases (foldl enqueue sch dbs) !! db = None.
Proof.
  revert sch. induction dbs as [|x dbs IH]; intros sch Hs; cbn [foldl]; [done|]. apply IH.
  rewrite enqueue_databases. case_decide; [naive_solver|done].
Qed.

Lemma removed_workers st live k s :
  workers (remove_dropped_databases st live) !! k = Some s → Slot.database_oid s ∉ live →
  Slot.has_active_process s = true ∧ Slot.registration_state s = Removing.
Proof.
  cbn. rewrite lookup_omap. intros (s0 & Hs0 & Hr)%bind_Some Hout. unfold reap_worker in Hr.
  destruct (negb _) eqn:E; cycle 1.
  { injection Hr as <-. by rewrite bool_decide_eq_false_2 in E. }
  destruct (Slot.has_active_process s0) eqn:Ha; [|done]. injection Hr as <-.
  destruct (request_stop_fields (Slot.with_registration s0 Removing)) as (E1 & E2 & _).
  unfold Slot.mark_removing. by rewrite E1, E2.
Qed.

(** A full scan schedules every candidate: after the supervisor has read the
    database catalog with an explicit scan request, each candidate database is queued
    or waits for its retry, no other database is known to the scheduler, and what the
    shared store keeps of workers of dropped databases is being removed and only waits
    for a process to exit. *)
Theorem full_scan_schedules st sch live candidates db :
  scheduler_wf sch → db ≠ INVALID_OID →
  let '(st', sch') := reconcile_database_list hash_order st sch true (Some (live, candidates)) in
  (db ∈ candidates → db ∈ pending sch' ∨ ∃ t, databases sch' !! db = Some (SRetryAt t))
  ∧ (db ∉ candidates → databases sch' !! db = None)
  ∧ ∀ k s, workers st' !! k = Some s → Slot.database_oid s ∉ live →
      Slot.has_active_process s = true ∧ Slot.registration_state s = Removing.
Proof.
  intros Hwf Hdb. cbn [reconcile_database_list]. pose proof (reconcile_live_databases sch candidates db) as Hd.
  pose proof (reconcile_live_wf sch candidates Hwf) as Hwf'.
  destruct (reconcile_live hash_order sch candidates) as [discovered sch1]. cbn in Hd, Hwf'. split_and!.
  - intros Hin. rewrite decide_True in Hd by done.
    destruct (enqueue_all_scheduled (hash_order (elements candidates)) sch1 db _ Hdb Hd) as (s' & Hs' & Hne).
    { left. rewrite Hperm. by apply elem_of_elements. }
    destruct s' as [| |t]; [done| |eauto]. left. by apply (wf_pending _ (enqueue_all_wf _ _ Hwf')).
  - intros Hout. rewrite decide_False in Hd by done. by apply enqueue_all_unknown.
  - apply removed_workers.
Qed.
End scheduler.

Definition example_turns : list turn :=
  [TScan store_init true (Some ({[5; 6]}, {[5; 6]})); TStart (λ db, if db =? 5 then Deferred else Failed) 1000;
   TPromote 6000000000].

Lemma scheduler_turns_witness :
  ∃ sch, take_turns id scheduler_new example_turns = Some sch ∧ NoDup (pending sch) ∧ pending sch = [5; 6].
Proof.
  destruct (scheduler_turns id (λ l, Permutation_refl l) example_turns (λ _, Started) 0)
    as (sch & E & Hwf & _).
  exists sch. split; [exact E|]. split; [apply (wf_nodup _ Hwf)|].
  vm_compute in E. injection E as <-. reflexivity.
Defined.

Lemma full_scan_schedules_witness :
  databases (snd (reconcile_database_list id store_init scheduler_new true (Some ({[5; 6]}, {[5]})))) !! 6 = None.
Proof.
  pose proof (full_scan_schedules id (λ l, Permutation_refl l) store_init scheduler_new {[5; 6]} {[5]} 6
                scheduler_new_wf ltac:(discriminate)) as H.
  destruct (reconcile_database_list id store_init scheduler_new true (Some ({[5; 6]}, {[5]}))) as [st' sch'] eqn:E.
  destruct H as (_ & H & _). apply H. apply (bool_decide_unpack _). vm_compute. exact I.
Defined.
