(* ===== verification/WorkerActions.v ===== *)
(** * Runtime actions staged by transactions

    lagodb-base/src/worker/lifecycle.rs: the wake-ups, reconciliations and rescans a
    transaction asks of the worker runtime are staged in the backend, follow its
    savepoints, and are applied to the shared store when it ends. With them, the
    packing of a worker's key into the argument of its background process
    (bgworker.rs). *)
From stdpp Require Import base list gmap.
From Stdlib Require Import ZArith Lia.
From S2P Require Import Prelude Bytes WorkerSlot WorkerStore.
Open Scope Z_scope.

Inductive PendingActionKind :=
  | Wake (key : WorkerKey)
  | ReconcileDatabase
  | WakeDatabaseWorkers
  | DropDatabase
  | RescanAll.

#[export] Instance PendingActionKind_eq_dec : EqDecision PendingActionKind.
Proof. solve_decision. Defined.

Record PendingAction := mkAction {
  act_database_oid : Z;
  nest_level : Z;
  kind : PendingActionKind;
}.

Definition same_action (left right : PendingActionKind) : bool :=
  match left, right with
  | Wake a, Wake b => bool_decide (a = b)
  | ReconcileDatabase, ReconcileDatabase
  | WakeDatabaseWorkers, WakeDatabaseWorkers
  | DropDatabase, DropDatabase
  | RescanAll, RescanAll => true
  | _, _ => false
  end.

Abbreviation PendingActions := (list PendingAction).

Definition record (actions : PendingActions) (database_oid level : Z) (k : PendingActionKind) : PendingActions :=
  if existsb (λ a, (act_database_oid a =? database_oid) && (nest_level a =? level) && same_action (kind a) k)
       actions
  then actions else actions ++ [mkAction database_oid level k].

(** What survives of an aborted action, for the parent level. *)
Definition salvage (parent_level : Z) (actions : PendingActions) (a : PendingAction) : PendingActions :=
  match kind a with
  | ReconcileDatabase => record actions (act_database_oid a) parent_level ReconcileDatabase
  | WakeDatabaseWorkers => actions
  | RescanAll => record actions (act_database_oid a) parent_level RescanAll
  | DropDatabase =>
      record (record actions (act_database_oid a) parent_level ReconcileDatabase)
        INVALID_OID parent_level RescanAll
  | Wake _ => actions
  end.

Definition abort_subtransaction (actions : PendingActions) (level : Z) : PendingActions :=
  let aborted := filter (λ a, level ≤ nest_level a) actions in
  let kept := filter (λ a, ¬ level ≤ nest_level a) actions in
  foldl (salvage (level - 1)) kept aborted.

Definition commit_subtransaction (actions : PendingActions) (level : Z) : PendingActions :=
  (λ a, if level <=? nest_level a then mkAction (act_database_oid a) (level - 1) (kind a) else a) <$> actions.

(** Whether the supervisor must be woken, the signals sent, and the store. *)
Definition apply_action (st : Store) (a : PendingAction) (committed : bool) : bool * list Signal * Store :=
  match kind a, committed with
  | Wake worker, true => wake_worker st worker
  | Wake _, false => (false, [], st)
  | ReconcileDatabase, _ => request_database_reconcile st (act_database_oid a)
  | WakeDatabaseWorkers, true => wake_database_workers st (act_database_oid a)
  | WakeDatabaseWorkers, false => (false, [], st)
  | DropDatabase, true => let '(w, st) := request_full_rescan st in (w, [], st)
  | DropDatabase, false =>
      let '(w1, sent, st) := request_database_reconcile st (act_database_oid a) in
      let '(w2, st) := request_full_rescan st in (w1 || w2, sent, st)
  | RescanAll, _ => let '(w, st) := request_full_rescan st in (w, [], st)
  end.

(** [PendingActions::apply]: the staged actions in order. *)
Definition apply (st : Store) (actions : PendingActions) (committed : bool) : bool * list Signal * Store :=
  foldl (λ '(wake, sent, st) a,
           let '(w, more, st) := apply_action st a committed in (wake || w, sent ++ more, st))
    (false, [], st) actions.

(** The end of the transaction: the signals sent, the supervisor's last, and the
    store. *)
Definition end_transaction (st : Store) (actions : PendingActions) (committed : bool) : list Signal * Store :=
  let '(wake, sent, st) := apply st actions committed in
  (sent ++ if wake : bool then signal_supervisor st else [], st).

(** ** Backend *)

(** A backend in a transaction: its nesting level and its staged actions. *)
Record backend := mkBackend { level : Z; staged : PendingActions }.

Definition backend_begin : backend := mkBackend 1 [].

Inductive event :=
  | EStage (database_oid : Z) (k : PendingActionKind)
  | ESavepoint
  | ERollback
  | ERelease.

Definition backend_step (b : backend) (e : event) : backend :=
  match e with
  | EStage db k => mkBackend (level b) (record (staged b) db (level b) k)
  | ESavepoint => mkBackend (level b + 1) (staged b)
  | ERollback => mkBackend (level b - 1) (abort_subtransaction (staged b) (level b))
  | ERelease => mkBackend (level b - 1) (commit_subtransaction (staged b) (level b))
  end.

(** ** Specification: one set of requests per open scope *)

Abbreviation request := (Z * PendingActionKind)%type.

(** What an aborted scope still asks for: the reconciliations and rescans, because
    shared state may have been changed in anticipation of its commit. *)
Definition survivors (r : request) : list request :=
  match snd r with
  | ReconcileDatabase | RescanAll => [r]
  | DropDatabase => [(fst r, ReconcileDatabase); (INVALID_OID, RescanAll)]
  | Wake _ | WakeDatabaseWorkers => []
  end.

(** The innermost scope first; the last is the transaction's own. *)
Definition scope_step (scopes : list (list request)) (e : event) : list (list request) :=
  match e, scopes with
  | EStage db k, scope :: outer => ((db, k) :: scope) :: outer
  | ESavepoint, _ => [] :: scopes
  | ERollback, scope :: parent :: outer => (flat_map survivors scope ++ parent) :: outer
  | ERelease, scope :: parent :: outer => (scope ++ parent) :: outer
  | _, _ => scopes
  end.

(** Rollbacks and releases that have a savepoint to close. *)
Fixpoint events_ok (depth : nat) (es : list event) : bool :=
  match es with
  | [] => true
  | EStage _ _ :: es => events_ok depth es
  | ESavepoint :: es => events_ok (S depth) es
  | ERollback :: es | ERelease :: es =>
      match depth with O => false | S depth => events_ok depth es end
  end.

(** ** The staged actions are the requests of the open scopes *)

Lemma same_action_spec k k' : same_action k k' = true ↔ k = k'.
Proof.
  destruct k, k'; cbn; rewrite ?bool_decide_eq_true; split; intros; simplify_eq; done.
Qed.

Lemma record_elem actions db l k a :
  a ∈ record actions db l k ↔ a ∈ actions ∨ a = mkAction db l k.
Proof.
  unfold record. destruct (existsb _ actions) eqn:E; [|rewrite elem_of_app, list_elem_of_singleton; done].
  split; [by left|]. intros [?| ->]; [done|]. apply existsb_exists in E as ([db' l' k'] & Hin & H).
  cbn [act_database_oid nest_level kind] in H.
  apply andb_true_iff in H as [[->%Z.eqb_eq ->%Z.eqb_eq]%andb_true_iff ->%same_action_spec].
  by apply list_elem_of_In.
Qed.

Definition as_request (a : PendingAction) : request := (act_database_oid a, kind a).
Definition at_level (l : Z) (r : request) : PendingAction := mkAction (fst r) l (snd r).

Lemma at_level_inj l r l' r' : at_level l r = at_level l' r' → l = l' ∧ r = r'.
Proof. destruct r, r'. cbn. intros [= -> -> ->]. done. Qed.

Lemma as_at a : at_level (nest_level a) (as_request a) = a.
Proof. by destruct a. Qed.

Lemma salvage_elem l actions a a' :
  a' ∈ salvage l actions a ↔ a' ∈ actions ∨ a' ∈ at_level l <$> survivors (as_request a).
Proof.
  unfold salvage, survivors. destruct a as [db l' []]; cbn; rewrite ?record_elem; set_solver.
Qed.

Lemma salvage_all_elem l aborted actions a' :
  a' ∈ foldl (salvage l) actions aborted
  ↔ a' ∈ actions ∨ ∃ a, a ∈ aborted ∧ a' ∈ at_level l <$> survivors (as_request a).
Proof.
  revert actions. induction aborted as [|a aborted IH]; intros actions; cbn [foldl].
  { split; [by left|]. intros [?|(a & Ha & _)]; [done|]. by apply elem_of_nil in Ha. }
  rewrite IH, salvage_elem. set_solver.
Qed.

(** The scope of a nesting level. *)
Definition staged_as (b : backend) (scopes : list (list request)) : Prop :=
  level b = Z.of_nat (length scopes)
  ∧ ∀ l r, at_level l r ∈ staged b ↔ ∃ i scope, scopes !! i = Some scope ∧ l = level b - Z.of_nat i ∧ r ∈ scope.

Lemma staged_as_stage b scopes db k :
  staged_as b scopes → scopes ≠ [] → staged_as (backend_step b (EStage db k)) (scope_step scopes (EStage db k)).
Proof.
  intros [Hl Hs] Hne. destruct scopes as [|scope outer]; [done|]. split; [done|]. intros l r.
  cbn [backend_step staged level scope_step]. rewrite record_elem, Hs. split.
  - intros [(i & sc & Hi & -> & Hr)|E].
    + destruct i as [|i]; [|by exists (S i), sc]. exists 0%nat, ((db, k) :: scope). cbn in Hi. injection Hi as <-.
      split_and!; [done|done|set_solver].
    + exists 0%nat, ((db, k) :: scope). apply (at_level_inj l r (level b) (db, k)) in E as [-> ->].
      split_and!; [done|lia|set_solver].
  - intros (i & sc & Hi & -> & Hr). destruct i as [|i]; [|left; by exists (S i), sc].
    cbn in Hi. injection Hi as <-. apply elem_of_cons in Hr as [->|Hr]; [right|left].
    + by rewrite Z.sub_0_r.
    + by exists 0%nat, scope.
Qed.

Lemma staged_as_savepoint b scopes :
  staged_as b scopes → staged_as (backend_step b ESavepoint) (scope_step scopes ESavepoint).
Proof.
  intros [Hl Hs]. split; [cbn; lia|]. intros l r. cbn [backend_step staged level scope_step]. rewrite Hs. split.
  - intros (i & sc & Hi & -> & Hr). exists (S i), sc. split_and!; [done|lia|done].
  - intros (i & sc & Hi & -> & Hr). destruct i as [|i]; [injection Hi as <-; by apply elem_of_nil in Hr|].
    exists i, sc. split_and!; [done|lia|done].
Qed.

(** Closing the innermost scope: what its actions become goes to the parent. *)
Lemma staged_as_close b scope parent outer actions (f : request → list request) :
  staged_as b (scope :: parent :: outer) →
  (∀ a, a ∈ actions ↔ (a ∈ staged b ∧ ¬ level b ≤ nest_level a)
     ∨ ∃ r, at_level (level b) r ∈ staged b ∧ a ∈ at_level (level b - 1) <$> f r) →
  staged_as (mkBackend (level b - 1) actions) ((flat_map f scope ++ parent) :: outer).
Proof.
  intros [Hl Hs] Ha. split; [cbn in *; lia|]. intros l r. cbn [staged level]. rewrite Ha, Hs. cbn. split.
  - intros [[(i & sc & Hi & -> & Hr) Hlt]|(r0 & Hr0 & (r1 & E & Hr1)%list_elem_of_fmap)].
    + destruct i as [|[|i]]; [lia|..]; cbn in Hi.
      * injection Hi as <-. exists 0%nat, (flat_map f scope ++ parent). split_and!; [done|lia|set_solver].
      * exists (S i), sc. split_and!; [done|lia|done].
    + apply at_level_inj in E as [-> ->]. apply Hs in Hr0 as (i & sc & Hi & E & Hr0).
      assert (i = 0%nat) as -> by lia. injection Hi as <-. exists 0%nat, (flat_map f scope ++ parent).
      split_and!; [done|lia|]. apply elem_of_app. left. apply list_elem_of_In, in_flat_map. exists r0.
      split; by apply list_elem_of_In.
  - intros (i & sc & Hi & -> & Hr). destruct i as [|i]; cbn in Hi.
    + injection Hi as <-. apply elem_of_app in Hr as [Hr|Hr].
      * right. apply list_elem_of_In, in_flat_map in Hr as (r0 & Hr0 & Hr). exists r0. split.
        -- apply Hs. exists 0%nat, scope. split_and!; [done|lia|by apply list_elem_of_In].
        -- apply list_elem_of_fmap. exists r. split; [f_equal; lia|by apply list_elem_of_In].
      * left. split; [|lia]. exists 1%nat, parent. split_and!; [done|lia|done].
    + left. split; [|lia]. exists (S (S i)), sc. split_and!; [done|lia|done].
Qed.

Lemma staged_level b scopes a : staged_as b scopes → a ∈ staged b → nest_level a ≤ level b.
Proof. intros [_ Hs] Ha. rewrite <- (as_at a) in Ha. apply Hs in Ha as (i & _ & _ & -> & _). lia. Qed.

Lemma staged_as_rollback b scope parent outer :
  staged_as b (scope :: parent :: outer) →
  staged_as (backend_step b ERollback) ((flat_map survivors scope ++ parent) :: outer).
Proof.
  intros Hb. apply (staged_as_close b scope parent outer); [done|]. intros a.
  unfold abort_subtransaction. rewrite salvage_all_elem, list_elem_of_filter.
  split; (intros [[? ?]|H]; [by left|right]).
  - destruct H as (a0 & [Hle Hin]%list_elem_of_filter & Ha). exists (as_request a0). split; [|done].
    pose proof (staged_level _ _ _ Hb Hin). replace (level b) with (nest_level a0) by lia. by rewrite as_at.
  - destruct H as (r & Hr & Ha). exists (at_level (level b) r). split.
    + apply list_elem_of_filter. by split; [cbn; lia|].
    + by destruct r.
Qed.

Lemma staged_as_release b scope parent outer :
  staged_as b (scope :: parent :: outer) → staged_as (backend_step b ERelease) ((scope ++ parent) :: outer).
Proof.
  intros Hb. pose proof (staged_as_close b scope parent outer
    (commit_subtransaction (staged b) (level b)) (λ r, [r]) Hb) as H.
  replace (flat_map (λ r : request, [r]) scope) with scope in H
    by (clear; induction scope; cbn; [done|by f_equal]).
  apply H. intros a. unfold commit_subtransaction. rewrite list_elem_of_fmap. split.
  - intros (a0 & -> & Hin). pose proof (staged_level _ _ _ Hb Hin). destruct (Z.leb_spec (level b) (nest_level a0)).
    + right. exists (as_request a0). replace (level b) with (nest_level a0) by lia. rewrite as_at.
      split; [done|]. destruct a0. cbn. set_solver.
    + left. split; [done|lia].
  - intros [[Hin Hlt]|(r & Hr & ->%list_elem_of_singleton)].
    + exists a. split; [|done]. destruct (Z.leb_spec (level b) (nest_level a)); [done|done].
    + exists (at_level (level b) r). split; [|done]. cbn. by rewrite Z.leb_refl.
Qed.

(** C33. What a transaction has staged follows its savepoints: at every point, the
    actions held at a nesting level are exactly the requests of the scope open at that
    level, where releasing a savepoint hands its requests to the enclosing scope and
    rolling it back hands over only the reconciliations and rescans (a database drop
    turning into one of each) and forgets the wake-ups. *)
Theorem staged_follow_savepoints es :
  events_ok 0 es = true →
  let b := foldl backend_step backend_begin es in
  let scopes := foldl scope_step [[]] es in
  level b = Z.of_nat (length scopes)
  ∧ ∀ l r, at_level l r ∈ staged b ↔ ∃ i scope, scopes !! i = Some scope ∧ l = level b - Z.of_nat i ∧ r ∈ scope.
Proof.
  cbv zeta. change (level ?b = _ ∧ _) with (staged_as b (foldl scope_step [[]] es)).
  assert (Hgen : ∀ depth b scopes, events_ok depth es = true → staged_as b scopes → length scopes = S depth →
    staged_as (foldl backend_step b es) (foldl scope_step scopes es)).
  { induction es as [|e es IH]; intros depth b scopes Hok Hb Hd; [done|]. destruct e; cbn [events_ok foldl] in *.
    - apply (IH depth); [done|apply staged_as_stage; [done|by destruct scopes]|by destruct scopes].
    - apply (IH (S depth)); [done|by apply staged_as_savepoint|cbn; lia].
    - destruct depth as [|depth]; [done|]. destruct scopes as [|scope [|parent outer]]; [done..|].
      apply (IH depth); [done|by apply staged_as_rollback|cbn in *; lia].
    - destruct depth as [|depth]; [done|]. destruct scopes as [|scope [|parent outer]]; [done..|].
      apply (IH depth); [done|by apply staged_as_release|cbn in *; lia]. }
  intros Hok. apply (Hgen 0%nat); [done| |done]. split; [done|]. intros l r. cbn. split.
  - by intros ?%elem_of_nil.
  - intros (i & scope & Hi & _ & Hr). destruct i as [|[]]; [|done..]. injection Hi as <-. by apply elem_of_nil in Hr.
Qed.

Definition example_events : list event :=
  [EStage 5 (Wake (5, 7)); ESavepoint; EStage 5 (Wake (5, 8)); EStage 5 ReconcileDatabase; ERollback].

Lemma staged_follow_savepoints_witness :
  staged (foldl backend_step backend_begin example_events)
  = [mkAction 5 1 (Wake (5, 7)); mkAction 5 1 ReconcileDatabase]
  ∧ ∃ i scope, foldl scope_step [[]] example_events !! i = Some scope ∧ 1 = 1 - Z.of_nat i
      ∧ (5, ReconcileDatabase) ∈ scope.
Proof.
  split; [reflexivity|].
  destruct (staged_follow_savepoints example_events) as [_ H]; [reflexivity|].
  apply (H 1 (5, ReconcileDatabase)). vm_compute. do 2 constructor.
Defined.

(** ** The end of the transaction *)

(** The databases whose coordination an action asks for. *)
Definition asks_for (committed : bool) (a : PendingAction) : list Z :=
  match kind a with
  | Wake key => if committed then [fst key] else []
  | ReconcileDatabase => [act_database_oid a]
  | WakeDatabaseWorkers => if committed then [act_database_oid a] else []
  | DropDatabase => if committed then [] else [act_database_oid a]
  | RescanAll => []
  end.

(** Whether an action wakes the worker with key [k] and database [db]. *)
Definition wakes (committed : bool) (k : WorkerKey) (db : Z) (a : PendingAction) : bool :=
  match kind a with
  | Wake key => committed && bool_decide (k = key)
  | WakeDatabaseWorkers => committed && (db =? act_database_oid a)
  | _ => false
  end.

Definition asks_rescan (a : PendingAction) : bool :=
  match kind a with DropDatabase | RescanAll => true | _ => false end.

(** The databases asked for by a list of actions, in order. *)
Definition asked (committed : bool) (actions : PendingActions) : list Z :=
  filter (λ db, db ≠ INVALID_OID) (flat_map (asks_for committed) actions).

(** The latch of the coordinator that listens for [db], if one does. *)
Definition latch_of (st : Store) (db : Z) : list Signal :=
  match coordinators st !! db with
  | Some c => if Coord.proc_number c =? INVALID_PROC_NUMBER then [] else [Latch (Coord.proc_number c)]
  | None => []
  end.
Definition listening (st : Store) (db : Z) : bool := match latch_of st db with [] => false | _ => true end.

(** The supervisor has to act: a rescan is asked for, or a database without a
    listening coordinator. *)
Definition for_supervisor (st : Store) (committed : bool) (actions : PendingActions) : bool :=
  existsb asks_rescan actions || existsb (λ db, negb (listening st db)) (asked committed actions).

Definition requested (dbs : list Z) (cs : gmap Z Coord.t) : gmap Z Coord.t :=
  map_imap (λ db c, Some (if decide (db ∈ dbs) then Coord.request_restart c else c)) cs.
Definition roused (p : WorkerKey → Z → bool) (ws : gmap WorkerKey Slot.t) : gmap WorkerKey Slot.t :=
  map_imap (λ k s, Some (if p k (Slot.database_oid s) then Slot.request_wakeup s else s)) ws.

(** The store with the effect of [actions]. *)
Definition updated (st : Store) (committed : bool) (actions : PendingActions) : Store :=
  mkStore
    (mkShared (supervisor_pid (shared st)) (supervisor_proc_number (shared st))
       (rescan_all (shared st) || for_supervisor st committed actions))
    (requested (asked committed actions) (coordinators st))
    (roused (λ k db, existsb (wakes committed k db) actions) (workers st)).

(** *** One action *)

Lemma requested_none cs : requested [] cs = cs.
Proof.
  apply map_eq. intros db. unfold requested. rewrite map_lookup_imap. destruct (cs !! db); cbn; [|done].
  by rewrite decide_False by apply not_elem_of_nil.
Qed.

Lemma roused_ext p p' ws : (∀ k db, p k db = p' k db) → roused p ws = roused p' ws.
Proof.
  intros H. apply map_eq. intros k. unfold roused. rewrite !map_lookup_imap.
  destruct (ws !! k); cbn; [|done]. by rewrite H.
Qed.

Lemma roused_none ws : roused (λ _ _, false) ws = ws.
Proof. apply map_eq. intros k. unfold roused. rewrite map_lookup_imap. by destruct (ws !! k). Qed.

Lemma requested_one db c cs :
  cs !! db = Some c → requested [db] cs = <[db := Coord.request_restart c]> cs.
Proof.
  intros Hc. apply map_eq. intros db'. unfold requested. rewrite map_lookup_imap.
  destruct (decide (db' = db)) as [->|Hd].
  - rewrite lookup_insert_eq, Hc. cbn. by rewrite decide_True by set_solver.
  - rewrite lookup_insert_ne by done. destruct (cs !! db'); cbn; [|done]. by rewrite decide_False by set_solver.
Qed.

Lemma requested_absent db cs : cs !! db = None → requested [db] cs = cs.
Proof.
  intros Hc. apply map_eq. intros db'. unfold requested. rewrite map_lookup_imap.
  destruct (cs !! db') eqn:E; cbn; [|done]. rewrite decide_False; [done|]. set_solver.
Qed.

Lemma request_coordination_exact st db :
  request_coordination_locked st db =
  if db =? INVALID_OID then (false, [], st)
  else (negb (listening st db), latch_of st db,
        mkStore (mkShared (supervisor_pid (shared st)) (supervisor_proc_number (shared st))
                   (rescan_all (shared st) || negb (listening st db)))
          (requested [db] (coordinators st)) (workers st)).
Proof.
  unfold request_coordination_locked, listening, latch_of. destruct (db =? INVALID_OID); [done|].
  destruct (coordinators st !! db) as [c|] eqn:Hc.
  - rewrite (requested_one db c) by done. destruct st as [[pid proc rescan] cs ws]. cbn.
    destruct (Coord.proc_number c =? INVALID_PROC_NUMBER); cbn; by rewrite ?orb_true_r, ?orb_false_r.
  - rewrite requested_absent by done. destruct st as [[pid proc rescan] cs ws]. cbn. by rewrite orb_true_r.
Qed.

(** Only the databases, wake-ups and rescans of an action matter. *)
Lemma asked_one committed a :
  asked committed [a] = filter (λ db, db ≠ INVALID_OID) (asks_for committed a).
Proof. unfold asked. cbn. by rewrite app_nil_r. Qed.

Lemma updated_coordination st ws p committed a db :
  asks_for committed a = [db] → asks_rescan a = false →
  (∀ k d, wakes committed k d a = p k d) → ws = roused p (workers st) →
  request_coordination_locked (set_workers st ws) db =
    (for_supervisor st committed [a], flat_map (latch_of st) (asked committed [a]), updated st committed [a]).
Proof.
  intros Ha Hr Hp ->. rewrite request_coordination_exact.
  unfold updated, for_supervisor. rewrite asked_one, Ha, filter_cons, filter_nil. cbn. rewrite Hr. cbn.
  rewrite (roused_ext (λ k d, wakes committed k d a || false) p) by (intros k d; by rewrite orb_false_r).
  destruct (Z.eqb_spec db INVALID_OID) as [Hi|Hi].
  - rewrite decide_False by (by intros ?). cbn. rewrite requested_none, orb_false_r.
    by destruct st as [[? ? ?] ? ?].
  - rewrite decide_True by done. cbn. rewrite app_nil_r, orb_false_r. done.
Qed.

Lemma apply_action_exact st a committed :
  apply_action st a committed =
    (for_supervisor st committed [a], flat_map (latch_of st) (asked committed [a]), updated st committed [a]).
Proof.
  assert (Hst : set_workers st (workers st) = st) by by destruct st.
  assert (Hno : asks_for committed a = [] → (∀ k d, wakes committed k d a = false) →
    (asks_rescan a, [] : list Signal, if asks_rescan a then set_rescan st true else st) =
    (for_supervisor st committed [a], flat_map (latch_of st) (asked committed [a]), updated st committed [a])).
  { intros Ha Hw. unfold updated, for_supervisor. rewrite asked_one, Ha. cbn. rewrite !orb_false_r, requested_none.
    rewrite (roused_ext _ (λ _ _, false)) by (intros k d; by rewrite Hw). rewrite roused_none.
    destruct st as [[? ? ?] ? ?], (asks_rescan a); cbn; by rewrite ?orb_true_r, ?orb_false_r. }
  unfold apply_action. destruct a as [db l [key| | | |]], committed; cbn [kind act_database_oid].
  all: try (by apply Hno).
  - apply (updated_coordination _ _ (λ k _, bool_decide (k = key))); [done..|].
    apply map_eq. intros k. unfold roused. rewrite map_lookup_imap.
    destruct (decide (k = key)) as [->|Hd].
    + rewrite lookup_alter_eq, bool_decide_eq_true_2 by done. by destruct (workers st !! key).
    + rewrite lookup_alter_ne, bool_decide_eq_false_2 by done. by destruct (workers st !! k).
  - unfold request_database_reconcile. rewrite <- Hst at 1.
    apply (updated_coordination _ _ (λ _ _, false)); [done..|]. by rewrite roused_none.
  - unfold request_database_reconcile. rewrite <- Hst at 1.
    apply (updated_coordination _ _ (λ _ _, false)); [done..|]. by rewrite roused_none.
  - apply (updated_coordination _ _ (λ _ d, d =? db)); [done..|].
    apply map_eq. intros k. unfold roused. rewrite map_lookup_imap, lookup_fmap. by destruct (workers st !! k).
  - unfold request_database_reconcile, request_full_rescan. rewrite <- Hst at 1.
    rewrite (updated_coordination _ _ (λ _ _, false) false (mkAction db l ReconcileDatabase));
      [|done..|by rewrite roused_none].
    unfold updated, for_supervisor. cbn. rewrite !orb_true_r. done.
Qed.

(** *** All of them *)

Lemma request_wakeup_idemp w : Slot.request_wakeup (Slot.request_wakeup w) = Slot.request_wakeup w.
Proof.
  unfold Slot.request_wakeup. cbv zeta. destruct w as [db w e pid after start fails reg proc wake stop restart name].
  cbn. destruct (_ && negb (_ && (0 <? after))) eqn:E; cbn; [|by rewrite E].
  apply andb_true_iff in E as [-> _]. by rewrite andb_false_r.
Qed.

Lemma request_wakeup_database w : Slot.database_oid (Slot.request_wakeup w) = Slot.database_oid w.
Proof. unfold Slot.request_wakeup. cbv zeta. by case_match. Qed.

Lemma roused_roused p q ws : roused q (roused p ws) = roused (λ k db, p k db || q k db) ws.
Proof.
  apply map_eq. intros k. unfold roused. rewrite !map_lookup_imap. destruct (ws !! k) as [w|]; cbn; [|done].
  destruct (p k (Slot.database_oid w)); cbn; [|done]. rewrite request_wakeup_database, request_wakeup_idemp.
  by destruct (q k (Slot.database_oid w)).
Qed.

Lemma requested_requested dbs dbs' cs : requested dbs' (requested dbs cs) = requested (dbs ++ dbs') cs.
Proof.
  apply map_eq. intros db. unfold requested. rewrite !map_lookup_imap. destruct (cs !! db) as [c|]; cbn; [|done].
  f_equal. destruct (decide (db ∈ dbs)), (decide (db ∈ dbs')), (decide (db ∈ dbs ++ dbs')); try set_solver; done.
Qed.

Lemma latch_of_updated st committed actions db : latch_of (updated st committed actions) db = latch_of st db.
Proof.
  unfold latch_of. cbn. unfold requested. rewrite map_lookup_imap.
  destruct (coordinators st !! db) as [c|]; cbn; [|done]. by case_decide.
Qed.

Lemma asked_app committed l k : asked committed (l ++ k) = asked committed l ++ asked committed k.
Proof. unfold asked. by rewrite flat_map_app, filter_app. Qed.

Lemma for_supervisor_app st committed l k :
  for_supervisor st committed (l ++ k) = for_supervisor st committed l || for_supervisor st committed k.
Proof.
  unfold for_supervisor. rewrite asked_app, !existsb_app.
  repeat (case_match; cbn; rewrite ?orb_true_r, ?orb_false_r; try done).
  generalize (existsb asks_rescan l) (existsb asks_rescan k). intros [] []; cbn; by rewrite ?orb_true_r.
Qed.

Lemma for_supervisor_updated st committed l k :
  for_supervisor (updated st committed l) committed k = for_supervisor st committed k.
Proof.
  unfold for_supervisor. f_equal. induction (asked committed k) as [|db dbs IH]; cbn; [done|].
  rewrite IH. unfold listening. by rewrite latch_of_updated.
Qed.

Lemma updated_updated st committed l k :
  updated (updated st committed l) committed k = updated st committed (l ++ k).
Proof.
  unfold updated at 1 3. rewrite for_supervisor_updated, for_supervisor_app, asked_app. cbn.
  rewrite roused_roused, requested_requested, orb_assoc. f_equal. apply roused_ext. intros key db.
  by rewrite existsb_app.
Qed.

Lemma apply_exact st actions committed :
  apply st actions committed =
    (for_supervisor st committed actions, flat_map (latch_of st) (asked committed actions),
     updated st committed actions).
Proof.
  unfold apply. induction actions as [|a actions IH] using rev_ind; cbn.
  - unfold updated. cbn. rewrite requested_none, roused_none, orb_false_r. by destruct st as [[? ? ?] ? ?].
  - rewrite foldl_app, IH. cbn. rewrite apply_action_exact, for_supervisor_updated, updated_updated.
    rewrite for_supervisor_app, asked_app, flat_map_app. f_equal. f_equal. f_equal.
    induction (asked committed [a]) as [|db dbs IHd]; cbn; [done|]. by rewrite IHd, latch_of_updated.
Qed.

(** C34. What the end of a transaction does, exactly.  The databases asked for are those
    of the staged reconciliations, of the wake-ups if it committed, and of the
    database drops if it aborted.  Every coordinator slot of such a database, and no
    other, gets a restart request; every worker woken by a committed wake-up, and no
    other, is woken; each asked database whose coordinator is listening is signalled,
    once per request.  A full rescan is requested and the supervisor is signalled
    exactly when a rescan or drop was staged or some asked database has no listening
    coordinator. *)
Theorem ended_transaction_requests st actions committed :
  let '(sent, st') := end_transaction st actions committed in
  let dbs := asked committed actions in
  let supervisor := for_supervisor st committed actions in
  coordinators st' = requested dbs (coordinators st)
  ∧ workers st' = roused (λ k db, existsb (wakes committed k db) actions) (workers st)
  ∧ rescan_all (shared st') = rescan_all (shared st) || supervisor
  ∧ sent = flat_map (latch_of st) dbs ++ if supervisor then signal_supervisor st else [].
Proof.
  unfold end_transaction. rewrite apply_exact. cbn. split_and!; [done..|].
  by destruct (for_supervisor st committed actions).
Qed.

(** ** Worker keys as background worker arguments *)

Definition as_u32 (z : Z) : Z := z mod 2 ^ 32.
Definition as_i32 (z : Z) : Z := let u := z mod 2 ^ 32 in if u <? 2 ^ 31 then u else u - 2 ^ 32.

Definition into_datum (key : WorkerKey) : Z :=
  Z.lor (Z.shiftl (fst key) 32 mod 2 ^ 64) (as_u32 (snd key)).

Definition from_datum (packed : Z) : WorkerKey :=
  (as_u32 (Z.shiftr packed 32), as_i32 (as_u32 packed)).

(** The key of a worker survives its trip through the 64-bit argument of the
    background process: every database oid and every signed worker id, negative ones
    included, comes back as it was packed, and the packed word fits an unsigned 64-bit
    datum. *)
Theorem worker_key_datum db w :
  0 ≤ db ≤ u32_max → - 2 ^ 31 ≤ w ≤ i32_max →
  0 ≤ into_datum (db, w) ≤ u64_max ∧ from_datum (into_datum (db, w)) = (db, w).
Proof.
  intros Hdb Hw. unfold into_datum, from_datum, as_i32, as_u32. cbn [fst snd].
  unfold u32_max, i32_max, u64_max in *.
  assert (Hu : 0 ≤ w mod 2 ^ 32 < 2 ^ 32) by (apply Z.mod_pos_bound; lia).
  rewrite (Z.mod_small (Z.shiftl db 32)) by (rewrite Z.shiftl_mul_pow2; lia).
  rewrite lor_shiftl_add by lia. split; [lia|].
  rewrite Z.shiftr_div_pow2 by lia. rewrite Z.div_add_l by lia. rewrite (Z.div_small (w mod 2 ^ 32)) by done.
  rewrite Z.add_0_r, (Z.mod_small db) by lia. f_equal.
  replace ((db * 2 ^ 32 + w mod 2 ^ 32) mod 2 ^ 32) with (w mod 2 ^ 32).
  2: { rewrite Z.add_comm, Z.mod_add by lia. by rewrite Z.mod_mod by lia. }
  rewrite Z.mod_mod by lia. destruct (Z.ltb_spec (w mod 2 ^ 32) (2 ^ 31)).
  - destruct (decide (0 ≤ w)); [by rewrite Z.mod_small by lia|].
    rewrite <- (Z.mod_add w 1), Z.mod_small in * by lia. lia.
  - destruct (decide (0 ≤ w)); [rewrite Z.mod_small in * by lia; lia|].
    rewrite <- (Z.mod_add w 1), Z.mod_small by lia. lia.
Qed.

Lemma worker_key_datum_witness : from_datum (into_datum (16384, -3)) = (16384, -3).
Proof. apply (worker_key_datum 16384 (-3)); vm_compute; split; discriminate. Defined.
