(* ===== verification/RowIdentity.v ===== *)
(** * Synthetic row identities

    An Iceberg row is named inside PostgreSQL's executor by a synthetic
    [ctid]: a 17-bit transaction-local file id and a 30-bit row position packed
    into a 32-bit block number and a non-zero 16-bit offset
    (lagodb-iceberg/src/write/row_identity.rs).  AFTER ROW triggers use a second
    namespace in the top quarter of the block numbers
    (lagodb-core/src/table_am/modify/trigger_rows.rs).  The theorems show that
    both codecs are lossless, that the narrowing casts never truncate, and that
    the two namespaces are disjoint and jointly classified by [is_encoded]. *)
From stdpp Require Import base list strings.
From Stdlib Require Import ZArith Lia.
From S2P Require Import Prelude Errors.

Local Open Scope Z_scope.

(** lagodb-core/src/handles/tuple.rs: [ItemPointer]. *)
Record ItemPointer := mkItemPointer { block_number : Z; offset : Z }.

(** Values of the two fields' machine types. *)
Definition item_pointer_wf (tid : ItemPointer) : Prop :=
  0 ≤ block_number tid ≤ u32_max ∧ 0 ≤ offset tid ≤ u16_max.

(** PostgreSQL's C layout [ItemPointerData]: a split block number. *)
Record ItemPointerData := mkItemPointerData { bi_hi : Z; bi_lo : Z; ip_posid : Z }.

Definition ItemPointer_from_raw (sys : ItemPointerData) : ItemPointer :=
  {| block_number := Z.lor (Z.shiftl (bi_hi sys) 16) (bi_lo sys);
     offset := ip_posid sys |}.

Definition ItemPointer_to_pg_sys (tid : ItemPointer) : ItemPointerData :=
  {| bi_hi := Z.shiftr (block_number tid) 16 mod 2 ^ 16;
     bi_lo := Z.land (block_number tid) 65535 mod 2 ^ 16;
     ip_posid := offset tid |}.

Definition TRIGGER_ROW_BLOCK_BASE : Z := 3221225472. (* 0xC0000000 *)

Definition ICEBERG_FILE_ID_BITS : Z := 17.
Definition MAX_ICEBERG_FILES : Z := Z.shiftl 1 ICEBERG_FILE_ID_BITS.

Definition POSITION_BITS : Z := 30.
Definition MAX_POSITION : Z := Z.shiftl 1 POSITION_BITS - 1.
Definition FILE_MASK : Z := Z.shiftl 1 ICEBERG_FILE_ID_BITS - 1.
Definition POSITION_MASK : Z := Z.shiftl 1 POSITION_BITS - 1.
Definition PAYLOAD_LIMIT : Z := Z.shiftl 1 (ICEBERG_FILE_ID_BITS + POSITION_BITS).
Definition OFFSET_BASE : Z := u16_max.

(** ** Physical rows *)
Section Physical.
Context {L : Type}.

(** [IcebergFileId::try_from_raw]: the checked constructor of a file id. *)
Definition try_from_raw (raw : Z) : IcebergResult L Z :=
  if MAX_ICEBERG_FILES <=? raw
  then Err (FileIdLimitExceeded MAX_ICEBERG_FILES)
  else Ok raw.

Record IcebergRowIdentity := mkRowIdentity { file_id : Z; row_position : Z }.

(** [IcebergRowIdentity::encode]; [as u32] and [as u16] truncate. *)
Definition encode (file_id position : Z) : IcebergResult L ItemPointer :=
  if MAX_POSITION <? position
  then Err RowIdentityLimitExceeded
  else
    let payload := Z.lor (Z.shiftl file_id POSITION_BITS) position in
    Ok {| block_number := (payload / OFFSET_BASE) mod 2 ^ 32;
          offset := (payload mod OFFSET_BASE + 1) mod 2 ^ 16 |}.

(** [IcebergRowIdentity::decode]. *)
Definition decode (tid : ItemPointer) : IcebergResult L IcebergRowIdentity :=
  if (offset tid =? 0) || (TRIGGER_ROW_BLOCK_BASE <=? block_number tid)
  then Err (InvariantViolated "ctid is not an Iceberg physical row identity")
  else
    let payload := block_number tid * OFFSET_BASE + (offset tid - 1) in
    if PAYLOAD_LIMIT <=? payload
    then Err (InvariantViolated "ctid is not an Iceberg physical row identity")
    else
      Ok {| file_id := Z.land (Z.shiftr payload POSITION_BITS) FILE_MASK mod 2 ^ 32;
            row_position := Z.land payload POSITION_MASK mod 2 ^ 32 |}.
End Physical.

(** ** Trigger rows *)

(** A PostgreSQL error report: its SQLSTATE and message. *)
Record PgReportError := mkReport { sqlstate : string; message : string }.

Definition TRIGGER_ROW_BLOCK_COUNT : Z := u32_max - TRIGGER_ROW_BLOCK_BASE + 1.
Definition MAX_TRIGGER_ROW_TOKEN : Z := TRIGGER_ROW_BLOCK_COUNT * OFFSET_BASE.

(** [TriggerRowId::allocate] on the backend-local token counter; it returns the
    counter the cell holds afterwards. *)
Definition allocate (next : Z) : result PgReportError ItemPointer * Z :=
  let token := next in
  if MAX_TRIGGER_ROW_TOKEN <=? token
  then (Err (mkReport "PROGRAM_LIMIT_EXCEEDED"
               "LagoDB AFTER-trigger row identity space was exhausted"), next)
  else
    (block_offset ← (if is_u32 (token / OFFSET_BASE)
                     then Ok (token / OFFSET_BASE)
                     else Err (mkReport "INTERNAL_ERROR" "trigger-row block number overflow"));
     block_number ← ok_or (checked_add u32_max TRIGGER_ROW_BLOCK_BASE block_offset)
                      (mkReport "INTERNAL_ERROR" "trigger-row block number overflow");
     offset ← (if token mod OFFSET_BASE + 1 <=? u16_max
               then Ok (token mod OFFSET_BASE + 1)
               else Err (mkReport "INTERNAL_ERROR" "trigger-row offset overflow"));
     Ok (mkItemPointer block_number offset),
     token + 1).

Definition is_encoded (row_id : ItemPointer) : bool :=
  negb (offset row_id =? 0) && (TRIGGER_ROW_BLOCK_BASE <=? block_number row_id).

Definition token (row_id : ItemPointer) : Z :=
  (block_number row_id - TRIGGER_ROW_BLOCK_BASE) * OFFSET_BASE + (offset row_id - 1).

(** ** Lemmas *)

Ltac consts :=
  unfold MAX_TRIGGER_ROW_TOKEN, TRIGGER_ROW_BLOCK_COUNT, TRIGGER_ROW_BLOCK_BASE,
    MAX_ICEBERG_FILES, PAYLOAD_LIMIT, MAX_POSITION, FILE_MASK, POSITION_MASK, OFFSET_BASE,
    POSITION_BITS, ICEBERG_FILE_ID_BITS in *; widths;
  change (Z.shiftl 1 30) with 1073741824 in *;
  change (Z.shiftl 1 17) with 131072 in *;
  change (Z.shiftl 1 (17 + 30)) with 140737488355328 in *.

(** The payload of a bounded identity is [file * 2^30 + position] < 2^47. *)
Lemma payload_eq f p :
  0 ≤ p ≤ MAX_POSITION →
  Z.lor (Z.shiftl f POSITION_BITS) p = f * 1073741824 + p.
Proof. intros Hp. rewrite lor_shiftl_add; consts; [done|lia|]. change (2 ^ 30) with 1073741824. lia. Qed.

(** Splitting a payload by the offset base and rebuilding it. *)
Lemma split_payload n : n = n / OFFSET_BASE * OFFSET_BASE + n mod OFFSET_BASE.
Proof. rewrite Z.mul_comm. apply Z.div_mod. consts. lia. Qed.

Lemma offset_range n : 0 ≤ n mod OFFSET_BASE < 65535.
Proof. apply Z.mod_pos_bound. consts. lia. Qed.

(** The quotient of a physical payload stays below the trigger boundary. *)
Lemma physical_block_range n :
  0 ≤ n < PAYLOAD_LIMIT → 0 ≤ n / OFFSET_BASE < TRIGGER_ROW_BLOCK_BASE.
Proof.
  intros Hn. split; [apply Z.div_pos; consts; lia|].
  apply Z.div_lt_upper_bound; consts; lia.
Qed.

Lemma encode_ok {L} f p :
  0 ≤ f < MAX_ICEBERG_FILES → 0 ≤ p ≤ MAX_POSITION →
  @encode L f p =
    Ok (mkItemPointer ((f * 1073741824 + p) / OFFSET_BASE)
                      ((f * 1073741824 + p) mod OFFSET_BASE + 1)).
Proof.
  intros Hf Hp. unfold encode. destruct (Z.ltb_spec MAX_POSITION p); [lia|].
  rewrite payload_eq by done. set (n := f * 1073741824 + p).
  assert (0 ≤ n < PAYLOAD_LIMIT) as Hn by (subst n; consts; lia).
  pose proof (physical_block_range n Hn). pose proof (offset_range n).
  rewrite (Z.mod_small (n / _)) by (consts; lia).
  by rewrite (Z.mod_small (_ + 1)) by lia.
Qed.

(** The masks are low-bit projections. *)
Lemma land_position_mask n : Z.land n POSITION_MASK = n mod 1073741824.
Proof. change POSITION_MASK with (Z.ones 30). by rewrite Z.land_ones. Qed.

Lemma file_of_payload f p :
  0 ≤ f < MAX_ICEBERG_FILES → 0 ≤ p ≤ MAX_POSITION →
  Z.land (Z.shiftr (f * 1073741824 + p) POSITION_BITS) FILE_MASK = f.
Proof.
  intros Hf Hp. rewrite Z.shiftr_div_pow2 by (consts; lia).
  change (2 ^ POSITION_BITS) with 1073741824.
  rewrite Z.div_add_l, Z.div_small by (consts; lia).
  change FILE_MASK with (Z.ones 17). rewrite Z.land_ones, Z.mod_small by (consts; lia). lia.
Qed.

Lemma position_of_payload f p :
  0 ≤ p ≤ MAX_POSITION → Z.land (f * 1073741824 + p) POSITION_MASK = p.
Proof.
  intros Hp. rewrite land_position_mask, Z.add_comm, Z.mod_add, Z.mod_small by (consts; lia).
  done.
Qed.

Lemma decode_payload {L} n :
  0 ≤ n < PAYLOAD_LIMIT →
  @decode L (mkItemPointer (n / OFFSET_BASE) (n mod OFFSET_BASE + 1)) =
    Ok (mkRowIdentity (Z.land (Z.shiftr n POSITION_BITS) FILE_MASK mod 2 ^ 32)
                      (Z.land n POSITION_MASK mod 2 ^ 32)).
Proof.
  intros Hn. unfold decode. simpl.
  pose proof (physical_block_range n Hn) as Hb. pose proof (offset_range n) as Ho.
  destruct (Z.eqb_spec (n mod OFFSET_BASE + 1) 0); [lia|].
  destruct (Z.leb_spec TRIGGER_ROW_BLOCK_BASE (n / OFFSET_BASE)); [lia|]. simpl.
  replace (n / OFFSET_BASE * OFFSET_BASE + (n mod OFFSET_BASE + 1 - 1)) with n
    by (rewrite (split_payload n) at 1; lia).
  destruct (Z.leb_spec PAYLOAD_LIMIT n); [lia|done].
Qed.

(** A token below the limit is allocated, without any overflow error. *)
Lemma allocate_ok next :
  0 ≤ next < MAX_TRIGGER_ROW_TOKEN →
  allocate next =
    (Ok (mkItemPointer (TRIGGER_ROW_BLOCK_BASE + next / OFFSET_BASE)
                       (next mod OFFSET_BASE + 1)), next + 1).
Proof.
  intros Hn. unfold allocate.
  destruct (Z.leb_spec MAX_TRIGGER_ROW_TOKEN next); [lia|].
  assert (0 ≤ next / OFFSET_BASE < TRIGGER_ROW_BLOCK_COUNT) as Hd.
  { split; [apply Z.div_pos; consts; lia|].
    apply Z.div_lt_upper_bound; [consts; lia|]. unfold MAX_TRIGGER_ROW_TOKEN in Hn. lia. }
  pose proof (offset_range next) as Ho.
  replace (is_u32 (next / OFFSET_BASE)) with true by (symmetry; consts; lia). simpl.
  unfold checked_add.
  destruct (Z.leb_spec (TRIGGER_ROW_BLOCK_BASE + next / OFFSET_BASE) u32_max); [|consts; lia].
  simpl. destruct (Z.leb_spec (next mod OFFSET_BASE + 1) u16_max); [|consts; lia].
  done.
Qed.

(** ** Properties *)

(** C27. Synthetic ctids round trip: every file id the registry can issue and
    every representable row position is encoded, the ctid fits its machine
    types with a non-zero offset, and decoding it gives the identity back. *)
Theorem row_identity_roundtrip {L} f p :
  0 ≤ f < MAX_ICEBERG_FILES → 0 ≤ p ≤ MAX_POSITION →
  ∃ tid, @encode L f p = Ok tid ∧ item_pointer_wf tid ∧ offset tid ≠ 0 ∧
         is_encoded tid = false ∧
         @decode L tid = Ok (mkRowIdentity f p).
Proof.
  intros Hf Hp. rewrite encode_ok by done. set (n := f * 1073741824 + p).
  assert (0 ≤ n < PAYLOAD_LIMIT) as Hn by (subst n; consts; lia).
  pose proof (physical_block_range n Hn) as Hb. pose proof (offset_range n) as Ho.
  eexists; split; [done|]. unfold item_pointer_wf, is_encoded; simpl.
  split_and!; [consts; lia..| |].
  - apply andb_false_iff. right. apply Z.leb_gt. lia.
  - rewrite decode_payload by done. subst n. rewrite file_of_payload, position_of_payload by done.
    by rewrite !Z.mod_small by (consts; lia).
Qed.

Lemma row_identity_roundtrip_witness :
  ∃ tid, @encode unit 131071 1073741823 = Ok tid ∧ item_pointer_wf tid ∧ offset tid ≠ 0 ∧
         is_encoded tid = false ∧
         @decode unit tid = Ok (mkRowIdentity 131071 1073741823).
Proof. apply (row_identity_roundtrip (L := unit) 131071 1073741823); consts; lia. Defined.

(** Decoding is exact on the other side too: a ctid that decodes is the
    encoding of the identity it decodes to, so no two ctids name the same row,
    and both decoded components are within the bounds the registry relies on. *)
Theorem row_identity_decode_exact {L} tid id :
  item_pointer_wf tid → @decode L tid = Ok id →
  0 ≤ file_id id < MAX_ICEBERG_FILES ∧ 0 ≤ row_position id ≤ MAX_POSITION ∧
  @encode L (file_id id) (row_position id) = Ok tid.
Proof.
  intros [Hb Ho] Hd. destruct tid as [b o]; simpl in *. unfold decode in Hd; simpl in Hd.
  destruct (Z.eqb_spec o 0) as [|Ho0]; [done|].
  destruct (Z.leb_spec TRIGGER_ROW_BLOCK_BASE b); [done|]. simpl in Hd.
  set (n := b * OFFSET_BASE + (o - 1)) in *.
  destruct (Z.leb_spec PAYLOAD_LIMIT n); [done|].
  assert (0 ≤ n) as Hn by (subst n; consts; lia).
  injection Hd as <-. simpl.
  assert (n / OFFSET_BASE = b ∧ n mod OFFSET_BASE = o - 1) as [Hq Hr].
  { subst n. rewrite Z.div_add_l by (consts; lia).
    rewrite Z.add_comm, (Z.add_comm (b * _)), Z.mod_add by (consts; lia).
    rewrite Z.div_small, Z.mod_small by (consts; lia). lia. }
  set (f := n / 1073741824). set (p := n mod 1073741824).
  assert (n = f * 1073741824 + p) as Hfp by (subst f p; rewrite Z.mul_comm; apply Z.div_mod; lia).
  assert (0 ≤ p ≤ MAX_POSITION) as Hp.
  { pose proof (Z.mod_pos_bound n 1073741824 ltac:(lia)). consts; lia. }
  assert (0 ≤ f < MAX_ICEBERG_FILES) as Hf.
  { split; [apply Z.div_pos; lia|]. apply Z.div_lt_upper_bound; consts; lia. }
  rewrite Hfp, file_of_payload, position_of_payload by done.
  rewrite !Z.mod_small by (consts; lia). split_and!; [lia..|].
  rewrite encode_ok, <- Hfp by done. by rewrite Hq, Hr, Z.sub_add.
Qed.

Lemma row_identity_decode_exact_witness :
  item_pointer_wf (mkItemPointer 16384 1) ∧
  0 ≤ 0 < MAX_ICEBERG_FILES ∧ 0 ≤ 1073725440 ≤ MAX_POSITION ∧
  @encode unit 0 1073725440 = Ok (mkItemPointer 16384 1).
Proof.
  assert (item_pointer_wf (mkItemPointer 16384 1)) as H by (unfold item_pointer_wf; simpl; width_lia).
  split; [exact H|].
  exact (row_identity_decode_exact (L := unit) (mkItemPointer 16384 1)
           (mkRowIdentity 0 1073725440) H eq_refl).
Defined.

(** Trigger-row identities: below the token limit [allocate] succeeds with
    no overflow branch taken, advances the counter by one, and yields a
    well-formed identity that [is_encoded] recognises, that [token] decodes
    back, and that the physical decoder refuses; at the limit it reports
    exhaustion and leaves the counter alone. *)
Theorem trigger_row_allocate {L} next :
  0 ≤ next →
  (next < MAX_TRIGGER_ROW_TOKEN ∧
   ∃ tid, allocate next = (Ok tid, next + 1) ∧ item_pointer_wf tid ∧
          is_encoded tid = true ∧ token tid = next ∧ is_ok (@decode L tid) = false) ∨
  (MAX_TRIGGER_ROW_TOKEN ≤ next ∧
   allocate next =
     (Err (mkReport "PROGRAM_LIMIT_EXCEEDED"
             "LagoDB AFTER-trigger row identity space was exhausted"), next)).
Proof.
  intros H0. destruct (Z.lt_ge_cases next MAX_TRIGGER_ROW_TOKEN) as [Hlt|Hge].
  - left. split; [done|]. rewrite allocate_ok by lia. eexists; split; [done|].
    assert (0 ≤ next / OFFSET_BASE < TRIGGER_ROW_BLOCK_COUNT) as Hd.
    { split; [apply Z.div_pos; consts; lia|].
      apply Z.div_lt_upper_bound; [consts; lia|]. unfold MAX_TRIGGER_ROW_TOKEN in Hlt. lia. }
    pose proof (offset_range next) as Ho.
    unfold item_pointer_wf, is_encoded, token, decode; simpl. split_and!.
    1-4: consts; lia.
    + apply andb_true_iff; split; [apply negb_true_iff, Z.eqb_neq; lia|apply Z.leb_le; lia].
    + rewrite (split_payload next) at 3. lia.
    + destruct (Z.leb_spec TRIGGER_ROW_BLOCK_BASE (TRIGGER_ROW_BLOCK_BASE + next / OFFSET_BASE)); [|lia].
      by rewrite orb_true_r.
  - right. split; [done|]. unfold allocate. by destruct (Z.leb_spec MAX_TRIGGER_ROW_TOKEN next); [|lia].
Qed.

Lemma trigger_row_allocate_witness :
  (70000 < MAX_TRIGGER_ROW_TOKEN ∧
   ∃ tid, allocate 70000 = (Ok tid, 70001) ∧ item_pointer_wf tid ∧
          is_encoded tid = true ∧ token tid = 70000 ∧ is_ok (@decode unit tid) = false) ∨
  (MAX_TRIGGER_ROW_TOKEN ≤ 70000 ∧
   allocate 70000 =
     (Err (mkReport "PROGRAM_LIMIT_EXCEEDED"
             "LagoDB AFTER-trigger row identity space was exhausted"), 70000)).
Proof. apply (trigger_row_allocate (L := unit) 70000). lia. Defined.

(** Converting an item pointer to PostgreSQL's C layout and back is lossless. *)
Lemma item_pointer_pg_roundtrip tid :
  item_pointer_wf tid → ItemPointer_from_raw (ItemPointer_to_pg_sys tid) = tid.
Proof.
  intros [Hb Ho]. destruct tid as [b o]; simpl in *.
  unfold ItemPointer_from_raw, ItemPointer_to_pg_sys; simpl. f_equal.
  change 65535 with (Z.ones 16). rewrite Z.land_ones, Z.shiftr_div_pow2 by lia.
  rewrite Zmod_mod.
  assert (0 ≤ b / 2 ^ 16 < 2 ^ 16) as Hh.
  { split; [apply Z.div_pos; lia|]. apply Z.div_lt_upper_bound; [lia|]. width_lia. }
  rewrite (Z.mod_small (b / 2 ^ 16)) by done.
  rewrite lor_shiftl_add by (try apply Z.mod_pos_bound; lia).
  rewrite Z.mul_comm. symmetry. apply Z.div_mod. lia.
Qed.
