(* ===== verification/ActionLog.v ===== *)
(** * Ordered transaction-local table actions

    Model of lagodb-iceberg/src/write/transaction/data_epoch.rs, properties.rs
    and action_log.rs.  A transaction accumulates, per table, an ordered log of
    schema, property, data, truncate, exclusive (VACUUM) and drop actions.  Data
    actions are epochs of command-owned write batches.  The log keeps three read
    caches and every epoch keeps one; they are fields of the model, so that the
    coherence of the caches is a theorem and not a modelling decision.

    Interior mutability ([OnceCell], [RefCell]) is explicit state passing: a
    method that may fill a cache returns the object it leaves behind.  [Rc] and
    [Arc] with [make_mut] are copy-on-write, hence plain values. *)
From stdpp Require Import base gmap list strings sorting.
From Stdlib Require Import ZArith Lia.
From S2P Require Import Prelude Errors IcebergLite.

Local Open Scope Z_scope.

(** [ExclusiveTransactionAction]: the provider operation that must be alone. *)
Class ExclusiveTransactionAction (L E : Type) := {
  NOT_EXCLUSIVE_INVARIANT : string;
  MISPLACED_INVARIANT : string;
  conflict_error : E → IcebergError L;
}.

Section Log.
Context `{IL : IcebergLite} {E G : Type} `{EA : !ExclusiveTransactionAction LiteError E}.

Local Abbreviation IResult := (IcebergResult LiteError).

(** [?] on a library error converts it with [From]. *)
Definition lite {A} (r : result LiteError A) : IResult A := map_err IcebergLiteError r.

(** ** Write batches *)

(** lagodb-iceberg/src/write/row_delete/mod.rs *)
Record RowDeleteOutput := {
  delete_file : DataFile;
  referenced_data_files : list string;
  removed_delete_files : list DeleteFileIdentity;
}.

Record TxWriteBatch := mkBatch {
  write_command_id : Z;
  batch_delta : SnapshotDelta;
  validation : option RowDeltaValidation;
}.

Definition add_row_delete (delta : SnapshotDelta) (output : RowDeleteOutput)
    : IResult SnapshotDelta :=
  delta ← try_fold (λ d identity, lite (sd_remove_delete_file d identity))
            delta (removed_delete_files output);
  lite (sd_add_position_delete_file delta (delete_file output) (referenced_data_files output)).

Definition TxWriteBatch_new (write_command_id : Z) (data_files : list DataFile)
    (delete_files : list RowDeleteOutput) (validation : option RowDeltaValidation)
    : IResult TxWriteBatch :=
  delta ← try_fold (λ d file, lite (sd_add_data_file d file)) sd_new data_files;
  delta ← try_fold add_row_delete delta delete_files;
  Ok (mkBatch write_command_id delta validation).

Definition TxWriteBatch_is_empty (b : TxWriteBatch) : bool :=
  sd_is_empty (batch_delta b) && match validation b with None => true | Some _ => false end.

(** ** Data epochs *)

Record TxDataEpoch := mkEpoch {
  batches : list TxWriteBatch;
  combined : option SnapshotDelta;
}.

Definition TxDataEpoch_default : TxDataEpoch := mkEpoch [] None.

Definition TxDataEpoch_push (e : TxDataEpoch) (b : TxWriteBatch) : TxDataEpoch :=
  mkEpoch (batches e ++ [b]) None.

Definition TxDataEpoch_mark (e : TxDataEpoch) : nat := length (batches e).

Definition TxDataEpoch_truncate (e : TxDataEpoch) (len : nat) : TxDataEpoch :=
  mkEpoch (take len (batches e)) None.

Definition TxDataEpoch_is_empty (e : TxDataEpoch) : bool :=
  match batches e with [] => true | _ => false end.

Definition TxDataEpoch_validations (e : TxDataEpoch) : list RowDeltaValidation :=
  omap validation (batches e).

(** [Iterator::max] of command ids. *)
Definition max_cid (l : list Z) : option Z :=
  match l with [] => None | c :: l => Some (foldr Z.max c l) end.

Definition TxDataEpoch_max_write_command_id (e : TxDataEpoch) : option Z :=
  max_cid (map write_command_id (batches e)).

(** [read_command_id.is_none_or(|cid| command_id < cid)]. *)
Definition visible_to (read_command_id : option Z) (command_id : Z) : bool :=
  match read_command_id with None => true | Some cid => command_id <? cid end.

Definition TxDataEpoch_append_visible (e : TxDataEpoch) (delta : SnapshotDelta)
    (read_command_id : option Z) : IResult SnapshotDelta :=
  try_fold (λ d b, if visible_to read_command_id (write_command_id b)
                   then lite (sd_append_delta d (batch_delta b)) else Ok d)
    delta (batches e).

(** [TxDataEpoch::delta] fills the epoch's cell on success. *)
Definition TxDataEpoch_delta (e : TxDataEpoch) : IResult SnapshotDelta * TxDataEpoch :=
  match combined e with
  | Some d => (Ok d, e)
  | None =>
      let r := match batches e with
               | [b] => Ok (batch_delta b)
               | _ => TxDataEpoch_append_visible e sd_new None
               end in
      match r with
      | Ok d => (Ok d, mkEpoch (batches e) (Some d))
      | Err err => (Err err, e)
      end
  end.

(** ** Table properties (properties.rs) *)

Record PreparedTablePropertyUpdate := mkPropertyUpdate {
  format_version : FormatVersion;
  effective_properties : gmap string string;
}.

Definition PropertyUpdate_validate_base_metadata (u : PreparedTablePropertyUpdate)
    (metadata : TableMetadata) : IResult unit :=
  if decide (md_format_version metadata = format_version u) then Ok tt
  else Err (IcebergLiteError (format_change_error (md_format_version metadata) (format_version u))).

Definition PropertyUpdate_apply_to_metadata (u : PreparedTablePropertyUpdate)
    (metadata : TableMetadata) : IResult TableMetadata :=
  _ ← PropertyUpdate_validate_base_metadata u metadata;
  lite (md_set_properties metadata (effective_properties u)).

Definition PropertyUpdate_apply_to_transaction (u : PreparedTablePropertyUpdate)
    (transaction : Transaction) : IResult Transaction :=
  lite (tx_apply_properties (effective_properties u) transaction).

(** ** The action log *)

Record TxTruncateAction := mkTruncate { guard : G; command_id : Z }.

Inductive TxTableAction : Type :=
| Schema (update : PreparedSchemaUpdate)
| Properties (update : PreparedTablePropertyUpdate)
| Data (epoch : TxDataEpoch)
| Truncate (truncate : TxTruncateAction)
| Exclusive (exclusive : E)
| Drop.

Record VisibleDelta := mkVisible {
  read_command_id : Z;
  visible : option SnapshotDelta;
}.

Record TxTableActionLog := mkLog {
  actions : list TxTableAction;
  combined_delta_cache : option (option SnapshotDelta);
  visible_delta_cache : option VisibleDelta;
  max_write_command_id_cache : option (option Z);
}.

Record TxTableActionLogMarker := mkMarker {
  action_len : nat;
  current_data_epoch : option nat;
}.

Definition TxTableActionLog_default : TxTableActionLog := mkLog [] None None None.

Definition exclusive_conflict_error (log : TxTableActionLog) : option (IcebergError LiteError) :=
  head (omap (λ a, match a with Exclusive x => Some (conflict_error x) | _ => None end)
          (actions log)).

Definition invalidate_read_caches (log : TxTableActionLog) : TxTableActionLog :=
  mkLog (actions log) None None None.

(** Every mutation writes the action vector through [with_actions]. *)
Definition with_actions (log : TxTableActionLog) (l : list TxTableAction) : TxTableActionLog :=
  mkLog l (combined_delta_cache log) (visible_delta_cache log) (max_write_command_id_cache log).

Definition mark (log : TxTableActionLog) : TxTableActionLogMarker :=
  {| action_len := length (actions log);
     current_data_epoch :=
       match last (actions log) with
       | Some (Data epoch) => Some (TxDataEpoch_mark epoch)
       | _ => None
       end |}.

(** [self.actions.last_mut()]: apply [f] to the last element. *)
Fixpoint alter_last {A} (f : A → A) (l : list A) : list A :=
  match l with
  | [] => []
  | [a] => [f a]
  | a :: l' => a :: alter_last f l'
  end.

Definition truncate (log : TxTableActionLog) (marker : TxTableActionLogMarker)
    : TxTableActionLog :=
  let log := invalidate_read_caches log in
  let l := take (action_len marker) (actions log) in
  with_actions log
    match current_data_epoch marker with
    | Some epoch_marker =>
        alter_last (λ a, match a with
                         | Data epoch => Data (TxDataEpoch_truncate epoch epoch_marker)
                         | _ => a
                         end) l
    | None => l
    end.

Definition is_empty (log : TxTableActionLog) : bool :=
  forallb (λ a, match a with
                | Schema update => su_is_empty update
                | Properties _ => false
                | Data epoch => TxDataEpoch_is_empty epoch
                | Truncate _ => false
                | Exclusive _ => false
                | Drop => false
                end) (actions log).

Definition stage_schema (log : TxTableActionLog) (update : PreparedSchemaUpdate)
    : TxTableActionLog :=
  if negb (su_is_empty update) then with_actions log (actions log ++ [Schema update]) else log.

Definition stage_properties (log : TxTableActionLog) (update : PreparedTablePropertyUpdate)
    : TxTableActionLog :=
  with_actions log (actions log ++ [Properties update]).

Definition stage_exclusive (log : TxTableActionLog) (action : E)
    : IResult unit * TxTableActionLog :=
  match actions log with
  | [] =>
      let log := invalidate_read_caches log in
      (Ok tt, with_actions log (actions log ++ [Exclusive action]))
  | _ => (Err (conflict_error action), log)
  end.

(** [current_data_epoch_mut] followed by a mutation of the epoch it returns. *)
Definition current_data_epoch_mut (log : TxTableActionLog) (f : TxDataEpoch → TxDataEpoch)
    : TxTableActionLog :=
  let log := invalidate_read_caches log in
  let l := match last (actions log) with
           | Some (Data _) => actions log
           | _ => actions log ++ [Data TxDataEpoch_default]
           end in
  with_actions log
    (alter_last (λ a, match a with Data epoch => Data (f epoch) | _ => a end) l).

Definition stage_truncate (log : TxTableActionLog) (guard : G) (command_id : Z)
    : TxTableActionLog :=
  let log := invalidate_read_caches log in
  with_actions log (actions log ++ [Truncate (mkTruncate guard command_id)]).

Definition stage_drop (log : TxTableActionLog) : TxTableActionLog :=
  let log := invalidate_read_caches log in
  with_actions log (actions log ++ [Drop]).

Definition is_dropped (log : TxTableActionLog) : bool :=
  match last (actions log) with Some Drop => true | _ => false end.

Definition log_record_batch (log : TxTableActionLog) (batch : TxWriteBatch) : TxTableActionLog :=
  if negb (TxWriteBatch_is_empty batch)
  then current_data_epoch_mut log (λ epoch, TxDataEpoch_push epoch batch)
  else log.

(** ** Metadata overlay *)

Definition overlay_step (metadata : TableMetadata) (action : TxTableAction)
    : IResult TableMetadata :=
  match action with
  | Schema update =>
      _ ← map_err SchemaEvolutionConflict (su_validate_base_metadata update metadata);
      lite (su_apply_to_metadata update metadata)
  | Properties update => PropertyUpdate_apply_to_metadata update metadata
  | Data _ | Truncate _ | Exclusive _ | Drop => Ok metadata
  end.

Definition overlay_metadata (log : TxTableActionLog) (metadata : TableMetadata)
    : IResult TableMetadata :=
  try_fold overlay_step metadata (actions log).

Definition read_schema (log : TxTableActionLog) (metadata : TableMetadata) : IResult SchemaRef :=
  if negb (existsb (λ a, match a with Schema _ => true | _ => false end) (actions log))
  then Ok (md_current_schema metadata)
  else definition ← overlay_metadata log metadata; Ok (md_current_schema definition).

(** ** The file overlay *)

(** The command ids that [max_write_command_id_cache] is computed from. *)
Definition action_max_cid (a : TxTableAction) : option Z :=
  match a with
  | Data epoch => TxDataEpoch_max_write_command_id epoch
  | Truncate t => Some (command_id t)
  | Schema _ | Properties _ | Exclusive _ | Drop => None
  end.

Definition compute_max_cid (l : list TxTableAction) : option Z := max_cid (omap action_max_cid l).

(** The loop body of [visible_delta].  [Ok None] is the early [return Ok(None)]
    of the Drop and Exclusive arms; [Ok (Some c)] falls out of the loop. *)
Fixpoint visible_loop (rc : option Z) (acc : option SnapshotDelta) (l : list TxTableAction)
    : IResult (option (option SnapshotDelta)) * list TxTableAction :=
  match l with
  | [] => (Ok (Some acc), [])
  | a :: l' =>
      match a with
      | Data epoch =>
          match rc with
          | None =>
              let '(r, epoch') := TxDataEpoch_delta epoch in
              match r with
              | Err err => (Err err, Data epoch' :: l')
              | Ok delta =>
                  if sd_is_empty delta
                  then prod_map id (cons (Data epoch')) (visible_loop rc acc l')
                  else
                    match acc with
                    | None => prod_map id (cons (Data epoch')) (visible_loop rc (Some delta) l')
                    | Some c =>
                        match lite (sd_append_delta c delta) with
                        | Err err => (Err err, Data epoch' :: l')
                        | Ok c' => prod_map id (cons (Data epoch')) (visible_loop rc (Some c') l')
                        end
                    end
              end
          | Some _ =>
              match TxDataEpoch_append_visible epoch (default sd_new acc) rc with
              | Err err => (Err err, a :: l')
              | Ok c => prod_map id (cons a) (visible_loop rc (Some c) l')
              end
          end
      | Truncate t =>
          if visible_to rc (command_id t)
          then match lite (sd_truncate_table (default sd_new acc)) with
               | Err err => (Err err, a :: l')
               | Ok c => prod_map id (cons a) (visible_loop rc (Some c) l')
               end
          else prod_map id (cons a) (visible_loop rc acc l')
      | Drop | Exclusive _ => (Ok None, a :: l')
      | Schema _ | Properties _ => prod_map id (cons a) (visible_loop rc acc l')
      end
  end.

(** [combined.filter(|delta| !delta.is_empty())]. *)
Definition filter_nonempty (acc : option SnapshotDelta) : option SnapshotDelta :=
  match acc with
  | Some d => if sd_is_empty d then None else Some d
  | None => None
  end.

(** The uncached tail of [visible_delta]: run the loop and store the result. *)
Definition visible_delta_compute (log : TxTableActionLog) (rc : option Z)
    : IResult (option SnapshotDelta) * TxTableActionLog :=
  let '(r, l) := visible_loop rc None (actions log) in
  let log := with_actions log l in
  match r with
  | Err err => (Err err, log)
  | Ok None => (Ok None, log)
  | Ok (Some acc) =>
      let delta := filter_nonempty acc in
      match rc with
      | Some cid =>
          (Ok delta, mkLog l (combined_delta_cache log) (Some (mkVisible cid delta))
                       (max_write_command_id_cache log))
      | None =>
          match combined_delta_cache log with
          | Some d => (Ok d, log)
          | None => (Ok delta, mkLog l (Some delta) (visible_delta_cache log)
                                 (max_write_command_id_cache log))
          end
      end
  end.

(** [combined_delta()], i.e. [visible_delta(None)]. *)
Definition combined_delta (log : TxTableActionLog)
    : IResult (option SnapshotDelta) * TxTableActionLog :=
  match combined_delta_cache log with
  | Some delta => (Ok delta, log)
  | None => visible_delta_compute log None
  end.

Definition visible_delta (log : TxTableActionLog) (rc : option Z)
    : IResult (option SnapshotDelta) * TxTableActionLog :=
  match rc with
  | Some cid =>
      let max_write_command_id :=
        default (compute_max_cid (actions log)) (max_write_command_id_cache log) in
      let log := mkLog (actions log) (combined_delta_cache log) (visible_delta_cache log)
                   (Some max_write_command_id) in
      if match max_write_command_id with None => true | Some m => m <? cid end
      then combined_delta log
      else
        match visible_delta_cache log with
        | Some cached =>
            if read_command_id cached =? cid
            then (Ok (visible cached), log)
            else visible_delta_compute log rc
        | None => visible_delta_compute log rc
        end
  | None => combined_delta log
  end.

(** [created_file_paths]: one [epoch.delta()] per data action, deduplicated and
    sorted. *)
Fixpoint created_loop (paths : gset string) (l : list TxTableAction)
    : IResult (gset string) * list TxTableAction :=
  match l with
  | [] => (Ok paths, [])
  | Data epoch :: l' =>
      let '(r, epoch') := TxDataEpoch_delta epoch in
      match r with
      | Err err => (Err err, Data epoch' :: l')
      | Ok delta =>
          prod_map id (cons (Data epoch'))
            (created_loop (paths ∪ list_to_set (sd_created_file_paths delta)) l')
      end
  | a :: l' => prod_map id (cons a) (created_loop paths l')
  end.

(** [paths.into_iter().collect::<Vec<_>>()] then [sort_unstable]. *)
Definition sorted_paths (paths : gset string) : list string := merge_sort String.le (elements paths).

Definition created_file_paths (log : TxTableActionLog)
    : IResult (list string) * TxTableActionLog :=
  let '(r, l) := created_loop ∅ (actions log) in
  (sorted_paths <$> r, with_actions log l).

(** ** Reference semantics of the overlay

    The specification ignores every cache and every short cut: start from the new
    delta and replay, in log order, the batches and truncations that the reader
    may see.  A dropped or exclusively-owned table has no overlay. *)
Fixpoint overlay_ref (rc : option Z) (acc : SnapshotDelta) (l : list TxTableAction)
    : IResult (option SnapshotDelta) :=
  match l with
  | [] => Ok (Some acc)
  | Data epoch :: l' =>
      acc ← TxDataEpoch_append_visible epoch acc rc; overlay_ref rc acc l'
  | Truncate t :: l' =>
      acc ← (if visible_to rc (command_id t) then lite (sd_truncate_table acc) else Ok acc);
      overlay_ref rc acc l'
  | Drop :: _ | Exclusive _ :: _ => Ok None
  | Schema _ :: l' | Properties _ :: l' => overlay_ref rc acc l'
  end.

Definition visible_ref (rc : option Z) (l : list TxTableAction) : IResult (option SnapshotDelta) :=
  filter_nonempty <$> overlay_ref rc sd_new l.

(** The view of a log without its epoch caches. *)
Definition erase_epoch (e : TxDataEpoch) : TxDataEpoch := mkEpoch (batches e) None.
Definition erase_action (a : TxTableAction) : TxTableAction :=
  match a with Data e => Data (erase_epoch e) | _ => a end.
Definition erase (l : list TxTableAction) : list TxTableAction := map erase_action l.

(** ** Cache coherence *)

Definition epoch_ref (e : TxDataEpoch) : IResult SnapshotDelta :=
  TxDataEpoch_append_visible e sd_new None.

Definition epoch_ok (e : TxDataEpoch) : Prop := ∀ d, combined e = Some d → epoch_ref e = Ok d.
Definition action_ok (a : TxTableAction) : Prop :=
  match a with Data e => epoch_ok e | _ => True end.

Record log_ok (log : TxTableActionLog) : Prop := {
  ok_epochs : Forall action_ok (actions log);
  ok_combined : ∀ d, combined_delta_cache log = Some d → visible_ref None (actions log) = Ok d;
  ok_visible : ∀ c, visible_delta_cache log = Some c →
    visible_ref (Some (read_command_id c)) (actions log) = Ok (visible c);
  ok_max : ∀ m, max_write_command_id_cache log = Some m → m = compute_max_cid (actions log);
}.

(** The reference semantics and the cached maximum see only the erased log. *)
Lemma append_visible_erase e acc rc :
  TxDataEpoch_append_visible (erase_epoch e) acc rc = TxDataEpoch_append_visible e acc rc.
Proof. done. Qed.

Lemma overlay_ref_erase rc l acc : overlay_ref rc acc (erase l) = overlay_ref rc acc l.
Proof.
  revert acc. induction l as [|[] l IH]; intros acc; simpl; try done.
  - rewrite append_visible_erase. destruct (TxDataEpoch_append_visible _ _ _); simpl; auto.
  - destruct (visible_to _ _); simpl; auto. destruct (lite _); simpl; auto.
Qed.

Lemma visible_ref_erase rc l : visible_ref rc (erase l) = visible_ref rc l.
Proof. unfold visible_ref. by rewrite overlay_ref_erase. Qed.

Lemma compute_max_cid_erase l : compute_max_cid (erase l) = compute_max_cid l.
Proof.
  unfold compute_max_cid. f_equal. induction l as [|a l IH]; [done|].
  csimpl. rewrite IH. by destruct a.
Qed.

Lemma visible_ref_erase_eq rc l l' : erase l = erase l' → visible_ref rc l = visible_ref rc l'.
Proof. intros H. by rewrite <- visible_ref_erase, H, visible_ref_erase. Qed.

Lemma compute_max_cid_erase_eq l l' : erase l = erase l' → compute_max_cid l = compute_max_cid l'.
Proof. intros H. by rewrite <- compute_max_cid_erase, H, compute_max_cid_erase. Qed.

(** Replacing the actions by an equal list up to epoch caches keeps a log
    coherent. *)
Lemma with_actions_ok log l :
  log_ok log → Forall action_ok l → erase l = erase (actions log) → log_ok (with_actions log l).
Proof.
  intros [He Hc Hv Hm] Hl H2. split; simpl; [done|..]; intros ? ?.
  - rewrite (visible_ref_erase_eq _ _ _ H2). by apply Hc.
  - rewrite (visible_ref_erase_eq _ _ _ H2). by apply Hv.
  - rewrite (compute_max_cid_erase_eq _ _ H2). by apply Hm.
Qed.

(** *** Appending deltas *)
Section Laws.
Context `{SL : !SnapshotDeltaLaws IL}.

Definition delta_app (c d : SnapshotDelta) : IResult SnapshotDelta := lite (sd_append_delta c d).

Lemma delta_app_new_l d : delta_app sd_new d = Ok d.
Proof. unfold delta_app. by rewrite sd_append_new_l. Qed.

Lemma delta_app_empty_r c d : sd_is_empty d = true → delta_app c d = Ok c.
Proof. intros H. unfold delta_app. by rewrite sd_append_empty_r. Qed.

Lemma delta_app_assoc c a b : (ab ← delta_app a b; delta_app c ab) = (ca ← delta_app c a; delta_app ca b).
Proof.
  unfold delta_app. pose proof (sd_append_assoc c a b) as H.
  unfold lite. destruct (sd_append_delta a b), (sd_append_delta c a); simpl in *.
  - by rewrite H.
  - by rewrite H.
  - by rewrite <- H.
  - by injection H as ->.
Qed.

(** Folding batches onto [c] is appending their combined delta to [c]. *)
Lemma fold_app_bind c x (bs : list TxWriteBatch) :
  (d ← try_fold (λ d b, delta_app d (batch_delta b)) x bs; delta_app c d) =
  (cx ← delta_app c x; try_fold (λ d b, delta_app d (batch_delta b)) cx bs).
Proof.
  revert x. induction bs as [|b bs IH]; intros x; simpl.
  - by destruct (delta_app c x).
  - pose proof (delta_app_assoc c x (batch_delta b)) as H.
    destruct (delta_app x (batch_delta b)) as [y|err]; simpl in *.
    + rewrite IH. rewrite H. by destruct (delta_app c x).
    + destruct (delta_app c x); simpl in *; by rewrite <- ?H.
Qed.

Lemma append_visible_None e c :
  TxDataEpoch_append_visible e c None = (d ← epoch_ref e; delta_app c d).
Proof.
  unfold epoch_ref, TxDataEpoch_append_visible. simpl.
  change (λ d b, lite (sd_append_delta d (batch_delta b))) with (λ d b, delta_app d (batch_delta b)).
  rewrite fold_app_bind, delta_app_empty_r by apply sd_new_is_empty. done.
Qed.

(** [TxDataEpoch::delta] is the fold of the batches, cached or not. *)
Lemma epoch_delta_spec e :
  epoch_ok e →
  fst (TxDataEpoch_delta e) = epoch_ref e ∧
  batches (snd (TxDataEpoch_delta e)) = batches e ∧
  epoch_ok (snd (TxDataEpoch_delta e)).
Proof.
  intros Hok. unfold TxDataEpoch_delta. destruct (combined e) as [d|] eqn:Hc; simpl.
  - by rewrite (Hok d Hc).
  - assert (match batches e with [b] => Ok (batch_delta b) | _ => epoch_ref e end = epoch_ref e)
      as Hr.
    { unfold epoch_ref, TxDataEpoch_append_visible.
      destruct (batches e) as [|b [|]]; simpl; try done.
      change (lite (sd_append_delta sd_new (batch_delta b))) with (delta_app sd_new (batch_delta b)).
      by rewrite delta_app_new_l. }
    unfold epoch_ref in *. rewrite Hr.
    destruct (TxDataEpoch_append_visible e sd_new None) eqn:Ha; simpl; split_and!; try done.
    intros d' [= <-]. done.
Qed.

Lemma epoch_delta_erase e :
  epoch_ok e → erase_epoch (snd (TxDataEpoch_delta e)) = erase_epoch e.
Proof. intros H. unfold erase_epoch. by destruct (epoch_delta_spec e H) as (_ & -> & _). Qed.

(** *** The overlay loop *)

(** What the loop's accumulator and outcome mean to the reference. *)
Definition loop_result (r : IResult (option (option SnapshotDelta)))
    : IResult (option SnapshotDelta) :=
  match r with
  | Ok None => Ok None
  | Ok (Some acc) => Ok (Some (default sd_new acc))
  | Err err => Err err
  end.

(** One loop iteration after the accumulator has become [acc]: the induction
    hypothesis finishes the remaining actions. *)
Ltac loop_step IH acc :=
  destruct (IH acc) as (H1 & H2 & H3); destruct (visible_loop _ acc _); simpl in *;
  rewrite H2; split_and!; [done..|by constructor].
Ltac loop_stop := split_and!; [done..|by constructor].

Lemma visible_loop_spec rc l acc :
  Forall action_ok l →
  loop_result (fst (visible_loop rc acc l)) = overlay_ref rc (default sd_new acc) l ∧
  erase (snd (visible_loop rc acc l)) = erase l ∧
  Forall action_ok (snd (visible_loop rc acc l)).
Proof.
  intros Hl. revert acc. induction Hl as [|a l Ha Hl IH]; intros acc; [done|].
  destruct a as [u|u|e|t|x|]; simpl in *; try loop_stop; try loop_step IH acc.
  - destruct rc as [cid|].
    + destruct (TxDataEpoch_append_visible e (default sd_new acc) (Some cid)) as [c|err]; simpl;
        [loop_step IH (Some c)|loop_stop].
    + rewrite append_visible_None. destruct (epoch_delta_spec e Ha) as (Hd & Hb & Hok).
      rewrite <- (epoch_delta_erase e Ha).
      destruct (TxDataEpoch_delta e) as [r e']; simpl in *. subst r.
      destruct (epoch_ref e) as [d|err]; simpl; [|loop_stop].
      destruct (sd_is_empty d) eqn:Hd.
      { rewrite delta_app_empty_r by done. simpl. loop_step IH acc. }
      destruct acc as [c|]; simpl; [|rewrite delta_app_new_l; simpl; loop_step IH (Some d)].
      change (lite (sd_append_delta c d)) with (delta_app c d).
      destruct (delta_app c d) as [c'|err]; simpl; [loop_step IH (Some c')|loop_stop].
  - destruct (visible_to rc (command_id t)); simpl; [|loop_step IH acc].
    destruct (lite _) as [c|err]; simpl; [loop_step IH (Some c)|loop_stop].
Qed.

Lemma filter_nonempty_default acc :
  filter_nonempty (Some (default sd_new acc)) = filter_nonempty acc.
Proof. destruct acc; simpl; [done|]. by rewrite sd_new_is_empty. Qed.

(** Storing the result of the loop keeps the log coherent. *)
Lemma visible_delta_compute_spec log rc :
  log_ok log →
  fst (visible_delta_compute log rc) = visible_ref rc (actions log) ∧
  erase (actions (snd (visible_delta_compute log rc))) = erase (actions log) ∧
  log_ok (snd (visible_delta_compute log rc)).
Proof.
  intros Hok. pose proof Hok as [He Hc _ _]. unfold visible_delta_compute.
  destruct (visible_loop_spec rc (actions log) None He) as (H1 & H2 & H3).
  destruct (visible_loop rc None (actions log)) as [r l]; simpl in *.
  pose proof (with_actions_ok log l Hok H3 H2) as Hw.
  assert (visible_ref rc (actions log) =
          match r with Ok (Some acc) => Ok (filter_nonempty acc) | Ok None => Ok None
                     | Err err => Err err end) as Hr.
  { unfold visible_ref. rewrite <- H1. destruct r as [[acc|]|err]; simpl; [|done|done].
    f_equal. apply (filter_nonempty_default acc). }
  destruct r as [[acc|]|err]; [|by rewrite Hr..].
  pose proof Hw as [_ Hc' Hv' Hm'].
  destruct rc as [cid|]; simpl in *.
  - rewrite Hr. split_and!; [done..|]. split; simpl; try done. intros ? [= <-]. simpl.
    by rewrite (visible_ref_erase_eq _ _ _ H2).
  - destruct (combined_delta_cache log) as [d|] eqn:Hd; simpl.
    + rewrite (Hc d) by done. done.
    + rewrite Hr. split_and!; [done..|]. split; simpl; try done. intros ? [= <-].
      by rewrite (visible_ref_erase_eq _ _ _ H2).
Qed.

Lemma combined_delta_spec log :
  log_ok log →
  fst (combined_delta log) = visible_ref None (actions log) ∧
  erase (actions (snd (combined_delta log))) = erase (actions log) ∧
  log_ok (snd (combined_delta log)).
Proof.
  intros Hok. unfold combined_delta. destruct (combined_delta_cache log) as [d|] eqn:Hd.
  - simpl. by rewrite (ok_combined log Hok d Hd).
  - by apply visible_delta_compute_spec.
Qed.

(** *** The reader's command id *)

Lemma max_cid_bound l cid :
  match max_cid l with None => True | Some m => m < cid end → Forall (λ c, c < cid) l.
Proof.
  destruct l as [|c l]; simpl; [constructor|]. intros H.
  assert (c ≤ foldr Z.max c l ∧ Forall (λ x, x ≤ foldr Z.max c l) l) as [H1 H2].
  { clear H. induction l as [|x l [IH1 IH2]]; simpl; [split; [lia|constructor]|].
    split; [lia|]. constructor; [lia|]. eapply Forall_impl; [done|]. simpl. lia. }
  constructor; [lia|]. eapply Forall_impl; [done|]. simpl. lia.
Qed.

Lemma max_cid_None l : max_cid l = None → l = [].
Proof. by destruct l. Qed.

(** Every command id of the log precedes the reader. *)
Definition action_before (cid : Z) (a : TxTableAction) : Prop :=
  match a with
  | Data e => Forall (λ b, write_command_id b < cid) (batches e)
  | Truncate t => command_id t < cid
  | _ => True
  end.

Lemma compute_max_cid_before l cid :
  match compute_max_cid l with None => True | Some m => m < cid end →
  Forall (action_before cid) l.
Proof.
  intros H%max_cid_bound. induction l as [|a l IH]; [constructor|].
  constructor; [|apply IH; clear IH]; destruct a as [| |e|t| |]; csimpl in *; try done.
  - unfold TxDataEpoch_max_write_command_id in H.
    destruct (max_cid (map write_command_id (batches e))) as [m|] eqn:Hm; csimpl in *.
    + inv H. apply (Forall_map write_command_id (λ c, c < cid)), max_cid_bound. by rewrite Hm.
    + apply max_cid_None in Hm. by destruct (batches e).
  - by inv H.
  - destruct (TxDataEpoch_max_write_command_id e); csimpl in *; [by inv H|done].
  - by inv H.
Qed.

Lemma append_visible_before e cid acc :
  Forall (λ b, write_command_id b < cid) (batches e) →
  TxDataEpoch_append_visible e acc (Some cid) = TxDataEpoch_append_visible e acc None.
Proof.
  unfold TxDataEpoch_append_visible. intros H. revert acc.
  induction H as [|b bs Hb Hbs IH]; intros acc; simpl; [done|].
  destruct (Z.ltb_spec (write_command_id b) cid); [|lia].
  destruct (lite _); simpl; auto.
Qed.

Lemma overlay_ref_before l cid acc :
  Forall (action_before cid) l → overlay_ref (Some cid) acc l = overlay_ref None acc l.
Proof.
  intros H. revert acc. induction H as [|a l Ha Hl IH]; intros acc; [done|].
  destruct a as [| |e|t| |]; simpl in *; auto.
  - rewrite append_visible_before by done.
    destruct (TxDataEpoch_append_visible e acc None); simpl; auto.
  - destruct (Z.ltb_spec (command_id t) cid); [|lia]. destruct (lite _); simpl; auto.
Qed.

(** [visible_delta] computes the reference overlay on every coherent log. *)
Lemma visible_delta_spec log rc :
  log_ok log →
  fst (visible_delta log rc) = visible_ref rc (actions log) ∧
  erase (actions (snd (visible_delta log rc))) = erase (actions log) ∧
  log_ok (snd (visible_delta log rc)).
Proof.
  intros Hok. destruct rc as [cid|]; [|by apply combined_delta_spec].
  unfold visible_delta. set (m := default _ _).
  assert (m = compute_max_cid (actions log)) as Hm.
  { subst m. destruct (max_write_command_id_cache log) eqn:Hc; [|done].
    by apply (ok_max log Hok). }
  set (log' := mkLog _ _ _ _).
  assert (log_ok log') as Hok'.
  { destruct Hok. split; simpl; try done. by intros ? [= <-]. }
  destruct (match m with None => true | Some c => c <? cid end) eqn:Hlt.
  - destruct (combined_delta_spec log' Hok') as (H1 & H2 & H3). split_and!; try done.
    rewrite H1. unfold visible_ref. simpl. rewrite (overlay_ref_before _ cid); [done|].
    apply compute_max_cid_before. rewrite <- Hm. destruct m; [by apply Z.ltb_lt|done].
  - destruct (visible_delta_cache log') as [c|] eqn:Hc;
      [|by apply (visible_delta_compute_spec log')].
    destruct (Z.eqb_spec (read_command_id c) cid) as [<-|];
      [|by apply (visible_delta_compute_spec log')].
    split_and!; [|done..]. symmetry. by apply (ok_visible log' Hok').
Qed.
(** The created paths, without caches. *)
Fixpoint created_ref (paths : gset string) (l : list TxTableAction) : IResult (gset string) :=
  match l with
  | [] => Ok paths
  | Data epoch :: l' =>
      delta ← epoch_ref epoch;
      created_ref (paths ∪ list_to_set (sd_created_file_paths delta)) l'
  | _ :: l' => created_ref paths l'
  end.

Lemma created_loop_spec l paths :
  Forall action_ok l →
  fst (created_loop paths l) = created_ref paths l ∧
  erase (snd (created_loop paths l)) = erase l ∧
  Forall action_ok (snd (created_loop paths l)).
Proof.
  intros Hl. revert paths. induction Hl as [|a l Ha Hl IH]; intros paths; [done|].
  destruct a as [u|u|e|t|x|]; simpl in *;
    try (destruct (IH paths) as (H1 & H2 & H3); destruct (created_loop paths l); simpl in *;
         rewrite H2; split_and!; [done..|by constructor]).
  destruct (epoch_delta_spec e Ha) as (Hd & Hb & Hok). rewrite <- (epoch_delta_erase e Ha).
  destruct (TxDataEpoch_delta e) as [r e']; simpl in *. subst r.
  destruct (epoch_ref e) as [d|err]; simpl; [|split_and!; [done..|by constructor]].
  destruct (IH (paths ∪ list_to_set (sd_created_file_paths d))) as (H1 & H2 & H3).
  destruct (created_loop _ l); simpl in *. rewrite H2. split_and!; [done..|by constructor].
Qed.

Lemma created_file_paths_ok log :
  log_ok log → log_ok (snd (created_file_paths log)).
Proof.
  intros Hok. unfold created_file_paths.
  destruct (created_loop_spec (actions log) ∅ (ok_epochs log Hok)) as (_ & H2 & H3).
  destruct (created_loop ∅ (actions log)); simpl in *. by apply with_actions_ok.
Qed.

End Laws.

(** *** Mutations keep the caches coherent *)

Lemma invalidated_ok l : Forall action_ok l → log_ok (mkLog l None None None).
Proof. by split. Qed.

Lemma overlay_ref_app rc acc l1 l2 :
  overlay_ref rc acc (l1 ++ l2) =
    (r ← overlay_ref rc acc l1;
     match r with None => Ok None | Some acc => overlay_ref rc acc l2 end).
Proof.
  revert acc. induction l1 as [|[] l1 IH]; intros acc; simpl; auto.
  - destruct (TxDataEpoch_append_visible _ _ _); simpl; auto.
  - destruct (visible_to _ _); simpl; auto. destruct (lite _); simpl; auto.
Qed.

(** Definition actions leave the overlay and the command ids alone, which is why
    staging them does not invalidate the read caches. *)
Definition is_definition (a : TxTableAction) : bool :=
  match a with Schema _ | Properties _ => true | _ => false end.

Lemma visible_ref_definition rc l a :
  is_definition a = true → visible_ref rc (l ++ [a]) = visible_ref rc l.
Proof.
  intros Ha. unfold visible_ref. rewrite overlay_ref_app.
  destruct (overlay_ref rc sd_new l) as [[acc|]|]; simpl; try done. by destruct a.
Qed.

Lemma compute_max_cid_definition l a :
  is_definition a = true → compute_max_cid (l ++ [a]) = compute_max_cid l.
Proof.
  intros Ha. unfold compute_max_cid. rewrite omap_app. destruct a; try done; csimpl; by rewrite app_nil_r.
Qed.

Lemma stage_definition_ok log a :
  is_definition a = true → log_ok log → log_ok (with_actions log (actions log ++ [a])).
Proof.
  intros Ha [He Hc Hv Hm]. split; simpl.
  - apply Forall_app; split; [done|]. constructor; [by destruct a|constructor].
  - intros d Hd. rewrite visible_ref_definition by done. auto.
  - intros c Hd. rewrite visible_ref_definition by done. auto.
  - intros m Hd. rewrite compute_max_cid_definition by done. auto.
Qed.

Lemma Forall_alter_last {A} (P : A → Prop) f l :
  Forall P l → (∀ a, P a → P (f a)) → Forall P (alter_last f l).
Proof.
  intros Hl Hf. induction Hl as [|a l Ha Hl IH]; [constructor|].
  destruct l; simpl in *; constructor; auto.
Qed.

Lemma truncate_ok log m : log_ok log → log_ok (truncate log m).
Proof.
  intros [He _ _ _]. apply invalidated_ok. simpl. destruct (current_data_epoch m).
  - apply Forall_alter_last; [by apply Forall_take|]. by intros [].
  - by apply Forall_take.
Qed.

Lemma log_record_batch_ok log b : log_ok log → log_ok (log_record_batch log b).
Proof.
  intros Hok. unfold log_record_batch. case_match; [|done].
  apply invalidated_ok, Forall_alter_last; [|by intros []].
  pose proof (ok_epochs log Hok). simpl.
  destruct (last (actions log)) as [[]|]; try done; apply Forall_app; split; try done; by repeat constructor.
Qed.

Lemma stage_schema_ok log u : log_ok log → log_ok (stage_schema log u).
Proof. intros H. unfold stage_schema. case_match; [by apply stage_definition_ok|done]. Qed.

Lemma stage_properties_ok log u : log_ok log → log_ok (stage_properties log u).
Proof. by apply stage_definition_ok. Qed.

Lemma push_invalidated_ok log a :
  log_ok log → action_ok a → log_ok (mkLog (actions log ++ [a]) None None None).
Proof.
  intros [He _ _ _] Ha. apply invalidated_ok, Forall_app. split; [done|]. by constructor.
Qed.

Lemma stage_truncate_ok log g c : log_ok log → log_ok (stage_truncate log g c).
Proof. intros H. refine (push_invalidated_ok log _ H _). exact I. Qed.

Lemma stage_drop_ok log : log_ok log → log_ok (stage_drop log).
Proof. intros H. refine (push_invalidated_ok log _ H _). exact I. Qed.

Lemma stage_exclusive_ok log x : log_ok log → log_ok (snd (stage_exclusive log x)).
Proof.
  intros H. unfold stage_exclusive. destruct (actions log) eqn:Ha; [|done]. simpl. rewrite Ha.
  by apply invalidated_ok; repeat constructor.
Qed.

(** *** Savepoint markers *)

(** [truncate] and [mark] on bare action lists. *)
Definition truncate_list (l : list TxTableAction) (m : TxTableActionLogMarker)
    : list TxTableAction := actions (truncate (mkLog l None None None) m).
Definition mark_list (l : list TxTableAction) : TxTableActionLogMarker :=
  mark (mkLog l None None None).

Lemma actions_truncate log m : actions (truncate log m) = truncate_list (actions log) m.
Proof. done. Qed.

Lemma alter_last_snoc {A} (f : A → A) l a : alter_last f (l ++ [a]) = l ++ [f a].
Proof. induction l as [|x [|y l] IH]; simpl in *; congruence. Qed.

Lemma erase_alter_last f g l :
  (∀ a, erase_action (f a) = g (erase_action a)) → erase (alter_last f l) = alter_last g (erase l).
Proof. intros H. induction l as [|x [|y l] IH]; simpl in *; [done|by rewrite H|by rewrite IH]. Qed.

Lemma erase_truncate_list l m : erase (truncate_list l m) = truncate_list (erase l) m.
Proof.
  unfold truncate_list, truncate. simpl. destruct (current_data_epoch m).
  - rewrite (erase_alter_last _ (λ a, match a with
               | Data epoch => Data (TxDataEpoch_truncate epoch n) | _ => a end)).
    + unfold erase. by rewrite firstn_map.
    + by intros [].
  - unfold erase. by rewrite firstn_map.
Qed.

Lemma mark_list_erase l : mark_list (erase l) = mark_list l.
Proof.
  unfold mark_list, mark; simpl. unfold erase. rewrite length_map. f_equal.
  change (map erase_action l) with (erase_action <$> l). rewrite fmap_last.
  by destruct (last l) as [[]|].
Qed.

(** [extends l l']: [l'] is [l] followed by later mutations: actions appended at
    the end and batches pushed onto the last epoch. *)
Inductive extends (l : list TxTableAction) : list TxTableAction → Prop :=
| ext_refl : extends l l
| ext_app l' a : extends l l' → extends l (l' ++ [a])
| ext_push p e b : extends l (p ++ [Data e]) → extends l (p ++ [Data (TxDataEpoch_push e b)]).

(** The shape of an extension: untouched, or with more batches in the epoch that
    was last. *)
Lemma extends_shape l l' :
  extends l l' →
  (∃ r, l' = l ++ r) ∨
  (∃ p e bs c r, l = p ++ [Data e] ∧ l' = p ++ Data (mkEpoch (batches e ++ bs) c) :: r).
Proof.
  induction 1 as [|l' a _ IH|p e b _ IH].
  - left. exists []. by rewrite app_nil_r.
  - destruct IH as [(r & ->)|(p & e & bs & c & r & -> & ->)].
    + left. exists (r ++ [a]). by rewrite (assoc_L (++)).
    + right. exists p, e, bs, c, (r ++ [a]). by rewrite <- (assoc_L (++)).
  - destruct IH as [(r & Hr)|(p' & e' & bs & c & r & -> & Hr)].
    + destruct r as [|x r _] using rev_ind.
      * rewrite app_nil_r in Hr. subst l. right. by exists p, e, [b], None, [].
      * rewrite (assoc_L (++)) in Hr. apply app_inj_tail in Hr as [-> _].
        left. eexists. by rewrite <- (assoc_L (++)).
    + right. destruct r as [|x r _] using rev_ind.
      * apply app_inj_tail in Hr as [-> [= ->]]. unfold TxDataEpoch_push; simpl.
        exists p', e', (bs ++ [b]), None, []. by rewrite (assoc_L (++)).
      * rewrite app_comm_cons, (assoc_L (++)) in Hr. apply app_inj_tail in Hr as [-> _].
        eexists p', e', bs, c, _. by rewrite <- (assoc_L (++)).
Qed.

Lemma truncate_list_epoch p e bs c r :
  combined e = None →
  truncate_list (p ++ Data (mkEpoch (batches e ++ bs) c) :: r) (mark_list (p ++ [Data e]))
    = p ++ [Data e].
Proof.
  intros He. unfold truncate_list, mark_list, truncate, mark. simpl.
  rewrite last_snoc, length_app. simpl.
  rewrite cons_middle, (assoc_L (++)), take_app_length' by (rewrite length_app; done).
  rewrite alter_last_snoc. unfold TxDataEpoch_truncate, TxDataEpoch_mark. simpl.
  rewrite take_app_length. by destruct e; simpl in *; subst.
Qed.

Definition erased (l : list TxTableAction) : Prop := erase l = l.

Lemma erase_idemp l : erased (erase l).
Proof. unfold erased, erase. rewrite map_map. apply map_ext. by intros []. Qed.

Lemma erased_last p e : erased (p ++ [Data e]) → combined e = None.
Proof.
  unfold erased, erase. rewrite map_app. intros [_ H]%app_inj_tail. simpl in H.
  injection H as H. by rewrite <- H.
Qed.

(** Truncating at the marker of a state undoes every later mutation. *)
Lemma truncate_extends l l' :
  erased l → extends l l' → truncate_list l' (mark_list l) = l.
Proof.
  intros Hl [(r & ->)|(p & e & bs & c & r & -> & ->)]%extends_shape.
  - destruct l as [|a p _] using rev_ind.
    + unfold truncate_list, mark_list, truncate, mark. by simpl.
    + destruct a as [| |e| | |]; unfold truncate_list, mark_list, truncate, mark; simpl;
        rewrite last_snoc, take_app_length; try done.
      rewrite alter_last_snoc. unfold TxDataEpoch_truncate, TxDataEpoch_mark.
      rewrite firstn_all. pose proof (erased_last _ _ Hl). by destruct e; simpl in *; subst.
  - apply truncate_list_epoch. by apply erased_last in Hl.
Qed.

Lemma extends_trans l1 l2 l3 : extends l1 l2 → extends l2 l3 → extends l1 l3.
Proof. intros H. induction 1; by eauto using extends. Qed.

(** Every staging operation extends the erased log. *)
Lemma erase_snoc l a : erase (l ++ [a]) = erase l ++ [erase_action a].
Proof. apply map_app. Qed.

Lemma extends_snoc l a : extends (erase l) (erase (l ++ [a])).
Proof. rewrite erase_snoc. apply ext_app, ext_refl. Qed.

Lemma record_batch_extends log b :
  extends (erase (actions log)) (erase (actions (log_record_batch log b))).
Proof.
  unfold log_record_batch. case_match; [|apply ext_refl].
  unfold current_data_epoch_mut. simpl.
  destruct (actions log) as [|a p _] using rev_ind; simpl.
  { apply (ext_app _ []), ext_refl. }
  rewrite last_snoc. destruct a; rewrite alter_last_snoc, !erase_snoc; simpl.
  3: apply (ext_push _ _ (erase_epoch epoch) b), ext_refl.
  all: apply ext_app, ext_refl.
Qed.

Lemma stage_schema_extends log u :
  extends (erase (actions log)) (erase (actions (stage_schema log u))).
Proof. unfold stage_schema. case_match; [apply extends_snoc|apply ext_refl]. Qed.

Lemma stage_exclusive_extends log x :
  extends (erase (actions log)) (erase (actions (snd (stage_exclusive log x)))).
Proof.
  unfold stage_exclusive. destruct (actions log) eqn:Ha; simpl; rewrite Ha; [|apply ext_refl].
  apply (extends_snoc []).
Qed.

End Log.

Arguments TxTruncateAction G : clear implicits.
Arguments TxTableAction {IL} E G.
Arguments TxTableActionLog {IL} E G.
Arguments TxTableActionLog_default {IL E G}.
