(* ===== verification/CommitPlan.v ===== *)
(** * Commit planning of a table's action log

    Model of [TxTableActionLog::commit_plan] and [TxTableCommitPlan] in
    lagodb-iceberg/src/write/transaction/action_log.rs.  A log that contains a
    TRUNCATE publishes only the data written after the last one; the base is
    truncated by the first surviving data action, or by an explicit truncation
    when none survives.  The plan borrows the epochs of the log, so the epochs
    in the plan are the ones whose delta cell the planning loop has filled. *)
From stdpp Require Import base gmap list strings sorting.
From Stdlib Require Import ZArith Lia.
From S2P Require Import Prelude Errors IcebergLite ActionLog.

Section Plan.
Context `{IL : IcebergLite} {E G : Type} `{EA : !ExclusiveTransactionAction LiteError E}.

Local Abbreviation IResult := (IcebergResult LiteError).
Local Abbreviation Action := (TxTableAction E G).
Local Abbreviation Log := (TxTableActionLog E G).

Inductive EffectiveCommitAction :=
| EffSchema (update : PreparedSchemaUpdate)
| EffProperties (update : PreparedTablePropertyUpdate)
| EffData (epoch : TxDataEpoch) (truncate_base : bool)
| EffTruncateOnly.

Record TxTableCommitPlan := mkPlan {
  plan_actions : list EffectiveCommitAction;
  exclusive_action : option E;
  truncate_guard : option G;
  canceled_created_paths : list string;
}.

Definition has_data_change (plan : TxTableCommitPlan) : bool :=
  existsb (λ a, match a with EffData _ _ | EffTruncateOnly => true | _ => false end)
    (plan_actions plan).

(** One iteration of [apply_to_transaction]: the schema metadata is replayed next
    to the transaction so that each definition change validates its base. *)
Definition apply_step (st : Transaction * TableMetadata) (a : EffectiveCommitAction)
    : IResult (Transaction * TableMetadata) :=
  let '(transaction, schema_metadata) := st in
  match a with
  | EffSchema update =>
      _ ← map_err SchemaEvolutionConflict (su_validate_base_metadata update schema_metadata);
      schema_metadata ← lite (su_apply_to_metadata update schema_metadata);
      transaction ← lite (tx_apply_schema update transaction);
      Ok (transaction, schema_metadata)
  | EffProperties update =>
      _ ← PropertyUpdate_validate_base_metadata update schema_metadata;
      schema_metadata ← PropertyUpdate_apply_to_metadata update schema_metadata;
      transaction ← PropertyUpdate_apply_to_transaction update transaction;
      Ok (transaction, schema_metadata)
  | EffData epoch truncate_base =>
      delta ← fst (TxDataEpoch_delta epoch);
      transaction ←
        match TxDataEpoch_validations epoch with
        | [] => lite (tx_apply_snapshot_delta delta truncate_base transaction)
        | validations => lite (tx_apply_row_delta delta validations truncate_base transaction)
        end;
      Ok (transaction, schema_metadata)
  | EffTruncateOnly =>
      transaction ← lite (tx_apply_snapshot_delta sd_new true transaction);
      Ok (transaction, schema_metadata)
  end.

Definition apply_to_transaction (plan : TxTableCommitPlan) (transaction : Transaction)
    (base_metadata : TableMetadata) : IResult Transaction :=
  fst <$> try_fold apply_step (transaction, base_metadata) (plan_actions plan).

(** [actions.iter().enumerate().rev().find_map(..)] *)
Definition last_truncate (log : Log) : option (nat * TxTruncateAction G) :=
  head (omap (λ '(index, a), match a with Truncate t => Some (index, t) | _ => None end)
          (reverse (imap pair (actions log)))).

(** The mutable locals of the planning loop. *)
Record PlanState := mkPlanState {
  effective_actions : list EffectiveCommitAction;
  paths : gset string;
  pending_truncate : bool;
}.

Definition push_action (st : PlanState) (a : EffectiveCommitAction) : PlanState :=
  mkPlanState (effective_actions st ++ [a]) (paths st) (pending_truncate st).
Definition extend_paths (st : PlanState) (l : list string) : PlanState :=
  mkPlanState (effective_actions st) (paths st ∪ list_to_set l) (pending_truncate st).

(** The tail of the [Data] arm: an epoch that survives the last TRUNCATE. *)
Definition push_epoch (st : PlanState) (epoch : TxDataEpoch) : PlanState :=
  if TxDataEpoch_is_empty epoch then st
  else mkPlanState (effective_actions st ++ [EffData epoch (pending_truncate st)]) (paths st) false.

Definition dropped_table_error : IcebergError LiteError :=
  InvariantViolated "dropped table reached Iceberg commit planning".

Fixpoint plan_loop (last_truncate_index : option nat) (index : nat) (st : PlanState)
    (l : list Action) : IResult PlanState * list Action :=
  match l with
  | [] => (Ok st, [])
  | a :: l' =>
      let continue st a := prod_map id (cons a) (plan_loop last_truncate_index (S index) st l') in
      match a with
      | Schema update => continue (push_action st (EffSchema update)) a
      | Properties update => continue (push_action st (EffProperties update)) a
      | Data epoch =>
          match last_truncate_index with
          | Some truncate_index =>
              let '(r, epoch) := TxDataEpoch_delta epoch in
              match r with
              | Err err => (Err err, Data epoch :: l')
              | Ok delta =>
                  if (index <? truncate_index)%nat
                  then continue (extend_paths st (sd_created_file_paths delta)) (Data epoch)
                  else
                    let st := extend_paths st (sd_canceled_created_file_paths delta) in
                    continue (push_epoch st epoch) (Data epoch)
              end
          | None => continue (push_epoch st epoch) a
          end
      | Truncate _ => continue st a
      | Exclusive _ => (Err (InvariantViolated MISPLACED_INVARIANT), a :: l')
      | Drop => (Err dropped_table_error, a :: l')
      end
  end.

Definition commit_plan (log : Log) : IResult TxTableCommitPlan * Log :=
  match actions log with
  | Exclusive exclusive :: rest =>
      match rest with
      | [] => (Ok (mkPlan [] (Some exclusive) None []), log)
      | _ => (Err (InvariantViolated NOT_EXCLUSIVE_INVARIANT), log)
      end
  | _ =>
      let last_truncate := last_truncate log in
      let pending := match last_truncate with Some _ => true | None => false end in
      let '(r, l) := plan_loop (fst <$> last_truncate) 0 (mkPlanState [] ∅ pending) (actions log) in
      let log := with_actions log l in
      match r with
      | Err err => (Err err, log)
      | Ok st =>
          let st := if pending_truncate st then push_action st EffTruncateOnly else st in
          (Ok (mkPlan (effective_actions st) None (guard ∘ snd <$> last_truncate)
                 (sorted_paths (paths st))), log)
      end
  end.

(** ** Planning only fills epoch caches *)
Section Laws.
Context `{SL : !SnapshotDeltaLaws IL}.

Lemma plan_loop_erase lt index st l :
  Forall action_ok l →
  erase (snd (plan_loop lt index st l)) = erase l ∧
  Forall action_ok (snd (plan_loop lt index st l)).
Proof.
  intros Hl. revert index st. induction Hl as [|a l Ha Hl IH]; intros index st; [done|].
  assert (∀ st' a', erase_action a' = erase_action a → action_ok a' →
    erase (snd (prod_map id (cons a') (plan_loop lt (S index) st' l))) = erase (a :: l) ∧
    Forall action_ok (snd (prod_map id (cons a') (plan_loop lt (S index) st' l)))) as Hk.
  { intros st' a' He Hok. destruct (IH (S index) st') as [H1 H2].
    destruct (plan_loop lt (S index) st' l); simpl in *. split; [congruence|by constructor]. }
  destruct a as [u|u|e|t|x|]; cbn [plan_loop]; try (by apply Hk);
    try (split; [done|by constructor]).
  destruct lt as [n|]; [|by apply Hk].
  destruct (epoch_delta_spec e Ha) as (_ & _ & Hok).
  assert (erase_action (Data (TxDataEpoch_delta e).2) = erase_action (@Data _ E G e)) as He.
  { simpl. by rewrite epoch_delta_erase. }
  destruct (TxDataEpoch_delta e) as [[d|err] e']; [case_match; by apply Hk|].
  split; [|by constructor]. by apply (f_equal (λ x, x :: erase l)) in He.
Qed.

Lemma commit_plan_log log :
  log_ok log →
  erase (actions (snd (commit_plan log))) = erase (actions log) ∧
  log_ok (snd (commit_plan log)).
Proof.
  intros Hok.
  destruct (plan_loop_erase (fst <$> last_truncate log) 0
     (mkPlanState [] ∅ (match last_truncate log with Some _ => true | None => false end))
     (actions log) (ok_epochs log Hok)) as [H1 H2].
  pose proof (λ l, with_actions_ok log l Hok) as Hw.
  unfold commit_plan. destruct (actions log) as [|a l] eqn:Ha; [|destruct a].
  6: { destruct l; simpl; by rewrite Ha. }
  all: destruct (plan_loop _ _ _ _) as [[st|err] l']; simpl in *; auto.
Qed.

(** ** What the plan contains *)

Definition eff_erase (a : EffectiveCommitAction) : EffectiveCommitAction :=
  match a with EffData e b => EffData (erase_epoch e) b | _ => a end.

(** The definition changes of a prefix that a later TRUNCATE makes obsolete. *)
Definition definitions (l : list Action) : list EffectiveCommitAction :=
  omap (λ a, match a with
             | Schema u => Some (EffSchema u)
             | Properties u => Some (EffProperties u)
             | _ => None
             end) l.

(** The actions of a suffix without TRUNCATE, and the truncation of the base that
    is still owed at its start. *)
Fixpoint effective (pending : bool) (l : list Action) : list EffectiveCommitAction :=
  match l with
  | [] => if pending then [EffTruncateOnly] else []
  | Schema u :: l' => EffSchema u :: effective pending l'
  | Properties u :: l' => EffProperties u :: effective pending l'
  | Data e :: l' =>
      if TxDataEpoch_is_empty e then effective pending l'
      else EffData (erase_epoch e) pending :: effective false l'
  | _ :: l' => effective pending l'
  end.

Definition data_epochs (l : list Action) : list TxDataEpoch :=
  omap (λ a, match a with Data e => Some e | _ => None end) l.

(** A path that one of the epochs of [l] reports through [f]. *)
Definition reports (f : SnapshotDelta → list string) (l : list Action) (p : string) : Prop :=
  ∃ e d, e ∈ data_epochs l ∧ epoch_ref e = Ok d ∧ p ∈ f d.

(** No exclusive action and no drop, and every epoch's batches combine. *)
Definition plannable (a : Action) : Prop :=
  match a with
  | Data e => is_ok (epoch_ref e) = true
  | Exclusive _ | Drop => False
  | _ => True
  end.
Definition not_truncate (a : Action) : Prop :=
  match a with Truncate _ => False | _ => True end.

Definition st_finish (st : PlanState) : list EffectiveCommitAction :=
  effective_actions (if pending_truncate st then push_action st EffTruncateOnly else st).

Lemma reports_cons_data f e l d p :
  epoch_ref e = Ok d → reports f (Data e :: l) p ↔ p ∈ f d ∨ reports f l p.
Proof.
  intros He. unfold reports. csimpl. setoid_rewrite elem_of_cons. split.
  - intros (e' & d' & [->|?] & ? & ?); [left; congruence|right; eauto].
  - intros [?|(e' & d' & ? & ? & ?)]; eauto 6.
Qed.

Lemma reports_nil f p : ¬ reports f [] p.
Proof. intros (e & d & []%elem_of_nil & _). Qed.

(** The delta of a plannable epoch, as the planning loop obtains it. *)
Lemma plannable_delta e :
  epoch_ok e → is_ok (epoch_ref e) = true →
  ∃ d e', TxDataEpoch_delta e = (Ok d, e') ∧ epoch_ref e = Ok d ∧ erase_epoch e' = erase_epoch e.
Proof.
  intros Hok Hd. destruct (epoch_delta_spec e Hok) as (H1 & _ & _).
  pose proof (epoch_delta_erase e Hok). destruct (TxDataEpoch_delta e) as [r e']; simpl in *.
  subst r. destruct (epoch_ref e) as [d|]; [|done]. by exists d, e'.
Qed.

(** Before the last TRUNCATE: definition changes are kept, data is dropped and
    its files are reported. *)
Lemma plan_before n l rest index st :
  index + length l ≤ n → Forall action_ok l → Forall plannable l →
  ∃ st', fst (plan_loop (Some n) index st (l ++ rest))
           = fst (plan_loop (Some n) (index + length l) st' rest) ∧
    effective_actions st' = effective_actions st ++ definitions l ∧
    pending_truncate st' = pending_truncate st ∧
    ∀ p, p ∈ paths st' ↔ p ∈ paths st ∨ reports sd_created_file_paths l p.
Proof.
  intros Hn Hok Hpl. revert index st Hn. induction Hok as [|a l Ha Hok IH]; intros index st Hn.
  { exists st. simpl in *. rewrite Nat.add_0_r, app_nil_r. split_and!; try done.
    intros p. pose proof (reports_nil sd_created_file_paths p). tauto. }
  inversion Hpl as [|? ? Hp Hpl']; subst. simpl length in *. rewrite <- Nat.add_succ_comm in *.
  destruct a as [u|u|e|t|x|]; try done; cbn [plan_loop app] in *.
  - destruct (IH Hpl' (S index) (push_action st (EffSchema u)) Hn) as (st' & H1 & H2 & H3 & H4).
    exists st'. simpl in *. by rewrite H1, H2, <- (assoc_L (++)).
  - destruct (IH Hpl' (S index) (push_action st (EffProperties u)) Hn) as (st' & H1 & H2 & H3 & H4).
    exists st'. simpl in *. by rewrite H1, H2, <- (assoc_L (++)).
  - destruct (plannable_delta e Ha Hp) as (d & e' & -> & Hd & _).
    destruct (Nat.ltb_spec index n) as [_|]; [|lia].
    destruct (IH Hpl' (S index) (extend_paths st (sd_created_file_paths d)) Hn)
      as (st' & H1 & H2 & H3 & H4).
    exists st'. simpl in *. split_and!; try done. intros p. rewrite H4, (reports_cons_data _ _ _ _ _ Hd).
    rewrite elem_of_union, elem_of_list_to_set. tauto.
  - destruct (IH Hpl' (S index) st Hn) as (st' & H1 & H2 & H3 & H4). by exists st'.
Qed.

(** The files that an epoch after the last TRUNCATE cancels are only collected
    when there is one. *)
Definition canceled_after (lt : option nat) (l : list Action) (p : string) : Prop :=
  match lt with Some _ => reports sd_canceled_created_file_paths l p | None => False end.

Lemma push_epoch_paths st e : paths (push_epoch st e) = paths st.
Proof. unfold push_epoch. by case_match. Qed.

Lemma push_epoch_effective st e e' l :
  erase_epoch e' = erase_epoch e →
  (eff_erase <$> effective_actions (push_epoch st e')) ++
    effective (pending_truncate (push_epoch st e')) l =
  (eff_erase <$> effective_actions st) ++ effective (pending_truncate st) (Data e :: l).
Proof.
  intros He. unfold push_epoch. simpl.
  replace (TxDataEpoch_is_empty e') with (TxDataEpoch_is_empty e)
    by (unfold TxDataEpoch_is_empty; injection He as ->; done).
  destruct (TxDataEpoch_is_empty e); [done|]. simpl.
  rewrite fmap_app, <- (assoc_L (++)). simpl. by rewrite He.
Qed.

(** After the last TRUNCATE, or without one. *)
Lemma plan_after lt l index st :
  (∀ n, lt = Some n → n < index) → Forall action_ok l → Forall plannable l →
  ∃ st', fst (plan_loop lt index st l) = Ok st' ∧
    eff_erase <$> st_finish st' =
      (eff_erase <$> effective_actions st) ++ effective (pending_truncate st) l ∧
    ∀ p, p ∈ paths st' ↔ p ∈ paths st ∨ canceled_after lt l p.
Proof.
  intros Hn Hok Hpl. revert index st Hn. induction Hok as [|a l Ha Hok IH]; intros index st Hn.
  { exists st. split_and!; try done.
    - unfold st_finish. destruct (pending_truncate st); simpl; [by rewrite fmap_app|].
      by rewrite app_nil_r.
    - intros p. pose proof (reports_nil sd_canceled_created_file_paths p).
      unfold canceled_after. destruct lt; tauto. }
  inversion Hpl as [|? ? Hp Hpl']; subst.
  assert (∀ n, lt = Some n → n < S index) as HS by (intros; apply Nat.lt_lt_succ_r; eauto).
  destruct a as [u|u|e|t|x|]; try done; cbn [plan_loop app] in *.
  - destruct (IH Hpl' (S index) (push_action st (EffSchema u)) HS) as (st' & H1 & H2 & H3).
    exists st'. simpl in *. rewrite H1, H2, fmap_app, <- (assoc_L (++)). done.
  - destruct (IH Hpl' (S index) (push_action st (EffProperties u)) HS) as (st' & H1 & H2 & H3).
    exists st'. simpl in *. rewrite H1, H2, fmap_app, <- (assoc_L (++)). done.
  - destruct (plannable_delta e Ha Hp) as (d & e' & Hd' & Hd & He').
    destruct lt as [n|].
    + rewrite Hd'. destruct (Nat.ltb_spec index n) as [Hlt|_]; [specialize (Hn n eq_refl); lia|].
      set (st1 := extend_paths st (sd_canceled_created_file_paths d)).
      destruct (IH Hpl' (S index) (push_epoch st1 e') HS) as (st' & H1 & H2 & H3).
      exists st'. simpl in *. rewrite H2, (push_epoch_effective _ e) by done. split_and!; try done.
      intros p. rewrite H3, push_epoch_paths, (reports_cons_data _ _ _ _ _ Hd). simpl.
      rewrite elem_of_union, elem_of_list_to_set. tauto.
    + destruct (IH Hpl' (S index) (push_epoch st e) HS) as (st' & H1 & H2 & H3).
      exists st'. simpl in *. rewrite H2, (push_epoch_effective _ e) by done. split_and!; try done.
      intros p. by rewrite H3, push_epoch_paths.
  - destruct (IH Hpl' (S index) st HS) as (st' & H1 & H2 & H3). by exists st'.
Qed.

(** The last TRUNCATE of a log. *)
Definition indexed_truncate (x : nat * Action) : option (nat * TxTruncateAction G) :=
  let '(index, a) := x in match a with Truncate t => Some (index, t) | _ => None end.

Lemma indexed_truncate_none k (l : list Action) :
  Forall not_truncate l → omap indexed_truncate (reverse (imap (λ i, pair (k + i)) l)) = [].
Proof.
  intros H. apply omap_all_None.
  intros [i a] (j & b & [= -> ->] & Hb)%elem_of_reverse%elem_of_lookup_imap.
  apply list_elem_of_lookup_2 in Hb. rewrite Forall_forall in H. specialize (H _ Hb). by destruct b.
Qed.

Lemma last_truncate_None log : Forall not_truncate (actions log) → last_truncate log = None.
Proof. intros H. unfold last_truncate. by rewrite (indexed_truncate_none 0). Qed.

Lemma last_truncate_Some log pre t post :
  actions log = pre ++ Truncate t :: post → Forall not_truncate post →
  last_truncate log = Some (length pre, t).
Proof.
  intros Ha H. unfold last_truncate. rewrite Ha, imap_app. simpl.
  rewrite reverse_app, reverse_cons, !omap_app.
  change (λ '(index, a), _) with indexed_truncate.
  rewrite (imap_ext _ (λ i, pair (S (length pre) + i))) by (intros; simpl; f_equal; lia).
  rewrite (indexed_truncate_none (S (length pre))) by done. csimpl. by rewrite Nat.add_0_r.
Qed.

Definition not_exclusive_first (l : list Action) : Prop :=
  match l with Exclusive _ :: _ => False | _ => True end.

Lemma plannable_not_exclusive l : Forall plannable l → not_exclusive_first l.
Proof. intros [|a l' Ha Hl]; [done|]. by destruct a. Qed.

(** Planning a log that does not start with an exclusive action. *)
Lemma commit_plan_loop log st :
  not_exclusive_first (actions log) →
  fst (plan_loop (fst <$> last_truncate log) 0
        (mkPlanState [] ∅ (match last_truncate log with Some _ => true | None => false end))
        (actions log)) = Ok st →
  fst (commit_plan log) =
    Ok (mkPlan (st_finish st) None (guard ∘ snd <$> last_truncate log) (sorted_paths (paths st))).
Proof.
  intros Hx Hl. unfold commit_plan, st_finish.
  destruct (actions log) as [|[] l]; try done.
  all: destruct (plan_loop _ _ _ _) as [r l']; simpl in Hl; subst r; simpl.
  all: by destruct (pending_truncate st).
Qed.

Lemma elem_of_sorted_paths p ps : p ∈ sorted_paths ps ↔ p ∈ ps.
Proof.
  unfold sorted_paths. rewrite <- elem_of_elements.
  by rewrite (merge_sort_Permutation String.le (elements ps)).
Qed.

Lemma sorted_paths_Sorted ps : Sorted String.le (sorted_paths ps).
Proof. apply (Sorted_merge_sort String.le). Qed.

Lemma sorted_paths_NoDup ps : NoDup (sorted_paths ps).
Proof.
  unfold sorted_paths. rewrite (merge_sort_Permutation String.le (elements ps)).
  apply NoDup_elements.
Qed.

Lemma commit_plan_truncated_ok log pre t post :
  log_ok log → actions log = pre ++ Truncate t :: post → Forall not_truncate post →
  Forall plannable (actions log) →
  ∃ plan, fst (commit_plan log) = Ok plan ∧
    eff_erase <$> plan_actions plan = definitions pre ++ effective true post ∧
    exclusive_action plan = None ∧
    truncate_guard plan = Some (guard t) ∧
    Sorted String.le (canceled_created_paths plan) ∧ NoDup (canceled_created_paths plan) ∧
    ∀ p, p ∈ canceled_created_paths plan ↔
      reports sd_created_file_paths pre p ∨ reports sd_canceled_created_file_paths post p.
Proof.
  intros Hok Ha Hpost Hpl.
  pose proof (last_truncate_Some _ _ _ _ Ha Hpost) as Hlt.
  pose proof (plannable_not_exclusive _ Hpl) as Hx.
  pose proof (ok_epochs log Hok) as He.
  pose proof (λ st, commit_plan_loop log st Hx) as Hcp. rewrite Hlt, Ha in Hcp. rewrite Ha in *.
  apply Forall_app in Hpl as [Hpl1 [_ Hpl2]%Forall_cons].
  apply Forall_app in He as [He1 [_ He2]%Forall_cons].
  destruct (plan_before (length pre) pre (Truncate t :: post) 0 (mkPlanState [] ∅ true))
    as (st1 & H1 & H2 & H3 & H4); [simpl; lia|done..|].
  destruct (plan_after (Some (length pre)) post (S (length pre)) st1)
    as (st2 & H5 & H6 & H7); [intros n [= <-]; lia|done..|].
  rewrite (Hcp st2) by (simpl in *; by rewrite H1). eexists; split; [done|]. simpl.
  rewrite H6, H2, H3. split_and!; try done.
  - f_equal. simpl. clear. induction pre as [|[] pre IH]; csimpl; congruence.
  - apply sorted_paths_Sorted.
  - apply sorted_paths_NoDup.
  - intros p. rewrite elem_of_sorted_paths, H7, H4. set_solver.
Qed.

Lemma commit_plan_plain_ok log :
  log_ok log → Forall not_truncate (actions log) → Forall plannable (actions log) →
  ∃ plan, fst (commit_plan log) = Ok plan ∧
    eff_erase <$> plan_actions plan = effective false (actions log) ∧
    exclusive_action plan = None ∧ truncate_guard plan = None ∧
    canceled_created_paths plan = [].
Proof.
  intros Hok Ht Hpl. pose proof (last_truncate_None _ Ht) as Hlt.
  pose proof (λ st, commit_plan_loop log st (plannable_not_exclusive _ Hpl)) as Hcp.
  rewrite Hlt in Hcp.
  destruct (plan_after None (actions log) 0 (mkPlanState [] ∅ false))
    as (st & H1 & H2 & H3); [done|apply Hok|done|].
  rewrite (Hcp st) by done. eexists; split; [done|]. simpl. rewrite H2. split_and!; try done.
  assert (paths st = ∅) as -> by (apply set_eq; set_solver). done.
Qed.

(** ** Reachable logs *)

(** A log that some sequence of operations of the module produced, reads and
    planning included. *)
Inductive log_reachable : Log → Prop :=
| reach_default : log_reachable TxTableActionLog_default
| reach_schema log u : log_reachable log → log_reachable (stage_schema log u)
| reach_properties log u : log_reachable log → log_reachable (stage_properties log u)
| reach_batch log b : log_reachable log → log_reachable (log_record_batch log b)
| reach_truncate_table log g c : log_reachable log → log_reachable (stage_truncate log g c)
| reach_exclusive log x : log_reachable log → log_reachable (snd (stage_exclusive log x))
| reach_drop log : log_reachable log → log_reachable (stage_drop log)
| reach_rollback log m : log_reachable log → log_reachable (truncate log m)
| reach_visible log rc : log_reachable log → log_reachable (snd (visible_delta log rc))
| reach_created log : log_reachable log → log_reachable (snd (created_file_paths log))
| reach_plan log : log_reachable log → log_reachable (snd (commit_plan log)).

Lemma log_reachable_ok log : log_reachable log → log_ok log.
Proof.
  induction 1.
  - by apply invalidated_ok.
  - by apply stage_schema_ok.
  - by apply stage_properties_ok.
  - by apply log_record_batch_ok.
  - by apply stage_truncate_ok.
  - by apply stage_exclusive_ok.
  - by apply stage_drop_ok.
  - by apply truncate_ok.
  - by apply visible_delta_spec.
  - by apply created_file_paths_ok.
  - by apply commit_plan_log.
Qed.

(** C3. Reads through the log are transparent: whatever operations, savepoint
    rollbacks, reads and planning runs a log has been through, [visible_delta]
    returns the replay, in log order, of exactly the batches and truncations whose
    command id precedes the reader's, and leaves the recorded actions unchanged.
    The three caches of the log and the caches of its epochs never show. *)
Theorem visible_delta_transparent log rc :
  log_reachable log →
  fst (visible_delta log rc) = visible_ref rc (actions log) ∧
  erase (actions (snd (visible_delta log rc))) = erase (actions log).
Proof. intros H%log_reachable_ok. destruct (visible_delta_spec log rc H) as (? & ? & _). done. Qed.

(** C8. The commit plan of a log with a TRUNCATE: all definition changes survive in
    order; the data written before the last TRUNCATE is dropped; the first
    surviving data action, or a final [TruncateOnly], carries the truncation of the
    base, exactly once; the guard is that of the last TRUNCATE; and the canceled
    paths are, sorted and without duplicates, the files created before the last
    TRUNCATE and the files that later epochs cancel themselves. *)
Theorem commit_plan_truncated log pre t post :
  log_reachable log → actions log = pre ++ Truncate t :: post → Forall not_truncate post →
  Forall plannable (actions log) →
  ∃ plan, fst (commit_plan log) = Ok plan ∧
    eff_erase <$> plan_actions plan = definitions pre ++ effective true post ∧
    exclusive_action plan = None ∧
    truncate_guard plan = Some (guard t) ∧
    Sorted String.le (canceled_created_paths plan) ∧ NoDup (canceled_created_paths plan) ∧
    ∀ p, p ∈ canceled_created_paths plan ↔
      reports sd_created_file_paths pre p ∨ reports sd_canceled_created_file_paths post p.
Proof. intros H%log_reachable_ok. by apply commit_plan_truncated_ok. Qed.

(** An action that may not reach planning next to others. *)
Lemma plan_loop_rejects lt index st (l : list Action) :
  Exists (λ a, match a with Exclusive _ | Drop => True | _ => False end) l →
  is_ok (fst (plan_loop lt index st l)) = false.
Proof.
  intros H. revert index st. induction H as [a l Ha|a l H IH]; intros index st.
  - by destruct a.
  - destruct a as [u|u|e|t|x|]; simpl; try done; try apply IH.
    destruct lt as [n|]; [|apply IH].
    destruct (TxDataEpoch_delta e) as [[d|err] e']; [|done]. case_match; apply IH.
Qed.

(** Planning refuses a log in which a drop, or an exclusive action next to any
    other action, is recorded: no partial plan is returned for it. *)
Theorem commit_plan_rejects log :
  Drop ∈ actions log ∨
    (1 < length (actions log) ∧ Exists (λ a, ∃ x, a = Exclusive x) (actions log)) →
  ∃ message, fst (commit_plan log) = Err message.
Proof.
  intros H.
  enough (is_ok (fst (commit_plan log)) = false) as Hk.
  { destruct (fst (commit_plan log)) eqn:Hr; [done|eauto]. }
  assert (Exists (λ a, match a with Exclusive _ | Drop => True | _ => False end) (actions log)) as Hx.
  { destruct H as [H|[_ H]]; [by apply Exists_exists; exists Drop|].
    eapply Exists_impl; [done|]. by intros ? [x ->]. }
  pose proof (plan_loop_rejects (fst <$> last_truncate log) 0 (mkPlanState [] ∅
     (match last_truncate log with Some _ => true | None => false end)) _ Hx) as Hl.
  unfold commit_plan. destruct (actions log) as [|[] [|]]; try (by inv Hx).
  6: by destruct H as [?%list_elem_of_singleton|[? _]]; [|simpl in *; lia].
  all: try done; by destruct (plan_loop _ _ _ _) as [[] ?]; simpl in *.
Qed.

(** ** The plan publishes what the transaction's own reader saw *)
Section View.
Context {V : Type} `{SV : !SnapshotDeltaView IL V}.

(** The net effect of the planned data actions, in order. *)
Definition replay_step (v : V) (a : EffectiveCommitAction) : V :=
  match a with
  | EffData e truncate_base =>
      match epoch_ref e with
      | Ok d => v_append (if truncate_base then v_truncated else v) (view d)
      | Err _ => v
      end
  | EffTruncateOnly => v_truncated
  | EffSchema _ | EffProperties _ => v
  end.

Definition replay (v : V) (l : list EffectiveCommitAction) : V := foldl replay_step v l.

Lemma replay_erase v l : replay v (eff_erase <$> l) = replay v l.
Proof. revert v. induction l as [|[] l IH]; intros v; csimpl; auto. Qed.

Lemma replay_definitions v l : replay v (definitions l) = v.
Proof. induction l as [|[] l IH]; csimpl; auto. Qed.

Lemma append_visible_view e acc acc' :
  TxDataEpoch_append_visible e acc None = Ok acc' →
  ∃ d, epoch_ref e = Ok d ∧ view acc' = v_append (view acc) (view d).
Proof.
  rewrite append_visible_None. destruct (epoch_ref e) as [d|]; simpl; [|done].
  unfold delta_app, lite. destruct (sd_append_delta acc d) eqn:Ha; simpl; [|done].
  intros [= <-]. eauto using view_append.
Qed.

Lemma append_visible_empty e acc :
  TxDataEpoch_is_empty e = true → TxDataEpoch_append_visible e acc None = Ok acc.
Proof.
  unfold TxDataEpoch_is_empty, TxDataEpoch_append_visible. by destruct (batches e).
Qed.

Lemma overlay_plannable acc l x :
  overlay_ref None acc l = Ok (Some x) → Forall plannable l.
Proof.
  revert acc. induction l as [|[] l IH]; intros acc H; [by constructor|..];
    simpl in H; try done; try (constructor; [exact I|by eapply IH]).
  - destruct (TxDataEpoch_append_visible epoch acc None) as [acc'|] eqn:He; simpl in H; [|done].
    destruct (append_visible_view _ _ _ He) as (d & Hd & _).
    constructor; [simpl; by rewrite Hd|by eapply IH].
  - constructor; [exact I|]. destruct (lite _); [by eapply IH|done].
Qed.

(** A suffix without TRUNCATE: [pending] says that the base truncation of [acc]
    has not been published yet. *)
Lemma overlay_effective (pending : bool) acc l x v :
  overlay_ref None acc l = Ok (Some x) → Forall not_truncate l →
  view acc = (if pending then v_truncated else v) →
  replay v (effective pending l) = view x.
Proof.
  intros H Hl. revert pending acc v H. induction Hl as [|a l Ha Hl IH]; intros pending acc v H Hv.
  { injection H as <-. rewrite Hv. by destruct pending. }
  destruct a as [u|u|e|t|y|]; simpl in *; try done; eauto.
  destruct (TxDataEpoch_append_visible e acc None) as [acc'|] eqn:He; simpl in H; [|done].
  destruct (TxDataEpoch_is_empty e) eqn:Hemp.
  - rewrite append_visible_empty in He by done. injection He as <-. eauto.
  - destruct (append_visible_view _ _ _ He) as (d & Hd & Hacc). simpl.
    apply (IH false acc'); [done|].
    change (epoch_ref (erase_epoch e)) with (epoch_ref e). by rewrite Hd, Hacc, Hv.
Qed.

(** Every log either has no TRUNCATE or splits at its last one. *)
Lemma split_last_truncate (l : list Action) :
  Forall not_truncate l ∨ ∃ pre t post, l = pre ++ Truncate t :: post ∧ Forall not_truncate post.
Proof.
  induction l as [|a l [Hl|(pre & t & post & -> & Hp)]]; [by left; constructor|..].
  - destruct a; try (left; by constructor). right. by eexists [], _, l.
  - right. by exists (a :: pre), t, post.
Qed.

Lemma commit_plan_overlay log x :
  log_ok log → overlay_ref None sd_new (actions log) = Ok (Some x) →
  ∃ plan, fst (commit_plan log) = Ok plan ∧ replay (view sd_new) (plan_actions plan) = view x.
Proof.
  intros Hok Hx. pose proof (overlay_plannable _ _ _ Hx) as Hpl.
  destruct (split_last_truncate (actions log)) as [Ht|(pre & t & post & Ha & Ht)].
  - destruct (commit_plan_plain_ok log Hok Ht Hpl) as (plan & H1 & H2 & _).
    exists plan. split; [done|]. rewrite <- replay_erase, H2. by eapply overlay_effective.
  - destruct (commit_plan_truncated_ok log pre t post Hok Ha Ht Hpl) as (plan & H1 & H2 & _).
    exists plan. split; [done|]. rewrite <- replay_erase, H2. unfold replay.
    rewrite foldl_app. change (foldl replay_step (view sd_new)) with (replay (view sd_new)).
    rewrite replay_definitions. rewrite Ha, overlay_ref_app in Hx.
    destruct (overlay_ref None sd_new pre) as [[acc|]|]; simpl in Hx; try done.
    unfold lite in Hx. destruct (sd_truncate_table acc) as [acc'|] eqn:Hc; simpl in Hx; [|done].
    eapply overlay_effective; [done..|]. by eapply view_truncate.
Qed.

(** C5. The plan publishes exactly what the transaction's own readers see: when the
    combined overlay of a log is [d], planning succeeds and replaying the planned
    data actions on an untouched base has the net effect of [d]. *)
Theorem commit_plan_publishes_overlay log d :
  log_reachable log → fst (combined_delta log) = Ok (Some d) →
  ∃ plan, fst (commit_plan log) = Ok plan ∧ replay (view sd_new) (plan_actions plan) = view d.
Proof.
  intros Hok%log_reachable_ok Hd. apply commit_plan_overlay; [done|].
  destruct (combined_delta_spec log Hok) as (Hc & _). rewrite Hc in Hd. unfold visible_ref in Hd.
  destruct (overlay_ref None sd_new (actions log)) as [[x|]|]; simpl in Hd; try done.
  unfold filter_nonempty in Hd. destruct (sd_is_empty x); by inv Hd.
Qed.

End View.
End Laws.
End Plan.

(** ** Witnesses *)

Definition string_exclusive : ExclusiveTransactionAction (@LiteError ref_lite) string := {|
  NOT_EXCLUSIVE_INVARIANT := "exclusive action is not alone";
  MISPLACED_INVARIANT := "exclusive action is not first";
  conflict_error x := InvariantViolated x;
|}.

(** INSERT a.parquet; TRUNCATE; INSERT b.parquet at command ids 1, 2 and 3, with a
    read in between. *)
Definition file_batch (cid : Z) (f : string) : @TxWriteBatch ref_lite :=
  @mkBatch ref_lite cid (RefDelta false [f] [f]) None.
Definition example_log : @TxTableActionLog ref_lite string unit :=
  log_record_batch
    (stage_truncate
      (snd (visible_delta (log_record_batch TxTableActionLog_default (file_batch 1 "a.parquet"))
              (Some 2%Z))) tt 2)
    (file_batch 3 "b.parquet").

Ltac reach_log :=
  repeat first [apply reach_batch|apply reach_truncate_table|apply reach_visible|apply reach_exclusive
               |apply reach_default].

(** The reader of command 2 sees the first file, the reader of command 3 a
    truncated table, and a later reader the second file. *)
Lemma visible_delta_transparent_witness :
  fst (visible_delta example_log (Some 3%Z)) = Ok (Some (RefDelta true ["a.parquet"] [])).
Proof.
  refine (eq_trans (proj1 (visible_delta_transparent (EA := string_exclusive) example_log
                             (Some 3%Z) _)) _).
  - unfold example_log. reach_log.
  - by vm_compute.
Defined.

Lemma commit_plan_truncated_witness :
  ∃ plan, fst (commit_plan (EA := string_exclusive) example_log) = Ok plan ∧
    eff_erase <$> plan_actions plan =
      [EffData (mkEpoch [file_batch 3 "b.parquet"] None) true] ∧
    "a.parquet" ∈ canceled_created_paths plan.
Proof.
  destruct (commit_plan_truncated (EA := string_exclusive) example_log
    [Data (mkEpoch [file_batch 1 "a.parquet"] (Some (RefDelta false ["a.parquet"] ["a.parquet"])))]
    (mkTruncate tt 2) [Data (mkEpoch [file_batch 3 "b.parquet"] None)])
    as (plan & H1 & H2 & _ & _ & _ & _ & H3).
  - unfold example_log. reach_log.
  - vm_compute. reflexivity.
  - by repeat constructor.
  - repeat (constructor; [vm_compute; done|]). constructor.
  - exists plan. split_and!; [done|done|]. apply H3. left. eexists _, _.
    split_and!; [by apply list_elem_of_singleton|vm_compute; reflexivity|].
    by apply list_elem_of_singleton.
Defined.


Lemma commit_plan_publishes_overlay_witness :
  ∃ plan, fst (commit_plan (EA := string_exclusive) example_log) = Ok plan ∧
    replay (view (@sd_new ref_lite)) (plan_actions plan) = (true, ["b.parquet"]).
Proof.
  refine (commit_plan_publishes_overlay (EA := string_exclusive) example_log
           (RefDelta true ["a.parquet"; "b.parquet"] ["b.parquet"]) _ _).
  - unfold example_log. reach_log.
  - by vm_compute.
Defined.
