(* ===== verification/TableState.v ===== *)
(** * Per-table transaction state and savepoints

    Model of lagodb-iceberg/src/write/transaction/table_state.rs.  A table's
    action log is paired with a stack of history frames, one per mutation made
    inside a subtransaction, from which ROLLBACK TO SAVEPOINT restores the log.
    The specification is the obvious machine that copies the whole log at every
    SAVEPOINT; the theorem is that no sequence of statements, reads and savepoint
    commands tells the two apart.

    [level_history] is a [Vec] used as a stack; the model keeps its top first.
    [Rc::make_mut] is copy-on-write, so the log is a value. *)
From stdpp Require Import base gmap list strings.
From Stdlib Require Import ZArith Lia.
From S2P Require Import Prelude Errors IcebergLite ActionLog.

Local Open Scope Z_scope.

Section TableState.
Context `{IL : IcebergLite} {E G : Type} `{EA : !ExclusiveTransactionAction LiteError E}.

Local Abbreviation IResult := (IcebergResult LiteError).
Local Abbreviation Action := (TxTableAction E G).
Local Abbreviation Log := (TxTableActionLog E G).

Record HistoryFrame := mkFrame {
  nest_level : Z;
  marker : TxTableActionLogMarker;
}.

Record TableTransactionState := mkTableState {
  log : Log;
  level_history : list HistoryFrame;
}.

Definition TableTransactionState_new : TableTransactionState :=
  mkTableState TxTableActionLog_default [].

Definition record_history (st : TableTransactionState) (nest_level : Z)
    : TxTableActionLogMarker * bool * TableTransactionState :=
  let marker := mark (log st) in
  let should_record_history := 1 <? nest_level in
  (marker, should_record_history,
   if should_record_history
   then mkTableState (log st) (mkFrame nest_level marker :: level_history st) else st).

(** The error arm shared by [record_action_mutation] and
    [record_exclusive_action]: undo the mutation and its frame. *)
Definition undo_mutation (st : TableTransactionState) (marker : TxTableActionLogMarker)
    (should_record_history : bool) : TableTransactionState :=
  mkTableState (truncate (log st) marker)
    (if should_record_history then tail (level_history st) else level_history st).

Definition run_mutation (st : TableTransactionState) (nest_level : Z)
    (mutation : Log → IResult unit * Log) : IResult unit * TableTransactionState :=
  let '(marker, should_record_history, st) := record_history st nest_level in
  let '(r, l) := mutation (log st) in
  let st := mkTableState l (level_history st) in
  match r with
  | Err err => (Err err, undo_mutation st marker should_record_history)
  | Ok _ => (Ok tt, st)
  end.

Definition record_action_mutation (st : TableTransactionState) (nest_level : Z)
    (mutation : Log → IResult unit * Log) : IResult unit * TableTransactionState :=
  match exclusive_conflict_error (log st) with
  | Some error => (Err error, st)
  | None => run_mutation st nest_level mutation
  end.

Definition record_batch (st : TableTransactionState) (nest_level : Z) (batch : TxWriteBatch)
    : IResult unit * TableTransactionState :=
  if TxWriteBatch_is_empty batch then (Ok tt, st)
  else record_action_mutation st nest_level (λ l, (Ok tt, log_record_batch l batch)).

Definition record_schema_update (st : TableTransactionState) (nest_level : Z)
    (update : PreparedSchemaUpdate) : IResult unit * TableTransactionState :=
  if su_is_empty update then (Ok tt, st)
  else
    match exclusive_conflict_error (log st) with
    | Some error => (Err error, st)
    | None =>
        let '(_, _, st) := record_history st nest_level in
        (Ok tt, mkTableState (stage_schema (log st) update) (level_history st))
    end.

Definition record_table_property_update (st : TableTransactionState) (nest_level : Z)
    (update : PreparedTablePropertyUpdate) : IResult unit * TableTransactionState :=
  record_action_mutation st nest_level (λ l, (Ok tt, stage_properties l update)).

Definition record_exclusive_action (st : TableTransactionState) (nest_level : Z) (action : E)
    : IResult unit * TableTransactionState :=
  run_mutation st nest_level (λ l, stage_exclusive l action).

(** [command_id] is [GetCurrentCommandId(true)]. *)
Definition record_truncate (st : TableTransactionState) (nest_level : Z) (guard : G)
    (command_id : Z) : IResult unit * TableTransactionState :=
  record_action_mutation st nest_level (λ l, (Ok tt, stage_truncate l guard command_id)).

Definition record_drop (st : TableTransactionState) (nest_level : Z)
    : IResult unit * TableTransactionState :=
  record_action_mutation st nest_level (λ l, (Ok tt, stage_drop l)).

(** The [while let] loop pops one frame per iteration. *)
Fixpoint rollback_loop (target_level : Z) (l : Log) (history : list HistoryFrame)
    : TableTransactionState :=
  match history with
  | [] => mkTableState l []
  | frame :: history' =>
      if nest_level frame <? target_level then mkTableState l history
      else rollback_loop target_level (truncate l (marker frame)) history'
  end.

Definition rollback_to_level (st : TableTransactionState) (target_level : Z)
    : TableTransactionState := rollback_loop target_level (log st) (level_history st).

Definition promote_level (from_level level : Z) : Z :=
  if from_level <=? level then from_level - 1 else level.

Definition promote_to_level (st : TableTransactionState) (from_level : Z)
    : TableTransactionState :=
  mkTableState (log st)
    (filter (λ frame, 1 < nest_level frame)
       (map (λ frame, mkFrame (promote_level from_level (nest_level frame)) (marker frame))
          (level_history st))).

(** ** Statements and savepoint commands *)

Inductive table_op :=
| OpBatch (batch : TxWriteBatch)
| OpSchema (update : PreparedSchemaUpdate)
| OpProperties (update : PreparedTablePropertyUpdate)
| OpExclusive (action : E)
| OpTruncate (guard : G) (command_id : Z)
| OpDrop.

Definition record_op (st : TableTransactionState) (nest_level : Z) (op : table_op)
    : IResult unit * TableTransactionState :=
  match op with
  | OpBatch batch => record_batch st nest_level batch
  | OpSchema update => record_schema_update st nest_level update
  | OpProperties update => record_table_property_update st nest_level update
  | OpExclusive action => record_exclusive_action st nest_level action
  | OpTruncate guard command_id => record_truncate st nest_level guard command_id
  | OpDrop => record_drop st nest_level
  end.

(** PostgreSQL calls [on_commit_sub] and [on_abort_sub] with the level that ends;
    both leave the transaction one level up.  At the top level there is no
    subtransaction to end. *)
Inductive table_event :=
| EvOp (op : table_op)
| EvRead (read_command_id : option Z)
| EvSavepoint
| EvRelease
| EvRollback.

Inductive outcome :=
| Recorded (r : IResult unit)
| Visible (r : IResult (option SnapshotDelta)).

Definition table_step (s : Z * TableTransactionState) (ev : table_event)
    : option outcome * (Z * TableTransactionState) :=
  let '(level, st) := s in
  match ev with
  | EvOp op =>
      let '(r, st) := record_op st level op in (Some (Recorded r), (level, st))
  | EvRead rc =>
      let '(r, l) := visible_delta (log st) rc in
      (Some (Visible r), (level, mkTableState l (level_history st)))
  | EvSavepoint => (None, (level + 1, st))
  | EvRelease =>
      if 1 <? level then (None, (level - 1, promote_to_level st level)) else (None, s)
  | EvRollback =>
      if 1 <? level then (None, (level - 1, rollback_to_level st level)) else (None, s)
  end.

(** ** The specification machine

    The log is a plain list of actions; a savepoint saves it whole. *)
Definition spec_conflict (l : list Action) : option (IcebergError LiteError) :=
  exclusive_conflict_error (mkLog l None None None).

Definition spec_push_batch (l : list Action) (batch : TxWriteBatch) : list Action :=
  match last l with
  | Some (Data epoch) => take (length l - 1) l ++ [Data (TxDataEpoch_push epoch batch)]
  | _ => l ++ [Data (mkEpoch [batch] None)]
  end.

Definition spec_op (l : list Action) (op : table_op) : IResult unit * list Action :=
  let guarded l' := match spec_conflict l with Some err => (Err err, l) | None => (Ok tt, l') end in
  match op with
  | OpBatch batch =>
      if TxWriteBatch_is_empty batch then (Ok tt, l) else guarded (spec_push_batch l batch)
  | OpSchema update => if su_is_empty update then (Ok tt, l) else guarded (l ++ [Schema update])
  | OpProperties update => guarded (l ++ [Properties update])
  | OpExclusive action =>
      match l with [] => (Ok tt, [Exclusive action]) | _ => (Err (conflict_error action), l) end
  | OpTruncate g cid => guarded (l ++ [Truncate (mkTruncate g cid)])
  | OpDrop => guarded (l ++ [Drop])
  end.

(** The current log and one copy per open savepoint, innermost first. *)
Definition spec_step (s : list Action * list (list Action)) (ev : table_event)
    : option outcome * (list Action * list (list Action)) :=
  let '(l, saved) := s in
  match ev with
  | EvOp op => let '(r, l) := spec_op l op in (Some (Recorded r), (l, saved))
  | EvRead rc => (Some (Visible (visible_ref rc l)), s)
  | EvSavepoint => (None, (l, l :: saved))
  | EvRelease => (None, (l, tail saved))
  | EvRollback => (None, match saved with [] => s | l' :: saved' => (l', saved') end)
  end.

Fixpoint run {S} (step : S → table_event → option outcome * S) (s : S) (evs : list table_event)
    : list outcome * S :=
  match evs with
  | [] => ([], s)
  | ev :: evs' =>
      let '(o, s') := step s ev in
      let '(os, s'') := run step s' evs' in (option_list o ++ os, s'')
  end.

(** ** One statement *)

Lemma conflict_erase l : spec_conflict (erase (actions l)) = exclusive_conflict_error l.
Proof.
  unfold spec_conflict, exclusive_conflict_error. simpl. f_equal.
  induction (actions l) as [|[] l' IH]; csimpl; congruence.
Qed.

Lemma push_batch_erase l batch :
  TxWriteBatch_is_empty batch = false →
  erase (actions (log_record_batch l batch)) = spec_push_batch (erase (actions l)) batch.
Proof.
  intros Hb. unfold log_record_batch, current_data_epoch_mut, spec_push_batch. rewrite Hb. simpl.
  destruct (actions l) as [|a p _] using rev_ind; [done|].
  rewrite erase_snoc, !last_snoc, length_app. simpl. rewrite Nat.add_sub, take_app_length.
  destruct a; rewrite alter_last_snoc, !erase_snoc; done.
Qed.

(** The frame that a mutation at [level] leaves behind. *)
Definition pushed_history (level : Z) (st : TableTransactionState) : list HistoryFrame :=
  if 1 <? level then mkFrame level (mark (log st)) :: level_history st else level_history st.

(** A statement either leaves the actions and the history alone or extends the
    log and pushes one frame. *)
Definition staged (level : Z) (st st' : TableTransactionState) (l' : list Action) : Prop :=
  erase (actions (log st')) = l' ∧ log_ok (log st') ∧
  (level_history st' = level_history st ∧ l' = erase (actions (log st)) ∨
   level_history st' = pushed_history level st ∧ extends (erase (actions (log st))) l').

Lemma staged_refl level st : log_ok (log st) → staged level st st (erase (actions (log st))).
Proof. intros H. split_and!; [done..|by left]. Qed.

Lemma mark_erase (l : Log) : mark l = mark_list (erase (actions l)).
Proof. by rewrite mark_list_erase. Qed.

Lemma truncate_at_mark (l : Log) : erase (actions (truncate l (mark l))) = erase (actions l).
Proof.
  rewrite actions_truncate, erase_truncate_list, mark_erase.
  apply truncate_extends; [apply erase_idemp|apply ext_refl].
Qed.

Lemma run_mutation_ok level st l' mutation :
  fst (mutation (log st)) = Ok tt → log_ok (snd (mutation (log st))) →
  erase (actions (snd (mutation (log st)))) = l' → extends (erase (actions (log st))) l' →
  fst (run_mutation st level mutation) = Ok tt ∧
  staged level st (snd (run_mutation st level mutation)) l'.
Proof.
  intros Hr Hok Hl Hext. unfold run_mutation, record_history, staged, pushed_history.
  destruct (1 <? level); simpl in *; destruct (mutation (log st)) as [r lg]; simpl in *;
    subst r; simpl; split_and!; auto.
Qed.

Lemma run_mutation_err level st err mutation :
  log_ok (log st) → mutation (log st) = (Err err, log st) →
  fst (run_mutation st level mutation) = Err err ∧
  staged level st (snd (run_mutation st level mutation)) (erase (actions (log st))).
Proof.
  intros Hok Hm. unfold run_mutation, record_history, staged.
  destruct (1 <? level); cbn; rewrite Hm; unfold undo_mutation; cbn [fst snd log level_history tail];
    split_and!; [done|apply truncate_at_mark|by apply truncate_ok|by left
                |done|apply truncate_at_mark|by apply truncate_ok|by left].
Qed.

Lemma guarded_mutation level st l' mutation :
  log_ok (log st) →
  fst (mutation (log st)) = Ok tt → log_ok (snd (mutation (log st))) →
  erase (actions (snd (mutation (log st)))) = l' → extends (erase (actions (log st))) l' →
  let spec := match spec_conflict (erase (actions (log st))) with
              | Some err => (Err err, erase (actions (log st)))
              | None => (Ok tt, l')
              end in
  fst (record_action_mutation st level mutation) = fst spec ∧
  staged level st (snd (record_action_mutation st level mutation)) (snd spec).
Proof.
  intros Hok Hr Hok' Hl Hext. unfold record_action_mutation. rewrite conflict_erase.
  destruct (exclusive_conflict_error (log st)); simpl.
  - split; [done|]. by apply staged_refl.
  - by apply run_mutation_ok.
Qed.

Lemma record_op_spec level st op :
  log_ok (log st) →
  let spec := spec_op (erase (actions (log st))) op in
  fst (record_op st level op) = fst spec ∧
  staged level st (snd (record_op st level op)) (snd spec).
Proof.
  intros Hok. destruct op as [b|u|u|x|g c|]; simpl.
  - unfold record_batch. destruct (TxWriteBatch_is_empty b) eqn:Hb.
    { split; [done|by apply staged_refl]. }
    apply guarded_mutation; try done; simpl; auto using log_record_batch_ok, push_batch_erase.
    rewrite <- push_batch_erase by done. apply record_batch_extends.
  - unfold record_schema_update. destruct (su_is_empty u) eqn:Hu.
    { split; [done|by apply staged_refl]. }
    rewrite conflict_erase. destruct (exclusive_conflict_error (log st)); simpl.
    { split; [done|by apply staged_refl]. }
    pose proof (stage_schema_ok (log st) u Hok) as Hok'.
    unfold record_history, staged, pushed_history, stage_schema in *. rewrite Hu in *. simpl in *.
    destruct (1 <? level); simpl; split_and!; auto using erase_snoc, ext_app, ext_refl.
  - apply guarded_mutation; simpl; auto using stage_properties_ok, erase_snoc, ext_app, ext_refl.
  - unfold record_exclusive_action.
    pose proof (stage_exclusive_ok (log st) x Hok) as Hok'.
    pose proof (stage_exclusive_extends (log st) x) as Hext.
    destruct (actions (log st)) as [|a l] eqn:Ha; simpl.
    + assert (erase (actions (snd (stage_exclusive (log st) x))) = [Exclusive x]) as He
        by (unfold stage_exclusive; rewrite Ha; simpl; by rewrite Ha).
      apply run_mutation_ok; try done; [by unfold stage_exclusive; rewrite Ha|].
      rewrite Ha. by rewrite <- He.
    + change (erase_action a :: erase l) with (erase (a :: l)). rewrite <- Ha.
      apply run_mutation_err; [done|]. unfold stage_exclusive. by rewrite Ha.
  - apply guarded_mutation; simpl; auto using stage_truncate_ok, erase_snoc, ext_app, ext_refl.
  - apply guarded_mutation; simpl; auto using stage_drop_ok, erase_snoc, ext_app, ext_refl.
Qed.

(** ** The simulation *)

(** Ghost history: each frame with the log it was taken from, newest first.  Every
    later log extends it, and levels do not increase towards the bottom. *)
Fixpoint chain (cur : list Action) (g : list (Z * list Action)) : Prop :=
  match g with
  | [] => True
  | (level, saved) :: g' =>
      erased saved ∧ extends saved cur ∧ Forall (λ x, fst x ≤ level) g' ∧ chain saved g'
  end.

Definition frame_of (x : Z * list Action) : HistoryFrame := mkFrame (fst x) (mark_list (snd x)).

(** The log and the history that rolling back to a level leaves. *)
Fixpoint ghost_roll (target : Z) (cur : list Action) (g : list (Z * list Action))
    : list Action * list (Z * list Action) :=
  match g with
  | [] => (cur, [])
  | (level, saved) :: g' => if level <? target then (cur, g) else ghost_roll target saved g'
  end.

Lemma rollback_loop_ghost target l g :
  chain (erase (actions l)) g → log_ok l →
  let st := rollback_loop target l (frame_of <$> g) in
  erase (actions (log st)) = fst (ghost_roll target (erase (actions l)) g) ∧
  level_history st = frame_of <$> snd (ghost_roll target (erase (actions l)) g) ∧
  log_ok (log st).
Proof.
  revert l. induction g as [|[level saved] g IH]; intros l Hc Hok; [done|]. simpl in *.
  destruct Hc as (He & Hx & _ & Hc). destruct (level <? target); [done|].
  assert (erase (actions (truncate l (mark_list saved))) = saved) as Hs.
  { rewrite actions_truncate, erase_truncate_list. by apply truncate_extends. }
  destruct (IH (truncate l (mark_list saved))) as (H1 & H2 & H3);
    [by rewrite Hs|by apply truncate_ok|].
  by rewrite Hs in *.
Qed.

Lemma ghost_roll_twice low high cur g :
  low ≤ high →
  ghost_roll low (fst (ghost_roll high cur g)) (snd (ghost_roll high cur g)) = ghost_roll low cur g.
Proof.
  intros Hle. revert cur. induction g as [|[level saved] g IH]; intros cur; simpl; [done|].
  destruct (Z.ltb_spec level high); simpl; [done|].
  destruct (Z.ltb_spec level low); [lia|]. auto.
Qed.

Lemma ghost_roll_chain target cur g :
  chain cur g → chain (fst (ghost_roll target cur g)) (snd (ghost_roll target cur g)).
Proof.
  revert cur. induction g as [|[level saved] g IH]; intros cur H; simpl in *; [done|].
  destruct (level <? target); simpl; [done|]. apply IH. tauto.
Qed.

Lemma ghost_roll_levels target cur g :
  chain cur g → Forall (λ x, 2 ≤ fst x) g →
  Forall (λ x, 2 ≤ fst x ≤ target - 1) (snd (ghost_roll target cur g)).
Proof.
  revert cur. induction g as [|[level saved] g IH]; intros cur Hc Hg; simpl in *; [done|].
  inversion Hg as [|? ? Hl Hg']; subst. destruct Hc as (_ & _ & Hle & Hc).
  destruct (Z.ltb_spec level target); simpl; [|by eauto].
  constructor; simpl in *; [lia|]. rewrite Forall_forall in *. intros x Hx.
  specialize (Hle x Hx). specialize (Hg' x Hx). simpl in *. lia.
Qed.

(** Promotion on the ghost history. *)
Definition ghost_promote (from_level : Z) (g : list (Z * list Action)) : list (Z * list Action) :=
  filter (λ x, 1 < fst x) (prod_map (promote_level from_level) id <$> g).

Lemma ghost_promote_nil g : Forall (λ x, fst x ≤ 2) g → ghost_promote 2 g = [].
Proof.
  unfold ghost_promote. induction 1 as [|[l s] g Hl Hg IH]; [done|].
  csimpl. rewrite filter_cons_False; [done|]. simpl in *. unfold promote_level.
  destruct (Z.leb_spec 2 l); lia.
Qed.

(** Above the top level no frame is dropped. *)
Lemma ghost_promote_map n g :
  2 < n → Forall (λ x, 2 ≤ fst x ≤ n) g →
  ghost_promote n g = prod_map (promote_level n) id <$> g.
Proof.
  intros Hn. unfold ghost_promote. induction 1 as [|[l s] g Hl Hg IH]; [done|].
  csimpl. rewrite filter_cons_True; [by rewrite IH|]. simpl in *. unfold promote_level.
  destruct (Z.leb_spec n l); lia.
Qed.

Lemma promote_frames n g :
  filter (λ frame, 1 < nest_level frame)
    (map (λ frame, mkFrame (promote_level n (nest_level frame)) (marker frame)) (frame_of <$> g))
  = frame_of <$> ghost_promote n g.
Proof.
  unfold ghost_promote. induction g as [|[l s] g IH]; [done|]. csimpl.
  rewrite !filter_cons. simpl. destruct (decide _); csimpl; by rewrite IH.
Qed.

Lemma promote_level_ge n low level : low ≤ n - 1 → (promote_level n level <? low) = (level <? low).
Proof.
  intros H. unfold promote_level. destruct (Z.leb_spec n level); [|done].
  destruct (Z.ltb_spec (n - 1) low), (Z.ltb_spec level low); lia.
Qed.

Lemma ghost_roll_promote n low cur g :
  low ≤ n - 1 →
  fst (ghost_roll low cur (prod_map (promote_level n) id <$> g)) = fst (ghost_roll low cur g).
Proof.
  intros Hl. revert cur. induction g as [|[level saved] g IH]; intros cur; csimpl; [done|].
  rewrite promote_level_ge by done. destruct (level <? low); simpl; auto.
Qed.

Lemma chain_promote n cur g : chain cur g → chain cur (prod_map (promote_level n) id <$> g).
Proof.
  revert cur. induction g as [|[level saved] g IH]; intros cur; csimpl; [done|].
  intros (He & Hx & Hl & Hc). split_and!; auto.
  apply Forall_fmap. eapply Forall_impl; [done|]. intros [l s]; simpl. unfold promote_level.
  destruct (Z.leb_spec n l), (Z.leb_spec n level); lia.
Qed.

(** The invariant of a table state at a nesting level: its history is the image of
    a ghost chain whose levels belong to open subtransactions. *)
Definition table_inv (n : Z) (st : TableTransactionState) : Prop :=
  ∃ g, level_history st = frame_of <$> g ∧ chain (erase (actions (log st))) g ∧
       Forall (λ x, 2 ≤ fst x ≤ n) g ∧ log_ok (log st).

(** The actions that a rollback to [level] would leave. *)
Definition rolled (st : TableTransactionState) (level : Z) : list Action :=
  erase (actions (log (rollback_to_level st level))).

Lemma rolled_ghost st g level :
  level_history st = frame_of <$> g → chain (erase (actions (log st))) g → log_ok (log st) →
  rolled st level = fst (ghost_roll level (erase (actions (log st))) g).
Proof.
  intros Hh Hc Hok. unfold rolled, rollback_to_level. rewrite Hh. by apply rollback_loop_ghost.
Qed.

Lemma table_inv_new n : table_inv n TableTransactionState_new.
Proof. exists []. split_and!; try done. Qed.

Lemma rolled_new level : rolled TableTransactionState_new level = [].
Proof. done. Qed.

Lemma table_inv_mono n m st : n ≤ m → table_inv n st → table_inv m st.
Proof.
  intros Hle (g & Hh & Hc & Hl & Hok). exists g. split_and!; try done.
  eapply Forall_impl; [done|]. simpl. lia.
Qed.

Lemma table_inv_above n st level :
  table_inv n st → n < level → rolled st level = erase (actions (log st)).
Proof.
  intros (g & Hh & Hc & Hl & Hok) Hlt. rewrite (rolled_ghost st g) by done.
  destruct g as [|[lv x] g]; [done|]. apply Forall_cons in Hl as [Hl _]. simpl in *.
  destruct (Z.ltb_spec lv level); [done|lia].
Qed.

(** A statement at the current level is undone by rolling back any open level. *)
Lemma table_inv_staged n st st' l' :
  table_inv n st → staged n st st' l' →
  table_inv n st' ∧ erase (actions (log st')) = l' ∧
  ∀ level, 2 ≤ level ≤ n → rolled st' level = rolled st level.
Proof.
  intros (g & Hh & Hc & Hl & Hok) (Hl' & Hok' & [[Hh' ->]|[Hh' Hx]]).
  { assert (table_inv n st') as Hinv by (exists g; split_and!; by rewrite ?Hh', ?Hl').
    split_and!; try done. intros level _. rewrite (rolled_ghost st' g), (rolled_ghost st g); try done;
      by rewrite ?Hl', ?Hh'. }
  unfold pushed_history in Hh'. destruct (Z.ltb_spec 1 n).
  - assert (level_history st' = frame_of <$> (n, erase (actions (log st))) :: g) as Hg
      by (rewrite Hh', Hh, mark_erase; done).
    assert (chain (erase (actions (log st'))) ((n, erase (actions (log st))) :: g)) as Hc'.
    { rewrite Hl'. simpl. split_and!; [apply erase_idemp|done| |done].
      eapply Forall_impl; [done|]. simpl. lia. }
    split_and!; [|done|].
    + eexists; split_and!; [done..| |done]. constructor; [simpl; lia|done].
    + intros level Hlev. rewrite (rolled_ghost st' _ _ Hg) by done.
      rewrite (rolled_ghost st g) by done. simpl. destruct (Z.ltb_spec n level); [lia|done].
  - assert (g = []) as ->.
    { destruct g as [|[lv x] g']; [done|]. inversion Hl; subst. simpl in *. lia. }
    split_and!; [|done|intros; lia]. exists []. split_and!; try done. by rewrite Hh'.
Qed.

Lemma table_inv_rollback n st m :
  table_inv n st →
  table_inv (m - 1) (rollback_to_level st m) ∧
  ∀ level, level ≤ m → rolled (rollback_to_level st m) level = rolled st level.
Proof.
  intros (g & Hh & Hc & Hl & Hok).
  destruct (rollback_loop_ghost m (log st) g Hc Hok) as (H1 & H2 & H3).
  rewrite <- Hh in H1, H2, H3. fold (rollback_to_level st m) in H1, H2, H3.
  pose proof (ghost_roll_chain m _ _ Hc) as Hc'. rewrite <- H1 in Hc'. split.
  - eexists; split_and!; [done..| |done]. apply (ghost_roll_levels m _ _ Hc).
    eapply Forall_impl; [done|]. simpl. lia.
  - intros level Hle. rewrite (rolled_ghost _ _ _ H2 Hc' H3), (rolled_ghost st g) by done.
    by rewrite H1, ghost_roll_twice.
Qed.

Lemma table_inv_promote n st :
  2 ≤ n → table_inv n st →
  table_inv (n - 1) (promote_to_level st n) ∧
  ∀ level, 2 ≤ level ≤ n - 1 → rolled (promote_to_level st n) level = rolled st level.
Proof.
  intros Hn (g & Hh & Hc & Hl & Hok).
  assert (level_history (promote_to_level st n) = frame_of <$> ghost_promote n g) as Hg.
  { unfold promote_to_level. simpl. rewrite Hh. apply promote_frames. }
  destruct (Z.eq_dec n 2) as [->|Hne].
  { rewrite ghost_promote_nil in Hg by (eapply Forall_impl; [done|]; simpl; lia).
    split; [|intros; lia]. exists []. split_and!; done. }
  rewrite ghost_promote_map in Hg by (done || lia).
  pose proof (chain_promote n _ _ Hc) as Hc'. split.
  - eexists; split_and!; [done..| |done]. apply Forall_fmap. eapply Forall_impl; [done|].
    intros [lv s]; simpl. unfold promote_level. destruct (Z.leb_spec n lv); lia.
  - intros level Hlev. rewrite (rolled_ghost (promote_to_level st n) _ _ Hg Hc' Hok), (rolled_ghost st g) by done.
    apply ghost_roll_promote. lia.
Qed.

(** Promoting a level above all frames changes nothing. *)
Lemma promote_above n st m : table_inv n st → n < m → promote_to_level st m = st.
Proof.
  intros (g & Hh & _ & Hl & _) Hlt. unfold promote_to_level. destruct st as [lg h]; simpl in *.
  subst h. f_equal. induction Hl as [|[lv s] g Hlv Hl IH]; [done|]. csimpl. simpl in *.
  unfold promote_level at 1. destruct (Z.leb_spec m lv); [lia|].
  rewrite filter_cons_True by (simpl; lia). by rewrite IH.
Qed.

(** The refinement relation: every open savepoint's copy is what a rollback would
    leave. *)
Record simulates (s : Z * TableTransactionState) (spec : list Action * list (list Action))
    : Prop := {
  sim_log : erase (actions (log (snd s))) = fst spec;
  sim_inv : table_inv (fst s) (snd s);
  sim_depth : fst s = 1 + Z.of_nat (length (snd spec));
  sim_saved : ∀ i l, snd spec !! i = Some l → rolled (snd s) (fst s - Z.of_nat i) = l;
}.

Lemma table_inv_ok n st : table_inv n st → log_ok (log st).
Proof. by intros (g & _ & _ & _ & Hok). Qed.

Lemma simulates_new : simulates (1, TableTransactionState_new) ([], []).
Proof. split; simpl; try done. apply table_inv_new. Qed.

Lemma simulates_rollback level st l l' saved :
  simulates (level, st) (l, l' :: saved) →
  simulates (level - 1, rollback_to_level st level) (l', saved).
Proof.
  intros [Hl Hinv Hd Hs]; simpl in *. destruct (table_inv_rollback _ _ level Hinv) as [Hinv' Hr].
  split; simpl; try done; try lia.
  - pose proof (Hs 0%nat l' eq_refl) as H0. by rewrite Z.sub_0_r in H0.
  - intros i s Hi. rewrite Hr by lia. rewrite <- (Hs (S i) s Hi). f_equal. lia.
Qed.

Lemma simulates_release level st l l' saved :
  simulates (level, st) (l, l' :: saved) →
  simulates (level - 1, promote_to_level st level) (l, saved).
Proof.
  intros [Hl Hinv Hd Hs]; simpl in *.
  destruct (table_inv_promote level st) as [Hinv' Hr]; [lia|done|].
  split; simpl; try done; try lia.
  intros i s Hi. pose proof (lookup_lt_Some _ _ _ Hi). rewrite Hr by lia.
  rewrite <- (Hs (S i) s Hi). f_equal. lia.
Qed.

Section Reads.
Context `{SL : !SnapshotDeltaLaws IL}.

(** A read answers from the reference overlay and only fills caches. *)
Lemma read_inv n st rc :
  table_inv n st →
  let st' := mkTableState (snd (visible_delta (log st) rc)) (level_history st) in
  fst (visible_delta (log st) rc) = visible_ref rc (actions (log st)) ∧
  erase (actions (log st')) = erase (actions (log st)) ∧
  table_inv n st' ∧ ∀ level, rolled st' level = rolled st level.
Proof.
  intros Hinv. pose proof Hinv as (g & Hh & Hc & Hl & Hok).
  destruct (visible_delta_spec (log st) rc Hok) as (H1 & H2 & H3). simpl. split_and!; try done.
  - exists g. split_and!; simpl; by rewrite ?H2.
  - intros level. rewrite (rolled_ghost _ g), (rolled_ghost st g); simpl; by rewrite ?H2.
Qed.

(** One event: equal outcomes, and the relation is restored. *)
Lemma simulates_step s spec ev :
  simulates s spec →
  fst (table_step s ev) = fst (spec_step spec ev) ∧
  simulates (snd (table_step s ev)) (snd (spec_step spec ev)).
Proof.
  destruct s as [level st], spec as [l saved]. intros Hsim. pose proof Hsim as [Hl Hinv Hd Hs].
  pose proof (table_inv_ok _ _ Hinv) as Hok. simpl in *. destruct ev as [op|rc| | |]; simpl.
  - destruct (record_op_spec level st op Hok) as [Hr Hst]. rewrite Hl in *.
    destruct (record_op st level op) as [r st'], (spec_op l op) as [r' l']; simpl in *. subst r.
    destruct (table_inv_staged level st st' l' Hinv Hst) as (Hinv' & Hl' & Hr'). split; [done|].
    split; simpl; try done. intros i s Hi. pose proof (lookup_lt_Some _ _ _ Hi).
    rewrite Hr' by lia. by apply Hs.
  - destruct (read_inv level st rc Hinv) as (H1 & H2 & Hinv' & Hr). rewrite <- Hl, visible_ref_erase.
    destruct (visible_delta (log st) rc) as [r lg]; simpl in *. subst r. split; [done|].
    split; simpl; try done. intros i s Hi. rewrite Hr. by apply Hs.
  - split; [done|]. split; simpl; try done; try lia; [by eapply table_inv_mono; [|done]; lia|].
    intros [|i] s' Hi; simpl in Hi.
    + injection Hi as <-. rewrite <- Hl. eapply table_inv_above; [done|]. lia.
    + rewrite <- (Hs i s' Hi). f_equal. lia.
  - destruct saved as [|l' saved]; simpl in *; destruct (Z.ltb_spec 1 level); try lia; simpl;
      split; try done. by eapply simulates_release.
  - destruct saved as [|l' saved]; simpl in *; destruct (Z.ltb_spec 1 level); try lia; simpl;
      split; try done. by eapply simulates_rollback.
Qed.

Lemma simulates_run s spec evs :
  simulates s spec →
  fst (run table_step s evs) = fst (run spec_step spec evs) ∧
  simulates (snd (run table_step s evs)) (snd (run spec_step spec evs)).
Proof.
  revert s spec. induction evs as [|ev evs IH]; intros s spec Hsim; [done|].
  destruct (simulates_step s spec ev Hsim) as [Ho Hsim']. simpl.
  destruct (table_step s ev) as [o s'], (spec_step spec ev) as [o' spec']; simpl in *. subst o.
  destruct (IH _ _ Hsim') as [Hos Hsim''].
  destruct (run table_step s' evs), (run spec_step spec' evs); simpl in *. by subst.
Qed.

(** C2. Savepoint refinement: for every sequence of statements, reads at any command
    id, SAVEPOINT, RELEASE and ROLLBACK commands, the table state answers every
    statement and every read exactly as the machine that saves a copy of the log
    at each savepoint, and ends with the same recorded actions, however frames
    were promoted, popped and caches filled in between. *)
Theorem savepoint_refinement evs :
  let impl := run table_step (1, TableTransactionState_new) evs in
  let spec := run spec_step ([], []) evs in
  fst impl = fst spec ∧
  erase (actions (log (snd (snd impl)))) = fst (snd spec) ∧
  fst (snd impl) = 1 + Z.of_nat (length (snd (snd spec))).
Proof. by destruct (simulates_run _ _ evs simulates_new) as [Ho [Hl _ Hd _]]. Qed.

End Reads.
End TableState.

Arguments TableTransactionState {IL} E G.
Arguments table_event {IL} E G.

(** ** Witness *)

Definition unit_exclusive : ExclusiveTransactionAction (@LiteError ref_lite) unit := {|
  NOT_EXCLUSIVE_INVARIANT := "exclusive action is not alone";
  MISPLACED_INVARIANT := "exclusive action is not first";
  conflict_error _ := InvariantViolated "conflict";
|}.

Definition one_file (cid : Z) (f : string) : @table_op ref_lite unit unit :=
  OpBatch (@mkBatch ref_lite cid (RefDelta false [f] [f]) None).

(** Two nested savepoints; the inner one is released into the outer one, which is
    then rolled back. *)
Definition savepoint_example : list (@table_event ref_lite unit unit) :=
  [EvOp (one_file 1 "a"); EvSavepoint; EvOp (one_file 2 "b"); EvSavepoint; EvOp (one_file 3 "c");
   EvOp (OpTruncate tt 4); EvRelease; EvRead (Some 4); EvRead None; EvRollback; EvRead None].

Lemma savepoint_refinement_witness :
  drop 4 (fst (run (table_step (EA := unit_exclusive)) (1, TableTransactionState_new)
                 savepoint_example)) =
    [Visible (Ok (Some (RefDelta false ["a"; "b"; "c"] ["a"; "b"; "c"])));
     Visible (Ok (Some (RefDelta true ["a"; "b"; "c"] [])));
     Visible (Ok (Some (RefDelta false ["a"] ["a"])))].
Proof.
  rewrite (proj1 (savepoint_refinement (EA := unit_exclusive) savepoint_example)).
  vm_compute. reflexivity.
Defined.
