(* ===== verification/RowRegistry.v ===== *)
(** * Transaction-scoped row registry

    Model of lagodb-iceberg/src/write/registry.rs: stable file ids for data-file
    paths and the ownership of (file, row position) pairs that a transaction has
    modified.  Each owner's position set is a shared [Rc<RefCell<RoaringBitmap>>]
    whose handle is also given to the position-delete accumulator, so bitmaps
    live in an explicit store and owners hold handles into it.  Operations are
    atomic in the single-threaded backend, so the [try_borrow] errors, which
    report re-entrancy, do not arise.  A Roaring bitmap is a set of 32-bit
    positions. *)
From stdpp Require Import base gmap list strings pretty.
From Stdlib Require Import ZArith Lia.
From S2P Require Import Prelude Errors RowIdentity.

Local Open Scope Z_scope.

(** A handle is an index into the store of allocated bitmaps. *)
Abbreviation OwnedRowPositions := nat.

Inductive RowMutationClaim :=
| FirstTouch (new_file_positions : option OwnedRowPositions)
| PreviouslyModified (modifying_command_id : Z).

Record MutationOwner := mkOwner {
  owner_modify_state_id : Z;
  owner_command_id : Z;
  owner_nest_level : Z;
  owner_positions : OwnedRowPositions;
}.

Record RegisteredFile := mkFile {
  file_path : string;
  mutation_owners : list MutationOwner;
}.

Record RelationRowRegistry := mkRegistry {
  file_ids : gmap string Z;
  files : list RegisteredFile;
  next_modify_state_id : Z;
  bitmaps : list (gset Z);
}.

Definition RelationRowRegistry_default : RelationRowRegistry := mkRegistry ∅ [] 0 [].

Definition with_files (reg : RelationRowRegistry) (fs : list RegisteredFile) : RelationRowRegistry :=
  mkRegistry (file_ids reg) fs (next_modify_state_id reg) (bitmaps reg).

Section Registry.
Context {L : Type}.

Definition OwnedRowPositions_contains (reg : RelationRowRegistry) (h : OwnedRowPositions)
    (position : Z) : bool := bool_decide (position ∈ default ∅ (bitmaps reg !! h)).

(** [RoaringBitmap::insert] reports whether the position was new. *)
Definition OwnedRowPositions_insert (reg : RelationRowRegistry) (h : OwnedRowPositions)
    (position : Z) : bool * RelationRowRegistry :=
  (negb (OwnedRowPositions_contains reg h position),
   mkRegistry (file_ids reg) (files reg) (next_modify_state_id reg)
     (alter (λ s, {[position]} ∪ s) h (bitmaps reg))).

(** [OwnedRowPositions::new_with] allocates. *)
Definition OwnedRowPositions_new_with (reg : RelationRowRegistry) (position : Z)
    : OwnedRowPositions * RelationRowRegistry :=
  (length (bitmaps reg),
   mkRegistry (file_ids reg) (files reg) (next_modify_state_id reg)
     (bitmaps reg ++ [{[position]}])).

Definition unknown_file {A} (file_id : Z) : IcebergResult L A :=
  Err (MetadataTracker ("unknown Iceberg file ID " +:+ pretty file_id)).

Definition register_file (reg : RelationRowRegistry) (path : string)
    : IcebergResult L Z * RelationRowRegistry :=
  match file_ids reg !! path with
  | Some file_id => (Ok file_id, reg)
  | None =>
      let raw_id := Z.of_nat (length (files reg)) in
      if is_u32 raw_id
      then
        match try_from_raw raw_id with
        | Err err => (Err err, reg)
        | Ok file_id =>
            (Ok file_id,
             mkRegistry (<[path := file_id]> (file_ids reg)) (files reg ++ [mkFile path []])
               (next_modify_state_id reg) (bitmaps reg))
        end
      else (Err (MetadataTracker "Iceberg file ID cannot be represented as u32"), reg)
  end.

Definition registry_file_path (reg : RelationRowRegistry) (file_id : Z) : IcebergResult L string :=
  match files reg !! Z.to_nat file_id with
  | Some file => Ok (file_path file)
  | None => unknown_file file_id
  end.

Definition begin_modify_state (reg : RelationRowRegistry)
    : IcebergResult L Z * RelationRowRegistry :=
  let id := next_modify_state_id reg in
  match checked_add u64_max (next_modify_state_id reg) 1 with
  | None => (Err (MetadataTracker "Iceberg ModifyState ID space was exhausted"), reg)
  | Some next => (Ok id, mkRegistry (file_ids reg) (files reg) next (bitmaps reg))
  end.

(** The probing loop of [claim_inner]: [inl] is the early return with the command
    of another owner, [inr] the index of the current owner. *)
Fixpoint probe_owners (reg : RelationRowRegistry) (modify_state_id position : Z)
    (current_owner : option nat) (index : nat) (owners : list MutationOwner) : Z + option nat :=
  match owners with
  | [] => inr current_owner
  | owner :: owners' =>
      if owner_modify_state_id owner =? modify_state_id
      then probe_owners reg modify_state_id position (Some index) (S index) owners'
      else if OwnedRowPositions_contains reg (owner_positions owner) position
      then inl (owner_command_id owner)
      else probe_owners reg modify_state_id position current_owner (S index) owners'
  end.

Definition push_owner (owner : MutationOwner) (file : RegisteredFile) : RegisteredFile :=
  mkFile (file_path file) (mutation_owners file ++ [owner]).

(** [claim], with [nest_level] the result of [GetCurrentTransactionNestLevel]. *)
Definition claim (reg : RelationRowRegistry) (modify_state_id file_id position command_id : Z)
    (nest_level : Z) : IcebergResult L RowMutationClaim * RelationRowRegistry :=
  match files reg !! Z.to_nat file_id with
  | None => (unknown_file file_id, reg)
  | Some file =>
      match probe_owners reg modify_state_id position None 0 (mutation_owners file) with
      | inl modifying_command_id => (Ok (PreviouslyModified modifying_command_id), reg)
      | inr (Some index) =>
          match mutation_owners file !! index with
          | None => (Err (InvariantViolated "index out of bounds"), reg)
          | Some owner =>
              if negb (owner_command_id owner =? command_id)
              then (Err (InvariantViolated "one Iceberg ModifyState observed multiple command IDs"),
                    reg)
              else
                let '(inserted, reg) := OwnedRowPositions_insert reg (owner_positions owner) position in
                if negb inserted
                then (Ok (PreviouslyModified (owner_command_id owner)), reg)
                else (Ok (FirstTouch None), reg)
          end
      | inr None =>
          let '(positions, reg) := OwnedRowPositions_new_with reg position in
          let owner := mkOwner modify_state_id command_id nest_level positions in
          (Ok (FirstTouch (Some positions)),
           with_files reg (alter (push_owner owner) (Z.to_nat file_id) (files reg)))
      end
  end.

End Registry.

Definition registry_rollback_to_level (reg : RelationRowRegistry) (target_level : Z)
    : RelationRowRegistry :=
  with_files reg
    (map (λ file, mkFile (file_path file)
                    (filter (λ owner, owner_nest_level owner < target_level) (mutation_owners file)))
       (files reg)).

Definition promote_owner (from_level : Z) (owner : MutationOwner) : MutationOwner :=
  if from_level <=? owner_nest_level owner
  then mkOwner (owner_modify_state_id owner) (owner_command_id owner) (from_level - 1)
         (owner_positions owner)
  else owner.

Definition registry_promote_to_level (reg : RelationRowRegistry) (from_level : Z)
    : RelationRowRegistry :=
  with_files reg
    (map (λ file, mkFile (file_path file)
                    (map (promote_owner from_level) (mutation_owners file)))
       (files reg)).

(** ** Ownership *)

Definition positions_of (reg : RelationRowRegistry) (h : OwnedRowPositions) : gset Z :=
  default ∅ (bitmaps reg !! h).

(** [o] is an owner of the file with index [f]. *)
Definition owner_in (reg : RelationRowRegistry) (f : nat) (o : MutationOwner) : Prop :=
  ∃ file, files reg !! f = Some file ∧ o ∈ mutation_owners file.

Definition owned (reg : RelationRowRegistry) (f : nat) (position : Z) (o : MutationOwner) : Prop :=
  owner_in reg f o ∧ position ∈ positions_of reg (owner_positions o).

(** File ids are a bijection between the registered paths and an initial segment
    of the 17-bit ids; a row has at most one owner; a modify state owns a file at
    most once; and no two owners share a bitmap. *)
Record registry_ok (reg : RelationRowRegistry) : Prop := {
  ok_ids : ∀ p id, file_ids reg !! p = Some id ↔
    0 ≤ id ∧ (file_path <$> files reg) !! Z.to_nat id = Some p;
  ok_bound : Z.of_nat (length (files reg)) ≤ MAX_ICEBERG_FILES;
  ok_next : 0 ≤ next_modify_state_id reg ≤ u64_max;
  ok_unique : ∀ f p o o', owned reg f p o → owned reg f p o' → o = o';
  ok_state : ∀ f o o', owner_in reg f o → owner_in reg f o' →
    owner_modify_state_id o = owner_modify_state_id o' → o = o';
  ok_handle : ∀ f o, owner_in reg f o → (owner_positions o < length (bitmaps reg))%nat;
  ok_shared : ∀ f f' o o', owner_in reg f o → owner_in reg f' o' →
    owner_positions o = owner_positions o' → f = f' ∧ o = o';
}.

Lemma owner_in_default f o : ¬ owner_in RelationRowRegistry_default f o.
Proof. intros (file & H & _). by destruct f. Qed.

Lemma registry_ok_default : registry_ok RelationRowRegistry_default.
Proof.
  split; simpl; try done.
  - intros p id. split; [done|]. intros (_ & H). by destruct (Z.to_nat id).
  - intros f p o o' [[]%owner_in_default _].
  - by intros f o o' ?%owner_in_default.
  - by intros f o ?%owner_in_default.
  - by intros f f' o o' ?%owner_in_default.
Qed.

Lemma contains_spec reg h p :
  OwnedRowPositions_contains reg h p = true ↔ p ∈ positions_of reg h.
Proof. unfold OwnedRowPositions_contains. by rewrite bool_decide_eq_true. Qed.

(** *** Probing *)

Lemma probe_inl reg ms p cur index os c :
  probe_owners reg ms p cur index os = inl c →
  ∃ o, o ∈ os ∧ owner_modify_state_id o ≠ ms ∧ p ∈ positions_of reg (owner_positions o) ∧
       owner_command_id o = c.
Proof.
  revert cur index. induction os as [|o os IH]; intros cur index; simpl; [done|].
  destruct (Z.eqb_spec (owner_modify_state_id o) ms) as [He|He].
  - intros (o' & ? & ?)%IH. exists o'. set_solver.
  - destruct (OwnedRowPositions_contains _ _ _) eqn:Hc.
    + intros [= <-]. exists o. apply contains_spec in Hc. set_solver.
    + intros (o' & ? & ?)%IH. exists o'. set_solver.
Qed.

Lemma probe_inr reg ms p cur index os r :
  probe_owners reg ms p cur index os = inr r →
  (∀ o, o ∈ os → owner_modify_state_id o ≠ ms → p ∉ positions_of reg (owner_positions o)) ∧
  (r = cur ∧ (∀ o, o ∈ os → owner_modify_state_id o ≠ ms) ∨
   ∃ i o, r = Some (index + i)%nat ∧ os !! i = Some o ∧ owner_modify_state_id o = ms).
Proof.
  revert cur index. induction os as [|o os IH]; intros cur index; simpl.
  { intros [= <-]. split; [set_solver|]. left. set_solver. }
  destruct (Z.eqb_spec (owner_modify_state_id o) ms) as [He|He].
  - intros [H1 H2]%IH. split; [set_solver|]. right.
    destruct H2 as [[-> _]|(i & o' & -> & ? & ?)].
    + exists 0%nat, o. rewrite Nat.add_0_r. done.
    + exists (S i), o'. rewrite Nat.add_succ_r. done.
  - destruct (OwnedRowPositions_contains _ _ _) eqn:Hc; [done|].
    rewrite <- not_true_iff_false, contains_spec in Hc.
    intros [H1 H2]%IH. split; [set_solver|].
    destruct H2 as [[-> ?]|(i & o' & -> & ? & ?)]; [left; set_solver|].
    right. exists (S i), o'. rewrite Nat.add_succ_r. done.
Qed.

(** *** The outcomes of a claim *)

Definition inserted (reg : RelationRowRegistry) (h : OwnedRowPositions) (p : Z)
    : RelationRowRegistry := snd (OwnedRowPositions_insert reg h p).

Definition pushed (reg : RelationRowRegistry) (f : nat) (ms c level p : Z) : RelationRowRegistry :=
  with_files (snd (OwnedRowPositions_new_with reg p))
    (alter (push_owner (mkOwner ms c level (length (bitmaps reg)))) f (files reg)).

Inductive claim_outcome (reg : RelationRowRegistry) (ms f p c level : Z) {L}
    : IcebergResult L RowMutationClaim → RelationRowRegistry → Prop :=
| outcome_previous o :
    owned reg (Z.to_nat f) p o →
    claim_outcome reg ms f p c level (Ok (PreviouslyModified (owner_command_id o))) reg
| outcome_command o :
    owner_in reg (Z.to_nat f) o → owner_modify_state_id o = ms → owner_command_id o ≠ c →
    claim_outcome reg ms f p c level
      (Err (InvariantViolated "one Iceberg ModifyState observed multiple command IDs")) reg
| outcome_again o :
    (∀ o, ¬ owned reg (Z.to_nat f) p o) →
    owner_in reg (Z.to_nat f) o → owner_modify_state_id o = ms → owner_command_id o = c →
    claim_outcome reg ms f p c level (Ok (FirstTouch None)) (inserted reg (owner_positions o) p)
| outcome_first :
    (∀ o, ¬ owned reg (Z.to_nat f) p o) →
    (∀ o, owner_in reg (Z.to_nat f) o → owner_modify_state_id o ≠ ms) →
    claim_outcome reg ms f p c level (Ok (FirstTouch (Some (length (bitmaps reg)))))
      (pushed reg (Z.to_nat f) ms c level p).

Lemma inserted_present reg h p : p ∈ positions_of reg h → inserted reg h p = reg.
Proof.
  unfold inserted, OwnedRowPositions_insert, positions_of. destruct reg as [ids fs nx bm]; simpl.
  intros Hp. f_equal. destruct (bm !! h) as [s|] eqn:Hs; simpl in Hp; [|set_solver].
  apply list_eq. intros k. destruct (decide (k = h)) as [->|Hk].
  - rewrite list_lookup_alter_eq, Hs. simpl. f_equal. set_solver.
  - by rewrite list_lookup_alter_ne.
Qed.

Lemma claim_outcome_spec {L} reg ms f p c level file :
  registry_ok reg → files reg !! Z.to_nat f = Some file →
  claim_outcome reg ms f p c level
    (fst (claim (L := L) reg ms f p c level)) (snd (claim (L := L) reg ms f p c level)).
Proof.
  intros Hok Hf. unfold claim. rewrite Hf.
  assert (∀ o, owner_in reg (Z.to_nat f) o ↔ o ∈ mutation_owners file) as Hin.
  { unfold owner_in. split; [intros (file' & ? & ?); by simplify_eq|eauto]. }
  destruct (probe_owners reg ms p None 0 (mutation_owners file)) as [c'|r] eqn:Hp; simpl.
  { destruct (probe_inl _ _ _ _ _ _ _ Hp) as (o & Ho & _ & Hpos & <-).
    constructor. split; [by apply Hin|done]. }
  destruct (probe_inr _ _ _ _ _ _ _ Hp) as [Hno [[-> Hms]|(i & o & -> & Ho & Hms)]]; simpl.
  - constructor.
    + intros o [Ho Hpos]. apply Hin in Ho. apply (Hno o); auto.
    + intros o Ho. apply Hms. by apply Hin.
  - rewrite Ho. apply list_elem_of_lookup_2, Hin in Ho.
    destruct (Z.eqb_spec (owner_command_id o) c) as [Hc|Hc]; simpl; [|by econstructor].
    change (mkRegistry _ _ _ _) with (inserted reg (owner_positions o) p).
    destruct (OwnedRowPositions_contains reg (owner_positions o) p) eqn:Hpos; simpl.
    + apply contains_spec in Hpos. rewrite inserted_present by done. by constructor.
    + rewrite <- not_true_iff_false, contains_spec in Hpos.
      apply (outcome_again reg ms f p c level o); try done.
      intros o' [Ho' Hpos']. destruct (Z.eq_dec (owner_modify_state_id o') ms) as [He|He].
      * rewrite (ok_state reg Hok (Z.to_nat f) o' o) in Hpos' by congruence. done.
      * apply Hin in Ho'. by apply (Hno o').
Qed.

(** *** Effects on ownership *)

Lemma owner_in_pushed reg f ms c level p f' o :
  (∃ file, files reg !! f = Some file) →
  owner_in (pushed reg f ms c level p) f' o ↔
    owner_in reg f' o ∨ f' = f ∧ o = mkOwner ms c level (length (bitmaps reg)).
Proof.
  intros [file Hf]. unfold owner_in, pushed. simpl.
  destruct (decide (f' = f)) as [->|Hne].
  - rewrite list_lookup_alter_eq, Hf. simpl. split.
    + intros (? & [= <-] & Ho). simpl in Ho. rewrite elem_of_app, list_elem_of_singleton in Ho.
      destruct Ho as [Ho| ->]; eauto.
    + intros Ho. eexists; split; [done|]. simpl. rewrite elem_of_app, list_elem_of_singleton.
      destruct Ho as [(? & [= <-] & ?)|[_ ->]]; eauto.
  - rewrite list_lookup_alter_ne by done. naive_solver.
Qed.

Lemma positions_pushed reg f ms c level p h :
  positions_of (pushed reg f ms c level p) h =
    if decide (h = length (bitmaps reg)) then {[p]} else positions_of reg h.
Proof.
  unfold positions_of, pushed. simpl. destruct (decide _) as [->|Hne].
  - by rewrite lookup_app_r, Nat.sub_diag by done.
  - destruct (decide (h < length (bitmaps reg))%nat) as [Hlt|Hge].
    + by rewrite lookup_app_l by done.
    + rewrite lookup_app_r by lia. rewrite !lookup_ge_None_2; [done|lia|]. simpl. lia.
Qed.

Lemma positions_inserted reg h p h' :
  (h < length (bitmaps reg))%nat →
  positions_of (inserted reg h p) h' =
    if decide (h' = h) then {[p]} ∪ positions_of reg h else positions_of reg h'.
Proof.
  intros Hlt. unfold positions_of, inserted. simpl. destruct (decide _) as [->|Hne].
  - rewrite list_lookup_alter_eq. apply lookup_lt_is_Some in Hlt as [s ->]. done.
  - by rewrite list_lookup_alter_ne.
Qed.

Lemma owner_in_rollback reg level f o :
  owner_in (registry_rollback_to_level reg level) f o ↔
    owner_in reg f o ∧ owner_nest_level o < level.
Proof.
  unfold owner_in, registry_rollback_to_level. simpl.
  change (map ?g ?l) with (g <$> l). rewrite list_lookup_fmap.
  destruct (files reg !! f) as [file|]; simpl; [|naive_solver]. split.
  - intros (? & [= <-] & [? ?]%list_elem_of_filter). eauto.
  - intros [(? & [= <-] & ?) ?]. eexists; split; [done|]. by apply list_elem_of_filter.
Qed.

Lemma owner_in_promote reg level f o :
  owner_in (registry_promote_to_level reg level) f o ↔
    ∃ o0, owner_in reg f o0 ∧ o = promote_owner level o0.
Proof.
  unfold owner_in, registry_promote_to_level. simpl.
  change (map ?g ?l) with (g <$> l). rewrite list_lookup_fmap.
  destruct (files reg !! f) as [file|]; simpl; [|naive_solver]. split.
  - intros (? & [= <-] & (o0 & -> & ?)%list_elem_of_fmap). eauto 6.
  - intros (o0 & (? & [= <-] & ?) & ->). eexists; split; [done|]. simpl.
    by apply list_elem_of_fmap_2.
Qed.

(** *** Preservation *)

Lemma owner_in_register {L} reg path f o :
  owner_in (snd (register_file (L := L) reg path)) f o ↔ owner_in reg f o.
Proof.
  unfold register_file. destruct (file_ids reg !! path); [done|].
  destruct (is_u32 _); [|done]. destruct (try_from_raw _); [|done].
  unfold owner_in. simpl. setoid_rewrite lookup_snoc_Some. split.
  - intros (file & [[? ?]|[_ <-]] & Ho); [eauto|]. simpl in Ho. set_solver.
  - intros (file & Hf & Ho). exists file. split; [|done]. left. split; [|done].
    by eapply lookup_lt_Some.
Qed.

Lemma registry_ok_register {L} reg path :
  registry_ok reg → registry_ok (snd (register_file (L := L) reg path)).
Proof.
  intros Hok. pose proof (owner_in_register (L := L) reg path) as Hin.
  unfold register_file in *. destruct (file_ids reg !! path) eqn:Hp; [done|].
  destruct (is_u32 _); [|done]. unfold try_from_raw in *.
  destruct (MAX_ICEBERG_FILES <=? _) eqn:Hlt; [done|]. apply Z.leb_gt in Hlt. simpl in Hin.
  destruct Hok as [Hids Hb Hn Hu Hs Hh Hsh]. split; simpl; try done.
  - intros p id. rewrite lookup_insert_Some, fmap_app. csimpl. rewrite lookup_snoc_Some, length_fmap.
    destruct (decide (path = p)) as [->|Hne].
    + split.
      * intros [[_ <-]|[? _]]; [|done]. split; [lia|]. right. split; [lia|done].
      * intros [Hid [[_ H1]|[H1 _]]]; [|left; split; [done|lia]].
        by rewrite (proj2 (Hids p id)) in Hp.
    + rewrite Hids. split.
      * intros [[? _]|[_ [Hid H1]]]; [done|]. split; [done|]. left. split; [|done].
        apply lookup_lt_Some in H1. by rewrite length_fmap in H1.
      * intros [Hid [[_ H1]|[_ <-]]]; [|done]. right. done.
  - rewrite length_app. simpl. lia.
  - intros f p o o' [H1 H2] [H3 H4]. rewrite Hin in H1, H3. by apply (Hu f p).
  - intros f o o'. rewrite !Hin. apply Hs.
  - intros f o. rewrite Hin. apply Hh.
  - intros f f' o o'. rewrite !Hin. apply Hsh.
Qed.

Lemma registry_ok_begin {L} reg :
  registry_ok reg → registry_ok (snd (begin_modify_state (L := L) reg)).
Proof.
  intros [Hids Hb Hn Hu Hs Hh Hsh]. unfold begin_modify_state, checked_add.
  case_match eqn:Hm; [|by split]. case_match eqn:Hle; inv Hm. apply Z.leb_le in Hle.
  split; simpl; try done. lia.
Qed.

Lemma registry_ok_inserted reg f o p :
  registry_ok reg → owner_in reg f o → (∀ o, ¬ owned reg f p o) →
  registry_ok (inserted reg (owner_positions o) p).
Proof.
  intros [Hids Hb Hn Hu Hs Hh Hsh] Ho Hfree. pose proof (Hh f o Ho) as Hlt.
  split; try done.
  - intros f' p' o1 o2 [H1 H2] [H3 H4]. rewrite positions_inserted in H2, H4 by done.
    assert (∀ o', owner_in reg f' o' → owner_positions o' = owner_positions o → f' = f ∧ o' = o)
      as Hsame by (intros; by eapply Hsh).
    destruct (decide (owner_positions o1 = owner_positions o)) as [He1|He1];
      destruct (decide (owner_positions o2 = owner_positions o)) as [He2|He2].
    + destruct (Hsame o1 H1 He1) as [_ ->], (Hsame o2 H3 He2) as [_ ->]. done.
    + destruct (Hsame o1 H1 He1) as [-> ->]. apply elem_of_union in H2 as [->%elem_of_singleton|H2].
      * destruct (Hfree o2). done.
      * by apply (Hu f p').
    + destruct (Hsame o2 H3 He2) as [-> ->]. apply elem_of_union in H4 as [->%elem_of_singleton|H4].
      * destruct (Hfree o1). done.
      * by apply (Hu f p').
    + by apply (Hu f' p').
  - intros f' o' H'. simpl. rewrite length_alter. by apply (Hh f' o').
Qed.

Lemma paths_alter_push (fs : list RegisteredFile) f o :
  file_path <$> alter (push_owner o) f fs = file_path <$> fs.
Proof.
  apply list_eq. intros k. rewrite !list_lookup_fmap.
  destruct (decide (f = k)) as [->|Hne].
  - rewrite list_lookup_alter_eq. by destruct (fs !! k).
  - by rewrite list_lookup_alter_ne.
Qed.

Lemma registry_ok_pushed reg f ms c level p :
  registry_ok reg → (∃ file, files reg !! f = Some file) → (∀ o, ¬ owned reg f p o) →
  (∀ o, owner_in reg f o → owner_modify_state_id o ≠ ms) →
  registry_ok (pushed reg f ms c level p).
Proof.
  intros [Hids Hb Hn Hu Hs Hh Hsh] Hf Hfree Hms.
  assert (∀ f' o, owner_in reg f' o → owner_positions o ≠ length (bitmaps reg)) as Hold.
  { intros f' o Ho. specialize (Hh f' o Ho). lia. }
  split; try done.
  - intros q id. unfold pushed. simpl. by rewrite paths_alter_push.
  - unfold pushed. simpl. by rewrite length_alter.
  - intros f' q o o' [H1 H2] [H3 H4]. rewrite owner_in_pushed in H1, H3 by done.
    rewrite positions_pushed in H2, H4.
    destruct H1 as [H1|[? ?]], H3 as [H3|[? ?]]; subst; simpl in *; [|..|done];
      rewrite ?decide_True in H2 by done; rewrite ?decide_True in H4 by done;
      rewrite ?decide_False in H2 by (by eapply Hold);
      rewrite ?decide_False in H4 by (by eapply Hold).
    + by apply (Hu f' q).
    + apply elem_of_singleton in H4 as ->. by destruct (Hfree o).
    + apply elem_of_singleton in H2 as ->. by destruct (Hfree o').
  - intros f' o o' H1 H3. rewrite owner_in_pushed in H1, H3 by done.
    destruct H1 as [H1|[? ?]], H3 as [H3|[? ?]]; subst; simpl; [by eapply Hs|..|done]; intros He.
    + by edestruct Hms.
    + by edestruct Hms.
  - intros f' o H1. rewrite owner_in_pushed in H1 by done. unfold pushed; simpl.
    rewrite length_app. simpl. destruct H1 as [H1|[? ?]]; subst; simpl; [|lia].
    specialize (Hh f' o H1). lia.
  - intros f1 f2 o o' H1 H3. rewrite owner_in_pushed in H1, H3 by done.
    destruct H1 as [H1|[? ?]], H3 as [H3|[? ?]]; subst; simpl; [by apply Hsh|..|done]; intros He.
    + by edestruct Hold.
    + by edestruct Hold.
Qed.

Lemma registry_ok_rollback reg level :
  registry_ok reg → registry_ok (registry_rollback_to_level reg level).
Proof.
  intros [Hids Hb Hn Hu Hs Hh Hsh].
  split; try done.
  - intros q id. simpl. rewrite <- list_fmap_compose. apply Hids.
  - simpl. by rewrite length_map.
  - intros f p o o' [[H1 _]%owner_in_rollback H2] [[H3 _]%owner_in_rollback H4]. by apply (Hu f p).
  - intros f o o' [? _]%owner_in_rollback [? _]%owner_in_rollback. by apply (Hs f).
  - intros f o [? _]%owner_in_rollback. by apply (Hh f).
  - intros f f' o o' [? _]%owner_in_rollback [? _]%owner_in_rollback. by apply Hsh.
Qed.

Lemma promote_owner_fields level o :
  owner_modify_state_id (promote_owner level o) = owner_modify_state_id o ∧
  owner_command_id (promote_owner level o) = owner_command_id o ∧
  owner_positions (promote_owner level o) = owner_positions o.
Proof. unfold promote_owner. by case_match. Qed.

Lemma owned_promote reg level f p o :
  owned (registry_promote_to_level reg level) f p o ↔
    ∃ o0, owned reg f p o0 ∧ o = promote_owner level o0.
Proof.
  unfold owned. rewrite owner_in_promote. split.
  - intros [(o0 & H1 & ->) H2]. exists o0.
    by rewrite (proj2 (proj2 (promote_owner_fields level o0))) in H2.
  - intros (o0 & [H1 H2] & ->). split; [eauto|].
    by rewrite (proj2 (proj2 (promote_owner_fields level o0))).
Qed.

Lemma registry_ok_promote reg level :
  registry_ok reg → registry_ok (registry_promote_to_level reg level).
Proof.
  intros [Hids Hb Hn Hu Hs Hh Hsh]. pose proof (promote_owner_fields level) as Hpf.
  split; try done.
  - intros q id. simpl. rewrite <- list_fmap_compose. apply Hids.
  - simpl. by rewrite length_map.
  - intros f p o o' (o1 & H1 & ->)%owned_promote (o2 & H2 & ->)%owned_promote.
    by rewrite (Hu f p o1 o2).
  - intros f o o' (o1 & H1 & ->)%owner_in_promote (o2 & H2 & ->)%owner_in_promote He.
    rewrite (Hs f o1 o2); try done. by rewrite !(proj1 (Hpf _)) in He.
  - intros f o (o1 & H1 & ->)%owner_in_promote. rewrite (proj2 (proj2 (Hpf o1))). by apply (Hh f).
  - intros f f' o o' (o1 & H1 & ->)%owner_in_promote (o2 & H2 & ->)%owner_in_promote He.
    rewrite !(proj2 (proj2 (Hpf _))) in He. by destruct (Hsh f f' o1 o2) as [-> ->].
Qed.

Lemma registry_ok_claim {L} reg ms f p c level file :
  registry_ok reg → files reg !! Z.to_nat f = Some file →
  registry_ok (snd (claim (L := L) reg ms f p c level)).
Proof.
  intros Hok Hf. destruct (claim_outcome_spec (L := L) reg ms f p c level file Hok Hf); [done|done|..].
  - by eapply registry_ok_inserted.
  - apply registry_ok_pushed; eauto.
Qed.

Lemma owned_inserted reg f o p f' p' o' :
  registry_ok reg → owner_in reg f o →
  owned (inserted reg (owner_positions o) p) f' p' o' ↔
    owned reg f' p' o' ∨ f' = f ∧ p' = p ∧ o' = o.
Proof.
  intros Hok Ho. unfold owned. change (owner_in (inserted _ _ _)) with (owner_in reg).
  rewrite positions_inserted by by eapply ok_handle.
  destruct (decide (owner_positions o' = owner_positions o)) as [He|Hne].
  - rewrite elem_of_union, elem_of_singleton. split.
    + intros [Ho' Hp]. destruct (ok_shared reg Hok f' f o' o Ho' Ho He) as [-> ->]. tauto.
    + intros [[Ho' Hp]|(-> & -> & ->)]; [|by auto].
      destruct (ok_shared reg Hok f' f o' o Ho' Ho He) as [-> ->]. auto.
  - split; [by left|]. intros [?|(-> & -> & ->)]; done.
Qed.

Lemma owned_pushed reg f ms c level p f' p' o' :
  registry_ok reg → (∃ file, files reg !! f = Some file) →
  owned (pushed reg f ms c level p) f' p' o' ↔
    owned reg f' p' o' ∨ f' = f ∧ p' = p ∧ o' = mkOwner ms c level (length (bitmaps reg)).
Proof.
  intros Hok Hf. unfold owned. rewrite owner_in_pushed by done. rewrite positions_pushed.
  assert (∀ f o, owner_in reg f o → owner_positions o ≠ length (bitmaps reg)) as Hold.
  { intros f1 o Ho. pose proof (ok_handle reg Hok f1 o Ho). lia. }
  split.
  - intros [[Ho|[-> ->]] Hp].
    + rewrite decide_False in Hp by by eapply Hold. auto.
    + simpl in Hp. rewrite decide_True in Hp by done. apply elem_of_singleton in Hp. auto.
  - intros [[Ho Hp]|(-> & -> & ->)].
    + rewrite decide_False by by eapply Hold. auto.
    + simpl. rewrite decide_True by done. split; [by right|]. by apply elem_of_singleton.
Qed.

(** ** The claims of a transaction

    Abstractly a registry is a map from (file, position) to the command that first
    modified the row; a savepoint saves it whole. *)
Abbreviation claims := (gmap (nat * Z) Z).

(** A modify state is one executor node of one command running in one
    subtransaction: it claims rows with that command id and at that level. *)
Definition claim_allowed (reg : RelationRowRegistry) (level ms f c : Z) : Prop :=
  ∀ o, owner_in reg (Z.to_nat f) o → owner_modify_state_id o = ms →
    owner_nest_level o = level ∧ owner_command_id o = c.

Definition spec_claim (m : claims) (k : nat * Z) (c : Z) : RowMutationClaim → claims → Prop :=
  λ r m', match m !! k with
          | Some c' => r = PreviouslyModified c' ∧ m' = m
          | None => (∃ h, r = FirstTouch h) ∧ m' = <[k := c]> m
          end.

Section Joint.
Context {L : Type}.

(** Joint runs of the registry and the abstract map. *)
Inductive joint : Z → RelationRowRegistry → claims → list claims → Prop :=
| joint_new : joint 1 RelationRowRegistry_default ∅ []
| joint_register level reg cur saved path :
    joint level reg cur saved → joint level (snd (register_file (L := L) reg path)) cur saved
| joint_begin level reg cur saved :
    joint level reg cur saved → joint level (snd (begin_modify_state (L := L) reg)) cur saved
| joint_claim level reg cur saved ms f p c r cur' :
    joint level reg cur saved → is_Some (files reg !! Z.to_nat f) →
    claim_allowed reg level ms f c → spec_claim cur (Z.to_nat f, p) c r cur' →
    joint level (snd (claim (L := L) reg ms f p c level)) cur' saved
| joint_savepoint level reg cur saved :
    joint level reg cur saved → joint (level + 1) reg cur (cur :: saved)
| joint_release level reg cur m saved :
    joint level reg cur (m :: saved) →
    joint (level - 1) (registry_promote_to_level reg level) cur saved
| joint_rollback level reg cur m saved :
    joint level reg cur (m :: saved) →
    joint (level - 1) (registry_rollback_to_level reg level) m saved.

(** [m] holds the claims of the owners below a level. *)
Definition claims_below (reg : RelationRowRegistry) (bound : Z) (m : claims) : Prop :=
  ∀ f p c, m !! (f, p) = Some c ↔
    ∃ o, owned reg f p o ∧ owner_command_id o = c ∧ owner_nest_level o < bound.

Record joint_inv (level : Z) (reg : RelationRowRegistry) (cur : claims) (saved : list claims)
    : Prop := {
  ji_ok : registry_ok reg;
  ji_depth : level = 1 + Z.of_nat (length saved);
  ji_levels : ∀ f o, owner_in reg f o → owner_nest_level o ≤ level;
  ji_cur : claims_below reg (level + 1) cur;
  ji_saved : ∀ i m, saved !! i = Some m → claims_below reg (level - Z.of_nat i) m;
}.

(** Registering a file or a modify state changes no owner. *)
Lemma joint_inv_same level reg reg' cur saved :
  joint_inv level reg cur saved → registry_ok reg' →
  (∀ f o, owner_in reg' f o ↔ owner_in reg f o) → bitmaps reg' = bitmaps reg →
  joint_inv level reg' cur saved.
Proof.
  intros [Hok Hd Hl Hc Hs] Hok' Hin Hb.
  assert (∀ f p o, owned reg' f p o ↔ owned reg f p o) as Hown.
  { intros f p o. unfold owned, positions_of. by rewrite Hin, Hb. }
  split; try done.
  - intros f o. rewrite Hin. apply Hl.
  - intros f p c. setoid_rewrite Hown. apply Hc.
  - intros i m Hi f p c. setoid_rewrite Hown. by apply (Hs i m).
Qed.

(** A new claim belongs to the current level, so it is invisible below it. *)
Lemma claims_below_grow reg reg' f p o bound m :
  (∀ f' p' o', owned reg' f' p' o' ↔ owned reg f' p' o' ∨ f' = f ∧ p' = p ∧ o' = o) →
  bound ≤ owner_nest_level o → claims_below reg bound m → claims_below reg' bound m.
Proof.
  intros Hown Hb Hm f' p' c. rewrite (Hm f' p' c). setoid_rewrite Hown. split.
  - intros (o' & ? & ? & ?). exists o'. auto.
  - intros (o' & [?|(_ & _ & ->)] & ? & ?); [by eauto|lia].
Qed.

Lemma claims_below_insert reg reg' f p o bound m :
  (∀ f' p' o', owned reg' f' p' o' ↔ owned reg f' p' o' ∨ f' = f ∧ p' = p ∧ o' = o) →
  owner_nest_level o < bound → (∀ o, ¬ owned reg f p o) →
  claims_below reg bound m → claims_below reg' bound (<[(f, p) := owner_command_id o]> m).
Proof.
  intros Hown Hb Hfree Hm f' p' c. setoid_rewrite Hown.
  rewrite lookup_insert_Some. rewrite (Hm f' p' c). split.
  - intros [[[= <- <-] <-]|[? (o' & ? & ? & ?)]]; [exists o|exists o']; auto.
  - intros (o' & [H|(-> & -> & ->)] & <- & ?); [right|by left].
    split; [|by eauto]. intros [= <- <-]. by destruct (Hfree o').
Qed.

Lemma joint_inv_claim level reg cur saved ms f p c :
  joint_inv level reg cur saved → is_Some (files reg !! Z.to_nat f) →
  claim_allowed reg level ms f c →
  ∃ r, fst (claim (L := L) reg ms f p c level) = Ok r ∧
    ∀ r' cur', spec_claim cur (Z.to_nat f, p) c r' cur' →
      spec_claim cur (Z.to_nat f, p) c r cur' ∧
      joint_inv level (snd (claim (L := L) reg ms f p c level)) cur' saved.
Proof.
  intros [Hok Hd Hl Hc Hs] [file Hf] Hallow.
  pose proof (registry_ok_claim (L := L) reg ms f p c level file Hok Hf) as Hok'.
  assert (∀ o, ¬ (∃ o, owned reg (Z.to_nat f) p o) → owner_nest_level o = level →
    owner_command_id o = c → ∀ reg' h, registry_ok reg' →
    (∀ f' p' o', owned reg' f' p' o' ↔ owned reg f' p' o' ∨ f' = Z.to_nat f ∧ p' = p ∧ o' = o) →
    (∀ f' o', owner_in reg' f' o' → owner_in reg f' o' ∨ o' = o) →
    ∀ r' cur', spec_claim cur (Z.to_nat f, p) c r' cur' →
      spec_claim cur (Z.to_nat f, p) c (FirstTouch h) cur' ∧ joint_inv level reg' cur' saved)
    as Hfirst.
  { intros o Hfree Hlev <- reg' h Hreg' Hown Hin r' cur' Hspec. unfold spec_claim in *.
    assert (cur !! (Z.to_nat f, p) = None) as Hnone.
    { destruct (cur !! _) eqn:Hcur; [|done]. apply Hc in Hcur as (o' & ? & _). by destruct Hfree; eauto. }
    rewrite Hnone in *. destruct Hspec as [_ ->]. split; [eauto|]. split; try done.
    - intros f' o' [?| ->]%Hin; [by eapply Hl|lia].
    - apply (claims_below_insert reg); [done|lia|by eauto|done].
    - intros i m Hi. apply (claims_below_grow reg _ (Z.to_nat f) p o); [done|lia|by eapply Hs]. }
  destruct (claim_outcome_spec (L := L) reg ms f p c level file Hok Hf)
    as [o Ho|o Ho Hms Hne|o Hfree Ho Hms Hcm|Hfree Hms].
  - eexists; split; [done|]. intros r' cur' Hspec. unfold spec_claim in *.
    assert (cur !! (Z.to_nat f, p) = Some (owner_command_id o)) as Hcur.
    { apply Hc. exists o. split_and!; try done. destruct Ho as [Ho _]. specialize (Hl _ _ Ho). lia. }
    rewrite Hcur in *. destruct Hspec as [_ ->]. by split.
  - by destruct (Hallow o Ho Hms).
  - destruct (Hallow o Ho Hms) as [Hlev _]. eexists; split; [done|].
    apply (Hfirst o); try done; [by intros [? ?%Hfree]|intros; by apply owned_inserted|auto].
  - eexists; split; [done|].
    apply (Hfirst (mkOwner ms c level (length (bitmaps reg)))); try done.
    + by intros [? ?%Hfree].
    + intros. apply owned_pushed; eauto.
    + intros f' o' [?|[_ ->]]%owner_in_pushed; eauto.
Qed.

Lemma joint_inv_release level reg cur m saved :
  joint_inv level reg cur (m :: saved) →
  joint_inv (level - 1) (registry_promote_to_level reg level) cur saved.
Proof.
  intros [Hok Hd Hl Hc Hs]. simpl in Hd.
  assert (∀ b b' mm, (∀ f o, owner_in reg f o →
            owner_nest_level (promote_owner level o) < b ↔ owner_nest_level o < b') →
          claims_below reg b' mm → claims_below (registry_promote_to_level reg level) b mm) as Hmono.
  { intros b b' mm Hbb Hm f p c. rewrite (Hm f p c). setoid_rewrite owned_promote. split.
    - intros (o & Ho & Hcm & Hlt). exists (promote_owner level o).
      rewrite (proj1 (proj2 (promote_owner_fields level o))).
      split_and!; [by eauto|done|]. eapply Hbb; [apply Ho|done].
    - intros (o & (o0 & Ho & ->) & Hcm & Hlt).
      rewrite (proj1 (proj2 (promote_owner_fields level o0))) in Hcm. exists o0.
      split_and!; [done..|]. eapply Hbb; [apply Ho|done]. }
  assert (∀ o, owner_nest_level o ≤ level → owner_nest_level (promote_owner level o) =
            Z.min (owner_nest_level o) (level - 1)) as Hpl.
  { intros o Ho. unfold promote_owner. destruct (Z.leb_spec level (owner_nest_level o)); simpl; lia. }
  split; [by apply registry_ok_promote|lia|..].
  - intros f o (o0 & Ho & ->)%owner_in_promote. rewrite Hpl by eauto. lia.
  - apply (Hmono _ (level + 1)); [|done]. intros f o Ho. pose proof (Hl f o Ho).
    rewrite Hpl by done. lia.
  - intros i mm Hi. apply (Hmono _ (level - Z.of_nat (S i))); [|by apply (Hs (S i))].
    intros f o Ho. pose proof (Hl f o Ho). rewrite Hpl by done.
    apply lookup_lt_Some in Hi. lia.
Qed.

Lemma joint_inv_rollback level reg cur m saved :
  joint_inv level reg cur (m :: saved) →
  joint_inv (level - 1) (registry_rollback_to_level reg level) m saved.
Proof.
  intros [Hok Hd Hl Hc Hs]. simpl in Hd.
  assert (∀ f p o, owned (registry_rollback_to_level reg level) f p o ↔
            owned reg f p o ∧ owner_nest_level o < level) as Hown.
  { intros f p o. unfold owned. rewrite owner_in_rollback. change (positions_of _) with (positions_of reg).
    tauto. }
  assert (∀ b mm, b ≤ level → claims_below reg b mm →
            claims_below (registry_rollback_to_level reg level) b mm) as Hmono.
  { intros b mm Hb Hm f p c. rewrite (Hm f p c). setoid_rewrite Hown. split.
    - intros (o & ? & ? & ?). exists o. split_and!; try done. lia.
    - intros (o & [? ?] & ? & ?). by exists o. }
  split; [by apply registry_ok_rollback|lia|..].
  - intros f o [_ ?]%owner_in_rollback. lia.
  - replace (level - 1 + 1) with level by lia. apply Hmono; [lia|].
    replace level with (level - Z.of_nat 0) at 1 by lia. by apply Hs.
  - intros i mm Hi. replace (level - 1 - Z.of_nat i) with (level - Z.of_nat (S i)) by lia.
    apply Hmono; [lia|]. by apply Hs.
Qed.

Lemma joint_inv_reach level reg cur saved : joint level reg cur saved → joint_inv level reg cur saved.
Proof.
  induction 1 as [|level reg cur saved path _ IH|level reg cur saved _ IH
    |level reg cur saved ms f p c r cur' _ IH Hf Ha Hsp|level reg cur saved _ IH
    |level reg cur m saved _ IH|level reg cur m saved _ IH].
  - split; try done; [by apply registry_ok_default|by intros f o ?%owner_in_default|].
    intros f p c. split; [done|]. by intros (o & [?%owner_in_default _] & _).
  - eapply joint_inv_same; [done|apply registry_ok_register, IH|by apply owner_in_register|].
    unfold register_file. destruct (file_ids reg !! path); [done|].
    destruct (is_u32 _); [|done]. by destruct (try_from_raw _).
  - eapply joint_inv_same; [done|apply registry_ok_begin, IH|..];
      unfold begin_modify_state; by destruct (checked_add _ _ _).
  - destruct (joint_inv_claim level reg cur saved ms f p c IH Hf Ha) as (r' & _ & H).
    by apply (H r).
  - destruct IH as [Hok Hd Hl Hc Hs]. split; simpl; try done; try lia.
    + intros f o Ho. specialize (Hl f o Ho). lia.
    + intros f p c. rewrite (Hc f p c). split; intros (o & Ho & ? & ?); exists o;
        split_and!; try done; try lia. destruct Ho as [Ho _]. specialize (Hl f o Ho). lia.
    + intros [|i] m Hi; simpl in Hi.
      * injection Hi as <-. by replace (level + 1 - Z.of_nat 0) with (level + 1) by lia.
      * replace (level + 1 - Z.of_nat (S i)) with (level - Z.of_nat i) by lia. by apply Hs.
  - by eapply joint_inv_release.
  - by eapply joint_inv_rollback.
Qed.

(** C6. Row claims: after any interleaving of file registrations, modify states,
    claims, savepoints, releases and rollbacks, claiming a registered row answers
    as the map from rows to first modifying commands does: a row that is claimed
    and not rolled back reports the command that claimed it first, any other row
    is a first touch that is recorded under the claiming command.  Rolling back a
    savepoint restores the claims of the moment it was set. *)
Theorem row_claims_refine level reg cur saved ms f p c :
  joint level reg cur saved → is_Some (files reg !! Z.to_nat f) →
  claim_allowed reg level ms f c →
  ∃ r cur', fst (claim (L := L) reg ms f p c level) = Ok r ∧
    spec_claim cur (Z.to_nat f, p) c r cur'.
Proof.
  intros Hj Hf Ha. apply joint_inv_reach in Hj.
  destruct (joint_inv_claim level reg cur saved ms f p c Hj Hf Ha) as (r & Hr & H).
  exists r. assert (∃ r' cur', spec_claim cur (Z.to_nat f, p) c r' cur') as (r' & cur' & Hs).
  { unfold spec_claim. destruct (cur !! _); [by eauto|]. exists (FirstTouch None). eauto. }
  exists cur'. split; [done|]. by apply (H r' cur').
Qed.

(** ** Stability of file ids *)

(** Everything that can happen to a registry. *)
Inductive evolves : RelationRowRegistry → RelationRowRegistry → Prop :=
| ev_refl reg : evolves reg reg
| ev_register reg reg' path :
    evolves reg reg' → evolves reg (snd (register_file (L := L) reg' path))
| ev_begin reg reg' : evolves reg reg' → evolves reg (snd (begin_modify_state (L := L) reg'))
| ev_claim reg reg' ms f p c level :
    evolves reg reg' → evolves reg (snd (claim (L := L) reg' ms f p c level))
| ev_rollback reg reg' level : evolves reg reg' → evolves reg (registry_rollback_to_level reg' level)
| ev_promote reg reg' level : evolves reg reg' → evolves reg (registry_promote_to_level reg' level).

Lemma claim_total_ok reg ms f p c level :
  registry_ok reg → registry_ok (snd (claim (L := L) reg ms f p c level)).
Proof.
  intros Hok. destruct (files reg !! Z.to_nat f) eqn:Hf; [by eapply registry_ok_claim|].
  unfold claim. by rewrite Hf.
Qed.

Lemma evolves_ok reg reg' : evolves reg reg' → registry_ok reg → registry_ok reg'.
Proof.
  induction 1; auto using registry_ok_register, registry_ok_begin, claim_total_ok,
    registry_ok_rollback, registry_ok_promote.
Qed.

Lemma claim_paths reg ms f p c level :
  file_path <$> files (snd (claim (L := L) reg ms f p c level)) = file_path <$> files reg.
Proof.
  unfold claim. destruct (files reg !! Z.to_nat f) as [file|]; [|done].
  destruct (probe_owners _ _ _ _ _ _) as [|[i|]]; [done| |simpl; apply paths_alter_push].
  destruct (mutation_owners file !! i) as [o|]; [|done]. simpl.
  destruct (owner_command_id o =? c); [|done]. simpl.
  by destruct (OwnedRowPositions_contains _ _ _).
Qed.

Lemma evolves_paths reg reg' :
  evolves reg reg' → (file_path <$> files reg) `prefix_of` (file_path <$> files reg').
Proof.
  induction 1 as [|reg reg' path _ IH|reg reg' _ IH|reg reg' ms f p c level _ IH
    |reg reg' level _ IH|reg reg' level _ IH]; [done|..].
  - etrans; [done|]. unfold register_file. destruct (file_ids reg' !! path); [done|].
    destruct (is_u32 _); [|done]. destruct (try_from_raw _); [|done]. simpl.
    rewrite fmap_app. by apply prefix_app_r.
  - unfold begin_modify_state. by destruct (checked_add _ _ _).
  - by rewrite claim_paths.
  - simpl. by rewrite <- list_fmap_compose.
  - simpl. by rewrite <- list_fmap_compose.
Qed.

(** Registering an unregistered or a registered path yields its index. *)
Lemma register_file_index reg path id :
  registry_ok reg → fst (register_file (L := L) reg path) = Ok id →
  0 ≤ id < MAX_ICEBERG_FILES ∧
  (file_path <$> files (snd (register_file (L := L) reg path))) !! Z.to_nat id = Some path.
Proof.
  intros Hok. pose proof (ok_bound reg Hok) as Hb. unfold register_file.
  destruct (file_ids reg !! path) as [id'|] eqn:Hp; simpl.
  - intros [= ->]. apply (ok_ids reg Hok) in Hp as [Hid Hp]. split; [|done].
    apply lookup_lt_Some in Hp. rewrite length_fmap in Hp. lia.
  - destruct (is_u32 _); [|done]. unfold try_from_raw.
    destruct (Z.leb_spec MAX_ICEBERG_FILES (Z.of_nat (length (files reg)))); simpl; [done|].
    intros [= <-]. split; [lia|]. rewrite fmap_app, Nat2Z.id.
    rewrite lookup_app_r by (rewrite length_fmap; lia). by rewrite length_fmap, Nat.sub_diag.
Qed.

(** C35. File ids are stable: an id returned for a path fits the 17 bits of the row
    identity codec and, through every later registration, claim, savepoint
    rollback and release, keeps naming that path, which keeps that id; so the id
    is never reused for another path. *)
Theorem file_ids_stable reg reg' path id :
  registry_ok reg → fst (register_file (L := L) reg path) = Ok id →
  evolves (snd (register_file (L := L) reg path)) reg' →
  0 ≤ id < MAX_ICEBERG_FILES ∧
  registry_file_path (L := L) reg' id = Ok path ∧
  register_file (L := L) reg' path = (Ok id, reg').
Proof.
  intros Hok Hr Hev. destruct (register_file_index reg path id Hok Hr) as [Hid Hp].
  split; [done|]. pose proof (evolves_ok _ _ Hev (registry_ok_register _ _ Hok)) as Hok'.
  pose proof (evolves_paths _ _ Hev) as Hpre.
  pose proof (prefix_lookup_Some _ _ _ _ Hp Hpre) as Hp'. split.
  - unfold registry_file_path. rewrite list_lookup_fmap in Hp'.
    destruct (files reg' !! Z.to_nat id); simpl in Hp'; congruence.
  - unfold register_file. rewrite (proj2 (ok_ids reg' Hok' path id)); [done|].
    split; [lia|done].
Qed.

End Joint.

(** ** Witnesses *)

(** One file, one modify state that claims row 7 at command 10. *)
Definition claimed_registry : RelationRowRegistry :=
  let reg := snd (register_file (L := unit) RelationRowRegistry_default "a.parquet") in
  let reg := snd (begin_modify_state (L := unit) reg) in
  snd (claim (L := unit) reg 0 0 7 10 1).

Lemma row_claims_refine_witness :
  ∃ r cur', fst (claim (L := unit) claimed_registry 1 0 7 11 1) = Ok r ∧
    spec_claim {[ (0%nat, 7) := 10 ]} (0%nat, 7) 11 r cur'.
Proof.
  apply (row_claims_refine 1 _ _ []).
  - apply (joint_claim _ _ ∅ _ _ _ _ _ (FirstTouch None)).
    + apply joint_begin, joint_register, joint_new.
    + by eexists.
    + intros o (file & Hf & Ho). vm_compute in Hf. injection Hf as <-. by apply elem_of_nil in Ho.
    + unfold spec_claim. rewrite lookup_empty. split; [by eexists|]. by rewrite insert_empty.
  - by eexists.
  - intros o (file & Hf & Ho) Hms. vm_compute in Hf. injection Hf as <-. simpl in Ho.
    apply list_elem_of_singleton in Ho as ->. by simpl in Hms.
Defined.

Lemma file_ids_stable_witness :
  registry_file_path (L := unit)
    (registry_rollback_to_level
       (snd (register_file (L := unit)
               (snd (register_file (L := unit) RelationRowRegistry_default "a.parquet")) "b.parquet"))
       2) 0 = Ok "a.parquet".
Proof.
  apply (file_ids_stable RelationRowRegistry_default _ "a.parquet" 0).
  - apply registry_ok_default.
  - by vm_compute.
  - apply ev_rollback, ev_register, ev_refl.
Defined.
