(* ===== verification/ManagedState.v ===== *)
(** * Managed tables: storage generations and the transaction tracker

    Model of lagodb-iceberg/src/managed_table/catalog/metadata_tracker/state.rs
    and mod.rs.  A managed table's transaction state can be replaced by a rebuild
    (CREATE or TRUNCATE of a table created in the transaction); rebuild frames
    keep the replaced generation so that ROLLBACK TO SAVEPOINT restores it.
    [TxMetadata] tracks every table of the transaction and forwards the
    subtransaction callbacks of PostgreSQL.

    [rebuild_history] is a [Vec] used as a stack; the model keeps its top first.
    [FileIO] belongs to the external library.  [PreparedVacuum] is the exclusive
    action [E]; the truncate guard is a metadata location. *)
From stdpp Require Import base gmap list strings pretty functions.
From Stdlib Require Import ZArith Lia.
From S2P Require Import Prelude Errors IcebergLite ActionLog TableState RowRegistry.

Local Open Scope Z_scope.

Section Managed.
Context `{IL : IcebergLite} {E FileIO : Type} `{EA : !ExclusiveTransactionAction LiteError E}.

Local Abbreviation IResult := (IcebergResult LiteError).
Local Abbreviation Action := (TxTableAction E string).
Local Abbreviation ManagedTableTransaction := (TableTransactionState E string).

Record RebuildFrame := mkRebuildFrame {
  frame_nest_level : Z;
  frame_transaction : ManagedTableTransaction;
  frame_file_io : option FileIO;
  previous_rebuild_level : option Z;
}.

Record ManagedTableState := mkManaged {
  transaction : ManagedTableTransaction;
  row_registry : RelationRowRegistry;
  file_io : option FileIO;
  rebuild_level : option Z;
  rebuild_history : list RebuildFrame;
}.

Definition ManagedTableState_new : ManagedTableState :=
  mkManaged TableTransactionState_new RelationRowRegistry_default None None [].

Definition was_rebuilt (st : ManagedTableState) : bool :=
  match rebuild_level st with Some _ => true | None => false end.

Definition has_changes (st : ManagedTableState) : bool :=
  was_rebuilt st || negb (is_empty (log (transaction st))).

Definition record_rebuild (st : ManagedTableState) (nest_level : Z) (io : FileIO)
    : ManagedTableState :=
  let history :=
    if (1 <? nest_level) &&
       negb match rebuild_history st with
            | frame :: _ => frame_nest_level frame =? nest_level
            | [] => false
            end
    then mkRebuildFrame nest_level (transaction st) (file_io st) (rebuild_level st)
           :: rebuild_history st
    else rebuild_history st in
  mkManaged TableTransactionState_new (row_registry st) (Some io) (Some nest_level) history.

(** The [while] loop of [rollback_to_level], one frame per iteration. *)
Fixpoint managed_rollback_loop (level : Z) (st : ManagedTableState) (history : list RebuildFrame)
    : ManagedTableState :=
  match history with
  | [] => mkManaged (transaction st) (row_registry st) (file_io st) (rebuild_level st) []
  | frame :: history' =>
      if level <=? frame_nest_level frame
      then
        managed_rollback_loop level
          (mkManaged (rollback_to_level (frame_transaction frame) level) (row_registry st)
             (frame_file_io frame) (previous_rebuild_level frame) history') history'
      else mkManaged (transaction st) (row_registry st) (file_io st) (rebuild_level st) history
  end.

Definition ManagedTableState_rollback_to_level (st : ManagedTableState) (level : Z)
    : ManagedTableState :=
  managed_rollback_loop level
    (mkManaged (rollback_to_level (transaction st) level)
       (registry_rollback_to_level (row_registry st) level)
       (file_io st) (rebuild_level st) (rebuild_history st))
    (rebuild_history st).

(** [dedup_by_key] keeps the oldest frame of a run of equal levels; with the top
    first, a frame is dropped when the next older one has its level. *)
Fixpoint dedup_frames (history : list RebuildFrame) : list RebuildFrame :=
  match history with
  | frame :: ((older :: _) as history') =>
      if frame_nest_level frame =? frame_nest_level older
      then dedup_frames history' else frame :: dedup_frames history'
  | _ => history
  end.

Definition promote_frame (level : Z) (frame : RebuildFrame) : RebuildFrame :=
  mkRebuildFrame (promote_level level (frame_nest_level frame))
    (promote_to_level (frame_transaction frame) level) (frame_file_io frame)
    (promote_level level <$> previous_rebuild_level frame).

Definition ManagedTableState_promote_to_level (st : ManagedTableState) (level : Z)
    : ManagedTableState :=
  mkManaged (promote_to_level (transaction st) level)
    (registry_promote_to_level (row_registry st) level)
    (file_io st)
    (promote_level level <$> rebuild_level st)
    (dedup_frames
       (filter (λ frame, 1 < frame_nest_level frame) (map (promote_frame level) (rebuild_history st)))).

(** ** The tracker *)

Record TxMetadata := mkTxMetadata { tables : gmap Z ManagedTableState }.

Definition TxMetadata_new : TxMetadata := mkTxMetadata ∅.

Definition has_local_actions (tx : TxMetadata) (relid : Z) : bool :=
  match tables tx !! relid with Some st => has_changes st | None => false end.

Definition register_table (tx : TxMetadata) (relid : Z) : TxMetadata :=
  match tables tx !! relid with
  | Some _ => tx
  | None => mkTxMetadata (<[relid := ManagedTableState_new]> (tables tx))
  end.

Definition not_registered (relid : Z) : IcebergError LiteError :=
  MetadataTracker ("Table " +:+ pretty relid +:+ " not registered in metadata tracker").

Definition with_transaction (st : ManagedTableState) (t : ManagedTableTransaction)
    : ManagedTableState :=
  mkManaged t (row_registry st) (file_io st) (rebuild_level st) (rebuild_history st).

(** [nest_level] is [GetCurrentTransactionNestLevel()]. *)
Definition stage_table_mutation (tx : TxMetadata) (nest_level relid : Z) (io : FileIO)
    (mutation : ManagedTableTransaction → Z → IResult unit * ManagedTableTransaction)
    : IResult unit * TxMetadata :=
  let tx := register_table tx relid in
  match tables tx !! relid with
  | None => (Err (not_registered relid), tx)
  | Some st =>
      let io' := match file_io st with None => Some io | Some _ => file_io st end in
      let '(r, t) := mutation (transaction st) nest_level in
      (r, mkTxMetadata (<[relid := mkManaged t (row_registry st) io' (rebuild_level st)
                                     (rebuild_history st)]> (tables tx)))
  end.

Definition stage_batch (tx : TxMetadata) (nest_level relid : Z) (batch : TxWriteBatch) (io : FileIO)
    : IResult unit * TxMetadata :=
  stage_table_mutation tx nest_level relid io (λ st level, record_batch st level batch).

Definition stage_schema_update (tx : TxMetadata) (nest_level relid : Z)
    (update : PreparedSchemaUpdate) (io : FileIO) : IResult unit * TxMetadata :=
  stage_table_mutation tx nest_level relid io (λ st level, record_schema_update st level update).

Definition stage_table_property_update (tx : TxMetadata) (nest_level relid : Z)
    (update : PreparedTablePropertyUpdate) (io : FileIO) : IResult unit * TxMetadata :=
  stage_table_mutation tx nest_level relid io
    (λ st level, record_table_property_update st level update).

Definition stage_vacuum (tx : TxMetadata) (nest_level relid : Z) (vacuum : E) (io : FileIO)
    : IResult unit * TxMetadata :=
  let tx := register_table tx relid in
  if match tables tx !! relid with Some st => was_rebuilt st | None => false end
  then (Err (conflict_error vacuum), tx)
  else stage_table_mutation tx nest_level relid io
         (λ st level, record_exclusive_action st level vacuum).

Definition prepare_local_rebuild (tx : TxMetadata) (relid : Z) : IResult unit * TxMetadata :=
  let tx := register_table tx relid in
  match tables tx !! relid with
  | None => (Err (not_registered relid), tx)
  | Some st =>
      match exclusive_conflict_error (log (transaction st)) with
      | Some error => (Err error, tx)
      | None => (Ok tt, tx)
      end
  end.

Definition record_local_rebuild (tx : TxMetadata) (nest_level relid : Z) (io : FileIO)
    : TxMetadata :=
  let tx := register_table tx relid in
  mkTxMetadata (alter (λ st, record_rebuild st nest_level io) relid (tables tx)).

(** [metadata] is the outcome of [IcebergMetadata::get(relid)]: its error or the
    optional metadata location of the catalog row. *)
Definition tracker_stage_truncate (tx : TxMetadata) (nest_level relid : Z) (io : FileIO)
    (metadata : IResult (option string)) (command_id : Z) : IResult unit * TxMetadata :=
  match (location ← metadata; ok_or location MetadataLocationNull) with
  | Err err => (Err err, tx)
  | Ok expected_metadata_location =>
      stage_table_mutation tx nest_level relid io
        (λ st level, record_truncate st level expected_metadata_location command_id)
  end.

Definition tracker_stage_drop (tx : TxMetadata) (nest_level relid : Z) : IResult unit * TxMetadata :=
  let tx := register_table tx relid in
  match tables tx !! relid with
  | None =>
      (Err (MetadataTracker ("Table " +:+ pretty relid +:+ " not registered before staging DROP")), tx)
  | Some st =>
      let '(r, t) := record_drop (transaction st) nest_level in
      (r, mkTxMetadata (<[relid := with_transaction st t]> (tables tx)))
  end.

(** What a committing table detaches before metadata I/O. *)
Record TableCommitInput := mkCommitInput {
  input_actions : TxTableActionLog E string;
  input_file_io : FileIO;
}.

Definition commit_input (tx : TxMetadata) (relid : Z) : IResult (option TableCommitInput) :=
  match tables tx !! relid with
  | None => Ok None
  | Some st =>
      let actions := log (transaction st) in
      if is_empty actions then Ok None
      else if is_dropped actions then Ok None
      else
        match file_io st with
        | None =>
            Err (MetadataTracker ("table " +:+ pretty relid +:+
                   " has staged Iceberg metadata changes without FileIO"))
        | Some io => Ok (Some (mkCommitInput actions io))
        end
  end.

(** ** Transaction callbacks *)

Definition TxMetadata_on_commit_sub (tx : TxMetadata) (current_nest_level : Z) : TxMetadata :=
  mkTxMetadata ((λ st, ManagedTableState_promote_to_level st current_nest_level) <$> tables tx).

Definition TxMetadata_on_abort_sub (tx : TxMetadata) (current_nest_level : Z) : TxMetadata :=
  mkTxMetadata ((λ st, ManagedTableState_rollback_to_level st current_nest_level) <$> tables tx).

(** [on_pre_prepare] refuses PREPARE TRANSACTION when a table has changes. *)
Definition TxMetadata_on_pre_prepare (tx : TxMetadata) : result string unit :=
  if existsb (λ p, has_changes (snd p)) (map_to_list (tables tx))
  then Err "cannot PREPARE a transaction with staged Iceberg metadata changes"
  else Ok tt.

(** ** Generations and savepoints *)

(** What a statement of the transaction can observe of a table: its recorded
    actions and whether it was rebuilt. *)
Abbreviation table_view := (list Action * bool)%type.

Definition managed_view (st : ManagedTableState) : table_view :=
  (erase (actions (log (transaction st))), was_rebuilt st).

(** The view after rolling back: the oldest popped frame decides. *)
Fixpoint rolled_view (level : Z) (t : ManagedTableTransaction) (rebuilt : bool)
    (history : list RebuildFrame) : table_view :=
  match history with
  | frame :: history' =>
      if level <=? frame_nest_level frame
      then rolled_view level (frame_transaction frame)
             (bool_decide (is_Some (previous_rebuild_level frame))) history'
      else (rolled t level, rebuilt)
  | [] => (rolled t level, rebuilt)
  end.

Definition managed_rolled (st : ManagedTableState) (level : Z) : table_view :=
  rolled_view level (transaction st) (was_rebuilt st) (rebuild_history st).

(** Frames of strictly decreasing open levels, each holding a sound table state. *)
Fixpoint frames_inv (n : Z) (history : list RebuildFrame) : Prop :=
  match history with
  | [] => True
  | frame :: history' =>
      2 ≤ frame_nest_level frame ≤ n ∧
      table_inv (frame_nest_level frame) (frame_transaction frame) ∧
      frames_inv (frame_nest_level frame - 1) history'
  end.

Definition managed_inv (n : Z) (st : ManagedTableState) : Prop :=
  table_inv n (transaction st) ∧ frames_inv n (rebuild_history st).

Lemma frames_inv_mono n m h : n ≤ m → frames_inv n h → frames_inv m h.
Proof. intros Hle. destruct h; simpl; [done|]. intros (? & ? & ?). split_and!; try done; lia. Qed.

Lemma managed_inv_mono n m st : n ≤ m → managed_inv n st → managed_inv m st.
Proof. intros Hle [? ?]. split; eauto using table_inv_mono, frames_inv_mono. Qed.

Lemma managed_inv_new n : managed_inv n ManagedTableState_new.
Proof. split; [apply table_inv_new|done]. Qed.

Lemma rolled_view_ext level t t' b h :
  rolled t level = rolled t' level → rolled_view level t b h = rolled_view level t' b h.
Proof. intros Ht. destruct h; simpl; [congruence|]. case_match; congruence. Qed.

Lemma rolled_view_above n level t b h :
  frames_inv n h → n < level → rolled_view level t b h = (rolled t level, b).
Proof.
  intros Hf Hlt. destruct h as [|f h]; [done|]. destruct Hf as ((? & ?) & _ & _). simpl.
  destruct (Z.leb_spec level (frame_nest_level f)); [lia|done].
Qed.

Lemma managed_rolled_above n level st :
  managed_inv n st → n < level → managed_rolled st level = managed_view st.
Proof.
  intros [Ht Hf] Hlt. unfold managed_rolled. rewrite (rolled_view_above n) by done.
  by rewrite (table_inv_above n).
Qed.

(** The loop of [rollback_to_level] in one step. *)
Lemma rollback_loop_shape level n st t h :
  table_inv n t → frames_inv n h → transaction st = rollback_to_level t level →
  ∃ t' h' n', 
    transaction (managed_rollback_loop level st h) = rollback_to_level t' level ∧
    rebuild_history (managed_rollback_loop level st h) = h' ∧
    table_inv n' t' ∧ frames_inv (level - 1) h' ∧
    ∀ low, low ≤ level → rolled_view low t (was_rebuilt st) h =
      rolled_view low t' (was_rebuilt (managed_rollback_loop level st h)) h'.
Proof.
  revert n st t. induction h as [|f h IH]; intros n st t Ht Hf Hst; simpl.
  { by exists t, [], n. }
  destruct Hf as (Hn & Hft & Hf). destruct (Z.leb_spec level (frame_nest_level f)) as [Hle|Hgt].
  - destruct (IH (frame_nest_level f)
      (mkManaged (rollback_to_level (frame_transaction f) level) (row_registry st)
         (frame_file_io f) (previous_rebuild_level f) h) (frame_transaction f))
      as (t' & h' & n' & H1 & H2 & H3 & H4 & H5); [done|eapply frames_inv_mono; [|done]; lia|done|].
    exists t', h', n'. split_and!; try done. intros low Hlow.
    destruct (Z.leb_spec low (frame_nest_level f)); [|lia]. rewrite <- H5 by done. f_equal.
    unfold was_rebuilt. simpl. by destruct (previous_rebuild_level f).
  - exists t, (f :: h), n. split_and!; try done. simpl. split_and!; try done; lia.
Qed.

Lemma managed_inv_rollback n st level :
  managed_inv n st →
  let st' := ManagedTableState_rollback_to_level st level in
  managed_inv (level - 1) st' ∧ managed_view st' = managed_rolled st level ∧
  ∀ low, low ≤ level → managed_rolled st' low = managed_rolled st low.
Proof.
  intros [Ht Hf]. unfold ManagedTableState_rollback_to_level.
  set (st0 := mkManaged _ _ _ _ _).
  destruct (rollback_loop_shape level n st0 (transaction st) (rebuild_history st))
    as (t' & h' & n' & H1 & H2 & H3 & H4 & H5); [done..|].
  destruct (table_inv_rollback n' t' level H3) as [Hinv Hr].
  assert (∀ low, low ≤ level →
    managed_rolled (managed_rollback_loop level st0 (rebuild_history st)) low = managed_rolled st low)
    as Hlow.
  { intros low Hle. unfold managed_rolled. change (was_rebuilt st) with (was_rebuilt st0).
    rewrite H5, H1, H2 by done. apply rolled_view_ext. by apply Hr. }
  assert (managed_inv (level - 1) (managed_rollback_loop level st0 (rebuild_history st))) as Hm.
  { split; [by rewrite H1|by rewrite H2]. }
  simpl. split_and!; try done. rewrite <- Hlow by done.
  symmetry. eapply managed_rolled_above; [done|lia].
Qed.

Lemma managed_inv_rebuild n st io :
  managed_inv n st →
  managed_inv n (record_rebuild st n io) ∧ managed_view (record_rebuild st n io) = ([], true) ∧
  ∀ level, 2 ≤ level ≤ n → managed_rolled (record_rebuild st n io) level = managed_rolled st level.
Proof.
  intros [Ht Hf]. unfold record_rebuild. split_and!; [|done|].
  - split; [apply table_inv_new|]. simpl. destruct (Z.ltb_spec 1 n); simpl; [|done].
    destruct (rebuild_history st) as [|f h]; simpl; [split_and!; done || lia|].
    destruct (Z.eqb_spec (frame_nest_level f) n) as [He|He]; simpl; [done|].
    destruct Hf as (? & ? & ?). split_and!; try done; lia.
  - intros level Hl. unfold managed_rolled. simpl. destruct (Z.ltb_spec 1 n); [|lia]. simpl.
    assert (bool_decide (is_Some (rebuild_level st)) = was_rebuilt st) as Hb.
    { unfold was_rebuilt. by destruct (rebuild_level st). }
    destruct (rebuild_history st) as [|f h]; simpl.
    { destruct (Z.leb_spec level n); [by rewrite Hb|lia]. }
    destruct (Z.eqb_spec (frame_nest_level f) n) as [He|He]; simpl.
    + by destruct (Z.leb_spec level (frame_nest_level f)); [|lia].
    + destruct (Z.leb_spec level n); [by rewrite Hb|lia].
Qed.

(** *** Promotion *)

(** Frames below the released level only have their bookkeeping levels touched. *)
Lemma promote_frames_below n m h :
  frames_inv m h → m < n →
  frames_inv m (map (promote_frame n) h) ∧
  ∀ level t b, rolled_view level t b (map (promote_frame n) h) = rolled_view level t b h.
Proof.
  revert m. induction h as [|f h IH]; intros m Hf Hlt; [done|]. simpl.
  destruct Hf as (Hn & Ht & Hf).
  assert (promote_level n (frame_nest_level f) = frame_nest_level f) as Hp.
  { unfold promote_level. destruct (Z.leb_spec n (frame_nest_level f)); [lia|done]. }
  destruct (IH (frame_nest_level f - 1)) as [H1 H3]; [done|lia|].
  rewrite Hp, (promote_above (frame_nest_level f)) by (done || lia). split_and!; try done; try lia.
  - intros level t b. rewrite H3. case_match; [|done]. f_equal.
    apply bool_decide_ext. by rewrite fmap_is_Some.
Qed.

Lemma frames_inv_filter n h : frames_inv n h → filter (λ f, 1 < frame_nest_level f) h = h.
Proof.
  revert n. induction h as [|f h IH]; intros n; [done|]. intros (Hn & _ & Hf).
  rewrite filter_cons_True by lia. by erewrite IH.
Qed.

Lemma frames_inv_dedup n h : frames_inv n h → dedup_frames h = h.
Proof.
  revert n. induction h as [|f h IH]; intros n; [done|]. intros (Hn & _ & Hf). simpl.
  destruct h as [|f' h]; [done|]. pose proof Hf as ((? & ?) & _).
  destruct (Z.eqb_spec (frame_nest_level f) (frame_nest_level f')); [lia|]. by erewrite IH.
Qed.

Lemma frames_inv_one n h : frames_inv n h → n ≤ 1 → h = [].
Proof. destruct h; [done|]. intros ((? & ?) & _). lia. Qed.

(** Whether the next older frame already belongs to a level. *)
Definition head_at (n : Z) (h : list RebuildFrame) : bool :=
  match h with f :: _ => frame_nest_level f =? n | [] => false end.

Lemma dedup_cons f h :
  dedup_frames (f :: h) =
    if head_at (frame_nest_level f) h then dedup_frames h else f :: dedup_frames h.
Proof. destruct h as [|f' h]; simpl; [done|]. by rewrite Z.eqb_sym. Qed.

Lemma frames_inv_head n h : frames_inv n h → head_at n h = false → frames_inv (n - 1) h.
Proof.
  destruct h as [|f h]; simpl; [done|]. intros (? & ? & ?) ?%Z.eqb_neq. split_and!; done || lia.
Qed.

Lemma rolled_view_skip n level t t' b b' h :
  head_at n h = true → level ≤ n → rolled_view level t b h = rolled_view level t' b' h.
Proof.
  destruct h as [|f h]; simpl; [done|]. intros ->%Z.eqb_eq Hle.
  by destruct (Z.leb_spec level n); [|lia].
Qed.

(** The history after a release: at most the top frame moves, and it disappears
    when its new level already has an older frame or is the top level. *)
Definition promoted_history (n : Z) (h : list RebuildFrame) : list RebuildFrame :=
  dedup_frames (filter (λ f, 1 < frame_nest_level f) (map (promote_frame n) h)).

(** The released level owns the top frame. *)
Lemma promoted_history_top n f h :
  2 ≤ n → frame_nest_level f = n → table_inv n (frame_transaction f) → frames_inv (n - 1) h →
  frames_inv (n - 1) (promoted_history n (f :: h)) ∧
  ∀ level t b, 2 ≤ level ≤ n - 1 →
    rolled_view level t b (promoted_history n (f :: h)) = rolled_view level t b (f :: h).
Proof.
  intros Hn Heq Ht Hf. unfold promoted_history. cbn [map].
  assert (frame_nest_level (promote_frame n f) = n - 1) as Hp.
  { simpl. unfold promote_level. by rewrite Heq, Z.leb_refl. }
  destruct (Z.eq_dec n 2) as [->|Hne].
  { rewrite (frames_inv_one _ _ Hf) by lia.
    rewrite filter_cons_False by (rewrite Hp; lia). split; [done|intros; lia]. }
  destruct (promote_frames_below n (n - 1) h) as [H1 H3]; [done|lia|].
  destruct (table_inv_promote n _ Hn Ht) as [Ht' Hr].
  rewrite filter_cons_True by (rewrite Hp; lia).
  rewrite (frames_inv_filter (n - 1)), dedup_cons, (frames_inv_dedup (n - 1)), Hp by done.
  assert (∀ level t b, 2 ≤ level ≤ n - 1 → rolled_view level t b (f :: h) =
    rolled_view level (frame_transaction f)
      (bool_decide (is_Some (previous_rebuild_level f))) h) as Hold.
  { intros level t b Hlev. simpl. rewrite Heq. by destruct (Z.leb_spec level n); [|lia]. }
  destruct (head_at (n - 1) (map (promote_frame n) h)) eqn:Hh.
  - split; [done|]. intros level t b Hlev. rewrite Hold by done. rewrite <- H3.
    apply (rolled_view_skip (n - 1)); [done|lia].
  - split.
    + cbn [frames_inv]. rewrite Hp. split_and!; [lia|lia|done|by apply frames_inv_head].
    + intros level t b Hlev. rewrite Hold by done. cbn [rolled_view]. rewrite Hp.
      destruct (Z.leb_spec level (n - 1)); [|lia]. rewrite H3.
      rewrite (rolled_view_ext _ _ (frame_transaction f)) by by apply Hr. f_equal.
      apply bool_decide_ext. simpl. by rewrite fmap_is_Some.
Qed.

Lemma promoted_history_spec n h :
  2 ≤ n → frames_inv n h →
  frames_inv (n - 1) (promoted_history n h) ∧
  ∀ level t b, 2 ≤ level ≤ n - 1 →
    rolled_view level t b (promoted_history n h) = rolled_view level t b h.
Proof.
  intros Hn Hf. destruct h as [|f h]; [done|]. pose proof Hf as (Hl & Ht & Hf').
  destruct (Z.lt_ge_cases (frame_nest_level f) n) as [Hlt|Hge].
  - destruct (promote_frames_below n (n - 1) (f :: h)) as [H4 H5];
      [simpl; split_and!; done || lia|lia|].
    unfold promoted_history.
    rewrite (frames_inv_filter (n - 1)), (frames_inv_dedup (n - 1)) by done. done.
  - assert (frame_nest_level f = n) as Heq by lia. rewrite Heq in *. by apply promoted_history_top.
Qed.

Lemma managed_inv_promote n st :
  2 ≤ n → managed_inv n st →
  let st' := ManagedTableState_promote_to_level st n in
  managed_inv (n - 1) st' ∧ managed_view st' = managed_view st ∧
  ∀ level, 2 ≤ level ≤ n - 1 → managed_rolled st' level = managed_rolled st level.
Proof.
  intros Hn [Ht Hf]. destruct (table_inv_promote n _ Hn Ht) as [Ht' Hr].
  destruct (promoted_history_spec n _ Hn Hf) as [Hf' Hr'].
  assert (was_rebuilt (ManagedTableState_promote_to_level st n) = was_rebuilt st) as Hb.
  { unfold was_rebuilt. simpl. by destruct (rebuild_level st). }
  split_and!; [by split| |].
  - unfold managed_view. by rewrite Hb.
  - intros level Hlev. unfold managed_rolled. rewrite Hb.
    etrans; [apply Hr'; done|]. apply rolled_view_ext. by apply Hr.
Qed.

(** A statement that only stages through the table transaction. *)
Lemma managed_inv_staged n st t l' io :
  managed_inv n st → staged n (transaction st) t l' →
  let st' := mkManaged t (row_registry st) io (rebuild_level st) (rebuild_history st) in
  managed_inv n st' ∧ managed_view st' = (l', was_rebuilt st) ∧
  ∀ level, 2 ≤ level ≤ n → managed_rolled st' level = managed_rolled st level.
Proof.
  intros [Ht Hf] Hst. destruct (table_inv_staged _ _ _ _ Ht Hst) as (Ht' & Hl & Hr).
  split_and!; [by split| |].
  - unfold managed_view. simpl. by rewrite Hl.
  - intros level Hlev. apply rolled_view_ext. by apply Hr.
Qed.

(** ** The tracker against copying savepoints *)

Inductive tracker_op :=
| TBatch (batch : TxWriteBatch) (io : FileIO)
| TSchema (update : PreparedSchemaUpdate) (io : FileIO)
| TProperties (update : PreparedTablePropertyUpdate) (io : FileIO)
| TVacuum (vacuum : E) (io : FileIO)
| TTruncate (io : FileIO) (metadata : IResult (option string)) (command_id : Z)
| TDrop
| TPrepareRebuild
| TRebuild (io : FileIO).

Definition tracker_record (tx : TxMetadata) (level relid : Z) (op : tracker_op)
    : IResult unit * TxMetadata :=
  match op with
  | TBatch batch io => stage_batch tx level relid batch io
  | TSchema update io => stage_schema_update tx level relid update io
  | TProperties update io => stage_table_property_update tx level relid update io
  | TVacuum vacuum io => stage_vacuum tx level relid vacuum io
  | TTruncate io metadata cid => tracker_stage_truncate tx level relid io metadata cid
  | TDrop => tracker_stage_drop tx level relid
  | TPrepareRebuild => prepare_local_rebuild tx relid
  | TRebuild io => (Ok tt, record_local_rebuild tx level relid io)
  end.

Inductive tx_event :=
| TxOp (relid : Z) (op : tracker_op)
| TxSavepoint
| TxRelease
| TxRollback.

Definition tracker_step (s : Z * TxMetadata) (ev : tx_event)
    : option (IResult unit) * (Z * TxMetadata) :=
  let '(level, tx) := s in
  match ev with
  | TxOp relid op => let '(r, tx) := tracker_record tx level relid op in (Some r, (level, tx))
  | TxSavepoint => (None, (level + 1, tx))
  | TxRelease =>
      if 1 <? level then (None, (level - 1, TxMetadata_on_commit_sub tx level)) else (None, s)
  | TxRollback =>
      if 1 <? level then (None, (level - 1, TxMetadata_on_abort_sub tx level)) else (None, s)
  end.

(** The specification: one view per relation, copied at every savepoint. *)
Definition spec_record (v : table_view) (op : tracker_op) : IResult unit * table_view :=
  let '(l, rebuilt) := v in
  let stage o := let '(r, l') := spec_op l o in (r, (l', rebuilt)) in
  match op with
  | TBatch batch _ => stage (OpBatch batch)
  | TSchema update _ => stage (OpSchema update)
  | TProperties update _ => stage (OpProperties update)
  | TVacuum vacuum _ =>
      if rebuilt then (Err (conflict_error vacuum), v) else stage (OpExclusive vacuum)
  | TTruncate _ metadata cid =>
      match metadata with
      | Err err => (Err err, v)
      | Ok None => (Err MetadataLocationNull, v)
      | Ok (Some location) => stage (OpTruncate location cid)
      end
  | TDrop => stage OpDrop
  | TPrepareRebuild =>
      (match spec_conflict l with Some err => Err err | None => Ok tt end, v)
  | TRebuild _ => (Ok tt, ([], true))
  end.

Abbreviation tx_view := (Z → table_view).

Definition tracker_spec (s : tx_view * list tx_view) (ev : tx_event)
    : option (IResult unit) * (tx_view * list tx_view) :=
  let '(cur, saved) := s in
  match ev with
  | TxOp relid op =>
      let '(r, v) := spec_record (cur relid) op in (Some r, (<[relid := v]> cur, saved))
  | TxSavepoint => (None, (cur, cur :: saved))
  | TxRelease => (None, (cur, tail saved))
  | TxRollback => (None, match saved with [] => s | m :: saved' => (m, saved') end)
  end.

Fixpoint tx_run {S} (step : S → tx_event → option (IResult unit) * S) (s : S) (evs : list tx_event)
    : list (IResult unit) * S :=
  match evs with
  | [] => ([], s)
  | ev :: evs' =>
      let '(o, s') := step s ev in
      let '(os, s'') := tx_run step s' evs' in (option_list o ++ os, s'')
  end.

Definition table_of (tx : TxMetadata) (relid : Z) : ManagedTableState :=
  default ManagedTableState_new (tables tx !! relid).

(** One table simulates its view and the copies of the open savepoints. *)
Record tracks (level : Z) (st : ManagedTableState) (v : table_view) (saved : list table_view)
    : Prop := {
  tr_inv : managed_inv level st;
  tr_view : managed_view st = v;
  tr_depth : level = 1 + Z.of_nat (length saved);
  tr_saved : ∀ i v', saved !! i = Some v' → managed_rolled st (level - Z.of_nat i) = v';
}.

Lemma tracks_update level st st' v v' saved :
  tracks level st v saved → managed_inv level st' → managed_view st' = v' →
  (∀ l, 2 ≤ l ≤ level → managed_rolled st' l = managed_rolled st l) → tracks level st' v' saved.
Proof.
  intros [Hinv Hv Hd Hs] Hinv' Hv' Hr. split; try done.
  intros i w Hi. pose proof (lookup_lt_Some _ _ _ Hi). rewrite Hr by lia. by apply Hs.
Qed.

Lemma tracks_savepoint level st v saved : tracks level st v saved → tracks (level + 1) st v (v :: saved).
Proof.
  intros [Hinv Hv Hd Hs]. split; simpl; try lia; try done.
  - eapply managed_inv_mono; [|done]. lia.
  - intros [|i] w Hi; simpl in Hi.
    + injection Hi as <-. rewrite <- Hv. eapply managed_rolled_above; [done|lia].
    + rewrite <- (Hs i w Hi). f_equal. lia.
Qed.

Lemma tracks_release level st v v' saved :
  tracks level st v (v' :: saved) →
  tracks (level - 1) (ManagedTableState_promote_to_level st level) v saved.
Proof.
  intros [Hinv Hv Hd Hs]. simpl in *.
  destruct (managed_inv_promote level st) as (Hinv' & Hv' & Hr); [lia|done|].
  split; try done; try lia; [congruence|].
  intros i w Hi. pose proof (lookup_lt_Some _ _ _ Hi). rewrite Hr by lia.
  rewrite <- (Hs (S i) w Hi). f_equal. lia.
Qed.

Lemma tracks_rollback level st v v' saved :
  tracks level st v (v' :: saved) →
  tracks (level - 1) (ManagedTableState_rollback_to_level st level) v' saved.
Proof.
  intros [Hinv Hv Hd Hs]. simpl in *.
  destruct (managed_inv_rollback level st level Hinv) as (Hinv' & Hv' & Hr).
  split; try done; try lia.
  - rewrite Hv'. pose proof (Hs 0%nat v' eq_refl) as H0. by rewrite Z.sub_0_r in H0.
  - intros i w Hi. rewrite Hr by lia. rewrite <- (Hs (S i) w Hi). f_equal. lia.
Qed.

(** Registration is invisible. *)
Lemma register_table_spec tx relid :
  tables (register_table tx relid) !! relid = Some (table_of tx relid) ∧
  ∀ r, table_of (register_table tx relid) r = table_of tx r.
Proof.
  unfold register_table, table_of. destruct (tables tx !! relid) eqn:Hr; simpl.
  - by rewrite Hr.
  - split; [by rewrite lookup_insert_eq|]. intros r.
    destruct (decide (r = relid)) as [->|]; [by rewrite lookup_insert_eq, Hr|].
    by rewrite lookup_insert_ne.
Qed.

Lemma table_of_insert tx relid st r :
  table_of (mkTxMetadata (<[relid := st]> (tables (register_table tx relid)))) r =
    if decide (r = relid) then st else table_of tx r.
Proof.
  rewrite <- (proj2 (register_table_spec tx relid) r). unfold table_of. simpl.
  destruct (decide (r = relid)) as [->|]; [by rewrite lookup_insert_eq|by rewrite lookup_insert_ne].
Qed.

(** The state [st'] of a table after a statement at [level] whose specified view
    is [v']. *)
Definition advanced (level : Z) (st st' : ManagedTableState) (v' : table_view) : Prop :=
  managed_inv level st' ∧ managed_view st' = v' ∧
  ∀ l, 2 ≤ l ≤ level → managed_rolled st' l = managed_rolled st l.

Lemma advanced_refl level st : managed_inv level st → advanced level st st (managed_view st).
Proof. done. Qed.

(** A statement touches one table. *)
Definition advances (level relid : Z) (tx tx' : TxMetadata) (v' : table_view) : Prop :=
  (∀ r, r ≠ relid → table_of tx' r = table_of tx r) ∧
  advanced level (table_of tx relid) (table_of tx' relid) v'.

Lemma advances_register level relid tx :
  managed_inv level (table_of tx relid) →
  advances level relid tx (register_table tx relid) (managed_view (table_of tx relid)).
Proof.
  intros Hinv. destruct (register_table_spec tx relid) as [_ Hr]. split; [by intros|].
  rewrite Hr. by apply advanced_refl.
Qed.

Lemma stage_mutation_spec level relid tx io op :
  managed_inv level (table_of tx relid) →
  let '(r, tx') := stage_table_mutation tx level relid io (λ st n, record_op st n op) in
  let '(r', l') := spec_op (fst (managed_view (table_of tx relid))) op in
  r = r' ∧ advances level relid tx tx' (l', snd (managed_view (table_of tx relid))).
Proof.
  intros Hinv. unfold stage_table_mutation.
  rewrite (proj1 (register_table_spec tx relid)).
  destruct (record_op_spec level (transaction (table_of tx relid)) op) as [Hr Hst];
    [eapply table_inv_ok, Hinv|].
  simpl in *. destruct (record_op _ level op) as [r t], (spec_op _ op) as [r' l']; simpl in *.
  split; [done|]. destruct (managed_inv_staged level (table_of tx relid) t l'
    (match file_io (table_of tx relid) with None => Some io | Some _ => file_io (table_of tx relid) end)
    Hinv Hst) as (H1 & H2 & H3).
  split.
  - intros r0 Hr0. rewrite table_of_insert. by rewrite decide_False.
  - rewrite table_of_insert, decide_True by done. done.
Qed.

Lemma register_twice tx relid : register_table (register_table tx relid) relid = register_table tx relid.
Proof.
  unfold register_table at 1. by rewrite (proj1 (register_table_spec tx relid)).
Qed.

Lemma tracker_drop_spec level relid tx :
  managed_inv level (table_of tx relid) →
  let '(r, tx') := tracker_stage_drop tx level relid in
  let '(r', v') := spec_record (managed_view (table_of tx relid)) TDrop in
  r = r' ∧ advances level relid tx tx' v'.
Proof.
  intros Hinv. unfold tracker_stage_drop. rewrite (proj1 (register_table_spec tx relid)).
  destruct (record_op_spec level (transaction (table_of tx relid)) OpDrop) as [Hr Hst];
    [eapply table_inv_ok, Hinv|].
  change (record_drop ?t level) with (record_op t level OpDrop). unfold managed_view, spec_record.
  destruct (record_op _ level OpDrop) as [r t], (spec_op _ OpDrop) as [r' l']; cbn [fst snd] in *.
  split; [done|].
  destruct (managed_inv_staged level (table_of tx relid) t l' (file_io (table_of tx relid)) Hinv Hst)
    as (H1 & H2 & H3).
  split; [intros r0 Hr0; by rewrite table_of_insert, decide_False|].
  by rewrite table_of_insert, decide_True.
Qed.

Lemma tracker_rebuild_spec level relid tx io :
  managed_inv level (table_of tx relid) →
  advances level relid tx (record_local_rebuild tx level relid io) ([], true).
Proof.
  intros Hinv. destruct (register_table_spec tx relid) as [Hlook Hof].
  destruct (managed_inv_rebuild level _ io Hinv) as (H1 & H2 & H3).
  assert (∀ r, table_of (record_local_rebuild tx level relid io) r =
    if decide (r = relid) then record_rebuild (table_of tx relid) level io else table_of tx r) as Ht.
  { intros r. rewrite <- (Hof r). unfold table_of at 1. simpl.
    destruct (decide (r = relid)) as [->|Hne]; [by rewrite lookup_alter_eq, Hlook|].
    by rewrite lookup_alter_ne. }
  split; [intros r Hr; by rewrite Ht, decide_False|]. by rewrite Ht, decide_True.
Qed.

Lemma tracker_record_spec level relid tx op :
  managed_inv level (table_of tx relid) →
  let '(r, tx') := tracker_record tx level relid op in
  let '(r', v') := spec_record (managed_view (table_of tx relid)) op in
  r = r' ∧ advances level relid tx tx' v'.
Proof.
  intros Hinv. pose proof (λ io op, stage_mutation_spec level relid tx io op Hinv) as Hstage.
  pose proof (advances_register level relid tx Hinv) as Hreg.
  destruct (register_table_spec tx relid) as [Hlook Hof].
  destruct op as [b io|u io|u io|x io|io md c| | |io]; cbn [tracker_record].
  - specialize (Hstage io (OpBatch b)). unfold stage_batch. simpl in *. by repeat case_match.
  - specialize (Hstage io (OpSchema u)). unfold stage_schema_update. simpl in *. by repeat case_match.
  - specialize (Hstage io (OpProperties u)). unfold stage_table_property_update. simpl in *.
    by repeat case_match.
  - specialize (Hstage io (OpExclusive x)). unfold stage_vacuum. rewrite Hlook.
    replace (was_rebuilt (table_of tx relid)) with (snd (managed_view (table_of tx relid))) by done.
    destruct (managed_view (table_of tx relid)) as [l [|]]; [done|].
    unfold stage_table_mutation in *. rewrite register_twice. simpl in *. by repeat case_match.
  - assert (advances level relid tx tx (managed_view (table_of tx relid))) as Hsame
      by (split; [done|by apply advanced_refl]).
    unfold tracker_stage_truncate. destruct md as [[location|]|err]; simpl; [|done|done].
    specialize (Hstage io (OpTruncate location c)). simpl in Hstage. by repeat case_match.
  - by apply tracker_drop_spec.
  - unfold prepare_local_rebuild. rewrite Hlook. simpl. rewrite conflict_erase.
    by destruct (exclusive_conflict_error _).
  - split; [done|]. by apply tracker_rebuild_spec.
Qed.

(** Every relation of the tracker simulates its view. *)
Definition tx_tracks (s : Z * TxMetadata) (spec : tx_view * list tx_view) : Prop :=
  ∀ relid, tracks (fst s) (table_of (snd s) relid) (fst spec relid) ((λ m, m relid) <$> snd spec).

Lemma table_of_fmap f tx relid :
  (f ManagedTableState_new = ManagedTableState_new) →
  table_of (mkTxMetadata (f <$> tables tx)) relid = f (table_of tx relid).
Proof.
  intros Hf. unfold table_of. simpl. rewrite lookup_fmap. by destruct (tables tx !! relid).
Qed.

Lemma tx_tracks_step s spec ev :
  tx_tracks s spec →
  fst (tracker_step s ev) = fst (tracker_spec spec ev) ∧
  tx_tracks (snd (tracker_step s ev)) (snd (tracker_spec spec ev)).
Proof.
  destruct s as [level tx], spec as [cur saved]. intros Htr0.
  assert (∀ r, tracks level (table_of tx r) (cur r) ((λ m, m r) <$> saved)) as Htr by apply Htr0.
  pose proof (tr_depth _ _ _ _ (Htr 0)) as Hd. simpl in Hd. rewrite length_fmap in Hd.
  destruct ev as [relid op| | |]; simpl.
  - pose proof (tracker_record_spec level relid tx op (tr_inv _ _ _ _ (Htr relid))) as Hrec.
    rewrite (tr_view _ _ _ _ (Htr relid)) in Hrec. simpl in Hrec.
    destruct (tracker_record tx level relid op) as [r tx'], (spec_record (cur relid) op) as [r' v'].
    destruct Hrec as (-> & Hother & Hinv & Hv & Hr). split; [done|]. intros relid'. simpl.
    destruct (decide (relid' = relid)) as [->|Hne].
    + rewrite fn_lookup_insert. by eapply tracks_update.
    + rewrite fn_lookup_insert_ne, Hother by done. apply Htr.
  - split; [done|]. intros relid. simpl. apply tracks_savepoint, Htr.
  - destruct saved as [|m saved]; simpl in *; destruct (Z.ltb_spec 1 level); try lia; simpl;
      split; try done. intros relid. simpl. unfold TxMetadata_on_commit_sub.
    rewrite (table_of_fmap (λ st, ManagedTableState_promote_to_level st level)) by done.
    apply (tracks_release _ _ _ (m relid)), Htr.
  - destruct saved as [|m saved]; simpl in *; destruct (Z.ltb_spec 1 level); try lia; simpl;
      split; try done. intros relid. simpl. unfold TxMetadata_on_abort_sub.
    rewrite (table_of_fmap (λ st, ManagedTableState_rollback_to_level st level)) by done.
    apply (tracks_rollback _ _ (cur relid)), Htr.
Qed.

Definition spec_new : tx_view := λ _, ([], false).

Lemma tx_tracks_new : tx_tracks (1, TxMetadata_new) (spec_new, []).
Proof. intros relid. split; simpl; try done. apply managed_inv_new. Qed.

Lemma tx_tracks_run s spec evs :
  tx_tracks s spec →
  fst (tx_run tracker_step s evs) = fst (tx_run tracker_spec spec evs) ∧
  tx_tracks (snd (tx_run tracker_step s evs)) (snd (tx_run tracker_spec spec evs)).
Proof.
  revert s spec. induction evs as [|ev evs IH]; intros s spec Htr; [done|].
  destruct (tx_tracks_step s spec ev Htr) as [Ho Htr']. simpl.
  destruct (tracker_step s ev) as [o s'], (tracker_spec spec ev) as [o' spec']; simpl in *. subst o.
  destruct (IH _ _ Htr') as [Hos Htr''].
  destruct (tx_run tracker_step s' evs), (tx_run tracker_spec spec' evs); simpl in *. by subst.
Qed.

Lemma is_empty_erase (l : TxTableActionLog E string) :
  is_empty l = is_empty (mkLog (erase (actions l)) None None None).
Proof.
  unfold is_empty. simpl. induction (actions l) as [|a l' IH]; [done|].
  simpl. rewrite IH. by destruct a.
Qed.

(** C12. Tracker refinement: for every interleaving, over any number of relations, of
    batches, schema and property updates, VACUUMs, TRUNCATEs, DROPs, local
    rebuilds, SAVEPOINT, RELEASE and ROLLBACK, each statement succeeds or fails
    with the same error as in the machine that copies the views of all relations at
    every savepoint; and at the end every relation has exactly the recorded actions
    and the rebuilt mark of that machine, so [has_local_actions] is exact. *)
Theorem tracker_refinement evs :
  let impl := tx_run tracker_step (1, TxMetadata_new) evs in
  let spec := tx_run tracker_spec (spec_new, []) evs in
  fst impl = fst spec ∧
  ∀ relid, let '(l, rebuilt) := fst (snd spec) relid in
    managed_view (table_of (snd (snd impl)) relid) = (l, rebuilt) ∧
    has_local_actions (snd (snd impl)) relid =
      rebuilt || negb (is_empty (mkLog l None None None)).
Proof.
  simpl. destruct (tx_tracks_run _ _ evs tx_tracks_new) as [Ho Htr]. split; [done|].
  intros relid. pose proof (tr_view _ _ _ _ (Htr relid)) as Hv.
  destruct (fst (snd (tx_run tracker_spec _ evs)) relid) as [l rebuilt]. split; [done|].
  unfold managed_view in Hv. injection Hv as <- <-. rewrite <- is_empty_erase.
  unfold has_local_actions, table_of. by destruct (tables _ !! relid).
Qed.

End Managed.

(** ** Witness *)

(** A table is written, rebuilt and written again inside a savepoint that is then
    rolled back: the first batch is visible again.  The theorem has no
    hypotheses; this instance documents it. *)
Example tracker_refinement_example :
  let batch f := @mkBatch ref_lite 1 (RefDelta false [f] [f]) None in
  let evs := [TxOp 7 (TBatch (batch "a") tt); TxSavepoint; TxOp 7 (TRebuild tt);
              TxOp 7 (TVacuum tt tt); TxOp 7 (TBatch (batch "b") tt); TxRollback] in
  fst (tx_run (tracker_step (EA := unit_exclusive)) (1, TxMetadata_new) evs) =
    [Ok tt; Ok tt; Err (InvariantViolated "conflict"); Ok tt].
Proof. vm_compute. reflexivity. Qed.
