(* ===== verification/StorageResources.v ===== *)
(** * Transaction-scoped storage resources

    Model of lagodb-iceberg/src/storage/transaction_resources.rs and of
    transaction_resources/registry.rs and resource.rs.  The registry remembers
    what a transaction created (local files, table directories, object uploads)
    so that commit and abort can dispose of it; files of a metadata
    materialization attempt live in a separate top-level registry until the
    attempt is promoted or discarded.

    The outside world is explicit: local files, table directories and remote
    objects that exist, and a clock that every deletion advances so that a fault
    may be transient.  Object locations belong to an external crate, hence are a
    parameter with decidable equality and a display function; a table directory
    stands for everything below it.  The thread-local slot and the [RefCell] of
    the registry are the explicit state. *)
From stdpp Require Import base gmap list strings.
From Stdlib Require Import ZArith Lia.
From S2P Require Import Prelude Errors.

Local Open Scope Z_scope.

Definition TOP_LEVEL_NEST_LEVEL : Z := 1.

Inductive ObjectFileState := Staged | Uploaded.

#[export] Instance ObjectFileState_eq_dec : EqDecision ObjectFileState.
Proof. solve_decision. Defined.

Section Storage.
Context {ObjectLocation : Type} `{EqL : !EqDecision ObjectLocation, CL : !Countable ObjectLocation}.
Context (display : ObjectLocation → string).
Context {L : Type}.

(** ** The outside world *)
Record World := mkWorld {
  local_files : gset string;
  directories : gset string;
  objects : gset ObjectLocation;
  clock : nat;
}.

(** Whether the deletion that runs at a given time fails with an error other than
    not-found. *)
Context (unlink_fault : nat → string → bool).
Context (remove_dir_fault : nat → string → bool).
Context (delete_fault : nat → ObjectLocation → bool).

Definition unlink_file (w : World) (path : string) : bool * World :=
  if unlink_fault (clock w) path
  then (false, mkWorld (local_files w) (directories w) (objects w) (S (clock w)))
  else (true, mkWorld (local_files w ∖ {[path]}) (directories w) (objects w) (S (clock w))).

Definition remove_dir_all (w : World) (location : string) : bool * World :=
  if remove_dir_fault (clock w) location
  then (false, mkWorld (local_files w) (directories w) (objects w) (S (clock w)))
  else (true, mkWorld (local_files w) (directories w ∖ {[location]}) (objects w) (S (clock w))).

Definition service_delete (w : World) (location : ObjectLocation) : bool * World :=
  if delete_fault (clock w) location
  then (false, mkWorld (local_files w) (directories w) (objects w) (S (clock w)))
  else (true, mkWorld (local_files w) (directories w) (objects w ∖ {[location]}) (S (clock w))).

(** ** Resources *)
Inductive StorageResource :=
| CreatedLocalFile (path : string)
| CreatedTableDir (location : string)
| ObjectFile (location : ObjectLocation) (staging_path : string) (state : ObjectFileState).

(** [on_commit] removes staging files and ignores failures. *)
Definition StorageResource_on_commit (r : StorageResource) (w : World) : World :=
  match r with
  | ObjectFile _ staging_path Uploaded => snd (unlink_file w staging_path)
  | ObjectFile _ staging_path Staged => snd (unlink_file w staging_path)
  | _ => w
  end.

(** [on_abort] returns the resource when it could not be cleaned. *)
Definition StorageResource_on_abort (r : StorageResource) (w : World)
    : option StorageResource * World :=
  let '(cleaned, w) :=
    match r with
    | CreatedLocalFile path => unlink_file w path
    | CreatedTableDir location => remove_dir_all w location
    | ObjectFile location staging_path state =>
        let '(remote_deleted, w) :=
          match state with
          | Uploaded => service_delete w location
          | Staged => (true, w)
          end in
        let '(staging_unlinked, w) := unlink_file w staging_path in
        (remote_deleted && staging_unlinked, w)
    end in
  (if cleaned then None else Some r, w).

(** ** The registry *)
Record TrackedResource := mkTracked { tracked_level : Z; resource : StorageResource }.

Record MetadataAttemptState := mkAttempt {
  attempt_id : Z;
  resources : list StorageResource;
}.

Record MetadataResourceRegistry := mkMetadataRegistry {
  active_attempt : option MetadataAttemptState;
  promoted : list StorageResource;
  cleanup_required : list StorageResource;
  next_attempt_id : Z;
}.

Definition MetadataResourceRegistry_new : MetadataResourceRegistry := mkMetadataRegistry None [] [] 1.

(** [nest_level] is [GetCurrentTransactionNestLevel()]. *)
Definition begin_attempt (m : MetadataResourceRegistry) (nest_level : Z)
    : IcebergResult L Z * MetadataResourceRegistry :=
  if negb (nest_level =? TOP_LEVEL_NEST_LEVEL)
  then (Err (InvariantViolated "metadata resource attempts require top-level transaction context"), m)
  else
    match active_attempt m with
    | Some _ => (Err (InvariantViolated "metadata resource attempts cannot be nested"), m)
    | None =>
        let id := next_attempt_id m in
        match checked_add u32_max id 1 with
        | None => (Err (InvariantViolated "metadata resource attempt id overflow"), m)
        | Some next =>
            (Ok id, mkMetadataRegistry (Some (mkAttempt id [])) (promoted m) (cleanup_required m) next)
        end
    end.

Definition not_active {A} : IcebergResult L A :=
  Err (InvariantViolated "metadata resource attempt is not active").

Definition take_attempt (m : MetadataResourceRegistry) (id : Z)
    : IcebergResult L (list StorageResource) * MetadataResourceRegistry :=
  match active_attempt m with
  | None => (not_active, m)
  | Some attempt =>
      if negb (attempt_id attempt =? id) then (not_active, m)
      else (Ok (resources attempt),
            mkMetadataRegistry None (promoted m) (cleanup_required m) (next_attempt_id m))
  end.

Definition promote_attempt (m : MetadataResourceRegistry) (id : Z)
    : IcebergResult L unit * MetadataResourceRegistry :=
  let '(r, m) := take_attempt m id in
  match r with
  | Err err => (Err err, m)
  | Ok rs => (Ok tt, mkMetadataRegistry (active_attempt m) (promoted m ++ rs) (cleanup_required m)
                       (next_attempt_id m))
  end.

(** The promoted resources, and the ones that still need abort-style cleanup. *)
Definition metadata_drain_top_level (m : MetadataResourceRegistry)
    : list StorageResource * list StorageResource * MetadataResourceRegistry :=
  let cleanup :=
    match active_attempt m with
    | Some active => cleanup_required m ++ reverse (resources active)
    | None => cleanup_required m
    end in
  (promoted m, cleanup, mkMetadataRegistry None [] [] (next_attempt_id m)).

Record StorageResourceRegistry := mkRegistry {
  entries : list TrackedResource;
  metadata : MetadataResourceRegistry;
}.

Definition StorageResourceRegistry_new : StorageResourceRegistry :=
  mkRegistry [] MetadataResourceRegistry_new.

Definition track (reg : StorageResourceRegistry) (nest_level : Z) (r : StorageResource)
    : StorageResourceRegistry :=
  let m := metadata reg in
  match active_attempt m with
  | Some attempt =>
      mkRegistry (entries reg)
        (mkMetadataRegistry (Some (mkAttempt (attempt_id attempt) (resources attempt ++ [r])))
           (promoted m) (cleanup_required m) (next_attempt_id m))
  | None => mkRegistry (entries reg ++ [mkTracked nest_level r]) m
  end.

Definition begin_metadata_attempt (reg : StorageResourceRegistry) (nest_level : Z)
    : IcebergResult L Z * StorageResourceRegistry :=
  let '(r, m) := begin_attempt (metadata reg) nest_level in (r, mkRegistry (entries reg) m).

Definition promote_metadata_attempt (reg : StorageResourceRegistry) (id : Z)
    : IcebergResult L unit * StorageResourceRegistry :=
  let '(r, m) := promote_attempt (metadata reg) id in (r, mkRegistry (entries reg) m).

(** [current_write_resources]: the active attempt first, then the entries. *)
Definition current_write_resources (reg : StorageResourceRegistry) : list StorageResource :=
  match active_attempt (metadata reg) with Some a => resources a | None => [] end ++
  map resource (entries reg).

Fixpoint ensure_first (location : ObjectLocation) (rs : list StorageResource) : result string unit :=
  match rs with
  | [] =>
      Err ("no staged entry found for '" +:+ display location +:+
           "'; finalize_write called without a prior writer() registration")
  | ObjectFile tracked _ state :: rs' =>
      if decide (tracked = location)
      then match state with
           | Staged => Ok tt
           | Uploaded =>
               Err ("object '" +:+ display location +:+
                    "' is already in Uploaded state; duplicate finalize_write?")
           end
      else ensure_first location rs'
  | _ :: rs' => ensure_first location rs'
  end.

Definition ensure_object_file_staged (reg : StorageResourceRegistry) (location : ObjectLocation)
    : result string unit := ensure_first location (current_write_resources reg).

(** The first resource for [location] decides; [None] when there is none. *)
Fixpoint mark_first (location : ObjectLocation) (rs : list StorageResource)
    : option (result string (list StorageResource)) :=
  match rs with
  | [] => None
  | r :: rs' =>
      let continue := match mark_first location rs' with
                      | Some (Ok l) => Some (Ok (r :: l))
                      | other => other
                      end in
      match r with
      | ObjectFile tracked staging state =>
          if decide (tracked = location)
          then match state with
               | Staged => Some (Ok (ObjectFile tracked staging Uploaded :: rs'))
               | Uploaded =>
                   Some (Err ("object '" +:+ display location +:+
                              "' is already Uploaded; state machine error"))
               end
          else continue
      | _ => continue
      end
  end.

(** Split the updated list back into the attempt and the entries. *)
Definition mark_object_file_uploaded (reg : StorageResourceRegistry) (location : ObjectLocation)
    : result string unit * StorageResourceRegistry :=
  let m := metadata reg in
  let attempt_resources := match active_attempt m with Some a => resources a | None => [] end in
  match mark_first location attempt_resources with
  | Some (Err message) => (Err message, reg)
  | Some (Ok rs) =>
      (Ok tt, mkRegistry (entries reg)
                (mkMetadataRegistry
                   ((λ a, mkAttempt (attempt_id a) rs) <$> active_attempt m)
                   (promoted m) (cleanup_required m) (next_attempt_id m)))
  | None =>
      match mark_first location (map resource (entries reg)) with
      | Some (Err message) => (Err message, reg)
      | Some (Ok rs) =>
          (Ok tt, mkRegistry (zip_with (λ e r, mkTracked (tracked_level e) r) (entries reg) rs) m)
      | None => (Err ("no entry found for '" +:+ display location +:+ "' during mark_uploaded"), reg)
      end
  end.

Definition promote_subtransaction_resources (reg : StorageResourceRegistry) (nest_level : Z)
    : StorageResourceRegistry :=
  mkRegistry
    (map (λ e, if nest_level <=? tracked_level e then mkTracked (nest_level - 1) (resource e) else e)
       (entries reg)) (metadata reg).

Definition take_aborted_subtransaction_resources (reg : StorageResourceRegistry) (nest_level : Z)
    : list TrackedResource * StorageResourceRegistry :=
  (filter (λ e, nest_level ≤ tracked_level e) (entries reg),
   mkRegistry (filter (λ e, tracked_level e < nest_level) (entries reg)) (metadata reg)).

(** ** The transaction resource *)

(** A list of resources is aborted in order; the ones that failed are returned. *)
Fixpoint abort_all (rs : list StorageResource) (w : World) : list StorageResource * World :=
  match rs with
  | [] => ([], w)
  | r :: rs' =>
      let '(failed, w) := StorageResource_on_abort r w in
      let '(rest, w) := abort_all rs' w in (option_list failed ++ rest, w)
  end.

Definition commit_all_resources (rs : list StorageResource) (w : World) : World :=
  foldl (λ w r, StorageResource_on_commit r w) w rs.

Definition discard_metadata_attempt (reg : StorageResourceRegistry) (id : Z) (w : World)
    : IcebergResult L unit * StorageResourceRegistry * World :=
  let '(r, m) := take_attempt (metadata reg) id in
  match r with
  | Err err => (Err err, mkRegistry (entries reg) m, w)
  | Ok rs =>
      let '(failed, w) := abort_all (reverse rs) w in
      (Ok tt, mkRegistry (entries reg)
                (mkMetadataRegistry (active_attempt m) (promoted m) (cleanup_required m ++ failed)
                   (next_attempt_id m)), w)
  end.

Definition storage_on_commit (reg : StorageResourceRegistry) (w : World) : World :=
  let '(promoted_metadata, cleanup_metadata, _) := metadata_drain_top_level (metadata reg) in
  let w := commit_all_resources (map resource (entries reg) ++ promoted_metadata) w in
  snd (abort_all cleanup_metadata w).

Definition storage_on_abort (reg : StorageResourceRegistry) (w : World) : World :=
  let '(promoted_metadata, cleanup_metadata, _) := metadata_drain_top_level (metadata reg) in
  snd (abort_all (map resource (entries reg) ++ promoted_metadata ++ cleanup_metadata) w).

Definition storage_on_abort_sub (reg : StorageResourceRegistry) (current_nest_level : Z) (w : World)
    : StorageResourceRegistry * World :=
  let '(aborted, reg) := take_aborted_subtransaction_resources reg current_nest_level in
  (reg, snd (abort_all (map resource aborted) w)).

(** ** What a resource occupies *)

Definition local_paths (r : StorageResource) : gset string :=
  match r with
  | CreatedLocalFile path => {[path]}
  | CreatedTableDir _ => ∅
  | ObjectFile _ staging _ => {[staging]}
  end.
Definition dir_paths (r : StorageResource) : gset string :=
  match r with CreatedTableDir location => {[location]} | _ => ∅ end.
(** A remote object exists only once it has been uploaded. *)
Definition remote_paths (r : StorageResource) : gset ObjectLocation :=
  match r with ObjectFile location _ Uploaded => {[location]} | _ => ∅ end.

Definition all_local (rs : list StorageResource) : gset string := ⋃ (local_paths <$> rs).
Definition all_dirs (rs : list StorageResource) : gset string := ⋃ (dir_paths <$> rs).
Definition all_remote (rs : list StorageResource) : gset ObjectLocation := ⋃ (remote_paths <$> rs).

(** [w'] is [w] without the footprint of [rs]. *)
Definition removed (rs : list StorageResource) (w w' : World) : Prop :=
  local_files w' = local_files w ∖ all_local rs ∧
  directories w' = directories w ∖ all_dirs rs ∧
  objects w' = objects w ∖ all_remote rs.

(** Every resource the registry is responsible for. *)
Definition registry_resources (reg : StorageResourceRegistry) : list StorageResource :=
  map resource (entries reg) ++ promoted (metadata reg) ++ cleanup_required (metadata reg) ++
  match active_attempt (metadata reg) with Some a => resources a | None => [] end.

Section Healthy.
Context (Hunlink : ∀ t p, unlink_fault t p = false).
Context (Hrmdir : ∀ t p, remove_dir_fault t p = false).
Context (Hdelete : ∀ t l, delete_fault t l = false).

Lemma unlink_ok w path :
  unlink_file w path =
    (true, mkWorld (local_files w ∖ {[path]}) (directories w) (objects w) (S (clock w))).
Proof. unfold unlink_file. by rewrite Hunlink. Qed.

Lemma abort_ok r w :
  fst (StorageResource_on_abort r w) = None ∧ removed [r] w (snd (StorageResource_on_abort r w)).
Proof.
  unfold StorageResource_on_abort. destruct r as [path|location|location staging state].
  - rewrite unlink_ok. simpl. split; [done|]. unfold removed, all_local, all_dirs, all_remote. simpl.
    split_and!; set_solver.
  - unfold remove_dir_all. rewrite Hrmdir. simpl. split; [done|].
    unfold removed, all_local, all_dirs, all_remote. simpl. split_and!; set_solver.
  - destruct state.
    + rewrite unlink_ok. simpl. split; [done|]. unfold removed, all_local, all_dirs, all_remote. simpl.
      split_and!; set_solver.
    + unfold service_delete. rewrite Hdelete, unlink_ok. simpl. split; [done|].
      unfold removed, all_local, all_dirs, all_remote. simpl. split_and!; set_solver.
Qed.

Lemma removed_cons r rs w w1 w2 : removed [r] w w1 → removed rs w1 w2 → removed (r :: rs) w w2.
Proof.
  unfold removed, all_local, all_dirs, all_remote. csimpl.
  intros (-> & -> & ->) (-> & -> & ->). split_and!; set_solver.
Qed.

Lemma abort_all_ok rs w :
  fst (abort_all rs w) = [] ∧ removed rs w (snd (abort_all rs w)).
Proof.
  revert w. induction rs as [|r rs IH]; intros w; simpl.
  { split; [done|]. unfold removed, all_local, all_dirs, all_remote. simpl. split_and!; set_solver. }
  destruct (abort_ok r w) as [H1 H2]. destruct (StorageResource_on_abort r w) as [o w1].
  simpl in *. subst o. destruct (IH w1) as [H3 H4]. destruct (abort_all rs w1). simpl in *.
  subst. split; [done|]. by eapply removed_cons.
Qed.

(** The staging files that commit removes. *)
Definition staging_paths (r : StorageResource) : gset string :=
  match r with ObjectFile _ staging _ => {[staging]} | _ => ∅ end.

Lemma commit_all_ok rs w :
  let w' := commit_all_resources rs w in
  local_files w' = local_files w ∖ ⋃ (staging_paths <$> rs) ∧
  directories w' = directories w ∧ objects w' = objects w.
Proof.
  unfold commit_all_resources. revert w. induction rs as [|r rs IH]; intros w; simpl.
  { split_and!; set_solver. }
  destruct (IH (StorageResource_on_commit r w)) as (-> & -> & ->).
  destruct r as [| |? ? []]; unfold StorageResource_on_commit; rewrite ?unlink_ok; simpl;
    split_and!; set_solver.
Qed.

(** ** A whole transaction *)

(** What writers and the transaction framework do to the registry.  Creating a
    resource puts its file into the world; [finalize_write] checks that the entry
    is staged, uploads the object and records the upload. *)
Inductive storage_event :=
| EvCreate (r : StorageResource)
| EvUpload (location : ObjectLocation)
| EvBeginAttempt
| EvPromoteAttempt (id : Z)
| EvDiscardAttempt (id : Z)
| EvSavepoint
| EvRelease
| EvRollback.

Record StorageState := mkStorage {
  st_level : Z;
  st_registry : StorageResourceRegistry;
  st_world : World;
}.

Definition create_in_world (r : StorageResource) (w : World) : World :=
  mkWorld (local_files w ∪ local_paths r) (directories w ∪ dir_paths r) (objects w) (clock w).

Definition storage_step (s : StorageState) (ev : storage_event) : StorageState :=
  let '(mkStorage level reg w) := s in
  match ev with
  | EvCreate r => mkStorage level (track reg level r) (create_in_world r w)
  | EvUpload location =>
      match ensure_object_file_staged reg location with
      | Err _ => s
      | Ok _ =>
          let w := mkWorld (local_files w) (directories w) (objects w ∪ {[location]}) (clock w) in
          mkStorage level (snd (mark_object_file_uploaded reg location)) w
      end
  | EvBeginAttempt => mkStorage level (snd (begin_metadata_attempt reg level)) w
  | EvPromoteAttempt id => mkStorage level (snd (promote_metadata_attempt reg id)) w
  | EvDiscardAttempt id =>
      let '(_, reg, w) := discard_metadata_attempt reg id w in mkStorage level reg w
  | EvSavepoint => mkStorage (level + 1) reg w
  | EvRelease =>
      if 1 <? level
      then mkStorage (level - 1) (promote_subtransaction_resources reg level) w else s
  | EvRollback =>
      if 1 <? level
      then let '(reg, w) := storage_on_abort_sub reg level w in mkStorage (level - 1) reg w else s
  end.

Definition storage_run (s : StorageState) (evs : list storage_event) : StorageState :=
  foldl storage_step s evs.

(** *** The invariant of a run *)

Definition object_paths (r : StorageResource) : gset ObjectLocation :=
  match r with ObjectFile location _ _ => {[location]} | _ => ∅ end.

(** [r] names nothing that existed in [w0]. *)
Definition fresh_resource (w0 : World) (r : StorageResource) : Prop :=
  local_paths r ## local_files w0 ∧ dir_paths r ## directories w0 ∧ object_paths r ## objects w0.

(** The world is the initial one plus files the registry answers for. *)
Record covered (w0 : World) (rs : list StorageResource) (w : World) : Prop := {
  cov_fresh : ∀ r, r ∈ rs → fresh_resource w0 r;
  cov_local : local_files w0 ⊆ local_files w ∧
    ∀ p, p ∈ local_files w → p ∈ local_files w0 ∨ ∃ r, r ∈ rs ∧ p ∈ local_paths r;
  cov_dirs : directories w0 ⊆ directories w ∧
    ∀ p, p ∈ directories w → p ∈ directories w0 ∨ ∃ r, r ∈ rs ∧ p ∈ dir_paths r;
  cov_objects : objects w0 ⊆ objects w ∧
    ∀ p, p ∈ objects w → p ∈ objects w0 ∨ ∃ r, r ∈ rs ∧ p ∈ remote_paths r;
}.

Lemma elem_of_union_fmap {A K} `{Countable K} (f : A → gset K) (l : list A) (x : K) :
  x ∈ ⋃ (f <$> l) ↔ ∃ r, r ∈ l ∧ x ∈ f r.
Proof.
  rewrite elem_of_union_list. setoid_rewrite list_elem_of_fmap. split.
  - intros (X & (r & -> & Hr) & Hx). eauto.
  - intros (r & Hr & Hx). eauto.
Qed.

Lemma remote_object_paths r : remote_paths r ⊆ object_paths r.
Proof. destruct r as [| |? ? []]; set_solver. Qed.

(** Cleaning up a part of the covered resources. *)
Lemma covered_shrink w0 rs rs' gone w w' :
  covered w0 rs w → removed gone w w' → (∀ r, r ∈ rs ↔ r ∈ rs' ∨ r ∈ gone) → covered w0 rs' w'.
Proof.
  intros [Hf [Hl1 Hl2] [Hd1 Hd2] [Ho1 Ho2]] (Hl & Hd & Ho) Hrs.
  assert (∀ r, r ∈ gone → fresh_resource w0 r) as Hg by (intros r Hr; apply Hf, Hrs; auto).
  split.
  - intros r Hr. apply Hf, Hrs. auto.
  - rewrite Hl. split.
    + intros p Hp. apply elem_of_difference. split; [by apply Hl1|].
      intros (r & Hr & Hpr)%elem_of_union_fmap. destruct (Hg r Hr) as (Hdis & _). set_solver.
    + intros p [Hp Hnp]%elem_of_difference. destruct (Hl2 p Hp) as [|(r & Hr & Hpr)]; [by left|].
      right. exists r. apply Hrs in Hr as [|Hr]; [done|]. destruct Hnp. apply elem_of_union_fmap. eauto.
  - rewrite Hd. split.
    + intros p Hp. apply elem_of_difference. split; [by apply Hd1|].
      intros (r & Hr & Hpr)%elem_of_union_fmap. destruct (Hg r Hr) as (_ & Hdis & _). set_solver.
    + intros p [Hp Hnp]%elem_of_difference. destruct (Hd2 p Hp) as [|(r & Hr & Hpr)]; [by left|].
      right. exists r. apply Hrs in Hr as [|Hr]; [done|]. destruct Hnp. apply elem_of_union_fmap. eauto.
  - rewrite Ho. split.
    + intros p Hp. apply elem_of_difference. split; [by apply Ho1|].
      intros (r & Hr & Hpr)%elem_of_union_fmap. destruct (Hg r Hr) as (_ & _ & Hdis).
      pose proof (remote_object_paths r). set_solver.
    + intros p [Hp Hnp]%elem_of_difference. destruct (Ho2 p Hp) as [|(r & Hr & Hpr)]; [by left|].
      right. exists r. apply Hrs in Hr as [|Hr]; [done|]. destruct Hnp. apply elem_of_union_fmap. eauto.
Qed.

Lemma removed_nil w : removed [] w w.
Proof. unfold removed, all_local, all_dirs, all_remote. simpl. split_and!; set_solver. Qed.

Lemma covered_same w0 rs rs' w : covered w0 rs w → (∀ r, r ∈ rs ↔ r ∈ rs') → covered w0 rs' w.
Proof.
  intros Hc Hrs. eapply covered_shrink; [done|apply removed_nil|]. intros r. rewrite Hrs. set_solver.
Qed.

(** Cleaning up everything leaves the initial world. *)
Lemma covered_removed w0 rs rs' w w' :
  covered w0 rs w → removed rs' w w' → (∀ r, r ∈ rs ↔ r ∈ rs') →
  local_files w' = local_files w0 ∧ directories w' = directories w0 ∧ objects w' = objects w0.
Proof.
  intros Hc Hr Hrs. destruct (covered_shrink w0 rs [] rs' w w' Hc Hr)
    as [_ [Hl1 Hl2] [Hd1 Hd2] [Ho1 Ho2]]; [intros r; rewrite Hrs; set_solver|].
  split_and!; apply (anti_symm (⊆)); try done; intros p Hp.
  - destruct (Hl2 p Hp) as [|(r & Hr' & _)]; [done|set_solver].
  - destruct (Hd2 p Hp) as [|(r & Hr' & _)]; [done|set_solver].
  - destruct (Ho2 p Hp) as [|(r & Hr' & _)]; [done|set_solver].
Qed.

(** Creating a fresh, staged or local, resource. *)
Lemma covered_create w0 rs rs' r w :
  covered w0 rs w → fresh_resource w0 r → (∀ r', r' ∈ rs' ↔ r' ∈ rs ∨ r' = r) →
  covered w0 rs' (create_in_world r w).
Proof.
  intros [Hf [Hl1 Hl2] [Hd1 Hd2] [Ho1 Ho2]] Hr Hrs. split.
  - intros r' [| ->]%Hrs; auto.
  - simpl. split; [set_solver|]. intros p [Hp|Hp]%elem_of_union.
    + destruct (Hl2 p Hp) as [|(r' & ? & ?)]; [by left|]. right. exists r'. rewrite Hrs. auto.
    + right. exists r. rewrite Hrs. auto.
  - simpl. split; [set_solver|]. intros p [Hp|Hp]%elem_of_union.
    + destruct (Hd2 p Hp) as [|(r' & ? & ?)]; [by left|]. right. exists r'. rewrite Hrs. auto.
    + right. exists r. rewrite Hrs. auto.
  - simpl. split; [done|]. intros p Hp.
    destruct (Ho2 p Hp) as [|(r' & ? & ?)]; [by left|]. right. exists r'. rewrite Hrs. auto.
Qed.

(** *** Uploads *)

Lemma mark_first_Ok location rs rs' :
  mark_first location rs = Some (Ok rs') →
  ∃ a staging b, rs = a ++ ObjectFile location staging Staged :: b ∧
                 rs' = a ++ ObjectFile location staging Uploaded :: b.
Proof.
  revert rs'. induction rs as [|r rs IH]; intros rs'; simpl; [done|].
  assert (∀ l, match mark_first location rs with Some (Ok l) => Some (Ok (r :: l)) | other => other end
               = Some (Ok l) →
    ∃ a staging b, r :: rs = a ++ ObjectFile location staging Staged :: b ∧
                   l = a ++ ObjectFile location staging Uploaded :: b) as Hcont.
  { intros l Hl. destruct (mark_first location rs) as [[l'|]|]; try done. injection Hl as <-.
    destruct (IH l' eq_refl) as (a & staging & b & -> & ->). by exists (r :: a), staging, b. }
  destruct r as [| |tracked staging state]; auto.
  destruct (decide (tracked = location)) as [->|]; [|auto].
  destruct state; [|done]. intros [= <-]. by exists [], staging, rs.
Qed.

Lemma ensure_mark location rs :
  ensure_first location rs = Ok tt → ∃ rs', mark_first location rs = Some (Ok rs').
Proof.
  induction rs as [|[| |tracked staging state] rs IH]; simpl; [done|..].
  - intros [l ->]%IH. eauto.
  - intros [l ->]%IH. eauto.
  - destruct (decide (tracked = location)) as [->|]; [destruct state; [eauto|done]|].
    intros [l ->]%IH. eauto.
Qed.

Lemma ensure_app location a b :
  ensure_first location (a ++ b) = Ok tt →
  (∃ a', mark_first location a = Some (Ok a')) ∨
  (mark_first location a = None ∧ ensure_first location b = Ok tt).
Proof.
  induction a as [|[| |tracked staging state] a IH]; simpl; [by right|..].
  - intros [[l ->]|[-> ?]]%IH; eauto.
  - intros [[l ->]|[-> ?]]%IH; eauto.
  - destruct (decide (tracked = location)) as [->|]; [destruct state; [eauto|done]|].
    intros [[l ->]|[-> ?]]%IH; eauto.
Qed.

Lemma zip_levels (es : list TrackedResource) rs :
  length rs = length es →
  map resource (zip_with (λ e r, mkTracked (tracked_level e) r) es rs) = rs.
Proof.
  revert rs. induction es as [|e es IH]; intros [|r rs] Hl; simpl in *; try done.
  f_equal. apply IH. lia.
Qed.

(** After a check that passed, recording the upload replaces one staged resource
    by the same resource in the uploaded state. *)
Lemma mark_uploaded_spec reg location :
  ensure_object_file_staged reg location = Ok tt →
  let reg' := snd (mark_object_file_uploaded reg location) in
  fst (mark_object_file_uploaded reg location) = Ok tt ∧
  ∃ a staging b, registry_resources reg ≡ₚ a ++ ObjectFile location staging Staged :: b ∧
                 registry_resources reg' ≡ₚ a ++ ObjectFile location staging Uploaded :: b.
Proof.
  unfold ensure_object_file_staged, current_write_resources, mark_object_file_uploaded.
  unfold registry_resources. intros [[a' Ha']|[Ha Hb]]%ensure_app.
  - rewrite Ha'. simpl. split; [done|]. apply mark_first_Ok in Ha' as (a & staging & b & Ha & ->).
    destruct (active_attempt (metadata reg)) as [att|]; simpl in *; [|by destruct a].
    rewrite Ha. eexists (map resource (entries reg) ++ promoted (metadata reg) ++
      cleanup_required (metadata reg) ++ a), staging, b.
    by rewrite !(assoc_L (++)).
  - rewrite Ha. destruct (ensure_mark _ _ Hb) as [rs Hrs]. rewrite Hrs. simpl. split; [done|].
    apply mark_first_Ok in Hrs as (a & staging & b & Hes & ->).
    eexists a, staging, (b ++ promoted (metadata reg) ++ cleanup_required (metadata reg) ++
      match active_attempt (metadata reg) with Some a => resources a | None => [] end).
    rewrite zip_levels.
    + rewrite Hes, !app_comm_cons, !(assoc_L (++)). done.
    + apply (f_equal length) in Hes. rewrite length_map in Hes. rewrite Hes, !length_app. done.
Qed.

Lemma covered_upload w0 a b staging location w :
  covered w0 (a ++ ObjectFile location staging Staged :: b) w →
  covered w0 (a ++ ObjectFile location staging Uploaded :: b)
    (mkWorld (local_files w) (directories w) (objects w ∪ {[location]}) (clock w)).
Proof.
  intros [Hf [Hl1 Hl2] [Hd1 Hd2] [Ho1 Ho2]].
  assert (∀ X : StorageResource → Prop,
    (X (ObjectFile location staging Staged) → X (ObjectFile location staging Uploaded)) →
    (∃ r, r ∈ a ++ ObjectFile location staging Staged :: b ∧ X r) →
    ∃ r, r ∈ a ++ ObjectFile location staging Uploaded :: b ∧ X r) as Hmove.
  { intros X HX (r & Hr & Hx). setoid_rewrite elem_of_middle. rewrite elem_of_middle in Hr.
    destruct Hr as [?|[->|?]]; [exists r; by auto| |exists r; by auto].
    exists (ObjectFile location staging Uploaded). auto. }
  split; simpl.
  - intros r Hr. rewrite elem_of_middle in Hr. setoid_rewrite elem_of_middle in Hf.
    destruct Hr as [?|[->|?]]; [by auto| |by auto].
    apply (Hf (ObjectFile location staging Staged)). auto.
  - split; [done|]. intros p [|Hp]%Hl2; [by left|right]. by apply (Hmove (λ r, p ∈ local_paths r)).
  - split; [done|]. intros p [|Hp]%Hd2; [by left|right]. by apply (Hmove (λ r, p ∈ dir_paths r)).
  - split; [by apply union_subseteq_l'|]. intros p [[|Hp]%Ho2|Hp]%elem_of_union; [by left| |].
    + right. apply (Hmove (λ r, p ∈ remote_paths r)); [|done]. by intros ?%elem_of_empty.
    + right. exists (ObjectFile location staging Uploaded). rewrite elem_of_middle. auto.
Qed.

(** *** Every step keeps the world covered *)

Lemma registry_resources_track reg level r :
  registry_resources (track reg level r) ≡ₚ r :: registry_resources reg.
Proof.
  unfold registry_resources, track. destruct (active_attempt (metadata reg)) as [a|] eqn:Ha; simpl.
  - rewrite !(assoc (++)). symmetry. apply Permutation_cons_append.
  - rewrite map_app, Ha. simpl. rewrite <- (assoc (++)). symmetry. apply Permutation_middle.
Qed.

Lemma registry_resources_begin reg level :
  registry_resources (snd (begin_metadata_attempt reg level)) = registry_resources reg.
Proof.
  unfold begin_metadata_attempt, begin_attempt, registry_resources.
  destruct (level =? TOP_LEVEL_NEST_LEVEL); simpl; [|done].
  destruct (active_attempt (metadata reg)) eqn:Ha; simpl; [by rewrite Ha|].
  destruct (checked_add _ _ _); simpl; [done|]. by rewrite Ha.
Qed.

Lemma registry_resources_promote reg id :
  registry_resources (snd (promote_metadata_attempt reg id)) ≡ₚ registry_resources reg.
Proof.
  unfold promote_metadata_attempt, promote_attempt, take_attempt, registry_resources.
  destruct (active_attempt (metadata reg)) as [a|] eqn:Ha; simpl; [|by rewrite Ha].
  destruct (attempt_id a =? id); simpl; [|by rewrite Ha]. rewrite app_nil_r, <- (assoc (++)).
  do 2 f_equiv. apply Permutation_app_comm.
Qed.

Lemma registry_resources_release reg level :
  registry_resources (promote_subtransaction_resources reg level) = registry_resources reg.
Proof.
  unfold registry_resources, promote_subtransaction_resources. simpl. rewrite map_map.
  rewrite (map_ext (λ e, resource (if level <=? tracked_level e
             then mkTracked (level - 1) (resource e) else e)) resource); [done|].
  intros e. by destruct (level <=? tracked_level e).
Qed.

(** Discarding an attempt and rolling back a savepoint delete what they forget. *)
Lemma discard_spec reg id w :
  let '(_, reg', w') := discard_metadata_attempt reg id w in
  ∃ gone, registry_resources reg ≡ₚ registry_resources reg' ++ gone ∧ removed gone w w'.
Proof.
  unfold discard_metadata_attempt, take_attempt.
  assert (∃ gone, registry_resources reg ≡ₚ registry_resources reg ++ gone ∧ removed gone w w) as Hsame.
  { exists []. rewrite app_nil_r. split; [done|apply removed_nil]. }
  destruct (active_attempt (metadata reg)) as [a|] eqn:Ha; simpl; [|by destruct reg].
  destruct (attempt_id a =? id); simpl; [|by destruct reg].
  destruct (abort_all_ok (reverse (resources a)) w) as [Hfail Hrem].
  destruct (abort_all (reverse (resources a)) w) as [failed w']. simpl in *. subst failed.
  exists (reverse (resources a)). split; [|done]. unfold registry_resources. rewrite Ha. simpl.
  by rewrite !app_nil_r, reverse_Permutation, !(assoc (++)).
Qed.

Lemma filter_split_level (level : Z) (es : list TrackedResource) :
  map resource es ≡ₚ
    map resource (filter (λ e, tracked_level e < level) es) ++
    map resource (filter (λ e, level ≤ tracked_level e) es).
Proof.
  induction es as [|e es IH]; [done|]. simpl. rewrite !filter_cons.
  destruct (decide (tracked_level e < level)), (decide (level ≤ tracked_level e)); try lia; simpl.
  - by rewrite IH.
  - rewrite IH. apply Permutation_middle.
Qed.

Lemma rollback_spec reg level w :
  ∃ gone, registry_resources reg ≡ₚ registry_resources (fst (storage_on_abort_sub reg level w)) ++ gone ∧
    removed gone w (snd (storage_on_abort_sub reg level w)).
Proof.
  unfold storage_on_abort_sub, take_aborted_subtransaction_resources. simpl.
  eexists. split; [|apply abort_all_ok]. unfold registry_resources. simpl.
  rewrite (filter_split_level level (entries reg)), <- !(assoc (++)). f_equiv.
  rewrite Permutation_app_comm. by rewrite <- !(assoc (++)).
Qed.

Definition event_fresh (w0 : World) (ev : storage_event) : Prop :=
  match ev with EvCreate r => fresh_resource w0 r | _ => True end.

Lemma covered_step w0 s ev :
  covered w0 (registry_resources (st_registry s)) (st_world s) → event_fresh w0 ev →
  covered w0 (registry_resources (st_registry (storage_step s ev))) (st_world (storage_step s ev)).
Proof.
  destruct s as [level reg w]. intros Hc Hf. destruct ev as [r|location| |id|id| | |]; simpl in *.
  - eapply covered_create; [done..|]. intros r'. rewrite registry_resources_track, elem_of_cons. tauto.
  - destruct (ensure_object_file_staged reg location) as [[]|] eqn:He; [|done]. simpl.
    destruct (mark_uploaded_spec reg location He) as (_ & a & staging & b & H1 & H2).
    eapply covered_same; [eapply covered_upload, covered_same; [done|]|]; intros r; [by rewrite H1|].
    by rewrite H2.
  - eapply covered_same; [done|]. intros r. by rewrite registry_resources_begin.
  - eapply covered_same; [done|]. intros r. by rewrite registry_resources_promote.
  - pose proof (discard_spec reg id w) as Hd. destruct (discard_metadata_attempt reg id w) as [[res reg'] w'].
    destruct Hd as (gone & Hgone & Hrem). eapply covered_shrink; [done..|]. intros r.
    by rewrite Hgone, elem_of_app.
  - done.
  - destruct (1 <? level); [|done]. simpl. by rewrite registry_resources_release.
  - destruct (1 <? level); [|done]. destruct (rollback_spec reg level w) as (gone & Hgone & Hrem).
    unfold storage_on_abort_sub in *. simpl in *. eapply covered_shrink; [done..|].
    intros r. by rewrite Hgone, elem_of_app.
Qed.

Definition storage_start (w0 : World) : StorageState := mkStorage 1 StorageResourceRegistry_new w0.

Lemma covered_run w0 evs :
  Forall (event_fresh w0) evs →
  covered w0 (registry_resources (st_registry (storage_run (storage_start w0) evs)))
    (st_world (storage_run (storage_start w0) evs)).
Proof.
  unfold storage_run. induction evs as [|ev evs IH] using rev_ind; intros Hf.
  { split; simpl; [intros r Hr; by apply elem_of_nil in Hr|split; auto..]. }
  apply Forall_app in Hf as [Hf [Hev _]%Forall_cons]. rewrite foldl_app. simpl.
  apply covered_step; auto.
Qed.

(** C17. Abort restores storage: whatever files, directories and uploads a
    transaction created, inside or outside metadata attempts, promoted or
    discarded, and through any savepoints, a top-level abort whose deletions
    succeed leaves exactly the files, directories and objects that existed
    before. *)
Theorem storage_abort_restores w0 evs :
  Forall (event_fresh w0) evs →
  let s := storage_run (storage_start w0) evs in
  let w := storage_on_abort (st_registry s) (st_world s) in
  local_files w = local_files w0 ∧ directories w = directories w0 ∧ objects w = objects w0.
Proof.
  intros Hf%covered_run. simpl. set (s := storage_run _ evs) in *.
  unfold storage_on_abort, metadata_drain_top_level. simpl.
  eapply covered_removed; [done|apply abort_all_ok|]. intros r. unfold registry_resources.
  destruct (active_attempt _) as [a|]; rewrite ?elem_of_app, ?elem_of_reverse; simpl;
    pose proof (not_elem_of_nil r); tauto.
Qed.

(** *** Owned files exist *)

(** The names a resource occupies, whatever its state. *)
Inductive storage_name := LocalName (path : string) | DirName (location : string) | ObjectName (location : ObjectLocation).
Definition names (r : StorageResource) : list storage_name :=
  match r with
  | CreatedLocalFile path => [LocalName path]
  | CreatedTableDir location => [DirName location]
  | ObjectFile location staging _ => [ObjectName location; LocalName staging]
  end.
Definition all_names (rs : list StorageResource) : list storage_name := concat (map names rs).
Definition created (evs : list storage_event) : list StorageResource :=
  omap (λ ev, match ev with EvCreate r => Some r | _ => None end) evs.

(** Writers register uploads in the staged state. *)
Definition event_staged (ev : storage_event) : Prop :=
  match ev with EvCreate (ObjectFile _ _ Uploaded) => False | _ => True end.

Definition exists_in (w : World) (n : storage_name) : Prop :=
  match n with
  | LocalName p => p ∈ local_files w
  | DirName p => p ∈ directories w
  | ObjectName o => o ∈ objects w
  end.
(** The names that exist once the resource is registered in this state. *)
Definition live_names (r : StorageResource) : list storage_name :=
  match r with
  | CreatedLocalFile path => [LocalName path]
  | CreatedTableDir location => [DirName location]
  | ObjectFile location staging Staged => [LocalName staging]
  | ObjectFile location staging Uploaded => [ObjectName location; LocalName staging]
  end.

Lemma live_names_spec r n :
  n ∈ live_names r ↔ match n with
    | LocalName p => p ∈ local_paths r | DirName p => p ∈ dir_paths r | ObjectName o => o ∈ remote_paths r
    end.
Proof. destruct r as [| |? ? []], n; simpl; set_solver. Qed.

Lemma live_names_names r n : n ∈ live_names r → n ∈ names r.
Proof. destruct r as [| |? ? []]; simpl; set_solver. Qed.

Lemma elem_of_all_names rs n : n ∈ all_names rs ↔ ∃ r, r ∈ rs ∧ n ∈ names r.
Proof.
  unfold all_names. rewrite list_elem_of_In, in_concat. setoid_rewrite in_map_iff.
  setoid_rewrite list_elem_of_In. naive_solver.
Qed.

(** Deletion spares the names of the others. *)
Lemma removed_keeps gone w w' n :
  removed gone w w' → n ∉ all_names gone → exists_in w n → exists_in w' n.
Proof.
  intros (Hl & Hd & Ho) Hn. rewrite elem_of_all_names in Hn.
  assert (∀ r, r ∈ gone → n ∉ live_names r) as Hlive.
  { intros r Hr Hnr%live_names_names. apply Hn. eauto. }
  setoid_rewrite live_names_spec in Hlive.
  destruct n; simpl in *; [rewrite Hl|rewrite Hd|rewrite Ho]; unfold all_local, all_dirs, all_remote;
    rewrite elem_of_difference, elem_of_union_fmap; naive_solver.
Qed.

(** What a run keeps: the live names of all registered resources exist, and no name is
    registered twice. *)
Definition present (rs : list StorageResource) (w : World) : Prop :=
  ∀ r n, r ∈ rs → n ∈ live_names r → exists_in w n.

Lemma all_names_app rs rs' : all_names (rs ++ rs') = all_names rs ++ all_names rs'.
Proof. unfold all_names. by rewrite map_app, concat_app. Qed.

Lemma NoDup_part {A} (l k : list A) : l ⊆+ k → NoDup k → NoDup l.
Proof. intros [m Hm]%submseteq_Permutation. rewrite Hm. by intros (? & _)%NoDup_app. Qed.

#[local] Instance all_names_proper : Proper ((≡ₚ) ==> (≡ₚ)) all_names.
Proof.
  intros rs rs' H. unfold all_names. induction H; simpl; [done|by f_equiv| |by etrans].
  rewrite !(assoc (++)). f_equiv. apply Permutation_app_comm.
Qed.

Lemma present_shrink rs rs' gone w w' :
  present rs w → rs ≡ₚ rs' ++ gone → NoDup (all_names rs) → removed gone w w' → present rs' w'.
Proof.
  intros Hp Hrs Hnd Hrem r n Hr Hn. rewrite Hrs, all_names_app in Hnd. apply NoDup_app in Hnd as (_ & Hd & _).
  eapply removed_keeps; [done| |].
  - apply Hd, elem_of_all_names. exists r. split; [done|by apply live_names_names].
  - apply (Hp r); [|done]. rewrite Hrs, elem_of_app. by left.
Qed.

(** The names registered so far are names created so far. *)
Definition accounted (s : StorageState) (made : list StorageResource) : Prop :=
  present (registry_resources (st_registry s)) (st_world s) ∧
  all_names (registry_resources (st_registry s)) ⊆+ all_names made.

Lemma accounted_shrink level reg reg' w w' made gone :
  accounted (mkStorage level reg w) made → NoDup (all_names made) →
  registry_resources reg ≡ₚ registry_resources reg' ++ gone → removed gone w w' →
  ∀ level', accounted (mkStorage level' reg' w') made.
Proof.
  intros [Hp Hsub] Hnd Hgone Hrem level'. simpl in *. split.
  - eapply present_shrink; [done..| |done]. by eapply NoDup_part.
  - etrans; [|exact Hsub]. simpl. rewrite Hgone, all_names_app. apply submseteq_inserts_r. done.
Qed.

Lemma accounted_upload level reg w made location :
  ensure_object_file_staged reg location = Ok tt → accounted (mkStorage level reg w) made →
  accounted (mkStorage level (snd (mark_object_file_uploaded reg location))
    (mkWorld (local_files w) (directories w) (objects w ∪ {[location]}) (clock w))) made.
Proof.
  intros He [Hp Hsub]. destruct (mark_uploaded_spec reg location He) as (_ & a & staging & b & H1 & H2).
  simpl in *. split; simpl.
  - intros r n. rewrite H2, elem_of_middle. intros Hr Hn.
    assert (exists_in w n ∨ n = ObjectName location) as [Hx| ->]; [|destruct n; simpl in *; set_solver|set_solver].
    destruct Hr as [Hr|[->|Hr]].
    + left. apply (Hp r); [|done]. rewrite H1, elem_of_middle. auto.
    + simpl in Hn. apply elem_of_cons in Hn as [->|Hn]; [by right|]. left.
      apply (Hp (ObjectFile location staging Staged)); [|done]. rewrite H1, elem_of_middle. auto.
    + left. apply (Hp r); [|done]. rewrite H1, elem_of_middle. auto.
  - etrans; [|exact Hsub]. by rewrite H1, H2, !all_names_app.
Qed.

Lemma accounted_create level reg w made r :
  event_staged (EvCreate r) → accounted (mkStorage level reg w) made →
  accounted (mkStorage level (track reg level r) (create_in_world r w)) (made ++ [r]).
Proof.
  intros Hs [Hp Hsub]. simpl in *. split; simpl.
  - intros r' n. rewrite registry_resources_track, elem_of_cons. intros [->|Hr] Hn.
    + apply live_names_spec in Hn. destruct n; simpl in *; [set_solver..|].
      by destruct r as [| |? ? []]; simpl in *; [set_solver..|].
    + specialize (Hp r' n Hr Hn). destruct n; simpl in *; set_solver.
  - rewrite registry_resources_track, Permutation_cons_append, !all_names_app. by apply submseteq_app.
Qed.

Lemma accounted_step s ev made :
  accounted s made → event_staged ev → NoDup (all_names (made ++ created [ev])) →
  accounted (storage_step s ev) (made ++ created [ev]).
Proof.
  destruct s as [level reg w]. intros Ha Hs Hnd.
  destruct ev as [r|location| |id|id| | |]; simpl in *; rewrite ?app_nil_r in *.
  - by apply accounted_create.
  - destruct (ensure_object_file_staged reg location) as [[]|] eqn:He; [|done].
    by eapply accounted_upload.
  - unfold accounted. simpl. by rewrite registry_resources_begin.
  - destruct Ha as [Hp Hsub]. split; simpl in *; [|by rewrite registry_resources_promote].
    intros r n. rewrite registry_resources_promote. apply Hp.
  - pose proof (discard_spec reg id w) as Hd. destruct (discard_metadata_attempt reg id w) as [[res reg'] w'].
    destruct Hd as (gone & Hgone & Hrem). by eapply accounted_shrink.
  - done.
  - destruct (1 <? level); [|done]. unfold accounted. simpl. by rewrite registry_resources_release.
  - destruct (1 <? level); [|done]. destruct (rollback_spec reg level w) as (gone & Hgone & Hrem).
    unfold storage_on_abort_sub in *. simpl in *. by eapply accounted_shrink.
Qed.

Lemma created_app evs evs' : created (evs ++ evs') = created evs ++ created evs'.
Proof. unfold created. by rewrite omap_app. Qed.

Lemma accounted_run w0 evs :
  Forall event_staged evs → NoDup (all_names (created evs)) →
  accounted (storage_run (storage_start w0) evs) (created evs).
Proof.
  unfold storage_run. induction evs as [|ev evs IH] using rev_ind; intros Hs Hnd.
  { split; [|done]. intros r n Hr. by apply elem_of_nil in Hr. }
  apply Forall_app in Hs as [Hs [Hev _]%Forall_cons]. rewrite foldl_app, created_app in *. simpl.
  apply accounted_step; [|done|done]. apply IH; [done|].
  rewrite all_names_app in Hnd. by apply NoDup_app in Hnd as (? & _).
Qed.

(** The files a commit keeps of a resource. *)
Definition kept_files (r : StorageResource) : gset string :=
  match r with CreatedLocalFile path => {[path]} | _ => ∅ end.

(** A name belongs to one resource. *)
Lemma names_unique rs r1 r2 n :
  NoDup (all_names rs) → r1 ∈ rs → r2 ∈ rs → n ∈ names r1 → n ∈ names r2 → r1 = r2.
Proof.
  induction rs as [|r rs IH]; [by intros _ ?%elem_of_nil|].
  change (all_names (r :: rs)) with (names r ++ all_names rs). intros (_ & Hd & Hnd)%NoDup_app.
  rewrite !elem_of_cons. intros [->|H1] [->|H2] Hn1 Hn2; [done|..|by apply IH].
  - destruct (Hd n Hn1). apply elem_of_all_names. eauto.
  - destruct (Hd n Hn2). apply elem_of_all_names. eauto.
Qed.

(** Membership in a set of names after keeping [kept] and deleting [cleanup]: [paths]
    gives the live names of one sort, and [gone] the kept ones that are deleted. *)
Lemma keep_names {K} `{Countable K} (inj : K → storage_name) (paths gone : StorageResource → gset K)
    (w0s ws : gset K) kept cleanup :
  (∀ r x, x ∈ paths r ↔ inj x ∈ live_names r) → (∀ r, gone r ⊆ paths r) →
  (∀ r, gone r = ∅ ∨ paths r ⊆ gone r) →
  (∀ r, r ∈ kept ++ cleanup → paths r ## w0s) → w0s ⊆ ws →
  (∀ x, x ∈ ws → x ∈ w0s ∨ ∃ r, r ∈ kept ++ cleanup ∧ x ∈ paths r) →
  (∀ r x, r ∈ kept ++ cleanup → x ∈ paths r → x ∈ ws) → NoDup (all_names (kept ++ cleanup)) →
  ws ∖ ⋃ (gone <$> kept) ∖ ⋃ (paths <$> cleanup) = w0s ∪ ⋃ ((λ r, paths r ∖ gone r) <$> kept).
Proof.
  intros Hpaths Hgone Hdich Hfresh Hsub Hcov Hpres Hnd. apply set_eq. intros x.
  rewrite elem_of_union, !elem_of_difference, !elem_of_union_fmap. setoid_rewrite elem_of_difference.
  setoid_rewrite elem_of_app in Hfresh. setoid_rewrite elem_of_app in Hcov.
  setoid_rewrite elem_of_app in Hpres.
  assert (∀ r r', r ∈ kept ∨ r ∈ cleanup → r' ∈ kept ∨ r' ∈ cleanup → x ∈ paths r → x ∈ paths r' → r = r')
    as Huniq.
  { intros r r'. rewrite <- !elem_of_app. intros Hr Hr' Hx%Hpaths%live_names_names
      Hx'%Hpaths%live_names_names. by eapply names_unique. }
  split.
  - intros [[Hx Hst] Hcl]. destruct (Hcov x Hx) as [|(r & [Hr|Hr] & Hxr)]; [by left| |naive_solver].
    right. exists r. naive_solver.
  - intros [Hx|(r & Hr & Hxr & Hng)].
    + split; [split; [by apply Hsub|]|]; intros (r & Hr & Hxr); apply (Hfresh r) with x; auto.
      by apply Hgone.
    + split; [split; [by eapply Hpres; [by left|]|]|]; intros (r' & Hr' & Hxr').
      * rewrite (Huniq r r') in Hng; auto. by apply Hgone.
      * assert (r = r') as <- by auto. rewrite all_names_app in Hnd. apply NoDup_app in Hnd as (_ & Hd & _).
        apply (Hd (inj x)); apply elem_of_all_names; exists r; split; try done;
          by apply live_names_names, Hpaths.
Qed.

Lemma union_fmap_ext {K} `{Countable K} (f g : StorageResource → gset K) l :
  (∀ r, f r = g r) → ⋃ (f <$> l) = ⋃ (g <$> l).
Proof. intros Hfg. apply set_eq. intros x. rewrite !elem_of_union_fmap. by setoid_rewrite Hfg. Qed.

Lemma union_fmap_none {K} `{Countable K} (X : gset K) (l : list StorageResource) :
  X ∖ ⋃ ((λ _, ∅ : gset K) <$> l) = X.
Proof. apply set_eq. intros x. rewrite elem_of_difference, elem_of_union_fmap. set_solver. Qed.

(** Keeping [kept] and deleting the staging files and [cleanup]. *)
Lemma commit_exact w0 kept cleanup w :
  covered w0 (kept ++ cleanup) w → present (kept ++ cleanup) w → NoDup (all_names (kept ++ cleanup)) →
  local_files w ∖ ⋃ (staging_paths <$> kept) ∖ all_local cleanup
    = local_files w0 ∪ ⋃ (kept_files <$> kept) ∧
  directories w ∖ all_dirs cleanup = directories w0 ∪ ⋃ (dir_paths <$> kept) ∧
  objects w ∖ all_remote cleanup = objects w0 ∪ ⋃ (remote_paths <$> kept).
Proof.
  intros [Hf [Hl1 Hl2] [Hd1 Hd2] [Ho1 Ho2]] Hp Hnd. pose proof live_names_spec as Hspec.
  split_and!.
  - unfold all_local. rewrite (keep_names LocalName local_paths staging_paths (local_files w0)); try done.
    + f_equal. apply union_fmap_ext. intros [| |? ? []]; simpl; set_solver.
    + intros [| |? ? []]; set_solver.
    + intros [| |? ? []]; simpl; set_solver.
    + intros r Hr. by destruct (Hf r Hr).
    + intros r x Hr Hx. apply (Hp r (LocalName x)); [done|]. by apply Hspec.
  - rewrite <- (union_fmap_none (directories w) kept). unfold all_dirs.
    rewrite (keep_names DirName dir_paths (λ _, ∅) (directories w0)); try done.
    + f_equal. apply union_fmap_ext. set_solver.
    + intros r. by left.
    + intros r Hr. by destruct (Hf r Hr) as (_ & ? & _).
    + intros r x Hr Hx. apply (Hp r (DirName x)); [done|]. by apply Hspec.
  - rewrite <- (union_fmap_none (objects w) kept). unfold all_remote.
    rewrite (keep_names ObjectName remote_paths (λ _, ∅) (objects w0)); try done.
    + f_equal. apply union_fmap_ext. set_solver.
    + intros r. by left.
    + intros r Hr. destruct (Hf r Hr) as (_ & _ & Hdis). pose proof (remote_object_paths r). set_solver.
    + intros r x Hr Hx. apply (Hp r (ObjectName x)); [done|]. by apply Hspec.
Qed.

(** C30. Commit keeps exactly what the transaction owns: when the created resources
    have names of their own that nothing had before, and uploads are registered in
    the staged state, a top-level commit whose deletions succeed leaves the initial
    files, directories and objects and, of the resources that the transaction or a
    promoted metadata attempt owns, every created local file, every table directory
    and every uploaded object; nothing of a discarded or unresolved attempt or of a
    rolled back savepoint, and no staging file, survives. *)
Theorem storage_commit_keeps w0 evs :
  Forall (event_fresh w0) evs → Forall event_staged evs → NoDup (all_names (created evs)) →
  let s := storage_run (storage_start w0) evs in
  let reg := st_registry s in
  let kept := map resource (entries reg) ++ promoted (metadata reg) in
  let w := storage_on_commit reg (st_world s) in
  local_files w = local_files w0 ∪ ⋃ (kept_files <$> kept) ∧
  directories w = directories w0 ∪ ⋃ (dir_paths <$> kept) ∧
  objects w = objects w0 ∪ ⋃ (remote_paths <$> kept).
Proof.
  intros Hf%covered_run Hs Hnd. destruct (accounted_run w0 evs Hs Hnd) as [Hp Hsub]. simpl.
  set (s := storage_run _ evs) in *. apply (NoDup_part _ _ Hsub) in Hnd. clear Hsub.
  unfold storage_on_commit, metadata_drain_top_level. simpl.
  set (kept := map resource (entries (st_registry s)) ++ promoted (metadata (st_registry s))) in *.
  set (cleanup := match active_attempt (metadata (st_registry s)) with Some _ => _ | None => _ end).
  assert (registry_resources (st_registry s) ≡ₚ kept ++ cleanup) as Hrs.
  { unfold registry_resources, kept, cleanup.
    destruct (active_attempt _) as [a|]; rewrite ?reverse_Permutation, ?app_nil_r, <- ?(assoc (++)); done. }
  destruct (commit_all_ok kept (st_world s)) as (Hl & Hd & Ho).
  destruct (abort_all_ok cleanup (commit_all_resources kept (st_world s))) as [_ (Hl' & Hd' & Ho')].
  rewrite Hl', Ho', Hd', Hl, Ho, Hd. clear Hl' Ho' Hd' Hl Ho Hd. rewrite Hrs in Hnd.
  apply commit_exact; [|intros r n; rewrite <- Hrs; apply Hp|done].
  eapply covered_same; [done|]. intros r. by rewrite Hrs.
Qed.

End Healthy.
End Storage.

(** ** Witnesses *)

Definition no_fault {A} (_ : nat) (_ : A) : bool := false.

(** A local file, an upload and an aborted metadata attempt inside a savepoint. *)
Definition storage_example : list (storage_event (ObjectLocation := string)) :=
  [EvCreate (CreatedLocalFile "data/a.parquet"); EvSavepoint;
   EvCreate (ObjectFile "s3://b/x" "staging/x" Staged); EvUpload "s3://b/x"; EvRelease;
   EvBeginAttempt; EvCreate (CreatedLocalFile "metadata/1.json"); EvDiscardAttempt 1;
   EvBeginAttempt; EvCreate (CreatedLocalFile "metadata/2.json"); EvPromoteAttempt 2].

Definition storage_world : World (ObjectLocation := string) :=
  mkWorld {["old.parquet"]} {["table"]} {["s3://b/old"]} 0.

Lemma storage_example_fresh : Forall (event_fresh storage_world) storage_example.
Proof.
  repeat (constructor; [first [exact I|split_and!; simpl; set_solver]|]). constructor.
Qed.

Lemma storage_abort_restores_witness :
  let s := storage_run id (L := unit) no_fault no_fault no_fault (storage_start storage_world)
             storage_example in
  local_files (storage_on_abort no_fault no_fault no_fault (st_registry s) (st_world s))
    = {["old.parquet"]}.
Proof.
  apply (storage_abort_restores (L := unit) id no_fault no_fault no_fault); try done.
  apply storage_example_fresh.
Defined.

Lemma storage_commit_keeps_witness :
  let s := storage_run id (L := unit) no_fault no_fault no_fault (storage_start storage_world)
             storage_example in
  let w := storage_on_commit no_fault no_fault no_fault (st_registry s) (st_world s) in
  local_files w = {["old.parquet"; "data/a.parquet"; "metadata/2.json"]} ∧
  objects w = {["s3://b/old"; "s3://b/x"]}.
Proof.
  destruct (storage_commit_keeps (L := unit) id no_fault no_fault no_fault ltac:(done) ltac:(done)
    ltac:(done) storage_world storage_example) as (Hl & _ & Ho).
  - apply storage_example_fresh.
  - by repeat constructor.
  - simpl. repeat (constructor; [set_solver|]). constructor.
  - cbv zeta. rewrite Hl, Ho. by vm_compute.
Defined.
