(* ===== verification/Catalog.v ===== *)
(** * The metadata catalog

    Model of lagodb-iceberg/src/managed_table/catalog/metadata_table.rs and
    metadata_table/rebuild.rs: the rows of [iceberg.iceberg_metadata], the
    compare-and-swap that publishes a new metadata location, and the maintenance
    deadline that travels with it.

    PostgreSQL's heap is external.  [HeapCatalog] states what the code relies on:
    a scan returns the current version of a row, and an optimistic update
    succeeds only if that version is still current.  Other backends may act
    between the scan and the update; [gap] is what they do. *)
From stdpp Require Import base gmap list strings.
From Stdlib Require Import ZArith Lia.
From S2P Require Import Prelude Errors.

Local Open Scope Z_scope.

Record IcebergMetadata := mkRow {
  relid : Z;
  metadata_location : option string;
  previous_metadata_location : option string;
  maintenance_due_at : option Z;
}.

Definition IcebergMetadata_new (relid : Z) : IcebergMetadata := mkRow relid None None None.

Definition with_metadata_location (row : IcebergMetadata) (location : string) : IcebergMetadata :=
  mkRow (relid row) (Some location) (previous_metadata_location row) (maintenance_due_at row).

Inductive MaintenanceScheduleUpdate :=
| Preserve
| ScheduleNoLaterThan (due_at : Z)
| CompleteIfDueMatches (due_at : option Z).

Record MaintenanceCompletionToken := mkToken {
  token_location : string;
  token_due_at : option Z;
}.

Record MaintenanceCandidate := mkCandidate {
  candidate_relid : Z;
  candidate_location : option string;
  candidate_due_at : Z;
}.

Definition MaintenanceCandidate_matches (c : MaintenanceCandidate) (token : MaintenanceCompletionToken)
    : bool :=
  bool_decide (candidate_location c = Some (token_location token)) &&
  bool_decide (Some (candidate_due_at c) = token_due_at token).

Record CasUpdate := mkCas {
  cas_location : option string;
  cas_previous_location : option string;
  cas_schedule : MaintenanceScheduleUpdate;
}.

Inductive CatalogUpdateResult := Success | UpdateConflict.

(** What the catalog code relies on about PostgreSQL's heap and indexes. *)
Class HeapCatalog := {
  CatalogState : Type;
  HeapTuple : Type;
  tuple_row : HeapTuple → IcebergMetadata;
  (** The current version of a row, and the scan (open, begin, next) that looks
      for it. *)
  cat_current : CatalogState → Z → option HeapTuple;
  cat_scan : CatalogState → Z → result ForeignError (option HeapTuple);
  cat_update : CatalogState → HeapTuple → IcebergMetadata
    → result ForeignError CatalogUpdateResult * CatalogState;
  cat_insert : CatalogState → IcebergMetadata → result ForeignError unit * CatalogState;
  cat_delete : CatalogState → HeapTuple → result ForeignError unit * CatalogState;
}.

(** An update replaces the current version or nothing. *)
Class HeapCatalogLaws (HC : HeapCatalog) : Prop := {
  scan_current : ∀ cat r o, cat_scan cat r = Ok o → o = cat_current cat r;
  current_relid : ∀ cat r t, cat_current cat r = Some t → relid (tuple_row t) = r;
  update_success : ∀ cat t row cat',
    relid row = relid (tuple_row t) → cat_update cat t row = (Ok Success, cat') →
    cat_current cat (relid row) = Some t ∧
    (∃ t', cat_current cat' (relid row) = Some t' ∧ tuple_row t' = row) ∧
    ∀ r, r ≠ relid row → cat_current cat' r = cat_current cat r;
  update_failure : ∀ cat t row o cat',
    cat_update cat t row = (o, cat') → o ≠ Ok Success → cat' = cat;
  update_conflict : ∀ cat t row cat',
    cat_update cat t row = (Ok UpdateConflict, cat') → cat_current cat (relid (tuple_row t)) ≠ Some t;
}.

Section Catalog.
Context {L : Type} `{HC : HeapCatalog}.

Local Abbreviation IResult := (IcebergResult L).

Definition catalog_error {A} (op : MetadataCatalogOperation) (e : ForeignError) : IResult A :=
  Err (MetadataCatalog (Operation op e)).

(** [find_with_snapshot] and [get]. *)
Definition find (cat : CatalogState) (r : Z) : IResult (option IcebergMetadata) :=
  match cat_scan cat r with
  | Err e => catalog_error Read e
  | Ok o => Ok (tuple_row <$> o)
  end.

Definition get (cat : CatalogState) (r : Z) : IResult IcebergMetadata :=
  row ← find cat r; ok_or row (MetadataCatalog (NotFound r)).

Definition insert_row (cat : CatalogState) (row : IcebergMetadata) : IResult unit * CatalogState :=
  let '(o, cat) := cat_insert cat row in
  (match o with Ok _ => Ok tt | Err e => catalog_error Insert e end, cat).

Definition delete_if_exists (cat : CatalogState) (r : Z) : IResult unit * CatalogState :=
  match cat_scan cat r with
  | Err e => (catalog_error Delete e, cat)
  | Ok None => (Ok tt, cat)
  | Ok (Some t) =>
      let '(o, cat) := cat_delete cat t in
      (match o with Ok _ => Ok tt | Err e => catalog_error Delete e end, cat)
  end.

(** The schedule arm of [cas_update]: the new deadline and whether it advanced. *)
Definition cas_due (current_due : option Z) (schedule : MaintenanceScheduleUpdate) : option Z * bool :=
  match schedule with
  | Preserve => (current_due, false)
  | ScheduleNoLaterThan proposed =>
      if match current_due with None => true | Some current => proposed <? current end
      then (Some proposed, true) else (current_due, false)
  | CompleteIfDueMatches expected_due =>
      if bool_decide (current_due = expected_due) && bool_decide (is_Some current_due)
      then (None, false) else (current_due, false)
  end.

Definition cas_update (r : Z) (expected_previous_location : option string) (new : CasUpdate)
    (gap : CatalogState → CatalogState) (cat : CatalogState) : IResult bool * CatalogState :=
  match cat_scan cat r with
  | Err e => (catalog_error Update e, gap cat)
  | Ok None => (Err (MetadataCatalog (NotFound r)), gap cat)
  | Ok (Some old_tuple) =>
      let old := tuple_row old_tuple in
      if negb (bool_decide (metadata_location old = expected_previous_location))
      then (Err (MetadataCatalog Conflict), gap cat)
      else
        let '(due, maintenance_deadline_advanced) :=
          cas_due (maintenance_due_at old) (cas_schedule new) in
        let row := mkRow (relid old) (cas_location new) (cas_previous_location new) due in
        let '(o, cat) := cat_update (gap cat) old_tuple row in
        (match o with
         | Ok Success => Ok maintenance_deadline_advanced
         | Ok UpdateConflict => Err (MetadataCatalog Conflict)
         | Err e => catalog_error Update e
         end, cat)
  end.

Definition finish_maintenance (r : Z) (expected_location : string)
    (schedule : MaintenanceScheduleUpdate) (gap : CatalogState → CatalogState) (cat : CatalogState)
    : IResult unit * CatalogState :=
  match cat_scan cat r with
  | Err e => (catalog_error Update e, gap cat)
  | Ok None => (Err (MetadataCatalog (NotFound r)), gap cat)
  | Ok (Some old_tuple) =>
      let old := tuple_row old_tuple in
      if negb (bool_decide (metadata_location old = Some expected_location))
      then (Err (MetadataCatalog Conflict), gap cat)
      else
        let write due :=
          let row := mkRow (relid old) (metadata_location old) (previous_metadata_location old) due in
          let '(o, cat) := cat_update (gap cat) old_tuple row in
          (match o with
           | Ok Success => Ok tt
           | Ok UpdateConflict => Err (MetadataCatalog Conflict)
           | Err e => catalog_error Update e
           end, cat) in
        match schedule with
        | CompleteIfDueMatches expected_due =>
            write (if bool_decide (maintenance_due_at old = expected_due) then None
                   else maintenance_due_at old)
        | Preserve => write (maintenance_due_at old)
        | ScheduleNoLaterThan _ =>
            (Err (InvariantViolated "maintenance completion cannot schedule new maintenance work"),
             gap cat)
        end
  end.

Definition defer_maintenance (candidate : MaintenanceCandidate) (retry_at : Z)
    (gap : CatalogState → CatalogState) (cat : CatalogState) : IResult bool * CatalogState :=
  match cat_scan cat (candidate_relid candidate) with
  | Err e => (catalog_error Update e, gap cat)
  | Ok None => (Ok false, gap cat)
  | Ok (Some old_tuple) =>
      let old := tuple_row old_tuple in
      if negb (bool_decide (metadata_location old = candidate_location candidate)) ||
         negb (bool_decide (maintenance_due_at old = Some (candidate_due_at candidate)))
      then (Ok false, gap cat)
      else
        let row := mkRow (relid old) (metadata_location old) (previous_metadata_location old)
                     (Some retry_at) in
        let '(o, cat) := cat_update (gap cat) old_tuple row in
        (match o with
         | Ok Success => Ok true
         | Ok UpdateConflict => Ok false
         | Err e => catalog_error Update e
         end, cat)
  end.

(** The retry loop of [publish_rebuilt_table]: [attempts] is [max_retries + 1] and
    [gaps] gives the interference of each attempt. *)
Fixpoint publish_rebuilt_loop (r max_retries : Z) (location : string)
    (gaps : nat → CatalogState → CatalogState) (attempts : nat) (cat : CatalogState)
    : IResult unit * CatalogState :=
  match attempts with
  | O => (Err (MetadataCommitConflict r max_retries), cat)
  | S attempts =>
      match cat_scan cat r with
      | Err e => (catalog_error Update e, gaps attempts cat)
      | Ok None => (Err (MetadataCatalog (NotFound r)), gaps attempts cat)
      | Ok (Some t) =>
          let row := mkRow (relid (tuple_row t)) (Some location) None None in
          let '(o, cat) := cat_update (gaps attempts cat) t row in
          match o with
          | Ok Success => (Ok tt, cat)
          | Ok UpdateConflict => publish_rebuilt_loop r max_retries location gaps attempts cat
          | Err e => (catalog_error Update e, cat)
          end
      end
  end.

Definition publish_rebuilt_table (r max_retries : Z) (location : option string)
    (gaps : nat → CatalogState → CatalogState) (cat : CatalogState) : IResult unit * CatalogState :=
  match location with
  | None => (Err MetadataLocationNull, cat)
  | Some location => publish_rebuilt_loop r max_retries location gaps (Z.to_nat (max_retries + 1)) cat
  end.

(** ** Atomicity of the compare-and-swap *)
Section Laws.
Context `{HL : !HeapCatalogLaws HC}.

Definition current_row (cat : CatalogState) (r : Z) : option IcebergMetadata :=
  tuple_row <$> cat_current cat r.

(** A successful optimistic update of a scanned tuple acted on the row that the
    other backends had left in place. *)
Lemma update_row cat gap r t row cat' :
  cat_scan cat r = Ok (Some t) → relid row = r → cat_update (gap cat) t row = (Ok Success, cat') →
  current_row (gap cat) r = Some (tuple_row t) ∧ current_row cat' r = Some row ∧
  ∀ r', r' ≠ r → current_row cat' r' = current_row (gap cat) r'.
Proof.
  intros Hs Hr Hu. apply scan_current in Hs. symmetry in Hs.
  pose proof (current_relid _ _ _ Hs) as Ht.
  apply update_success in Hu as (H1 & (t' & H2 & H3) & H4); [|congruence].
  rewrite Hr in *. unfold current_row. rewrite H1, H2. simpl. split_and!; [done|congruence|].
  intros r' Hr'. by rewrite H4.
Qed.

Lemma update_failed cat t row o cat' :
  cat_update cat t row = (o, cat') → o ≠ Ok Success → cat' = cat.
Proof. apply update_failure. Qed.

(** A swap that reports an error has not written. *)
Lemma cas_update_err r expected new gap cat e cat' :
  cas_update r expected new gap cat = (Err e, cat') → cat' = gap cat.
Proof.
  unfold cas_update. destruct (cat_scan cat r) as [[t|]|e'] eqn:Hs; [|by intros [= _ <-]..].
  case_bool_decide as Hloc; simpl; [|by intros [= _ <-]].
  destruct (cas_due _ _) as [due advanced] eqn:Hd. destruct (cat_update (gap cat) t _) as [o c] eqn:Hu.
  destruct o as [[]|e']; intros [= _ <-]; by apply update_failed in Hu.
Qed.

(** A swap that reports success replaced a row with the expected location. *)
Lemma cas_update_ok r expected new gap cat advanced cat' :
  cas_update r expected new gap cat = (Ok advanced, cat') →
  ∃ old, current_row (gap cat) r = Some old ∧ metadata_location old = expected ∧
    current_row cat' r =
      Some (mkRow r (cas_location new) (cas_previous_location new)
              (fst (cas_due (maintenance_due_at old) (cas_schedule new)))) ∧
    advanced = snd (cas_due (maintenance_due_at old) (cas_schedule new)) ∧
    ∀ r', r' ≠ r → current_row cat' r' = current_row (gap cat) r'.
Proof.
  unfold cas_update. destruct (cat_scan cat r) as [[t|]|e'] eqn:Hs; [|done..].
  case_bool_decide as Hloc; simpl; [|done].
  destruct (cas_due _ _) as [due adv] eqn:Hd.
  pose proof (current_relid _ _ _ (eq_sym (scan_current _ _ _ Hs))) as Hrel.
  destruct (cat_update (gap cat) t _) as [o c] eqn:Hu.
  destruct o as [[]|e']; try done. intros [= <- <-].
  apply (update_row cat gap r t) in Hu as (H1 & H2 & H3); [|done|done].
  exists (tuple_row t). rewrite Hd, H2, Hrel. done.
Qed.

Lemma finish_maintenance_err r expected schedule gap cat e cat' :
  finish_maintenance r expected schedule gap cat = (Err e, cat') → cat' = gap cat.
Proof.
  unfold finish_maintenance. destruct (cat_scan cat r) as [[t|]|e'] eqn:Hs; [|by intros [= _ <-]..].
  case_bool_decide as Hloc; simpl; [|by intros [= _ <-]].
  destruct schedule; [|by intros [= _ <-]|]; destruct (cat_update (gap cat) t _) as [[[]|e'] c] eqn:Hu;
    intros [= _ <-]; by apply update_failed in Hu.
Qed.

(** C19. The catalog compare-and-swap is atomic under interference: whatever other
    backends do between the scan and the write, [cas_update] either publishes, in
    which case the row it replaced still had the expected location at that very
    moment and only the location, the previous location and the deadline of that
    row change, as specified, or leaves the catalog exactly as the others left
    it. *)
Theorem cas_update_atomic r expected new gap cat :
  let '(o, cat') := cas_update r expected new gap cat in
  match o with
  | Ok advanced =>
      ∃ old, current_row (gap cat) r = Some old ∧ metadata_location old = expected ∧
        current_row cat' r =
          Some (mkRow r (cas_location new) (cas_previous_location new)
                  (fst (cas_due (maintenance_due_at old) (cas_schedule new)))) ∧
        advanced = snd (cas_due (maintenance_due_at old) (cas_schedule new)) ∧
        ∀ r', r' ≠ r → current_row cat' r' = current_row (gap cat) r'
  | Err _ => cat' = gap cat
  end.
Proof.
  destruct (cas_update r expected new gap cat) as [[advanced|e] cat'] eqn:Hc;
    [by apply cas_update_ok in Hc|by apply cas_update_err in Hc].
Qed.

(** Maintenance deadlines are not lost: publishing with a proposed deadline
    never leaves a later one than was due or proposed, and completing work clears
    only the deadline it was planned for; any other deadline is preserved. *)
Theorem cas_due_sound current schedule :
  match schedule, cas_due current schedule with
  | Preserve, (due, advanced) => due = current ∧ advanced = false
  | ScheduleNoLaterThan p, (due, advanced) =>
      ∃ d, due = Some d ∧ d ≤ p ∧ (∀ c, current = Some c → d = Z.min c p) ∧
           (advanced = true ↔ due ≠ current)
  | CompleteIfDueMatches expected, (due, advanced) =>
      advanced = false ∧ (due = current ∨ due = None ∧ current = expected)
  end.
Proof.
  destruct schedule as [|p|expected]; simpl; [done|..].
  - destruct current as [c|]; simpl.
    + destruct (Z.ltb_spec p c); eexists; (split; [done|]); split_and!; try lia;
        try (intros ? [= <-]; lia).
      * split; [|done]. intros _ [= ->]. lia.
      * by split.
    + eexists. by split_and!.
  - case_bool_decide; simpl; [|by auto]. case_bool_decide; simpl; auto.
Qed.

(** Finishing a VACUUM that changed no metadata never moves the table: on every
    outcome the location and previous location of every row are what the other
    backends left. *)
Theorem finish_maintenance_keeps_location r expected schedule gap cat :
  let '(o, cat') := finish_maintenance r expected schedule gap cat in
  (o = Ok tt → ∃ old, current_row (gap cat) r = Some old ∧ metadata_location old = Some expected) ∧
  ∀ r', (λ row, (metadata_location row, previous_metadata_location row)) <$> current_row cat' r' =
        (λ row, (metadata_location row, previous_metadata_location row)) <$> current_row (gap cat) r'.
Proof.
  unfold finish_maintenance. destruct (cat_scan cat r) as [[t|]|e] eqn:Hs; [|done|done].
  case_bool_decide as Hloc; simpl; [|done].
  pose proof (current_relid _ _ _ (eq_sym (scan_current _ _ _ Hs))) as Hrel.
  assert (∀ due, let '(o, cat') :=
      (let '(o, cat) := cat_update (gap cat) t (mkRow (relid (tuple_row t))
         (metadata_location (tuple_row t)) (previous_metadata_location (tuple_row t)) due) in
       (match o with Ok Success => Ok tt | Ok UpdateConflict => Err (MetadataCatalog Conflict)
        | Err e => catalog_error Update e end, cat)) in
    (o = Ok tt → ∃ old, current_row (gap cat) r = Some old ∧ metadata_location old = Some expected) ∧
    ∀ r', (λ row, (metadata_location row, previous_metadata_location row)) <$> current_row cat' r' =
      (λ row, (metadata_location row, previous_metadata_location row)) <$> current_row (gap cat) r')
    as Hw.
  { intros due. destruct (cat_update (gap cat) t _) as [o cat'] eqn:Hu.
    destruct o as [[]|e]; [|by apply update_failed in Hu as ->..].
    apply (update_row cat gap r t) in Hu as (H1 & H2 & H3); [|done|done].
    split; [by eauto|]. intros r'. destruct (decide (r' = r)) as [->|]; [|by rewrite H3].
    by rewrite H1, H2. }
  destruct schedule; [apply Hw|done|apply Hw].
Qed.

End Laws.
End Catalog.

(** ** A reference heap *)

#[export] Instance IcebergMetadata_eq_dec : EqDecision IcebergMetadata.
Proof. solve_decision. Defined.

(** Rows with a version counter. *)
Definition ref_current (cat : gmap Z (IcebergMetadata * nat)) (r : Z) : option (IcebergMetadata * nat) :=
  match cat !! r with
  | Some t => if relid (fst t) =? r then Some t else None
  | None => None
  end.

Definition ref_update (cat : gmap Z (IcebergMetadata * nat)) (t : IcebergMetadata * nat)
    (row : IcebergMetadata) : result ForeignError CatalogUpdateResult * gmap Z (IcebergMetadata * nat) :=
  if decide (ref_current cat (relid (fst t)) = Some t)
  then (Ok Success, <[relid row := (row, S (snd t))]> cat) else (Ok UpdateConflict, cat).

#[export] Instance ref_heap : HeapCatalog := {|
  CatalogState := gmap Z (IcebergMetadata * nat);
  HeapTuple := IcebergMetadata * nat;
  tuple_row := fst;
  cat_current := ref_current;
  cat_scan cat r := Ok (ref_current cat r);
  cat_update := ref_update;
  cat_insert cat row :=
    match cat !! relid row with
    | None => (Ok tt, <[relid row := (row, 0%nat)]> cat)
    | Some _ => (Err "duplicate key"%string, cat)
    end;
  cat_delete cat t := (Ok tt, delete (relid (fst t)) cat);
|}.

#[export] Instance ref_heap_laws : HeapCatalogLaws ref_heap.
Proof.
  split; simpl; unfold ref_update.
  - by intros cat r o [= <-].
  - intros cat r t. unfold ref_current. destruct (cat !! r) as [t'|]; [|done].
    destruct (Z.eqb_spec (relid (fst t')) r) as [Hr|]; [|done]. by intros [= ->].
  - intros cat t row cat' Hr. case_decide as Hc; [|done]. intros [= <-]. rewrite Hr.
    split_and!; [done|..].
    + eexists. unfold ref_current. rewrite lookup_insert_eq. simpl. rewrite Hr, Z.eqb_refl. done.
    + intros r Hne. unfold ref_current. by rewrite lookup_insert_ne.
  - intros cat t row o cat'. case_decide; [by intros [= <- <-]|by intros [= <- <-]].
  - intros cat t row cat'. case_decide as Hc; [done|]. by intros [= <-].
Qed.

(** ** Witnesses *)

Definition example_catalog : gmap Z (IcebergMetadata * nat) :=
  {[ 7 := (mkRow 7 (Some "v1.json") None (Some 100), 0%nat) ]}.

(** Another backend publishes first, so the swap fails and its row stays. *)
Lemma cas_update_atomic_witness :
  let gap := λ cat : gmap Z (IcebergMetadata * nat),
    <[7 := (mkRow 7 (Some "v2.json") (Some "v1.json") None, 1%nat)]> cat in
  snd (cas_update (L := unit) (HC := ref_heap) 7 (Some "v1.json")
         (mkCas (Some "v3.json") (Some "v1.json") Preserve) gap example_catalog)
    = gap example_catalog.
Proof.
  intros gap. pose proof (cas_update_atomic (L := unit) (HC := ref_heap) 7 (Some "v1.json")
    (mkCas (Some "v3.json") (Some "v1.json") Preserve) gap example_catalog) as H.
  vm_compute in H |- *. exact H.
Defined.

