(* ===== verification/CommitLoop.v ===== *)
(** * Optimistic publication of a table commit

    Model of lagodb-iceberg/src/managed_table/catalog/metadata_tracker/commit.rs:
    [TableCommitCoordinator::commit], the retry loop that rebases a transaction's
    plan on the latest published metadata and swaps the catalog row, and
    [TxMetadata::commit_all].

    Every attempt reads the catalog, materializes new metadata inside a metadata
    attempt of the storage registry, and publishes with [cas_update].  Other
    backends act before the read ([before]), while metadata is materialized
    ([during]) and inside the swap ([gap]); all three are arbitrary functions of
    the relation and the attempt number.  Table and metadata I/O of the external
    library and the actions and the report of a VACUUM attempt
    (maintenance/commit_attempt.rs) are operations of [TableIO] and [VacuumOps] that
    may fail and may answer differently in each attempt.  Deletions are registered in
    the [Registrations] of [VacuumCleanup]. *)
From stdpp Require Import base gmap list strings sorting.
From Stdlib Require Import ZArith Lia.
From S2P Require Import Prelude Errors Bytes PostCommitDelete VacuumCleanup Transaction.
From S2P Require Import IcebergLite ActionLog CommitPlan TableState.
From S2P Require Import ManagedState StorageResources Catalog.

Local Open Scope Z_scope.
Open Scope lago_scope.

(** [iceberg_lite::table::Table] and the metadata I/O of one attempt. *)
Class TableIO (IL : IcebergLite) (FileIO : Type) := {
  Table : Type;
  read_metadata : nat → FileIO → string → IcebergResult LiteError TableMetadata;
  build_table : Z → FileIO → string → TableMetadata → IcebergResult LiteError Table;
  table_metadata : Table → TableMetadata;
  table_location : Table → option string;
  new_transaction : Table → Transaction;
  commit_transaction : nat → Table → Transaction → IcebergResult LiteError Table;
}.

(** [VacuumCommitAttempt] of an exclusive action: the actions it applies, the result
    it computes, and the milliseconds since the commit started. *)
Class VacuumOps (IL : IcebergLite) (FileIO : Type) (TI : TableIO IL FileIO) (E : Type) := {
  completion_token : E → MaintenanceCompletionToken;
  vacuum_apply_actions : E → Table → string → nat → Transaction → IcebergResult LiteError Transaction;
  vacuum_finish : E → Table → string → nat → Table → IcebergResult LiteError VacuumAttemptResult;
  vacuum_elapsed_ms : E → nat → Z;
}.

Section Commit.
Context `{IL : IcebergLite} {E FileIO : Type} `{EA : !ExclusiveTransactionAction LiteError E}.
Context `{TI : !TableIO IL FileIO} `{VO : !VacuumOps IL FileIO TI E} `{HC : HeapCatalog}.
Context `{CQ : ObjectCleanupQueue}.
Context {ObjectLocation : Type} `{EqL : !EqDecision ObjectLocation, CL : !Countable ObjectLocation}.

Local Abbreviation IResult := (IcebergResult LiteError).
Local Abbreviation Plan := (TxTableCommitPlan (E := E) (G := string)).
Local Abbreviation Resource := (StorageResource (ObjectLocation := ObjectLocation)).
Local Abbreviation Registry := (StorageResourceRegistry (ObjectLocation := ObjectLocation)).
Local Abbreviation StWorld := (World (ObjectLocation := ObjectLocation)).
Local Abbreviation Deletions := (Registrations (FileIO := FileIO)).

(** Faults of deletions (StorageResources). *)
Context (unlink_fault : nat → string → bool) (remove_dir_fault : nat → string → bool)
  (delete_fault : nat → ObjectLocation → bool).

(** The other backends, and the files that an attempt creates. *)
Context (before during gap : Z → nat → CatalogState → CatalogState).
Context (created_files : Z → nat → list Resource).

(** The storage behind a [FileIO] and the iteration order of a set (VacuumCleanup). *)
Context (storage_of : FileIO → IoStorage (L := LiteError)) (set_iter : gset string → list string).

(** What a commit changes besides the catalog. *)
Record CommitState := mkCommitState {
  catalog : CatalogState;
  registry : Registry;
  world : StWorld;
  registrations : Deletions;
}.

Definition with_catalog (st : CommitState) (cat : CatalogState) : CommitState :=
  mkCommitState cat (registry st) (world st) (registrations st).
Definition with_registrations (st : CommitState) (d : Deletions) : CommitState :=
  mkCommitState (catalog st) (registry st) (world st) d.

Definition register_canceled (st : CommitState) (io : FileIO) (paths : list string) : CommitState :=
  with_registrations st (register_canceled_files_for_commit storage_of io paths (registrations st)).

Definition register_cleanup_of (st : CommitState) (res : VacuumAttemptResult) (r : Z) (io : FileIO)
    : IResult VacuumAttemptResult * CommitState :=
  let '(o, d) := register_cleanup storage_of set_iter res r io (registrations st) in
  (o, with_registrations st d).

(** [MetadataMaterializationAttempt::discard], also its [Drop]. *)
Definition discard_attempt (st : CommitState) (id : Z) : IResult unit * CommitState :=
  let '(r, reg, w) :=
    discard_metadata_attempt unlink_fault remove_dir_fault delete_fault (L := LiteError)
      (registry st) id (world st) in
  (r, mkCommitState (catalog st) reg w (registrations st)).

Definition promote_attempt_of (st : CommitState) (id : Z) : IResult unit * CommitState :=
  let '(r, reg) := promote_metadata_attempt (L := LiteError) (registry st) id in
  (r, mkCommitState (catalog st) reg (world st) (registrations st)).

(** Files appear in the world and are tracked by the active attempt. *)
Definition create_files (st : CommitState) (rs : list Resource) : CommitState :=
  mkCommitState (catalog st)
    (foldl (λ reg r, track reg TOP_LEVEL_NEST_LEVEL r) (registry st) rs)
    (foldl (λ w r, create_in_world r w) (world st) rs) (registrations st).

(** Everything between [Transaction::new] and the new metadata location. *)
Definition materialize (plan : Plan) (n : nat) (base_table : Table) (latest : string)
    : IResult (string * option VacuumAttemptResult) :=
  let tx := new_transaction base_table in
  tx ← match exclusive_action plan with
       | Some vacuum => vacuum_apply_actions vacuum base_table latest n tx
       | None => Ok tx
       end;
  tx ← apply_to_transaction plan tx (table_metadata base_table);
  updated_table ← commit_transaction n base_table tx;
  new_metadata_location ← ok_or (table_location updated_table) MetadataLocationNull;
  match exclusive_action plan with
  | Some vacuum =>
      result ← vacuum_finish vacuum base_table latest n updated_table;
      Ok (new_metadata_location, Some result)
  | None => Ok (new_metadata_location, None)
  end.

(** The deadline that accompanies the publication. *)
Definition attempt_schedule (plan : Plan) (write_schedule : MaintenanceScheduleUpdate)
    (latest : string) : MaintenanceScheduleUpdate :=
  match exclusive_action plan with
  | Some vacuum =>
      if bool_decide (token_location (completion_token vacuum) = latest)
      then CompleteIfDueMatches (token_due_at (completion_token vacuum)) else Preserve
  | None => write_schedule
  end.

Definition report_vacuum (plan : Plan) (n : nat) (result : option VacuumAttemptResult) : IResult unit :=
  match exclusive_action plan, result with
  | Some vacuum, Some result =>
      _ ← report_success (L := LiteError) result (vacuum_elapsed_ms vacuum n); Ok tt
  | _, _ => Ok tt
  end.

Inductive attempt_outcome := Done (r : IResult bool) | Retry.

(** The end of a successful attempt: the report, then the canceled files. *)
Definition report_and_register (plan : Plan) (io : FileIO) (n : nat)
    (result : option VacuumAttemptResult) (advanced : bool) (st : CommitState)
    : attempt_outcome * CommitState :=
  match report_vacuum plan n result with
  | Err err => (Done (Err err), st)
  | Ok _ => (Done (Ok advanced), register_canceled st io (canceled_created_paths plan))
  end.

(** The branch in which the metadata did not change. *)
Definition finish_unchanged (plan : Plan) (r : Z) (io : FileIO) (n : nat) (id : Z) (latest : string)
    (schedule : MaintenanceScheduleUpdate) (result : option VacuumAttemptResult) (st : CommitState)
    : attempt_outcome * CommitState :=
  let '(d, st) := discard_attempt st id in
  match d with
  | Err err => (Done (Err err), snd (discard_attempt st id))
  | Ok _ =>
      match exclusive_action plan with
      | None => report_and_register plan io n result false st
      | Some _ =>
          let '(f, cat) := finish_maintenance (L := LiteError) r latest schedule (gap r n) (catalog st) in
          let st := with_catalog st cat in
          match f with
          | Ok _ =>
              match result with
              | Some res =>
                  if has_cleanup res
                  then
                    let '(c, st) := register_cleanup_of st res r io in
                    match c with
                    | Err err => (Done (Err err), st)
                    | Ok res => report_and_register plan io n (Some res) false st
                    end
                  else report_and_register plan io n result false st
              | None => report_and_register plan io n result false st
              end
          | Err (MetadataCatalog Conflict) => (Retry, st)
          | Err err => (Done (Err err), st)
          end
      end
  end.

(** The branch that publishes new metadata. *)
Definition publish (plan : Plan) (r : Z) (io : FileIO) (n : nat) (id : Z) (latest new_location : string)
    (schedule : MaintenanceScheduleUpdate) (result : option VacuumAttemptResult) (st : CommitState)
    : attempt_outcome * CommitState :=
  let '(c, cat) :=
    cas_update (L := LiteError) r (Some latest)
      (mkCas (Some new_location) (Some latest) schedule) (gap r n) (catalog st) in
  let st := with_catalog st cat in
  match c with
  | Ok maintenance_deadline_advanced =>
      let '(p, st) := promote_attempt_of st id in
      match p with
      | Err err => (Done (Err err), snd (discard_attempt st id))
      | Ok _ =>
          match result with
          | None => report_and_register plan io n None maintenance_deadline_advanced st
          | Some res =>
              let '(c, st) := register_cleanup_of st res r io in
              match c with
              | Err err => (Done (Err err), st)
              | Ok res => report_and_register plan io n (Some res) maintenance_deadline_advanced st
              end
          end
      end
  | Err (MetadataCatalog Conflict) =>
      let '(d, st) := discard_attempt st id in
      match d with
      | Err err => (Done (Err err), snd (discard_attempt st id))
      | Ok _ => (Retry, st)
      end
  | Err err => (Done (Err err), snd (discard_attempt st id))
  end.

(** The part of an attempt that runs while its metadata attempt is open. *)
Definition attempt_body (plan : Plan) (r : Z) (io : FileIO) (n : nat) (id : Z) (latest : string)
    (schedule : MaintenanceScheduleUpdate) (base_table : Table) (st : CommitState)
    : attempt_outcome * CommitState :=
  match materialize plan n base_table latest with
  | Err err => (Done (Err err), snd (discard_attempt st id))
  | Ok (new_location, result) =>
      if bool_decide (new_location = latest)
      then finish_unchanged plan r io n id latest schedule result st
      else publish plan r io n id latest new_location schedule result st
  end.

(** One iteration of the loop. *)
Definition commit_attempt (plan : Plan) (r : Z) (io : FileIO)
    (write_schedule : MaintenanceScheduleUpdate) (n : nat) (st : CommitState)
    : attempt_outcome * CommitState :=
  let st := with_catalog st (before r n (catalog st)) in
  match (row ← get (L := LiteError) (catalog st) r; ok_or (metadata_location row) MetadataLocationNull)
  with
  | Err err => (Done (Err err), st)
  | Ok latest =>
      let schedule := attempt_schedule plan write_schedule latest in
      if match truncate_guard plan with
         | Some expected => negb (bool_decide (expected = latest))
         | None => false
         end
      then (Done (Err (TruncateCommitConflict r)), st)
      else
        match (metadata ← read_metadata n io latest; build_table r io latest metadata) with
        | Err err => (Done (Err err), st)
        | Ok base_table =>
            let '(b, reg) := begin_metadata_attempt (L := LiteError) (registry st) TOP_LEVEL_NEST_LEVEL in
            let st := mkCommitState (catalog st) reg (world st) (registrations st) in
            match b with
            | Err err => (Done (Err err), st)
            | Ok id =>
                let st := with_catalog (create_files st (created_files r n)) (during r n (catalog st)) in
                attempt_body plan r io n id latest schedule base_table st
            end
        end
  end.

(** The loop: [remaining] attempts are left, [n] have been made. *)
Fixpoint commit_loop (plan : Plan) (r : Z) (io : FileIO) (max_retries : Z)
    (write_schedule : MaintenanceScheduleUpdate) (remaining n : nat) (st : CommitState)
    : IResult bool * CommitState :=
  match remaining with
  | O => (Err (MetadataCommitConflict r max_retries), st)
  | S remaining' =>
      let '(o, st) := commit_attempt plan r io write_schedule n st in
      match o with
      | Done res => (res, st)
      | Retry => commit_loop plan r io max_retries write_schedule remaining' (S n) st
      end
  end.

(** The deadline proposed by an ordinary commit: [naptime] in microseconds and
    [start] are the maintenance GUC and the transaction start timestamp. *)
Definition write_maintenance_schedule (plan : Plan) (naptime start : Z) : MaintenanceScheduleUpdate :=
  if has_data_change plan
  then ScheduleNoLaterThan (start +ₛ Z.min naptime i64_max) else Preserve.

Definition commit (plan : Plan) (r : Z) (io : FileIO) (max_retries naptime start : Z)
    (st : CommitState) : IResult bool * CommitState :=
  commit_loop plan r io max_retries (write_maintenance_schedule plan naptime start)
    (Z.to_nat (max_retries + 1)) 0 st.

(** ** Attempts are always resolved *)

Definition idle (st : CommitState) : Prop := active_attempt (metadata (registry st)) = None.
Definition promoted_of (st : CommitState) : list Resource := promoted (metadata (registry st)).
Definition entries_of (st : CommitState) := entries (registry st).

(** The attempt [id] is active and owns [rs]. *)
Definition owns (st : CommitState) (id : Z) (rs : list Resource) : Prop :=
  active_attempt (metadata (registry st)) = Some (mkAttempt id rs).

Lemma discard_owned st id rs :
  owns st id rs →
  fst (discard_attempt st id) = Ok tt ∧ idle (snd (discard_attempt st id)) ∧
  promoted_of (snd (discard_attempt st id)) = promoted_of st ∧
  entries_of (snd (discard_attempt st id)) = entries_of st ∧
  catalog (snd (discard_attempt st id)) = catalog st ∧
  registrations (snd (discard_attempt st id)) = registrations st.
Proof.
  unfold owns, discard_attempt, discard_metadata_attempt, take_attempt, idle, promoted_of, entries_of.
  intros ->. simpl. rewrite Z.eqb_refl. simpl.
  by destruct (abort_all _ _ _ (reverse rs) (world st)).
Qed.

Lemma promote_owned st id rs :
  owns st id rs →
  fst (promote_attempt_of st id) = Ok tt ∧ idle (snd (promote_attempt_of st id)) ∧
  promoted_of (snd (promote_attempt_of st id)) = promoted_of st ++ rs ∧
  entries_of (snd (promote_attempt_of st id)) = entries_of st ∧
  catalog (snd (promote_attempt_of st id)) = catalog st ∧
  registrations (snd (promote_attempt_of st id)) = registrations st.
Proof.
  unfold owns, promote_attempt_of, promote_metadata_attempt, promote_attempt, take_attempt.
  unfold idle, promoted_of, entries_of. intros ->. simpl. by rewrite Z.eqb_refl.
Qed.

(** Files created during an attempt belong to it. *)
Lemma create_files_owned st id rs new :
  owns st id rs →
  owns (create_files st new) id (rs ++ new) ∧
  promoted_of (create_files st new) = promoted_of st ∧
  entries_of (create_files st new) = entries_of st.
Proof.
  unfold owns, create_files, promoted_of, entries_of. simpl.
  destruct st as [cat reg w c]; simpl. clear w c.
  revert reg rs. induction new as [|r new IH]; intros reg rs Ha; simpl; [by rewrite app_nil_r|].
  destruct (IH (track reg TOP_LEVEL_NEST_LEVEL r) (rs ++ [r])) as (H1 & H2 & H3).
  { unfold track. by rewrite Ha. }
  rewrite H1, H2, H3, <- (assoc_L (++)). unfold track. by rewrite Ha.
Qed.

Lemma begin_idle st b reg :
  idle st → begin_metadata_attempt (L := LiteError) (registry st) TOP_LEVEL_NEST_LEVEL = (b, reg) →
  entries reg = entries_of st ∧ promoted (metadata reg) = promoted_of st ∧
  match b with
  | Ok id => active_attempt (metadata reg) = Some (mkAttempt id [])
  | Err _ => active_attempt (metadata reg) = None
  end.
Proof.
  unfold idle, begin_metadata_attempt, begin_attempt, entries_of, promoted_of. intros Hi.
  rewrite Hi. unfold checked_add. simpl. destruct (_ <=? _); simpl; by intros [= <- <-].
Qed.

(** ** What one attempt does *)

Section Attempts.
Context `{HL : !HeapCatalogLaws HC} `{CQL : !ObjectCleanupQueueLaws CQ}.
Hypothesis set_iter_elements : ∀ X, set_iter X ≡ₚ elements X.

(** A lost attempt leaves nothing behind: no attempt is open, and neither the
    resources nor the registered deletions of the transaction have changed. *)
Definition quiet (st st' : CommitState) : Prop :=
  idle st' ∧ entries_of st' = entries_of st ∧ promoted_of st' = promoted_of st ∧
  registrations st' = registrations st.

(** What the other backends do in the course of an attempt, and of [n] attempts. *)
Definition others (r : Z) (n : nat) (cat : CatalogState) : CatalogState :=
  gap r n (during r n (before r n cat)).
Fixpoint others_until (r : Z) (n : nat) (cat : CatalogState) : CatalogState :=
  match n with O => cat | S k => others r k (others_until r k cat) end.

(** A catalog that only the other backends have changed. *)
Definition others_step (r : Z) (cat cat' : CatalogState) : Prop :=
  ∃ n, cat' = before r n cat ∨ cat' = during r n cat ∨ cat' = gap r n cat.

(** A failed attempt: no attempt is open and the resources are as they were.  An
    ordinary plan has published, kept and registered nothing; a VACUUM has
    registered at most deletions of its own cleanup. *)
Definition vacuum_failed (r : Z) (st st' : CommitState) : Prop :=
  idle st' ∧ entries_of st' = entries_of st ∧
  ∃ bs rows, registers (registrations st) (registrations st') bs rows ∧ vacuum_only r bs rows.
Definition failed (plan : Plan) (r : Z) (st st' : CommitState) : Prop :=
  vacuum_failed r st st' ∧
  (exclusive_action plan = None →
   quiet st st' ∧ rtc (others_step r) (catalog st) (catalog st')).

Lemma quiet_vacuum_failed r st st' : quiet st st' → vacuum_failed r st st'.
Proof.
  intros (Hi & He & Hp & Hr). split_and!; [done..|].
  exists [], []. rewrite Hr. split; [apply registers_none|apply vacuum_only_none].
Qed.
Hint Resolve quiet_vacuum_failed : core.

Lemma others_rtc r n cat :
  rtc (others_step r) cat (before r n cat) ∧ rtc (others_step r) cat (during r n (before r n cat)) ∧
  rtc (others_step r) cat (others r n cat).
Proof.
  assert (rtc (others_step r) cat (before r n cat)) by (apply rtc_once; exists n; auto).
  assert (rtc (others_step r) cat (during r n (before r n cat))) by
    (eapply rtc_r; [done|exists n; auto]).
  split_and!; [done|done|]. eapply rtc_r; [done|]. exists n. auto.
Qed.

(** The deletions of a successful attempt: those of the VACUUM result, if any, and the
    files that the transaction created and does not reference. *)
Definition succeeded (plan : Plan) (r : Z) (io : FileIO) (result : option VacuumAttemptResult)
    (st st' : CommitState) : Prop :=
  idle st' ∧ entries_of st' = entries_of st ∧
  ∃ bs rows,
    registers (registrations st) (registrations st')
      (bs ++ batch_of storage_of io (canceled_created_paths plan) PurposeCanceledCreatedFiles) rows ∧
    match result with
    | None => bs = [] ∧ rows = []
    | Some res => vacuum_deletions storage_of io r (cleanup_candidates res) bs rows
    end.

(** Reporting and registering after [bs] and [rows] were registered for [result]. *)
Lemma report_and_register_spec plan r io n result result' adv st st1 bs rows :
  idle st1 → entries_of st1 = entries_of st →
  registers (registrations st) (registrations st1) bs rows →
  match result with
  | None => bs = [] ∧ rows = []
  | Some res => vacuum_deletions storage_of io r (cleanup_candidates res) bs rows
  end →
  let '(o, st') := report_and_register plan io n result' adv st1 in
  registry st' = registry st1 ∧ catalog st' = catalog st1 ∧
  (o = Done (Ok adv) ∧ succeeded plan r io result st st' ∨
   ∃ e, o = Done (Err e) ∧ st' = st1 ∧ exclusive_action plan ≠ None).
Proof.
  intros Hi He Hr Hm. unfold report_and_register, report_vacuum.
  assert (succeeded plan r io result st (register_canceled st1 io (canceled_created_paths plan))) as Hs.
  { split; [done|]. split; [done|]. exists bs, rows. split; [|done]. rewrite <- (app_nil_r rows).
    eapply registers_trans; [exact Hr|]. apply register_batch_spec. }
  destruct (exclusive_action plan) as [x|]; [|by auto].
  destruct result' as [res|]; [|by auto].
  destruct (report_success res _); simpl; [by auto|]. split_and!; [done|done|]. right. by eexists.
Qed.

(** Registering the cleanup of a VACUUM. *)
Lemma register_cleanup_of_spec st res r io :
  let '(o, st') := register_cleanup_of st res r io in
  registry st' = registry st ∧ catalog st' = catalog st ∧
  ∃ bs rows, registers (registrations st) (registrations st') bs rows ∧ vacuum_only r bs rows ∧
    (is_ok o = true → vacuum_deletions storage_of io r (cleanup_candidates res) bs rows).
Proof.
  unfold register_cleanup_of.
  pose proof (register_cleanup_spec storage_of set_iter set_iter_elements res r io (registrations st)) as Hc.
  by destruct (register_cleanup _ _ _ _ _ _) as [o d].
Qed.

(** The outcome of an attempt whose metadata did not change: only a VACUUM can fail
    or be retried. *)
Definition unchanged_outcome (plan : Plan) (r : Z) (io : FileIO) (n : nat) (latest : string)
    (schedule : MaintenanceScheduleUpdate) (result : option VacuumAttemptResult) (st : CommitState)
    (o : attempt_outcome) (st' : CommitState) : Prop :=
  match o with
  | Done (Ok b) => b = false ∧ succeeded plan r io result st st' ∧ promoted_of st' = promoted_of st ∧
      (exclusive_action plan = None ∧ catalog st' = catalog st ∨
       exclusive_action plan ≠ None ∧
       finish_maintenance (L := LiteError) r latest schedule (gap r n) (catalog st) = (Ok tt, catalog st'))
  | Done (Err _) => vacuum_failed r st st' ∧ exclusive_action plan ≠ None
  | Retry => quiet st st' ∧ catalog st' = gap r n (catalog st)
  end.

Lemma discard_quiet st id rs : owns st id rs → quiet st (snd (discard_attempt st id)).
Proof. intros Hown. by destruct (discard_owned st id rs Hown) as (_ & ? & ? & ? & _ & ?). Qed.

(** The end of an attempt that changed nothing in the registry since [st1]. *)
Lemma unchanged_report plan r io n latest schedule result result' st st1 st2 bs rows :
  quiet st st1 → registry st2 = registry st1 →
  registers (registrations st) (registrations st2) bs rows → vacuum_only r bs rows →
  match result with
  | None => bs = [] ∧ rows = []
  | Some res => vacuum_deletions storage_of io r (cleanup_candidates res) bs rows
  end →
  (exclusive_action plan = None ∧ catalog st2 = catalog st ∨
   exclusive_action plan ≠ None ∧
   finish_maintenance (L := LiteError) r latest schedule (gap r n) (catalog st) = (Ok tt, catalog st2)) →
  let '(o, st') := report_and_register plan io n result' false st2 in
  unchanged_outcome plan r io n latest schedule result st o st'.
Proof.
  intros (Hi & He & Hp & Hr) Hreg Hrs Hv Hm Hcat.
  unfold idle, entries_of, promoted_of in *. rewrite <- Hreg in *.
  pose proof (report_and_register_spec plan r io n result result' false st st2 bs rows Hi He Hrs Hm) as Hs.
  destruct (report_and_register _ _ _ _ _ _) as [o st']. destruct Hs as (R1 & R2 & Hs).
  unfold unchanged_outcome, vacuum_failed, promoted_of.
  destruct Hs as [[-> Hs]|(e & -> & -> & Hx)].
  - rewrite R1, R2. done.
  - split; [|done]. split_and!; [done..|]. by exists bs, rows.
Qed.

Lemma finish_unchanged_spec plan r io n id latest schedule result st rs :
  owns st id rs → (exclusive_action plan = None → result = None) →
  let '(o, st') := finish_unchanged plan r io n id latest schedule result st in
  unchanged_outcome plan r io n latest schedule result st o st'.
Proof.
  intros Hown Hres. unfold finish_unchanged. pose proof (discard_quiet st id rs Hown) as Hq.
  destruct (discard_owned st id rs Hown) as (H1 & _ & _ & _ & H5 & H6).
  destruct (discard_attempt st id) as [d st1]; simpl in *. subst d.
  destruct (exclusive_action plan) as [x|] eqn:Hx.
  2: { rewrite (Hres eq_refl). eapply (unchanged_report _ _ _ _ _ _ None None st st1 st1 [] []); try done.
       - rewrite H6. apply registers_none.
       - by left. }
  rewrite H5. destruct (finish_maintenance r latest schedule (gap r n) (catalog st)) as [f cat] eqn:Hf.
  destruct f as [[]|err].
  2: { apply finish_maintenance_err in Hf as ->. unfold unchanged_outcome. rewrite Hx.
       repeat case_match; simplify_eq; (split; [by try apply quiet_vacuum_failed|done]). }
  assert (registers (registrations st) (registrations (with_catalog st1 cat)) [] []) as Hnone.
  { simpl. rewrite H6. apply registers_none. }
  assert (∀ result', result = None ∨ (∃ res, result = Some res ∧ cleanup_candidates res = ∅) →
    let '(o, st') := report_and_register plan io n result' false (with_catalog st1 cat) in
    unchanged_outcome plan r io n latest schedule result st o st') as Hsimple.
  { intros result' Hr. eapply (unchanged_report _ _ _ _ _ _ _ _ st st1 _ [] []); try done.
    - destruct Hr as [->|(res & -> & ->)]; [done|apply vacuum_deletions_none].
    - right. rewrite Hx. by split. }
  destruct result as [res|]; [|apply Hsimple; by left].
  unfold has_cleanup. case_bool_decide as Hempty; simpl; [apply Hsimple; right; by eauto|].
  pose proof (register_cleanup_of_spec (with_catalog st1 cat) res r io) as Hc.
  destruct (register_cleanup_of _ res r io) as [c st2]. destruct Hc as (C1 & C2 & bs & rows & C3 & C4 & C5).
  simpl in C1, C2, C3. rewrite H6 in C3. destruct c as [res'|err].
  - eapply (unchanged_report _ _ _ _ _ _ _ _ st st1 _ bs rows); try done; [by apply C5|].
    right. rewrite Hx, C2. by split.
  - unfold unchanged_outcome, vacuum_failed. rewrite Hx. split; [|done].
    destruct Hq as (Q1 & Q2 & _ & _). unfold idle, entries_of in *. rewrite C1. split_and!; [done..|].
    by exists bs, rows.
Qed.

(** The outcome of an attempt that tried to publish [new_location], having created
    [rs]: only a successful swap promotes the files, and only a lost one is
    retried. *)
Definition publish_outcome (plan : Plan) (r : Z) (io : FileIO) (n : nat) (latest new_location : string)
    (schedule : MaintenanceScheduleUpdate) (result : option VacuumAttemptResult) (rs : list Resource)
    (st : CommitState) (o : attempt_outcome) (st' : CommitState) : Prop :=
  match o with
  | Done (Ok b) =>
      cas_update (L := LiteError) r (Some latest) (mkCas (Some new_location) (Some latest) schedule)
        (gap r n) (catalog st) = (Ok b, catalog st') ∧
      promoted_of st' = promoted_of st ++ rs ∧ succeeded plan r io result st st'
  | Done (Err _) => vacuum_failed r st st' ∧
      (exclusive_action plan = None → quiet st st' ∧ catalog st' = gap r n (catalog st))
  | Retry => quiet st st' ∧ catalog st' = gap r n (catalog st)
  end.

(** After the swap and the promotion. *)
Lemma publish_report plan r io n latest new_location schedule result result' rs b cat st st1 st2 bs rows :
  cas_update (L := LiteError) r (Some latest) (mkCas (Some new_location) (Some latest) schedule)
    (gap r n) (catalog st) = (Ok b, cat) →
  idle st1 → entries_of st1 = entries_of st → promoted_of st1 = promoted_of st ++ rs →
  registry st2 = registry st1 → catalog st2 = cat →
  registers (registrations st) (registrations st2) bs rows → vacuum_only r bs rows →
  match result with
  | None => bs = [] ∧ rows = []
  | Some res => vacuum_deletions storage_of io r (cleanup_candidates res) bs rows
  end →
  let '(o, st') := report_and_register plan io n result' b st2 in
  publish_outcome plan r io n latest new_location schedule result rs st o st'.
Proof.
  intros Hcas Hi He Hp Hreg Hcat Hrs Hv Hm.
  unfold idle, entries_of, promoted_of in *. rewrite <- Hreg in *.
  pose proof (report_and_register_spec plan r io n result result' b st st2 bs rows Hi He Hrs Hm) as Hs.
  destruct (report_and_register _ _ _ _ _ _) as [o st']. destruct Hs as (R1 & R2 & Hs).
  unfold publish_outcome, vacuum_failed, promoted_of.
  destruct Hs as [[-> Hs]|(e & -> & -> & Hx)].
  - rewrite R1, R2, Hcat. done.
  - split; [|done]. split_and!; [done..|]. by exists bs, rows.
Qed.

Lemma publish_spec plan r io n id latest new_location schedule result st rs :
  owns st id rs → (exclusive_action plan = None → result = None) →
  let '(o, st') := publish plan r io n id latest new_location schedule result st in
  publish_outcome plan r io n latest new_location schedule result rs st o st'.
Proof.
  intros Hown Hres. unfold publish.
  destruct (cas_update _ _ _ _ _) as [c cat] eqn:Hcas.
  destruct (promote_owned (with_catalog st cat) id rs Hown) as (P1 & P2 & P3 & P4 & P5 & P6).
  destruct (discard_owned (with_catalog st cat) id rs Hown) as (D1 & _ & _ & _ & D5 & _).
  pose proof (discard_quiet (with_catalog st cat) id rs Hown) as Hq.
  destruct (promote_attempt_of (with_catalog st cat) id) as [p stp].
  destruct (discard_attempt (with_catalog st cat) id) as [d std]. simpl in *. subst p d.
  destruct c as [b|err].
  2: { apply cas_update_err in Hcas as ->. unfold publish_outcome.
       repeat case_match; simplify_eq; (split; [by try apply (quiet_vacuum_failed r st)|done]). }
  destruct result as [res|].
  - pose proof (register_cleanup_of_spec stp res r io) as Hc.
    destruct (register_cleanup_of stp res r io) as [c st2].
    destruct Hc as (C1 & C2 & bs & rows & C3 & C4 & C5). rewrite P6 in C3. destruct c as [res'|err].
    + eapply (publish_report _ _ _ _ _ _ _ _ _ _ b cat st stp st2 bs rows); try done; [congruence|].
      by apply C5.
    + unfold publish_outcome, vacuum_failed, idle, entries_of in *. rewrite C1.
      split; [split_and!; [done..|by exists bs, rows]|]. by intros ?%Hres.
  - eapply (publish_report _ _ _ _ _ _ _ None _ _ b cat st stp stp [] []); try done.
    rewrite P6. apply registers_none.
Qed.

(** ** What the loop does *)

(** The base that an attempt works on: the location it read, the metadata found
    there, and what the plan makes of it. *)
Definition based_on (plan : Plan) (r : Z) (io : FileIO) (n : nat) (cat : CatalogState)
    (latest new_location : string) (result : option VacuumAttemptResult) : Prop :=
  ∃ row metadata base_table,
    get (L := LiteError) (before r n cat) r = Ok row ∧ metadata_location row = Some latest ∧
    (∀ expected, truncate_guard plan = Some expected → expected = latest) ∧
    read_metadata n io latest = Ok metadata ∧ build_table r io latest metadata = Ok base_table ∧
    materialize plan n base_table latest = Ok (new_location, result).

(** [cat'] is what the other backends left in the course of attempt [n], except that
    the row of [r] moved from [latest] to [new_location]. *)
Definition published (r : Z) (n : nat) (latest new_location : string)
    (schedule : MaintenanceScheduleUpdate) (b : bool) (cat cat' : CatalogState) : Prop :=
  ∃ old, current_row (others r n cat) r = Some old ∧ metadata_location old = Some latest ∧
    let '(due, advanced) := cas_due (maintenance_due_at old) schedule in
    current_row cat' r = Some (mkRow r (Some new_location) (Some latest) due) ∧ b = advanced ∧
    ∀ r', r' ≠ r → current_row cat' r' = current_row (others r n cat) r'.

(** A successful attempt: it published new metadata with an atomic swap from the
    base it was built on and promoted its files, or it changed nothing but, for a
    VACUUM, the deadline. *)
Definition attempt_success (plan : Plan) (r : Z) (io : FileIO)
    (write_schedule : MaintenanceScheduleUpdate) (n : nat) (b : bool) (st st' : CommitState) : Prop :=
  ∃ latest new_location result, based_on plan r io n (catalog st) latest new_location result ∧
    succeeded plan r io result st st' ∧
    let schedule := attempt_schedule plan write_schedule latest in
    (new_location ≠ latest ∧ promoted_of st' = promoted_of st ++ created_files r n ∧
       published r n latest new_location schedule b (catalog st) (catalog st') ∨
     new_location = latest ∧ promoted_of st' = promoted_of st ∧ b = false ∧
       (exclusive_action plan = None ∧ catalog st' = during r n (before r n (catalog st)) ∨
        exclusive_action plan ≠ None ∧
        finish_maintenance (L := LiteError) r latest schedule (gap r n)
          (during r n (before r n (catalog st))) = (Ok tt, catalog st'))).

Definition attempt_result (plan : Plan) (r : Z) (io : FileIO)
    (write_schedule : MaintenanceScheduleUpdate) (n : nat) (st : CommitState)
    (o : attempt_outcome) (st' : CommitState) : Prop :=
  match o with
  | Done (Ok b) => attempt_success plan r io write_schedule n b st st'
  | Done (Err _) => failed plan r st st'
  | Retry => quiet st st' ∧ catalog st' = others r n (catalog st)
  end.

(** The outcomes speak of the initial state only through what an attempt that has just
    been opened has not changed. *)
Definition untouched (st st2 : CommitState) : Prop :=
  entries_of st2 = entries_of st ∧ promoted_of st2 = promoted_of st ∧
  registrations st2 = registrations st.

Lemma untouched_quiet st st2 st' : untouched st st2 → quiet st2 st' → quiet st st'.
Proof. unfold quiet. by intros (-> & -> & ->). Qed.
Lemma untouched_failed r st st2 st' : untouched st st2 → vacuum_failed r st2 st' → vacuum_failed r st st'.
Proof. unfold vacuum_failed. by intros (-> & _ & ->). Qed.
Lemma untouched_succeeded plan r io result st st2 st' :
  untouched st st2 → succeeded plan r io result st2 st' → succeeded plan r io result st st'.
Proof. unfold succeeded. by intros (-> & _ & ->). Qed.

Lemma materialize_result plan n base latest new_location result :
  materialize plan n base latest = Ok (new_location, result) →
  exclusive_action plan = None → result = None.
Proof.
  unfold materialize. intros Hm Hx. rewrite Hx in Hm. simpl in Hm.
  destruct (apply_to_transaction _ _ _); simpl in Hm; [|done].
  destruct (commit_transaction _ _ _); simpl in Hm; [|done].
  by destruct (table_location _); simplify_eq/=.
Qed.

Lemma attempt_body_spec plan r io ws n id latest base metadata row st st2 :
  owns st2 id (created_files r n) → untouched st st2 →
  catalog st2 = during r n (before r n (catalog st)) →
  get (L := LiteError) (before r n (catalog st)) r = Ok row → metadata_location row = Some latest →
  (∀ expected, truncate_guard plan = Some expected → expected = latest) →
  read_metadata n io latest = Ok metadata → build_table r io latest metadata = Ok base →
  let '(o, st') := attempt_body plan r io n id latest (attempt_schedule plan ws latest) base st2 in
  attempt_result plan r io ws n st o st'.
Proof.
  intros Hown Hu Hcat Hget Hloc Hg Hmd Hbase. unfold attempt_body.
  destruct (others_rtc r n (catalog st)) as (_ & Hrtc & Hrtc2).
  destruct (materialize plan n base latest) as [[new_location result]|err] eqn:Hm.
  2: { pose proof (untouched_quiet _ _ _ Hu (discard_quiet st2 id _ Hown)) as Hq.
       split; [by apply quiet_vacuum_failed|]. intros _. split; [done|].
       destruct (discard_owned st2 id _ Hown) as (_ & _ & _ & _ & -> & _). by rewrite Hcat. }
  assert (based_on plan r io n (catalog st) latest new_location result) as Hb by by exists row, metadata, base.
  pose proof (materialize_result _ _ _ _ _ _ Hm) as Hres.
  case_bool_decide as Heq.
  - pose proof (finish_unchanged_spec plan r io n id latest (attempt_schedule plan ws latest) result st2
      _ Hown Hres) as Hf.
    destruct (finish_unchanged _ _ _ _ _ _ _ _ _) as [[[b|err]|] st']; simpl in Hf; rewrite ?Hcat in Hf.
    + destruct Hf as (-> & Hs & Hp & Hc). exists latest, new_location, result. split; [done|].
      split; [by eapply untouched_succeeded|]. right. destruct Hu as (_ & Hu & _).
      rewrite <- Hu. by split_and!.
    + destruct Hf as [Hf Hx]. split; [by eapply untouched_failed|done].
    + destruct Hf as [Hq Hc]. split; [by eapply untouched_quiet|done].
  - pose proof (publish_spec plan r io n id latest new_location (attempt_schedule plan ws latest) result
      st2 _ Hown Hres) as Hf.
    destruct (publish _ _ _ _ _ _ _ _ _ _) as [[[b|err]|] st']; simpl in Hf; rewrite ?Hcat in Hf.
    + destruct Hf as (Hc & Hp & Hs). exists latest, new_location, result. split; [done|].
      split; [by eapply untouched_succeeded|]. left. destruct Hu as (_ & Hu & _).
      rewrite <- Hu. split_and!; [done|done|]. unfold published.
      apply cas_update_ok in Hc as (old & H1 & H2 & H3 & H4 & H5). exists old. simpl in H3, H4.
      by destruct (cas_due _ _).
    + destruct Hf as [Hf Hx]. split; [by eapply untouched_failed|]. intros [Hq Hc]%Hx.
      split; [by eapply untouched_quiet|]. by rewrite Hc.
    + destruct Hf as [Hq Hc]. split; [by eapply untouched_quiet|done].
Qed.

Lemma commit_attempt_spec plan r io ws n st :
  idle st →
  let '(o, st') := commit_attempt plan r io ws n st in attempt_result plan r io ws n st o st'.
Proof.
  intros Hidle. unfold commit_attempt. set (st0 := with_catalog st (before r n (catalog st))).
  destruct (others_rtc r n (catalog st)) as (Hrtc & _ & _).
  assert (failed plan r st st0) as Hfail.
  { assert (quiet st st0) by done. split; [by apply quiet_vacuum_failed|done]. }
  destruct (get (L := LiteError) (catalog st0) r) as [row|err] eqn:Hget; simpl; [|done].
  destruct (metadata_location row) as [latest|] eqn:Hloc; simpl; [|done].
  destruct (match truncate_guard plan with Some _ => _ | None => _ end) eqn:Hguard; [done|].
  assert (∀ expected, truncate_guard plan = Some expected → expected = latest) as Hg.
  { intros expected He. rewrite He in Hguard. by case_bool_decide. }
  destruct (read_metadata n io latest) as [md|] eqn:Hmd; simpl; [|done].
  destruct (build_table r io latest md) as [base|] eqn:Hbase; [|done].
  destruct (begin_metadata_attempt _ _) as [b reg] eqn:Hb.
  destruct (begin_idle st0 b reg Hidle Hb) as (B1 & B2 & B3).
  destruct b as [id|err].
  2: { assert (quiet st (mkCommitState (catalog st0) reg (world st0) (registrations st0))) by done.
       split; [by apply quiet_vacuum_failed|done]. }
  set (st1 := mkCommitState (catalog st0) reg (world st0) (registrations st0)).
  destruct (create_files_owned st1 id [] (created_files r n) B3) as (C1 & C2 & C3).
  eapply attempt_body_spec; try done. split_and!; [by etrans; [apply C3|]|by etrans; [apply C2|]|done].
Qed.

Lemma quiet_trans st1 st2 st3 : quiet st1 st2 → quiet st2 st3 → quiet st1 st3.
Proof. unfold quiet. intros (_ & ? & ? & ?) (? & ? & ? & ?). split_and!; [done|congruence..]. Qed.

Lemma quiet_untouched st st' : quiet st st' → untouched st st'.
Proof. by intros (_ & ? & ? & ?). Qed.

(** The loop: every attempt before the last one was lost, and changed nothing. *)
Lemma commit_loop_spec plan r io max_retries ws remaining n st :
  idle st →
  let '(res, st') := commit_loop plan r io max_retries ws remaining n st in
  match res with
  | Ok b => ∃ k st0, (k < remaining)%nat ∧ quiet st st0 ∧
      catalog st0 = foldl (λ cat i, others r i cat) (catalog st) (seq n k) ∧
      attempt_success plan r io ws (n + k) b st0 st'
  | Err _ => failed plan r st st'
  end.
Proof.
  revert n st. induction remaining as [|remaining IH]; intros n st Hidle; simpl.
  { assert (quiet st st) by done. split; [by apply quiet_vacuum_failed|done]. }
  pose proof (commit_attempt_spec plan r io ws n st Hidle) as Ha.
  destruct (commit_attempt plan r io ws n st) as [o st1]. destruct o as [[b|e]|]; simpl in Ha.
  - exists 0%nat, st. rewrite Nat.add_0_r. split_and!; try done; lia.
  - done.
  - destruct Ha as [Hq Hc]. specialize (IH (S n) st1 (proj1 Hq)).
    destruct (commit_loop _ _ _ _ _ remaining (S n) st1) as [[b|e] st'].
    + destruct IH as (k & st0 & Hk & Hq0 & Hc0 & Hs). exists (S k), st0. simpl. rewrite <- Hc.
      replace (n + S k)%nat with (S n + k)%nat by lia.
      split_and!; [lia|by eapply quiet_trans|done|done].
    + destruct IH as [Hf Hx]. split; [by eapply untouched_failed, Hf; apply quiet_untouched|].
      intros [Hq2 Hr]%Hx. split; [by eapply quiet_trans|]. etrans; [|exact Hr]. rewrite Hc.
      apply others_rtc.
Qed.



End Attempts.

(** ** All tables of a transaction *)

(** Tables are committed in increasing oid order; the first error stops. *)
Fixpoint commit_tables (tx : TxMetadata (E := E) (FileIO := FileIO)) (max_retries naptime start : Z)
    (oids : list Z) (wakeup : bool) (st : CommitState) : IResult bool * CommitState :=
  match oids with
  | [] => (Ok wakeup, st)
  | r :: oids' =>
      match commit_input tx r with
      | Err err => (Err err, st)
      | Ok None => commit_tables tx max_retries naptime start oids' wakeup st
      | Ok (Some input) =>
          match fst (commit_plan (input_actions input)) with
          | Err err => (Err err, st)
          | Ok plan =>
              let '(res, st) := commit plan r (input_file_io input) max_retries naptime start st in
              match res with
              | Err err => (Err err, st)
              | Ok b => commit_tables tx max_retries naptime start oids' (wakeup || b) st
              end
          end
      end
  end.

Definition table_oids (tx : TxMetadata (E := E) (FileIO := FileIO)) : list Z :=
  merge_sort Z.le (elements (dom (tables tx))).

Definition commit_all (tx : TxMetadata (E := E) (FileIO := FileIO)) (max_retries naptime start : Z)
    (st : CommitState) : IResult bool * CommitState :=
  commit_tables tx max_retries naptime start (table_oids tx) false st.

(** ** Progress *)
Section Progress.
Context `{HL : !HeapCatalogLaws HC}.

(** A swap on an undisturbed row succeeds unless PostgreSQL reports an error. *)
Lemma cas_update_progress r latest new g cat row :
  get (L := LiteError) cat r = Ok row → metadata_location row = Some latest → g cat = cat →
  (∀ c t rw e c', cat_update c t rw ≠ (Err e, c')) →
  ∃ b cat', cas_update (L := LiteError) r (Some latest) new g cat = (Ok b, cat').
Proof.
  unfold get, find, cas_update. intros Hget Hloc Hg Herr.
  destruct (cat_scan cat r) as [[t|]|e] eqn:Hs; simpl in Hget; try done.
  injection Hget as <-. rewrite Hloc, bool_decide_true by done. simpl.
  destruct (cas_due _ _) as [due adv]. rewrite Hg.
  destruct (cat_update cat t _) as [[[]|e] cat'] eqn:Hu; [by eauto| |by apply Herr in Hu].
  apply update_conflict in Hu. destruct Hu. apply scan_current in Hs.
  by rewrite (current_relid _ _ _ (eq_sym Hs)).
Qed.

(** What a first attempt that nobody disturbs makes of the catalog and the files. *)
Definition committed_first (plan : Plan) (r : Z) (io : FileIO) (naptime start : Z)
    (row : IcebergMetadata) (latest new_location : string) (b : bool) (st st' : CommitState) : Prop :=
  if bool_decide (new_location = latest)
  then b = false ∧ catalog st' = catalog st ∧ promoted_of st' = promoted_of st
  else
    let '(due, advanced) :=
      cas_due (maintenance_due_at row) (write_maintenance_schedule plan naptime start) in
    current_row (catalog st') r = Some (mkRow r (Some new_location) (Some latest) due) ∧
    b = advanced ∧
    (∀ r', r' ≠ r → current_row (catalog st') r' = current_row (catalog st) r') ∧
    promoted_of st' = promoted_of st ++ created_files r 0.

(** The body of that attempt. *)
Lemma attempt_body_progress plan r io naptime start id st2 row latest base new_location :
  owns st2 id (created_files r 0) → gap r 0 (catalog st2) = catalog st2 →
  (∀ c t rw e c', cat_update c t rw ≠ (Err e, c')) →
  get (L := LiteError) (catalog st2) r = Ok row → metadata_location row = Some latest →
  exclusive_action plan = None → materialize plan 0 base latest = Ok (new_location, None) →
  ∃ b st', attempt_body plan r io 0 id latest
      (attempt_schedule plan (write_maintenance_schedule plan naptime start) latest) base st2
    = (Done (Ok b), st') ∧
    committed_first plan r io naptime start row latest new_location b st2 st' ∧
    registrations st' =
      register_canceled_files_for_commit storage_of io (canceled_created_paths plan) (registrations st2).
Proof.
  intros Hown Hgap Herr Hget Hloc Hx Hmat. unfold attempt_body, committed_first. rewrite Hmat.
  unfold attempt_schedule. rewrite Hx. set (ws := write_maintenance_schedule plan naptime start).
  case_bool_decide as Heq.
  - unfold finish_unchanged. destruct (discard_owned st2 _ _ Hown) as (D1 & _ & D3 & _ & D5 & D6).
    destruct (discard_attempt _ _) as [d std]. simpl in *. subst d. rewrite Hx.
    unfold report_and_register, report_vacuum. rewrite Hx, <- D6, <- D5, <- D3. by eexists _, _.
  - unfold publish. destruct (cas_update_progress r latest (mkCas (Some new_location) (Some latest) ws)
      (gap r 0) (catalog st2) row) as (b & cat' & Hc); try done.
    rewrite Hc. apply cas_update_ok in Hc as (old & H1 & H2 & H3 & H4 & H5). rewrite Hgap in H1, H5.
    assert (old = row) as ->.
    { unfold get, find in Hget. destruct (cat_scan (catalog st2) r) as [o|] eqn:Hs; [|done].
      apply scan_current in Hs as ->. unfold current_row in H1. rewrite H1 in Hget. by injection Hget. }
    destruct (promote_owned (with_catalog st2 cat') _ _ Hown) as (P1 & _ & P3 & _ & P5 & P6).
    destruct (promote_attempt_of _ _) as [p stp]. simpl in *. subst p.
    unfold report_and_register, report_vacuum. rewrite Hx. eexists _, _. split; [done|].
    rewrite <- P6. split; [|done]. subst cat'. destruct (cas_due _ _) as [due adv]. by split_and!.
Qed.


End Progress.
End Commit.

(** ** Witnesses *)

#[export] Instance ref_table_io : TableIO ref_lite unit := {|
  Table := string * @TableMetadata ref_lite;
  read_metadata _ _ _ := Ok (∅, []);
  build_table _ _ location metadata := Ok (location, metadata);
  table_metadata := snd;
  table_location t := Some (fst t);
  new_transaction _ := [];
  commit_transaction _ base tx :=
    Ok (match tx with [] => fst base | f :: _ => (fst base +:+ "+" +:+ f)%string end, snd base);
|}.

#[export] Instance ref_vacuum_ops : VacuumOps ref_lite unit ref_table_io unit := {|
  completion_token _ := mkToken "" None;
  vacuum_apply_actions _ _ _ _ tx := Ok tx;
  vacuum_finish _ _ _ _ _ := Ok (mkVacuumResult (mkReport 0 0 0 0 0 0 0 0 0 []) {["old"]});
  vacuum_elapsed_ms _ _ := 1;
|}.

(** A queue that stores its rows. *)
#[export] Instance ref_queue : ObjectCleanupQueue := {|
  QueuedTarget := string;
  QueueState := list (Z * string);
  object_cleanup_batch_items := 100;
  enqueue_batch r ts q := (Ok (Z.of_nat (length ts)), q ++ map (pair r) ts);
|}.
#[export] Instance ref_queue_laws : ObjectCleanupQueueLaws ref_queue.
Proof. refine {| queue_rows q := q : list (Z * string) |}. intros r ts q. simpl. by exists ts. Defined.

Definition local_storage (_ : unit) : IoStorage (L := @LiteError ref_lite) (CQ := ref_queue) := LocalStorage true.

Definition example_plan (guard : option string) : TxTableCommitPlan (E := unit) (G := string) :=
  @mkPlan ref_lite unit string
    [@EffData ref_lite (@mkEpoch ref_lite
       [@mkBatch ref_lite 1 (RefDelta false ["a"] ["a"]) None] None) false] None guard ["dead"].

Definition example_state : CommitState (FileIO := unit) (HC := ref_heap) (CQ := ref_queue) (ObjectLocation := string) :=
  mkCommitState (HC := ref_heap) example_catalog StorageResourceRegistry_new (mkWorld ∅ ∅ ∅ 0)
    (mkRegistrations [] []).

(** In the first attempt another backend publishes between our read and our swap. *)
Definition racing (_ : Z) (n : nat) (cat : gmap Z (IcebergMetadata * nat))
    : gmap Z (IcebergMetadata * nat) :=
  match n with
  | O => <[7 := (mkRow 7 (Some "v2.json") (Some "v1.json") None, 1%nat)]> cat
  | S _ => cat
  end.
Definition alone (_ : Z) (_ : nat) (cat : gmap Z (IcebergMetadata * nat))
    : gmap Z (IcebergMetadata * nat) := cat.

Definition attempt_file (_ : Z) (n : nat) : list (StorageResource (ObjectLocation := string)) :=
  [CreatedLocalFile (match n with O => "first.json" | S _ => "second.json" end)].

Definition example_commit (guard : option string) :=
  commit (HC := ref_heap) no_fault no_fault no_fault alone racing alone attempt_file
    local_storage elements (example_plan guard) 7 tt 3 1000 50 example_state.



